(* ===== verification/_CoqProject ===== *)
-Q . S2P
Prelude.v
Utf8.v
Meta.v
MetaFacts.v
Channels.v
Pod.v
VerbsLayout.v
Verbs.v
VerbsSpec.v
VerbsSim.v
VerbsFacts.v
VerbsFrame.v
VerbsApart.v
VerbsOps.v
Providers.v
Readers.v
ReadersFacts.v
Contents.v
ProvidersFacts.v
ProvidersFrame.v
ProviderOps.v
Accounts.v
Race.v
RaceSafe.v
RaceKeys.v
Services.v
Handles.v
ProviderLife.v
ReaderSessions.v
Slots.v
ReaderLife.v
Session.v
SessionUpdate.v
