(* ===== verification/Prelude.v ===== *)
(** * rdmalib, verified

    A model of the Rust crate rdmalib (src/src/) and the theorems that
    make it correct. The crate shares memory between machines over RDMA:
    a provider registers buffers and serves their (address, size, key)
    tuples to groups of readers; a reader fetches the tuples over TCP and
    then reads and writes the buffers directly, through the network card.

    ** How the program is put together

    A reader calls [update]: it opens a TCP channel (meta.rs), greets and
    names its group; the provider's service thread (providers.rs) accepts
    its RDMA connection (rdma/verbs.rs) into the protection domain of the
    group, and answers with the catalog and the group's tuples, creating
    tuples on first request. The reader caches them (readers.rs), hands
    out regions, and every access of a region registers the local buffer,
    posts one work request and waits for its completion. Later updates
    run over the open channel, served by a thread per session.

    ** Files, in order

    Each is a component with its lemmas, or theorems about one.

    - Prelude: results and errors ([res]), stateful calls ([ST], its
      operations, its weakest preconditions [wp], the relations and the
      invariants that calls preserve: [preserves], [settles]), machine
      integers, slices, sums over lists and maps, shared lemmas and
      tactics.
    - Utf8: [String::from_utf8].
    - Meta, MetaFacts, Channels (src/src/meta.rs): messages, [encode],
      [decode] with its cursor, [read_frame], [write_frame], TCP streams
      and [Channel]; that the decoder is the inverse of the encoder, never
      panics and reads a bounded number of bytes, and that a channel never
      blocks for ever and what it takes off its stream.
    - Pod (src/src/pod.rs): type layouts, [RemoteSafe], [zeroed_vec]; that
      accepted types have no invalid bit pattern.
    - VerbsLayout (src/src/rdma/verbs.rs, the repr(C) structures): sizes
      and offsets by the layout rules of Pod.
    - Verbs (the rest of verbs.rs): the foreign interface [ccall], the
      state [world], protection domains, registrations, [Connection],
      [one_sided] with its completion loop, [Listener].
    - VerbsSpec: the resource ledger, read off the log of foreign calls,
      and [VerbsOk], the documented behaviour of the libraries the
      theorems rely on. VerbsSim: a simulated environment that meets it;
      the witnesses run there.
    - VerbsFacts, VerbsFrame, VerbsApart, VerbsOps: what connecting,
      accepting, binding and dropping acquire and release; that domains
      keep their identity; that the queue pairs of other connections stay;
      what reads and writes ask the device for, that they end, and the
      order of connection events.
    - Providers (src/src/providers.rs): the shared state with its three
      tables, [tuple_of], [catalog_and_tuples], the handshake, the service
      loop and the session threads, registration, handles, the drop.
    - Readers (src/src/readers.rs): slots, sessions, [update], [ingest],
      [get_remote_mr], reads and writes of a region.
    - ReadersFacts, Contents: bounds, alignment and resources of accesses;
      what they move, by the documented behaviour of the card ([CardOk]).
    - ProvidersFacts, ProvidersFrame, ProviderOps, Accounts: the invariant
      [wf_shared] of the shared state and that every operation keeps it;
      tuples, exchanges, the rendezvous; registration, the guards of the
      handshake, the order of the drop; what the shared state holds
      ([accounts]).
    - Race, RaceSafe, RaceKeys: requests and the rendezvous cut at their
      lock releases and interleaved in any order, as a step relation:
      invariant and accounts, termination, the condition under which
      answered keys stay valid, and the run in which one does not.
    - Services: the service loop and the session threads as they run; a
      reader that holds the service for ever.
    - Handles: the borrows of a shared buffer.
    - ProviderLife: the life of a provider, from [new] to its drop.
    - ReaderSessions, Slots, ReaderLife: what an exchange leaves in the
      caches, failing updates, lookups; the counts of the shared slots;
      the life of a reader, from [new] to the drop of its last region.
    - Session, SessionUpdate: both sides together: what a handshake sends,
      and what a session thread answers, is what a reader hands out.

    ** How the code is modelled

    A function that can fail or has effects is a computation [ST S A] on
    an explicit state [S]: it returns [Ok], an [io::Error], panics, or
    never returns ([Diverge]); a failing call keeps the changes made
    before it failed, and destructors that run on the way out are written
    out ([on_failure], [finally]). Definitions have the names of the
    source; a method of type T that clashes is prefixed ([conn_drop],
    [pd_clone], [region_read]). Rc and Arc are locations in a store with
    their reference counts, Cell and RefCell their contents; a Mutex is
    the part of the state it guards. A HashMap is a finite map, and its
    iteration order a parameter ([HashOrder]) of which only that it
    visits every entry once is assumed. Integers are Z in range, and
    arithmetic that overflows panics or wraps by the build profile
    ([Profile]), which is a parameter throughout: theorems hold for both.

    The C libraries, sockets, threads, the clock and the allocator are the
    parameter [Verbs W]: it answers every call from a state of its own.
    Each call and its answer is logged, so a theorem can say what was
    asked of the libraries; [ledger] counts what was created and not yet
    released. Where a theorem needs more than arbitrary answers, it needs
    [VerbsOk] (VerbsSpec) or a law stated with it, and where it is about
    contents, [CardOk] (Contents); VerbsSim and the simulated card of
    Contents prove these satisfiable. A thread body is a definition of its
    own, and what it shares is in its state; threads interleave in Race.

    ** Fuel

    Only loops that wait have fuel: the completion loop of [one_sided]
    (its rounds; [one_sided_returns] gives an amount that is always
    enough, from the clock), the service's accept loop and the session
    loop (their rounds: they are meant to run until shutdown). Running
    out of it is [Diverge], never a result.

    ** What the theorems show

    The wire format is exact and robust (MetaFacts); types shared as
    memory have only valid values (Pod); every library object acquired is
    released exactly once, on success and on every failure path but the
    two named in VerbsFacts (bind and accept); an access touches only the
    region and the buffer, asks the device exactly once, and ends
    (VerbsOps, ReadersFacts); what is written is what is read (Contents);
    the shared state of the provider is invariant, and accounts for all it
    acquired, under every operation and every interleaving of requests and
    joining readers (ProvidersFacts, Accounts, RaceSafe); the service runs
    on over failing readers and ends when told to (Services); over the
    whole life of a provider its tuples cover live buffers exactly and its
    drop gives everything back (ProviderLife); over the whole life of a
    reader its connections work, its counts are those of the owners, and
    nothing is leaked or released twice (ReaderLife); caches are exactly
    what the last exchange said, and failing updates leave them alone
    (ReaderSessions); and the two sides agree, when a session opens and at
    every update (Session, SessionUpdate).

    ** Not modelled

    Debug output and the names of events and statuses in error texts,
    which are kept as codes; non-blocking mode of the listener, which is
    how [TcpAccept] behaves; poisoned locks. A foreign call, and accepting
    as a whole, is one step of an interleaving. The memory that one-sided
    operations move is the card's and is described by its laws; writes of
    others to it meanwhile are not. The crate root only re-exports. Tests,
    scripts and the container are not part of the library.

    ** Still open

    The interleaving of several readers' accesses to one region; the
    release of the listeners as part of a provider's life. *)
From Stdlib Require Export ZArith Lia.
From stdpp Require Export base tactics list gmap strings numbers.
From coqutil Require Export Byte Word.LittleEndianList.

Abbreviation byte := Corelib.Init.Byte.byte.

Declare Scope rust_scope.
Delimit Scope rust_scope with rust.
#[global] Open Scope Z_scope.

(** ** Results of a call

    A Rust call ends in one of four ways: it returns [Ok], it returns an
    [io::Error], it panics, or it never comes back (a blocking system
    call nobody answers, a loop that does not end). *)

(** The [std::io::ErrorKind]s the library produces or passes on. *)
Inductive ErrorKind :=
| InvalidData | InvalidInput | UnexpectedEof | TimedOut | WouldBlock
| WriteZero | BrokenPipe | ConnectionRefused | Unsupported | OtherKind | OsKind.

(** An argument of a [format!]ed error text. *)
Inductive fmt_arg :=
| FInt (z : Z)
| FText (bs : list byte).

(** An [io::Error]: its kind, and its text as the format string of the
    source with the arguments it is given. *)
Record io_error := IoError {
  kind : ErrorKind;
  text : string;
  args : list fmt_arg;
}.

Inductive res (A : Type) :=
| Ok (a : A)
| Err (e : io_error)
| Panic (why : string)
| Diverge.
Arguments Ok {A} a.
Arguments Err {A} e.
Arguments Panic {A} why.
Arguments Diverge {A}.

#[export] Instance ErrorKind_eq_dec : EqDecision ErrorKind.
Proof. solve_decision. Defined.
#[export] Instance byte_eq_dec : EqDecision byte := Strings.Byte.byte_eq_dec.
#[export] Instance fmt_arg_eq_dec : EqDecision fmt_arg.
Proof. solve_decision. Defined.
#[export] Instance io_error_eq_dec : EqDecision io_error.
Proof. solve_decision. Defined.

(** [io::Error::other], [io::Error::new]. *)
Definition error_other (t : string) (a : list fmt_arg) : io_error := IoError OtherKind t a.
Definition error_input (t : string) (a : list fmt_arg) : io_error := IoError InvalidInput t a.

#[export] Instance res_ret : MRet res := fun _ a => Ok a.
#[export] Instance res_bind : MBind res := fun A B f m =>
  match m with
  | Ok a => f a
  | Err e => Err e
  | Panic w => Panic w
  | Diverge => Diverge
  end.

(** A call returned: it neither panicked nor blocked for ever. *)
Definition returns {A} (r : res A) : Prop :=
  match r with Ok _ | Err _ => True | _ => False end.

(** ** Stateful calls

    [ST S A]: a computation on state [S]. [?] of the source is the bind;
    a failing call keeps the changes it made before it failed. *)
Definition ST (S A : Type) : Type := S -> res A * S.

#[export] Instance ST_ret {S} : MRet (ST S) := fun _ a s => (Ok a, s).
#[export] Instance ST_bind {S} : MBind (ST S) := fun A B f m s =>
  match m s with
  | (Ok a, s') => f a s'
  | (Err e, s') => (Err e, s')
  | (Panic w, s') => (Panic w, s')
  | (Diverge, s') => (Diverge, s')
  end.

Section ST_ops.
Context {S : Type}.

Definition get : ST S S := fun s => (Ok s, s).
Definition put (s : S) : ST S unit := fun _ => (Ok tt, s).
Definition modify (f : S -> S) : ST S unit := fun s => (Ok tt, f s).
Definition fail {A} (e : io_error) : ST S A := fun s => (Err e, s).
Definition panic {A} (why : string) : ST S A := fun s => (Panic why, s).
Definition lift {A} (r : res A) : ST S A := fun s => (r, s).
Definition diverge {A} : ST S A := fun s => (Diverge, s).

(** Run [m]; if it fails or panics, run [cleanup] (the destructors of
    what [m] leaves behind) and fail or panic all the same. *)
Definition on_failure {A} (m : ST S A) (cleanup : ST S unit) : ST S A := fun s =>
  match m s with
  | (Err e, s') => (Err e, snd (cleanup s'))
  | (Panic w, s') => (Panic w, snd (cleanup s'))
  | done => done
  end.

(** Run [m], then [cleanup] however [m] ended. *)
Definition finally {A} (m : ST S A) (cleanup : ST S unit) : ST S A := fun s =>
  match m s with
  | (Diverge, s') => (Diverge, s')
  | (r, s') => (r, snd (cleanup s'))
  end.

(** Run [m] and hand its result over as a value: a [match] on a
    [Result]. Panics and blocked calls still propagate. *)
Definition catch {A} (m : ST S A) : ST S (A + io_error) := fun s =>
  match m s with
  | (Ok a, s') => (Ok (inl a), s')
  | (Err e, s') => (Ok (inr e), s')
  | (Panic w, s') => (Panic w, s')
  | (Diverge, s') => (Diverge, s')
  end.

(** [for _ in 0..count { acc = body(acc)?; }]: the body is run [count]
    times or until it fails. The recursion is on the binary count, so a
    failing body stops a loop of 2^32 rounds at its first failure. *)
Fixpoint for_pos {B} (n : positive) (body : B -> ST S B) (b : B) : ST S B :=
  match n with
  | xH => body b
  | xO n => b1 ← for_pos n body b; for_pos n body b1
  | xI n => b0 ← body b; b1 ← for_pos n body b0; for_pos n body b1
  end.

Definition for_count {B} (count : Z) (body : B -> ST S B) (b : B) : ST S B :=
  match count with
  | Zpos n => for_pos n body b
  | _ => mret b
  end.

(** The same loop by unary recursion: the reference for proofs. *)
Fixpoint for_nat {B} (n : nat) (body : B -> ST S B) (b : B) : ST S B :=
  match n with
  | O => mret b
  | Datatypes.S n => b1 ← body b; for_nat n body b1
  end.

(** [for x in xs { body(x)?; }] *)
Fixpoint for_each {X B} (xs : list X) (body : X -> B -> ST S B) (b : B) : ST S B :=
  match xs with
  | [] => mret b
  | x :: xs => b1 ← body x b; for_each xs body b1
  end.

(** State in two parts: a computation on one of them, and one with a
    local variable that starts as [x]. *)
Definition on_snd {X A} (m : ST S A) : ST (X * S) A := fun '(x, s) =>
  let '(r, s') := m s in (r, (x, s')).
Definition on_fst {X A} (m : ST S A) : ST (S * X) A := fun '(s, x) =>
  let '(r, s') := m s in (r, (s', x)).
Definition with_local {X A} (x : X) (m : ST (X * S) A) : ST S (A * X) := fun s =>
  match m (x, s) with
  | (Ok a, (x', s')) => (Ok (a, x'), s')
  | (Err e, (_, s')) => (Err e, s')
  | (Panic w, (_, s')) => (Panic w, s')
  | (Diverge, (_, s')) => (Diverge, s')
  end.
End ST_ops.
Arguments for_pos {S B} n body b : simpl never.
Arguments for_count {S B} count body b : simpl never.

(** ** Machine integers

    A [u16], [u32], [u64] or [usize] (64-bit targets) is a [Z] in range.
    [+], [-] and [*] panic on overflow where overflow checks are compiled
    in (the dev profile) and wrap where they are not (the release
    profile); the profile is a parameter of the whole development. *)
Class Profile := overflow_checks : bool.

Definition fits (w z : Z) : Prop := 0 <= z < 2 ^ w.
#[export] Instance fits_dec w z : Decision (fits w z).
Proof. unfold fits. apply _. Defined.

Definition as_u32 (z : Z) : Z := z mod 2 ^ 32.
Definition as_u64 (z : Z) : Z := z mod 2 ^ 64.
Definition U64_MAX : Z := 2 ^ 64 - 1.

Section machine_ints.
Context {P : Profile}.

Definition overflowed (w z : Z) (why : string) : res Z :=
  if (0 <=? z) && (z <? 2 ^ w) then Ok z
  else if overflow_checks then Panic why else Ok (z mod 2 ^ w).

Definition uint_add (w a b : Z) : res Z := overflowed w (a + b) "attempt to add with overflow".
Definition uint_sub (w a b : Z) : res Z := overflowed w (a - b) "attempt to subtract with overflow".
Definition uint_mul (w a b : Z) : res Z := overflowed w (a * b) "attempt to multiply with overflow".
End machine_ints.

Definition saturating_add (a b : Z) : Z := Z.min (a + b) U64_MAX.
Definition saturating_mul (a b : Z) : Z := Z.min (a * b) U64_MAX.

(** [u64::is_multiple_of]: zero is a multiple of zero only. *)
Definition is_multiple_of (a b : Z) : bool := if b =? 0 then a =? 0 else a mod b =? 0.

(** ** Slices *)
Definition zlen {A} (l : list A) : Z := Z.of_nat (length l).

(** [&l[a..b]] *)
Definition slice {A} (l : list A) (a b : Z) : res (list A) :=
  if (0 <=? a) && (a <=? b) && (b <=? zlen l)
  then Ok (take (Z.to_nat (b - a)) (drop (Z.to_nat a) l))
  else Panic "range out of bounds for slice".

(** [l[i]] *)
Definition index {A} (l : list A) (i : nat) : res A :=
  match l !! i with Some x => Ok x | None => Panic "index out of bounds" end.

(** [dst.copy_from_slice(src)] on a [dst] of [n] elements. *)
Definition copy_from_slice {A} (n : nat) (src : list A) : res (list A) :=
  if decide (length src = n) then Ok src else Panic "copy_from_slice: source slice length mismatch".

(** A Rust [String]: its bytes. *)
Abbreviation rstring := (list byte).
Definition rstr (s : string) : rstring := String.list_byte_of_string s.

(** ** Weakest preconditions

    [wp m Q E s]: run from [s], [m] returns a value in a state satisfying
    [Q], or fails in a state satisfying [E], or never returns, in a state
    where that is excused ([blocked]); it does not panic. *)
Class Blocking (S : Type) := blocked : S -> Prop.

Definition wp {S A} `{Blocking S} (m : ST S A) (Q : A -> S -> Prop) (E : S -> Prop) (s : S) : Prop :=
  match m s with
  | (Ok a, s') => Q a s'
  | (Err _, s') => E s'
  | (Panic _, _) => False
  | (Diverge, s') => blocked s'
  end.

(** ** Generic lemmas *)
Create HintDb rust discriminated.
Create Rewrite HintDb zlens.

(** Reduce the monad operations at a known state. *)
Ltac st_cbn :=
  cbv beta iota delta [mbind mret ST_bind ST_ret res_bind res_ret get put modify fail panic lift catch];
  cbn [fst snd].
Ltac st_cbn_in H :=
  cbv beta iota delta [mbind mret ST_bind ST_ret res_bind res_ret get put modify fail panic lift catch] in H;
  cbn [fst snd] in H.

(** Split the conditions of a goal or of a hypothesis into arithmetic. *)
Ltac bool_to_prop :=
  repeat match goal with
  | H : context [_ && _ = true] |- _ => rewrite andb_true_iff in H
  | H : context [_ && _ = false] |- _ => rewrite andb_false_iff in H
  | H : context [_ || _ = true] |- _ => rewrite orb_true_iff in H
  | H : context [_ || _ = false] |- _ => rewrite orb_false_iff in H
  | H : context [negb _ = true] |- _ => rewrite negb_true_iff in H
  | H : context [negb _ = false] |- _ => rewrite negb_false_iff in H
  | H : context [(_ <=? _) = true] |- _ => rewrite Z.leb_le in H
  | H : context [(_ <=? _) = false] |- _ => rewrite Z.leb_gt in H
  | H : context [(_ <? _) = true] |- _ => rewrite Z.ltb_lt in H
  | H : context [(_ <? _) = false] |- _ => rewrite Z.ltb_ge in H
  | H : context [(_ =? _) = true] |- _ => rewrite Z.eqb_eq in H
  | H : context [(_ =? _) = false] |- _ => rewrite Z.eqb_neq in H
  end.

Section ST_lemmas.
Context {S : Type}.

Lemma ST_bind_Ok {A B} (m : ST S A) (f : A -> ST S B) s b s' :
  (m ≫= f) s = (Ok b, s') <-> exists a s1, m s = (Ok a, s1) /\ f a s1 = (Ok b, s').
Proof.
  st_cbn. destruct (m s) as [[a|e|w|] s1]; split.
  all: try (intros H; inversion H; fail).
  all: try (intros (a' & s1' & H & H'); inversion H; subst; exact H').
  intros H. by exists a, s1.
Qed.

Lemma ST_bind_step {A B} (m : ST S A) (f : A -> ST S B) s a s1 :
  m s = (Ok a, s1) -> (m ≫= f) s = f a s1.
Proof. intros H. st_cbn. by rewrite H. Qed.

Lemma ST_bind_err {A B} (m : ST S A) (f : A -> ST S B) s e s1 :
  m s = (Err e, s1) -> (m ≫= f) s = (Err e, s1).
Proof. intros H. st_cbn. by rewrite H. Qed.

Lemma ST_bind_panic {A B} (m : ST S A) (f : A -> ST S B) s why s1 :
  m s = (Panic why, s1) -> (m ≫= f) s = (Panic why, s1).
Proof. intros H. st_cbn. by rewrite H. Qed.

Lemma ST_bind_diverge {A B} (m : ST S A) (f : A -> ST S B) s s1 :
  m s = (Diverge, s1) -> (m ≫= f) s = (Diverge, s1).
Proof. intros H. st_cbn. by rewrite H. Qed.

Lemma ST_bind_assoc {A B C} (m : ST S A) (f : A -> ST S B) (g : B -> ST S C) s :
  ((m ≫= f) ≫= g) s = (m ≫= (fun a => f a ≫= g)) s.
Proof. st_cbn. by destruct (m s) as [[] ?]. Qed.

Lemma ST_bind_ext {A B} (m : ST S A) (f g : A -> ST S B) s :
  (forall a s', f a s' = g a s') -> (m ≫= f) s = (m ≫= g) s.
Proof. intros H. st_cbn. destruct (m s) as [[] ?]; auto. Qed.

Lemma for_nat_add {B} (n m : nat) (body : B -> ST S B) b s :
  for_nat (n + m) body b s = (for_nat n body b ≫= for_nat m body) s.
Proof.
  revert b s. induction n as [|n IH]; intros b s; [done|].
  cbn [for_nat Nat.add]. rewrite ST_bind_assoc. apply ST_bind_ext; intros. apply IH.
Qed.

Lemma for_pos_nat {B} (n : positive) (body : B -> ST S B) b s :
  for_pos n body b s = for_nat (Pos.to_nat n) body b s.
Proof.
  revert b s. induction n as [n IH|n IH|]; intros b s.
  - replace (Pos.to_nat n~1) with (Datatypes.S (Pos.to_nat n + Pos.to_nat n)) by lia.
    change (for_pos n~1 body b s)
      with ((body b ≫= fun b0 => for_pos n body b0 ≫= for_pos n body) s).
    cbn [for_nat]. apply ST_bind_ext; intros. rewrite for_nat_add.
    st_cbn. rewrite IH. destruct (for_nat _ _ _ _) as [[] ?]; auto.
  - replace (Pos.to_nat n~0) with (Pos.to_nat n + Pos.to_nat n)%nat by lia.
    change (for_pos n~0 body b s) with ((for_pos n body b ≫= for_pos n body) s).
    rewrite for_nat_add. st_cbn. rewrite IH. destruct (for_nat _ _ _ _) as [[] ?]; auto.
  - change (Pos.to_nat 1) with 1%nat. change (for_pos 1 body b s) with (body b s).
    cbn [for_nat]. st_cbn. by destruct (body b s) as [[] ?].
Qed.

(** The binary loop runs its body as often as the unary one. *)
Lemma for_count_nat {B} (n : nat) (body : B -> ST S B) b s :
  for_count (Z.of_nat n) body b s = for_nat n body b s.
Proof.
  destruct n as [|n]; [done|].
  change (Z.of_nat (Datatypes.S n)) with (Zpos (Pos.of_succ_nat n)). unfold for_count.
  rewrite for_pos_nat. f_equal. lia.
Qed.
End ST_lemmas.

Section wp_lemmas.
Context {S : Type} `{Blocking S}.

Lemma wp_ret {A} (a : A) Q E (s : S) : Q a s -> wp (mret a) Q E s.
Proof. done. Qed.

Lemma wp_fail {A} e (Q : A -> S -> Prop) (E : S -> Prop) s : E s -> wp (fail e) Q E s.
Proof. done. Qed.

Lemma wp_bind {A B} (m : ST S A) (k : A -> ST S B) Q E s :
  wp m (fun a => wp (k a) Q E) E s -> wp (m ≫= k) Q E s.
Proof. unfold wp. st_cbn. by destruct (m s) as [[] ?]. Qed.

Lemma wp_mono {A} (m : ST S A) (Q Q' : A -> S -> Prop) (E E' : S -> Prop) s :
  wp m Q E s -> (forall a s', Q a s' -> Q' a s') -> (forall s', E s' -> E' s') ->
  wp m Q' E' s.
Proof. unfold wp. destruct (m s) as [[] ?]; auto. Qed.

Lemma wp_on_failure {A} (m : ST S A) cleanup Q E s :
  wp m Q (fun s' => E (snd (cleanup s'))) s -> wp (on_failure m cleanup) Q E s.
Proof. unfold wp, on_failure. by destruct (m s) as [[] ?]. Qed.

Lemma wp_finally {A} (m : ST S A) cleanup Q E s :
  wp m (fun a s' => Q a (snd (cleanup s'))) (fun s' => E (snd (cleanup s'))) s ->
  wp (finally m cleanup) Q E s.
Proof. unfold wp, finally. by destruct (m s) as [[] ?]. Qed.
End wp_lemmas.

(** ** Computations within a relation

    [preserves R m]: however [m] ends, the state it leaves is related by
    [R] to the one it found. For a preorder the rule for each operation
    follows, and so what a long computation leaves alone is settled by
    what its calls leave alone. *)
Definition preserves {S} (R : relation S) {A} (m : ST S A) : Prop := forall s, R s (snd (m s)).

Lemma preorder_preimage {S T} (f : S -> T) (R : relation T) :
  PreOrder R -> PreOrder (fun s s' => R (f s) (f s')).
Proof.
  intros HR. split; [intros s|intros s1 s2 s3 H1 H2]; [reflexivity|]. by transitivity (f s2).
Qed.

(** A predicate as the relation that keeps it. *)
#[export] Instance preorder_keep {S} (I : S -> Prop) : PreOrder (fun s s' => I s -> I s').
Proof. split; [by intros s|]. intros s1 s2 s3 H1 H2 H. auto. Qed.

Section preserves.
Context {S : Type} (R : relation S) {HR : PreOrder R}.

Lemma preserves_pure {A} (m : ST S A) : (forall s, snd (m s) = s) -> preserves R m.
Proof. intros H s. by rewrite H. Qed.

Lemma preserves_bind {A B} (m : ST S A) (k : A -> ST S B) :
  preserves R m -> (forall a, preserves R (k a)) -> preserves R (m ≫= k).
Proof.
  intros Hm Hk s. specialize (Hm s). st_cbn. destruct (m s) as [[a|e|y|] s1]; try done.
  etrans; [exact Hm|apply (Hk a s1)].
Qed.

Lemma preserves_on_failure {A} (m : ST S A) cl :
  preserves R m -> preserves R cl -> preserves R (on_failure m cl).
Proof.
  intros Hm Hc s. specialize (Hm s). unfold on_failure. destruct (m s) as [[a|e|y|] s1]; try done.
  all: etrans; [exact Hm|apply (Hc s1)].
Qed.

Lemma preserves_finally {A} (m : ST S A) cl :
  preserves R m -> preserves R cl -> preserves R (finally m cl).
Proof.
  intros Hm Hc s. specialize (Hm s). unfold finally. destruct (m s) as [[a|e|y|] s1]; try done.
  all: etrans; [exact Hm|apply (Hc s1)].
Qed.

Lemma preserves_catch {A} (m : ST S A) : preserves R m -> preserves R (catch m).
Proof. intros Hm s. specialize (Hm s). unfold catch. by destruct (m s) as [[] s1]. Qed.

Lemma preserves_for_each {X B} (xs : list X) (body : X -> B -> ST S B) :
  (forall x b, preserves R (body x b)) -> forall b, preserves R (for_each xs body b).
Proof.
  intros H. induction xs as [|x xs IH]; intros b; [by apply (preserves_pure _)|].
  cbn [for_each]. apply (preserves_bind _); auto.
Qed.

Lemma preserves_on_snd {X A} (m : ST S A) :
  preserves R m -> preserves (fun s s' : X * S => R (snd s) (snd s')) (on_snd m).
Proof. intros Hm [x s]. specialize (Hm s). unfold on_snd. by destruct (m s). Qed.
End preserves.

Create HintDb preserves discriminated.
#[export] Hint Resolve preserves_bind preserves_on_failure preserves_finally preserves_catch
  preserves_for_each preserves_on_snd : preserves.
#[export] Hint Extern 2 (preserves _ (mret _)) => by apply (preserves_pure _) : preserves.
#[export] Hint Extern 2 (preserves _ (fail _)) => by apply (preserves_pure _) : preserves.
#[export] Hint Extern 2 (preserves _ (panic _)) => by apply (preserves_pure _) : preserves.
#[export] Hint Extern 2 (preserves _ diverge) => by apply (preserves_pure _) : preserves.
#[export] Hint Extern 2 (preserves _ (lift _)) => by apply (preserves_pure _) : preserves.
#[export] Hint Extern 0 (PreOrder _) => typeclasses eauto : preserves.

(** [settles I m]: if [m] returns at all, it keeps [I]. *)
Definition settles {S} (I : S -> Prop) {A} (m : ST S A) : Prop := forall s, I s ->
  match m s with
  | (Diverge, _) => True
  | (_, s') => I s'
  end.

Lemma settles_bind {S} (I : S -> Prop) {A B} (m : ST S A) (k : A -> ST S B) :
  settles I m -> (forall a, settles I (k a)) -> settles I (m ≫= k).
Proof.
  intros Hm Hk s Hs. specialize (Hm s Hs). st_cbn. destruct (m s) as [[a|e|y|] s1]; try done.
  exact (Hk a s1 Hm).
Qed.

Lemma settles_pure {S} (I : S -> Prop) {A} (m : ST S A) : (forall s, snd (m s) = s) -> settles I m.
Proof. intros Hm s Hs. specialize (Hm s). destruct (m s) as [[] s1]; cbn in Hm; by subst. Qed.

Lemma settles_catch {S} (I : S -> Prop) {A} (m : ST S A) : settles I m -> settles I (catch m).
Proof. intros Hm s Hs. specialize (Hm s Hs). unfold catch. by destruct (m s) as [[] s']. Qed.

Lemma settles_for_each {S} (I : S -> Prop) {X B} (xs : list X) (body : X -> B -> ST S B) :
  (forall x b, settles I (body x b)) -> forall b, settles I (for_each xs body b).
Proof.
  intros H. induction xs as [|x xs IH]; intros b; [by apply settles_pure|].
  cbn [for_each]. by apply settles_bind.
Qed.

(** ** Sums over a finite map *)
Definition map_sum {K A} `{Countable K} (f : A -> Z) (m : gmap K A) : Z :=
  map_fold (fun _ x n => f x + n) 0 m.

Section map_sum.
Context {K A : Type} `{Countable K} (f : A -> Z).
Implicit Types m : gmap K A.

Lemma map_sum_empty : map_sum f (∅ : gmap K A) = 0.
Proof. apply map_fold_empty. Qed.

Lemma map_sum_insert k x m : m !! k = None -> map_sum f (<[k := x]> m) = f x + map_sum f m.
Proof. intros Hk. unfold map_sum. rewrite map_fold_insert_L; [done|intros; lia|done]. Qed.

Lemma map_sum_delete k x m : m !! k = Some x -> map_sum f (delete k m) = map_sum f m - f x.
Proof.
  intros Hk. rewrite <- (insert_delete_id m k x Hk) at 2.
  rewrite map_sum_insert by apply lookup_delete_eq. lia.
Qed.

Lemma map_sum_update k x y m :
  m !! k = Some x -> map_sum f (<[k := y]> m) = map_sum f m - f x + f y.
Proof.
  intros Hk. rewrite <- insert_delete_eq, map_sum_insert by apply lookup_delete_eq.
  rewrite (map_sum_delete k x) by done. lia.
Qed.

Lemma map_sum_nonneg m : (forall k x, m !! k = Some x -> 0 <= f x) -> 0 <= map_sum f m.
Proof.
  induction m as [|k x m Hk IH] using map_ind; intros Hf; [by rewrite map_sum_empty|].
  rewrite map_sum_insert by done. specialize (Hf k x (lookup_insert_eq _ _ _)) as Hx.
  enough (0 <= map_sum f m) by lia. apply IH. intros k' y Hy. apply (Hf k').
  rewrite lookup_insert_ne; [done|congruence].
Qed.

Lemma map_sum_ge k x m :
  (forall k x, m !! k = Some x -> 0 <= f x) -> m !! k = Some x -> f x <= map_sum f m.
Proof.
  intros Hf Hk. pose proof (map_sum_delete k x m Hk).
  enough (0 <= map_sum f (delete k m)) by lia. apply map_sum_nonneg.
  intros k' y Hy. apply lookup_delete_Some in Hy as [_ Hy]. by apply (Hf k').
Qed.
End map_sum.

Arguments map_sum {K A _ _} f m : simpl never.

(** The same over a list. *)
Fixpoint sum_over {A} (f : A -> Z) (l : list A) : Z :=
  match l with
  | [] => 0
  | x :: l => f x + sum_over f l
  end.

Lemma sum_over_app {A} (f : A -> Z) l k : sum_over f (l ++ k) = sum_over f l + sum_over f k.
Proof. induction l as [|x l IH]; cbn; lia. Qed.

Lemma sum_over_Permutation {A} (f : A -> Z) l k : Permutation l k -> sum_over f l = sum_over f k.
Proof. induction 1; cbn; lia. Qed.

Lemma sum_over_nonneg {A} (f : A -> Z) l : (forall x, 0 <= f x) -> 0 <= sum_over f l.
Proof. intros H. induction l as [|x l IH]; cbn; [lia|]. specialize (H x). lia. Qed.

Lemma map_sum_list {K A} `{Countable K} (f : A -> Z) (m : gmap K A) :
  map_sum f m = sum_over (fun kx => f (snd kx)) (map_to_list m).
Proof.
  induction m as [|k x m Hk IH] using map_ind; [by rewrite map_sum_empty, map_to_list_empty|].
  rewrite map_sum_insert, IH by done.
  by rewrite (sum_over_Permutation _ _ _ (map_to_list_insert m k x Hk)).
Qed.

Section int_lemmas.
Context {P : Profile}.

Lemma overflowed_fits w z why : fits w z -> overflowed w z why = Ok z.
Proof.
  unfold fits, overflowed. intros [H1 H2].
  by rewrite (proj2 (Z.leb_le _ _) H1), (proj2 (Z.ltb_lt _ _) H2).
Qed.

Lemma uint_add_fits w a b : fits w (a + b) -> uint_add w a b = Ok (a + b).
Proof. apply overflowed_fits. Qed.
Lemma uint_sub_fits w a b : fits w (a - b) -> uint_sub w a b = Ok (a - b).
Proof. apply overflowed_fits. Qed.

Lemma overflowed_cases w z why :
  fits w z /\ overflowed w z why = Ok z \/
  ~ fits w z /\ overflow_checks = true /\ overflowed w z why = Panic why \/
  ~ fits w z /\ overflow_checks = false /\ overflowed w z why = Ok (z mod 2 ^ w).
Proof.
  unfold fits, overflowed. destruct (_ && _) eqn:E.
  - left. bool_to_prop. done.
  - right. assert (~ (0 <= z < 2 ^ w)) by (intros ?; bool_to_prop; lia).
    destruct overflow_checks; [left|right]; done.
Qed.
End int_lemmas.

Lemma zlen_app {A} (l k : list A) : zlen (l ++ k) = zlen l + zlen k.
Proof. unfold zlen. rewrite length_app. lia. Qed.
Lemma zlen_nonneg {A} (l : list A) : 0 <= zlen l.
Proof. unfold zlen. lia. Qed.
Lemma zlen_cons {A} (x : A) l : zlen (x :: l) = 1 + zlen l.
Proof. unfold zlen. cbn. lia. Qed.
Lemma zlen_nil {A} : zlen (@nil A) = 0.
Proof. done. Qed.
#[export] Hint Rewrite @zlen_app @zlen_cons @zlen_nil : zlens.
#[export] Hint Resolve zlen_nonneg : rust.

Lemma slice_at {A} (pre mid post : list A) (b : Z) :
  b = zlen pre + zlen mid -> slice (pre ++ mid ++ post) (zlen pre) b = Ok mid.
Proof.
  intros ->. unfold slice.
  assert ((0 <=? zlen pre) && (zlen pre <=? zlen pre + zlen mid)
    && (zlen pre + zlen mid <=? zlen (pre ++ mid ++ post)) = true) as ->.
  { rewrite !zlen_app. pose proof (zlen_nonneg pre). pose proof (zlen_nonneg mid).
    pose proof (zlen_nonneg post). lia. }
  unfold zlen. rewrite Nat2Z.id, drop_app_length.
  replace (Z.to_nat _) with (length mid) by lia. by rewrite take_app_length.
Qed.

(** ** Little-endian integers *)
Lemma le_combine_fits bs : fits (8 * zlen bs) (le_combine bs).
Proof. apply le_combine_bound. Qed.

Lemma le_split_combine n bs : length bs = n -> le_split n (le_combine bs) = bs.
Proof. intros <-. apply split_le_combine. Qed.

Lemma le_combine_split_fits n z : fits (Z.of_nat n * 8) z -> le_combine (le_split n z) = z.
Proof. intros H. rewrite le_combine_split. by apply Z.mod_small. Qed.

Lemma zlen_le_split n z : zlen (le_split n z) = Z.of_nat n.
Proof. unfold zlen. by rewrite length_le_split. Qed.
#[export] Hint Rewrite zlen_le_split : zlens.

Ltac zlens := autorewrite with zlens in *.

(** One for the location [l], nothing for others: the summand of a count. *)
Definition at_loc (l l' : Z) : Z := if l' =? l then 1 else 0.

Lemma at_loc_nonneg l l' : 0 <= at_loc l l'.
Proof. unfold at_loc. case_match; lia. Qed.
Lemma at_loc_eq l : at_loc l l = 1.
Proof. unfold at_loc. by rewrite Z.eqb_refl. Qed.
Lemma at_loc_ne l l' : l <> l' -> at_loc l l' = 0.
Proof. intros H. unfold at_loc. by rewrite (proj2 (Z.eqb_neq l' l)) by congruence. Qed.
