(* ===== verification/Utf8.v ===== *)
(** * [std::str::from_utf8]

    The validity check the frame decoder runs on every string it
    receives: the byte ranges of well-formed UTF-8 (Unicode table 3-7),
    as the standard library checks them: no surrogates, no overlong
    forms, nothing above U+10FFFF. A Rust [String] is modelled by its
    bytes, which always pass this check. The encoder of Unicode scalar
    values is the reference the check is compared with. *)
From S2P Require Import Prelude.

(** [lo <= b <= hi] *)
Definition in_range (b : byte) (lo hi : Z) : bool :=
  (lo <=? byte.unsigned b) && (byte.unsigned b <=? hi).

(** A continuation byte, 10xxxxxx. *)
Definition cont (b : byte) : bool := in_range b 0x80 0xBF.

(** The run-time check, one character per step. *)
Fixpoint utf8_valid (bs : list byte) : bool :=
  match bs with
  | [] => true
  | b0 :: t0 =>
    if in_range b0 0 0x7F then utf8_valid t0 else
    match t0 with
    | [] => false
    | b1 :: t1 =>
      if in_range b0 0xC2 0xDF then cont b1 && utf8_valid t1 else
      match t1 with
      | [] => false
      | b2 :: t2 =>
        if in_range b0 0xE0 0xE0 then in_range b1 0xA0 0xBF && cont b2 && utf8_valid t2 else
        if in_range b0 0xE1 0xEC || in_range b0 0xEE 0xEF
        then cont b1 && cont b2 && utf8_valid t2 else
        if in_range b0 0xED 0xED then in_range b1 0x80 0x9F && cont b2 && utf8_valid t2 else
        match t2 with
        | [] => false
        | b3 :: t3 =>
          if in_range b0 0xF0 0xF0
          then in_range b1 0x90 0xBF && cont b2 && cont b3 && utf8_valid t3 else
          if in_range b0 0xF1 0xF3
          then cont b1 && cont b2 && cont b3 && utf8_valid t3 else
          if in_range b0 0xF4 0xF4
          then in_range b1 0x80 0x8F && cont b2 && cont b3 && utf8_valid t3
          else false
        end
      end
    end
  end.

(** [std::str::from_utf8]: the checked bytes, or nothing. *)
Definition from_utf8 (bs : list byte) : option rstring :=
  if utf8_valid bs then Some bs else None.

(** A Unicode scalar value and its UTF-8 form. *)
Definition is_scalar (c : Z) : bool :=
  (0 <=? c) && (c <=? 0x10FFFF) && negb ((0xD800 <=? c) && (c <=? 0xDFFF)).

Definition utf8_encode (c : Z) : list byte :=
  if c <? 0x80 then [byte.of_Z c]
  else if c <? 0x800 then
    [byte.of_Z (0xC0 + c / 64); byte.of_Z (0x80 + c mod 64)]
  else if c <? 0x10000 then
    [byte.of_Z (0xE0 + c / 4096); byte.of_Z (0x80 + c / 64 mod 64); byte.of_Z (0x80 + c mod 64)]
  else
    [byte.of_Z (0xF0 + c / 262144); byte.of_Z (0x80 + c / 4096 mod 64);
     byte.of_Z (0x80 + c / 64 mod 64); byte.of_Z (0x80 + c mod 64)].

(** ASCII text is valid UTF-8. *)
Lemma utf8_valid_ascii bs : Forall (fun b => in_range b 0 0x7F = true) bs -> utf8_valid bs = true.
Proof. induction 1 as [|b bs Hb _ IH]; [done|]. cbn [utf8_valid]. by rewrite Hb. Qed.
