(* ===== verification/Meta.v ===== *)
(** * The metadata protocol (src/meta.rs)

    The frames the two sides exchange over TCP: [Message] and its parts,
    [encode], [decode] with the [Reader] cursor, [read_frame],
    [write_frame] and [Channel]. *)
From S2P Require Import Prelude Utf8.

(** [PROTOCOL_VERSION], [MAX_FRAME], [IO_TIMEOUT] (milliseconds) and the
    type codes. *)
Definition PROTOCOL_VERSION : Z := 1.
Definition MAX_FRAME : Z := Z.shiftl 1 20.
Definition IO_TIMEOUT : Z := 10 * 1000.
Definition MSG_HELLO : byte := Byte.x01.
Definition MSG_WELCOME : byte := Byte.x02.
Definition MSG_WANT_GROUP : byte := Byte.x03.
Definition MSG_UPDATE : byte := Byte.x04.
Definition MSG_METADATA : byte := Byte.x05.
Definition MSG_TUPLES : byte := Byte.x06.

(** [RegionDesc]: a region as the catalog advertises it. *)
Record RegionDesc := {
  rd_id : Z;
  rd_name : rstring;
  rd_size : Z;
  rd_elem_size : Z;
  rd_elem_align : Z;
  rd_elem_type : rstring;
}.

(** [TupleDesc]: a (remote_addr, size, rkey) tuple of a region. *)
Record TupleDesc := {
  td_region_id : Z;
  td_remote_addr : Z;
  td_size : Z;
  td_rkey : Z;
}.

Inductive Message :=
| Hello (version : Z)
| Welcome (version : Z)
| WantGroup (group : Z)
| Update
| Metadata (regions : list RegionDesc)
| Tuples (group : Z) (tuples : list TupleDesc).

#[export] Instance RegionDesc_eq_dec : EqDecision RegionDesc.
Proof. solve_decision. Defined.
#[export] Instance TupleDesc_eq_dec : EqDecision TupleDesc.
Proof. solve_decision. Defined.
#[export] Instance Message_eq_dec : EqDecision Message.
Proof. solve_decision. Defined.

(** ** Encoding *)
Definition put_u16 (buf : list byte) (v : Z) : list byte := buf ++ le_split 2 v.
Definition put_u32 (buf : list byte) (v : Z) : list byte := buf ++ le_split 4 v.
Definition put_u64 (buf : list byte) (v : Z) : list byte := buf ++ le_split 8 v.
Definition put_str (buf : list byte) (s : rstring) : list byte :=
  put_u32 buf (as_u32 (zlen s)) ++ s.

(** The body of the [for region in regions] loop. *)
Definition put_region (payload : list byte) (region : RegionDesc) : list byte :=
  let payload := put_u32 payload (rd_id region) in
  let payload := put_str payload (rd_name region) in
  let payload := put_u64 payload (rd_size region) in
  let payload := put_u32 payload (rd_elem_size region) in
  let payload := put_u32 payload (rd_elem_align region) in
  put_str payload (rd_elem_type region).

(** The body of the [for tuple in tuples] loop. *)
Definition put_tuple (payload : list byte) (tuple : TupleDesc) : list byte :=
  let payload := put_u32 payload (td_region_id tuple) in
  let payload := put_u64 payload (td_remote_addr tuple) in
  let payload := put_u64 payload (td_size tuple) in
  put_u32 payload (td_rkey tuple).

(** The [match self] of [Message::encode]: the type code and the
    payload. *)
Definition encode_payload (msg : Message) : byte * list byte :=
  match msg with
  | Hello version => (MSG_HELLO, put_u16 [] version)
  | Welcome version => (MSG_WELCOME, put_u16 [] version)
  | WantGroup group => (MSG_WANT_GROUP, put_u32 [] group)
  | Update => (MSG_UPDATE, [])
  | Metadata regions =>
      (MSG_METADATA, foldl put_region (put_u32 [] (as_u32 (zlen regions))) regions)
  | Tuples group tuples =>
      (MSG_TUPLES,
       foldl put_tuple (put_u32 (put_u32 [] group) (as_u32 (zlen tuples))) tuples)
  end.

Section meta.
Context {P : Profile}.

(** [Message::encode]; [1 + payload.len() as u32] adds in [u32]. *)
Definition encode (msg : Message) : res (list byte) :=
  let '(ty, payload) := encode_payload msg in
  len ← uint_add 32 1 (as_u32 (zlen payload));
  mret (put_u32 [] len ++ [ty] ++ payload).

(** ** Decoding *)

(** A protocol violation. *)
Definition bad (t : string) (a : list fmt_arg) : io_error := IoError InvalidData t a.

(** [Reader]: a cursor over a received payload. *)
Record Reader := { buf : list byte; pos : Z }.

Definition read_take (len : Z) : ST Reader (list byte) :=
  r ← get;
  left ← lift (uint_sub 64 (zlen (buf r)) (pos r));
  if left <? len then fail (bad "the payload ends mid-message" []) else
  stop ← lift (uint_add 64 (pos r) len);
  bytes ← lift (slice (buf r) (pos r) stop);
  pos' ← lift (uint_add 64 (pos r) len);
  put {| buf := buf r; pos := pos' |};;
  mret bytes.

(** [uN::from_le_bytes([bytes[0], bytes[1], ...])] *)
Definition array_of (bytes : list byte) (idxs : list nat) : res (list byte) := mapM (index bytes) idxs.

Definition read_u16 : ST Reader Z :=
  bytes ← read_take 2;
  raw ← lift (array_of bytes [0; 1]%nat);
  mret (le_combine raw).

Definition read_u32 : ST Reader Z :=
  bytes ← read_take 4;
  raw ← lift (array_of bytes [0; 1; 2; 3]%nat);
  mret (le_combine raw).

Definition read_u64 : ST Reader Z :=
  bytes ← read_take 8;
  raw ← lift (copy_from_slice 8 bytes);
  mret (le_combine raw).

Definition read_string : ST Reader rstring :=
  len ← read_u32;
  bytes ← read_take len;
  match from_utf8 bytes with
  | Some s => mret s
  | None => fail (bad "a string is not valid UTF-8" [])
  end.

(** [Reader::done]: the payload must end here. *)
Definition read_done : ST Reader unit :=
  r ← get;
  if pos r =? zlen (buf r) then mret tt
  else fail (bad "trailing bytes after the payload" []).

Definition read_region : ST Reader RegionDesc :=
  id ← read_u32;
  name ← read_string;
  size ← read_u64;
  elem_size ← read_u32;
  elem_align ← read_u32;
  elem_type ← read_string;
  mret {| rd_id := id; rd_name := name; rd_size := size; rd_elem_size := elem_size;
          rd_elem_align := elem_align; rd_elem_type := elem_type |}.

Definition read_tuple : ST Reader TupleDesc :=
  region_id ← read_u32;
  remote_addr ← read_u64;
  size ← read_u64;
  rkey ← read_u32;
  mret {| td_region_id := region_id; td_remote_addr := remote_addr; td_size := size;
          td_rkey := rkey |}.

(** [let mut v = Vec::new(); for _ in 0..count { v.push(item?); }] *)
Definition read_vec {A} (count : Z) (item : ST Reader A) : ST Reader (list A) :=
  for_count count (fun v => x ← item; mret (v ++ [x])) [].

(** The [match ty] of [decode]. *)
Definition read_message (ty : byte) : ST Reader Message :=
  if decide (ty = MSG_HELLO) then version ← read_u16; mret (Hello version)
  else if decide (ty = MSG_WELCOME) then version ← read_u16; mret (Welcome version)
  else if decide (ty = MSG_WANT_GROUP) then group ← read_u32; mret (WantGroup group)
  else if decide (ty = MSG_UPDATE) then mret Update
  else if decide (ty = MSG_METADATA) then
    count ← read_u32;
    regions ← read_vec count read_region;
    mret (Metadata regions)
  else if decide (ty = MSG_TUPLES) then
    group ← read_u32;
    count ← read_u32;
    tuples ← read_vec count read_tuple;
    mret (Tuples group tuples)
  else fail (bad "unknown message type {ty}" [FInt (byte.unsigned ty)]).

Definition decode (ty : byte) (payload : list byte) : res Message :=
  fst ((msg ← read_message ty; read_done;; mret msg) {| buf := payload; pos := 0 |}).
End meta.

(** ** Streams *)

(** [std::io::Read] as far as frames use it: [read_exact] of an [n]-byte
    buffer. *)
Class Read (S : Type) := read_exact : Z -> ST S (list byte).

(** [std::io::Write]: [write_all]. *)
Class Write (S : Type) := write_all : list byte -> ST S unit.

Section frames.
Context {P : Profile}.

Definition read_frame {S} `{Read S} : ST S Message :=
  header ← read_exact 5;
  raw ← lift (array_of header [0; 1; 2; 3]%nat);
  let len := le_combine raw in
  if (len =? 0) || (MAX_FRAME <? len)
  then fail (bad "frame length {len} is out of range" [FInt len]) else
  n ← lift (uint_sub 64 len 1);
  payload ← read_exact n;
  ty ← lift (index header 4);
  lift (decode ty payload).

Definition write_frame {S} `{Write S} (msg : Message) : ST S unit :=
  frame ← lift (encode msg);
  write_all frame.
End frames.

(** [Cursor<Vec<u8>>], and a byte buffer received in full: a short read
    consumes what is left. *)
#[export] Instance Read_bytes : Read (list byte) := fun n s =>
  if n <=? zlen s then (Ok (take (Z.to_nat n) s), drop (Z.to_nat n) s)
  else (Err (IoError UnexpectedEof "failed to fill whole buffer" []), []).

(** How the bytes of a direction of a TCP connection end: the peer
    closes it, goes silent, or the connection breaks. *)
Inductive tcp_end := PeerClosed | PeerSilent | Broken (e : io_error).

(** A connected [TcpStream]: the bytes the peer will have sent by the end
    of the connection, the bytes it will accept ([None]: any number), and
    the two timeouts. [setsockopt] is the outcome of the calls that set
    the timeouts. *)
Record TcpStream := {
  rx : list byte;
  rx_end : tcp_end;
  tx : list byte;
  tx_room : option Z;
  tx_end : tcp_end;
  read_timeout : option Z;
  write_timeout : option Z;
  setsockopt : option io_error;
}.

Definition set_rx (s : TcpStream) (bs : list byte) : TcpStream :=
  {| rx := bs; rx_end := rx_end s; tx := tx s; tx_room := tx_room s; tx_end := tx_end s;
     read_timeout := read_timeout s; write_timeout := write_timeout s;
     setsockopt := setsockopt s |}.
Definition set_tx (s : TcpStream) (bs : list byte) (room : option Z) : TcpStream :=
  {| rx := rx s; rx_end := rx_end s; tx := bs; tx_room := room; tx_end := tx_end s;
     read_timeout := read_timeout s; write_timeout := write_timeout s;
     setsockopt := setsockopt s |}.

(** A direction that ended: a silent peer blocks the call for ever,
    unless a timeout is armed; then the call fails with [WouldBlock]. *)
Definition ended {A} (e : tcp_end) (closed : io_error) (timeout : option Z) : res A :=
  match e with
  | PeerClosed => Err closed
  | PeerSilent =>
      match timeout with
      | Some _ => Err (IoError WouldBlock "Resource temporarily unavailable" [])
      | None => Diverge
      end
  | Broken e => Err e
  end.

#[export] Instance Read_tcp : Read TcpStream := fun n s =>
  if n <=? zlen (rx s)
  then (Ok (take (Z.to_nat n) (rx s)), set_rx s (drop (Z.to_nat n) (rx s)))
  else (ended (rx_end s) (IoError UnexpectedEof "failed to fill whole buffer" [])
          (read_timeout s), set_rx s []).

#[export] Instance Write_tcp : Write TcpStream := fun bs s =>
  match tx_room s with
  | None => (Ok tt, set_tx s (tx s ++ bs) None)
  | Some room =>
      if zlen bs <=? room then (Ok tt, set_tx s (tx s ++ bs) (Some (room - zlen bs)))
      else (ended (tx_end s) (IoError BrokenPipe "Broken pipe" []) (write_timeout s),
            set_tx s (tx s ++ take (Z.to_nat room) bs) (Some 0))
  end.

(** [set_read_timeout], [set_write_timeout] with a non-zero duration. *)
Definition set_read_timeout (d : option Z) : ST TcpStream unit := fun s =>
  match setsockopt s with
  | Some e => (Err e, s)
  | None => (Ok tt,
      {| rx := rx s; rx_end := rx_end s; tx := tx s; tx_room := tx_room s; tx_end := tx_end s;
         read_timeout := d; write_timeout := write_timeout s; setsockopt := setsockopt s |})
  end.
Definition set_write_timeout (d : option Z) : ST TcpStream unit := fun s =>
  match setsockopt s with
  | Some e => (Err e, s)
  | None => (Ok tt,
      {| rx := rx s; rx_end := rx_end s; tx := tx s; tx_room := tx_room s; tx_end := tx_end s;
         read_timeout := read_timeout s; write_timeout := d; setsockopt := setsockopt s |})
  end.

(** ** [Channel] *)
Record Channel := { stream : TcpStream }.

(** [Channel::new]: adopt a stream, arming the timeouts. *)
Definition channel_new (s : TcpStream) : res Channel :=
  let '(r, s') := (set_read_timeout (Some IO_TIMEOUT);; set_write_timeout (Some IO_TIMEOUT)) s in
  r ;; Ok {| stream := s' |}.

(** [Channel::connect], on the outcome of [TcpStream::connect]. *)
Definition channel_connect (connected : res TcpStream) : res Channel :=
  s ← connected; channel_new s.

Section channel.
Context {P : Profile}.

(** A method of the stream inside the channel. *)
Definition on_stream {A} (m : ST TcpStream A) : ST Channel A := fun c =>
  let '(r, s) := m (stream c) in (r, {| stream := s |}).

Definition channel_send (msg : Message) : ST Channel unit := on_stream (write_frame msg).
Definition channel_receive : ST Channel Message := on_stream read_frame.
End channel.
