(* ===== verification/MetaFacts.v ===== *)
(** * The metadata protocol: correctness

    The decoder as the exact inverse of the encoder, its behaviour on
    arbitrary bytes, framing over a stream, and the channel. *)
From S2P Require Import Prelude Utf8 Meta.

(** ** Well-formed messages

    What every value of the Rust types satisfies (integers in range,
    strings valid UTF-8), plus lengths and counts the 32-bit fields of
    the wire can carry. *)
Definition wf_str (s : rstring) : Prop := utf8_valid s = true /\ fits 32 (zlen s).

Record wf_region (d : RegionDesc) : Prop := {
  wf_rd_id : fits 32 (rd_id d);
  wf_rd_name : wf_str (rd_name d);
  wf_rd_size : fits 64 (rd_size d);
  wf_rd_elem_size : fits 32 (rd_elem_size d);
  wf_rd_elem_align : fits 32 (rd_elem_align d);
  wf_rd_elem_type : wf_str (rd_elem_type d);
}.

Record wf_tuple (d : TupleDesc) : Prop := {
  wf_td_region_id : fits 32 (td_region_id d);
  wf_td_remote_addr : fits 64 (td_remote_addr d);
  wf_td_size : fits 64 (td_size d);
  wf_td_rkey : fits 32 (td_rkey d);
}.

Definition wf_msg (m : Message) : Prop :=
  match m with
  | Hello v | Welcome v => fits 16 v
  | WantGroup g => fits 32 g
  | Update => True
  | Metadata rs => fits 32 (zlen rs) /\ Forall wf_region rs
  | Tuples g ts => fits 32 g /\ fits 32 (zlen ts) /\ Forall wf_tuple ts
  end.

(** ** Formats

    [fmt m R]: the reading computation [m] accepts exactly the byte
    strings [R] relates to a value, returns that value, consumes exactly
    those bytes, and otherwise fails with [InvalidData]; it never panics
    or hangs. *)
Definition wf_reader (r : Reader) : Prop :=
  0 <= pos r <= zlen (buf r) /\ zlen (buf r) < 2 ^ 63.
Definition rest (r : Reader) : list byte := drop (Z.to_nat (pos r)) (buf r).
Definition adv (r : Reader) (n : Z) : Reader := {| buf := buf r; pos := pos r + n |}.

Record fmt {A} (m : ST Reader A) (R : list byte -> A -> Prop) : Prop := {
  fmt_complete : forall r a bs tail,
    wf_reader r -> R bs a -> rest r = bs ++ tail -> m r = (Ok a, adv r (zlen bs));
  fmt_sound : forall r, wf_reader r ->
    match m r with
    | (Ok a, r') => exists bs tail, R bs a /\ rest r = bs ++ tail /\ r' = adv r (zlen bs)
    | (Err e, _) => kind e = InvalidData
    | _ => False
    end;
}.

Lemma rest_split r bs tail :
  wf_reader r -> rest r = bs ++ tail ->
  exists pre, buf r = pre ++ bs ++ tail /\ pos r = zlen pre.
Proof.
  intros [Hp Hl] Hr. exists (take (Z.to_nat (pos r)) (buf r)). split.
  - rewrite <- Hr. unfold rest. by rewrite take_drop.
  - unfold zlen in *. rewrite length_take. lia.
Qed.

Lemma adv_wf r bs tail :
  wf_reader r -> rest r = bs ++ tail -> wf_reader (adv r (zlen bs)) /\ rest (adv r (zlen bs)) = tail.
Proof.
  intros Hwf Hr. destruct (rest_split _ _ _ Hwf Hr) as (pre & Hb & Hp).
  destruct Hwf as [Hpos Hlen]. unfold wf_reader, rest, adv. cbn. rewrite Hb, Hp in *. zlens.
  pose proof (zlen_nonneg bs). pose proof (zlen_nonneg tail). split; [lia|].
  unfold zlen in *. rewrite <- Nat2Z.inj_add, Nat2Z.id, app_assoc, <- length_app.
  apply drop_app_length.
Qed.

Lemma adv_0 r : adv r 0 = r.
Proof. destruct r. unfold adv. cbn. by rewrite Z.add_0_r. Qed.

Lemma adv_adv r n m : adv (adv r n) m = adv r (n + m).
Proof. unfold adv. cbn. f_equal. lia. Qed.

Lemma fmt_equiv {A} (m : ST Reader A) (R R' : list byte -> A -> Prop) :
  (forall bs a, R bs a <-> R' bs a) -> fmt m R -> fmt m R'.
Proof.
  intros HR [Hc Hs]. split.
  - intros r a bs tail Hwf H. apply Hc; [done|]. by apply HR.
  - intros r Hwf. specialize (Hs r Hwf). destruct (m r) as [[a| | |] r']; try done.
    destruct Hs as (bs & tail & H & Hr & ->). exists bs, tail. split; [by apply HR|done].
Qed.

Lemma fmt_ext {A} (m m' : ST Reader A) R : (forall r, m r = m' r) -> fmt m R -> fmt m' R.
Proof. intros E [Hc Hs]. split; intros; rewrite <- E; [eapply Hc; eauto|by apply Hs]. Qed.

Lemma fmt_ret {A} (a : A) : fmt (mret a) (fun bs b => bs = [] /\ b = a).
Proof.
  split.
  - intros r b bs tail _ [-> ->] _. st_cbn. rewrite zlen_nil. by rewrite adv_0.
  - intros r _. st_cbn. exists [], (rest r). rewrite zlen_nil, adv_0. done.
Qed.

Lemma fmt_bind {A B} (m : ST Reader A) (k : A -> ST Reader B) R R' :
  fmt m R -> (forall a bs, R bs a -> fmt (k a) (R' a)) ->
  fmt (m ≫= k) (fun bs b => exists a bs1 bs2, bs = bs1 ++ bs2 /\ R bs1 a /\ R' a bs2 b).
Proof.
  intros Hm Hk. split.
  - intros r b bs tail Hwf (a & bs1 & bs2 & -> & H1 & H2) Hr. rewrite <- app_assoc in Hr.
    rewrite (ST_bind_step _ _ _ _ _ (fmt_complete _ _ Hm _ _ _ _ Hwf H1 Hr)).
    destruct (adv_wf _ _ _ Hwf Hr) as [Hwf' Hr'].
    rewrite (fmt_complete _ _ (Hk a bs1 H1) _ _ _ _ Hwf' H2 Hr'), adv_adv.
    by rewrite zlen_app.
  - intros r Hwf. pose proof (fmt_sound _ _ Hm r Hwf) as Hs. st_cbn.
    destruct (m r) as [[a|e| |] r']; try done.
    destruct Hs as (bs1 & tail & H1 & Hr & ->).
    destruct (adv_wf _ _ _ Hwf Hr) as [Hwf' Hr'].
    pose proof (fmt_sound _ _ (Hk a bs1 H1) _ Hwf') as Hs.
    destruct (k a _) as [[b|e| |] r'']; try done.
    destruct Hs as (bs2 & tail2 & H2 & Hr2 & ->).
    exists (bs1 ++ bs2), tail2. split; [by exists a, bs1, bs2|].
    rewrite Hr, <- Hr', Hr2, adv_adv, zlen_app, app_assoc. done.
Qed.

(** The empty reader of [for _ in 0..count] and the loop itself. *)
Lemma fmt_for {A} (item : ST Reader A) R (n : nat) : fmt item R -> forall acc,
  fmt (for_nat n (fun v => x ← item; mret (v ++ [x])) acc)
    (fun bs l => exists (bss : list (list byte)) xs, bs = mjoin bss /\ l = acc ++ xs /\ length xs = n%nat /\
       Forall2 R bss xs).
Proof.
  intros Hitem. induction n as [|n IH]; intros acc.
  - eapply fmt_equiv; [|apply fmt_ret]. intros bs l. split.
    + intros [-> ->]. exists [], []. by rewrite app_nil_r.
    + intros (bss & xs & -> & -> & Hl & HF). destruct xs; [|done].
      apply Forall2_nil_inv_r in HF as ->. by rewrite app_nil_r.
  - cbn [for_nat]. eapply fmt_equiv; [|eapply fmt_bind].
    2: { eapply fmt_bind; [exact Hitem|]. intros x bs _. apply fmt_ret. }
    2: { intros acc' bs _. apply IH. }
    intros bs l. cbn. split.
    + intros (acc' & bs1 & bs2 & -> & (x & b1 & b2 & -> & Hx & -> & ->) &
        bss & xs & -> & -> & Hl & HF).
      exists (b1 :: bss), (x :: xs). rewrite app_nil_r, <- app_assoc. cbn.
      split_and!; auto.
    + intros (bss & xs & -> & -> & Hl & HF). destruct xs as [|x xs]; [done|].
      apply Forall2_cons_inv_r in HF as (b1 & bss' & Hx & HF & ->). cbn.
      exists (acc ++ [x]), b1, (mjoin bss'). split_and!; [done| |].
      * exists x, b1, []. by rewrite app_nil_r.
      * exists bss', xs. rewrite <- app_assoc. cbn in *. split_and!; auto; lia.
Qed.

(** The wire images of the composite fields. *)
Definition enc_str (s : rstring) : list byte := le_split 4 (zlen s) ++ s.
Definition enc_region (d : RegionDesc) : list byte :=
  le_split 4 (rd_id d) ++ enc_str (rd_name d) ++ le_split 8 (rd_size d) ++
  le_split 4 (rd_elem_size d) ++ le_split 4 (rd_elem_align d) ++ enc_str (rd_elem_type d).
Definition enc_tuple (d : TupleDesc) : list byte :=
  le_split 4 (td_region_id d) ++ le_split 8 (td_remote_addr d) ++
  le_split 8 (td_size d) ++ le_split 4 (td_rkey d).

Lemma foldl_put_region p rs :
  Forall wf_region rs -> foldl put_region p rs = p ++ mjoin (enc_region <$> rs).
Proof.
  intros HF. revert p. induction HF as [|d rs [_ [_ Hn] _ _ _ [_ Ht]] _ IH]; intros p.
  - by rewrite app_nil_r.
  - cbn [foldl fmap list_fmap mjoin list_join]. rewrite IH.
    unfold put_region, put_str, put_u32, put_u64, as_u32, enc_region, enc_str.
    rewrite !Z.mod_small by done. by rewrite <- !app_assoc.
Qed.

Lemma foldl_put_tuple p ts :
  foldl put_tuple p ts = p ++ mjoin (enc_tuple <$> ts).
Proof.
  revert p. induction ts as [|d ts IH]; intros p.
  - by rewrite app_nil_r.
  - cbn [foldl fmap list_fmap mjoin list_join]. rewrite IH.
    unfold put_tuple, put_u32, put_u64, enc_tuple. by rewrite <- !app_assoc.
Qed.

Section parsers.
Context {P : Profile}.

Lemma fmt_take n : 0 <= n -> fmt (read_take n) (fun bs a => a = bs /\ zlen bs = n).
Proof.
  intros Hn. split.
  - intros r a bs tail Hwf [-> Hl] Hr.
    destruct (rest_split _ _ _ Hwf Hr) as (pre & Hb & Hp). destruct Hwf as [Hpos Hlen].
    unfold read_take. st_cbn. rewrite Hb, Hp in *. zlens.
    pose proof (zlen_nonneg pre). pose proof (zlen_nonneg tail).
    rewrite uint_sub_fits by (unfold fits; lia). rewrite (proj2 (Z.ltb_ge _ _)) by lia.
    rewrite uint_add_fits by (unfold fits; lia). rewrite slice_at by lia.
    unfold adv. cbn. by rewrite Hb, Hp, Hl.
  - intros r Hwf. unfold read_take. st_cbn. pose proof Hwf as [Hpos Hlen].
    rewrite uint_sub_fits by (unfold fits; lia). destruct (Z.ltb_spec (zlen (buf r) - pos r) n).
    + done.
    + rewrite uint_add_fits by (unfold fits; lia).
      set (bs := take (Z.to_nat n) (rest r)). set (tail := drop (Z.to_nat n) (rest r)).
      assert (Hr : rest r = bs ++ tail) by (by subst bs tail; rewrite take_drop).
      assert (Hbs : zlen bs = n).
      { subst bs. unfold zlen, rest in *. rewrite length_take, length_drop. lia. }
      destruct (rest_split _ _ _ Hwf Hr) as (pre & Hb & Hp).
      rewrite Hb, Hp, slice_at by lia.
      exists bs, tail. split_and!; [done|done|done|]. unfold adv. by rewrite Hb, Hp, Hbs.
Qed.

(** [n] bytes assembled into an integer. *)
Lemma fmt_uint (n : nat) (g : list byte -> res (list byte)) :
  (forall bs, length bs = n -> g bs = Ok bs) ->
  fmt (bytes ← read_take (Z.of_nat n); raw ← lift (g bytes); mret (le_combine raw))
    (fun bs v => bs = le_split n v /\ fits (Z.of_nat n * 8) v).
Proof.
  intros Hg. eapply fmt_equiv; [|eapply fmt_bind].
  2: { apply fmt_take. lia. }
  2: { intros bytes bs [-> Hl]. unfold zlen in Hl. apply Nat2Z.inj in Hl.
       instantiate (1 := fun bytes bs v => bs = [] /\ v = le_combine bytes). cbn.
       pose proof (fmt_ret (le_combine bs)) as [Hc Hs].
       split; intros; st_cbn; rewrite (Hg bs Hl); [eapply Hc|eapply Hs]; eauto. }
  intros bs v. cbn. split.
  - intros (a & b1 & b2 & -> & (-> & Hl) & -> & ->). rewrite app_nil_r.
    unfold zlen in Hl. apply Nat2Z.inj in Hl. split.
    + by rewrite le_split_combine.
    + replace (Z.of_nat n * 8) with (8 * zlen b1) by (unfold zlen; lia). apply le_combine_fits.
  - intros [-> Hv]. exists (le_split n v), (le_split n v), [].
    rewrite app_nil_r, zlen_le_split, le_combine_split_fits by done. done.
Qed.

Lemma fmt_u16 : fmt read_u16 (fun bs v => bs = le_split 2 v /\ fits 16 v).
Proof.
  apply (fmt_uint 2 (fun bytes => array_of bytes [0; 1]%nat)).
  by intros [|? [|? [|]]].
Qed.

Lemma fmt_u32 : fmt read_u32 (fun bs v => bs = le_split 4 v /\ fits 32 v).
Proof.
  apply (fmt_uint 4 (fun bytes => array_of bytes [0; 1; 2; 3]%nat)).
  by intros [|? [|? [|? [|? [|]]]]].
Qed.

Lemma fmt_u64 : fmt read_u64 (fun bs v => bs = le_split 8 v /\ fits 64 v).
Proof.
  apply (fmt_uint 8 (copy_from_slice 8)).
  intros bs Hl. unfold copy_from_slice. by rewrite decide_True.
Qed.

Lemma fmt_string :
  fmt read_string (fun bs s => bs = le_split 4 (zlen s) ++ s /\ wf_str s).
Proof.
  eapply fmt_equiv; [|eapply fmt_bind; [apply fmt_u32|]].
  2: { intros len bs [_ Hlen]. eapply fmt_bind; [apply fmt_take, Hlen|].
       intros s bs' [-> Hl].
       instantiate (1 := fun s bs v => bs = [] /\ v = s /\ utf8_valid s = true). cbn.
       unfold from_utf8. destruct (utf8_valid bs') eqn:Hu.
       - eapply fmt_equiv; [|apply fmt_ret]. cbn.
         intros b v. split; [by intros [-> ->]|by intros (-> & -> & _)].
       - split; [|done]. intros r a b tail _ (_ & _ & Hv). congruence. }
  intros bs v. cbn. unfold wf_str. split.
  - intros (len & b1 & b2 & -> & [-> Hlen] & s & b3 & b4 & -> & [-> Hl] & -> & -> & Hu).
    rewrite app_nil_r. by rewrite Hl.
  - intros (-> & Hu & Hl). exists (zlen v), (le_split 4 (zlen v)), v.
    split_and!; [done..|]. exists v, v, []. by rewrite app_nil_r.
Qed.

Lemma fmt_vec {A} (item : ST Reader A) (enc : A -> list byte) (wf : A -> Prop) count :
  0 <= count -> fmt item (fun bs a => bs = enc a /\ wf a) ->
  fmt (read_vec count item) (fun bs l => bs = mjoin (enc <$> l) /\ zlen l = count /\ Forall wf l).
Proof.
  intros Hc Hitem. replace count with (Z.of_nat (Z.to_nat count)) by lia.
  set (n := Z.to_nat count). pose proof (fmt_for item _ n Hitem []) as Hf.
  eapply fmt_ext in Hf; [|intros s; symmetry; apply for_count_nat].
  eapply fmt_equiv; [|exact Hf].
  intros bs l. cbn. unfold zlen. split.
  - intros (bss & xs & -> & -> & Hl & HF). rewrite Hl. split_and!; [|done|].
    + clear Hl. induction HF as [|b x bss xs [-> _] _ IH]; [done|]. cbn. by f_equal.
    + clear Hl. induction HF as [|b x bss xs [_ Hx] _ IH]; constructor; auto.
  - intros (-> & Hl & HF). exists (enc <$> l), l. split_and!; [done|done|lia|].
    clear Hl. induction HF; constructor; auto.
Qed.

(** A field of a record: read it, then go on. *)
Lemma fmt_field {A B} (m : ST Reader A) (k : A -> ST Reader B) enc (wf : A -> Prop) R' :
  fmt m (fun bs a => bs = enc a /\ wf a) -> (forall a, wf a -> fmt (k a) (R' a)) ->
  fmt (m ≫= k) (fun bs b => exists a bs2, bs = enc a ++ bs2 /\ wf a /\ R' a bs2 b).
Proof.
  intros Hm Hk. eapply fmt_equiv; [|eapply fmt_bind; [exact Hm|intros a bs [_ Ha]; by apply Hk]].
  intros bs b. cbn. split.
  - intros (a & bs1 & bs2 & -> & [-> Ha] & H). by exists a, bs2.
  - intros (a & bs2 & -> & Ha & H). by exists a, (enc a), bs2.
Qed.

Lemma fmt_region : fmt read_region (fun bs d => bs = enc_region d /\ wf_region d).
Proof.
  eapply fmt_equiv; cycle 1.
  { unfold read_region.
    repeat (first [eapply fmt_field; [first [apply fmt_u32|apply fmt_string|apply fmt_u64]|intros ? ?]
                  |apply fmt_ret]). }
  intros bs d. cbn. split.
  - intros (id & ? & -> & ? & name & ? & -> & ? & size & ? & -> & ? & es & ? & -> & ? &
            ea & ? & -> & ? & et & ? & -> & ? & -> & ->).
    rewrite app_nil_r. split; [done|by constructor].
  - intros [-> [? ? ? ? ? ?]]. destruct d as [id name size es ea et]. unfold enc_region. cbn in *.
    exists id. eexists. split_and!; [done|done|]. exists name. eexists. split_and!; [done|done|].
    exists size. eexists. split_and!; [done|done|]. exists es. eexists. split_and!; [done|done|].
    exists ea. eexists. split_and!; [done|done|]. exists et, []. by rewrite app_nil_r.
Qed.

Lemma fmt_tuple : fmt read_tuple (fun bs d => bs = enc_tuple d /\ wf_tuple d).
Proof.
  eapply fmt_equiv; cycle 1.
  { unfold read_tuple.
    repeat (first [eapply fmt_field; [first [apply fmt_u32|apply fmt_string|apply fmt_u64]|intros ? ?]
                  |apply fmt_ret]). }
  intros bs d. cbn. split.
  - intros (id & ? & -> & ? & ra & ? & -> & ? & size & ? & -> & ? & rk & ? & -> & ? & -> & ->).
    rewrite app_nil_r. split; [done|by constructor].
  - intros [-> [? ? ? ?]]. destruct d as [id ra size rk]. unfold enc_tuple. cbn in *.
    exists id. eexists. split_and!; [done|done|]. exists ra. eexists. split_and!; [done|done|].
    exists size. eexists. split_and!; [done|done|]. exists rk, []. by rewrite app_nil_r.
Qed.

(** The payload reader and the payload writer describe the same
    bytes. *)
Lemma fmt_message ty :
  fmt (read_message ty) (fun bs msg => encode_payload msg = (ty, bs) /\ wf_msg msg).
Proof.
  unfold read_message. repeat case_decide; subst.
  1-3: eapply fmt_equiv; [|eapply fmt_field;
         [first [apply fmt_u16|apply fmt_u32]|intros ? ?; apply fmt_ret]];
       intros bs msg; cbn; split;
         [intros (v & ? & -> & ? & -> & ->); by rewrite app_nil_r
         |destruct msg; cbn; intros [[=] ?]; subst; eexists _, []; by rewrite app_nil_r].
  - eapply fmt_equiv; [|apply fmt_ret]. intros bs msg. split; [by intros [-> ->]|].
    destruct msg; cbn; by intros [[=] ?].
  - eapply fmt_equiv; cycle 1.
    { eapply fmt_field; [apply fmt_u32|intros count Hc].
      eapply fmt_bind; [apply fmt_vec; [apply Hc|apply fmt_region]|intros; apply fmt_ret]. }
    intros bs msg. cbn. split.
    + intros (n & ? & -> & Hn & rs & ? & ? & -> & (-> & Hl & HF) & -> & ->).
      rewrite app_nil_r. cbn. rewrite foldl_put_region by done.
      unfold as_u32. rewrite Z.mod_small by (rewrite Hl; apply Hn). rewrite Hl. done.
    + destruct msg as [| | | |rs|]; cbn; intros [[=] Hwf]; try done.
      destruct Hwf as [Hn HF]. subst bs. rewrite foldl_put_region by done.
      unfold as_u32. rewrite Z.mod_small by apply Hn.
      exists (zlen rs). eexists. split_and!; [done|done|].
      exists rs, (mjoin (enc_region <$> rs)), []. by rewrite app_nil_r.
  - eapply fmt_equiv; cycle 1.
    { eapply fmt_field; [apply fmt_u32|intros group Hg].
      eapply fmt_field; [apply fmt_u32|intros count Hc].
      eapply fmt_bind; [apply fmt_vec; [apply Hc|apply fmt_tuple]|intros; apply fmt_ret]. }
    intros bs msg. cbn. split.
    + intros (g & ? & -> & Hg & n & ? & -> & Hn & ts & ? & ? & -> & (-> & Hl & HF) & -> & ->).
      rewrite app_nil_r. cbn. rewrite foldl_put_tuple. unfold put_u32.
      unfold as_u32. rewrite Z.mod_small by (rewrite Hl; apply Hn). rewrite Hl.
      by rewrite <- app_assoc.
    + destruct msg as [| | | | |g ts]; cbn; intros [[=] Hwf]; try done.
      destruct Hwf as (Hg & Hn & HF). subst bs. rewrite foldl_put_tuple.
      unfold as_u32, put_u32. rewrite Z.mod_small by apply Hn.
      exists g, (le_split 4 (zlen ts) ++ mjoin (enc_tuple <$> ts)). split_and!; [done|done|].
      exists (zlen ts). eexists. split_and!; [done|done|].
      exists ts, (mjoin (enc_tuple <$> ts)), []. by rewrite app_nil_r.
  - split; [|done]. intros r a bs tail _ [He _] _. exfalso.
    destruct a; cbn in He; by simplify_eq.
Qed.
End parsers.

(** ** Streams that deliver bytes

    What [read_frame] needs of a [Read]: [pending] is what the stream
    still delivers, and a read within it returns its first bytes. *)
Class ReadOk (T : Type) {R : Read T} := {
  pending : T -> list byte;
  read_exact_ok : forall n (s : T), 0 <= n <= zlen (pending s) -> exists s',
    read_exact n s = (Ok (take (Z.to_nat n) (pending s)), s') /\
    pending s' = drop (Z.to_nat n) (pending s);
}.

#[export] Instance ReadOk_bytes : ReadOk (list byte).
Proof.
  refine {| pending := fun s => s |}. intros n s [_ Hn]. exists (drop (Z.to_nat n) s).
  unfold read_exact, Read_bytes. by rewrite (proj2 (Z.leb_le _ _) Hn).
Defined.

#[export] Instance ReadOk_tcp : ReadOk TcpStream.
Proof.
  refine {| pending := rx |}. intros n s [_ Hn].
  exists (set_rx s (drop (Z.to_nat n) (rx s))).
  unfold read_exact, Read_tcp. by rewrite (proj2 (Z.leb_le _ _) Hn).
Defined.

Lemma read_exact_app `{ReadOk T} (s : T) bs tail :
  pending s = bs ++ tail -> exists s',
    read_exact (zlen bs) s = (Ok bs, s') /\ pending s' = tail.
Proof.
  intros Hp. destruct (read_exact_ok (zlen bs) s) as (s' & Hr & Hs').
  { rewrite Hp, zlen_app. pose proof (zlen_nonneg bs). pose proof (zlen_nonneg tail). lia. }
  exists s'. rewrite Hr, Hs', Hp. unfold zlen. rewrite Nat2Z.id.
  by rewrite take_app_length, drop_app_length.
Qed.

Section frames.
Context {P : Profile}.

(** ** The decoder *)
Lemma decode_cases ty payload :
  zlen payload < 2 ^ 63 ->
  (exists msg, decode ty payload = Ok msg /\ encode_payload msg = (ty, payload) /\ wf_msg msg) \/
  (exists e, decode ty payload = Err e /\ kind e = InvalidData /\
     forall msg, encode_payload msg = (ty, payload) -> ~ wf_msg msg).
Proof.
  intros Hl. set (r := {| buf := payload; pos := 0 |}).
  assert (Hwf : wf_reader r) by (subst r; split; cbn; pose proof (zlen_nonneg payload); lia).
  assert (Hr : rest r = payload) by done.
  assert (Hno : forall e s, read_message ty r = (Err e, s) ->
    forall msg, encode_payload msg = (ty, payload) -> ~ wf_msg msg).
  { intros e s He msg Henc Hm.
    assert (read_message ty r = (Ok msg, adv r (zlen payload))); [|congruence].
    apply (fmt_complete _ _ (fmt_message ty) r msg payload []); [done|done|].
    by rewrite Hr, app_nil_r. }
  pose proof (fmt_sound _ _ (fmt_message ty) r Hwf) as Hs.
  unfold decode. fold r. st_cbn. destruct (read_message ty r) as [[msg|e| |] r'] eqn:E; try done.
  - destruct Hs as (bs & tail & [Henc Hm] & Hsplit & ->). unfold read_done. st_cbn. cbn.
    rewrite Hr in Hsplit. destruct (Z.eqb_spec (0 + zlen bs) (zlen payload)) as [Heq|Hne].
    + left. exists msg. assert (tail = []) as ->.
      { rewrite Hsplit, zlen_app in Heq. destruct tail; [done|].
        rewrite zlen_cons in Heq. pose proof (zlen_nonneg tail). lia. }
      rewrite app_nil_r in Hsplit. by rewrite Hsplit.
    + right. eexists. split_and!; [done|done|]. intros msg' Henc' Hm'.
      assert (E' : read_message ty r = (Ok msg', adv r (zlen payload))).
      { apply (fmt_complete _ _ (fmt_message ty) r msg' payload []); [done|done|].
        by rewrite Hr, app_nil_r. }
      rewrite E in E'. inversion E'. lia.
  - right. exists e. split_and!; [done|done|]. by eapply Hno.
Qed.

Lemma decode_Ok ty payload msg :
  zlen payload < 2 ^ 63 ->
  decode ty payload = Ok msg <-> encode_payload msg = (ty, payload) /\ wf_msg msg.
Proof.
  intros Hl. destruct (decode_cases ty payload Hl) as [(m & Hd & He & Hw)|(e & Hd & _ & Hno)].
  - rewrite Hd. split; [by intros [= ->]|]. intros [He' Hw'].
    set (r := {| buf := payload; pos := 0 |}).
    assert (Hwf : wf_reader r) by (subst r; split; cbn; pose proof (zlen_nonneg payload); lia).
    pose proof (fmt_complete _ _ (fmt_message ty) r m payload [] Hwf (conj He Hw)) as H1.
    pose proof (fmt_complete _ _ (fmt_message ty) r msg payload [] Hwf (conj He' Hw')) as H2.
    rewrite app_nil_r in *. specialize (H1 eq_refl). specialize (H2 eq_refl). congruence.
  - rewrite Hd. split; [done|]. intros [He Hw]. by destruct (Hno msg He).
Qed.

(** ** The frame *)
Lemma encode_frame msg ty payload :
  encode_payload msg = (ty, payload) -> zlen payload < 2 ^ 32 - 1 ->
  encode msg = Ok (le_split 4 (1 + zlen payload) ++ [ty] ++ payload).
Proof.
  intros He Hl. unfold encode. rewrite He. pose proof (zlen_nonneg payload).
  unfold as_u32. rewrite Z.mod_small by lia. rewrite uint_add_fits by (unfold fits; lia). done.
Qed.

(** Encoding is total in the release profile; with overflow checks the
    length field overflows at one payload length in 2^32. *)
Lemma encode_Ok_inv msg frame :
  encode msg = Ok frame -> exists len,
    frame = le_split 4 len ++ [fst (encode_payload msg)] ++ snd (encode_payload msg) /\
    (zlen (snd (encode_payload msg)) < 2 ^ 32 - 1 ->
       len = 1 + zlen (snd (encode_payload msg))).
Proof.
  unfold encode. destruct (encode_payload msg) as [ty payload] eqn:E.
  destruct (uint_add 32 1 (as_u32 (zlen payload))) as [len| | |] eqn:El; intros [= <-].
  exists len. split; [done|]. cbn. intros Hl. pose proof (zlen_nonneg payload).
  unfold as_u32 in El. rewrite Z.mod_small in El by lia.
  rewrite uint_add_fits in El by (unfold fits; lia). congruence.
Qed.

(** Reading a frame whose header announces its payload. *)
Lemma read_frame_at `{ReadOk T} (s : T) len ty payload tail :
  pending s = le_split 4 len ++ [ty] ++ payload ++ tail ->
  len = 1 + zlen payload -> len <= MAX_FRAME -> exists s',
    read_frame s = (decode ty payload, s') /\ pending s' = tail.
Proof.
  intros Hp Hlen Hmax. change MAX_FRAME with (2 ^ 20) in Hmax. pose proof (zlen_nonneg payload).
  assert (Hp' : pending s = (le_split 4 len ++ [ty]) ++ (payload ++ tail))
    by (by rewrite Hp, <- app_assoc).
  destruct (read_exact_app _ _ _ Hp') as (s1 & Hr1 & Hp1).
  rewrite zlen_app, zlen_le_split in Hr1. change (Z.of_nat 4 + zlen [ty]) with 5 in Hr1.
  destruct (read_exact_app _ _ _ Hp1) as (s2 & Hr2 & Hp2).
  exists s2. split; [|done]. unfold read_frame.
  rewrite (ST_bind_step _ _ _ _ _ Hr1).
  change (array_of (le_split 4 len ++ [ty]) [0; 1; 2; 3]%nat) with (Ok (le_split 4 len)).
  change (index (le_split 4 len ++ [ty]) 4) with (Ok ty).
  st_cbn. rewrite le_combine_split_fits by (unfold fits; lia).
  assert ((len =? 0) || (MAX_FRAME <? len) = false) as ->.
  { change MAX_FRAME with (2 ^ 20). lia. }
  rewrite uint_sub_fits by (unfold fits; lia).
  replace (len - 1) with (zlen payload) by lia. by rewrite Hr2.
Qed.

Lemma read_frame_of_encode `{ReadOk T} (s : T) msg frame tail :
  wf_msg msg -> encode msg = Ok frame -> zlen frame <= MAX_FRAME + 4 ->
  pending s = frame ++ tail -> exists s', read_frame s = (Ok msg, s') /\ pending s' = tail.
Proof.
  intros Hw He Hmax Hp. destruct (encode_Ok_inv _ _ He) as (len & -> & Hlen).
  destruct (encode_payload msg) as [ty payload] eqn:E. cbn [fst snd] in *.
  change MAX_FRAME with (2 ^ 20) in Hmax. rewrite !zlen_app, zlen_le_split, zlen_cons, zlen_nil in Hmax.
  rewrite <- !app_assoc in Hp.
  destruct (read_frame_at s len ty payload tail Hp) as (s' & Hr & Hs').
  - apply Hlen. lia.
  - change MAX_FRAME with (2 ^ 20). lia.
  - exists s'. split; [|done]. rewrite Hr. f_equal. apply decode_Ok; [lia|done].
Qed.
End frames.

(** ** Received bytes, in full generality *)
Section received.
Context {P : Profile}.

(** What [read_frame] does with five header bytes and what follows. *)
Lemma read_frame_header (h0 h1 h2 h3 ty : byte) (t : list byte) :
  let len := le_combine [h0; h1; h2; h3] in
  read_frame (h0 :: h1 :: h2 :: h3 :: ty :: t) =
    if (len =? 0) || (MAX_FRAME <? len)
    then (Err (bad "frame length {len} is out of range" [FInt len]), t)
    else if len - 1 <=? zlen t
    then (decode ty (take (Z.to_nat (len - 1)) t), drop (Z.to_nat (len - 1)) t)
    else (Err (IoError UnexpectedEof "failed to fill whole buffer" []), []).
Proof.
  intros len. pose proof (le_combine_fits [h0; h1; h2; h3]) as Hfit.
  fold len in Hfit. change (8 * zlen [h0; h1; h2; h3]) with 32 in Hfit. unfold fits in Hfit.
  unfold read_frame.
  assert (Hr : read_exact 5 (h0 :: h1 :: h2 :: h3 :: ty :: t) = (Ok [h0; h1; h2; h3; ty], t)).
  { unfold read_exact, Read_bytes. rewrite !zlen_cons. pose proof (zlen_nonneg t).
    by rewrite (proj2 (Z.leb_le _ _)) by lia. }
  rewrite (ST_bind_step _ _ _ _ _ Hr).
  change (array_of [h0; h1; h2; h3; ty] [0; 1; 2; 3]%nat) with (Ok [h0; h1; h2; h3]).
  change (index [h0; h1; h2; h3; ty] 4) with (Ok ty). st_cbn. fold len.
  destruct ((len =? 0) || (MAX_FRAME <? len)) eqn:E; [done|]. bool_to_prop.
  rewrite uint_sub_fits by (unfold fits; lia). unfold read_exact, Read_bytes.
  by destruct (len - 1 <=? zlen t).
Qed.

Lemma read_frame_short (s : list byte) :
  zlen s < 5 ->
  read_frame s = (Err (IoError UnexpectedEof "failed to fill whole buffer" []), []).
Proof.
  intros Hs. unfold read_frame. apply ST_bind_err. unfold read_exact, Read_bytes.
  by rewrite (proj2 (Z.leb_gt _ _)).
Qed.

(** Bytes that are not a whole header, or a header and its rest. *)
Lemma header_cases (s : list byte) :
  zlen s < 5 \/ exists h0 h1 h2 h3 ty t, s = h0 :: h1 :: h2 :: h3 :: ty :: t.
Proof.
  destruct s as [|h0 [|h1 [|h2 [|h3 [|ty t]]]]]; [left; done..|].
  right. by exists h0, h1, h2, h3, ty, t.
Qed.

Lemma read_frame_tcp_bounded (s : TcpStream) d :
  read_timeout s = Some d ->
  returns (fst (read_frame s)) /\ read_timeout (snd (read_frame s)) = Some d.
Proof.
  intros Hd. unfold read_frame.
  assert (Hre : forall n (s : TcpStream), read_timeout s = Some d -> exists r s',
    read_exact n s = (r, s') /\ returns r /\ read_timeout s' = Some d /\
    (forall bs, r = Ok bs -> 0 <= n -> zlen bs = n)).
  { clear. intros n s Hd. unfold read_exact, Read_tcp.
    destruct (Z.leb_spec n (zlen (rx s))).
    - do 2 eexists. split_and!; [done|done|done|]. intros bs [= <-] ?.
      unfold zlen in *. rewrite length_take. lia.
    - do 2 eexists. split_and!; [done| |done|].
      + rewrite Hd. by destruct (rx_end s).
      + rewrite Hd. by destruct (rx_end s). }
  destruct (Hre 5 s Hd) as (r & s1 & Hr1 & Hret1 & Hd1 & Hl1). st_cbn. rewrite Hr1.
  destruct r as [h|e| |]; [|done..]. specialize (Hl1 h eq_refl ltac:(lia)).
  destruct (header_cases h) as [?|(h0 & h1 & h2 & h3 & ty & t & ->)]; [lia|].
  assert (t = []) as ->.
  { destruct t; [done|]. rewrite !zlen_cons in Hl1. pose proof (zlen_nonneg t). lia. }
  change (array_of [h0; h1; h2; h3; ty] [0; 1; 2; 3]%nat) with (Ok [h0; h1; h2; h3]).
  change (index [h0; h1; h2; h3; ty] 4) with (Ok ty). st_cbn.
  set (len := le_combine [h0; h1; h2; h3]).
  destruct ((len =? 0) || (MAX_FRAME <? len)) eqn:E; [done|]. bool_to_prop.
  pose proof (le_combine_fits [h0; h1; h2; h3]) as Hfit.
  fold len in Hfit. change (8 * zlen [h0; h1; h2; h3]) with 32 in Hfit. unfold fits in Hfit.
  change MAX_FRAME with (2 ^ 20) in E.
  rewrite uint_sub_fits by (unfold fits; lia).
  destruct (Hre (len - 1) s1 Hd1) as (r2 & s2 & Hr2 & Hret2 & Hd2 & Hl2). rewrite Hr2.
  destruct r2 as [payload|e| |]; [|done..]. specialize (Hl2 _ eq_refl ltac:(lia)).
  assert (Hlp : zlen payload < 2 ^ 63) by lia.
  by destruct (decode_cases ty payload Hlp) as [(m & -> & _)|(e & -> & _)].
Qed.
End received.

(** ** Properties *)

(** A catalog entry and a tuple used by the witnesses. *)
Definition ex_region : RegionDesc :=
  {| rd_id := 1; rd_name := rstr "heap"; rd_size := 4096; rd_elem_size := 16;
     rd_elem_align := 8; rd_elem_type := rstr "app::Reading" |}.
Definition ex_tuple : TupleDesc :=
  {| td_region_id := 1; td_remote_addr := 0x2000; td_size := 4096; td_rkey := 0xAB |}.
Definition ex_catalog : Message := Metadata [ex_region].
Definition ex_tuples : Message := Tuples 7 [ex_tuple].

Lemma ex_wf_region : wf_region ex_region.
Proof. by constructor. Qed.
Lemma ex_wf_tuple : wf_tuple ex_tuple.
Proof. by constructor. Qed.
Lemma ex_wf_catalog : wf_msg ex_catalog.
Proof. split; [done|]. constructor; [exact ex_wf_region|done]. Qed.
Lemma ex_wf_tuples : wf_msg ex_tuples.
Proof. split; [done|split; [done|]]. constructor; [exact ex_wf_tuple|done]. Qed.

(** C15: A frame that [encode] produced and that respects the frame cap is
    read back by [read_frame] as the same message, from any stream that
    delivers its bytes, and the bytes behind it stay unread. *)
Theorem read_frame_encode `{Profile} `{ReadOk T} (s : T) msg frame tail :
  wf_msg msg -> encode msg = Ok frame -> zlen frame <= MAX_FRAME + 4 ->
  pending s = frame ++ tail ->
  exists s', read_frame s = (Ok msg, s') /\ pending s' = tail.
Proof. apply read_frame_of_encode. Qed.

Lemma read_frame_encode_witness :
  exists s', read_frame (P := true)
    (le_split 4 49 ++ [MSG_METADATA] ++ snd (encode_payload ex_catalog) ++ [Byte.xff])
      = (Ok ex_catalog, s') /\ pending s' = [Byte.xff].
Proof.
  apply (read_frame_encode (H := true) _ ex_catalog
    (le_split 4 49 ++ [MSG_METADATA] ++ snd (encode_payload ex_catalog))).
  - exact ex_wf_catalog.
  - vm_compute. reflexivity.
  - vm_compute. discriminate.
  - vm_compute. reflexivity.
Defined.

(** C14: The decoder accepts exactly the payloads the encoder writes: a
    payload decodes to a message if and only if that message is
    well-formed and encodes to that type code and payload. So the wire
    format is unambiguous in both directions, and a reader never accepts
    trailing bytes, bad counts, or strings that are not UTF-8. *)
Theorem decode_iff_encode `{Profile} ty payload msg :
  zlen payload < 2 ^ 63 ->
  decode ty payload = Ok msg <-> encode_payload msg = (ty, payload) /\ wf_msg msg.
Proof. apply decode_Ok. Qed.

Lemma decode_iff_encode_witness :
  decode (P := true) MSG_TUPLES (snd (encode_payload ex_tuples)) = Ok ex_tuples.
Proof.
  apply (decode_iff_encode (H := true)); [reflexivity|]. split; [reflexivity|exact ex_wf_tuples].
Defined.

(** C20: Whatever bytes arrive, the decoder returns: it never panics
    (no slice or index out of range, no overflow, in either profile) and
    never hangs, whatever the counts and lengths in the payload claim;
    and every rejection is [InvalidData]. *)
Theorem decode_never_panics `{Profile} ty payload :
  zlen payload < 2 ^ 63 ->
  match decode ty payload with
  | Ok msg => wf_msg msg
  | Err e => kind e = InvalidData
  | Panic _ | Diverge => False
  end.
Proof.
  intros Hl. destruct (decode_cases ty payload Hl) as [(m & -> & _ & Hw)|(e & -> & Hk & _)]; done.
Qed.

(** A count of 2^32 - 1 regions with nothing behind it. *)
Lemma decode_never_panics_witness :
  match decode (P := true) MSG_METADATA [Byte.xff; Byte.xff; Byte.xff; Byte.xff] with
  | Ok msg => wf_msg msg
  | Err e => kind e = InvalidData
  | Panic _ | Diverge => False
  end.
Proof. apply (decode_never_panics (H := true)). reflexivity. Defined.

(** C29: Reading a frame from whatever bytes arrive returns (no panic, no
    hang), takes at most [MAX_FRAME + 4] bytes off the stream, in order,
    and a length field that is zero or beyond [MAX_FRAME] is rejected
    with [InvalidData] before any payload byte is taken or allocated. *)
Theorem read_frame_bounded `{Profile} (s : list byte) :
  returns (fst (read_frame s)) /\
  (exists taken, s = taken ++ snd (read_frame s) /\ zlen taken <= MAX_FRAME + 4) /\
  (forall h0 h1 h2 h3 ty t, s = h0 :: h1 :: h2 :: h3 :: ty :: t ->
     let len := le_combine [h0; h1; h2; h3] in
     len = 0 \/ MAX_FRAME < len ->
     snd (read_frame s) = t /\ exists e, fst (read_frame s) = Err e /\ kind e = InvalidData).
Proof.
  change MAX_FRAME with (2 ^ 20) at 1. split; [|split].
  - destruct (header_cases s) as [Hs|(h0 & h1 & h2 & h3 & ty & t & ->)].
    { by rewrite read_frame_short. }
    rewrite read_frame_header. cbv zeta. set (len := le_combine _).
    destruct (_ || _) eqn:E; [done|]. destruct (_ <=? _) eqn:E2; [|done].
    bool_to_prop. change MAX_FRAME with (2 ^ 20) in E.
    pose proof (decode_never_panics ty (take (Z.to_nat (len - 1)) t)) as Hd.
    cbn [fst]. destruct (decode _ _); try done; apply Hd; unfold zlen; rewrite length_take; lia.
  - destruct (header_cases s) as [Hs|(h0 & h1 & h2 & h3 & ty & t & ->)].
    { rewrite read_frame_short by done. exists s. cbn. rewrite app_nil_r. split; [done|lia]. }
    rewrite read_frame_header. cbv zeta. set (len := le_combine _).
    destruct (_ || _) eqn:E; [by exists [h0; h1; h2; h3; ty]|].
    bool_to_prop. change MAX_FRAME with (2 ^ 20) in E.
    destruct (_ <=? _) eqn:E2; bool_to_prop; cbn [snd].
    + exists ([h0; h1; h2; h3; ty] ++ take (Z.to_nat (len - 1)) t). split.
      * rewrite <- app_assoc, take_drop. done.
      * rewrite zlen_app. unfold zlen in *. rewrite length_take. cbn [length]. lia.
    + exists (h0 :: h1 :: h2 :: h3 :: ty :: t). rewrite app_nil_r. split; [done|].
      rewrite !zlen_cons. lia.
  - intros h0 h1 h2 h3 ty t -> len Hlen. rewrite read_frame_header. cbv zeta. fold len.
    assert ((len =? 0) || (MAX_FRAME <? len) = true) as -> by lia.
    split; [done|]. by eexists.
Qed.

(** Frames sent one after the other are read back one after the
    other: [n] frames off the stream give the [n] messages, in order, and
    leave what follows them. *)
Theorem read_frames_in_order `{Profile} (msgs : list Message) (frames : list (list byte))
    (tail : list byte) :
  Forall2 (fun msg frame => wf_msg msg /\ encode msg = Ok frame /\ zlen frame <= MAX_FRAME + 4)
    msgs frames ->
  for_count (zlen msgs) (fun got => msg ← read_frame; mret (got ++ [msg])) []
    (mjoin frames ++ tail) = (Ok msgs, tail).
Proof.
  intros HF. unfold zlen. rewrite for_count_nat.
  enough (forall acc, for_nat (length msgs) (fun got => msg ← read_frame; mret (got ++ [msg])) acc
            (mjoin frames ++ tail) = (Ok (acc ++ msgs), tail)) as He by apply He.
  induction HF as [|m f msgs frames (Hw & He & Hmax) _ IH]; intros acc.
  - cbn. by rewrite app_nil_r.
  - cbn [length for_nat mjoin list_join]. rewrite <- app_assoc.
    destruct (read_frame_of_encode (f ++ mjoin frames ++ tail) m f (mjoin frames ++ tail))
      as (s' & Hr & Hs'); [done..|]. cbn in Hs'. subst s'.
    rewrite ST_bind_assoc, (ST_bind_step _ _ _ _ _ Hr).
    etransitivity; [apply (IH (acc ++ [m]))|by rewrite <- app_assoc].
Qed.

Lemma read_frames_in_order_witness :
  for_count (zlen [ex_catalog; ex_tuples])
    (fun got => msg ← read_frame (P := false); mret (got ++ [msg])) []
    (mjoin [le_split 4 49 ++ [MSG_METADATA] ++ snd (encode_payload ex_catalog);
            le_split 4 33 ++ [MSG_TUPLES] ++ snd (encode_payload ex_tuples)] ++ [Byte.x00])
  = (Ok [ex_catalog; ex_tuples], [Byte.x00]).
Proof.
  apply (read_frames_in_order (H := false)).
  constructor; [|constructor; [|constructor]];
    (split; [first [exact ex_wf_catalog|exact ex_wf_tuples]|split; [reflexivity|discriminate]]).
Defined.

(** A stream that ends inside a frame is reported as
    [UnexpectedEof]: every proper prefix of a frame is. *)
Theorem truncated_frame_eof `{Profile} msg frame cut missing :
  wf_msg msg -> encode msg = Ok frame -> zlen frame <= MAX_FRAME + 4 ->
  frame = cut ++ missing -> missing <> [] ->
  exists e, read_frame cut = (Err e, []) /\ kind e = UnexpectedEof.
Proof.
  intros Hw He Hmax Hcut Hmiss.
  exists (IoError UnexpectedEof "failed to fill whole buffer" []). split; [|reflexivity].
  destruct (header_cases cut) as [Hs|(h0 & h1 & h2 & h3 & ty & t & ->)].
  { by apply read_frame_short. }
  destruct (encode_Ok_inv _ _ He) as (len & Hf & Hlen).
  destruct (encode_payload msg) as [ty' payload] eqn:E. cbn [fst snd] in *.
  rewrite Hf, !zlen_app, zlen_le_split, zlen_cons, zlen_nil in Hmax.
  change MAX_FRAME with (2 ^ 20) in Hmax. specialize (Hlen ltac:(lia)).
  rewrite Hf in Hcut. cbn [app] in Hcut.
  assert (Hhd : le_split 4 len = [h0; h1; h2; h3] /\ ty' :: payload = ty :: t ++ missing).
  { change (h0 :: h1 :: h2 :: h3 :: ty :: t ++ missing)
      with ([h0; h1; h2; h3] ++ ty :: t ++ missing) in Hcut.
    apply app_inj_1 in Hcut; [done|by rewrite length_le_split]. }
  destruct Hhd as [Hhd [= -> Hpay]].
  rewrite read_frame_header, <- Hhd. cbv zeta.
  pose proof (zlen_nonneg payload).
  rewrite le_combine_split_fits by (unfold fits; lia).
  assert ((len =? 0) || (MAX_FRAME <? len) = false) as ->
    by (change MAX_FRAME with (2 ^ 20); lia).
  assert ((len - 1 <=? zlen t) = false) as ->; [|done].
  rewrite Hpay, zlen_app in Hlen. destruct missing; [done|].
  rewrite zlen_cons in Hlen. pose proof (zlen_nonneg missing). lia.
Qed.

Lemma truncated_frame_eof_witness :
  exists e, read_frame (P := true) [Byte.x03; Byte.x00; Byte.x00; Byte.x00; Byte.x01; Byte.x01]
    = (Err e, []) /\ kind e = UnexpectedEof.
Proof.
  apply (truncated_frame_eof (H := true) (Hello 1)
    [Byte.x03; Byte.x00; Byte.x00; Byte.x00; Byte.x01; Byte.x01; Byte.x00] _ [Byte.x00]).
  - split; [discriminate|reflexivity].
  - reflexivity.
  - discriminate.
  - reflexivity.
  - discriminate.
Defined.

(** C39: The cap binds the receiver only: the sender encodes a frame of
    any size, and a frame beyond the cap is refused by every reader with
    [InvalidData]. A catalog that outgrows the cap can therefore no
    longer be exchanged. *)
Theorem oversized_frame_rejected `{Profile} msg tail :
  wf_msg msg -> MAX_FRAME < 1 + zlen (snd (encode_payload msg)) < 2 ^ 32 ->
  exists frame, encode msg = Ok frame /\
    exists e, fst (read_frame (frame ++ tail)) = Err e /\ kind e = InvalidData.
Proof.
  intros Hw Hsz. destruct (encode_payload msg) as [ty payload] eqn:E. cbn [snd] in Hsz.
  change MAX_FRAME with (2 ^ 20) in Hsz.
  exists (le_split 4 (1 + zlen payload) ++ [ty] ++ payload).
  split; [apply encode_frame; [done|lia]|]. set (len := 1 + zlen payload) in *.
  change ((le_split 4 len ++ [ty] ++ payload) ++ tail)
    with (byte.of_Z len :: byte.of_Z (len ≫ 8) :: byte.of_Z ((len ≫ 8) ≫ 8)
            :: byte.of_Z (((len ≫ 8) ≫ 8) ≫ 8) :: ty :: payload ++ tail).
  rewrite read_frame_header. cbv zeta.
  change (le_combine _) with (le_combine (le_split 4 len)).
  rewrite le_combine_split_fits by (unfold fits; lia).
  assert ((len =? 0) || (MAX_FRAME <? len) = true) as -> by (change MAX_FRAME with (2 ^ 20); lia).
  by eexists.
Qed.

(** A region whose name alone fills the cap. *)
Definition long_region (n : nat) : RegionDesc :=
  {| rd_id := 0; rd_name := replicate n Byte.x61; rd_size := 0; rd_elem_size := 1;
     rd_elem_align := 1; rd_elem_type := [] |}.

Lemma zlen_replicate {A} n (x : A) : zlen (replicate n x) = Z.of_nat n.
Proof. unfold zlen. by rewrite length_replicate. Qed.

Lemma wf_long_region n : Z.of_nat n < 2 ^ 32 -> wf_msg (Metadata [long_region n]).
Proof.
  intros Hn. split; [done|]. constructor; [|done]. split; try done. split.
  - apply utf8_valid_ascii. apply Forall_replicate. reflexivity.
  - cbn [rd_name long_region]. rewrite zlen_replicate. unfold fits. lia.
Qed.

Lemma zlen_long_region n :
  zlen (snd (encode_payload (Metadata [long_region n]))) = 32 + Z.of_nat n.
Proof.
  cbn [encode_payload snd foldl]. unfold put_region, put_str, put_u32, put_u64.
  cbn [rd_id rd_name rd_size rd_elem_size rd_elem_align rd_elem_type long_region].
  rewrite !zlen_app, !zlen_le_split, zlen_replicate, !zlen_nil. lia.
Qed.

Lemma oversized_frame_rejected_witness :
  exists frame, encode (P := true) (Metadata [long_region (Z.to_nat (2 ^ 20))]) = Ok frame /\
    exists e, fst (read_frame (P := true) (frame ++ [])) = Err e /\ kind e = InvalidData.
Proof.
  apply (oversized_frame_rejected (H := true)).
  - apply wf_long_region. lia.
  - rewrite zlen_long_region. change MAX_FRAME with (2 ^ 20). lia.
Defined.

(** The cap counts the type byte and the payload, not the four bytes
    of the length field: the largest frame exchanged is [MAX_FRAME + 4]
    bytes long, and there is one. *)
Theorem largest_frame `{Profile} :
  exists msg frame, wf_msg msg /\ encode msg = Ok frame /\ zlen frame = MAX_FRAME + 4 /\
    forall tail : list byte, read_frame (frame ++ tail) = (Ok msg, tail).
Proof.
  set (n := Z.to_nat (2 ^ 20 - 33)). set (msg := Metadata [long_region n]).
  assert (Hn : Z.of_nat n = 2 ^ 20 - 33) by lia.
  assert (Hw : wf_msg msg) by (apply wf_long_region; lia).
  pose proof (zlen_long_region n) as Hz. fold msg in Hz. rewrite Hn in Hz.
  set (payload := snd (encode_payload msg)) in *.
  exists msg, (le_split 4 (1 + zlen payload) ++ [MSG_METADATA] ++ payload).
  assert (He : encode msg = Ok (le_split 4 (1 + zlen payload) ++ [MSG_METADATA] ++ payload)).
  { apply encode_frame; [done|lia]. }
  assert (Hl : zlen (le_split 4 (1 + zlen payload) ++ [MSG_METADATA] ++ payload) = MAX_FRAME + 4).
  { rewrite !zlen_app, zlen_le_split, zlen_cons, zlen_nil, Hz.
    change MAX_FRAME with (2 ^ 20). lia. }
  split_and!; [done|done|done|]. intros tail.
  eapply (read_frame_of_encode (T := list byte)) in He as (s' & Hr & Hs');
    [|done|by rewrite Hl|reflexivity].
  cbn in Hs'. by rewrite Hr, Hs'.
Qed.

(** C30: A channel bounds every wait: once [Channel::new] adopted a
    stream, [receive] returns whatever the peer sends or withholds, even
    a peer that goes silent in the middle of a message. *)
Theorem channel_receive_returns `{Profile} (s : TcpStream) (c : Channel) :
  channel_new s = Ok c ->
  forall n : nat, let c' := snd (for_nat n (fun _ => catch channel_receive;; mret tt) tt c) in
  returns (fst (channel_receive c')).
Proof.
  intros Hc.
  assert (Hd : read_timeout (stream c) = Some IO_TIMEOUT).
  { unfold channel_new in Hc. revert Hc. st_cbn. unfold set_read_timeout, set_write_timeout.
    destruct (setsockopt s); cbn; [done|]. by intros [= <-]. }
  clear Hc. intros n. revert c Hd. induction n as [|n IH]; intros c Hd; cbv zeta.
  - cbn [for_nat]. unfold channel_receive, on_stream. st_cbn.
    pose proof (read_frame_tcp_bounded _ _ Hd) as [Hr _].
    by destruct (read_frame (stream c)).
  - cbn [for_nat].
    pose proof (read_frame_tcp_bounded _ _ Hd) as [Hr Hd'].
    assert (exists c1, (catch channel_receive;; mret tt) c = (Ok tt, c1) /\
      read_timeout (stream c1) = Some IO_TIMEOUT) as (c1 & Hs1 & Hd1).
    { unfold channel_receive, on_stream. st_cbn.
      destruct (read_frame (stream c)) as [[m|e| |] s1]; try done; by eexists. }
    rewrite (ST_bind_step _ _ _ _ _ Hs1). by apply IH.
Qed.

Lemma channel_receive_returns_witness :
  let s := {| rx := [Byte.x03; Byte.x00]; rx_end := PeerSilent; tx := []; tx_room := None;
              tx_end := PeerSilent; read_timeout := None; write_timeout := None;
              setsockopt := None |} in
  exists c, channel_new s = Ok c /\
    returns (fst (channel_receive (P := true) (snd
      (for_nat 2 (fun _ => catch (channel_receive (P := true));; mret tt) tt c)))).
Proof.
  intros s. eexists. split; [reflexivity|].
  apply (channel_receive_returns (H := true) s). reflexivity.
Defined.
