(* ===== verification/Channels.v ===== *)
(** * Channels over a TCP stream

    What sending and receiving a message do to the stream of a channel
    (src/src/meta.rs). *)
From S2P Require Import Prelude Meta MetaFacts.

Section channels.
Context {P : Profile}.
Implicit Types (s : TcpStream) (c : Channel).

(** Reading changes nothing but what is left to read. *)
Definition only_rx s s' : Prop := s' = set_rx s (rx s').

Lemma only_rx_bind {A B} (m : ST TcpStream A) (k : A -> ST TcpStream B) s :
  only_rx s (snd (m s)) -> (forall a s', only_rx s' (snd (k a s'))) -> only_rx s (snd ((m ≫= k) s)).
Proof.
  intros Hm Hk. st_cbn. destruct (m s) as [[a|e|y|] s1]; cbn [snd] in *; try done.
  specialize (Hk a s1). unfold only_rx in *. rewrite Hk. rewrite Hm. done.
Qed.

Lemma set_rx_id s : set_rx s (rx s) = s.
Proof. by destruct s. Qed.

Lemma read_frame_only_rx s : only_rx s (snd (read_frame s)).
Proof.
  assert (Hread : forall n s, only_rx s (snd (read_exact n s))).
  { intros n s'. unfold read_exact, Read_tcp. by destruct (_ <=? _). }
  assert (Hpure : forall A (r : res A) s, only_rx s (snd (lift r s))).
  { intros A r s'. unfold only_rx, lift. cbn [snd]. by rewrite set_rx_id. }
  unfold read_frame. apply only_rx_bind; [done|]. intros header s1.
  apply only_rx_bind; [done|]. intros raw s2. destruct (_ || _).
  { unfold only_rx. cbn [snd fail]. by rewrite set_rx_id. }
  apply only_rx_bind; [done|]. intros n s3. apply only_rx_bind; [done|]. intros payload s4.
  apply only_rx_bind; done.
Qed.

Definition received_rest c (rest : list byte) : Channel := {| stream := set_rx (stream c) rest |}.
Definition sent_more c (bs : list byte) : Channel :=
  {| stream := set_tx (stream c) (tx (stream c) ++ bs) None |}.

Lemma channel_receive_ok c msg frame tail :
  wf_msg msg -> encode msg = Ok frame -> zlen frame <= MAX_FRAME + 4 ->
  rx (stream c) = frame ++ tail -> channel_receive c = (Ok msg, received_rest c tail).
Proof.
  intros Hw He Hl Hrx. unfold channel_receive, on_stream.
  assert (Hp : pending (stream c) = frame ++ tail) by (rewrite <- Hrx; reflexivity).
  destruct (read_frame_of_encode (T := TcpStream) (stream c) msg frame tail Hw He Hl Hp) as (s' & Hr & Hs').
  pose proof (read_frame_only_rx (stream c)) as Ho. rewrite Hr in *. cbn [snd] in Ho.
  unfold received_rest. do 2 f_equal. rewrite Ho. f_equal. rewrite <- Hs'. reflexivity.
Qed.

Lemma channel_receive_tx c : tx (stream (snd (channel_receive c))) = tx (stream c).
Proof.
  unfold channel_receive, on_stream. pose proof (read_frame_only_rx (stream c)) as H.
  destruct (read_frame (stream c)) as [r s']. cbn [snd stream] in *. by rewrite H.
Qed.

Lemma channel_send_ok c msg frame :
  tx_room (stream c) = None -> encode msg = Ok frame ->
  channel_send msg c = (Ok tt, sent_more c frame).
Proof.
  intros Hroom He. unfold channel_send, on_stream, write_frame. st_cbn. rewrite He.
  unfold write_all, Write_tcp. by rewrite Hroom.
Qed.

Lemma channel_send_inv c msg c' :
  channel_send msg c = (Ok tt, c') ->
  exists frame, encode msg = Ok frame /\ tx (stream c') = tx (stream c) ++ frame.
Proof.
  unfold channel_send, on_stream, write_frame. st_cbn.
  destruct (encode msg) as [frame|e|y|]; try done. intros H. exists frame. split; [done|].
  revert H. unfold write_all, Write_tcp. destruct (tx_room (stream c)) as [room|].
  - destruct (zlen frame <=? room); [by intros [= <-]|].
    unfold ended. destruct (tx_end (stream c)), (write_timeout (stream c)); done.
  - by intros [= <-].
Qed.

(** ** With the timeouts armed *)
Definition armed c : Prop :=
  is_Some (read_timeout (stream c)) /\ is_Some (write_timeout (stream c)).

Lemma channel_new_armed s c : channel_new s = Ok c -> armed c /\ rx (stream c) = rx s.
Proof.
  unfold channel_new, set_read_timeout, set_write_timeout. st_cbn.
  destruct s as [? ? ? ? ? ? ? [e|]]; cbn; [done|]. intros [= <-]. by repeat split; eexists.
Qed.

(** How much a stream has left to read. *)
Lemma read_exact_consumes n s bs s' :
  0 <= n -> read_exact n s = (Ok bs, s') -> zlen (rx s') + n = zlen (rx s).
Proof.
  intros Hn. unfold read_exact, Read_tcp. destruct (Z.leb_spec n (zlen (rx s))); [|by destruct (rx_end s), (read_timeout s)].
  intros [= _ <-]. cbn. unfold zlen in *. rewrite length_drop. lia.
Qed.

Lemma read_exact_le n s : zlen (rx (snd (read_exact n s))) <= zlen (rx s).
Proof.
  unfold read_exact, Read_tcp. destruct (n <=? zlen (rx s)); cbn; [|unfold zlen; cbn; lia].
  unfold zlen. rewrite length_drop. lia.
Qed.

Lemma read_frame_consumes s msg s' :
  read_frame s = (Ok msg, s') -> zlen (rx s') + 5 <= zlen (rx s).
Proof.
  unfold read_frame. intros H. apply ST_bind_Ok in H as (header & s1 & H1 & H).
  apply ST_bind_Ok in H as (raw & s2 & [= _ <-] & H).
  destruct (_ || _); [done|]. apply ST_bind_Ok in H as (n & s3 & [= _ <-] & H).
  apply ST_bind_Ok in H as (payload & s4 & H4 & H).
  apply ST_bind_Ok in H as (ty & s5 & [= _ <-] & [= _ <-]).
  apply read_exact_consumes in H1; [|lia]. pose proof (read_exact_le n s1) as Hle.
  rewrite H4 in Hle. cbn [snd] in Hle. lia.
Qed.

(** Receiving always returns, and uses up at least a header when it
    succeeds. *)
Lemma channel_receive_armed c :
  armed c -> let '(x, c') := channel_receive c in
  returns x /\ armed c' /\ forall msg, x = Ok msg -> zlen (rx (stream c')) + 5 <= zlen (rx (stream c)).
Proof.
  intros [[d Hd] Hw]. unfold channel_receive, on_stream.
  pose proof (read_frame_tcp_bounded (stream c) d Hd) as [Hr Hd'].
  pose proof (read_frame_only_rx (stream c)) as Ho. pose proof (read_frame_consumes (stream c)) as Hc.
  destruct (read_frame (stream c)) as [x s']. cbn [fst snd] in *. split_and!; [done| |].
  - split; [by eexists|]. cbn [stream]. by rewrite Ho.
  - intros msg ->. by eapply Hc.
Qed.

(** Sending always returns, unless the message cannot be encoded. *)
Lemma channel_send_armed msg c :
  armed c -> let '(x, c') := channel_send msg c in
  armed c' /\ rx (stream c') = rx (stream c) /\
  match x with Ok _ | Err _ => True | Panic why => encode msg = Panic why | Diverge => False end.
Proof.
  intros [Hr [d Hw]]. unfold channel_send, on_stream, write_frame. st_cbn.
  assert (He : match encode msg with Ok _ | Panic _ => True | _ => False end).
  { unfold encode. destruct (encode_payload msg) as [ty payload]. st_cbn. unfold uint_add.
    destruct (overflowed_cases 32 (1 + as_u32 (zlen payload)) "attempt to add with overflow")
      as [[_ ->]|[(_ & _ & ->)|(_ & _ & ->)]]; done. }
  destruct (encode msg) as [frame|e|y|]; try done.
  unfold write_all, Write_tcp. destruct (tx_room (stream c)) as [room|].
  - destruct (zlen frame <=? room).
    + cbn. split; [split; [done|by eexists]|done].
    + split; [split; [done|by eexists]|]. split; [done|]. rewrite Hw. by destruct (tx_end (stream c)).
  - cbn. split; [split; [done|by eexists]|done].
Qed.
End channels.
