(* ===== verification/Pod.v ===== *)
(** * Element types (src/pod.rs)

    The types a region is shared as, their [repr(C)] size and alignment,
    the [RemoteSafe] contract ("every bit pattern is a valid value") and
    [zeroed_vec]. The same layout rules give the C structures of
    src/rdma/verbs.rs their offsets (file VerbsLayout). *)
From S2P Require Import Prelude.

(** ** Types and their layout *)

(** The scalar types of the language that matter here. [bool], [char] and
    references have bit patterns that are not values. *)
Inductive scalar :=
| U8 | U16 | U32 | U64 | U128 | Usize
| I8 | I16 | I32 | I64 | I128 | Isize
| F32 | F64
| Bool | Char | RawPtr | Reference.

(** A type: a scalar, an array, a [repr(C)] struct (with the alignment of
    an [align(n)] attribute, 1 without one) or a [repr(C)] union. *)
Inductive ty :=
| TScalar (s : scalar)
| TArray (t : ty) (n : nat)
| TStruct (align : Z) (fields : list ty)
| TUnion (fields : list ty).

(** Scalars are as wide as their bits and aligned to their size
    (64-bit targets). *)
Definition scalar_size (s : scalar) : Z :=
  match s with
  | U8 | I8 | Bool => 1
  | U16 | I16 => 2
  | U32 | I32 | F32 | Char => 4
  | U64 | I64 | F64 | Usize | Isize | RawPtr | Reference => 8
  | U128 | I128 => 16
  end.

(** The next multiple of [a]. *)
Definition round_up (z a : Z) : Z := (z + a - 1) / a * a.

Fixpoint align_of (t : ty) : Z :=
  match t with
  | TScalar s => scalar_size s
  | TArray t _ => align_of t
  | TStruct a fs => foldr (fun f m => Z.max (align_of f) m) a fs
  | TUnion fs => foldr (fun f m => Z.max (align_of f) m) 1 fs
  end.

Fixpoint size_of (t : ty) : Z :=
  match t with
  | TScalar s => scalar_size s
  | TArray t n => Z.of_nat n * size_of t
  | TStruct a fs =>
      round_up (foldl (fun off f => round_up off (align_of f) + size_of f) 0 fs)
        (foldr (fun f m => Z.max (align_of f) m) a fs)
  | TUnion fs =>
      round_up (foldr (fun f m => Z.max (size_of f) m) 0 fs)
        (foldr (fun f m => Z.max (align_of f) m) 1 fs)
  end.

(** The offset of each field of a [repr(C)] struct, in order. *)
Fixpoint offsets_from (off : Z) (fs : list ty) : list Z :=
  match fs with
  | [] => []
  | f :: fs => let o := round_up off (align_of f) in o :: offsets_from (o + size_of f) fs
  end.
Definition offsets (t : ty) : list Z :=
  match t with TStruct _ fs => offsets_from 0 fs | _ => [] end.

(** ** Valid bit patterns *)

(** The [n] bytes at offset [off]. *)
Definition bytes_at (bs : list byte) (off n : Z) : list byte :=
  take (Z.to_nat n) (drop (Z.to_nat off) bs).

(** [bs] has the width of [t] and is the image of a value: the scalars of
    a value lie inside it, each a valid pattern of its type. *)
Fixpoint valid_bits (t : ty) (bs : list byte) : bool :=
  match t with
  | TScalar s =>
      (zlen bs =? scalar_size s) &&
      match s with
      | Bool => le_combine bs <=? 1
      | Char => (le_combine bs <=? 0x10FFFF) &&
          negb ((0xD800 <=? le_combine bs) && (le_combine bs <=? 0xDFFF))
      | Reference => negb (le_combine bs =? 0)
      | _ => true
      end
  | TArray t n =>
      forallb (fun i => valid_bits t (bytes_at bs (Z.of_nat i * size_of t) (size_of t))) (seq 0 n)
  | TStruct _ fs =>
      fst (foldl (fun '(ok, off) f =>
             let o := round_up off (align_of f) in
             (ok && valid_bits f (bytes_at bs o (size_of f)), o + size_of f)) (true, 0) fs)
  | TUnion fs => true
  end.

(** The implementations of [RemoteSafe]: the listed scalars, arrays of a
    [RemoteSafe] type, and the types the application asserts with
    [impl_remote_safe!], which by the contract are [repr(C)] structs of
    [RemoteSafe] members. *)
Definition remote_safe_scalar (s : scalar) : bool :=
  match s with
  | U8 | U16 | U32 | U64 | U128 | Usize | I8 | I16 | I32 | I64 | I128 | Isize | F32 | F64 => true
  | Bool | Char | RawPtr | Reference => false
  end.

Inductive RemoteSafe : ty -> Prop :=
| rs_scalar s : remote_safe_scalar s = true -> RemoteSafe (TScalar s)
| rs_array t n : RemoteSafe t -> RemoteSafe (TArray t n)
| rs_struct a fs : Forall RemoteSafe fs -> RemoteSafe (TStruct a fs).

(** [zeroed_vec]: the bytes of [len] all-zero elements. *)
Definition zeroed_vec (t : ty) (len : Z) : res (list byte) :=
  if 2 ^ 63 - 1 <? len * size_of t then Panic "capacity overflow"
  else Ok (replicate (Z.to_nat (len * size_of t)) Byte.x00).

(** ** Lemmas *)

(** Induction through the field lists. *)
Section ty_induction.
Variable Q : ty -> Prop.
Hypothesis Hscalar : forall s, Q (TScalar s).
Hypothesis Harray : forall t n, Q t -> Q (TArray t n).
Hypothesis Hstruct : forall a fs, Forall Q fs -> Q (TStruct a fs).
Hypothesis Hunion : forall fs, Forall Q fs -> Q (TUnion fs).

Fixpoint ty_induction (t : ty) : Q t :=
  let all := fix all (fs : list ty) : Forall Q fs :=
    match fs with
    | [] => Forall_nil_2 Q
    | f :: fs => Forall_cons_2 Q f fs (ty_induction f) (all fs)
    end in
  match t with
  | TScalar s => Hscalar s
  | TArray t n => Harray t n (ty_induction t)
  | TStruct a fs => Hstruct a fs (all fs)
  | TUnion fs => Hunion fs (all fs)
  end.
End ty_induction.

(** An alignment is a power of two. *)
Definition pow2 (a : Z) : Prop := exists k, 0 <= k /\ a = 2 ^ k.

(** The [align] attributes of a type are powers of two (the language
    accepts no others). *)
Fixpoint wf_ty (t : ty) : Prop :=
  match t with
  | TScalar _ => True
  | TArray t _ => wf_ty t
  | TStruct a fs => pow2 a /\ foldr (fun f p => wf_ty f /\ p) True fs
  | TUnion fs => foldr (fun f p => wf_ty f /\ p) True fs
  end.

Lemma pow2_pos a : pow2 a -> 0 < a.
Proof. intros (k & ? & ->). lia. Qed.
Lemma pow2_max a b : pow2 a -> pow2 b -> pow2 (Z.max a b).
Proof. intros Ha Hb. destruct (Z.max_spec a b) as [[_ ->]|[_ ->]]; done. Qed.
Lemma pow2_divide a b : pow2 a -> pow2 b -> a <= b -> (a | b).
Proof.
  intros (j & Hj & ->) (k & Hk & ->) Hle. apply Z.pow_le_mono_r_iff in Hle; [|lia|lia].
  exists (2 ^ (k - j)). rewrite <- Z.pow_add_r by lia. f_equal. lia.
Qed.
#[export] Hint Resolve pow2_pos pow2_max : rust.

Lemma round_up_spec z a : 0 < a -> z <= round_up z a < z + a /\ (a | round_up z a).
Proof.
  intros Ha. unfold round_up. split; [|by eexists].
  pose proof (Z.div_mod (z + a - 1) a ltac:(lia)). pose proof (Z.mod_pos_bound (z + a - 1) a Ha).
  lia.
Qed.

Lemma wf_fields fs : foldr (fun f p => wf_ty f /\ p) True fs -> Forall wf_ty fs.
Proof. induction fs; cbn; intuition auto. Qed.

Lemma align_fields a fs :
  pow2 a -> Forall (fun f => wf_ty f -> pow2 (align_of f)) fs -> Forall wf_ty fs ->
  pow2 (foldr (fun f m => Z.max (align_of f) m) a fs).
Proof.
  intros Ha HQ Hw. induction HQ as [|f fs Hf HQ IH]; [done|].
  inversion Hw; subst. cbn. auto with rust.
Qed.

Lemma align_of_pow2 t : wf_ty t -> pow2 (align_of t).
Proof.
  induction t as [s|t n IH|a fs IH|fs IH] using ty_induction; cbn.
  - intros _. destruct s; cbn;
      [exists 0|exists 1|exists 2|exists 3|exists 4|exists 3|exists 0|exists 1|exists 2|exists 3
      |exists 4|exists 3|exists 2|exists 3|exists 0|exists 2|exists 3|exists 3]; (split; [lia|done]).
  - done.
  - intros [Ha Hf]. apply align_fields; [done|done|by apply wf_fields].
  - intros Hf. apply align_fields; [exists 0; split; [lia|done]|done|by apply wf_fields].
Qed.

(** The size of a type is a multiple of its alignment. *)
Lemma align_divides_size t : wf_ty t -> (align_of t | size_of t).
Proof.
  induction t as [s|t n IH|a fs IH|fs IH] using ty_induction; intros Hw;
    pose proof (align_of_pow2 _ Hw) as Hp; cbn in *.
  - apply Z.divide_refl.
  - apply Z.divide_mul_r. auto.
  - apply round_up_spec. auto with rust.
  - apply round_up_spec. auto with rust.
Qed.

Lemma size_of_nonneg t : wf_ty t -> 0 <= size_of t.
Proof.
  induction t as [s|t n IH|a fs IH|fs IH] using ty_induction; intros Hw;
    pose proof (pow2_pos _ (align_of_pow2 _ Hw)) as Hp; cbn in *.
  - destruct s; cbn; lia.
  - specialize (IH Hw). lia.
  - etransitivity; [|apply round_up_spec, Hp]. destruct Hw as [_ Hw]. apply wf_fields in Hw.
    enough (forall off, 0 <= off ->
      0 <= foldl (fun off f => round_up off (align_of f) + size_of f) off fs) as He by (by apply He).
    clear Hp. induction IH as [|f fs Hf IH' IHfs]; intros off Hoff; cbn; [lia|].
    inversion Hw; subst. apply IHfs; [done|].
    pose proof (round_up_spec off (align_of f) (pow2_pos _ (align_of_pow2 _ ltac:(done)))).
    specialize (Hf ltac:(done)). lia.
  - etransitivity; [|apply round_up_spec, Hp]. clear. induction fs; cbn; lia.
Qed.

(** A field inside the bytes has its full width. *)
Lemma zlen_bytes_at bs off n :
  0 <= off -> 0 <= n -> off + n <= zlen bs -> zlen (bytes_at bs off n) = n.
Proof. unfold bytes_at, zlen. rewrite length_take, length_drop. lia. Qed.

(** Where the next field may start, after the fields before it. *)
Lemma fields_end_le off fs :
  Forall wf_ty fs -> off <= foldl (fun off f => round_up off (align_of f) + size_of f) off fs.
Proof.
  intros Hw. revert off. induction Hw as [|f fs Hf _ IH]; intros off; cbn; [lia|].
  etransitivity; [|apply IH]. pose proof (size_of_nonneg f Hf).
  pose proof (round_up_spec off (align_of f) (pow2_pos _ (align_of_pow2 _ Hf))). lia.
Qed.

(** The fields of a struct are valid when any bytes of their width
    are. *)
Lemma valid_fields a fs bs :
  Forall (fun f => forall bs, wf_ty f -> RemoteSafe f -> zlen bs = size_of f ->
    valid_bits f bs = true) fs ->
  Forall wf_ty fs -> Forall RemoteSafe fs -> pow2 a -> zlen bs = size_of (TStruct a fs) ->
  valid_bits (TStruct a fs) bs = true.
Proof.
  intros HQ Hw Hrs Ha Hl.
  assert (Hend : foldl (fun off f => round_up off (align_of f) + size_of f) 0 fs <= zlen bs).
  { rewrite Hl. cbn. apply round_up_spec. apply pow2_pos, align_fields; [done| |done].
    apply Forall_true. intros f. apply align_of_pow2. }
  cbn. clear Hl Ha. revert Hend. generalize (Z.le_refl 0). generalize 0 at 2 3 4. intros off Hoff Hend.
  revert off Hoff Hend. induction HQ as [|f fs Hf _ IH]; intros off Hoff Hend; cbn; [done|].
  inversion Hw as [|? ? Hwf Hwfs]; subst. inversion Hrs; subst.
  pose proof (size_of_nonneg f Hwf). cbn in Hend.
  pose proof (round_up_spec off (align_of f) (pow2_pos _ (align_of_pow2 _ Hwf))).
  pose proof (fields_end_le (round_up off (align_of f) + size_of f) fs Hwfs).
  rewrite Hf; [|done|done|apply zlen_bytes_at; lia]. apply IH; [done|done|lia|done].
Qed.

Lemma any_bits_valid t bs :
  wf_ty t -> RemoteSafe t -> zlen bs = size_of t -> valid_bits t bs = true.
Proof.
  revert bs. induction t as [s|t n IH|a fs IH|fs IH] using ty_induction; intros bs Hw Hrs Hl.
  - inversion Hrs as [s' Hs| |]; subst. cbn in *. rewrite (proj2 (Z.eqb_eq _ _) Hl).
    by destruct s.
  - inversion Hrs; subst. cbn in *. pose proof (size_of_nonneg t Hw).
    apply forallb_forall. intros i Hi%in_seq. apply IH; [done..|].
    apply zlen_bytes_at; [lia..|]. rewrite Hl. nia.
  - inversion Hrs as [| |a' fs' Hall]; subst. apply valid_fields; try done; try apply Hw.
    by apply wf_fields, Hw.
  - inversion Hrs.
Qed.

(** ** Properties *)



(** [zeroed_vec] yields exactly [len] elements' worth of bytes, all
    zero, so every element is a valid value; beyond [isize::MAX] bytes it
    panics instead of allocating. *)
Theorem zeroed_vec_spec t len :
  wf_ty t -> RemoteSafe t -> 0 <= len ->
  match zeroed_vec t len with
  | Ok v => zlen v = len * size_of t /\ Forall (eq Byte.x00) v /\
      (forall i, 0 <= i < len -> valid_bits t (bytes_at v (i * size_of t) (size_of t)) = true)
  | Err _ | Diverge => False
  | Panic _ => 2 ^ 63 <= len * size_of t
  end.
Proof.
  intros Hw Hrs Hlen. pose proof (size_of_nonneg t Hw) as Hs. unfold zeroed_vec.
  destruct (Z.ltb_spec (2 ^ 63 - 1) (len * size_of t)); [lia|].
  assert (Hz : zlen (replicate (Z.to_nat (len * size_of t)) Byte.x00) = len * size_of t).
  { unfold zlen. rewrite length_replicate. lia. }
  split_and!; [done| |].
  - by apply Forall_replicate.
  - intros i Hi. apply any_bits_valid; [done..|]. apply zlen_bytes_at; nia.
Qed.

Lemma zeroed_vec_spec_witness :
  match zeroed_vec (TArray (TScalar U64) 2) 3 with
  | Ok v => zlen v = 3 * 16 /\ Forall (eq Byte.x00) v /\
      (forall i, 0 <= i < 3 ->
         valid_bits (TArray (TScalar U64) 2) (bytes_at v (i * 16) 16) = true)
  | Err _ | Diverge => False
  | Panic _ => 2 ^ 63 <= 3 * 16
  end.
Proof.
  apply (zeroed_vec_spec (TArray (TScalar U64) 2) 3).
  - exact I.
  - repeat constructor.
  - discriminate.
Defined.
