(* ===== verification/VerbsLayout.v ===== *)
(** * The C structures of src/rdma/verbs.rs

    The declared fields of the libibverbs and librdmacm structures as
    [repr(C)] types, and the layout facts the FFI relies on: sizes, and
    the offsets of the fields the code touches. *)
From S2P Require Import Prelude Pod.

Definition ptr_t : ty := TScalar RawPtr.
Definition u8_t : ty := TScalar U8.
Definition u16_t : ty := TScalar U16.
Definition u32_t : ty := TScalar U32.
Definition u64_t : ty := TScalar U64.
Definition usize_t : ty := TScalar Usize.
Definition c_int_t : ty := TScalar I32.
Definition c_uint_t : ty := TScalar U32.

Definition repr_c (fields : list ty) : ty := TStruct 1 fields.

Definition IbvQp_t : ty := repr_c [ptr_t].
Definition IbvCq_t : ty := repr_c [ptr_t].
(** 26 entries, [poll_cq] at index 11 and [post_send] at index 25. *)
Definition IbvContextOps_t : ty := repr_c
  [ptr_t; ptr_t; ptr_t; ptr_t; ptr_t; ptr_t; ptr_t; ptr_t; ptr_t; ptr_t; ptr_t;
   ptr_t; ptr_t; ptr_t; ptr_t; ptr_t; ptr_t; ptr_t; ptr_t; ptr_t; ptr_t; ptr_t;
   ptr_t; ptr_t; ptr_t; ptr_t].
Definition IbvContext_t : ty := repr_c [ptr_t; IbvContextOps_t].
Definition IbvPd_t : ty := repr_c [TArray u8_t 0].
Definition IbvSrq_t : ty := repr_c [TArray u8_t 0].
Definition RdmaEventChannel_t : ty := repr_c [TArray u8_t 0].
Definition IbvMr_t : ty := repr_c [ptr_t; ptr_t; ptr_t; usize_t; u32_t; u32_t; u32_t].
Definition IbvSge_t : ty := repr_c [u64_t; u32_t; u32_t].
Definition IbvRdmaWr_t : ty := repr_c [u64_t; u32_t].
Definition SendWrOp_t : ty := TUnion [IbvRdmaWr_t].
Definition IbvSendWr_t : ty := repr_c
  [u64_t; ptr_t; ptr_t; c_int_t; c_int_t; c_uint_t; u32_t; SendWrOp_t].
Definition IbvWc_t : ty := repr_c
  [u64_t; c_int_t; c_int_t; u32_t; u32_t; u32_t; u32_t; u32_t; c_uint_t; u16_t; u16_t;
   u8_t; u8_t].
Definition IbvQpCap_t : ty := repr_c [u32_t; u32_t; u32_t; u32_t; u32_t].
Definition IbvQpInitAttr_t : ty := repr_c
  [ptr_t; ptr_t; ptr_t; ptr_t; IbvQpCap_t; c_int_t; c_int_t].
Definition RdmaCmId_t : ty := repr_c [ptr_t; ptr_t; ptr_t; ptr_t].
Definition RdmaCmEvent_t : ty := repr_c [ptr_t; ptr_t; c_int_t; c_int_t].
Definition RdmaConnParam_t : ty := repr_c
  [ptr_t; u8_t; u8_t; u8_t; u8_t; u8_t; u8_t; u8_t; u32_t].
Definition SockaddrIn_t : ty := repr_c [u16_t; u16_t; TArray u8_t 4; TArray u8_t 8].

(** [offset_of!] by field position. *)
Definition offset_of (t : ty) (i : nat) : Z := default (-1) (offsets t !! i).

(** A field lies inside its structure and is aligned for its type. *)
Definition field_ok (t : ty) (i : nat) : bool :=
  match t with
  | TStruct _ fs =>
      match fs !! i with
      | Some f =>
          (0 <=? offset_of t i) && (offset_of t i + size_of f <=? size_of t) &&
          is_multiple_of (offset_of t i) (align_of f)
      | None => false
      end
  | _ => false
  end.

(** The sizes and field offsets the FFI code relies on, the ones the
    repository's layout tests pin, follow from the declared fields by the
    [repr(C)] rules: the handles' leading field at offset 0, the two
    entries of the command table at 88 and 200, and every field of a
    declared structure aligned and inside it. *)
Theorem verbs_struct_layouts :
  (size_of IbvSge_t, align_of IbvSge_t) = (16, 8) /\
  (size_of IbvMr_t, offset_of IbvMr_t 4, offset_of IbvMr_t 5, offset_of IbvMr_t 6)
    = (48, 32, 36, 40) /\
  (size_of IbvSendWr_t, offset_of IbvSendWr_t 5, offset_of IbvSendWr_t 7) = (56, 32, 40) /\
  (size_of IbvWc_t, offset_of IbvWc_t 1) = (48, 8) /\
  (size_of IbvQpCap_t, size_of IbvQpInitAttr_t) = (20, 64) /\
  (size_of IbvQp_t, offset_of IbvQp_t 0) = (8, 0) /\
  (size_of IbvCq_t, offset_of IbvCq_t 0) = (8, 0) /\
  (size_of IbvContextOps_t, offset_of IbvContext_t 1) = (208, 8) /\
  (offset_of IbvContextOps_t 11, offset_of IbvContextOps_t 25) = (88, 200) /\
  (size_of SockaddrIn_t, offset_of SockaddrIn_t 1, offset_of SockaddrIn_t 2) = (16, 2, 4) /\
  size_of RdmaConnParam_t = 24 /\
  (size_of RdmaCmEvent_t, offset_of RdmaCmEvent_t 0, offset_of RdmaCmEvent_t 2,
   offset_of RdmaCmEvent_t 3) = (24, 0, 16, 20) /\
  (size_of RdmaCmId_t, offset_of RdmaCmId_t 0, offset_of RdmaCmId_t 1, offset_of RdmaCmId_t 3)
    = (32, 0, 8, 24) /\
  Forall (fun t => match t with
      | TStruct _ fs => Forall (fun i => field_ok t i = true) (seq 0 (length fs))
      | _ => False
      end)
    [IbvQp_t; IbvCq_t; IbvContextOps_t; IbvContext_t; IbvPd_t; IbvSrq_t; RdmaEventChannel_t;
     IbvMr_t; IbvSge_t; IbvRdmaWr_t; IbvSendWr_t; IbvWc_t; IbvQpCap_t; IbvQpInitAttr_t;
     RdmaCmId_t; RdmaCmEvent_t; RdmaConnParam_t; SockaddrIn_t].
Proof.
  do 13 (split; [vm_compute; reflexivity|]).
  repeat (constructor; [cbn [length seq]; repeat (constructor; [vm_compute; reflexivity|]); done|]).
  done.
Qed.
