(* ===== verification/Verbs.v ===== *)
(** * The low-level RDMA commands (src/rdma/verbs.rs)

    Protection domains, memory registrations, connections, one-sided
    operations and the listener, over the C libraries.

    libibverbs, librdmacm and the operating system (the resolver, clock,
    allocator, threads and sockets the crate reaches through the standard
    library) are not part of the repository: they are the parameter
    [Verbs W], which answers every call [ccall] from a state [W] of its
    own. The model keeps a log of the
    calls and their answers, so that theorems can speak of what was asked
    of the libraries; reads of C structure fields are calls as well. *)
From S2P Require Import Prelude Meta.

(** ** Data *)

(** A raw pointer; [null] is 0. *)
Abbreviation ptr := Z.
Definition null : ptr := 0.

Definition RDMA_PS_TCP : Z := 0x0106.
Definition RESOLVE_TIMEOUT_MS : Z := 2000.
(** [POLL_TIMEOUT], in nanoseconds. *)
Definition POLL_TIMEOUT : Z := 10 * 1000000000.
Definition CQ_SIZE : Z := 16.
Definition LISTEN_BACKLOG : Z := 16.
Definition AF_INET : Z := 2.
Definition IBV_QPT_RC : Z := 2.
Definition IBV_WR_RDMA_WRITE : Z := 0.
Definition IBV_WR_RDMA_READ : Z := 4.
Definition IBV_SEND_SIGNALED : Z := Z.shiftl 1 1.
Definition IBV_ACCESS_LOCAL_WRITE : Z := 1.
Definition IBV_ACCESS_REMOTE_WRITE : Z := Z.shiftl 1 1.
Definition IBV_ACCESS_REMOTE_READ : Z := Z.shiftl 1 2.
Definition IBV_ACCESS_REMOTE_ATOMIC : Z := Z.shiftl 1 3.
Definition IBV_WC_SUCCESS : Z := 0.
Definition RDMA_CM_EVENT_ADDR_RESOLVED : Z := 0.
Definition RDMA_CM_EVENT_ROUTE_RESOLVED : Z := 2.
Definition RDMA_CM_EVENT_CONNECT_REQUEST : Z := 4.
Definition RDMA_CM_EVENT_ESTABLISHED : Z := 9.

(** The structures passed to and from the libraries, by the fields the
    code accesses (their layout is in VerbsLayout). *)
Record IbvSge := { sge_addr : Z; sge_length : Z; sge_lkey : Z }.
Record IbvSendWr := {
  wr_id : Z;
  wr_sge : IbvSge;
  wr_num_sge : Z;
  wr_opcode : Z;
  wr_send_flags : Z;
  wr_imm_data : Z;
  wr_remote_addr : Z;
  wr_rkey : Z;
}.
Record IbvWc := { wc_wr_id : Z; wc_status : Z; wc_vendor_err : Z }.
Record IbvQpCap := {
  max_send_wr : Z; max_recv_wr : Z; max_send_sge : Z; max_recv_sge : Z; max_inline_data : Z
}.
Record IbvQpInitAttr := {
  qp_context : ptr; send_cq : ptr; recv_cq : ptr; srq : ptr;
  cap : IbvQpCap; qp_type : Z; sq_sig_all : Z
}.
Record RdmaCmEvent := { ev_ptr : ptr; ev_id : ptr; ev_event : Z; ev_status : Z }.
Record RdmaConnParam := {
  private_data : ptr; private_data_len : Z; responder_resources : Z; initiator_depth : Z;
  flow_control : Z; retry_count : Z; rnr_retry_count : Z; param_srq : Z; param_qp_num : Z
}.
Record SockaddrIn := { sin_family : Z; sin_port : Z; sin_addr : list Z; sin_zero : list Z }.

(** [SocketAddr]: an IPv4 address and port, or an IPv6 one. *)
Inductive SocketAddr :=
| V4 (octets : list Z) (port : Z)
| V6.

(** What a caller passes for [impl ToSocketAddrs]. *)
Inductive addr_arg :=
| HostPort (host : rstring) (port : Z)
| Sock (a : SocketAddr).

(** ** The foreign interface *)

(** One constructor per foreign function, [static inline] command or field
    read, and one per service of the operating system, with the type of its
    answer. [GetCmEvent] blocks: the answer [None] is a call that never
    returns. [LoadBuffer] reads memory a device may have written;
    [TcpAccept] is on a listener that does not block. *)
Inductive ccall : Type -> Type :=
| ToSocketAddrs (host : rstring) (port : Z) : ccall (list SocketAddr + io_error)
| InstantNow : ccall Z
| LastOsError : ccall Z
| AllocPd (context : ptr) : ccall ptr
| DeallocPd (pd : ptr) : ccall Z
| CreateCq (context : ptr) (cqe : Z) : ccall ptr
| DestroyCq (cq : ptr) : ccall Z
| RegMr (pd : ptr) (addr : Z) (length : Z) (access : Z) : ccall ptr
| DeregMr (mr : ptr) : ccall Z
| MrKeys (mr : ptr) : ccall (Z * Z)
| CreateEventChannel : ccall ptr
| DestroyEventChannel (channel : ptr) : ccall unit
| CreateId (channel : ptr) (ps : Z) : ccall (Z * ptr)
| DestroyId (id : ptr) : ccall Z
| IdVerbs (id : ptr) : ccall ptr
| IdQp (id : ptr) : ccall ptr
| BindAddr (id : ptr) (addr : SockaddrIn) : ccall Z
| Listen (id : ptr) (backlog : Z) : ccall Z
| GetCmEvent (channel : ptr) : ccall (option (Z * RdmaCmEvent))
| AckCmEvent (event : ptr) : ccall Z
| ResolveAddr (id : ptr) (dst : SockaddrIn) (timeout_ms : Z) : ccall Z
| ResolveRoute (id : ptr) (timeout_ms : Z) : ccall Z
| CreateQp (id : ptr) (pd : ptr) (attr : IbvQpInitAttr) : ccall Z
| DestroyQp (id : ptr) : ccall unit
| ConnectId (id : ptr) (param : RdmaConnParam) : ccall Z
| AcceptId (id : ptr) (param : RdmaConnParam) : ccall Z
| Disconnect (id : ptr) : ccall Z
| PostSend (qp : ptr) (wr : IbvSendWr) : ccall Z
| PollCq (cq : ptr) (num_entries : Z) : ccall (Z * IbvWc)
| AllocBuffer (size : Z) : ccall ptr
| LoadBuffer (addr : ptr) (size : Z) : ccall (list byte)
| TcpConnect (host : rstring) (port : Z) : ccall (TcpStream + io_error)
| TcpBind (port : Z) : ccall (Z + io_error)
| TcpAccept (listener : Z) : ccall (TcpStream + io_error)
| TcpClose (listener : Z) : ccall unit
| Sleep (ms : Z) : ccall unit
| Spawn : ccall Z
| ThreadFinished (thread : Z) : ccall bool
| Join (thread : Z) : ccall unit
| LoadFlag (flag : Z) : ccall bool
| StoreFlag (flag : Z) (value : bool) : ccall unit.

Class Verbs (W : Type) := exec : forall T, ccall T -> W -> T * W.
Arguments exec {W _ T} c w.

(** A call made, with its answer. *)
Inductive event := Ev (T : Type) (c : ccall T) (answer : T).
Arguments Ev {T} c answer.

(** ** State *)

(** [Arc<PdInner>]: the shared protection domain and its reference
    count. *)
Record PdInner := { pi_context : ptr; pi_pd : ptr; pi_refs : Z }.

(** The libraries' state, the log (latest call first), the shared
    [PdInner]s, the [Cell]s of the connections, and the next location. *)
Record world (W : Type) := World {
  env : W;
  log : list event;
  arcs : gmap Z PdInner;
  cells : gmap Z Z;
  next_loc : Z;
}.
Arguments World {W} env log arcs cells next_loc.
Arguments env {W} w.
Arguments log {W} w.
Arguments arcs {W} w.
Arguments cells {W} w.
Arguments next_loc {W} w.

(** [MemoryRegion] *)
Record MemoryRegion := {
  mr_mr : ptr; mr_pd : ptr; mr_addr : Z; mr_size : Z; mr_lkey : Z; mr_rkey : Z
}.

#[export] Instance MemoryRegion_eq_dec : EqDecision MemoryRegion.
Proof. solve_decision. Defined.

(** [Connection]; the protection domain is the location of its
    [PdInner], the work request counter the location of its [Cell]. *)
Record Connection := {
  c_id : ptr; c_cq : ptr; c_pd : option Z; c_event_channel : ptr; c_next_wr_id : Z
}.

Record Listener := { l_id : ptr; l_event_channel : ptr }.

(** [MemoryRegion::tuple] *)
Definition mr_tuple (mr : MemoryRegion) : Z * Z * Z := (mr_addr mr, mr_size mr, mr_rkey mr).

(** [SockaddrIn::from]; [to_be] swaps the two bytes of the port on the
    little-endian targets. *)
Definition to_be (port : Z) : Z := Z.lor (Z.shiftl (port mod 256) 8) (port / 256).
Definition SockaddrIn_from (octets : list Z) (port : Z) : SockaddrIn :=
  {| sin_family := AF_INET; sin_port := to_be port; sin_addr := octets;
     sin_zero := [0; 0; 0; 0; 0; 0; 0; 0] |}.

Definition conn_param : RdmaConnParam :=
  {| private_data := null; private_data_len := 0; responder_resources := 3;
     initiator_depth := 3; flow_control := 0; retry_count := 7; rnr_retry_count := 0;
     param_srq := 0; param_qp_num := 0 |}.

(** [invalid] *)
Definition invalid (t : string) (a : list fmt_arg) : io_error := IoError InvalidInput t a.

Section verbs.
Context {P : Profile} {W : Type} {V : Verbs W}.
Abbreviation M := (ST (world W)).

(** Make a foreign call. *)
Definition call {T} (c : ccall T) : M T := fun w =>
  let '(answer, e) := exec c (env w) in
  (Ok answer, World e (Ev c answer :: log w) (arcs w) (cells w) (next_loc w)).

(** [check]: a non-zero return value is an error. *)
Definition check (name : string) (ret : Z) : M unit :=
  if ret =? 0 then mret tt
  else fail (error_other "{call} failed: {os error}" [FText (rstr name); FInt ret]).

(** [check_ptr]: a null pointer is an error. *)
Definition check_ptr (name : string) (p : ptr) : M ptr :=
  if p =? null then
    errno ← call LastOsError;
    fail (error_other "{call} failed: {os error}" [FText (rstr name); FInt errno])
  else mret p.

(** [resolve_v4] *)
Definition to_socket_addrs (addr : addr_arg) : M (list SocketAddr) :=
  match addr with
  | Sock a => mret [a]
  | HostPort host port =>
      r ← call (ToSocketAddrs host port);
      match r with inl l => mret l | inr e => fail e end
  end.

Definition resolve_v4 (addr : addr_arg) : M (list Z * Z) :=
  l ← to_socket_addrs addr;
  match l with
  | [] => fail (invalid "the address did not resolve to a socket address" [])
  | V4 octets port :: _ => mret (octets, port)
  | V6 :: _ => fail (IoError Unsupported "IPv6 addresses are not supported yet" [])
  end.

(** [rdma_get_cm_event]: blocks until an event arrives. *)
Definition get_cm_event (channel : ptr) : M (Z * RdmaCmEvent) :=
  r ← call (GetCmEvent channel);
  match r with Some r => mret r | None => diverge end.

(** [wait_event] *)
Definition wait_event (channel : ptr) (expected : Z) (step : string) : M unit :=
  '(ret, event) ← get_cm_event channel;
  check step ret;;
  ack ← call (AckCmEvent (ev_ptr event));
  if negb (ev_event event =? expected) || negb (ev_status event =? 0) then
    fail (error_other "{step}: expected {expected}, got {event_type} (status {status})"
      [FText (rstr step); FInt expected; FInt (ev_event event); FInt (ev_status event)])
  else check "rdma_ack_cm_event" ack.

(** ** Protection domains *)

(** Look into the [Arc]; a dangling one cannot exist in Rust. *)
Definition arc_get (pd : Z) : M PdInner := fun w =>
  match arcs w !! pd with
  | Some i => (Ok i, w)
  | None => (Panic "dangling Arc", w)
  end.

Definition arc_new (i : PdInner) : M Z := fun w =>
  (Ok (next_loc w),
   World (env w) (log w) (<[next_loc w := i]> (arcs w)) (cells w) (next_loc w + 1)).

Definition arc_set (pd : Z) (i : PdInner) : M unit := fun w =>
  (Ok tt, World (env w) (log w) (<[pd := i]> (arcs w)) (cells w) (next_loc w)).

Definition arc_remove (pd : Z) : M unit := fun w =>
  (Ok tt, World (env w) (log w) (delete pd (arcs w)) (cells w) (next_loc w)).

(** [ProtectionDomain::alloc] *)
Definition pd_alloc (context : ptr) : M Z :=
  p ← call (AllocPd context);
  pd ← check_ptr "ibv_alloc_pd" p;
  arc_new {| pi_context := context; pi_pd := pd; pi_refs := 1 |}.

(** [raw], [context], [Clone], and the drop of a handle: the last one
    drops the [PdInner], which deallocates the domain. *)
Definition pd_raw (pd : Z) : M ptr := i ← arc_get pd; mret (pi_pd i).
Definition pd_context (pd : Z) : M ptr := i ← arc_get pd; mret (pi_context i).
Definition pd_clone (pd : Z) : M Z :=
  i ← arc_get pd;
  arc_set pd {| pi_context := pi_context i; pi_pd := pi_pd i; pi_refs := pi_refs i + 1 |};;
  mret pd.
Definition pd_drop (pd : Z) : M unit :=
  i ← arc_get pd;
  if pi_refs i =? 1 then call (DeallocPd (pi_pd i));; arc_remove pd
  else arc_set pd {| pi_context := pi_context i; pi_pd := pi_pd i; pi_refs := pi_refs i - 1 |}.

(** [ProtectionDomain::register_addr], [register]; a buffer is the
    address and the length of a slice. *)
Definition pd_register_addr (pd : Z) (addr size : Z) : M MemoryRegion :=
  if size =? 0 then fail (invalid "cannot register an empty region" []) else
  i ← arc_get pd;
  p ← call (RegMr (pi_pd i) addr size
        (Z.lor (Z.lor (Z.lor IBV_ACCESS_LOCAL_WRITE IBV_ACCESS_REMOTE_WRITE)
           IBV_ACCESS_REMOTE_READ) IBV_ACCESS_REMOTE_ATOMIC));
  mr ← check_ptr "ibv_reg_mr" p;
  '(lkey, rkey) ← call (MrKeys mr);
  mret {| mr_mr := mr; mr_pd := pi_pd i; mr_addr := addr; mr_size := size;
          mr_lkey := lkey; mr_rkey := rkey |}.

Definition pd_register (pd : Z) (buffer : ptr * Z) : M MemoryRegion :=
  pd_register_addr pd (fst buffer) (snd buffer).

(** [Drop for MemoryRegion] *)
Definition mr_drop (mr : MemoryRegion) : M unit := call (DeregMr (mr_mr mr));; mret tt.

(** ** Connections *)
Definition cell_new (z : Z) : M Z := fun w =>
  (Ok (next_loc w),
   World (env w) (log w) (arcs w) (<[next_loc w := z]> (cells w)) (next_loc w + 1)).
Definition cell_get (c : Z) : M Z := fun w => (Ok (default 0 (cells w !! c)), w).
Definition cell_set (c : Z) (z : Z) : M unit := fun w =>
  (Ok tt, World (env w) (log w) (arcs w) (<[c := z]> (cells w)) (next_loc w)).

(** [Drop for Connection], then the drop of its fields. *)
Definition conn_drop (c : Connection) : M unit :=
  (if c_id c =? null then mret tt else
     qp ← call (IdQp (c_id c));
     (if qp =? null then mret tt else
        call (Disconnect (c_id c));; call (DestroyQp (c_id c)));;
     call (DestroyId (c_id c));; mret tt);;
  (if c_cq c =? null then mret tt else call (DestroyCq (c_cq c));; mret tt);;
  (if c_event_channel c =? null then mret tt else call (DestroyEventChannel (c_event_channel c)));;
  match c_pd c with Some pd => pd_drop pd | None => mret tt end.

(** Methods taking [&mut self]: the connection is part of the state, so
    that a failing method leaves it as far as it was built. *)
Abbreviation MC := (ST (Connection * world W)).
Definition on_world {C A} (m : M A) : ST (C * world W) A := fun '(c, w) => let '(r, w') := m w in (r, (c, w')).
Definition self : MC Connection := fun '(c, w) => (Ok c, (c, w)).
Definition set_cq (cq : ptr) : MC unit := fun '(c, w) =>
  (Ok tt, ({| c_id := c_id c; c_cq := cq; c_pd := c_pd c;
              c_event_channel := c_event_channel c; c_next_wr_id := c_next_wr_id c |}, w)).
Definition set_pd (pd : Z) : MC unit := fun '(c, w) =>
  (Ok tt, ({| c_id := c_id c; c_cq := c_cq c; c_pd := Some pd;
              c_event_channel := c_event_channel c; c_next_wr_id := c_next_wr_id c |}, w)).
Definition set_id (id : ptr) : MC unit := fun '(c, w) =>
  (Ok tt, ({| c_id := id; c_cq := c_cq c; c_pd := c_pd c;
              c_event_channel := c_event_channel c; c_next_wr_id := c_next_wr_id c |}, w)).

(** Build a connection with [m]; if that fails, the partially built
    connection is dropped. *)
Definition build (c : Connection) (m : MC unit) : M Connection := fun w =>
  match m (c, w) with
  | (Ok _, (c', w')) => (Ok c', w')
  | (Err e, (c', w')) => (Err e, snd (conn_drop c' w'))
  | (Panic why, (c', w')) => (Panic why, snd (conn_drop c' w'))
  | (Diverge, (_, w')) => (Diverge, w')
  end.

(** [create_resources]; the handle [pd] is moved in, and dropped if the
    method fails before it is stored. *)
Definition qp_init_attr (cq : ptr) : IbvQpInitAttr :=
  {| qp_context := null; send_cq := cq; recv_cq := cq; srq := null;
     cap := {| max_send_wr := CQ_SIZE; max_recv_wr := CQ_SIZE; max_send_sge := 1;
               max_recv_sge := 1; max_inline_data := 0 |};
     qp_type := IBV_QPT_RC; sq_sig_all := 1 |}.

Definition create_resources (pd : Z) : MC unit :=
  c ← self;
  on_failure
    (context ← on_world (call (IdVerbs (c_id c)));
     p ← on_world (call (CreateCq context CQ_SIZE));
     cq ← on_world (check_ptr "ibv_create_cq" p);
     set_cq cq;;
     raw ← on_world (pd_raw pd);
     ret ← on_world (call (CreateQp (c_id c) raw (qp_init_attr cq)));
     on_world (check "rdma_create_qp" ret))
    (on_world (pd_drop pd));;
  set_pd pd.

(** [connect_to] *)
Definition connect_to (dst : SockaddrIn) : MC unit :=
  c ← self;
  let channel := c_event_channel c in
  '(ret, id) ← on_world (call (CreateId channel RDMA_PS_TCP));
  set_id id;;
  on_world (check "rdma_create_id" ret);;
  ret ← on_world (call (ResolveAddr id dst RESOLVE_TIMEOUT_MS));
  on_world (check "rdma_resolve_addr" ret);;
  on_world (wait_event channel RDMA_CM_EVENT_ADDR_RESOLVED "rdma_resolve_addr");;
  ret ← on_world (call (ResolveRoute id RESOLVE_TIMEOUT_MS));
  on_world (check "rdma_resolve_route" ret);;
  on_world (wait_event channel RDMA_CM_EVENT_ROUTE_RESOLVED "rdma_resolve_route");;
  context ← on_world (call (IdVerbs id));
  pd ← on_world (pd_alloc context);
  create_resources pd;;
  ret ← on_world (call (ConnectId id conn_param));
  on_world (check "rdma_connect" ret);;
  on_world (wait_event channel RDMA_CM_EVENT_ESTABLISHED "rdma_connect").

(** [Connection::connect] *)
Definition connect (addr : addr_arg) : M Connection :=
  '(octets, port) ← resolve_v4 addr;
  p ← call CreateEventChannel;
  channel ← check_ptr "rdma_create_event_channel" p;
  cell ← cell_new 0;
  build {| c_id := null; c_cq := null; c_pd := None; c_event_channel := channel;
           c_next_wr_id := cell |}
    (connect_to (SockaddrIn_from octets port)).

(** [Connection::protection_domain]: a new handle. *)
Definition protection_domain (c : Connection) : M Z :=
  match c_pd c with
  | Some pd => pd_clone pd
  | None => panic "the connection is established"
  end.

(** [Connection::register_addr], [register]: the temporary handle is
    dropped at the end of the expression. *)
Definition register_addr (c : Connection) (addr size : Z) : M MemoryRegion :=
  pd ← protection_domain c;
  finally (pd_register_addr pd addr size) (pd_drop pd).

Definition register (c : Connection) (buffer : ptr * Z) : M MemoryRegion :=
  pd ← protection_domain c;
  finally (pd_register pd buffer) (pd_drop pd).

(** The completion loop of [one_sided]: poll until the completion of
    work request [id] or the deadline, skipping other completions.
    [fuel] bounds the rounds; running out of it is [Diverge]. *)
Fixpoint poll_loop (fuel : nat) (cq : ptr) (id : Z) (op : string) (deadline : Z) : M unit :=
  match fuel with
  | O => diverge
  | S fuel =>
    '(ret, wc) ← call (PollCq cq 1);
    (if ret <? 0 then
       neg ← lift (if (ret =? - 2 ^ 31) && overflow_checks
                   then Panic "attempt to negate with overflow" else Ok (- ret));
       check "ibv_poll_cq" neg
     else mret tt);;
    if (ret =? 1) && (wc_wr_id wc =? id) then
      if negb (wc_status wc =? IBV_WC_SUCCESS) then
        fail (error_other "RDMA {op} failed: {status} (vendor error {vendor_err})"
          [FText (rstr op); FInt (wc_status wc); FInt (wc_vendor_err wc)])
      else mret tt
    else
      now ← call InstantNow;
      if deadline <=? now
      then fail (IoError TimedOut "timed out waiting for the RDMA {op} completion"
             [FText (rstr op)])
      else poll_loop fuel cq id op deadline
  end.

(** [Connection::one_sided] *)
Definition one_sided (fuel : nat) (c : Connection) (op : string) (opcode : Z) (mr : MemoryRegion)
    (remote_addr rkey len : Z) : M unit :=
  if len =? 0 then fail (invalid "cannot {op} zero bytes" [FText (rstr op)]) else
  if mr_size mr <? len then
    fail (invalid "{op} of {len} bytes exceeds the registered region of {size} bytes"
      [FText (rstr op); FInt len; FInt (mr_size mr)]) else
  pd ← match c_pd c with
       | Some pd => mret pd
       | None => panic "the connection is established"
       end;
  raw ← pd_raw pd;
  if negb (mr_pd mr =? raw) then
    fail (invalid "the memory region is registered in another protection domain" []) else
  id ← cell_get (c_next_wr_id c);
  id' ← lift (uint_add 64 id 1);
  cell_set (c_next_wr_id c) id';;
  let send_wr :=
    {| wr_id := id;
       wr_sge := {| sge_addr := mr_addr mr; sge_length := as_u32 len; sge_lkey := mr_lkey mr |};
       wr_num_sge := 1; wr_opcode := opcode; wr_send_flags := IBV_SEND_SIGNALED;
       wr_imm_data := 0; wr_remote_addr := remote_addr; wr_rkey := rkey |} in
  qp ← call (IdQp (c_id c));
  ret ← call (PostSend qp send_wr);
  check "ibv_post_send" ret;;
  now ← call InstantNow;
  poll_loop fuel (c_cq c) id op (now + POLL_TIMEOUT).

(** [Connection::read], [Connection::write] *)
Definition conn_read (fuel : nat) (c : Connection) (mr : MemoryRegion)
    (remote_addr rkey len : Z) : M unit :=
  one_sided fuel c "read" IBV_WR_RDMA_READ mr remote_addr rkey len.
Definition conn_write (fuel : nat) (c : Connection) (mr : MemoryRegion)
    (remote_addr rkey len : Z) : M unit :=
  one_sided fuel c "write" IBV_WR_RDMA_WRITE mr remote_addr rkey len.

(** ** The listener *)

(** [Drop for Listener] *)
Definition listener_drop (l : Listener) : M unit :=
  call (DestroyId (l_id l));; call (DestroyEventChannel (l_event_channel l)).

(** [Listener::bind] *)
Definition bind (addr : addr_arg) : M Listener :=
  '(octets, port) ← resolve_v4 addr;
  let sin := SockaddrIn_from octets port in
  p ← call CreateEventChannel;
  channel ← check_ptr "rdma_create_event_channel" p;
  '(ret, id) ← call (CreateId channel RDMA_PS_TCP);
  check "rdma_create_id" ret;;
  result ← catch (ret ← call (BindAddr id sin);
                  check "rdma_bind_addr" ret;;
                  ret ← call (Listen id LISTEN_BACKLOG);
                  check "rdma_listen" ret);
  match result with
  | inl _ => mret {| l_id := id; l_event_channel := channel |}
  | inr e =>
      call (DestroyId id);; call (DestroyEventChannel channel);; fail e
  end.

(** [Listener::accept_impl] *)
Definition accept_impl (l : Listener) (pd : option Z) : M Connection :=
  '(ret, event) ← get_cm_event (l_event_channel l);
  check "rdma_get_cm_event" ret;;
  ack ← call (AckCmEvent (ev_ptr event));
  if negb (ev_event event =? RDMA_CM_EVENT_CONNECT_REQUEST) || negb (ev_status event =? 0) then
    fail (error_other "expected a connection request, got {event_type} (status {status})"
      [FInt (ev_event event); FInt (ev_status event)]) else
  check "rdma_ack_cm_event" ack;;
  cell ← cell_new 0;
  let child := ev_id event in
  build {| c_id := child; c_cq := null; c_pd := None; c_event_channel := null;
           c_next_wr_id := cell |}
    (context ← on_world (call (IdVerbs child));
     pd ← match pd with
          | Some pd =>
              pd_ctx ← on_world (pd_context pd);
              if negb (pd_ctx =? context)
              then fail (error_other "rdma accept_into: the connection arrived on a different device than the protection domain" [])
              else on_world (pd_clone pd)
          | None => on_world (pd_alloc context)
          end;
     create_resources pd;;
     ret ← on_world (call (AcceptId child conn_param));
     on_world (check "rdma_accept" ret);;
     on_world (wait_event (l_event_channel l) RDMA_CM_EVENT_ESTABLISHED "rdma_accept")).

(** [Listener::accept], [Listener::accept_into] *)
Definition accept (l : Listener) : M Connection := accept_impl l None.
Definition accept_into (l : Listener) (pd : Z) : M Connection := accept_impl l (Some pd).
End verbs.
