(* ===== verification/VerbsSpec.v ===== *)
(** * The RDMA commands: the resource ledger

    The ledger of the C objects created and not yet released, read off the
    log of foreign calls ([live], [ledger]), and what the resource
    management relies on of the libraries ([VerbsOk]). *)
From S2P Require Import Prelude Verbs.

(** ** The ledger *)

(** What is counted: protection domains, completion queues,
    registrations, event channels, communication identifiers, queue pairs
    (by their identifier), unacknowledged events, and the references to a
    shared [PdInner]. *)
Inductive resource :=
| RPd (pd : ptr) | RCq (cq : ptr) | RMr (mr : ptr) | RChannel (channel : ptr)
| RId (id : ptr) | RQp (id : ptr) | REvent (event : ptr) | RRef (pd : Z).

#[export] Instance resource_eq_dec : EqDecision resource.
Proof. solve_decision. Defined.

Fixpoint tally (r : resource) (l : list resource) : Z :=
  match l with
  | [] => 0
  | x :: l => (if decide (r = x) then 1 else 0) + tally r l
  end.

(** An incoming connection request: its identifier is the consumer's. *)
Definition is_request (ev : RdmaCmEvent) : bool :=
  (ev_event ev =? RDMA_CM_EVENT_CONNECT_REQUEST) && (ev_status ev =? 0).

Definition unless_null (p : ptr) (r : resource) : list resource :=
  if p =? null then [] else [r].

(** What a call with this answer creates. *)
Definition created {T} (c : ccall T) : T -> list resource :=
  match c in ccall T return T -> list resource with
  | AllocPd _ => fun p => unless_null p (RPd p)
  | CreateCq _ _ => fun p => unless_null p (RCq p)
  | RegMr _ _ _ _ => fun p => unless_null p (RMr p)
  | CreateEventChannel => fun p => unless_null p (RChannel p)
  | CreateId _ _ => fun a => if fst a =? 0 then [RId (snd a)] else []
  | CreateQp id _ _ => fun ret => if ret =? 0 then [RQp id] else []
  | GetCmEvent _ => fun a =>
      match a with
      | Some (ret, ev) =>
          if ret =? 0
          then REvent (ev_ptr ev) :: (if is_request ev then [RId (ev_id ev)] else [])
          else []
      | None => []
      end
  | _ => fun _ => []
  end.

(** What a call releases. *)
Definition released {T} (c : ccall T) : list resource :=
  match c with
  | DeallocPd pd => [RPd pd]
  | DestroyCq cq => [RCq cq]
  | DeregMr mr => [RMr mr]
  | DestroyEventChannel channel => [RChannel channel]
  | DestroyId id => [RId id]
  | DestroyQp id => [RQp id]
  | AckCmEvent event => [REvent event]
  | _ => []
  end.

Definition delta (r : resource) (e : event) : Z :=
  match e with Ev c answer => tally r (created c answer) - tally r (released c) end.

(** Created minus released. *)
Definition live (r : resource) (l : list event) : Z := foldr (fun e n => delta r e + n) 0 l.

Arguments live r l : simpl never.

(** A call that blocks for ever: waiting for an event that never comes. *)
#[export] Instance world_blocking {W} : Blocking (world W) := fun w =>
  exists channel l, log w = Ev (GetCmEvent channel) None :: l.
#[export] Instance conn_blocking {C W} : Blocking (C * world W) := fun s => blocked (snd s).

(** The entries of the [Arc] store that hold the domain [pd]. *)
Definition holders (pd : ptr) (m : gmap Z PdInner) : Z :=
  map_sum (fun i => if pi_pd i =? pd then 1 else 0) m.

Arguments holders pd m : simpl never.

(** The ledger of a state. A protection domain is counted net of the
    [PdInner] that owns it, so a balanced entry is a domain some [Arc]
    keeps; [RRef] counts the handles to a [PdInner]. *)
Definition ledger {W} (w : world W) (r : resource) : Z :=
  match r with
  | RPd pd => live r (log w) - holders pd (arcs w)
  | RRef pd => match arcs w !! pd with Some i => pi_refs i | None => 0 end
  | _ => live r (log w)
  end.

(** Reference counts are positive and locations are below the next. *)
Definition wf_world {W} (w : world W) : Prop :=
  forall pd i, arcs w !! pd = Some i -> 1 <= pi_refs i /\ pd < next_loc w.

(** ** What the code relies on

    The documented behaviour of the libraries the resource management
    depends on: [id->qp] is null exactly when no queue pair was created
    on the identifier; a created identifier and the identifier of a
    connection request are fresh; and connection requests are delivered
    on the channels of listening identifiers only. *)
Definition changes_qp {T} (c : ccall T) (id : ptr) : bool :=
  match c with
  | CreateQp id' _ _ | DestroyQp id' | DestroyId id' => id =? id'
  | _ => false
  end.

Definition changes_listening {T} (c : ccall T) : bool :=
  match c with Listen _ _ | CreateEventChannel => true | _ => false end.

Class VerbsOk (W : Type) {V : Verbs W} := {
  has_qp : W -> ptr -> bool;
  listening : W -> ptr -> bool;
  qp_pointer : forall id w, fst (exec (IdQp id) w) = null <-> has_qp w id = false;
  qp_frame : forall T (c : ccall T) id w,
    changes_qp c id = false -> has_qp (snd (exec c w)) id = has_qp w id;
  qp_created : forall id pd attr w,
    has_qp (snd (exec (CreateQp id pd attr) w)) id =
      if fst (exec (CreateQp id pd attr) w) =? 0 then true else has_qp w id;
  id_created : forall channel ps w,
    let '(ret, id) := fst (exec (CreateId channel ps) w) in
    (ret = 0 -> id <> null /\ has_qp w id = false) /\ (ret <> 0 -> id = null);
  request_delivered : forall channel w ev,
    fst (exec (GetCmEvent channel) w) = Some (0, ev) -> is_request ev = true ->
    ev_id ev <> null /\ has_qp w (ev_id ev) = false /\ listening w channel = true;
  listening_frame : forall T (c : ccall T) channel w,
    changes_listening c = false -> listening (snd (exec c w)) channel = listening w channel;
  channel_created : forall w,
    listening (snd (exec CreateEventChannel w)) (fst (exec CreateEventChannel w)) = false;
}.
