(* ===== verification/VerbsSim.v ===== *)
(** * A simulated RDMA environment

    A small executable instance of the foreign interface: fresh
    pointers, one scripted queue of connection manager events per run,
    completions in posting order, a clock that advances at every reading.
    It meets the laws of VerbsSpec; the witnesses run against it. *)
From S2P Require Import Prelude Meta Verbs VerbsSpec.

(** A scripted event: a type and a status; a connection request carries a
    fresh identifier. *)
Record sim_event := { se_type : Z; se_status : Z }.

Record sim := {
  s_next : Z;
  s_qps : list ptr;
  s_channels : list (ptr * ptr);
  s_listening : list ptr;
  s_events : list sim_event;
  s_done : list IbvWc;
  s_clock : Z;
  s_device : ptr;
  s_streams : list TcpStream;
  s_memory : list byte;
}.

Definition sim0 (events : list sim_event) : sim :=
  {| s_next := 1; s_qps := []; s_channels := []; s_listening := []; s_events := events;
     s_done := []; s_clock := 0; s_device := 7; s_streams := []; s_memory := [] |}.

Section sim_steps.
Implicit Types s : sim.

(** A pointer that is not null and not in use. *)
Definition s_fresh s : ptr := 1 + foldr Z.max (Z.max 0 (s_next s)) (s_qps s).

Definition s_with_next s (n : Z) : sim :=
  {| s_next := n; s_qps := s_qps s; s_channels := s_channels s; s_listening := s_listening s;
     s_events := s_events s; s_done := s_done s; s_clock := s_clock s; s_device := s_device s;
     s_streams := s_streams s; s_memory := s_memory s |}.
Definition s_with_qps s (l : list ptr) : sim :=
  {| s_next := s_next s; s_qps := l; s_channels := s_channels s; s_listening := s_listening s;
     s_events := s_events s; s_done := s_done s; s_clock := s_clock s; s_device := s_device s;
     s_streams := s_streams s; s_memory := s_memory s |}.
Definition s_with_channels s (l : list (ptr * ptr)) : sim :=
  {| s_next := s_next s; s_qps := s_qps s; s_channels := l; s_listening := s_listening s;
     s_events := s_events s; s_done := s_done s; s_clock := s_clock s; s_device := s_device s;
     s_streams := s_streams s; s_memory := s_memory s |}.
Definition s_with_listening s (l : list ptr) : sim :=
  {| s_next := s_next s; s_qps := s_qps s; s_channels := s_channels s; s_listening := l;
     s_events := s_events s; s_done := s_done s; s_clock := s_clock s; s_device := s_device s;
     s_streams := s_streams s; s_memory := s_memory s |}.
Definition s_with_events s (l : list sim_event) : sim :=
  {| s_next := s_next s; s_qps := s_qps s; s_channels := s_channels s;
     s_listening := s_listening s; s_events := l; s_done := s_done s; s_clock := s_clock s;
     s_device := s_device s;
     s_streams := s_streams s; s_memory := s_memory s |}.
Definition s_with_done s (l : list IbvWc) : sim :=
  {| s_next := s_next s; s_qps := s_qps s; s_channels := s_channels s;
     s_listening := s_listening s; s_events := s_events s; s_done := l; s_clock := s_clock s;
     s_device := s_device s;
     s_streams := s_streams s; s_memory := s_memory s |}.
Definition s_tick s (d : Z) : sim :=
  {| s_next := s_next s; s_qps := s_qps s; s_channels := s_channels s;
     s_listening := s_listening s; s_events := s_events s; s_done := s_done s;
     s_clock := s_clock s + d; s_device := s_device s;
     s_streams := s_streams s; s_memory := s_memory s |}.

Definition s_with_streams s (l : list TcpStream) : sim :=
  {| s_next := s_next s; s_qps := s_qps s; s_channels := s_channels s;
     s_listening := s_listening s; s_events := s_events s; s_done := s_done s;
     s_clock := s_clock s; s_device := s_device s; s_streams := l; s_memory := s_memory s |}.
Definition s_with_memory s (l : list byte) : sim :=
  {| s_next := s_next s; s_qps := s_qps s; s_channels := s_channels s;
     s_listening := s_listening s; s_events := s_events s; s_done := s_done s;
     s_clock := s_clock s; s_device := s_device s; s_streams := s_streams s; s_memory := l |}.

(** The next scripted TCP connection. *)
Definition s_next_stream s : (TcpStream + io_error) * sim :=
  match s_streams s with
  | [] => (inr (IoError ConnectionRefused "Connection refused" []), s)
  | c :: l => (inl c, s_with_streams s l)
  end.

(** Hand out a fresh pointer. *)
Definition s_alloc s : ptr * sim := (s_fresh s, s_with_next s (s_fresh s)).

Definition s_without (p : ptr) (l : list ptr) : list ptr := filter (fun q => q <> p) l.

Definition s_get_event s (channel : ptr) : option (Z * RdmaCmEvent) * sim :=
  match s_events s with
  | [] => (None, s)
  | e :: es =>
      let '(p, s1) := s_alloc (s_with_events s es) in
      let ev := {| ev_ptr := p; ev_id := p; ev_event := se_type e; ev_status := se_status e |} in
      if is_request ev && negb (bool_decide (channel ∈ s_listening s)) then (None, s)
      else (Some (0, ev), s1)
  end.
End sim_steps.

#[export] Instance sim_verbs : Verbs sim := fun T c s =>
  match c in ccall T return T * sim with
  | ToSocketAddrs _ port => (inl [V4 [127; 0; 0; 1] port], s)
  | InstantNow => (s_clock s, s_tick s 1000)
  | LastOsError => (12, s)
  | AllocPd _ => s_alloc s
  | DeallocPd _ => (0, s)
  | CreateCq _ _ => s_alloc s
  | DestroyCq _ => (0, s)
  | RegMr _ _ _ _ => s_alloc s
  | DeregMr _ => (0, s)
  | MrKeys mr => ((mr, mr), s)
  | CreateEventChannel =>
      let '(p, s1) := s_alloc s in (p, s_with_listening s1 (s_without p (s_listening s1)))
  | DestroyEventChannel _ => (tt, s)
  | CreateId channel _ =>
      let '(p, s1) := s_alloc s in ((0, p), s_with_channels s1 ((p, channel) :: s_channels s1))
  | DestroyId id => (0, s_with_qps s (s_without id (s_qps s)))
  | IdVerbs _ => (s_device s, s)
  | IdQp id => (if decide (id ∈ s_qps s) then 1 else null, s)
  | BindAddr _ _ => (0, s)
  | Listen id _ =>
      (0, s_with_listening s
            (map snd (filter (fun p => fst p = id) (s_channels s)) ++ s_listening s))
  | GetCmEvent channel => s_get_event s channel
  | AckCmEvent _ => (0, s)
  | ResolveAddr _ _ _ => (0, s)
  | ResolveRoute _ _ => (0, s)
  | CreateQp id _ _ => (0, s_with_qps s (id :: s_qps s))
  | DestroyQp id => (tt, s_with_qps s (s_without id (s_qps s)))
  | ConnectId _ _ => (0, s)
  | AcceptId _ _ => (0, s)
  | Disconnect _ => (0, s)
  | PostSend _ wr =>
      (0, s_with_done s (s_done s ++
            [{| wc_wr_id := wr_id wr; wc_status := IBV_WC_SUCCESS; wc_vendor_err := 0 |}]))
  | PollCq _ _ =>
      match s_done s with
      | wc :: l => ((1, wc), s_with_done s l)
      | [] => ((0, {| wc_wr_id := 0; wc_status := 0; wc_vendor_err := 0 |}), s)
      end
  | AllocBuffer _ => s_alloc s
  | LoadBuffer _ size => (take (Z.to_nat size) (s_memory s), s)
  | TcpConnect _ _ => s_next_stream s
  | TcpBind port => (inl port, s)
  | TcpAccept _ => s_next_stream s
  | TcpClose _ => (tt, s)
  | Sleep _ => (tt, s)
  | Spawn => s_alloc s
  | ThreadFinished _ => (false, s)
  | Join _ => (tt, s)
  | LoadFlag _ => (bool_decide (s_streams s = []), s)
  | StoreFlag _ _ => (tt, s)
  end.

(** A start state over [sim]. *)
Definition world0 (s : sim) : world sim := World s [] ∅ ∅ 0.

Lemma foldr_max_ge (d x : Z) l : d <= foldr Z.max d l /\ (x ∈ l -> x <= foldr Z.max d l).
Proof.
  induction l as [|y l [IH1 IH2]]; cbn; [split; [lia|set_solver]|].
  rewrite elem_of_cons. split; [lia|]. intros [->|H]; [lia|]. specialize (IH2 H). lia.
Qed.

Lemma s_fresh_spec s : s_fresh s <> null /\ s_fresh s ∉ s_qps s.
Proof.
  unfold s_fresh, null. set (d := Z.max 0 (s_next s)).
  pose proof (foldr_max_ge d (1 + foldr Z.max d (s_qps s)) (s_qps s)) as [H1 H2].
  split; [lia|]. intros H. specialize (H2 H). lia.
Qed.

Lemma s_without_spec p q l : p <> q -> (p ∈ s_without q l <-> p ∈ l).
Proof. intros H. unfold s_without. rewrite list_elem_of_filter. tauto. Qed.

#[export] Instance sim_ok : VerbsOk sim.
Proof.
  refine {|
    has_qp s id := bool_decide (id ∈ s_qps s);
    listening s channel := bool_decide (channel ∈ s_listening s);
  |}.
  - intros id s. cbn. case_decide; rewrite bool_decide_eq_false; unfold null; naive_solver.
  - intros T c id s Hc. apply bool_decide_ext.
    destruct c; cbn in *; try done; try (rewrite s_without_spec; [done|by apply Z.eqb_neq]).
    + unfold s_get_event. destruct (s_events s); [done|]. cbn. by destruct (_ && _).
    + rewrite elem_of_cons. apply Z.eqb_neq in Hc. naive_solver.
    + by destruct (s_done s).
    + unfold s_next_stream. by destruct (s_streams s).
    + unfold s_next_stream. by destruct (s_streams s).
  - intros id pd attr s. cbn. apply bool_decide_eq_true. set_solver.
  - intros channel ps s. cbn. split; [|done]. intros _.
    destruct (s_fresh_spec s). split; [done|]. by apply bool_decide_eq_false.
  - intros channel s ev. cbn. unfold s_get_event. destruct (s_events s) as [|e es]; [done|].
    destruct (s_alloc (s_with_events s es)) as [p s1] eqn:Ea. injection Ea as <- <-.
    destruct (bool_decide (channel ∈ s_listening s)) eqn:El; cbn [negb].
    + rewrite andb_false_r. intros [= <-] _. cbn.
      destruct (s_fresh_spec (s_with_events s es)). by rewrite bool_decide_eq_false.
    + rewrite andb_true_r. cbv zeta. destruct (is_request _) eqn:Er; [done|]. intros [= <-]. congruence.
  - intros T c channel s Hc. apply bool_decide_ext. destruct c; cbn in *; try done.
    + unfold s_get_event. destruct (s_events s); [done|]. cbn. by destruct (_ && _).
    + by destruct (s_done s).
    + unfold s_next_stream. by destruct (s_streams s).
    + unfold s_next_stream. by destruct (s_streams s).
  - intros s. cbn. apply bool_decide_eq_false. unfold s_without.
    rewrite list_elem_of_filter. tauto.
Defined.

(** An environment where an event channel can still be created, and
    nothing else. *)
Definition exhausted_verbs : Verbs unit := fun T c s =>
  (match c in ccall T return T with
   | ToSocketAddrs _ port => inl [V4 [127; 0; 0; 1] port]
   | CreateEventChannel => 1
   | TcpConnect _ _ | TcpAccept _ => inr (IoError ConnectionRefused "Connection refused" [])
   | TcpBind _ => inr (IoError OsKind "Address already in use" [])
   | LoadBuffer _ _ => []
   | TcpClose _ | Sleep _ | Join _ | StoreFlag _ _ => tt
   | ThreadFinished _ | LoadFlag _ => true
   | CreateId _ _ => (12, null)
   | GetCmEvent _ => None
   | DestroyEventChannel _ | DestroyQp _ => tt
   | AllocPd _ | CreateCq _ _ | RegMr _ _ _ _ | IdVerbs _ | IdQp _ => null
   | MrKeys _ => (0, 0)
   | InstantNow => 0
   | PollCq _ _ => (-1, {| wc_wr_id := 0; wc_status := 0; wc_vendor_err := 0 |})
   | _ => 12
   end, s).
