(* ===== verification/VerbsFacts.v ===== *)
(** * The RDMA commands: resources

    Connecting, accepting, registering, binding and dropping keep the
    ledger of VerbsSpec balanced, whichever of their steps fails. *)
From S2P Require Import Prelude Verbs VerbsSpec VerbsSim.

(** ** Lemmas on the ledger *)
Lemma tally_app r l k : tally r (l ++ k) = tally r l + tally r k.
Proof. induction l as [|x l IH]; cbn; [done|]. rewrite IH. lia. Qed.

Lemma holders_insert pd l i m :
  m !! l = None -> holders pd (<[l := i]> m) = (if pi_pd i =? pd then 1 else 0) + holders pd m.
Proof. apply map_sum_insert. Qed.

Lemma holders_update pd l i i' m :
  m !! l = Some i -> pi_pd i' = pi_pd i -> holders pd (<[l := i']> m) = holders pd m.
Proof.
  intros Hl Hi. unfold holders. rewrite (map_sum_update _ l i i') by done. rewrite Hi. lia.
Qed.

Lemma holders_delete pd l i m :
  m !! l = Some i -> holders pd (delete l m) = holders pd m - (if pi_pd i =? pd then 1 else 0).
Proof. apply map_sum_delete. Qed.

Section facts.
Context {P : Profile} {W : Type} {V : Verbs W} {VO : VerbsOk W}.
Implicit Types w : world W.

(** ** How a computation moves the ledger *)

(** The state after a call. *)
Definition after {T} (c : ccall T) w : world W :=
  World (snd (exec c (env w))) (Ev c (fst (exec c (env w))) :: log w) (arcs w) (cells w)
    (next_loc w).

(** From [w] to [w'], [gain] was acquired and [loss] released; queue
    pairs and listeners are as they were. *)
Record moves w w' (gain loss : list resource) : Prop := {
  mv_wf : wf_world w -> wf_world w';
  mv_ledger : forall r, ledger w' r = ledger w r + tally r gain - tally r loss;
  mv_qp : forall id, has_qp (env w') id = has_qp (env w) id;
  mv_listening : forall channel, listening (env w') channel = listening (env w) channel;
}.

Lemma moves_refl w : moves w w [] [].
Proof. split; cbn; intros; auto; lia. Qed.

Lemma moves_trans w1 w2 w3 g1 l1 g2 l2 :
  moves w1 w2 g1 l1 -> moves w2 w3 g2 l2 -> moves w1 w3 (g1 ++ g2) (l1 ++ l2).
Proof.
  intros [A1 B1 C1 D1] [A2 B2 C2 D2]. split; [tauto| |congruence|congruence].
  intros r. rewrite B2, B1, !tally_app. lia.
Qed.

(** Only the tallies of gains and losses matter. *)
Lemma moves_eq w w' g l g' l' :
  (forall r, tally r g - tally r l = tally r g' - tally r l') ->
  moves w w' g l -> moves w w' g' l'.
Proof. intros H [A B C D]. split; auto. intros r. rewrite B. specialize (H r). lia. Qed.

Lemma call_after {T} (c : ccall T) w : call c w = (Ok (fst (exec c (env w))), after c w).
Proof. unfold call, after. by destruct (exec c (env w)). Qed.

Lemma wp_call {T} (c : ccall T) (Q : T -> world W -> Prop) E w :
  Q (fst (exec c (env w))) (after c w) -> wp (call c) Q E w.
Proof. unfold wp. by rewrite call_after. Qed.

Lemma after_ledger {T} (c : ccall T) w r :
  ledger (after c w) r =
    ledger w r + tally r (created c (fst (exec c (env w)))) - tally r (released c).
Proof.
  assert (Hl : live r (log (after c w)) = live r (log w) +
    tally r (created c (fst (exec c (env w)))) - tally r (released c))
    by (unfold live; cbn [foldr log after delta]; lia).
  destruct r; cbn [ledger arcs after] in *; rewrite ?Hl; try lia.
  assert (tally (RRef pd) (created c (fst (exec c (env w)))) = 0) as ->.
  { clear. generalize (fst (exec c (env w))). destruct c; cbn; intros a; try done;
      unfold unless_null; repeat case_match; done. }
  assert (tally (RRef pd) (released c) = 0) as -> by (by destruct c). lia.
Qed.

Lemma after_moves {T} (c : ccall T) w :
  (forall id, changes_qp c id = false) -> changes_listening c = false ->
  moves w (after c w) (created c (fst (exec c (env w)))) (released c).
Proof.
  intros Hq Hl. split.
  - done.
  - apply after_ledger.
  - intros id. by apply qp_frame.
  - intros ch. by apply listening_frame.
Qed.

(** A call that neither creates nor releases anything. *)
Definition neutral {T} (c : ccall T) : Prop :=
  (forall a, created c a = []) /\ released c = [] /\ (forall id, changes_qp c id = false) /\
  changes_listening c = false.

Lemma neutral_moves {T} (c : ccall T) w : neutral c -> moves w (after c w) [] [].
Proof.
  intros (Hc & Hr & Hq & Hl). pose proof (after_moves c w Hq Hl) as H. by rewrite Hc, Hr in H.
Qed.

Lemma check_cases name ret w :
  check name ret w = (Ok tt, w) /\ ret = 0 \/
  (exists e, check name ret w = (Err e, w)) /\ ret <> 0.
Proof.
  unfold check. destruct (Z.eqb_spec ret 0); [by left|]. right. split; [by eexists|done].
Qed.

Lemma wp_check name ret (Q : unit -> world W -> Prop) E w :
  (ret = 0 -> Q tt w) -> (ret <> 0 -> E w) -> wp (check name ret) Q E w.
Proof.
  intros HQ HE. unfold wp.
  destruct (check_cases name ret w) as [[-> ?]|[[e ->] ?]]; auto.
Qed.

(** A null pointer costs one harmless look at [errno]. *)
Lemma wp_check_ptr name p (Q : ptr -> world W -> Prop) (E : world W -> Prop) w :
  (p <> null -> Q p w) -> (p = null -> E (after LastOsError w)) -> wp (check_ptr name p) Q E w.
Proof.
  intros HQ HE. unfold check_ptr. destruct (Z.eqb_spec p null); [|by apply HQ].
  apply wp_bind, wp_call. by apply HE.
Qed.

Lemma unless_null_null p r : p = null -> unless_null p r = [].
Proof. intros ->. done. Qed.
Lemma unless_null_some p r : p <> null -> unless_null p r = [r].
Proof. intros H. unfold unless_null. by rewrite (proj2 (Z.eqb_neq _ _) H). Qed.

(** ** Events *)

(** Waiting for an event: what was received is acknowledged. All that can
    be left behind is the identifier of a connection request, when one
    arrives in place of the awaited event; and only on a channel with a
    listener. *)
Lemma wp_wait_event channel expected step w :
  expected <> RDMA_CM_EVENT_CONNECT_REQUEST ->
  wp (wait_event channel expected step) (fun _ w' => moves w w' [] [])
    (fun w' => moves w w' [] [] \/
       exists id, moves w w' [RId id] [] /\ id <> null /\ listening (env w) channel = true) w.
Proof.
  intros Hexp. unfold wait_event, get_cm_event.
  apply wp_bind, wp_bind, wp_call.
  pose proof (after_moves (GetCmEvent channel) w ltac:(done) eq_refl) as Hm. cbn [released] in Hm.
  destruct (fst (exec (GetCmEvent channel) (env w))) as [[ret ev]|] eqn:Eev.
  2: { unfold wp, diverge, blocked, world_blocking. rewrite <- Eev. by do 2 eexists. }
  apply wp_ret. cbn [created] in Hm. set (w1 := after (GetCmEvent channel) w) in *.
  apply wp_bind, wp_check; [intros ->|].
  2: { intros Hr. left. by rewrite (proj2 (Z.eqb_neq _ _) Hr) in Hm. }
  apply wp_bind, wp_call.
  pose proof (after_moves (AckCmEvent (ev_ptr ev)) w1 ltac:(done) eq_refl) as Hm2.
  cbn [released created] in Hm2. set (w2 := after (AckCmEvent (ev_ptr ev)) w1) in *.
  pose proof (moves_trans _ _ _ _ _ _ _ Hm Hm2) as Hm3. cbn in Hm3.
  destruct (is_request ev) eqn:Ereq.
  - assert (negb (ev_event ev =? expected) || negb (ev_status ev =? 0) = true) as ->.
    { unfold is_request in Ereq. bool_to_prop. destruct Ereq as [-> ->].
      apply orb_true_iff. left. apply negb_true_iff. by apply Z.eqb_neq. }
    apply wp_fail. right. exists (ev_id ev). split.
    + eapply moves_eq; [|exact Hm3]. intros r. cbn. lia.
    + split; eapply request_delivered; eassumption.
  - assert (moves w w2 [] []) by (eapply moves_eq; [|exact Hm3]; intros r; cbn; lia).
    destruct (_ || _).
    + apply wp_fail. by left.
    + apply wp_check; auto.
Qed.

(** ** Protection domains *)
Lemma ledger_ref_nonneg w pd : wf_world w -> 0 <= ledger w (RRef pd).
Proof.
  intros Hw. cbn. destruct (arcs w !! pd) eqn:E; [|lia]. specialize (Hw _ _ E). lia.
Qed.

Lemma ledger_ref_pos w pd :
  1 <= ledger w (RRef pd) -> exists i, arcs w !! pd = Some i /\ pi_refs i = ledger w (RRef pd).
Proof. cbn. destruct (arcs w !! pd) as [i|]; [by exists i|lia]. Qed.

Lemma arc_get_pos w pd :
  1 <= ledger w (RRef pd) -> exists i, arc_get pd w = (Ok i, w) /\ arcs w !! pd = Some i.
Proof.
  intros H. destruct (ledger_ref_pos w pd H) as (i & Hi & _). exists i.
  unfold arc_get. by rewrite Hi.
Qed.

(** A change of one reference count. *)
Lemma arc_set_moves w pd i i' d :
  arcs w !! pd = Some i -> pi_pd i' = pi_pd i -> pi_refs i' = pi_refs i + d ->
  (wf_world w -> 1 <= pi_refs i') ->
  let w' := World (env w) (log w) (<[pd := i']> (arcs w)) (cells w) (next_loc w) in
  (wf_world w -> wf_world w') /\
  forall r, ledger w' r = ledger w r + (if decide (r = RRef pd) then d else 0).
Proof.
  intros Hi Hpd Hd Hpos. cbv zeta. split.
  - intros Hw l j. cbn. rewrite lookup_insert. case_decide; subst.
    + intros [= <-]. split; [auto|]. by apply (Hw _ _ Hi).
    + apply Hw.
  - intros r. destruct r as [p| | | | | | |l]; cbn [ledger arcs log]; case_decide; try congruence;
      try lia.
    + rewrite (holders_update p pd i i') by done. lia.
    + simplify_eq. by rewrite lookup_insert_eq, Hi, Hd.
    + rewrite lookup_insert_ne by congruence. lia.
Qed.

Lemma pd_clone_moves w pd :
  1 <= ledger w (RRef pd) ->
  exists w', pd_clone pd w = (Ok pd, w') /\ moves w w' [RRef pd] [] /\ env w' = env w.
Proof.
  intros H. destruct (arc_get_pos w pd H) as (i & Hg & Hi). unfold pd_clone. st_cbn. rewrite Hg.
  eexists. split; [done|]. split; [|done].
  destruct (arc_set_moves w pd i
    {| pi_context := pi_context i; pi_pd := pi_pd i; pi_refs := pi_refs i + 1 |} 1 Hi eq_refl eq_refl)
    as [Hwf Hl].
  { intros Hw. cbn. specialize (Hw _ _ Hi). lia. }
  split; try done. intros r. cbn. cbn in Hl. rewrite Hl. lia.
Qed.

(** The store without one reference to [pd]. *)
Definition arcs_released (m : gmap Z PdInner) (pd : Z) : gmap Z PdInner :=
  match m !! pd with
  | Some i =>
      if pi_refs i =? 1 then delete pd m
      else <[pd := {| pi_context := pi_context i; pi_pd := pi_pd i; pi_refs := pi_refs i - 1 |}]> m
  | None => m
  end.

Lemma pd_drop_moves w pd :
  1 <= ledger w (RRef pd) ->
  exists w', pd_drop pd w = (Ok tt, w') /\ moves w w' [] [RRef pd] /\
    arcs w' = arcs_released (arcs w) pd.
Proof.
  intros H. destruct (arc_get_pos w pd H) as (i & Hg & Hi). unfold pd_drop.
  rewrite (ST_bind_step _ _ _ _ _ Hg).
  assert (Hr : 1 <= pi_refs i) by (cbn in H; by rewrite Hi in H).
  unfold arcs_released. rewrite Hi. destruct (Z.eqb_spec (pi_refs i) 1) as [E|E].
  - rewrite (ST_bind_step _ _ _ _ _ (call_after _ w)). eexists. split; [done|]. split; [|done].
    pose proof (after_moves (DeallocPd (pi_pd i)) w ltac:(done) eq_refl) as [Awf Al Aq Ali].
    cbn [created released] in Al. split; try done.
    + intros Hw l j. cbn. rewrite lookup_delete_Some. intros [_ Hj]. by apply (Hw l).
    + intros r. specialize (Al r).
      destruct r as [p| | | | | | |l]; cbn in Al |- *; repeat case_decide; simplify_eq; try lia.
      * rewrite (holders_delete (pi_pd i) pd i), Z.eqb_refl by done. lia.
      * rewrite (holders_delete p pd i) by done.
        destruct (Z.eqb_spec (pi_pd i) p); simplify_eq; lia.
      * rewrite lookup_delete_eq. rewrite Hi in *. lia.
      * rewrite lookup_delete_ne by congruence. lia.
  - eexists. split; [done|]. split; [|done].
    destruct (arc_set_moves w pd i
      {| pi_context := pi_context i; pi_pd := pi_pd i; pi_refs := pi_refs i - 1 |} (-1) Hi eq_refl
      eq_refl) as [Hwf Hl].
    { intros _. cbn. lia. }
    split; try done. intros r. cbn in Hl |- *. rewrite Hl. case_decide; lia.
Qed.

Lemma wp_pd_alloc context w :
  wf_world w ->
  wp (pd_alloc context) (fun pd w' => moves w w' [RRef pd] [] /\ arcs w !! pd = None)
    (fun w' => moves w w' [] []) w.
Proof.
  intros Hw. unfold pd_alloc. apply wp_bind, wp_call.
  pose proof (after_moves (AllocPd context) w ltac:(done) eq_refl) as Hm.
  cbn [created released] in Hm. set (p := fst (exec _ _)) in *.
  set (w1 := after (AllocPd context) w) in *. apply wp_bind, wp_check_ptr; intros Hp.
  - assert (Hfresh : arcs w !! next_loc w = None).
    { destruct (arcs w !! next_loc w) eqn:E; [|done]. specialize (Hw _ _ E). lia. }
    unfold wp, arc_new. split; [|done]. destruct Hm as [Awf Al Aq Ali].
    rewrite unless_null_some in Al by done. split; try done.
    + intros _ l j. cbn. rewrite lookup_insert. case_decide; subst.
      * intros [= <-]. cbn. lia.
      * intros Hj. specialize (Hw _ _ Hj). lia.
    + intros r. specialize (Al r).
      destruct r as [q| | | | | | |l]; cbn in Al |- *; repeat case_decide; simplify_eq; try lia.
      * rewrite holders_insert by done. cbn. rewrite Z.eqb_refl. lia.
      * rewrite holders_insert by done. cbn. destruct (Z.eqb_spec p q); simplify_eq; lia.
      * rewrite lookup_insert_eq. rewrite Hfresh in *. cbn. lia.
      * rewrite lookup_insert_ne by congruence. lia.
  - rewrite unless_null_null in Hm by done.
    exact (moves_trans _ _ _ _ _ _ _ Hm (neutral_moves LastOsError w1 ltac:(done))).
Qed.

(** Registering memory: nothing changes hands unless it succeeds. *)
Lemma wp_pd_register_addr pd addr size w :
  1 <= ledger w (RRef pd) ->
  wp (pd_register_addr pd addr size)
    (fun mr w' => moves w w' [RMr (mr_mr mr)] [] /\ size <> 0 /\ mr_addr mr = addr /\
       mr_size mr = size /\ exists i, arcs w !! pd = Some i /\ mr_pd mr = pi_pd i)
    (fun w' => moves w w' [] []) w.
Proof.
  intros H. destruct (arc_get_pos w pd H) as (i & Hg & Hi). unfold pd_register_addr.
  destruct (Z.eqb_spec size 0); [apply wp_fail, moves_refl|].
  apply wp_bind. unfold wp at 1. rewrite Hg. apply wp_bind, wp_call.
  match goal with |- context [call ?c] => idtac | |- context [after ?c w] =>
    pose proof (after_moves c w ltac:(done) eq_refl) as Hm; set (w1 := after c w) in * end.
  cbn [created released] in Hm. set (p := fst (exec _ _)) in *.
  apply wp_bind, wp_check_ptr; intros Hp.
  - rewrite unless_null_some in Hm by done. apply wp_bind, wp_call.
    pose proof (neutral_moves (MrKeys p) w1 ltac:(done)) as Hm2.
    pose proof (moves_trans _ _ _ _ _ _ _ Hm Hm2) as Hm3. cbn in Hm3.
    destruct (fst (exec (MrKeys p) (env w1))) as [lkey rkey]. apply wp_ret. cbn.
    split_and!; try done. by exists i.
  - rewrite unless_null_null in Hm by done.
    exact (moves_trans _ _ _ _ _ _ _ Hm (neutral_moves LastOsError w1 ltac:(done))).
Qed.

(** ** Connections *)

(** What a connection owns; [qp]: whether it has a queue pair. *)
Definition owned (c : Connection) (qp : bool) : list resource :=
  (if c_id c =? null then [] else RId (c_id c) :: if qp then [RQp (c_id c)] else []) ++
  unless_null (c_cq c) (RCq (c_cq c)) ++
  unless_null (c_event_channel c) (RChannel (c_event_channel c)) ++
  match c_pd c with Some pd => [RRef pd] | None => [] end.

(** Since [w0], exactly [extra] and what [c] owns was acquired. *)
Definition owes (w0 : world W) (extra : list resource) (c : Connection) (w : world W) : Prop :=
  wf_world w0 /\ wf_world w /\
  forall r, ledger w r =
    ledger w0 r + tally r extra + tally r (owned c (has_qp (env w) (c_id c))).

Lemma tally_nonneg r l : 0 <= tally r l.
Proof. induction l as [|x l IH]; cbn; [lia|]. case_decide; lia. Qed.

Lemma owes_moves w0 extra c w w' : owes w0 extra c w -> moves w w' [] [] -> owes w0 extra c w'.
Proof.
  intros (Hw0 & Hw & Hl) [A B C D]. split_and!; [done|auto|]. intros r.
  rewrite B, Hl, C. cbn. lia.
Qed.

Lemma owes_gain w0 extra c w w' g l :
  owes w0 (extra ++ l) c w -> moves w w' g l -> owes w0 (extra ++ g) c w'.
Proof.
  intros (Hw0 & Hw & Hl) [A B C D]. split_and!; [done|auto|]. intros r.
  rewrite B, Hl, C, !tally_app. lia.
Qed.

Lemma tally_in r l : r ∈ l -> 1 <= tally r l.
Proof.
  induction l as [|x l IH]; [set_solver|]. rewrite elem_of_cons. cbn.
  pose proof (tally_nonneg r l). intros [<-|Hin].
  - rewrite decide_True by done. lia.
  - specialize (IH Hin). case_decide; lia.
Qed.

Lemma owned_ref c qp pd : c_pd c = Some pd -> 1 <= tally (RRef pd) (owned c qp).
Proof. intros Hpd. apply tally_in. unfold owned. rewrite Hpd. set_solver. Qed.

(** A handle among the acquisitions is a live reference. *)
Lemma owes_ref w0 extra c w pd :
  owes w0 extra c w -> c_pd c = Some pd \/ RRef pd ∈ extra -> 1 <= ledger w (RRef pd).
Proof.
  intros (Hw0 & _ & Hl) Hin. rewrite Hl. pose proof (ledger_ref_nonneg w0 pd Hw0).
  pose proof (tally_nonneg (RRef pd) extra).
  pose proof (tally_nonneg (RRef pd) (owned c (has_qp (env w) (c_id c)))).
  destruct Hin as [Hpd|Hin]; [|pose proof (tally_in _ _ Hin); lia].
  pose proof (owned_ref c (has_qp (env w) (c_id c)) pd Hpd). lia.
Qed.

(** [Disconnect] and [DestroyQp], when there is a queue pair. *)
Lemma drop_qp_moves id w :
  exists w', (qp ← call (IdQp id);
     (if qp =? null then mret tt else call (Disconnect id);; call (DestroyQp id))) w
    = (Ok tt, w') /\
    (wf_world w -> wf_world w') /\ arcs w' = arcs w /\
    forall r, ledger w' r = ledger w r - tally r (if has_qp (env w) id then [RQp id] else []).
Proof.
  rewrite (ST_bind_step _ _ _ _ _ (call_after _ w)).
  pose proof (neutral_moves (IdQp id) w ltac:(done)) as Hm.
  set (w1 := after (IdQp id) w) in *. pose proof (qp_pointer id (env w)) as Hq.
  destruct (Z.eqb_spec (fst (exec (IdQp id) (env w))) null) as [E|E].
  - rewrite (proj1 Hq E). exists w1. destruct Hm as [A B C D]. split_and!; [done|done|done|].
    intros r. rewrite B. cbn. lia.
  - assert (has_qp (env w) id = true) as -> by (destruct (has_qp (env w) id); tauto).
    rewrite (ST_bind_step _ _ _ _ _ (call_after _ w1)).
    pose proof (neutral_moves (Disconnect id) w1 ltac:(done)) as Hm2.
    set (w2 := after (Disconnect id) w1) in *.
    rewrite call_after. pose proof (moves_trans _ _ _ _ _ _ _ Hm Hm2) as [A B C D].
    destruct (fst (exec (DestroyQp id) (env w2))). eexists. split_and!; [done|done|done|].
    intros r. rewrite after_ledger, B. cbn. lia.
Qed.

(** Dropping a connection, part by part: what it releases, the domains
    left alone. *)
Definition releases (l : list resource) (m : ST (world W) unit) w : Prop :=
  exists w', m w = (Ok tt, w') /\ (wf_world w -> wf_world w') /\ arcs w' = arcs w /\
    forall r, ledger w' r = ledger w r - tally r l.

Lemma releases_nothing w : releases [] (mret tt) w.
Proof. exists w. split_and!; [done|done|done|]. intros r. cbn. lia. Qed.

Lemma drop_id_releases id w :
  releases (if id =? null then [] else RId id :: if has_qp (env w) id then [RQp id] else [])
    (if id =? null then mret tt else
       qp ← call (IdQp id);
       (if qp =? null then mret tt else call (Disconnect id);; call (DestroyQp id));;
       call (DestroyId id);; mret tt) w.
Proof.
  destruct (id =? null); [apply releases_nothing|].
  destruct (drop_qp_moves id w) as (w1 & H1 & A & Ha & B).
  exists (after (DestroyId id) w1). split_and!; [|done|done|].
  - rewrite <- ST_bind_assoc, (ST_bind_step _ _ _ _ _ H1). st_cbn. by rewrite call_after.
  - intros r. rewrite after_ledger, B. cbn. lia.
Qed.

Lemma drop_cq_releases cq w :
  releases (unless_null cq (RCq cq)) (if cq =? null then mret tt else call (DestroyCq cq);; mret tt) w.
Proof.
  unfold unless_null. destruct (cq =? null); [apply releases_nothing|].
  exists (after (DestroyCq cq) w). split_and!; [|done|done|].
  - st_cbn. by rewrite call_after.
  - intros r. rewrite after_ledger. cbn. lia.
Qed.

Lemma drop_channel_releases ch w :
  releases (unless_null ch (RChannel ch)) (if ch =? null then mret tt else call (DestroyEventChannel ch)) w.
Proof.
  unfold unless_null. destruct (ch =? null); [apply releases_nothing|].
  exists (after (DestroyEventChannel ch) w). split_and!; [|done|done|].
  - rewrite call_after. by destruct (fst _).
  - intros r. rewrite after_ledger. cbn. lia.
Qed.

(** Dropping a connection whose handle is live. *)
Lemma conn_drop_ledger c w :
  wf_world w -> (forall pd, c_pd c = Some pd -> 1 <= ledger w (RRef pd)) ->
  exists w', conn_drop c w = (Ok tt, w') /\ wf_world w' /\
    (forall r, ledger w' r = ledger w r - tally r (owned c (has_qp (env w) (c_id c)))) /\
    arcs w' = match c_pd c with Some pd => arcs_released (arcs w) pd | None => arcs w end.
Proof.
  intros Hw Href. unfold conn_drop.
  destruct (drop_id_releases (c_id c) w) as (w1 & H1 & Hw1 & Ha1 & Hl1).
  rewrite (ST_bind_step _ _ _ _ _ H1).
  destruct (drop_cq_releases (c_cq c) w1) as (w2 & H2 & Hw2 & Ha2 & Hl2).
  rewrite (ST_bind_step _ _ _ _ _ H2).
  destruct (drop_channel_releases (c_event_channel c) w2) as (w3 & H3 & Hw3 & Ha3 & Hl3).
  rewrite (ST_bind_step _ _ _ _ _ H3).
  assert (Hsum : forall r, ledger w3 r =
    ledger w r - tally r (owned c (has_qp (env w) (c_id c))) +
    tally r (match c_pd c with Some pd => [RRef pd] | None => [] end)).
  { intros r. rewrite Hl3, Hl2, Hl1. unfold owned. rewrite !tally_app. lia. }
  assert (Ha : arcs w3 = arcs w) by congruence.
  destruct (c_pd c) as [pd|] eqn:Epd.
  - assert (Hpos : 1 <= ledger w3 (RRef pd)).
    { cbn [ledger]. rewrite Ha. by apply (Href pd). }
    destruct (pd_drop_moves w3 pd Hpos) as (w4 & H4 & [A B C D] & Ha4). exists w4.
    split_and!; [done|auto| |by rewrite Ha4, Ha]. intros r. rewrite B, Hsum. cbn [tally]. lia.
  - exists w3. split_and!; [done|auto| |done]. intros r. rewrite Hsum. cbn [tally]. lia.
Qed.

Lemma conn_drop_spec w0 extra c w :
  owes w0 extra c w -> exists w', conn_drop c w = (Ok tt, w') /\ wf_world w' /\
    forall r, ledger w' r = ledger w0 r + tally r extra.
Proof.
  intros Ho. destruct (conn_drop_ledger c w) as (w' & H & Hw' & Hl & _); [apply Ho| |].
  - intros pd Hpd. eapply owes_ref; [exact Ho|by left].
  - exists w'. split_and!; [done|done|]. intros r. rewrite Hl. destruct Ho as (_ & _ & Hl0).
    rewrite Hl0. lia.
Qed.

(** ** Building a connection *)
Lemma wp_on_world {C A} (m : ST (world W) A) (Q : A -> C * world W -> Prop) E c w :
  wp m (fun a w' => Q a (c, w')) (fun w' => E (c, w')) w -> wp (on_world m) Q E (c, w).
Proof. unfold wp, on_world. by destruct (m w) as [[] ?]. Qed.

Lemma wp_self (Q : Connection -> Connection * world W -> Prop) E c w :
  Q c (c, w) -> wp self Q E (c, w).
Proof. done. Qed.

(** A failing build drops the connection, so all that remains is
    [extra]. *)
Lemma wp_build w0 c (m : ST (Connection * world W) unit) (Q : Connection -> world W -> Prop)
    (E : world W -> Prop) w :
  wp m (fun _ '(c', w') => Q c' w')
    (fun '(c', w') => exists extra, owes w0 extra c' w' /\
       forall w'', wf_world w'' -> (forall r, ledger w'' r = ledger w0 r + tally r extra) -> E w'')
    (c, w) ->
  wp (build c m) Q E w.
Proof.
  unfold wp, build. destruct (m (c, w)) as [[[]|e|why|] [c' w']]; auto.
  intros (extra & Ho & HE). destruct (conn_drop_spec _ _ _ _ Ho) as (w2 & -> & A & B). auto.
Qed.

(** The completion queue, and the queue pair, of a connection under way
    that owes [l] besides. *)
Definition with_cq (c : Connection) (cq : ptr) : Connection :=
  {| c_id := c_id c; c_cq := cq; c_pd := c_pd c; c_event_channel := c_event_channel c;
     c_next_wr_id := c_next_wr_id c |}.

Lemma wp_make_cq w0 l c w (k : ptr -> ST (Connection * world W) unit) Q
    (E : Connection * world W -> Prop) :
  owes w0 l c w -> c_cq c = null ->
  (forall cq w', cq <> null -> owes w0 l (with_cq c cq) w' ->
     (forall id, has_qp (env w') id = has_qp (env w) id) ->
     (forall ch, listening (env w') ch = listening (env w) ch) -> wp (k cq) Q E (with_cq c cq, w')) ->
  (forall w', owes w0 l c w' -> E (c, w')) ->
  wp (context ← on_world (call (IdVerbs (c_id c)));
      p ← on_world (call (CreateCq context CQ_SIZE));
      cq ← on_world (check_ptr "ibv_create_cq" p);
      set_cq cq;; k cq) Q E (c, w).
Proof.
  intros Ho Hcq Hk HE. apply wp_bind, wp_on_world, wp_call.
  pose proof (neutral_moves (IdVerbs (c_id c)) w ltac:(done)) as Hm1.
  pose proof (owes_moves _ _ _ _ _ Ho Hm1) as Ho1.
  set (context := fst (exec (IdVerbs (c_id c)) (env w))). set (w1 := after _ w) in *.
  apply wp_bind, wp_on_world, wp_call.
  pose proof (after_moves (CreateCq context CQ_SIZE) w1 ltac:(done) eq_refl) as Hm2.
  cbn [created released] in Hm2. set (cq := fst (exec _ (env w1))) in *.
  set (w2 := after _ w1) in *.
  apply wp_bind, wp_on_world, wp_check_ptr; intros Hn.
  2: { rewrite unless_null_null in Hm2 by done. apply HE.
       eapply owes_moves; [|exact (neutral_moves LastOsError w2 ltac:(done))].
       by eapply owes_moves. }
  rewrite unless_null_some in Hm2 by done. apply wp_bind. unfold wp at 1, set_cq. fold (with_cq c cq).
  destruct Hm2 as [M1 M2 M3 M4], Hm1 as [_ _ M5 M6]. apply Hk; [done| | |].
  - destruct Ho1 as (A & B & L). split_and!; [done|auto|]. intros r. rewrite M2, L, M3.
    unfold owned, with_cq. cbn [c_id c_cq c_pd c_event_channel]. rewrite Hcq, !tally_app.
    rewrite (unless_null_some cq) by done. cbn. lia.
  - intros id. by rewrite M3, M5.
  - intros ch. by rewrite M4, M6.
Qed.

Lemma wp_make_qp w0 l pd cq c w :
  owes w0 l c w -> RRef pd ∈ l -> has_qp (env w) (c_id c) = false ->
  wp (raw ← on_world (pd_raw pd);
      ret ← on_world (call (CreateQp (c_id c) raw (qp_init_attr cq)));
      on_world (check "rdma_create_qp" ret))
    (fun _ '(c', w') => c' = c /\ wf_world w' /\ has_qp (env w') (c_id c) = true /\
       (forall ch, listening (env w') ch = listening (env w) ch) /\
       forall r, ledger w' r = ledger w r + tally r [RQp (c_id c)])
    (fun '(c', w') => owes w0 l c' w') (c, w).
Proof.
  intros Ho Hin Hq.
  assert (Hpos : 1 <= ledger w (RRef pd)) by (eapply owes_ref; [exact Ho|by right]).
  destruct (arc_get_pos w pd Hpos) as (i & Hg & _).
  apply wp_bind, wp_on_world. unfold pd_raw. apply wp_bind. unfold wp at 1. rewrite Hg.
  apply wp_ret. apply wp_bind, wp_on_world, wp_call.
  match goal with |- context [check _ (fst (exec ?call _))] => set (qpc := call) end.
  pose proof (after_ledger qpc w) as Hl.
  pose proof (qp_created (c_id c) (pi_pd i) (qp_init_attr cq) (env w)) as Hc.
  fold qpc in Hc. cbn [created released qpc] in Hl. fold qpc in Hl.
  set (w1 := after qpc w) in *. change (snd (exec qpc (env w))) with (env w1) in Hc.
  destruct Ho as (A & B & L). apply wp_on_world, wp_check; intros Hret.
  - rewrite Hret in Hc, Hl. split_and!; [done|exact B|exact Hc| |].
    + intros ch. by apply (listening_frame _ qpc).
    + intros r. rewrite Hl. cbn [tally Z.eqb]. lia.
  - rewrite (proj2 (Z.eqb_neq _ _) Hret) in Hc, Hl. split_and!; [done|done|]. intros r.
    rewrite Hl, L, Hc. cbn. lia.
Qed.

(** [create_resources]: on success the connection owns the completion
    queue, the queue pair and the handle it was given; on failure the
    handle is gone and the connection owns the rest. *)
Lemma wp_create_resources w0 extra pd c w :
  owes w0 (extra ++ [RRef pd]) c w -> c_id c <> null -> c_cq c = null -> c_pd c = None ->
  has_qp (env w) (c_id c) = false ->
  wp (create_resources pd)
    (fun _ '(c', w') => owes w0 extra c' w' /\ c_id c' = c_id c /\ c_cq c' <> null /\
       c_pd c' = Some pd /\ c_event_channel c' = c_event_channel c /\
       has_qp (env w') (c_id c) = true /\
       forall ch, listening (env w') ch = listening (env w) ch)
    (fun '(c', w') => owes w0 extra c' w') (c, w).
Proof.
  intros Ho Hid Hcq Hpd Hqp. unfold create_resources. apply wp_bind, wp_self.
  apply wp_bind, wp_on_failure.
  assert (Hdrop : forall c' w', owes w0 (extra ++ [RRef pd]) c' w' ->
    exists w'', on_world (pd_drop pd) (c', w') = (Ok tt, (c', w'')) /\ owes w0 extra c' w'').
  { intros c' w' Ho'. destruct (pd_drop_moves w' pd) as (w'' & Hd & Hm & _).
    { eapply owes_ref; [exact Ho'|]. right. set_solver. }
    exists w''. unfold on_world. rewrite Hd. split; [done|].
    rewrite <- (app_nil_r extra). by eapply owes_gain. }
  eapply wp_mono with (E := fun '(c', w') => owes w0 (extra ++ [RRef pd]) c' w');
    [|intros a s' H; exact H|].
  2: { intros [c' w'] Ho'. destruct (Hdrop c' w' Ho') as (w'' & Hd & Ho''). by rewrite Hd. }
  clear Hdrop. apply (wp_make_cq w0 (extra ++ [RRef pd])); [done|done| |done].
  intros cq w2 Hn Ho2 Hq2 Hli2.
  eapply wp_mono; [apply (wp_make_qp w0 (extra ++ [RRef pd]) pd cq (with_cq c cq) w2 Ho2); [set_solver|]| |done].
  { cbn [with_cq c_id]. by rewrite Hq2. }
  cbn beta. intros [] [c' w3] (-> & Hw3 & Hq3 & Hli3 & Hl3). cbn [with_cq c_id] in Hq3, Hl3.
  unfold wp, set_pd. split; [|split_and!; try done].
  - destruct Ho2 as (A & _ & L). split_and!; [exact A|exact Hw3|]. intros r. rewrite Hl3, L.
    unfold owned, with_cq. cbn [c_id c_cq c_pd c_event_channel].
    rewrite Hq3, Hq2, Hqp, Hpd, !tally_app, (proj2 (Z.eqb_neq _ _) Hid). cbn [tally]. lia.
  - intros ch. by rewrite Hli3, Hli2.
Qed.

(** A connection whose handshake succeeded. *)
Definition established (c : Connection) (w : world W) : Prop :=
  c_id c <> null /\ c_cq c <> null /\ (exists pd, c_pd c = Some pd) /\
  has_qp (env w) (c_id c) = true.

Lemma established_moves c w w' g l : established c w -> moves w w' g l -> established c w'.
Proof. intros (A & B & C & D) [_ _ M _]. split_and!; auto. by rewrite M. Qed.

(** [owes] without extras survives a harmless step. *)
Ltac owes_step H := eapply owes_moves in H; [|eassumption].

(** A step of a handshake that only asks and checks. *)
Lemma wp_call_check {T} (c : ccall T) (name : string) (f : T -> Z) w0 conn w
    (k : ST (Connection * world W) unit) (Q : unit -> Connection * world W -> Prop) E :
  neutral c -> owes w0 [] conn w ->
  (forall w', owes w0 [] conn w' -> moves w w' [] [] -> wp k Q E (conn, w')) ->
  (forall w', owes w0 [] conn w' -> E (conn, w')) ->
  wp (a ← on_world (call c); on_world (check name (f a));; k) Q E (conn, w).
Proof.
  intros Hn Ho HQ HE. pose proof (neutral_moves c w Hn) as Hm.
  pose proof (owes_moves _ _ _ _ _ Ho Hm) as Ho'.
  apply wp_bind, wp_on_world, wp_call, wp_bind, wp_on_world, wp_check; auto.
Qed.

(** Waiting on a channel nobody listens on. *)
Lemma wp_wait_active channel expected step w0 conn w (k : ST (Connection * world W) unit)
    (Q : unit -> Connection * world W -> Prop) E :
  expected <> RDMA_CM_EVENT_CONNECT_REQUEST -> listening (env w) channel = false ->
  owes w0 [] conn w ->
  (forall w', owes w0 [] conn w' -> moves w w' [] [] -> wp k Q E (conn, w')) ->
  (forall w', owes w0 [] conn w' -> E (conn, w')) ->
  wp (on_world (wait_event channel expected step);; k) Q E (conn, w).
Proof.
  intros Hexp Hli Ho HQ HE. apply wp_bind, wp_on_world.
  eapply wp_mono; [apply (wp_wait_event channel expected step w Hexp)| |].
  - cbn. intros _ w' Hm. apply HQ; [by eapply owes_moves|done].
  - cbn. intros w' [Hm|(id & _ & _ & Hl)]; [|congruence]. apply HE. by eapply owes_moves.
Qed.

(** Connecting over a resolved route. *)
Lemma wp_connect_over w0 id c w :
  owes w0 [] c w -> c_id c = id -> id <> null -> c_cq c = null -> c_pd c = None ->
  has_qp (env w) id = false -> listening (env w) (c_event_channel c) = false ->
  wp (context ← on_world (call (IdVerbs id));
      pd ← on_world (pd_alloc context);
      create_resources pd;;
      ret ← on_world (call (ConnectId id conn_param));
      on_world (check "rdma_connect" ret);;
      on_world (wait_event (c_event_channel c) RDMA_CM_EVENT_ESTABLISHED "rdma_connect"))
    (fun _ '(c', w') => owes w0 [] c' w' /\ established c' w' /\
       c_event_channel c' = c_event_channel c)
    (fun '(c', w') => owes w0 [] c' w') (c, w).
Proof.
  intros Ho Hidc Hne Hcq Hpd Hq Hli. apply wp_bind, wp_on_world, wp_call.
  pose proof (neutral_moves (IdVerbs id) w ltac:(done)) as Hm1.
  pose proof (owes_moves _ _ _ _ _ Ho Hm1) as Ho1.
  set (context := fst (exec _ (env w))). set (w1 := after _ w) in *.
  apply wp_bind, wp_on_world.
  eapply wp_mono; [apply wp_pd_alloc; apply Ho1| |].
  2: { cbn. intros w' Hm. by eapply owes_moves. }
  cbn beta. intros pd w2 [Hm2 _].
  assert (Ho2 : owes w0 ([] ++ [RRef pd]) c w2) by (by eapply owes_gain).
  pose proof (moves_trans _ _ _ _ _ _ _ Hm1 Hm2) as Hm12. apply wp_bind.
  eapply wp_mono; [apply (wp_create_resources w0 [] pd c w2 Ho2)| |]; [congruence|done|done| | |].
  { rewrite (mv_qp _ _ _ _ Hm12). congruence. }
  2: { intros [c' w'] H. exact H. }
  intros [] [c3 w3] (Ho3 & Hid3 & Hcq3 & Hpd3 & Hch3 & Hq3 & Hli3). rewrite Hidc in *.
  assert (Hest : established c3 w3).
  { split_and!; [by rewrite Hid3|done|by exists pd|by rewrite Hid3]. }
  apply wp_call_check with (w0 := w0); [done|done| |done]. intros w4 Ho4 Hm4.
  assert (Hli4 : listening (env w4) (c_event_channel c) = false).
  { by rewrite (mv_listening _ _ _ _ Hm4), Hli3, (mv_listening _ _ _ _ Hm12). }
  apply wp_on_world. eapply wp_mono; [by apply wp_wait_event| |]; cbn beta.
  - intros _ w5 Hm5. split_and!; [by eapply owes_moves| |done].
    eapply established_moves; [|exact (moves_trans _ _ _ _ _ _ _ Hm4 Hm5)]. done.
  - intros w5 [Hm5|(id0 & _ & _ & Hl)]; [by eapply owes_moves|congruence].
Qed.

(** [connect_to] on a fresh connection. *)
Lemma wp_connect_to w0 dst c w :
  owes w0 [] c w -> c_id c = null -> c_cq c = null -> c_pd c = None ->
  listening (env w) (c_event_channel c) = false ->
  wp (connect_to dst)
    (fun _ '(c', w') => owes w0 [] c' w' /\ established c' w' /\
       c_event_channel c' = c_event_channel c)
    (fun '(c', w') => owes w0 [] c' w') (c, w).
Proof.
  intros Ho Hid Hcq Hpd Hli. unfold connect_to. apply wp_bind, wp_self.
  set (ch := c_event_channel c) in *.
  apply wp_bind, wp_on_world, wp_call.
  pose proof (after_moves (CreateId ch RDMA_PS_TCP) w ltac:(done) eq_refl) as Hm1.
  pose proof (id_created ch RDMA_PS_TCP (env w)) as Hc1. cbn [created released] in Hm1.
  destruct (fst (exec (CreateId ch RDMA_PS_TCP) (env w))) as [ret id] eqn:Eid. cbn [fst snd] in *.
  set (w1 := after _ w) in *. destruct Hc1 as [Hc1 Hc1'].
  apply wp_bind. unfold wp at 1, set_id.
  set (c1 := {| c_id := id; c_cq := c_cq c |}).
  assert (Ho1 : owes w0 [] c1 w1).
  { destruct Ho as (A & B & L), Hm1 as [M1 M2 M3 M4]. split_and!; [done|auto|]. intros r.
    rewrite M2, L. unfold owned, c1. cbn [c_id c_cq c_pd c_event_channel]. rewrite M3, Hid.
    destruct (Z.eqb_spec ret 0) as [E|E].
    - destruct (Hc1 E) as [Hne ->]. rewrite (proj2 (Z.eqb_neq _ _) Hne). cbn [Z.eqb null].
      rewrite !tally_app. cbn [tally]. lia.
    - rewrite (Hc1' E). cbn [Z.eqb null tally]. lia. }
  assert (Hli1 : listening (env w1) ch = false) by (by rewrite (mv_listening _ _ _ _ Hm1)).
  apply wp_bind, wp_on_world, wp_check; [|done]. intros Hret.
  destruct (Hc1 Hret) as [Hne Hq]. rewrite <- (mv_qp _ _ _ _ Hm1) in Hq.
  apply wp_call_check with (w0 := w0); [done|done| |done]. intros w2 Ho2 Hm2.
  apply wp_wait_active with (w0 := w0); [done| |done| |done].
  { by rewrite (mv_listening _ _ _ _ Hm2). } intros w3 Ho3 Hm3.
  apply wp_call_check with (w0 := w0); [done|done| |done]. intros w4 Ho4 Hm4.
  pose proof (moves_trans _ _ _ _ _ _ _ Hm2 (moves_trans _ _ _ _ _ _ _ Hm3 Hm4)) as Hm24.
  apply wp_wait_active with (w0 := w0); [done| |done| |done].
  { by rewrite (mv_listening _ _ _ _ Hm24). } intros w5 Ho5 Hm5.
  pose proof (moves_trans _ _ _ _ _ _ _ Hm24 Hm5) as Hm25.
  apply (wp_connect_over w0 id c1 w5); try done; [by rewrite (mv_qp _ _ _ _ Hm25)|].
  by rewrite (mv_listening _ _ _ _ Hm25).
Qed.

(** [resolve_v4] asks the resolver at most once. *)
Lemma wp_resolve_v4 addr w :
  wp (resolve_v4 addr) (fun _ w' => moves w w' [] []) (fun w' => moves w w' [] []) w.
Proof.
  unfold resolve_v4, to_socket_addrs. apply wp_bind.
  assert (Hend : forall (l : list SocketAddr) w', moves w w' [] [] ->
    wp match l with
       | [] => fail (invalid "the address did not resolve to a socket address" [])
       | V4 octets port :: _ => mret (octets, port)
       | V6 :: _ => fail (IoError Unsupported "IPv6 addresses are not supported yet" [])
       end (fun _ w' => moves w w' [] []) (fun w' => moves w w' [] []) w').
  { intros l w' Hm. destruct l as [|[] l]; [by apply wp_fail|by apply wp_ret|by apply wp_fail]. }
  destruct addr as [host port|a].
  - apply wp_bind, wp_call.
    pose proof (neutral_moves (ToSocketAddrs host port) w ltac:(done)) as Hm.
    destruct (fst (exec _ _)); [by apply wp_ret, Hend|by apply wp_fail].
  - apply wp_ret, (Hend [a]), moves_refl.
Qed.

(** A new counter cell. *)
Lemma wp_cell_new z (Q : Z -> world W -> Prop) E w :
  (forall c w', moves w w' [] [] -> cells w !! next_loc w = cells w !! c ->
     cells w' = <[c := z]> (cells w) -> Q c w') ->
  wp (cell_new z) Q E w.
Proof.
  intros HQ. unfold wp, cell_new. apply HQ; [|done|done]. split; try done.
  - intros Hw l i Hl. specialize (Hw l i Hl). cbn. lia.
  - intros r. cbn. destruct r; cbn; lia.
Qed.

(** [wp] as a statement on the result. *)
Lemma wp_result {A} (m : ST (world W) A) (Q : A -> world W -> Prop) E w :
  wp m Q E w ->
  match m w with
  | (Ok a, w') => Q a w'
  | (Err _, w') => E w'
  | (Panic _, _) => False
  | (Diverge, w') => blocked w'
  end.
Proof. done. Qed.

(** Connecting, as a specification. *)
Lemma wp_connect addr w :
  wf_world w ->
  wp (connect addr) (fun c w' => wf_world w' /\ established c w' /\ c_event_channel c <> null /\
      forall r, ledger w' r = ledger w r + tally r (owned c true))
    (fun w' => wf_world w' /\ forall r, ledger w' r = ledger w r) w.
Proof.
  intros Hw.
  assert (Hsame : forall w', moves w w' [] [] ->
    wf_world w' /\ forall r, ledger w' r = ledger w r).
  { intros w' [A B _ _]. split; [auto|]. intros r. rewrite B. cbn [tally]. lia. }
  unfold connect. apply wp_bind. eapply wp_mono; [apply wp_resolve_v4| |exact Hsame].
  cbn beta. intros [octets port] w1 Hm1. apply wp_bind, wp_call.
  pose proof (after_ledger CreateEventChannel w1) as Hl2.
  pose proof (channel_created (env w1)) as Hli. cbn [created released] in Hl2.
  assert (Hw2 : wf_world (after CreateEventChannel w1)) by (apply Hm1, Hw).
  change (snd (exec CreateEventChannel (env w1))) with (env (after CreateEventChannel w1)) in Hli.
  set (ch := fst (exec CreateEventChannel (env w1))) in *. set (w2 := after _ w1) in *.
  apply wp_bind, wp_check_ptr; intros Hch.
  2: { pose proof (neutral_moves LastOsError w2 ltac:(done)) as [A B _ _].
       split; [auto|]. intros r. rewrite B, Hl2, (mv_ledger _ _ _ _ Hm1), unless_null_null by done.
       cbn [tally]. lia. }
  rewrite unless_null_some in Hl2 by done.
  apply wp_bind, wp_cell_new. intros cell w3 Hm3 _ _.
  set (c0 := {| c_id := null; c_event_channel := ch |}).
  apply wp_build with (w0 := w).
  assert (Ho : owes w [] c0 w3).
  { split_and!; [done|by apply Hm3|]. intros r. rewrite (mv_ledger _ _ _ _ Hm3), Hl2,
      (mv_ledger _ _ _ _ Hm1). unfold owned. cbn [c0 c_id c_cq c_pd c_event_channel].
    rewrite (unless_null_some ch) by done. cbn [tally app Z.eqb null]. cbn. lia. }
  eapply wp_mono.
  - apply (wp_connect_to w (SockaddrIn_from octets port) c0 w3 Ho eq_refl eq_refl eq_refl).
    by rewrite (mv_listening _ _ _ _ Hm3).
  - intros [] [c' w'] ((_ & A & B) & Hest & Hc). rewrite Hc. split_and!; try done.
    intros r. rewrite B. destruct Hest as (_ & _ & _ & ->). cbn [tally]. lia.
  - intros [c' w'] H. exists []. split; [done|]. intros w'' Hw'' Hl. split; [done|].
    intros r. rewrite Hl. cbn [tally]. lia.
Qed.

(** C11: [Connection::connect] keeps the ledger: a failing call, whichever
    of its steps fails, releases everything it created (channel,
    identifier, completion queue, queue pair, protection domain, events)
    exactly once; a successful one has added exactly what the connection
    owns, queue pair included. It never panics, and never returns only
    if the connection manager never reports an event. *)
Theorem connect_no_leak addr w :
  wf_world w ->
  match connect addr w with
  | (Ok c, w') =>
      wf_world w' /\ established c w' /\ c_event_channel c <> null /\
      forall r, ledger w' r = ledger w r + tally r (owned c true)
  | (Err _, w') => wf_world w' /\ forall r, ledger w' r = ledger w r
  | (Panic _, _) => False
  | (Diverge, w') => blocked w'
  end.
Proof. intros Hw. exact (wp_result _ _ _ _ (wp_connect addr w Hw)). Qed.

(** ** Accepting *)
Lemma owes_lose w0 extra c w w' l :
  owes w0 extra c w -> moves w w' l [] -> owes w0 (extra ++ l) c w'.
Proof. intros Ho Hm. eapply owes_gain; [|exact Hm]. by rewrite app_nil_r. Qed.

Lemma moves_ref w w' pd : moves w w' [] [] -> 1 <= ledger w (RRef pd) -> 1 <= ledger w' (RRef pd).
Proof. intros [_ B _ _] H. rewrite B. cbn [tally]. lia. Qed.

(** Accepting on an identifier just received, when [c0] owns it. *)
Lemma wp_accept_child w0 l pd c0 w (child := c_id c0) :
  owes w0 [] c0 w -> child <> null -> c_cq c0 = null -> c_pd c0 = None ->
  has_qp (env w) child = false ->
  (forall p, pd = Some p -> 1 <= ledger w (RRef p)) ->
  wp (context ← on_world (call (IdVerbs child));
      pd ← match pd with
           | Some pd =>
               pd_ctx ← on_world (pd_context pd);
               if negb (pd_ctx =? context)
               then fail (error_other "rdma accept_into: the connection arrived on a different device than the protection domain" [])
               else on_world (pd_clone pd)
           | None => on_world (pd_alloc context)
           end;
      create_resources pd;;
      ret ← on_world (call (AcceptId child conn_param));
      on_world (check "rdma_accept" ret);;
      on_world (wait_event (l_event_channel l) RDMA_CM_EVENT_ESTABLISHED "rdma_accept"))
    (fun _ '(c', w') => owes w0 [] c' w' /\ established c' w' /\
       c_event_channel c' = c_event_channel c0 /\ (forall p, pd = Some p -> c_pd c' = Some p))
    (fun '(c', w') => exists extra, owes w0 extra c' w' /\
       (extra = [] \/ exists id, extra = [RId id] /\ id <> null)) (c0, w).
Proof.
  intros Ho Hne Hcq Hpd Hqp Href. apply wp_bind, wp_on_world, wp_call.
  pose proof (neutral_moves (IdVerbs child) w ltac:(done)) as Hm1.
  pose proof (owes_moves _ _ _ _ _ Ho Hm1) as Ho1.
  set (context := fst (exec _ (env w))). set (w1 := after _ w) in *.
  apply wp_bind.
  eapply wp_mono with
    (Q := fun pd' '(c', w2) => c' = c0 /\ moves w1 w2 [RRef pd'] [] /\
       (forall p, pd = Some p -> pd' = p)) (E := fun '(c', w2) => owes w0 [] c' w2).
  { destruct pd as [p|].
    - pose proof (moves_ref _ _ _ Hm1 (Href p eq_refl)) as Hp.
      destruct (arc_get_pos w1 p Hp) as (i & Hg & Hi). apply wp_bind, wp_on_world.
      unfold pd_context. apply wp_bind. unfold wp at 1. rewrite Hg. apply wp_ret.
      destruct (negb _); [by apply wp_fail|]. apply wp_on_world.
      destruct (pd_clone_moves w1 p Hp) as (w2 & Hc & Hm & _). unfold wp. rewrite Hc.
      split_and!; [done|done|]. by intros p' [= <-].
    - apply wp_on_world. eapply wp_mono; [apply wp_pd_alloc; apply Ho1| |].
      + by intros a w2 [Hm _].
      + intros w2 Hm. by eapply owes_moves. }
  2: { intros [c' w'] H. exists []. auto. }
  intros p [c' w2] (-> & Hm2 & Hp0).
  assert (Ho2 : owes w0 ([] ++ [RRef p]) c0 w2) by (by eapply owes_gain).
  apply wp_bind. eapply wp_mono; [apply (wp_create_resources w0 [] p c0 w2 Ho2 Hne Hcq Hpd)| |].
  { by rewrite (mv_qp _ _ _ _ Hm2), (mv_qp _ _ _ _ Hm1). }
  2: { intros [c' w'] H. exists []. auto. }
  intros [] [c3 w3] (Ho3 & Hid3 & Hcq3 & Hpd3 & Hch3 & Hq3 & Hli3).
  assert (Hest : established c3 w3).
  { split_and!; [by rewrite Hid3|done|by exists p|by rewrite Hid3]. }
  apply wp_call_check with (w0 := w0); [done|done| |]; [intros w4 Ho4 Hm4|by intros w4 Ho4; exists []; auto].
  apply wp_on_world. eapply wp_mono; [by apply wp_wait_event| |]; cbn beta.
  - intros _ w5 Hm5. split_and!; [by eapply owes_moves| |done|].
    + eapply established_moves; [|exact (moves_trans _ _ _ _ _ _ _ Hm4 Hm5)]. done.
    + intros p' Hp'. by rewrite Hpd3, (Hp0 p' Hp').
  - intros w5 [Hm5|(id & Hm5 & Hid & _)].
    + exists []. split; [by eapply owes_moves|auto].
    + exists [RId id]. split; [by eapply (owes_lose _ []) in Hm5; [|exact Ho4]|eauto].
Qed.

(** From the request on. *)
Lemma wp_accept_build l pd id w w2 :
  wf_world w -> moves w w2 [RId id] [] -> id <> null -> has_qp (env w2) id = false ->
  (forall p, pd = Some p -> 1 <= ledger w (RRef p)) ->
  wp (cell ← cell_new 0;
      build {| c_id := id; c_cq := null; c_pd := None; c_event_channel := null; c_next_wr_id := cell |}
        (context ← on_world (call (IdVerbs id));
         pd ← match pd with
              | Some pd =>
                  pd_ctx ← on_world (pd_context pd);
                  if negb (pd_ctx =? context)
                  then fail (error_other "rdma accept_into: the connection arrived on a different device than the protection domain" [])
                  else on_world (pd_clone pd)
              | None => on_world (pd_alloc context)
              end;
         create_resources pd;;
         ret ← on_world (call (AcceptId id conn_param));
         on_world (check "rdma_accept" ret);;
         on_world (wait_event (l_event_channel l) RDMA_CM_EVENT_ESTABLISHED "rdma_accept")))
    (fun c w' => wf_world w' /\ established c w' /\ c_event_channel c = null /\
      (forall p, pd = Some p -> c_pd c = Some p) /\
      forall r, ledger w' r = ledger w r + tally r (owned c true))
    (fun w' => wf_world w' /\ ((forall r, ledger w' r = ledger w r) \/
       exists id, id <> null /\ forall r, ledger w' r = ledger w r + tally r [RId id])) w2.
Proof.
  intros Hw Hm4 Hne Hq Href. apply wp_bind, wp_cell_new. intros cell w5 Hm5 _ _.
  set (c0 := {| c_id := id; c_event_channel := null |}).
  pose proof (moves_trans _ _ _ _ _ _ _ Hm4 Hm5) as Hm6. cbn [app] in Hm6.
  assert (Hq6 : has_qp (env w5) id = false) by (by rewrite (mv_qp _ _ _ _ Hm5)).
  assert (Ho : owes w [] c0 w5).
  { split_and!; [done|by apply Hm6|]. intros r. rewrite (mv_ledger _ _ _ _ Hm6).
    unfold owned. cbn [c0 c_id c_cq c_pd c_event_channel].
    rewrite Hq6, (proj2 (Z.eqb_neq _ _) Hne), !unless_null_null by done. cbn [tally app]. lia. }
  apply wp_build with (w0 := w). eapply wp_mono.
  - apply (wp_accept_child w l pd c0 w5 Ho Hne eq_refl eq_refl Hq6).
    intros p Hp. specialize (Href p Hp). rewrite (mv_ledger _ _ _ _ Hm6). cbn [tally].
    case_decide; [congruence|lia].
  - intros [] [c' w'] ((_ & A & B) & Hest & Hc & Hpd'). rewrite Hc. split_and!; try done.
    intros r. rewrite B. destruct Hest as (_ & _ & _ & ->). cbn [tally]. lia.
  - intros [c' w'] (extra & H & Hex). exists extra. split; [done|]. intros w'' Hw'' Hl.
    split; [done|]. destruct Hex as [->|(id' & -> & Hid)]; [left|right; exists id'; split; [done|]].
    + intros r. rewrite Hl. cbn [tally]. lia.
    + done.
Qed.

(** Accepting, as a specification. *)
Lemma wp_accept l pd w :
  wf_world w -> (forall p, pd = Some p -> 1 <= ledger w (RRef p)) ->
  wp (accept_impl l pd) (fun c w' => wf_world w' /\ established c w' /\ c_event_channel c = null /\
      (forall p, pd = Some p -> c_pd c = Some p) /\
      forall r, ledger w' r = ledger w r + tally r (owned c true))
    (fun w' => wf_world w' /\ ((forall r, ledger w' r = ledger w r) \/
       exists id, id <> null /\ forall r, ledger w' r = ledger w r + tally r [RId id])) w.
Proof.
  intros Hw Href.
  assert (Hsame : forall w', moves w w' [] [] -> wf_world w' /\
    ((forall r, ledger w' r = ledger w r) \/
       exists id, id <> null /\ forall r, ledger w' r = ledger w r + tally r [RId id])).
  { intros w' [A B _ _]. split; [auto|]. left. intros r. rewrite B. cbn [tally]. lia. }
  unfold accept_impl, get_cm_event. apply wp_bind, wp_bind, wp_call.
  set (ch := l_event_channel l).
  pose proof (after_moves (GetCmEvent ch) w ltac:(done) eq_refl) as Hm1.
  pose proof (request_delivered ch (env w)) as Hreq.
  destruct (fst (exec (GetCmEvent ch) (env w))) as [[ret ev]|] eqn:Eev.
  2: { unfold wp, diverge, blocked, world_blocking. rewrite <- Eev. by do 2 eexists. }
  apply wp_ret. cbn [created released] in Hm1. set (w1 := after _ w) in *.
  apply wp_bind, wp_check; [intros ->|].
  2: { intros Hr. rewrite (proj2 (Z.eqb_neq _ _) Hr) in Hm1. by apply Hsame. }
  cbn [Z.eqb] in Hm1. apply wp_bind, wp_call.
  pose proof (after_moves (AckCmEvent (ev_ptr ev)) w1 ltac:(done) eq_refl) as Hm2.
  cbn [released created] in Hm2. set (w2 := after (AckCmEvent (ev_ptr ev)) w1) in *.
  pose proof (moves_trans _ _ _ _ _ _ _ Hm1 Hm2) as Hm3. cbn [app] in Hm3.
  assert (negb (ev_event ev =? RDMA_CM_EVENT_CONNECT_REQUEST) || negb (ev_status ev =? 0)
    = negb (is_request ev)) as ->.
  { unfold is_request. by rewrite negb_andb. }
  destruct (is_request ev) eqn:Ereq; cbn [negb].
  2: { apply wp_fail, Hsame. eapply moves_eq; [|exact Hm3]. intros r. cbn [tally app]. lia. }
  destruct (Hreq ev eq_refl Ereq) as (Hne & Hq & _).
  assert (Hm4 : moves w w2 [RId (ev_id ev)] []).
  { eapply moves_eq; [|exact Hm3]. intros r. cbn [tally app]. lia. }
  apply wp_bind, wp_check; intros Hack.
  2: { split; [apply Hm4, Hw|]. right. exists (ev_id ev). split; [done|]. intros r.
       rewrite (mv_ledger _ _ _ _ Hm4). cbn [tally]. lia. }
  apply wp_accept_build; [done|done|done|by rewrite (mv_qp _ _ _ _ Hm4)|done].
Qed.


(** Dropping a connection releases exactly what it owns: queue pair,
    identifier, completion queue, its own event channel, and one
    reference to the protection domain, which is deallocated if and only
    if that was the last one. *)
Theorem conn_drop_releases c w :
  wf_world w -> (forall pd, c_pd c = Some pd -> 1 <= ledger w (RRef pd)) ->
  exists w', conn_drop c w = (Ok tt, w') /\ wf_world w' /\
    (forall r, ledger w' r = ledger w r - tally r (owned c (has_qp (env w) (c_id c)))) /\
    (forall p, live (RPd p) (log w') = live (RPd p) (log w) -
       match c_pd c with
       | Some pd =>
           match arcs w !! pd with
           | Some i => if (pi_refs i =? 1) && (pi_pd i =? p) then 1 else 0
           | None => 0
           end
       | None => 0
       end).
Proof.
  intros Hw Href. destruct (conn_drop_ledger c w Hw Href) as (w' & Hd & Hw' & Hl & Ha).
  exists w'. split_and!; [done|done|done|]. intros p.
  assert (Ht : tally (RPd p) (owned c (has_qp (env w) (c_id c))) = 0).
  { unfold owned, unless_null. rewrite !tally_app.
    repeat case_match; cbn [tally]; repeat case_decide; try congruence; lia. }
  specialize (Hl (RPd p)). cbn [ledger] in Hl. rewrite Ht, Ha in Hl.
  destruct (c_pd c) as [pd|]; [|lia]. unfold arcs_released in Hl.
  destruct (arcs w !! pd) as [i|] eqn:Ei; [|lia].
  destruct (pi_refs i =? 1); cbn [andb].
  - rewrite (holders_delete p pd i) in Hl by done. destruct (pi_pd i =? p); lia.
  - rewrite (holders_update p pd i) in Hl by done. lia.
Qed.

(** ** Registration *)

(** The registration in a domain, by its calls. *)
Definition registration (i : PdInner) (addr size : Z) w : res MemoryRegion * world W :=
  if size =? 0 then (Err (invalid "cannot register an empty region" []), w) else
  let w1 := after (RegMr (pi_pd i) addr size 15) w in
  let mr := fst (exec (RegMr (pi_pd i) addr size 15) (env w)) in
  if mr =? null then
    (Err (error_other "{call} failed: {os error}"
       [FText (rstr "ibv_reg_mr"); FInt (fst (exec LastOsError (env w1)))]),
     after LastOsError w1)
  else
    let keys := fst (exec (MrKeys mr) (env w1)) in
    (Ok {| mr_mr := mr; mr_pd := pi_pd i; mr_addr := addr; mr_size := size;
           mr_lkey := fst keys; mr_rkey := snd keys |}, after (MrKeys mr) w1).

Lemma pd_register_addr_eq pd i addr size w :
  arcs w !! pd = Some i -> pd_register_addr pd addr size w = registration i addr size w.
Proof.
  intros Hi. unfold pd_register_addr, registration. destruct (Z.eqb_spec size 0); [done|].
  change (Z.lor _ IBV_ACCESS_REMOTE_ATOMIC) with 15. unfold arc_get. st_cbn. rewrite Hi.
  st_cbn. rewrite call_after. set (mr := fst (exec (RegMr (pi_pd i) addr size 15) (env w))).
  unfold check_ptr. destruct (Z.eqb_spec mr null) as [E|E].
  - st_cbn. by rewrite call_after.
  - st_cbn. rewrite call_after. by destruct (fst (exec (MrKeys mr) _)).
Qed.

(** A temporary handle: [w] with one more reference to [pd], and back. *)
Definition bump (pd : Z) (i : PdInner) w : world W :=
  World (env w) (log w)
    (<[pd := {| pi_context := pi_context i; pi_pd := pi_pd i; pi_refs := pi_refs i + 1 |}]> (arcs w))
    (cells w) (next_loc w).
Definition with_arcs (m : gmap Z PdInner) w : world W :=
  World (env w) (log w) m (cells w) (next_loc w).

Lemma pd_clone_bump pd i w : arcs w !! pd = Some i -> pd_clone pd w = (Ok pd, bump pd i w).
Proof. intros Hi. unfold pd_clone, arc_get. st_cbn. by rewrite Hi. Qed.

Lemma arcs_bump pd i w :
  arcs (bump pd i w) !! pd =
    Some {| pi_context := pi_context i; pi_pd := pi_pd i; pi_refs := pi_refs i + 1 |}.
Proof. apply lookup_insert_eq. Qed.

Lemma pd_drop_bump pd i w w' :
  arcs w !! pd = Some i -> 1 <= pi_refs i -> arcs w' = arcs (bump pd i w) ->
  pd_drop pd w' = (Ok tt, with_arcs (arcs w) w').
Proof.
  intros Hi Hr Ha. unfold pd_drop, arc_get. st_cbn. rewrite Ha, arcs_bump. cbn [pi_refs pi_pd pi_context].
  destruct (Z.eqb_spec (pi_refs i + 1) 1); [lia|]. unfold arc_set, with_arcs. f_equal. f_equal.
  rewrite Ha. unfold bump. cbn [arcs]. rewrite insert_insert_eq. apply insert_id. rewrite Hi.
  f_equal. destruct i. cbn. f_equal. lia.
Qed.

Lemma with_arcs_id w : with_arcs (arcs w) w = w.
Proof. by destruct w. Qed.

(** A registration does not look at the references, and leaves them. *)
Lemma registration_bump pd i j addr size w :
  pi_pd j = pi_pd i ->
  registration j addr size (bump pd i w) =
    (fst (registration i addr size w), bump pd i (snd (registration i addr size w))).
Proof.
  intros Hj. unfold registration. rewrite Hj. destruct (size =? 0); [done|].
  change (env (bump pd i w)) with (env w). set (mr := fst (exec _ _)). by destruct (mr =? null).
Qed.

Lemma arcs_registration i addr size w : arcs (snd (registration i addr size w)) = arcs w.
Proof. unfold registration. destruct (size =? 0); [done|]. cbv zeta. by destruct (_ =? null). Qed.

Lemma register_addr_eq c addr size w pd i :
  c_pd c = Some pd -> arcs w !! pd = Some i -> 1 <= pi_refs i ->
  register_addr c addr size w = registration i addr size w.
Proof.
  intros Hc Hi Hr. unfold register_addr, protection_domain. rewrite Hc.
  rewrite (ST_bind_step _ _ _ _ _ (pd_clone_bump pd i w Hi)). unfold finally.
  rewrite (pd_register_addr_eq pd _ addr size _ (arcs_bump pd i w)), registration_bump by done.
  rewrite (pd_drop_bump pd i w) by (try done; unfold bump; cbn [arcs]; by rewrite arcs_registration).
  assert (Hw : with_arcs (arcs w) (bump pd i (snd (registration i addr size w))) =
    snd (registration i addr size w)).
  { rewrite <- (arcs_registration i addr size w). by destruct (snd (registration i addr size w)). }
  cbn [snd]. rewrite Hw. unfold registration. destruct (size =? 0); [done|]. cbv zeta.
  by destruct (_ =? null).
Qed.

(** Registering through a connection: an empty region is refused
    without any call; otherwise exactly one registration of the given
    address and size is asked for, in the connection's protection domain,
    with local write, remote write, remote read and remote atomic access;
    a null answer is an error, any other is handed over with its keys.
    The temporary handle leaves the reference count as it was. *)
Theorem register_addr_exact c addr size w pd i :
  c_pd c = Some pd -> arcs w !! pd = Some i -> 1 <= pi_refs i ->
  register_addr c addr size w =
    if size =? 0 then (Err (invalid "cannot register an empty region" []), w) else
    let w1 := after (RegMr (pi_pd i) addr size 15) w in
    let mr := fst (exec (RegMr (pi_pd i) addr size 15) (env w)) in
    if mr =? null then
      (Err (error_other "{call} failed: {os error}"
         [FText (rstr "ibv_reg_mr"); FInt (fst (exec LastOsError (env w1)))]),
       after LastOsError w1)
    else
      let keys := fst (exec (MrKeys mr) (env w1)) in
      (Ok {| mr_mr := mr; mr_pd := pi_pd i; mr_addr := addr; mr_size := size;
             mr_lkey := fst keys; mr_rkey := snd keys |}, after (MrKeys mr) w1).
Proof. apply register_addr_eq. Qed.

(** A registration either changes no hands or adds one registration. *)
Lemma registration_cases i addr size w :
  (exists e w', registration i addr size w = (Err e, w') /\ moves w w' [] [] /\
     (w' = w \/ w' = after LastOsError (after (RegMr (pi_pd i) addr size 15) w))) \/
  (exists mr l, let w1 := after (RegMr (pi_pd i) addr size 15) w in
     registration i addr size w = (Ok mr, after (MrKeys l) w1) /\
     moves w (after (MrKeys l) w1) [RMr (mr_mr mr)] [] /\ size <> 0 /\
     mr_addr mr = addr /\ mr_size mr = size /\ mr_pd mr = pi_pd i).
Proof.
  unfold registration.
  destruct (Z.eqb_spec size 0); [left; do 2 eexists; split_and!; [done|apply moves_refl|by left]|].
  set (reg := RegMr (pi_pd i) addr size 15).
  pose proof (after_moves reg w ltac:(done) eq_refl) as Hm. cbn [created released reg] in Hm.
  fold reg in Hm. cbv zeta. set (mr := fst (exec reg (env w))) in *.
  destruct (Z.eqb_spec mr null) as [E|E].
  - left. do 2 eexists. split; [done|]. rewrite unless_null_null in Hm by done.
    split; [|by right].
    exact (moves_trans _ _ _ _ _ _ _ Hm (neutral_moves LastOsError _ ltac:(done))).
  - right. do 2 eexists. split; [done|]. rewrite unless_null_some in Hm by done.
    split_and!; [|done..].
    exact (moves_trans _ _ _ _ _ _ _ Hm (neutral_moves (MrKeys mr) _ ltac:(done))).
Qed.

(** Registering through a connection whose handle is live. *)
Lemma register_addr_cases c addr size w pd i :
  c_pd c = Some pd -> arcs w !! pd = Some i -> 1 <= pi_refs i ->
  (exists e w', register_addr c addr size w = (Err e, w') /\ moves w w' [] [] /\
     (w' = w \/ w' = after LastOsError (after (RegMr (pi_pd i) addr size 15) w))) \/
  (exists mr l, let w1 := after (RegMr (pi_pd i) addr size 15) w in
     register_addr c addr size w = (Ok mr, after (MrKeys l) w1) /\
     moves w (after (MrKeys l) w1) [RMr (mr_mr mr)] [] /\ size <> 0 /\
     mr_addr mr = addr /\ mr_size mr = size /\ mr_pd mr = pi_pd i).
Proof. intros Hc Hi Hr. rewrite (register_addr_eq c addr size w pd i Hc Hi Hr). apply registration_cases. Qed.

(** ** Operations that own nothing *)
Lemma preserves_on_world {C A} (R : relation (world W)) (m : ST (world W) A) :
  preserves R m -> preserves (fun s s' : C * world W => R (snd s) (snd s')) (on_world m).
Proof. intros Hm [c w]. specialize (Hm w). unfold on_world. by destruct (m w). Qed.

(** However [m] ends, nothing changed hands. *)
#[export] Instance moves_preorder : PreOrder (fun w w' => moves w w' [] []).
Proof.
  split; [intros w; apply moves_refl|]. intros w1 w2 w3 H1 H2. exact (moves_trans _ _ _ _ _ _ _ H1 H2).
Qed.

Abbreviation steady := (preserves (fun w w' => moves w w' [] [])).

Lemma steady_call {T} (c : ccall T) : neutral c -> steady (call c).
Proof. intros Hn w. rewrite call_after. by apply neutral_moves. Qed.

Lemma steady_check name ret : steady (check name ret).
Proof. apply (preserves_pure _). intros w. unfold check. by destruct (ret =? 0). Qed.

Lemma steady_cell_set l z : steady (cell_set l z).
Proof.
  intros w. unfold cell_set. cbn [snd]. split; try done. intros r. cbn [tally].
  destruct r; cbn [ledger log arcs]; lia.
Qed.

Lemma steady_poll_loop {PP : Profile} fuel cq id op deadline :
  steady (poll_loop fuel cq id op deadline).
Proof.
  induction fuel as [|fuel IH]; [by apply (preserves_pure _)|]. cbn [poll_loop].
  apply (preserves_bind _); [by apply steady_call|]. intros [ret wc].
  apply (preserves_bind _).
  { destruct (ret <? 0); [|by apply (preserves_pure _)].
    apply (preserves_bind _); [by apply (preserves_pure _)|]. intros; apply steady_check. }
  intros []. destruct (_ && _).
  { destruct (negb _); by apply (preserves_pure _). }
  apply (preserves_bind _); [by apply steady_call|]. intros now.
  destruct (_ <=? _); [by apply (preserves_pure _)|done].
Qed.

Lemma steady_one_sided {PP : Profile} fuel c op opcode mr remote_addr rkey len :
  steady (one_sided fuel c op opcode mr remote_addr rkey len).
Proof.
  unfold one_sided.
  destruct (len =? 0); [by apply (preserves_pure _)|]. destruct (_ <? _); [by apply (preserves_pure _)|].
  apply (preserves_bind _); [apply (preserves_pure _); by destruct (c_pd c)|]. intros pd.
  apply (preserves_bind _).
  { apply (preserves_bind _); [|intros; by apply (preserves_pure _)].
    apply (preserves_pure _). intros w. unfold arc_get. by destruct (_ !! _). }
  intros raw. destruct (negb _); [by apply (preserves_pure _)|].
  apply (preserves_bind _); [by apply (preserves_pure _)|]. intros id.
  apply (preserves_bind _); [by apply (preserves_pure _)|]. intros id'.
  apply (preserves_bind _); [apply steady_cell_set|]. intros [].
  apply (preserves_bind _); [by apply steady_call|]. intros qp.
  apply (preserves_bind _); [by apply steady_call|]. intros ret.
  apply (preserves_bind _); [apply steady_check|]. intros [].
  apply (preserves_bind _); [by apply steady_call|]. intros now. apply steady_poll_loop.
Qed.

(** ** The listener *)

(** Two ledgers that differ by the tally of a list. *)
Definition adds w w' (l : list resource) : Prop := forall r, ledger w' r = ledger w r + tally r l.

Lemma adds_after {T} (c : ccall T) w0 w l l' :
  adds w0 w l ->
  (forall r, tally r l + tally r (created c (fst (exec c (env w)))) - tally r (released c) =
     tally r l') ->
  adds w0 (after c w) l'.
Proof. intros H Hl r. rewrite after_ledger, H. specialize (Hl r). lia. Qed.

(** The end of [bind]: bind and listen, or release identifier and
    channel. *)
Lemma bind_tail_adds w0 channel id sin w :
  adds w0 w [RId id; RChannel channel] ->
  wp (result ← catch (ret ← call (BindAddr id sin);
                      check "rdma_bind_addr" ret;;
                      ret ← call (Listen id LISTEN_BACKLOG);
                      check "rdma_listen" ret);
      match result with
      | inl _ => mret {| l_id := id; l_event_channel := channel |}
      | inr e => call (DestroyId id);; call (DestroyEventChannel channel);; fail e
      end)
    (fun l w' => adds w0 w' [RId (l_id l); RChannel (l_event_channel l)])
    (fun w' => adds w0 w' []) w.
Proof.
  intros Ha. set (step := fun A => ST (world W) A).
  assert (Herr : forall e w1, adds w0 w1 [RId id; RChannel channel] ->
    wp (call (DestroyId id);; call (DestroyEventChannel channel);; fail e)
      (fun (l : Listener) w' => adds w0 w' [RId (l_id l); RChannel (l_event_channel l)])
      (fun w' => adds w0 w' []) w1).
  { intros e w1 H1. apply wp_bind, wp_call, wp_bind, wp_call, wp_fail.
    apply (adds_after _ _ _ [RChannel channel]); [apply (adds_after _ _ _ _ _ H1)|];
      intros r; cbn [tally created released]; lia. }
  apply wp_bind. unfold wp at 1. unfold catch at 1.
  rewrite (ST_bind_step _ _ _ _ _ (call_after _ w)).
  set (w1 := after (BindAddr id sin) w).
  assert (H1 : adds w0 w1 [RId id; RChannel channel])
    by (apply (adds_after _ _ _ _ _ Ha); intros r; cbn [tally created released]; lia).
  destruct (check_cases "rdma_bind_addr" (fst (exec (BindAddr id sin) (env w))) w1)
    as [[Hc _]|[[e Hc] _]]; fold w1.
  2: { rewrite (ST_bind_err _ _ _ _ _ Hc). by apply Herr. }
  rewrite (ST_bind_step _ _ _ _ _ Hc), (ST_bind_step _ _ _ _ _ (call_after _ w1)).
  set (w2 := after (Listen id LISTEN_BACKLOG) w1).
  assert (H2 : adds w0 w2 [RId id; RChannel channel])
    by (apply (adds_after _ _ _ _ _ H1); intros r; cbn [tally created released]; lia).
  destruct (check_cases "rdma_listen" (fst (exec (Listen id LISTEN_BACKLOG) (env w1))) w2)
    as [[-> _]|[[e ->] _]]; [exact H2|by apply Herr].
Qed.

(** What always comes back. *)
Definition ends {A} (m : ST (world W) A) : Prop := forall w, fst (m w) <> Diverge.

Lemma ends_bind {A B} (m : ST (world W) A) (k : A -> ST (world W) B) :
  ends m -> (forall a, ends (k a)) -> ends (m ≫= k).
Proof.
  intros Hm Hk w. specialize (Hm w). st_cbn. destruct (m w) as [[a|e|y|] w1]; try done. apply Hk.
Qed.

Lemma ends_catch {A} (m : ST (world W) A) : ends m -> ends (catch m).
Proof. intros Hm w. specialize (Hm w). unfold catch. by destruct (m w) as [[] w1]. Qed.

Lemma ends_call {T} (c : ccall T) : ends (call c).
Proof. intros w. by rewrite call_after. Qed.

Lemma ends_check name ret : ends (check name ret).
Proof. intros w. unfold check. by destruct (ret =? 0). Qed.

Lemma ends_check_ptr name p : ends (check_ptr name p).
Proof.
  unfold check_ptr. destruct (p =? null); [|by intros w].
  apply ends_bind; [apply ends_call|]. by intros errno w.
Qed.

Lemma ends_resolve_v4 addr : ends (resolve_v4 addr).
Proof.
  unfold resolve_v4, to_socket_addrs. apply ends_bind.
  - destruct addr; [|by intros w]. apply ends_bind; [apply ends_call|]. by intros [l|e] w.
  - by intros [|[octets port|] l] w.
Qed.

(** Binding a listener, on every path. *)
Lemma bind_adds addr w :
  match bind addr w with
  | (Ok l, w') => adds w w' [RId (l_id l); RChannel (l_event_channel l)]
  | (Err _, w') => adds w w' [] \/
      exists channel ret id rest, ret <> 0 /\
        log w' = Ev (CreateId channel RDMA_PS_TCP) (ret, id) :: rest /\
        adds w w' [RChannel channel]
  | _ => False
  end.
Proof.
  enough (wp (bind addr) (fun l w' => adds w w' [RId (l_id l); RChannel (l_event_channel l)])
    (fun w' => adds w w' [] \/
      exists channel ret id rest, ret <> 0 /\
        log w' = Ev (CreateId channel RDMA_PS_TCP) (ret, id) :: rest /\
        adds w w' [RChannel channel]) w /\ fst (bind addr w) <> Diverge) as [H Hd].
  { unfold wp in H. destruct (bind addr w) as [[] ?]; done. }
  unfold bind. split.
  - apply wp_bind. eapply wp_mono; [apply wp_resolve_v4| |]; cbn beta.
    2: { intros w' Hm. left. intros r. rewrite (mv_ledger _ _ _ _ Hm). cbn [tally]. lia. }
    intros [octets port] w1 Hm1. apply wp_bind, wp_call.
    set (ch := fst (exec CreateEventChannel (env w1))). set (w2 := after CreateEventChannel w1).
    assert (H2 : adds w w2 (unless_null ch (RChannel ch))).
    { intros r. unfold w2. rewrite after_ledger, (mv_ledger _ _ _ _ Hm1).
      cbn [created released tally]. fold ch. lia. }
    apply wp_bind, wp_check_ptr; intros Hn.
    2: { left. rewrite unless_null_null in H2 by done. apply (adds_after _ _ _ _ _ H2).
         intros r. cbn [tally created released]. lia. }
    rewrite unless_null_some in H2 by done.
    apply wp_bind, wp_call.
    destruct (fst (exec (CreateId ch RDMA_PS_TCP) (env w2))) as [ret id] eqn:Eid.
    apply wp_bind, wp_check; intros Hret.
    + eapply wp_mono; [apply (bind_tail_adds w)|by auto|by left].
      apply (adds_after _ _ _ _ _ H2). intros r. rewrite Eid, Hret.
      cbn [tally created released fst snd Z.eqb]. lia.
    + right. exists ch, ret, id, (log w2). split_and!; [done| |].
      * cbn [log after]. by rewrite Eid.
      * apply (adds_after _ _ _ _ _ H2). intros r. cbn [created released]. rewrite Eid.
        cbn [fst snd]. rewrite (proj2 (Z.eqb_neq _ _) Hret). cbn [tally]. lia.
  - revert w. fold (bind addr). change (ends (bind addr)). unfold bind.
    apply ends_bind; [apply ends_resolve_v4|]. intros [octets port].
    apply ends_bind; [apply ends_call|]. intros p. apply ends_bind; [apply ends_check_ptr|]. intros ch.
    apply ends_bind; [apply ends_call|]. intros [ret id]. apply ends_bind; [apply ends_check|]. intros [].
    apply ends_bind.
    { apply ends_catch, ends_bind; [apply ends_call|]. intros r1.
      apply ends_bind; [apply ends_check|]. intros []. apply ends_bind; [apply ends_call|]. intros r2.
      apply ends_check. }
    intros [x|e]; [by intros w|].
    apply ends_bind; [apply ends_call|]. intros r1. apply ends_bind; [apply ends_call|]. by intros [] w.
Qed.

(** C38: binding keeps the ledger: a listener owns its identifier and its
    event channel; a failing [bind] releases what it created, except that
    the event channel is left behind when [rdma_create_id] fails: that
    call is then the last one made. *)
Theorem bind_ledger addr w :
  match bind addr w with
  | (Ok l, w') => adds w w' [RId (l_id l); RChannel (l_event_channel l)]
  | (Err _, w') => adds w w' [] \/
      exists channel ret id rest, ret <> 0 /\
        log w' = Ev (CreateId channel RDMA_PS_TCP) (ret, id) :: rest /\
        adds w w' [RChannel channel]
  | _ => False
  end.
Proof. apply bind_adds. Qed.

(** [bind] leaks the event channel when no identifier can be created
    for it: the call fails, and nothing refers to the channel any more. *)
Theorem bind_leaks_channel octets port w (w1 := after CreateEventChannel w) ret id :
  let channel := fst (exec CreateEventChannel (env w)) in
  channel <> null -> fst (exec (CreateId channel RDMA_PS_TCP) (env w1)) = (ret, id) -> ret <> 0 ->
  exists e w', bind (Sock (V4 octets port)) w = (Err e, w') /\ adds w w' [RChannel channel].
Proof.
  intros channel Hch Hid Hret.
  exists (error_other "{call} failed: {os error}" [FText (rstr "rdma_create_id"); FInt ret]),
    (after (CreateId channel RDMA_PS_TCP) w1). split.
  - unfold bind, resolve_v4, to_socket_addrs. st_cbn. rewrite call_after. unfold check_ptr.
    fold channel. rewrite (proj2 (Z.eqb_neq _ _) Hch). st_cbn. rewrite call_after. fold w1.
    rewrite Hid. unfold check. by rewrite (proj2 (Z.eqb_neq _ _) Hret).
  - intros r. unfold w1. rewrite !after_ledger. fold w1. cbn [created released].
    fold channel. rewrite Hid, unless_null_some by done. cbn [fst snd].
    rewrite (proj2 (Z.eqb_neq _ _) Hret). cbn [tally]. lia.
Qed.
End facts.

#[export] Hint Resolve preserves_on_world : preserves.

(** ** Witnesses *)

(** An address, and a reader's handshake as the connection manager
    reports it. *)
Definition sample_addr : addr_arg := Sock (V4 [10; 0; 0; 1] 18515).
Definition sample_world (events : list Z) : world sim :=
  world0 (sim0 (map (fun t => {| se_type := t; se_status := 0 |}) events)).

Lemma sample_wf events : wf_world (sample_world events).
Proof. intros pd i H. cbn in H. by rewrite lookup_empty in H. Qed.

Lemma connect_no_leak_witness :
  (exists c w', connect sample_addr (sample_world [0; 2; 9]) = (Ok c, w') /\
     ledger w' (RQp (c_id c)) = 1 /\
     forall r, ledger w' r = ledger (sample_world [0; 2; 9]) r + tally r (owned c true)) /\
  (exists e w', connect sample_addr (sample_world [0; 2; 8]) = (Err e, w') /\
     forall r, ledger w' r = ledger (sample_world [0; 2; 8]) r).
Proof.
  split.
  - pose proof (connect_no_leak sample_addr (sample_world [0; 2; 9]) (sample_wf _)) as H.
    destruct (connect sample_addr (sample_world [0; 2; 9])) as [[c|e|y|] w'] eqn:E;
      try (vm_compute in E; discriminate E).
    exists c, w'. split; [done|]. split; [|apply H]. vm_compute in E. injection E as <- <-.
    vm_compute. done.
  - pose proof (connect_no_leak sample_addr (sample_world [0; 2; 8]) (sample_wf _)) as H.
    destruct (connect sample_addr (sample_world [0; 2; 8])) as [[c|e|y|] w'] eqn:E;
      try (vm_compute in E; discriminate E).
    exists e, w'. split; [done|apply H].
Defined.


(** A world with one connection in one protection domain. *)
Definition sample_conn : Connection :=
  {| c_id := 5; c_cq := 6; c_pd := Some 0; c_event_channel := null; c_next_wr_id := 1 |}.
Definition conn_world : world sim :=
  World (s_with_qps (sim0 []) [5]) []
    {[ 0 := {| pi_context := 7; pi_pd := 4; pi_refs := 1 |} ]} {[ 1 := 0 ]} 2.

Lemma conn_world_wf : wf_world conn_world.
Proof. intros pd i H. cbn in H. apply lookup_singleton_Some in H as [<- <-]. cbn. lia. Qed.

Lemma conn_drop_releases_witness :
  exists w', conn_drop sample_conn conn_world = (Ok tt, w') /\ live (RPd 4) (log w') = -1 /\
    live (RQp 5) (log w') = -1.
Proof.
  destruct (conn_drop_releases sample_conn conn_world conn_world_wf) as (w' & H & _ & Hl & Hp).
  { intros pd [= <-]. vm_compute. discriminate. }
  exists w'. split; [done|]. split.
  - rewrite (Hp 4). vm_compute. done.
  - specialize (Hl (RQp 5)). cbn [ledger] in Hl. rewrite Hl. vm_compute. done.
Defined.

Lemma register_addr_exact_witness :
  exists mr w', register_addr sample_conn 4096 8 conn_world = (Ok mr, w') /\
    mr_tuple mr = (4096, 8, 6).
Proof.
  rewrite (register_addr_exact sample_conn 4096 8 conn_world 0
    {| pi_context := 7; pi_pd := 4; pi_refs := 1 |} eq_refl eq_refl ltac:(done)).
  do 2 eexists. split; [vm_compute; reflexivity|]. vm_compute. reflexivity.
Defined.

Lemma bind_leaks_channel_witness :
  exists e w', bind (V := exhausted_verbs) sample_addr (World tt [] ∅ ∅ 0) = (Err e, w') /\
    adds (World tt [] ∅ ∅ 0) w' [RChannel 1].
Proof.
  apply (bind_leaks_channel (V := exhausted_verbs) [10; 0; 0; 1] 18515 (World tt [] ∅ ∅ 0) 12 null);
    done.
Defined.
