(* ===== verification/VerbsFrame.v ===== *)
(** * The RDMA commands: protection domains keep their identity

    Whatever a command does and however it ends, a handle that existed
    before still means the same domain on the same device. *)
From S2P Require Import Prelude Meta Verbs VerbsSpec VerbsFacts.

Section frame.
Context {P : Profile} {W : Type} {V : Verbs W}.
Implicit Types w : world W.

(** Locations are not reused, a shared domain does not change, and what
    was done stays done. *)
Record frame w w' : Prop := {
  fr_next : next_loc w <= next_loc w';
  fr_arcs : forall l i', l < next_loc w -> arcs w' !! l = Some i' ->
    exists i, arcs w !! l = Some i /\ pi_pd i' = pi_pd i /\ pi_context i' = pi_context i;
  fr_log : log w `suffix_of` log w';
}.

#[export] Instance frame_preorder : PreOrder frame.
Proof.
  split.
  - intros w. split; [done| |done]. intros l i' _ H. by exists i'.
  - intros w1 w2 w3 [A1 B1 C1] [A2 B2 C2]. split; [lia| |by etrans]. intros l i3 Hl H3.
    destruct (B2 l i3 ltac:(lia) H3) as (i2 & H2 & E2 & F2).
    destruct (B1 l i2 Hl H2) as (i1 & H1 & E1 & F1). exists i1. split; [done|]. split; congruence.
Qed.

#[export] Instance frame_preimage {C} :
  PreOrder (fun s s' : C * world W => frame (snd s) (snd s')).
Proof. apply preorder_preimage, frame_preorder. Qed.

(** A change of the store at one location, old or new. *)
Lemma frame_arcs w m :
  (forall l i', m !! l = Some i' -> exists i, arcs w !! l = Some i /\ pi_pd i' = pi_pd i /\
     pi_context i' = pi_context i) ->
  frame w (with_arcs m w).
Proof. intros H. split; [done| |done]. intros l i' _ Hl. by apply H. Qed.

(** So does a computation, on the world and on a state that holds it. *)
Abbreviation framed := (preserves frame).
Abbreviation framed_on C := (preserves (fun s s' : C * world W => frame (snd s) (snd s'))).

Lemma framed_call {T} (c : ccall T) : framed (call c).
Proof.
  intros w. rewrite call_after. split; [done| |by apply suffix_cons_r]. intros l i' _ H. by exists i'.
Qed.
Hint Resolve framed_call : preserves.

Lemma framed_check name ret : framed (check name ret).
Proof. apply (preserves_pure _). intros w. unfold check. by destruct (ret =? 0). Qed.
Hint Resolve framed_check : preserves.

Lemma framed_check_ptr name p : framed (check_ptr name p).
Proof. unfold check_ptr. destruct (p =? null); eauto with preserves. Qed.
Hint Resolve framed_check_ptr : preserves.

Lemma framed_arc_get pd : framed (arc_get pd).
Proof. apply (preserves_pure _). intros w. unfold arc_get. by destruct (arcs w !! pd). Qed.
Hint Resolve framed_arc_get : preserves.

Lemma framed_pd_alloc context : framed (pd_alloc context).
Proof.
  unfold pd_alloc. apply (preserves_bind _); [eauto with preserves|]. intros p.
  apply (preserves_bind _); [eauto with preserves|]. intros pd w. unfold arc_new, id. cbn [snd].
  split; cbn [next_loc arcs]; [lia| |done]. intros l i' Hl. rewrite lookup_insert_ne by lia.
  intros Hi. by exists i'.
Qed.

Lemma framed_pd_clone pd : framed (pd_clone pd).
Proof.
  intros w. unfold pd_clone, arc_get, id. st_cbn. destruct (arcs w !! pd) as [i|] eqn:Hi; [|done].
  cbn [snd arc_set]. apply frame_arcs. intros l i'. rewrite lookup_insert. case_decide; subst.
  - intros [= <-]. by exists i.
  - intros Hl. by exists i'.
Qed.

Lemma framed_pd_drop pd : framed (pd_drop pd).
Proof.
  intros w. unfold pd_drop, arc_get, id. st_cbn. destruct (arcs w !! pd) as [i|] eqn:Hi; [|done].
  destruct (pi_refs i =? 1).
  - rewrite call_after. cbn [snd arc_remove]. split; [done| |by apply suffix_cons_r]. cbn [arcs next_loc].
    intros l i' _ H. apply lookup_delete_Some in H as [_ H]. by exists i'.
  - cbn [snd arc_set]. apply frame_arcs. intros l i'. rewrite lookup_insert. case_decide; subst.
    + intros [= <-]. by exists i.
    + intros Hl. by exists i'.
Qed.
Hint Resolve framed_pd_alloc framed_pd_clone framed_pd_drop : preserves.

Lemma framed_conn_drop c : framed (conn_drop c).
Proof.
  unfold conn_drop. apply (preserves_bind _).
  { destruct (_ =? _); [eauto with preserves|]. apply (preserves_bind _); [eauto with preserves|]. intros qp.
    destruct (qp =? null); eauto with preserves. }
  intros []. apply (preserves_bind _); [destruct (_ =? _); eauto with preserves|]. intros [].
  apply (preserves_bind _); [destruct (_ =? _); eauto with preserves|]. intros [].
  destruct (c_pd c); eauto with preserves.
Qed.
Hint Resolve framed_conn_drop : preserves.

Lemma framed_cell_new z : framed (cell_new z).
Proof.
  intros w. split; cbn; [lia| |done]. intros l i' _ H. by exists i'.
Qed.
Hint Resolve framed_cell_new : preserves.

(** Building drops what it built when it fails. *)
Lemma framed_build c (m : ST (Connection * world W) unit) :
  framed_on Connection m -> framed (build c m).
Proof.
  intros Hm w. specialize (Hm (c, w)). unfold build, id. cbn [snd] in Hm.
  destruct (m (c, w)) as [[a|e|y|] [c' w']]; cbn [snd] in *; try done.
  all: etrans; [exact Hm|apply framed_conn_drop].
Qed.

Lemma framed_self : framed_on Connection self.
Proof. apply (preserves_pure _). by intros []. Qed.
Lemma framed_set_cq cq : framed_on Connection (set_cq cq).
Proof. intros []. cbn. reflexivity. Qed.
Lemma framed_set_pd pd : framed_on Connection (set_pd pd).
Proof. intros []. cbn. reflexivity. Qed.
Lemma framed_set_id i : framed_on Connection (set_id i).
Proof. intros []. cbn. reflexivity. Qed.
Hint Resolve framed_self framed_set_cq framed_set_pd framed_set_id : preserves.

Lemma framed_create_resources pd :
  framed_on Connection (create_resources pd).
Proof.
  unfold create_resources, pd_raw. eauto 20 with preserves.
Qed.
Hint Resolve framed_create_resources : preserves.

Lemma framed_wait_event channel expected step : framed (wait_event channel expected step).
Proof.
  unfold wait_event, get_cm_event. apply (preserves_bind _).
  { apply (preserves_bind _); [eauto with preserves|]. intros [r|]; eauto with preserves. }
  intros [ret ev]. apply (preserves_bind _); [eauto with preserves|]. intros [].
  apply (preserves_bind _); [eauto with preserves|]. intros ack. destruct (_ || _); eauto with preserves.
Qed.
Hint Resolve framed_wait_event : preserves.

Lemma framed_accept_impl l pd : framed (accept_impl l pd).
Proof.
  unfold accept_impl, get_cm_event. apply (preserves_bind _).
  { apply (preserves_bind _); [eauto with preserves|]. intros [r|]; eauto with preserves. }
  intros [ret ev]. apply (preserves_bind _); [eauto with preserves|]. intros [].
  apply (preserves_bind _); [eauto with preserves|]. intros ack.
  destruct (negb _ || _); [eauto with preserves|].
  apply (preserves_bind _); [eauto with preserves|]. intros [].
  apply (preserves_bind _); [eauto with preserves|]. intros cell. apply framed_build.
  apply (preserves_bind _); [eauto with preserves|]. intros context.
  apply (preserves_bind _); [|eauto 10 with preserves].
  destruct pd as [p|]; [|eauto with preserves].
  apply (preserves_bind _); [unfold pd_context; eauto with preserves|]. intros ctx.
  destruct (negb _); eauto with preserves.
Qed.

Lemma framed_resolve_v4 addr : framed (resolve_v4 addr).
Proof.
  unfold resolve_v4, to_socket_addrs. apply (preserves_bind _).
  - destruct addr; [|eauto with preserves]. apply (preserves_bind _); [eauto with preserves|].
    intros []; eauto with preserves.
  - intros [|[] l]; eauto with preserves.
Qed.

Lemma framed_connect addr : framed (connect addr).
Proof.
  unfold connect. apply (preserves_bind _); [apply framed_resolve_v4|]. intros [octets port].
  apply (preserves_bind _); [eauto with preserves|]. intros p.
  apply (preserves_bind _); [eauto with preserves|]. intros channel.
  apply (preserves_bind _); [eauto with preserves|]. intros cell. apply framed_build.
  unfold connect_to. apply (preserves_bind _); [eauto with preserves|]. intros c.
  apply (preserves_bind _); [eauto with preserves|]. intros [ret id]. eauto 40 with preserves.
Qed.

(** Registrations, reads and writes. *)
Lemma framed_register_addr c addr size : framed (register_addr c addr size).
Proof.
  unfold register_addr, protection_domain. apply (preserves_bind _).
  { destruct (c_pd c); eauto with preserves. }
  intros pd. apply (preserves_finally _); [|eauto with preserves]. unfold pd_register_addr.
  destruct (size =? 0); [eauto with preserves|].
  apply (preserves_bind _); [eauto with preserves|]. intros i.
  apply (preserves_bind _); [eauto with preserves|]. intros p.
  apply (preserves_bind _); [eauto with preserves|]. intros mr.
  apply (preserves_bind _); [eauto with preserves|]. intros []. eauto with preserves.
Qed.

Lemma framed_poll_loop fuel cq id op deadline : framed (poll_loop fuel cq id op deadline).
Proof.
  induction fuel as [|fuel IH]; [by apply (preserves_pure _)|]. cbn [poll_loop].
  apply (preserves_bind _); [eauto with preserves|]. intros [ret wc].
  apply (preserves_bind _); [destruct (ret <? 0); eauto with preserves|]. intros [].
  destruct (_ && _); [destruct (negb _); eauto with preserves|].
  apply (preserves_bind _); [eauto with preserves|]. intros now.
  destruct (_ <=? _); eauto with preserves.
Qed.

Lemma framed_cell c z : framed (cell_get c) /\ framed (cell_set c z).
Proof. split; intros w; (split; [done| |done]); intros l i' _ H; by exists i'. Qed.

Lemma framed_one_sided fuel c op opcode mr addr rkey len :
  framed (one_sided fuel c op opcode mr addr rkey len).
Proof.
  unfold one_sided, pd_raw. destruct (len =? 0); [eauto with preserves|].
  destruct (_ <? _); [eauto with preserves|].
  apply (preserves_bind _); [destruct (c_pd c); eauto with preserves|]. intros pd.
  apply (preserves_bind _); [eauto with preserves|]. intros raw.
  destruct (negb _); [eauto with preserves|].
  apply (preserves_bind _); [apply (framed_cell _ 0)|]. intros id.
  apply (preserves_bind _); [eauto with preserves|]. intros id'.
  apply (preserves_bind _); [apply framed_cell|]. intros [].
  apply (preserves_bind _); [eauto with preserves|]. intros qp.
  apply (preserves_bind _); [eauto with preserves|]. intros ret.
  apply (preserves_bind _); [eauto with preserves|]. intros [].
  apply (preserves_bind _); [eauto with preserves|]. intros now. apply framed_poll_loop.
Qed.

Lemma framed_registration i addr size w : frame w (snd (registration i addr size w)).
Proof.
  split.
  - unfold registration. destruct (size =? 0); [done|]. cbv zeta. by destruct (_ =? null).
  - intros l i' _. rewrite arcs_registration. intros H. by exists i'.
  - unfold registration. destruct (size =? 0); [done|]. cbv zeta.
    destruct (_ =? null); cbn [snd log after]; by repeat apply suffix_cons_r.
Qed.
End frame.
