(* ===== verification/VerbsApart.v ===== *)
(** * The RDMA commands: connections do not disturb each other

    Whatever is done to one connection, being built or dropped, the queue
    pairs of the others stay; a new connection has an identifier of its
    own. *)
From S2P Require Import Prelude Meta Verbs VerbsSpec VerbsSim VerbsFacts VerbsFrame.

Section apart.
Context {P : Profile} {W : Type} {V : Verbs W} {VO : VerbsOk W}.
Implicit Types w : world W.

(** The identifier of another connection. *)
Context (other : ptr) (Hother : other <> null).

Definition standing w : Prop := has_qp (env w) other = true.
Definition beside (s : Connection * world W) : Prop :=
  c_id (fst s) <> other /\ standing (snd s).

(** [keeps I m]: [m] keeps [I], however it ends. *)
Abbreviation keeps I := (preserves (fun s s' => I s -> I s')).

Lemma keeps_call {T} (c : ccall T) : changes_qp c other = false -> keeps standing (call c).
Proof. intros Hc w. rewrite call_after. unfold standing. cbn [snd after env]. by rewrite qp_frame. Qed.

Lemma keeps_env {A} (m : ST (world W) A) : (forall w, env (snd (m w)) = env w) -> keeps standing m.
Proof. intros H w. unfold standing. by rewrite H. Qed.

Lemma keeps_steady {A} (m : ST (world W) A) :
  preserves (fun w w' => moves w w' [] []) m -> keeps standing m.
Proof. intros H w. unfold standing. by rewrite (mv_qp _ _ _ _ (H w)). Qed.

Lemma keeps_on_world {A} (m : ST (world W) A) : keeps standing m -> keeps beside (on_world m).
Proof.
  intros Hm [c w] [Hc Hw]. specialize (Hm w Hw). unfold on_world. by destruct (m w).
Qed.

(** A method sees an identifier that is not the other one. *)
Lemma keeps_self {A} (k : Connection -> ST (Connection * world W) A) :
  (forall c, c_id c <> other -> keeps beside (k c)) -> keeps beside (self ≫= k).
Proof. intros Hk [c w] Hb. apply (Hk c); [apply Hb|done]. Qed.

Lemma keeps_set_cq cq : keeps beside (set_cq cq).
Proof. by intros []. Qed.
Lemma keeps_set_pd pd : keeps beside (set_pd pd).
Proof. by intros []. Qed.
Hint Resolve keeps_on_world keeps_set_cq keeps_set_pd : preserves.
Hint Extern 1 (keeps standing (call _)) => by apply keeps_call : preserves.
Hint Extern 1 (keeps standing (check _ _)) => apply keeps_steady, steady_check : preserves.
Hint Extern 1 (keeps standing (arc_set _ _)) => by apply keeps_env : preserves.
Hint Extern 1 (keeps standing (arc_remove _)) => by apply keeps_env : preserves.
Hint Extern 1 (keeps standing (arc_new _)) => by apply keeps_env : preserves.
Hint Extern 1 (keeps standing (cell_new _)) => by apply keeps_env : preserves.

Lemma keeps_arc_get pd : keeps standing (arc_get pd).
Proof. apply keeps_env. intros w. unfold arc_get. by destruct (_ !! _). Qed.
Hint Resolve keeps_arc_get : preserves.

Lemma keeps_check_ptr name p : keeps standing (check_ptr name p).
Proof. unfold check_ptr. destruct (p =? null); eauto with preserves. Qed.

Lemma keeps_pd_drop pd : keeps standing (pd_drop pd).
Proof.
  unfold pd_drop. apply (preserves_bind _); [eauto with preserves|]. intros i.
  destruct (_ =? _); eauto with preserves.
Qed.

Lemma keeps_pd_clone pd : keeps standing (pd_clone pd).
Proof. unfold pd_clone. eauto with preserves. Qed.
Hint Resolve keeps_check_ptr keeps_pd_drop keeps_pd_clone : preserves.

Lemma keeps_pd_alloc context : keeps standing (pd_alloc context).
Proof. unfold pd_alloc. eauto with preserves. Qed.

(** Building and dropping another connection. *)
Lemma keeps_conn_drop c : c_id c <> other -> keeps standing (conn_drop c).
Proof.
  intros Hc. assert (E : (other =? c_id c) = false) by (apply Z.eqb_neq; congruence).
  unfold conn_drop. apply (preserves_bind _).
  { destruct (_ =? null); [eauto with preserves|]. apply (preserves_bind _); [eauto with preserves|].
    intros qp. apply (preserves_bind _); [destruct (qp =? null); eauto with preserves|].
    eauto with preserves. }
  intros []. apply (preserves_bind _); [destruct (_ =? null); eauto with preserves|]. intros [].
  apply (preserves_bind _); [destruct (_ =? null); eauto with preserves|]. intros [].
  destruct (c_pd c); eauto with preserves.
Qed.

Lemma keeps_create_resources pd : keeps beside (create_resources pd).
Proof.
  unfold create_resources, pd_raw. apply keeps_self. intros c Hc.
  assert (E : (other =? c_id c) = false) by (apply Z.eqb_neq; congruence).
  eauto 20 with preserves.
Qed.
Hint Resolve keeps_pd_alloc keeps_create_resources : preserves.

Lemma keeps_wait_event channel expected step : keeps standing (wait_event channel expected step).
Proof.
  unfold wait_event, get_cm_event. apply (preserves_bind _).
  { apply (preserves_bind _); [eauto with preserves|]. intros [r|]; eauto with preserves. }
  intros [ret ev]. apply (preserves_bind _); [eauto with preserves|]. intros [].
  apply (preserves_bind _); [eauto with preserves|]. intros ack. destruct (_ || _); eauto with preserves.
Qed.
Hint Resolve keeps_wait_event : preserves.

(** A new identifier is not one that has a queue pair. *)
Lemma keeps_create_id {A} ch ps (k : Z -> ptr -> ST (Connection * world W) A) :
  (forall ret id, id <> other -> keeps beside (k ret id)) ->
  keeps beside ('(ret, id) ← on_world (call (CreateId ch ps)); set_id id;; k ret id).
Proof.
  intros Hk [c w] [Hc Hw]. unfold on_world. st_cbn. rewrite call_after. cbn [fst snd].
  pose proof (id_created ch ps (env w)) as Hid.
  pose proof (keeps_call (CreateId ch ps) eq_refl w Hw) as Hw1. rewrite call_after in Hw1.
  destruct (fst (exec (CreateId ch ps) (env w))) as [ret id]. cbn [set_id].
  assert (Hne : id <> other).
  { intros ->. destruct Hid as [Hid1 Hid2]. unfold standing in Hw. cbn [snd] in Hw.
    destruct (decide (ret = 0)) as [Hr|Hr].
    - destruct (Hid1 Hr). congruence.
    - by rewrite (Hid2 Hr) in Hother. }
  apply (Hk ret id Hne). split; [exact Hne|exact Hw1].
Qed.

Lemma keeps_connect_to dst : keeps beside (connect_to dst).
Proof.
  unfold connect_to. apply keeps_self. intros c Hc. cbv zeta. apply keeps_create_id.
  intros ret id Hid. eauto 40 with preserves.
Qed.

(** A connection that is built is beside the others; one that fails to be
    is dropped beside them. *)
Lemma build_beside c (m : ST (Connection * world W) unit) w :
  keeps beside m -> beside (c, w) ->
  match build c m w with
  | (Ok c', w') => beside (c', w')
  | (_, w') => standing w'
  end.
Proof.
  intros Hm Hb. specialize (Hm (c, w) Hb). unfold build.
  destruct (m (c, w)) as [[a|e|y|] [c' w']]; cbn [snd] in *; [done| | |apply Hm].
  all: destruct Hm; by apply (keeps_conn_drop c').
Qed.

Lemma connect_beside addr w :
  standing w ->
  match connect addr w with
  | (Ok c', w') => beside (c', w')
  | (_, w') => standing w'
  end.
Proof.
  intros Hw. unfold connect.
  assert (H1 : keeps standing (resolve_v4 addr)).
  { intros w0 H. pose proof (wp_resolve_v4 addr w0) as Hr. apply wp_result in Hr. unfold standing.
    pose proof (ends_resolve_v4 addr w0) as He.
    destruct (resolve_v4 addr w0) as [[a|e|y|] w1]; cbn [snd]; try done;
      by rewrite (mv_qp _ _ _ _ Hr). }
  specialize (H1 w Hw). st_cbn. destruct (resolve_v4 addr w) as [[[octets port]|e|y|] w1]; try done.
  pose proof (keeps_call CreateEventChannel eq_refl w1 H1) as H2. rewrite call_after in *.
  cbn [snd] in H2. set (w2 := after _ w1) in *. set (ch := fst _).
  pose proof (keeps_check_ptr "rdma_create_event_channel" ch w2 H2) as H3.
  destruct (check_ptr _ ch w2) as [[channel|e|y|] w3]; try done.
  unfold cell_new. apply build_beside; [apply keeps_connect_to|].
  split; [|done]. cbn. congruence.
Qed.

Lemma keeps_accept_body l pd child :
  keeps beside
    (context ← on_world (call (IdVerbs child));
     pd ← match pd with
          | Some pd =>
              pd_ctx ← on_world (pd_context pd);
              if negb (pd_ctx =? context)
              then fail (error_other "rdma accept_into: the connection arrived on a different device than the protection domain" [])
              else on_world (pd_clone pd)
          | None => on_world (pd_alloc context)
          end;
     create_resources pd;;
     ret ← on_world (call (AcceptId child conn_param));
     on_world (check "rdma_accept" ret);;
     on_world (wait_event (l_event_channel l) RDMA_CM_EVENT_ESTABLISHED "rdma_accept")).
Proof.
  apply (preserves_bind _); [eauto with preserves|]. intros context.
  apply (preserves_bind _); [|eauto 20 with preserves].
  destruct pd as [p|]; [|eauto with preserves]. unfold pd_context.
  apply (preserves_bind _); [eauto with preserves|]. intros ctx.
  destruct (negb _); eauto with preserves.
Qed.

(** The identifier of an accepted connection is not one that has a queue
    pair either. *)
Lemma accept_beside l pd w :
  standing w ->
  match accept_impl l pd w with
  | (Ok c', w') => beside (c', w')
  | (_, w') => standing w'
  end.
Proof.
  intros Hw. unfold accept_impl, get_cm_event.
  pose proof (keeps_call (GetCmEvent (l_event_channel l)) eq_refl w Hw) as H1. rewrite call_after in H1.
  cbn [snd] in H1. st_cbn. rewrite call_after. cbn [fst].
  pose proof (request_delivered (l_event_channel l) (env w)) as Hreq.
  destruct (fst (exec (GetCmEvent (l_event_channel l)) (env w))) as [[ret ev]|]; [|done].
  set (w1 := after _ w) in *. unfold check at 1. destruct (Z.eqb_spec ret 0) as [->|]; [|done]. st_cbn.
  pose proof (keeps_call (AckCmEvent (ev_ptr ev)) eq_refl w1 H1) as H2. rewrite call_after in *.
  cbn [snd] in H2. set (w2 := after _ w1) in *.
  destruct (negb _ || _) eqn:Er; [done|]. unfold check at 1. destruct (_ =? 0) at 1; [|done]. st_cbn.
  unfold cell_new. apply build_beside; [apply keeps_accept_body|]. split; [|done]. cbn.
  destruct (Hreq ev eq_refl) as (_ & Hq & _).
  { apply orb_false_iff in Er as [E1 E2]. apply negb_false_iff in E1, E2.
    unfold is_request. by rewrite E1, E2. }
  intros Heq. unfold standing in Hw. rewrite Heq in Hq. congruence.
Qed.
End apart.
