(* ===== verification/VerbsOps.v ===== *)
(** * The RDMA commands: events and one-sided operations

    Which connection manager events a handshake accepts; what a read or a
    write posts, and how its completion loop ends. *)
From S2P Require Import Prelude Verbs VerbsSpec VerbsSim VerbsFacts.

(** The connection manager events received, latest first. *)
Definition got {T} (c : ccall T) : T -> option RdmaCmEvent :=
  match c in ccall T return T -> option RdmaCmEvent with
  | GetCmEvent _ => fun a => match a with Some (_, ev) => Some ev | None => None end
  | _ => fun _ => None
  end.
Definition received (l : list event) : list RdmaCmEvent :=
  omap (fun e => match e with Ev c a => got c a end) l.

(** The work requests posted, latest first, with their queue pairs. *)
Definition posted {T} (c : ccall T) : option (ptr * IbvSendWr) :=
  match c with PostSend qp wr => Some (qp, wr) | _ => None end.
Definition sent (l : list event) : list (ptr * IbvSendWr) :=
  omap (fun e => match e with Ev c _ => posted c end) l.

(** An event of the given type that reports success. *)
Definition is_event (t : Z) (ev : RdmaCmEvent) : Prop := ev_event ev = t /\ ev_status ev = 0.

Section ops.
Context {P : Profile} {W : Type} {V : Verbs W}.
Implicit Types w : world W.

(** ** Events *)

(** A successful call of [m] receives no event. *)
Definition quiet {S A} (lg : S -> list event) (m : ST S A) : Prop :=
  forall s a s', m s = (Ok a, s') -> received (lg s') = received (lg s).

Lemma quiet_elim {S A} lg (m : ST S A) s a s' :
  m s = (Ok a, s') -> quiet lg m -> received (lg s') = received (lg s).
Proof. intros H Hq. by eapply Hq. Qed.

Lemma quiet_bind {S A B} lg (m : ST S A) (k : A -> ST S B) :
  quiet lg m -> (forall a, quiet lg (k a)) -> quiet lg (m ≫= k).
Proof.
  intros Hm Hk s b s' H. apply ST_bind_Ok in H as (a & s1 & H1 & H2).
  rewrite (Hk _ _ _ _ H2). by eapply Hm.
Qed.

Lemma quiet_ret {S A} lg (a : A) : quiet (S := S) lg (mret a).
Proof. intros s b s' [= _ <-]. done. Qed.

Lemma quiet_fail {S A} lg e : quiet (S := S) (A := A) lg (fail e).
Proof. intros s b s' H. discriminate H. Qed.

Lemma quiet_on_failure {S A} lg (m : ST S A) cl : quiet lg m -> quiet lg (on_failure m cl).
Proof.
  intros Hm s a s' H. apply (Hm s a s'). unfold on_failure in H.
  by destruct (m s) as [[] ?].
Qed.

Lemma quiet_call {T} (c : ccall T) :
  (forall a, got c a = None) -> quiet (log (W := W)) (call c).
Proof.
  intros Hc w a w' H. rewrite call_after in H. injection H as <- <-. cbn. by rewrite Hc.
Qed.

Lemma quiet_check name ret : quiet (log (W := W)) (check name ret).
Proof. unfold check. destruct (ret =? 0); [apply quiet_ret|apply quiet_fail]. Qed.

Lemma quiet_on_world {C A} (m : ST (world W) A) :
  quiet log m -> quiet (fun s : C * world W => log (snd s)) (on_world m).
Proof.
  intros Hm [c w] a [c' w'] H. unfold on_world in H. destruct (m w) as [r w1] eqn:E.
  injection H as -> <- <-. cbn. by eapply Hm.
Qed.

Create HintDb quiet discriminated.
Hint Resolve quiet_bind quiet_ret quiet_fail quiet_on_failure quiet_check quiet_on_world : quiet.
Hint Extern 1 (quiet _ (call _)) => apply quiet_call; done : quiet.
Hint Extern 3 (quiet _ (fun _ => _)) => intros ? ? ?; intros [= <- <-]; done : quiet.

Lemma quiet_check_ptr name p : quiet (log (W := W)) (check_ptr name p).
Proof. unfold check_ptr. destruct (p =? null); eauto 10 with quiet. Qed.
Hint Resolve quiet_check_ptr : quiet.

Lemma quiet_arc_get pd : quiet (log (W := W)) (arc_get pd).
Proof. intros w a w' H. unfold arc_get in H. by destruct (arcs w !! pd); simplify_eq. Qed.
Hint Resolve quiet_arc_get : quiet.

Lemma quiet_state {S A} lg (m : ST S A) :
  (forall s, lg (snd (m s)) = lg s) -> quiet lg m.
Proof. intros H s a s' E. by rewrite <- (H s), E. Qed.

Lemma quiet_pd_alloc ctx : quiet (log (W := W)) (pd_alloc ctx).
Proof.
  apply quiet_bind; [auto with quiet|]. intros p. apply quiet_bind; [auto with quiet|].
  intros q. by apply quiet_state.
Qed.

Lemma quiet_pd_clone pd : quiet (log (W := W)) (pd_clone pd).
Proof.
  apply quiet_bind; [auto with quiet|]. intros i. apply quiet_bind; [by apply quiet_state|].
  auto with quiet.
Qed.

Lemma quiet_pd_context pd : quiet (log (W := W)) (pd_context pd).
Proof. apply quiet_bind; auto with quiet. Qed.

Lemma quiet_create_resources pd :
  quiet (fun s : Connection * world W => log (snd s)) (create_resources pd).
Proof.
  assert (Hst : forall A (m : ST (Connection * world W) A),
    (forall c w, exists r c', m (c, w) = (r, (c', w))) ->
    quiet (fun s : Connection * world W => log (snd s)) m).
  { intros A m H. apply quiet_state. intros [c w]. by destruct (H c w) as (r & c' & ->). }
  unfold create_resources. apply quiet_bind; [apply Hst; by do 2 eexists|]. intros c.
  apply quiet_bind; [|intros; apply Hst; by do 2 eexists].
  apply quiet_on_failure.
  do 2 (apply quiet_bind; [auto with quiet|]; intros ?).
  apply quiet_bind; [auto with quiet|]; intros cq.
  apply quiet_bind; [apply Hst; by do 2 eexists|]; intros [].
  apply quiet_bind; [apply quiet_on_world, quiet_bind; auto with quiet|]; intros raw.
  apply quiet_bind; auto with quiet.
Qed.

(** A wait that succeeds received the expected event, and nothing else. *)
Lemma wait_event_received ch t step w w' :
  wait_event ch t step w = (Ok tt, w') ->
  exists ev, is_event t ev /\ received (log w') = ev :: received (log w).
Proof.
  unfold wait_event, get_cm_event. intros H.
  apply ST_bind_Ok in H as ([ret ev] & w1 & H1 & H).
  apply ST_bind_Ok in H1 as (a & w2 & H2 & H1). rewrite call_after in H2. injection H2 as Ha <-.
  destruct a as [[ret' ev']|]; [|done]. injection H1 as -> -> <-.
  apply ST_bind_Ok in H as ([] & w2 & H2 & H).
  apply quiet_check in H2. apply ST_bind_Ok in H as (ack & w3 & H3 & H).
  apply quiet_call in H3; [|done].
  destruct (negb (ev_event ev =? t) || negb (ev_status ev =? 0)) eqn:E; [done|].
  apply quiet_check in H. exists ev. split; [split; bool_to_prop; tauto|].
  rewrite H, H3, H2. cbn. by rewrite Ha.
Qed.

(** A build that succeeds is its body. *)
Lemma build_Ok c (m : ST (Connection * world W) unit) w c' w' :
  build c m w = (Ok c', w') -> m (c, w) = (Ok tt, (c', w')).
Proof.
  unfold build. destruct (m (c, w)) as [[[]|e|y|] [c1 w1]]; intros H; try done.
  by injection H as -> ->.
Qed.

Lemma on_world_Ok {C A} (m : ST (world W) A) (c : C) w a s' :
  on_world m (c, w) = (Ok a, s') -> exists w', s' = (c, w') /\ m w = (Ok a, w').
Proof.
  unfold on_world. destruct (m w) as [r w'] eqn:E. intros [= -> <-]. by exists w'.
Qed.

Lemma create_resources_id pd c w c' w' :
  create_resources pd (c, w) = (Ok tt, (c', w')) -> c_id c' = c_id c.
Proof.
  unfold create_resources. intros H.
  apply ST_bind_Ok in H as (c0 & s0 & [= <- <-] & H).
  apply ST_bind_Ok in H as ([] & [c1 w1] & H1 & [= <- <-]). cbn.
  assert (Hm : forall (m : ST (Connection * world W) unit) cl s s', on_failure m cl s = (Ok tt, s') ->
    m s = (Ok tt, s')).
  { intros m cl s s'. unfold on_failure. by destruct (m s) as [[] ?]. }
  apply Hm in H1.
  apply ST_bind_Ok in H1 as (a1 & s2 & H2 & H1). apply on_world_Ok in H2 as (w2 & -> & _).
  apply ST_bind_Ok in H1 as (a2 & s3 & H3 & H1). apply on_world_Ok in H3 as (w3 & -> & _).
  apply ST_bind_Ok in H1 as (a3 & s4 & H4 & H1). apply on_world_Ok in H4 as (w4 & -> & _).
  apply ST_bind_Ok in H1 as ([] & s5 & [= <-] & H1).
  apply ST_bind_Ok in H1 as (a6 & s6 & H6 & H1). apply on_world_Ok in H6 as (w6 & -> & _).
  apply ST_bind_Ok in H1 as (a7 & s7 & H7 & H1). apply on_world_Ok in H7 as (w7 & -> & _).
  by apply on_world_Ok in H1 as (w8 & [= -> ->] & _).
Qed.

Lemma quiet_resolve_v4 addr : quiet (log (W := W)) (resolve_v4 addr).
Proof.
  unfold resolve_v4, to_socket_addrs. apply quiet_bind.
  - destruct addr; [|auto with quiet]. apply quiet_bind; [auto with quiet|].
    intros []; auto with quiet.
  - intros [|[] ?]; auto with quiet.
Qed.
Hint Resolve quiet_pd_alloc : quiet.

(** Peel off a quiet step on the shared state. *)
Ltac quiet_step H :=
  let a := fresh "a" in let s := fresh "s" in let w := fresh "w" in let H' := fresh "H" in
  apply ST_bind_Ok in H as (a & s & H' & H);
  apply on_world_Ok in H' as (w & -> & H');
  apply (quiet_elim log) in H'; [|solve [auto with quiet]].

(** C35: the connection manager protocol of the accepting side, as the
    code reads the listener's channel: a connection is accepted only if
    exactly two events were received, a successful connection request,
    whose identifier the connection takes over, and then a successful
    establishment. A second reader's request that arrives between the two
    makes the call fail instead. *)
Theorem accept_events l pd w c w' :
  accept_impl l pd w = (Ok c, w') ->
  exists req est, received (log w') = est :: req :: received (log w) /\
    is_event RDMA_CM_EVENT_CONNECT_REQUEST req /\ is_event RDMA_CM_EVENT_ESTABLISHED est /\
    c_id c = ev_id req.
Proof.
  unfold accept_impl, get_cm_event. intros H.
  apply ST_bind_Ok in H as ([ret ev] & w1 & H1 & H).
  apply ST_bind_Ok in H1 as (a & w2 & H2 & H1). rewrite call_after in H2. injection H2 as Ha <-.
  destruct a as [[ret' ev']|]; [|done]. injection H1 as -> -> <-.
  apply ST_bind_Ok in H as ([] & w2 & H2 & H). apply quiet_check in H2.
  apply ST_bind_Ok in H as (ack & w3 & H3 & H). apply quiet_call in H3; [|done].
  destruct (negb _ || _) eqn:E; [done|].
  apply ST_bind_Ok in H as ([] & w4 & H4 & H). apply quiet_check in H4.
  apply ST_bind_Ok in H as (cell & w5 & H5 & H). unfold cell_new in H5. injection H5 as <- <-.
  apply build_Ok in H.
  set (c0 := {| c_id := ev_id ev; c_event_channel := null |}) in *.
  set (w5 := World (env w4) _ _ _ _) in *.
  apply ST_bind_Ok in H as (ctx & s6 & H6 & H).
  apply on_world_Ok in H6 as (w6 & -> & H6). apply quiet_call in H6; [|done].
  apply ST_bind_Ok in H as (p & s7 & H7 & H).
  assert (exists w7, s7 = (c0, w7) /\ received (log w7) = received (log w6))
    as (w7 & -> & Hq7).
  { destruct pd as [p0|].
    - apply ST_bind_Ok in H7 as (pc & s8 & H8 & H7).
      apply on_world_Ok in H8 as (w8 & -> & H8). apply quiet_pd_context in H8.
      destruct (negb (pc =? ctx)); [done|].
      apply on_world_Ok in H7 as (w7 & -> & H7). apply quiet_pd_clone in H7.
      exists w7. split; congruence.
    - apply on_world_Ok in H7 as (w7 & -> & H7). apply quiet_pd_alloc in H7. by exists w7. }
  apply ST_bind_Ok in H as ([] & [c8 w8] & H8 & H).
  pose proof (create_resources_id _ _ _ _ _ H8) as Hid. apply quiet_create_resources in H8.
  apply ST_bind_Ok in H as (r9 & s9 & H9 & H).
  apply on_world_Ok in H9 as (w9 & -> & H9). apply quiet_call in H9; [|done].
  apply ST_bind_Ok in H as ([] & s10 & H10 & H).
  apply on_world_Ok in H10 as (w10 & -> & H10). apply quiet_check in H10.
  apply on_world_Ok in H as (w11 & [= -> ->] & H).
  apply wait_event_received in H as (est & Hest & H).
  exists ev, est. cbn [snd] in *. split_and!; [|split; bool_to_prop; tauto|done|done].
  rewrite H, H10, H9, H8, Hq7, H6. unfold w5. cbn [log]. rewrite H4, H3, H2. cbn. by rewrite Ha.
Qed.

(** The connecting side succeeds only if it received exactly the
    three events of a handshake, in order: address resolved, route
    resolved, established. *)
Theorem connect_events addr w c w' :
  connect addr w = (Ok c, w') ->
  exists resolved routed est, received (log w') = est :: routed :: resolved :: received (log w) /\
    is_event RDMA_CM_EVENT_ADDR_RESOLVED resolved /\
    is_event RDMA_CM_EVENT_ROUTE_RESOLVED routed /\ is_event RDMA_CM_EVENT_ESTABLISHED est.
Proof.
  unfold connect. intros H.
  apply ST_bind_Ok in H as ([octets port] & w1 & H1 & H). apply quiet_resolve_v4 in H1.
  apply ST_bind_Ok in H as (p & w2 & H2 & H). apply quiet_call in H2; [|done].
  apply ST_bind_Ok in H as (ch & w3 & H3 & H). apply quiet_check_ptr in H3.
  apply ST_bind_Ok in H as (cell & w4 & H4 & H). unfold cell_new in H4. injection H4 as <- <-.
  apply build_Ok in H. unfold connect_to in H.
  set (w4 := World (env w3) _ _ _ _) in *. assert (H4 : received (log w4) = received (log w3)) by done.
  clearbody w4.
  apply ST_bind_Ok in H as (c0 & s0 & [= <- <-] & H). cbn [c_event_channel] in H.
  apply ST_bind_Ok in H as ([ret id] & s5 & H5 & H).
  apply on_world_Ok in H5 as (w5 & -> & H5). apply quiet_call in H5; [|done].
  apply ST_bind_Ok in H as ([] & s6 & [= <-] & H).
  quiet_step H. quiet_step H. quiet_step H.
  apply ST_bind_Ok in H as ([] & u7 & K7 & H).
  apply on_world_Ok in K7 as (v7 & -> & K7). apply wait_event_received in K7 as (ev1 & Hev1 & K7).
  quiet_step H. quiet_step H.
  apply ST_bind_Ok in H as ([] & u8 & K8 & H).
  apply on_world_Ok in K8 as (v8 & -> & K8). apply wait_event_received in K8 as (ev2 & Hev2 & K8).
  quiet_step H. quiet_step H.
  apply ST_bind_Ok in H as ([] & [c9 v9] & K9 & H). apply quiet_create_resources in K9.
  cbn [snd] in K9. quiet_step H. quiet_step H.
  apply on_world_Ok in H as (v10 & [= -> ->] & H).
  apply wait_event_received in H as (ev3 & Hev3 & H).
  exists ev1, ev2, ev3. split_and!; [|done..]. congruence.
Qed.

(** ** One-sided operations *)

(** The work request of an operation. *)
Definition work_request (id opcode : Z) (mr : MemoryRegion) (remote_addr rkey len : Z) : IbvSendWr :=
  {| wr_id := id;
     wr_sge := {| sge_addr := mr_addr mr; sge_length := len mod 2 ^ 32; sge_lkey := mr_lkey mr |};
     wr_num_sge := 1; wr_opcode := opcode; wr_send_flags := IBV_SEND_SIGNALED;
     wr_imm_data := 0; wr_remote_addr := remote_addr; wr_rkey := rkey |}.

(** The last poll returned the completion of [id], with this status. *)
Definition polled (cq id : Z) (ok : bool) (l : list event) : Prop :=
  exists wc rest, l = Ev (PollCq cq 1) (1, wc) :: rest /\ wc_wr_id wc = id /\
    (wc_status wc =? IBV_WC_SUCCESS) = ok.

(** How the completion loop ends. *)
Definition poll_end (cq id deadline : Z) (r : res unit) (l : list event) : Prop :=
  match r with
  | Ok _ => polled cq id true l
  | Err e =>
      kind e = OtherKind /\ polled cq id false l \/
      kind e = OtherKind /\ (exists ret wc rest, l = Ev (PollCq cq 1) (ret, wc) :: rest /\ ret < 0) \/
      kind e = TimedOut /\ (exists now rest, l = Ev InstantNow now :: rest /\ deadline <= now)
  | Panic _ => overflow_checks = true /\ exists wc rest, l = Ev (PollCq cq 1) (- 2 ^ 31, wc) :: rest
  | Diverge => True
  end.

(** What the loop leaves alone. *)
Record same_stores w w' : Prop := {
  ss_log : exists later, log w' = later ++ log w;
  ss_sent : sent (log w') = sent (log w);
  ss_arcs : arcs w' = arcs w;
  ss_cells : cells w' = cells w;
}.

Lemma same_stores_after {T} (c : ccall T) w0 w :
  same_stores w0 w -> posted c = None -> same_stores w0 (after c w).
Proof.
  intros [[l D] A B C] Hc. split; cbn; [|by rewrite Hc|done|done].
  exists (Ev c (fst (exec c (env w))) :: l). cbn. by rewrite D.
Qed.

Lemma same_stores_refl w : same_stores w w.
Proof. split; [by exists []|done..]. Qed.

Lemma poll_loop_spec fuel cq id op deadline w0 w :
  same_stores w0 w ->
  let '(r, w') := poll_loop fuel cq id op deadline w in
  poll_end cq id deadline r (log w') /\ same_stores w0 w'.
Proof.
  revert w. induction fuel as [|fuel IH]; intros w H0; [done|]. cbn [poll_loop].
  rewrite (ST_bind_step _ _ _ _ _ (call_after _ w)).
  set (w1 := after (PollCq cq 1) w).
  assert (H1 : same_stores w0 w1) by (by apply same_stores_after).
  destruct (fst (exec (PollCq cq 1) (env w))) as [ret wc] eqn:Eret.
  assert (Hl : log w1 = Ev (PollCq cq 1) (ret, wc) :: log w) by (cbn; by rewrite Eret).
  clearbody w1. destruct (Z.ltb_spec ret 0) as [Hneg|Hpos].
  { destruct ((ret =? - 2 ^ 31) && overflow_checks) eqn:Eo.
    - st_cbn. split; [|done]. cbn. bool_to_prop. destruct Eo as [-> ->]. eauto.
    - st_cbn. unfold check. destruct (Z.eqb_spec (- ret) 0); [lia|]. split; [|done].
      cbn. right. left. eauto 10. }
  st_cbn. destruct ((ret =? 1) && (wc_wr_id wc =? id)) eqn:Eown.
  - bool_to_prop. destruct Eown as [-> Eid]. 
    destruct (wc_status wc =? IBV_WC_SUCCESS) eqn:Est; cbn [negb]; (split; [|done]).
    + exists wc, (log w). done.
    + left. split; [done|]. exists wc, (log w). done.
  - rewrite call_after. set (now := fst (exec InstantNow (env w1))).
    assert (H2 : same_stores w0 (after InstantNow w1)) by (by apply same_stores_after).
    destruct (Z.leb_spec deadline now) as [Hd|Hd].
    + split; [|done]. right. right. split; [done|]. exists now, (log w1). done.
    + by apply IH.
Qed.

(** A read or a write is refused, without any call, when it moves no
    bytes, more bytes than the local region holds, or uses a region of
    another protection domain. *)
Theorem one_sided_refuses fuel c op opcode mr remote_addr rkey len w pd i :
  c_pd c = Some pd -> arcs w !! pd = Some i ->
  len = 0 \/ mr_size mr < len \/ mr_pd mr <> pi_pd i ->
  exists e, one_sided fuel c op opcode mr remote_addr rkey len w = (Err e, w) /\
    kind e = InvalidInput.
Proof.
  intros Hc Hi Hbad. unfold one_sided.
  destruct (Z.eqb_spec len 0); [by eexists|].
  destruct (Z.ltb_spec (mr_size mr) len); [by eexists|].
  rewrite Hc. unfold pd_raw, arc_get. st_cbn. rewrite Hi.
  destruct (Z.eqb_spec (mr_pd mr) (pi_pd i)); [lia|by eexists].
Qed.

(** The operation up to its completion loop. *)
Lemma one_sided_post fuel c op opcode mr remote_addr rkey len w pd i id' :
  c_pd c = Some pd -> arcs w !! pd = Some i ->
  len <> 0 -> len <= mr_size mr -> mr_pd mr = pi_pd i ->
  let id := default 0 (cells w !! c_next_wr_id c) in
  uint_add 64 id 1 = Ok id' ->
  let wr := work_request id opcode mr remote_addr rkey len in
  exists w1 qp ret, log w1 = Ev (PostSend qp wr) ret :: Ev (IdQp (c_id c)) qp :: log w /\
    arcs w1 = arcs w /\ cells w1 = <[c_next_wr_id c := id']> (cells w) /\
    one_sided fuel c op opcode mr remote_addr rkey len w =
      if ret =? 0 then
        poll_loop fuel (c_cq c) id op (fst (exec InstantNow (env w1)) + POLL_TIMEOUT)
          (after InstantNow w1)
      else (Err (error_other "{call} failed: {os error}" [FText (rstr "ibv_post_send"); FInt ret]), w1).
Proof.
  intros Hc Hi Hlen Hsize Hpd id Hid wr.
  set (w0 := World (env w) (log w) (arcs w) (<[c_next_wr_id c := id']> (cells w)) (next_loc w)).
  set (qp := fst (exec (IdQp (c_id c)) (env w))).
  exists (after (PostSend qp wr) (after (IdQp (c_id c)) w0)), qp,
    (fst (exec (PostSend qp wr) (env (after (IdQp (c_id c)) w0)))).
  split_and!; [done|done|done|].
  unfold one_sided. rewrite (proj2 (Z.eqb_neq _ _) Hlen), (proj2 (Z.ltb_ge _ _) Hsize), Hc.
  unfold pd_raw, arc_get, cell_get, cell_set. st_cbn. rewrite Hi. st_cbn.
  rewrite Hpd, Z.eqb_refl. cbn [negb]. fold id. rewrite Hid.
  st_cbn. fold w0. rewrite call_after. change (env w0) with (env w). fold qp.
  change ({| wr_id := id |}) with wr. rewrite call_after.
  set (w2 := after (PostSend qp wr) _). unfold check.
  change (env (after (IdQp (c_id c)) w0)) with (snd (exec (IdQp (c_id c)) (env w))).
  destruct (fst (exec (PostSend qp wr) _) =? 0); [|done]. st_cbn. by rewrite call_after.
Qed.

(** An operation that passed the checks. *)
Lemma one_sided_result fuel c op opcode mr remote_addr rkey len w pd i id' :
  c_pd c = Some pd -> arcs w !! pd = Some i ->
  len <> 0 -> len <= mr_size mr -> mr_pd mr = pi_pd i ->
  let id := default 0 (cells w !! c_next_wr_id c) in
  uint_add 64 id 1 = Ok id' ->
  let wr := work_request id opcode mr remote_addr rkey len in
  let '(r, w') := one_sided fuel c op opcode mr remote_addr rkey len w in
  exists qp, sent (log w') = (qp, wr) :: sent (log w) /\
    arcs w' = arcs w /\ cells w' = <[c_next_wr_id c := id']> (cells w) /\
    ((exists ret, ret <> 0 /\
        r = Err (error_other "{call} failed: {os error}" [FText (rstr "ibv_post_send"); FInt ret])) \/
     exists start later earlier,
       log w' = later ++ Ev InstantNow start :: Ev (PostSend qp wr) 0 :: earlier /\
       poll_end (c_cq c) id (start + POLL_TIMEOUT) r (log w')).
Proof.
  intros Hc Hi Hlen Hsize Hpd id Hid wr.
  destruct (one_sided_post fuel c op opcode mr remote_addr rkey len w pd i id' Hc Hi Hlen Hsize Hpd Hid)
    as (w1 & qp & ret & Hl & Ha & Hcells & ->). fold id wr in Hl.
  destruct (Z.eqb_spec ret 0) as [E|E].
  - pose proof (poll_loop_spec fuel (c_cq c) id op
      (fst (exec InstantNow (env w1)) + POLL_TIMEOUT) (after InstantNow w1) (after InstantNow w1)) as H.
    fold id. destruct (poll_loop _ _ _ _ _ _) as [r w'].
    destruct H as [Hend [[later Hlog] A B C]]; [apply same_stores_refl|].
    exists qp. split_and!; [by rewrite A; cbn; rewrite Hl|by rewrite B|by rewrite C|].
    right. exists (fst (exec InstantNow (env w1))), later, (Ev (IdQp (c_id c)) qp :: log w).
    split; [|done]. rewrite Hlog. cbn. by rewrite Hl, E.
  - exists qp. split_and!; [by rewrite Hl|done|done|]. left. by exists ret.
Qed.

(** C9: what a read or a write does: exactly one work request is posted,
    for the given local region, remote address and key, its length taken
    modulo 2^32, under an identifier the connection has not used before;
    success means that the completion of this very request, reporting
    success, was polled from the connection's queue; failure, that it was
    refused by the post, reported a failure, that polling failed, or that
    a full [POLL_TIMEOUT] passed since the request was posted. *)
Theorem one_sided_outcome fuel c op opcode mr remote_addr rkey len w pd i :
  c_pd c = Some pd -> arcs w !! pd = Some i ->
  len <> 0 -> len <= mr_size mr -> mr_pd mr = pi_pd i ->
  let id := default 0 (cells w !! c_next_wr_id c) in
  fits 64 (id + 1) ->
  let wr := work_request id opcode mr remote_addr rkey len in
  let '(r, w') := one_sided fuel c op opcode mr remote_addr rkey len w in
  exists qp, sent (log w') = (qp, wr) :: sent (log w) /\
    arcs w' = arcs w /\ cells w' = <[c_next_wr_id c := id + 1]> (cells w) /\
    ((exists ret, ret <> 0 /\
        r = Err (error_other "{call} failed: {os error}" [FText (rstr "ibv_post_send"); FInt ret])) \/
     exists start later earlier,
       log w' = later ++ Ev InstantNow start :: Ev (PostSend qp wr) 0 :: earlier /\
       poll_end (c_cq c) id (start + POLL_TIMEOUT) r (log w')).
Proof.
  intros Hc Hi Hlen Hsize Hpd id Hid.
  exact (one_sided_result fuel c op opcode mr remote_addr rkey len w pd i (id + 1) Hc Hi Hlen Hsize
    Hpd (uint_add_fits _ _ _ Hid)).
Qed.

(** Whatever the arguments: at most one work request is posted, and
    success means exactly one. *)
Lemma one_sided_sends fuel c op opcode mr remote_addr rkey len w pd i :
  c_pd c = Some pd -> arcs w !! pd = Some i ->
  let '(r, w') := one_sided fuel c op opcode mr remote_addr rkey len w in
  (sent (log w') = sent (log w) /\ r <> Ok tt) \/
  exists qp id, sent (log w') =
    (qp, work_request id opcode mr remote_addr rkey len) :: sent (log w) /\
    len <> 0 /\ len <= mr_size mr.
Proof.
  intros Hc Hi.
  destruct (decide (len = 0 \/ mr_size mr < len \/ mr_pd mr <> pi_pd i)) as [Hbad|Hgood].
  { unfold one_sided.
    destruct (Z.eqb_spec len 0); [by left|]. destruct (Z.ltb_spec (mr_size mr) len); [by left|].
    rewrite Hc. unfold pd_raw, arc_get. st_cbn. rewrite Hi.
    destruct (Z.eqb_spec (mr_pd mr) (pi_pd i)); [lia|by left]. }
  destruct (decide (mr_pd mr = pi_pd i)) as [Hpd|]; [|lia].
  set (id := default 0 (cells w !! c_next_wr_id c)).
  destruct (uint_add 64 id 1) as [id'|e|y|] eqn:Eid.
  - pose proof (one_sided_result fuel c op opcode mr remote_addr rkey len w pd i id' Hc Hi
      ltac:(lia) ltac:(lia) Hpd Eid) as H.
    destruct (one_sided _ _ _ _ _ _ _ _ w) as [r w']. destruct H as (qp & H & _).
    right. exists qp, id. split; [done|lia].
  - unfold uint_add in Eid.
    destruct (overflowed_cases 64 (id + 1) "attempt to add with overflow") as
      [[_ E]|[(_ & _ & E)|(_ & _ & E)]]; congruence.
  - unfold one_sided. destruct (Z.eqb_spec len 0); [by left|].
    destruct (Z.ltb_spec (mr_size mr) len); [by left|].
    rewrite Hc. unfold pd_raw, arc_get, cell_get. st_cbn. rewrite Hi. st_cbn.
    rewrite Hpd, Z.eqb_refl. cbn [negb]. fold id. rewrite Eid. by left.
  - unfold uint_add in Eid.
    destruct (overflowed_cases 64 (id + 1) "attempt to add with overflow") as
      [[_ E]|[(_ & _ & E)|(_ & _ & E)]]; congruence.
Qed.

(** *** Termination *)

(** Reading the clock: it never goes back, and each reading is at least a
    nanosecond later than the one before. *)
Record clock_law (clock : W -> Z) : Prop := {
  clock_read : forall e, fst (exec InstantNow e) = clock e;
  clock_mono : forall T (c : ccall T) e, clock e <= clock (snd (exec c e));
  clock_tick : forall e, clock e + 1 <= clock (snd (exec InstantNow e));
}.

Lemma poll_loop_returns clock fuel cq id op deadline w :
  clock_law clock -> Z.max 0 (deadline - clock (env w)) < Z.of_nat fuel ->
  fst (poll_loop fuel cq id op deadline w) <> Diverge.
Proof.
  intros Hclock. revert w. induction fuel as [|fuel IH]; intros w Hf; [lia|]. cbn [poll_loop].
  rewrite (ST_bind_step _ _ _ _ _ (call_after _ w)).
  pose proof (clock_mono _ Hclock _ (PollCq cq 1) (env w)) as H1.
  change (snd (exec (PollCq cq 1) (env w))) with (env (after (PollCq cq 1) w)) in H1.
  set (w1 := after (PollCq cq 1) w) in *.
  destruct (fst (exec (PollCq cq 1) (env w))) as [ret wc]. clearbody w1.
  destruct (ret <? 0) eqn:Eneg.
  { destruct ((ret =? - 2 ^ 31) && overflow_checks); [done|]. st_cbn. unfold check.
    destruct (Z.eqb_spec (- ret) 0); [|done]. bool_to_prop. lia. }
  st_cbn. destruct ((ret =? 1) && (wc_wr_id wc =? id)).
  { by destruct (negb _). }
  rewrite call_after, (clock_read _ Hclock).
  destruct (Z.leb_spec deadline (clock (env w1))) as [Hd|Hd]; [done|].
  apply IH. pose proof (clock_tick _ Hclock (env w1)) as H2.
  change (snd (exec InstantNow (env w1))) with (env (after InstantNow w1)) in H2. lia.
Qed.

End ops.

(** ** Witnesses *)
Definition listening_world (events : list Z) : world sim :=
  World (s_with_listening (env (sample_world events)) [5]) [] ∅ ∅ 0.
Definition sample_listener : Listener := {| l_id := 0; l_event_channel := 5 |}.

Lemma accept_events_witness :
  (exists c w' req est, accept_impl sample_listener None (listening_world [4; 9]) = (Ok c, w') /\
     received (log w') = [est; req] /\ c_id c = ev_id req) /\
  (exists e w', accept_impl sample_listener None (listening_world [4; 4; 9]) = (Err e, w') /\
     length (received (log w')) = 2%nat).
Proof.
  split.
  - destruct (accept_impl sample_listener None (listening_world [4; 9])) as [[c|e|y|] w'] eqn:E;
      try (vm_compute in E; discriminate E).
    destruct (accept_events _ _ _ _ _ E) as (req & est & H & _ & _ & Hid).
    exists c, w', req, est. split; [reflexivity|]. split; [exact H|exact Hid].
  - do 2 eexists. split; [vm_compute; reflexivity|]. reflexivity.
Defined.

Lemma connect_events_witness :
  exists c w' a b d, connect sample_addr (sample_world [0; 2; 9]) = (Ok c, w') /\
    received (log w') = [d; b; a] /\ ev_event d = 9.
Proof.
  destruct (connect sample_addr (sample_world [0; 2; 9])) as [[c|e|y|] w'] eqn:E;
    try (vm_compute in E; discriminate E).
  destruct (connect_events _ _ _ _ E) as (a & b & d & H & _ & _ & [Hd _]).
  exists c, w', a, b, d. split; [reflexivity|]. split; [exact H|exact Hd].
Defined.

(** A region of 8 GiB in the domain of [sample_conn]. *)
Definition sample_mr : MemoryRegion :=
  {| mr_mr := 9; mr_pd := 4; mr_addr := 4096; mr_size := 2 ^ 33; mr_lkey := 9; mr_rkey := 9 |}.

Lemma one_sided_refuses_witness :
  exists e, one_sided (P := true) 9 sample_conn "read" IBV_WR_RDMA_READ sample_mr 64 3
    (2 ^ 33 + 1) conn_world = (Err e, conn_world) /\ kind e = InvalidInput.
Proof.
  apply (one_sided_refuses (P := true) 9 sample_conn "read" IBV_WR_RDMA_READ sample_mr 64 3 (2 ^ 33 + 1)
    conn_world 0 {| pi_context := 7; pi_pd := 4; pi_refs := 1 |}); [done|done|].
  right. left. by vm_compute.
Defined.

(** A read of 4 GiB and 8 bytes succeeds; it asked for 8 bytes. *)
Lemma one_sided_outcome_witness :
  exists w' qp, one_sided (P := true) 9 sample_conn "read" IBV_WR_RDMA_READ sample_mr 64 3
      (2 ^ 32 + 8) conn_world = (Ok tt, w') /\
    sent (log w') = [(qp, work_request 0 IBV_WR_RDMA_READ sample_mr 64 3 (2 ^ 32 + 8))] /\
    sge_length (wr_sge (work_request 0 IBV_WR_RDMA_READ sample_mr 64 3 (2 ^ 32 + 8))) = 8.
Proof.
  pose proof (one_sided_outcome (P := true) 9 sample_conn "read" IBV_WR_RDMA_READ sample_mr 64 3
    (2 ^ 32 + 8) conn_world 0 {| pi_context := 7; pi_pd := 4; pi_refs := 1 |} eq_refl eq_refl
    ltac:(done) ltac:(vm_compute; discriminate) eq_refl ltac:(vm_compute; done)) as H.
  destruct (one_sided _ _ _ _ _ _ _ _ conn_world) as [r w'] eqn:E.
  destruct H as (qp & H & _). exists w', qp. split_and!; [|done|done].
  f_equal. vm_compute in E. by injection E as <- _.
Defined.

