(* ===== verification/Providers.v ===== *)
(** * The sharing side (src/providers.rs)

    The provider of shared regions: registration, the tuples of the
    groups, the metadata service with its handshake and update sessions,
    and the drop. *)
From S2P Require Import Prelude Pod Meta Verbs.

(** A Rust type: its layout, [type_name] and [TypeId]. *)
Record rtype := { rt_layout : ty; rt_name : rstring; rt_id : Z }.

(** A [Vec<T>] moved in: where its buffer is, and its elements. *)
Record rvec := { v_type : rtype; v_ptr : ptr; v_elems : list (list byte) }.

(** [type_name] and layout of [u8]. *)
Definition u8_type : rtype := {| rt_layout := TScalar U8; rt_name := rstr "u8"; rt_id := 0 |}.

Record SharedMemoryRegionMetadata := { sm_name : rstring; sm_buffer : rvec }.
Definition metadata_new (name : rstring) (buffer : rvec) : SharedMemoryRegionMetadata :=
  {| sm_name := name; sm_buffer := buffer |}.

Record SharedMemoryRegionProviderAddr := { pa_rdma_port : Z; pa_tcp_port : Z }.
Definition provider_addr_new (rdma_port tcp_port : Z) : SharedMemoryRegionProviderAddr :=
  {| pa_rdma_port := rdma_port; pa_tcp_port := tcp_port |}.

(** [Rc<RefCell<Box<dyn Any>>>]: the value, its active borrows (-1: a
    mutable one) and its owners. *)
Record Owner := { ow_box : rvec; ow_borrows : Z; ow_refs : Z }.

Record RegionInfo := {
  ri_name : rstring;
  ri_remote_addr : Z;
  ri_size : Z;
  ri_elem_size : Z;
  ri_elem_align : Z;
  ri_elem_type : rstring;
}.

(** [GroupEntry]: the domain's handle and the accepted connections. *)
Record GroupEntry := { ge_pd : Z; ge_connections : list Connection }.

Record Shared := {
  catalog : gmap Z RegionInfo;
  groups : gmap Z GroupEntry;
  tuples : gmap (Z * Z) MemoryRegion;
}.

(** The order in which a [HashMap] is traversed: any. *)
Class HashOrder := {
  iter_catalog : gmap Z RegionInfo -> list (Z * RegionInfo);
  iter_groups : gmap Z GroupEntry -> list (Z * GroupEntry);
  iter_tuples : gmap (Z * Z) MemoryRegion -> list (Z * Z * MemoryRegion);
}.

(** Every entry is visited once. *)
Class HashOrderOk `{HashOrder} := {
  iter_catalog_perm : forall m, iter_catalog m ≡ₚ map_to_list m;
  iter_groups_perm : forall m, iter_groups m ≡ₚ map_to_list m;
  iter_tuples_perm : forall m, iter_tuples m ≡ₚ map_to_list m;
}.

(** [SERVICE_POLL], in milliseconds. *)
Definition SERVICE_POLL : Z := 100.

(** [SessionThread], with the thread it runs on. *)
Record SessionThread := { ss_thread : Z; ss_channel : Channel; ss_group : Z }.

Record Service := {
  sv_shutdown : Z;
  sv_tcp : Z;
  sv_rdma : Listener;
  sv_sessions : list SessionThread;
}.

(** [ServiceThread]; [st_service] is what the thread was started with. *)
Record ServiceThread := { st_handle : Z; st_shutdown : Z; st_service : Service }.

Record SharedMemoryRegionProvider := {
  p_addr : SharedMemoryRegionProviderAddr;
  p_shared : Shared;
  p_owners : gmap Z Z;
  p_service : option ServiceThread;
  p_next_id : Z;
}.

Record SharedMemoryRegionHandle := { h_id : Z; h_owner : Z; h_view : rtype }.

Definition shared_new : Shared := {| catalog := ∅; groups := ∅; tuples := ∅ |}.

(** [SharedMemoryRegionProvider::new] *)
Definition provider_new (addr : SharedMemoryRegionProviderAddr) : SharedMemoryRegionProvider :=
  {| p_addr := addr; p_shared := shared_new; p_owners := ∅; p_service := None; p_next_id := 0 |}.

Section shared.
Context {P : Profile} {W : Type} {V : Verbs W} {HO : HashOrder}.
Abbreviation M := (ST (world W)).

(** The state behind the three locks, and the libraries. *)
Abbreviation MS := (ST (Shared * world W)).
Definition shared : MS Shared := fun '(s, w) => (Ok s, (s, w)).
Definition set_groups (g : gmap Z GroupEntry) : MS unit := fun '(s, w) =>
  (Ok tt, ({| catalog := catalog s; groups := g; tuples := tuples s |}, w)).
Definition set_tuples (t : gmap (Z * Z) MemoryRegion) : MS unit := fun '(s, w) =>
  (Ok tt, ({| catalog := catalog s; groups := groups s; tuples := t |}, w)).

(** [self.tuples.lock().unwrap().insert(key, mr)]; a replaced
    registration is dropped. *)
Definition tuples_insert (key : Z * Z) (mr : MemoryRegion) : MS unit :=
  s ← shared;
  set_tuples (<[key := mr]> (tuples s));;
  match tuples s !! key with
  | Some old => on_world (mr_drop old)
  | None => mret tt
  end.

(** [Shared::tuple_of] *)
Definition tuple_of (id group : Z) : MS (option (Z * Z * Z)) :=
  s ← shared;
  match tuples s !! (id, group) with
  | Some mr => mret (Some (mr_addr mr, mr_size mr, mr_rkey mr))
  | None =>
    s ← shared;
    match groups s !! group with
    | None => mret None
    | Some entry =>
      pd ← on_world (pd_clone (ge_pd entry));
      finally
        (s ← shared;
         match catalog s !! id with
         | None => mret None
         | Some entry =>
           mr ← on_world (pd_register_addr pd (ri_remote_addr entry) (ri_size entry));
           let tuple := (mr_addr mr, mr_size mr, mr_rkey mr) in
           tuples_insert (id, group) mr;;
           mret (Some tuple)
         end)
        (on_world (pd_drop pd))
    end
  end.

(** [Shared::catalog_and_tuples]; a region whose tuple fails is listed
    without one. *)
Definition region_desc (id : Z) (info : RegionInfo) : RegionDesc :=
  {| rd_id := id; rd_name := ri_name info; rd_size := ri_size info;
     rd_elem_size := ri_elem_size info; rd_elem_align := ri_elem_align info;
     rd_elem_type := ri_elem_type info |}.

Definition catalog_and_tuples (group : Z) : MS (Message * Message) :=
  s ← shared;
  '(regions, descs) ← for_each (iter_catalog (catalog s))
    (fun '(id, info) '(regions, descs) =>
       r ← catch (tuple_of id group);
       mret (regions ++ [region_desc id info],
             match r with
             | inl (Some (remote_addr, size, rkey)) =>
                 descs ++ [{| td_region_id := id; td_remote_addr := remote_addr;
                              td_size := size; td_rkey := rkey |}]
             | _ => descs
             end))
    ([], []);
  mret (Metadata regions, Tuples group descs).

(** ** The service *)

(** The rendezvous of [Service::handshake], over an open channel: greet,
    join a group, accept into its domain, serve the catalog and the
    tuples. Returns the group. *)
Abbreviation MH := (ST (Channel * (Shared * world W))).

Definition greet : MH unit :=
  msg ← on_fst channel_receive;
  match msg with
  | Hello version =>
      if version =? PROTOCOL_VERSION then on_fst (channel_send (Welcome version))
      else fail (error_other "the reader speaks protocol version {version}, not {PROTOCOL_VERSION}"
                   [FInt version; FInt PROTOCOL_VERSION])
  | _ => fail (error_other "expected a greeting, got {other:?}" [])
  end.

Definition join_group : MH Z :=
  msg ← on_fst channel_receive;
  match msg with
  | WantGroup group => mret group
  | _ => fail (error_other "expected a group join, got {other:?}" [])
  end.

(** Accept the reader into its group's domain, and enter the connection
    into the group, created on first use. *)
Definition rendezvous (rdma : Listener) (group : Z) : MS unit :=
  s ← shared;
  group_pd ← match groups s !! group with
             | Some entry => pd ← on_world (pd_clone (ge_pd entry)); mret (Some pd)
             | None => mret None
             end;
  connection ← match group_pd with
               | Some pd => on_world (finally (accept_into rdma pd) (pd_drop pd))
               | None => on_world (accept rdma)
               end;
  s ← shared;
  entry ← match groups s !! group with
          | Some entry => mret entry
          | None =>
              pd ← on_failure (on_world (protection_domain connection))
                     (on_world (conn_drop connection));
              mret {| ge_pd := pd; ge_connections := [] |}
          end;
  set_groups (<[group := {| ge_pd := ge_pd entry;
                            ge_connections := ge_connections entry ++ [connection] |}]> (groups s)).

(** Send the two messages of an exchange. *)
Definition send_exchange (exchange : Message * Message) : ST Channel unit :=
  channel_send (fst exchange);; channel_send (snd exchange).

Definition handshake_body (rdma : Listener) : MH Z :=
  greet;;
  group ← join_group;
  on_snd (rendezvous rdma group);;
  exchange ← on_snd (catalog_and_tuples group);
  on_fst (send_exchange exchange);;
  mret group.

(** [Service::handshake]: the channel then moves to a session thread. *)
Abbreviation MV := (ST (Service * (Shared * world W))).
Definition service : MV Service := fun '(v, s) => (Ok v, (v, s)).
Definition set_sessions (l : list SessionThread) : MV unit := fun '(v, s) =>
  (Ok tt, ({| sv_shutdown := sv_shutdown v; sv_tcp := sv_tcp v; sv_rdma := sv_rdma v;
              sv_sessions := l |}, s)).

Definition handshake (stream : TcpStream) : MV unit :=
  channel ← lift (channel_new stream);
  v ← service;
  '(group, channel) ← on_snd (with_local channel (handshake_body (sv_rdma v)));
  thread ← on_snd (on_world (call Spawn));
  v ← service;
  set_sessions (sv_sessions v ++
    [{| ss_thread := thread; ss_channel := channel; ss_group := group |}]).

(** [SessionThread::wait_for_updates]; [fuel] bounds the rounds, running
    out of it is [Diverge]. *)
Fixpoint wait_for_updates (fuel : nat) (shutdown group : Z) : MH unit :=
  match fuel with
  | O => diverge
  | S fuel =>
    '(stop : bool) ← on_snd (on_world (call (LoadFlag shutdown)));
    if stop then mret tt else
    msg ← catch (on_fst channel_receive);
    match msg with
    | inl Update =>
        '(catalog, tuples) ← on_snd (catalog_and_tuples group);
        r1 ← catch (on_fst (channel_send catalog));
        match r1 with
        | inr _ => mret tt
        | inl _ =>
            r2 ← catch (on_fst (channel_send tuples));
            match r2 with
            | inr _ => mret tt
            | inl _ => wait_for_updates fuel shutdown group
            end
        end
    | _ => mret tt
    end
  end.

(** [self.sessions.retain(|handle| !handle.is_finished())] *)
Fixpoint retain_running (l : list SessionThread) : MV (list SessionThread) :=
  match l with
  | [] => mret []
  | x :: l =>
      '(finished : bool) ← on_snd (on_world (call (ThreadFinished (ss_thread x))));
      l ← retain_running l;
      mret (if finished then l else x :: l)
  end.

(** The accept loop of [Service::run], in rounds. *)
Fixpoint accept_loop (fuel : nat) : MV unit :=
  match fuel with
  | O => diverge
  | S fuel =>
    v ← service;
    '(stop : bool) ← on_snd (on_world (call (LoadFlag (sv_shutdown v))));
    if stop then mret tt else
    r ← on_snd (on_world (call (TcpAccept (sv_tcp v))));
    match r with
    | inl stream => _ ← catch (handshake stream); mret tt
    | inr _ => on_snd (on_world (call (Sleep SERVICE_POLL)))
    end;;
    v ← service;
    l ← retain_running (sv_sessions v);
    set_sessions l;;
    accept_loop fuel
  end.

(** [Service::run], with the drop of the listeners at its end. *)
Definition run (fuel : nat) : MV unit :=
  accept_loop fuel;;
  v ← service;
  for_each (sv_sessions v)
    (fun session _ => on_snd (on_world (call (Join (ss_thread session))))) tt;;
  set_sessions [];;
  on_snd (on_world (call (TcpClose (sv_tcp v))));;
  on_snd (on_world (listener_drop (sv_rdma v))).
End shared.

(** ** The provider *)
Section provider.
Context {P : Profile} {W : Type} {V : Verbs W} {HO : HashOrder}.

(** The provider, the buffers it co-owns with the handles (by
    location), and the libraries. *)
Abbreviation MP := (ST (SharedMemoryRegionProvider * (gmap Z Owner * world W))).
Abbreviation MO := (ST (gmap Z Owner * world W)).

Definition provider : MP SharedMemoryRegionProvider := fun '(p, s) => (Ok p, (p, s)).
Definition set_provider (p : SharedMemoryRegionProvider) : MP unit := fun '(_, s) =>
  (Ok tt, (p, s)).

(** A method of [self.shared]. *)
Definition on_shared {A} (m : ST (Shared * world W) A) : MP A := fun '(p, (h, w)) =>
  let '(r, (s, w')) := m (p_shared p, w) in
  (r, ({| p_addr := p_addr p; p_shared := s; p_owners := p_owners p; p_service := p_service p;
          p_next_id := p_next_id p |}, (h, w'))).

(** [Rc::new], [Rc::clone] and the drop of an [Rc]: the last one frees
    the buffer. *)
Definition owner_new (o : Owner) : MO Z := fun '(h, w) =>
  (Ok (next_loc w),
   (<[next_loc w := o]> h, World (env w) (log w) (arcs w) (cells w) (next_loc w + 1))).
Definition owner_get (l : Z) : MO Owner := fun '(h, w) =>
  match h !! l with Some o => (Ok o, (h, w)) | None => (Panic "dangling Rc", (h, w)) end.
Definition owner_set (l : Z) (o : Owner) : MO unit := fun '(h, w) => (Ok tt, (<[l := o]> h, w)).
Definition owner_free (l : Z) : MO unit := fun '(h, w) => (Ok tt, (delete l h, w)).
Definition owner_clone (l : Z) : MO Z :=
  o ← owner_get l;
  owner_set l {| ow_box := ow_box o; ow_borrows := ow_borrows o; ow_refs := ow_refs o + 1 |};;
  mret l.
Definition owner_drop (l : Z) : MO unit :=
  o ← owner_get l;
  if ow_refs o =? 1 then owner_free l
  else owner_set l {| ow_box := ow_box o; ow_borrows := ow_borrows o; ow_refs := ow_refs o - 1 |}.

(** [register_typed]; [T] is the type of the vector. *)
Definition register_typed (name : rstring) (buffer : rvec) : MP SharedMemoryRegionHandle :=
  let T := v_type buffer in
  if negb (0 <? size_of (rt_layout T)) then panic "cannot share a Vec of zero-sized elements" else
  p ← provider;
  let id := p_next_id p in
  next ← lift (uint_add 32 id 1);
  set_provider {| p_addr := p_addr p; p_shared := p_shared p; p_owners := p_owners p;
                  p_service := p_service p; p_next_id := next |};;
  let remote_addr := as_u64 (v_ptr buffer) in
  size ← lift (uint_mul 64 (zlen (v_elems buffer)) (size_of (rt_layout T)));
  owner ← on_snd (owner_new {| ow_box := buffer; ow_borrows := 0; ow_refs := 1 |});
  handle_owner ← on_snd (owner_clone owner);
  let handle := {| h_id := id; h_owner := handle_owner; h_view := T |} in
  entry_owner ← on_snd (owner_clone owner);
  p ← provider;
  set_provider {| p_addr := p_addr p; p_shared := p_shared p;
                  p_owners := <[id := entry_owner]> (p_owners p);
                  p_service := p_service p; p_next_id := p_next_id p |};;
  match p_owners p !! id with
  | Some old => on_snd (owner_drop old)
  | None => mret tt
  end;;
  on_shared (fun '(s, w) => (Ok tt,
    ({| catalog := <[id := {| ri_name := name; ri_remote_addr := remote_addr; ri_size := size;
                              ri_elem_size := as_u32 (size_of (rt_layout T));
                              ri_elem_align := as_u32 (align_of (rt_layout T));
                              ri_elem_type := rt_name T |}]> (catalog s);
        groups := groups s; tuples := tuples s |}, w)));;
  on_snd (owner_drop owner);;
  mret handle.

(** [register] *)
Definition register_region (metadata : SharedMemoryRegionMetadata) : MP SharedMemoryRegionHandle :=
  register_typed (sm_name metadata) (sm_buffer metadata).

(** [get_shared_mr] *)
Definition get_shared_mr (id group : Z) : MP (option (Z * Z * Z)) := on_shared (tuple_of id group).

(** [serve]: bind both ports, start the service. *)
Definition serve : MP unit :=
  p ← provider;
  match p_service p with
  | Some _ => fail (invalid "the provider is already serving" [])
  | None =>
    r ← on_snd (on_snd (call (TcpBind (pa_tcp_port (p_addr p)))));
    match r with
    | inr e => fail e
    | inl tcp =>
      rdma_listener ← on_failure
        (on_snd (on_snd (bind (Sock (V4 [0; 0; 0; 0] (pa_rdma_port (p_addr p)))))))
        (on_snd (on_snd (call (TcpClose tcp))));
      shutdown ← on_snd (on_snd (cell_new 0));
      let service := {| sv_shutdown := shutdown; sv_tcp := tcp; sv_rdma := rdma_listener;
                        sv_sessions := [] |} in
      handle ← on_snd (on_snd (call Spawn));
      set_provider {| p_addr := p_addr p; p_shared := p_shared p; p_owners := p_owners p;
        p_service := Some {| st_handle := handle; st_shutdown := shutdown; st_service := service |};
        p_next_id := p_next_id p |}
    end
  end.

(** [ServiceThread::stop] *)
Definition service_stop (t : ServiceThread) : ST (world W) unit :=
  call (StoreFlag (st_shutdown t) true);; call (Join (st_handle t)).

(** [self.shared.tuples.lock().unwrap().clear()] *)
Definition tuples_clear : ST (Shared * world W) unit :=
  s ← shared;
  set_tuples ∅;;
  for_each (iter_tuples (tuples s)) (fun '(_, mr) _ => on_world (mr_drop mr)) tt.

(** The drop of a [GroupEntry]: the handle, then the connections. *)
Definition group_drop (g : GroupEntry) : ST (world W) unit :=
  pd_drop (ge_pd g);; for_each (ge_connections g) (fun c _ => conn_drop c) tt.

(** The drop of [Shared] by its last owner: the service and its sessions
    have ended, and with them their clones. *)
Definition shared_drop : ST (Shared * world W) unit :=
  s ← shared;
  set_groups ∅;;
  for_each (iter_groups (groups s)) (fun '(_, g) _ => on_world (group_drop g)) tt;;
  tuples_clear.

(** [Drop for SharedMemoryRegionProvider], then the drop of its
    fields. *)
Definition provider_drop : MP unit :=
  p ← provider;
  match p_service p with
  | Some t =>
      set_provider {| p_addr := p_addr p; p_shared := p_shared p; p_owners := p_owners p;
                      p_service := None; p_next_id := p_next_id p |};;
      on_snd (on_snd (service_stop t))
  | None => mret tt
  end;;
  on_shared tuples_clear;;
  on_shared shared_drop;;
  p ← provider;
  for_each (map_to_list (p_owners p)) (fun '(_, l) _ => on_snd (owner_drop l)) tt.

(** ** Handles *)

(** [SharedMemoryRegionHandle::id] *)
Definition handle_id (h : SharedMemoryRegionHandle) : Z := h_id h.

(** [borrow] and the drop of its [Ref]; [borrow_mut], a store through it
    and the drop of its [RefMut]. *)
Definition handle_borrow (h : SharedMemoryRegionHandle) : MO (list (list byte)) :=
  o ← owner_get (h_owner h);
  if ow_borrows o <? 0 then panic "already mutably borrowed" else
  if negb (rt_id (v_type (ow_box o)) =? rt_id (h_view h))
  then panic "the handle's type matches its registration" else
  owner_set (h_owner h)
    {| ow_box := ow_box o; ow_borrows := ow_borrows o + 1; ow_refs := ow_refs o |};;
  mret (v_elems (ow_box o)).

Definition ref_drop (h : SharedMemoryRegionHandle) : MO unit :=
  o ← owner_get (h_owner h);
  owner_set (h_owner h)
    {| ow_box := ow_box o; ow_borrows := ow_borrows o - 1; ow_refs := ow_refs o |}.

Definition handle_borrow_mut (h : SharedMemoryRegionHandle) : MO (list (list byte)) :=
  o ← owner_get (h_owner h);
  if negb (ow_borrows o =? 0) then panic "already borrowed" else
  if negb (rt_id (v_type (ow_box o)) =? rt_id (h_view h))
  then panic "the handle's type matches its registration" else
  owner_set (h_owner h) {| ow_box := ow_box o; ow_borrows := -1; ow_refs := ow_refs o |};;
  mret (v_elems (ow_box o)).

Definition ref_mut_store (h : SharedMemoryRegionHandle) (i : nat) (x : list byte) : MO unit :=
  o ← owner_get (h_owner h);
  _ ← lift (index (v_elems (ow_box o)) i);
  owner_set (h_owner h)
    {| ow_box := {| v_type := v_type (ow_box o); v_ptr := v_ptr (ow_box o);
                    v_elems := <[i := x]> (v_elems (ow_box o)) |};
       ow_borrows := ow_borrows o; ow_refs := ow_refs o |}.

Definition ref_mut_drop (h : SharedMemoryRegionHandle) : MO unit :=
  o ← owner_get (h_owner h);
  owner_set (h_owner h) {| ow_box := ow_box o; ow_borrows := 0; ow_refs := ow_refs o |}.
End provider.
