(* ===== verification/Readers.v ===== *)
(** * The reading side (src/readers.rs)

    The provider of remote regions: sessions, the exchange that fills the
    caches, lookups, and the reads and writes of a region. *)
From S2P Require Import Prelude Pod Meta Verbs Providers.

#[export] Instance byte_countable : Countable byte.
Proof.
  refine {| countable.encode := fun b => countable.encode (Byte.to_N b);
            countable.decode := fun p => n ← countable.decode p; Byte.of_N n |}.
  intros b. rewrite decode_encode. cbn. apply Byte.of_to_N.
Defined.

Record RemoteMemoryProviderAddr := { ra_address : rstring; ra_rdma_port : Z; ra_tcp_port : Z }.
Definition remote_addr_new (address : rstring) (rdma_port tcp_port : Z) : RemoteMemoryProviderAddr :=
  {| ra_address := address; ra_rdma_port := rdma_port; ra_tcp_port := tcp_port |}.

(** [GroupConnection] in its [Rc]: the group's connection, once there is
    one, and the number of owners of the slot. *)
Record GroupConnection := { gc_connection : option Connection; gc_refs : Z }.
Definition group_connection_empty : GroupConnection := {| gc_connection := None; gc_refs := 1 |}.

(** [GroupSession]; the slot by its location. *)
Record GroupSession := { gs_channel : option Channel; gs_connection : Z }.

Record CachedRegion := {
  cr_remote_addr : Z;
  cr_size : Z;
  cr_rkey : Z;
  cr_group : Z;
  cr_elem_size : Z;
  cr_elem_align : Z;
  cr_elem_type : rstring;
}.

Record RemoteMemoryRegionMetadata := {
  rm_name : rstring;
  rm_id : Z;
  rm_size : Z;
  rm_elem_size : Z;
  rm_elem_align : Z;
  rm_elem_type : rstring;
}.

Record RemoteMemoryRegion := {
  rr_connection : Z;
  rr_remote_addr : Z;
  rr_size : Z;
  rr_rkey : Z;
  rr_group : Z;
  rr_elem_size : Z;
  rr_elem_align : Z;
  rr_elem_type : rstring;
}.

Abbreviation region_cache := (gmap (rstring * Z) (list CachedRegion)).

Record RemoteMemoryProvider := {
  rp_addr : RemoteMemoryProviderAddr;
  rp_sessions : gmap Z GroupSession;
  rp_metadata : list RemoteMemoryRegionMetadata;
  rp_regions : region_cache;
}.

(** [RemoteMemoryProvider::new] *)
Definition reader_new (addr : RemoteMemoryProviderAddr) : RemoteMemoryProvider :=
  {| rp_addr := addr; rp_sessions := ∅; rp_metadata := []; rp_regions := ∅ |}.

(** [get_remote_mr_metadata] *)
Definition get_remote_mr_metadata (p : RemoteMemoryProvider) : list RemoteMemoryRegionMetadata :=
  rp_metadata p.

(** ** The caches *)

(** [tuples.iter().copied().map(..).collect()] into a map: of two tuples
    for a region the last one stays. *)
Definition tuples_by_id (tuples : list TupleDesc) : gmap Z TupleDesc :=
  foldl (fun m tuple => <[td_region_id tuple := tuple]> m) ∅ tuples.

Definition region_metadata (region : RegionDesc) : RemoteMemoryRegionMetadata :=
  {| rm_name := rd_name region; rm_id := rd_id region; rm_size := rd_size region;
     rm_elem_size := rd_elem_size region; rm_elem_align := rd_elem_align region;
     rm_elem_type := rd_elem_type region |}.

Definition cached_region (group : Z) (region : RegionDesc) (tuple : TupleDesc) : CachedRegion :=
  {| cr_remote_addr := td_remote_addr tuple; cr_size := td_size tuple; cr_rkey := td_rkey tuple;
     cr_group := group; cr_elem_size := rd_elem_size region;
     cr_elem_align := rd_elem_align region; cr_elem_type := rd_elem_type region |}.

(** The body of the [for region in &regions] loop of [ingest]. *)
Definition ingest_region (group : Z) (by_id : gmap Z TupleDesc) (active : region_cache)
    (region : RegionDesc) : region_cache :=
  let key := (rd_name region, rd_id region) in
  let entry := default [] (active !! key) in
  let entry := filter (fun cached => cr_group cached <> group) entry in
  let entry := match by_id !! rd_id region with
               | Some tuple => entry ++ [cached_region group region tuple]
               | None => entry
               end in
  <[key := entry]> active.

Definition ingest_regions (group : Z) (by_id : gmap Z TupleDesc) (active : region_cache)
    (regions : list RegionDesc) : region_cache :=
  let active := foldl (ingest_region group by_id) active regions in
  let live := map (fun region => (rd_name region, rd_id region)) regions in
  filter (fun entry => fst entry ∈ live) active.

(** [ingest] *)
Definition ingest (group : Z) (exchange : Message * Message) : ST RemoteMemoryProvider unit :=
  match exchange with
  | (Metadata regions, Tuples served tuples) =>
      if negb (served =? group) then
        fail (error_other "the remote served group {served}, not {group}" [FInt served; FInt group])
      else modify (fun p =>
        {| rp_addr := rp_addr p; rp_sessions := rp_sessions p;
           rp_metadata := map region_metadata regions;
           rp_regions := ingest_regions group (tuples_by_id tuples) (rp_regions p) regions |})
  | _ => fail (error_other
           "the remote replied with something other than the catalog and the tuples" [])
  end.

Section exchange.
Context {P : Profile}.

(** [receive_exchange], [refresh] *)
Definition receive_exchange : ST Channel (Message * Message) :=
  catalog ← channel_receive;
  tuples ← channel_receive;
  mret (catalog, tuples).

Definition refresh : ST Channel (Message * Message) :=
  channel_send Update;;
  receive_exchange.

(** The greeting and the group join of a fresh session. *)
Definition open_session (group : Z) : ST Channel unit :=
  channel_send (Hello PROTOCOL_VERSION);;
  msg ← channel_receive;
  match msg with
  | Welcome version =>
      if version =? PROTOCOL_VERSION then mret tt
      else fail (error_other "the remote speaks protocol version {version}, not {PROTOCOL_VERSION}"
                   [FInt version; FInt PROTOCOL_VERSION])
  | _ => fail (error_other "expected a greeting reply, got {other:?}" [])
  end;;
  channel_send (WantGroup group).
End exchange.

Section reader.
Context {P : Profile} {W : Type} {V : Verbs W}.
Abbreviation M := (ST (world W)).

(** The connection slots by location, and the libraries. *)
Abbreviation MS := (ST (gmap Z GroupConnection * world W)).

Definition slot_new (g : GroupConnection) : MS Z := fun '(h, w) =>
  (Ok (next_loc w),
   (<[next_loc w := g]> h, World (env w) (log w) (arcs w) (cells w) (next_loc w + 1))).
Definition slot_get (l : Z) : MS GroupConnection := fun '(h, w) =>
  match h !! l with Some g => (Ok g, (h, w)) | None => (Panic "dangling Rc", (h, w)) end.
Definition slot_set (l : Z) (g : GroupConnection) : MS unit := fun '(h, w) => (Ok tt, (<[l := g]> h, w)).
Definition slot_free (l : Z) : MS unit := fun '(h, w) => (Ok tt, (delete l h, w)).

(** [Rc::clone]; the drop of an [Rc]: the last one drops the
    connection. *)
Definition slot_clone (l : Z) : MS Z :=
  g ← slot_get l;
  slot_set l {| gc_connection := gc_connection g; gc_refs := gc_refs g + 1 |};;
  mret l.
Definition drop_connection (c : option Connection) : M unit :=
  match c with Some c => conn_drop c | None => mret tt end.
Definition slot_drop (l : Z) : MS unit :=
  g ← slot_get l;
  if gc_refs g =? 1 then slot_free l;; on_snd (drop_connection (gc_connection g))
  else slot_set l {| gc_connection := gc_connection g; gc_refs := gc_refs g - 1 |}.

(** [GroupConnection::get] *)
Definition group_connection_get (g : GroupConnection) : M Connection :=
  match gc_connection g with
  | Some c => mret c
  | None => fail (error_other
      "the group has no RDMA connection: a successful update is required first" [])
  end.

(** ** Reads and writes of a region *)

(** The tail of every access: find the connection, register the local
    buffer, run the operation; the registration is dropped at the end. *)
Definition access
    (op : Connection -> MemoryRegion -> Z -> Z -> Z -> M unit)
    (r : RemoteMemoryRegion) (byte_offset buf size : Z) : MS unit :=
  slot ← slot_get (rr_connection r);
  connection ← on_snd (group_connection_get slot);
  on_snd
    (mr ← register_addr connection buf size;
     finally
       (addr ← lift (uint_add 64 (rr_remote_addr r) byte_offset);
        op connection mr addr (rr_rkey r) size)
       (mr_drop mr)).

(** [read_into]: [buf] is a buffer's address and length. *)
Definition region_read_into (fuel : nat) (r : RemoteMemoryRegion) (offset size : Z)
    (buf : ptr * Z) : MS unit :=
  if snd buf <? size then
    fail (invalid "read of {size} bytes exceeds the buffer of {len} bytes" [FInt size; FInt (snd buf)])
  else if rr_size r <? saturating_add offset size then
    fail (invalid "read of {size} bytes at offset {offset} exceeds the region of {len} bytes"
            [FInt size; FInt offset; FInt (rr_size r)])
  else access (conn_read fuel) r offset (fst buf) size.

(** [read] *)
Definition region_read (fuel : nat) (r : RemoteMemoryRegion) (offset size : Z) : MS (list byte) :=
  _ ← lift (zeroed_vec (TScalar U8) size);
  buffer ← on_snd (call (AllocBuffer size));
  region_read_into fuel r offset size (buffer, size);;
  on_snd (call (LoadBuffer buffer size)).

(** [check_elem] *)
Definition check_elem (r : RemoteMemoryRegion) (T : rtype) : MS unit :=
  if (as_u32 (size_of (rt_layout T)) =? rr_elem_size r) &&
     (as_u32 (align_of (rt_layout T)) =? rr_elem_align r)
  then mret tt
  else fail (invalid
    "the region is shared as elements of {} (size {}, alignment {}), not {} (size {}, alignment {})"
    [FText (rr_elem_type r); FInt (rr_elem_size r); FInt (rr_elem_align r); FText (rt_name T);
     FInt (size_of (rt_layout T)); FInt (align_of (rt_layout T))]).

(** [size_of_val] of a slice of [count] elements; [self.size /
    size_of::<T>()] of the error text. *)
Definition size_of_val (T : rtype) (count : Z) : Z := count * size_of (rt_layout T).
Definition elements_of (r : RemoteMemoryRegion) (T : rtype) : res Z :=
  if size_of (rt_layout T) =? 0 then Panic "attempt to divide by zero"
  else Ok (rr_size r / size_of (rt_layout T)).

(** The checks of [read_into_typed] and [write_typed]: the byte offset of
    an access to [count] elements from element [offset]. *)
Definition typed_offset (op : string) (r : RemoteMemoryRegion) (T : rtype) (offset count : Z) : MS Z :=
  check_elem r T;;
  let elem := size_of (rt_layout T) in
  let byte_offset := saturating_mul offset elem in
  let size := size_of_val T count in
  if rr_size r <? saturating_add byte_offset size then
    n ← lift (elements_of r T);
    fail (invalid
      "{op} of {} elements at element offset {offset} exceeds the region of {} elements of {} bytes"
      [FText (rstr op); FInt count; FInt offset; FInt n; FInt elem])
  else
    addr ← lift (uint_add 64 (rr_remote_addr r) byte_offset);
    if negb (is_multiple_of addr (align_of (rt_layout T))) then
      fail (invalid "{op} at element offset {offset} is misaligned for elements of alignment {}"
              [FText (rstr op); FInt offset; FInt (align_of (rt_layout T))])
    else mret byte_offset.

(** [read_into_typed]: [buf] is the slice's address and element count. *)
Definition region_read_into_typed (fuel : nat) (r : RemoteMemoryRegion) (T : rtype) (offset : Z)
    (buf : ptr * Z) : MS unit :=
  byte_offset ← typed_offset "read" r T offset (snd buf);
  access (conn_read fuel) r byte_offset (fst buf) (size_of_val T (snd buf)).

(** The elements of a buffer of [count] elements. *)
Fixpoint elements (size : nat) (count : nat) (bytes : list byte) : list (list byte) :=
  match count with
  | O => []
  | S count => take size bytes :: elements size count (drop size bytes)
  end.

(** [read_typed]; the vector is allocated zeroed, and panics like
    [zeroed_vec] when it cannot be. *)
Definition region_read_typed (fuel : nat) (r : RemoteMemoryRegion) (T : rtype) (offset count : Z)
    : MS (list (list byte)) :=
  _ ← lift (zeroed_vec (rt_layout T) count);
  buffer ← on_snd (call (AllocBuffer (size_of_val T count)));
  region_read_into_typed fuel r T offset (buffer, count);;
  bytes ← on_snd (call (LoadBuffer buffer (size_of_val T count)));
  mret (elements (Z.to_nat (size_of (rt_layout T))) (Z.to_nat count) bytes).

(** [write] *)
Definition region_write (fuel : nat) (r : RemoteMemoryRegion) (offset : Z) (buf : ptr * Z) : MS unit :=
  if rr_size r <? saturating_add offset (snd buf) then
    fail (invalid "write of {} bytes at offset {offset} exceeds the region of {} bytes"
            [FInt (snd buf); FInt offset; FInt (rr_size r)])
  else access (conn_write fuel) r offset (fst buf) (snd buf).

(** [write_typed] *)
Definition region_write_typed (fuel : nat) (r : RemoteMemoryRegion) (T : rtype) (offset : Z)
    (buf : ptr * Z) : MS unit :=
  byte_offset ← typed_offset "write" r T offset (snd buf);
  access (conn_write fuel) r byte_offset (fst buf) (size_of_val T (snd buf)).

(** ** Sessions *)
Abbreviation MR := (ST (RemoteMemoryProvider * (gmap Z GroupConnection * world W))).
Definition reader : MR RemoteMemoryProvider := fun '(p, s) => (Ok p, (p, s)).
Definition set_session (group : Z) (g : GroupSession) : MR unit := fun '(p, s) =>
  (Ok tt, ({| rp_addr := rp_addr p; rp_sessions := <[group := g]> (rp_sessions p);
              rp_metadata := rp_metadata p; rp_regions := rp_regions p |}, s)).

(** [sessions.entry(group).or_insert_with(..)] *)
Definition session_entry (group : Z) : MR GroupSession :=
  p ← reader;
  match rp_sessions p !! group with
  | Some g => mret g
  | None =>
      l ← on_snd (slot_new group_connection_empty);
      let g := {| gs_channel := None; gs_connection := l |} in
      set_session group g;;
      mret g
  end.

(** [session.connection.borrow_mut().connection = Some(connection)]: the
    connection it replaces is dropped. *)
Definition slot_connect (l : Z) (c : Connection) : MS unit :=
  g ← slot_get l;
  slot_set l {| gc_connection := Some c; gc_refs := gc_refs g |};;
  on_snd (drop_connection (gc_connection g)).

(** The rendezvous of a fresh session over its channel: greeting, group
    join, the RDMA connection, the exchange. *)
Definition fresh_session (p : RemoteMemoryProvider) (group slot : Z)
    : ST (Channel * (gmap Z GroupConnection * world W)) (Message * Message) :=
  on_fst (open_session group);;
  connection ← on_snd (on_snd (connect (HostPort (ra_address (rp_addr p)) (ra_rdma_port (rp_addr p)))));
  on_snd (slot_connect slot connection);;
  on_fst receive_exchange.

(** [update] *)
Definition update (group : Z) : MR unit :=
  session ← session_entry group;
  p ← reader;
  match gs_channel session with
  | Some channel =>
      '(r, channel) ← on_snd (with_local channel (catch (on_fst refresh)));
      match r with
      | inl exchange =>
          set_session group {| gs_channel := Some channel; gs_connection := gs_connection session |};;
          on_fst (ingest group exchange)
      | inr e =>
          set_session group {| gs_channel := None; gs_connection := gs_connection session |};;
          fail e
      end
  | None =>
      connected ← on_snd (on_snd (call (TcpConnect (ra_address (rp_addr p)) (ra_tcp_port (rp_addr p)))));
      channel ← lift (channel_connect (match connected with inl s => Ok s | inr e => Err e end));
      '(exchange, channel) ← on_snd (with_local channel
         (fresh_session p group (gs_connection session)));
      set_session group {| gs_channel := Some channel; gs_connection := gs_connection session |};;
      on_fst (ingest group exchange)
  end.

(** [get_remote_mr] *)
Definition get_remote_mr (metadata : RemoteMemoryRegionMetadata) (group : option Z)
    : MR (option RemoteMemoryRegion) :=
  p ← reader;
  match rp_regions p !! (rm_name metadata, rm_id metadata) with
  | None => mret None
  | Some cached =>
    match List.find (fun c => match group with Some g => cr_group c =? g | None => true end) cached with
    | None => mret None
    | Some c =>
      connection ← match rp_sessions p !! cr_group c with
                   | Some session => on_snd (slot_clone (gs_connection session))
                   | None => on_snd (slot_new group_connection_empty)
                   end;
      mret (Some
        {| rr_connection := connection; rr_remote_addr := cr_remote_addr c; rr_size := cr_size c;
           rr_rkey := cr_rkey c; rr_group := cr_group c; rr_elem_size := cr_elem_size c;
           rr_elem_align := cr_elem_align c; rr_elem_type := cr_elem_type c |})
    end
  end.

(** [Clone for RemoteMemoryRegion], and the drop of a region. *)
Definition region_clone (r : RemoteMemoryRegion) : MS RemoteMemoryRegion :=
  l ← slot_clone (rr_connection r);
  mret {| rr_connection := l; rr_remote_addr := rr_remote_addr r; rr_size := rr_size r;
          rr_rkey := rr_rkey r; rr_group := rr_group r; rr_elem_size := rr_elem_size r;
          rr_elem_align := rr_elem_align r; rr_elem_type := rr_elem_type r |}.
Definition region_drop (r : RemoteMemoryRegion) : MS unit := slot_drop (rr_connection r).

(** The drop of a provider of remote regions drops its sessions, in the
    map's own order; the regions it handed out keep theirs. *)
Definition reader_drop (sessions : list (Z * GroupSession)) : MS unit :=
  for_each sessions (fun session _ => slot_drop (gs_connection (snd session))) tt.
End reader.
