(* ===== verification/ReadersFacts.v ===== *)
(** * The reading side: accesses

    Bounds, alignment, resources and work requests of the reads and
    writes of a region. *)
From S2P Require Import Prelude Pod Meta Verbs VerbsSpec VerbsSim VerbsFacts.
From S2P Require Import VerbsOps Providers Readers.

Section accesses.
Context {P : Profile} {W : Type} {V : Verbs W} {VO : VerbsOk W}.
Implicit Types (h : gmap Z GroupConnection) (w : world W).

(** The group of [r] has a connection [c], whose protection domain is the
    live [i]. *)
Definition ready (r : RemoteMemoryRegion) h w (c : Connection) (i : PdInner) : Prop :=
  exists g pd, h !! rr_connection r = Some g /\ gc_connection g = Some c /\
    c_pd c = Some pd /\ arcs w !! pd = Some i /\ 1 <= pi_refs i.

(** What an access leaves behind: the slots as they were, the ledger too
    unless it never returned. *)
Definition tidy {A} (x : res A) h w h' w' : Prop :=
  h' = h /\ (x <> Diverge -> forall r, ledger w' r = ledger w r).

(** The same with the queue pairs and listeners. *)
Definition still {A} (x : res A) h w h' w' : Prop := h' = h /\ (x <> Diverge -> moves w w' [] []).

Lemma still_tidy {A} (x : res A) h w h' w' : still x h w h' w' -> tidy x h w h' w'.
Proof.
  intros [Hh Hm]. split; [done|]. intros Hx r. rewrite (mv_ledger _ _ _ _ (Hm Hx)). cbn [tally]. lia.
Qed.

Lemma moves_same w w1 w2 gain loss : (forall r, tally r gain = tally r loss) ->
  moves w w1 gain [] -> moves w1 w2 [] loss -> moves w w2 [] [].
Proof.
  intros Ht H1 H2. pose proof (moves_trans _ _ _ _ _ _ _ H1 H2) as [A B C D].
  split; [done| |done|done]. intros r. rewrite B, !tally_app, Ht. cbn [tally]. lia.
Qed.

(** The only request an access posts: [size] bytes between the local
    [buf] and [offset] bytes into the region. *)
Definition requested (r : RemoteMemoryRegion) (opcode offset buf size : Z) (x : res unit) w w' : Prop :=
  (sent (log w') = sent (log w) /\ x <> Ok tt) \/
  exists qp id mr addr, uint_add 64 (rr_remote_addr r) offset = Ok addr /\
    mr_addr mr = buf /\ mr_size mr = size /\ size <> 0 /\
    sent (log w') = (qp, work_request id opcode mr addr (rr_rkey r) size) :: sent (log w).

Lemma access_spec fuel name opcode r offset buf size h w c i :
  ready r h w c i ->
  let '(x, (h', w')) := access (fun c => one_sided fuel c name opcode) r offset buf size (h, w) in
  still x h w h' w' /\ requested r opcode offset buf size x w w'.
Proof.
  intros (g & pd & Hg & Hc & Hpd & Hi & Hr). unfold access, slot_get. st_cbn. rewrite Hg.
  unfold group_connection_get, on_snd. rewrite Hc. st_cbn.
  destruct (register_addr_cases c buf size w pd i Hpd Hi Hr) as
    [(e & w1 & -> & Hm & Hw1)|(mr & l & -> & Hm & Hne & Haddr & Hsize & Hmpd)].
  { split; [by split|]. left. split; [by destruct Hw1 as [->| ->]|done]. }
  set (w1 := after (MrKeys l) _) in *.
  assert (Hs1 : sent (log w1) = sent (log w)) by done.
  assert (Ha1 : arcs w1 !! pd = Some i) by done. clearbody w1.
  assert (Hdrop : forall w2, moves w1 w2 [] [] -> moves w (after (DeregMr (mr_mr mr)) w2) [] []).
  { intros w2 Hm2. apply (moves_same w w1 _ [RMr (mr_mr mr)] [RMr (mr_mr mr)]); [done|done|].
    exact (moves_trans _ _ _ _ _ _ _ Hm2 (after_moves (DeregMr (mr_mr mr)) w2 ltac:(done) eq_refl)). }
  unfold finally, mr_drop. st_cbn.
  destruct (uint_add 64 (rr_remote_addr r) offset) as [addr|e|y|] eqn:Eadd.
  - pose proof (one_sided_sends fuel c name opcode mr addr (rr_rkey r) size w1 pd i Hpd Ha1) as Hs.
    pose proof (steady_one_sided fuel c name opcode mr addr (rr_rkey r) size w1) as Hst.
    destruct (one_sided _ _ _ _ _ _ _ _ w1) as [x w2]. cbn [snd] in Hst.
    assert (Hreq : forall w3, sent (log w3) = sent (log w2) -> requested r opcode offset buf size x w w3).
    { intros w3 H3. unfold requested. rewrite H3.
      destruct Hs as [[Hs Hx]|(qp & id & Hs & _)]; [left; by rewrite Hs, Hs1|].
      right. exists qp, id, mr, addr. by rewrite Hs, Hs1. }
    destruct x; rewrite ?call_after; cbn [snd]; (split; [split; [done|]|by apply Hreq]);
      try (intros _; by apply Hdrop). done.
  - rewrite call_after. split; [split; [done|]|by left]. intros _. apply Hdrop, moves_refl.
  - rewrite call_after. split; [split; [done|]|by left]. intros _. apply Hdrop, moves_refl.
  - split; [by split|by left].
Qed.

(** ** The four operations *)

(** A region whose addresses fit in 64 bits, as a provider reports it. *)
Definition sane (r : RemoteMemoryRegion) : Prop :=
  0 <= rr_remote_addr r /\ 0 <= rr_size r < U64_MAX /\ rr_remote_addr r + rr_size r <= 2 ^ 64.

(** At most one request, exactly one on success: it moves [size] bytes
    between the start of the local buffer and [offset] bytes into the
    region, all of them inside the region, under the region's key. *)
Definition transfers (r : RemoteMemoryRegion) (opcode offset buf size : Z) (x : res unit) w w' : Prop :=
  (sent (log w') = sent (log w) /\ x <> Ok tt) \/
  exists qp id mr,
    sent (log w') =
      (qp, work_request id opcode mr (rr_remote_addr r + offset) (rr_rkey r) size) :: sent (log w) /\
    mr_addr mr = buf /\ mr_size mr = size /\ 0 < size /\ offset + size <= rr_size r.

Lemma saturating_add_le a b n : n < U64_MAX -> (n <? saturating_add a b) = false <-> a + b <= n.
Proof. unfold saturating_add. rewrite Z.ltb_ge. lia. Qed.

Lemma saturating_mul_small a b n m :
  n < U64_MAX -> 0 <= m -> (n <? saturating_add (saturating_mul a b) m) = false <-> a * b + m <= n.
Proof.
  intros Hn Hm. rewrite saturating_add_le by done. unfold saturating_mul.
  destruct (Z.min_spec (a * b) U64_MAX) as [[? ->]|[? ->]]; lia.
Qed.

Lemma access_transfers fuel name opcode r offset buf size h w c i :
  ready r h w c i -> sane r -> 0 <= offset -> 0 <= size -> offset + size <= rr_size r ->
  let '(x, (h', w')) := access (fun c => one_sided fuel c name opcode) r offset buf size (h, w) in
  tidy x h w h' w' /\ transfers r opcode offset buf size x w w'.
Proof.
  intros Hready (Ha & Hs & Has) Ho Hsz Hb.
  pose proof (access_spec fuel name opcode r offset buf size h w c i Hready) as H.
  destruct (access _ _ _ _ _ _) as [x [h' w']]. destruct H as [Ht%still_tidy Hreq]. split; [done|].
  destruct Hreq as [?|(qp & id & mr & addr & Eaddr & Hbuf & Hsize & Hne & Hsent)]; [by left|].
  right. exists qp, id, mr.
  rewrite uint_add_fits in Eaddr by (unfold fits; lia). injection Eaddr as <-.
  split_and!; [done|done|done|lia|done].
Qed.

(** C7: the byte accesses: whatever the offset and the size, a read or a
    write of a region touches nothing outside the region and nothing past
    the size asked for of the local buffer; it posts at most one request,
    and exactly one when it succeeds; and it holds no registration, nor
    anything else, once it has returned, however it ends. *)
Theorem byte_accesses_in_bounds fuel r offset size buf h w c i :
  ready r h w c i -> sane r -> 0 <= offset -> 0 <= size -> 0 <= snd buf ->
  (let '(x, (h', w')) := region_read_into fuel r offset size buf (h, w) in
   tidy x h w h' w' /\ transfers r IBV_WR_RDMA_READ offset (fst buf) size x w w' /\
   (x = Ok tt -> size <= snd buf)) /\
  (let '(x, (h', w')) := region_write fuel r offset buf (h, w) in
   tidy x h w h' w' /\ transfers r IBV_WR_RDMA_WRITE offset (fst buf) (snd buf) x w w').
Proof.
  intros Hready Hsane Ho Hs Hbuf. pose proof Hsane as (_ & [_ Hmax] & _). split.
  - unfold region_read_into. destruct (Z.ltb_spec (snd buf) size) as [|Hle].
    { split_and!; [by split|by left|done]. }
    destruct (rr_size r <? saturating_add offset size) eqn:Eb.
    { split_and!; [by split|by left|done]. }
    apply saturating_add_le in Eb; [|done].
    pose proof (access_transfers fuel "read" IBV_WR_RDMA_READ r offset (fst buf) size h w c i
      Hready Hsane Ho Hs Eb) as H.
    unfold conn_read. destruct (access _ _ _ _ _ _) as [x [h' w']]. destruct H. by split_and!.
  - unfold region_write. destruct (rr_size r <? saturating_add offset (snd buf)) eqn:Eb.
    { split_and!; [by split|by left]. }
    apply saturating_add_le in Eb; [|done].
    apply (access_transfers fuel "write" IBV_WR_RDMA_WRITE r offset (fst buf) (snd buf) h w c i
      Hready Hsane Ho Hbuf Eb).
Qed.

(** The layout the region is shared as is the layout of [T]. *)
Definition same_layout (r : RemoteMemoryRegion) (T : rtype) : Prop :=
  size_of (rt_layout T) mod 2 ^ 32 = rr_elem_size r /\
  align_of (rt_layout T) mod 2 ^ 32 = rr_elem_align r.

Lemma check_elem_cases r T (s : gmap Z GroupConnection * world W) :
  (same_layout r T /\ check_elem r T s = (Ok tt, s)) \/
  (~ same_layout r T /\ exists e, check_elem r T s = (Err e, s) /\ kind e = InvalidInput).
Proof.
  unfold check_elem, same_layout, as_u32.
  destruct (Z.eqb_spec (size_of (rt_layout T) mod 2 ^ 32) (rr_elem_size r)),
    (Z.eqb_spec (align_of (rt_layout T) mod 2 ^ 32) (rr_elem_align r)); cbn [andb];
    [left|right..]; (split; [tauto|]); [done|by eexists..].
Qed.

Lemma typed_offset_cases op r T offset count (s : gmap Z GroupConnection * world W) :
  sane r -> wf_ty (rt_layout T) -> 0 <= offset -> 0 <= count ->
  (exists e, typed_offset op r T offset count s = (Err e, s) /\ kind e = InvalidInput) \/
  (typed_offset op r T offset count s = (Ok (offset * size_of (rt_layout T)), s) /\
   same_layout r T /\ offset * size_of (rt_layout T) + size_of_val T count <= rr_size r /\
   (rr_remote_addr r + offset * size_of (rt_layout T)) mod align_of (rt_layout T) = 0) \/
  (size_of_val T count = 0 /\ exists x, typed_offset op r T offset count s = (x, s)).
Proof.
  intros (Ha & [Hs0 Hs] & Has) Hwf Ho Hc. pose proof (size_of_nonneg _ Hwf) as Hsz.
  destruct (align_of_pow2 _ Hwf) as (k & Hk & Hpow).
  assert (Hapos : 0 < align_of (rt_layout T)) by (rewrite Hpow; by apply Z.pow_pos_nonneg).
  assert (Hsv : 0 <= size_of_val T count) by (unfold size_of_val; nia).
  unfold typed_offset.
  destruct (check_elem_cases r T s) as [[Hl Hck]|[Hl (e & Hck & He)]].
  2: { left. exists e. split; [|done]. st_cbn. by rewrite Hck. }
  rewrite (ST_bind_step _ _ _ _ _ Hck).
  destruct (rr_size r <? _) eqn:Eb.
  { unfold elements_of. destruct (Z.eqb_spec (size_of (rt_layout T)) 0) as [Ez|Ez].
    - right. right. split; [unfold size_of_val; lia|]. st_cbn. by eexists.
    - left. st_cbn. by eexists. }
  apply saturating_mul_small in Eb; [|done..].
  assert (Hmul : saturating_mul offset (size_of (rt_layout T)) = offset * size_of (rt_layout T))
    by (unfold saturating_mul; lia).
  rewrite Hmul. destruct (decide (size_of_val T count = 0)) as [Hz|Hz].
  { right. right. split; [done|]. st_cbn. unfold uint_add.
    destruct (overflowed_cases 64 (rr_remote_addr r + offset * size_of (rt_layout T))
      "attempt to add with overflow") as [[_ ->]|[(_ & _ & ->)|(_ & _ & ->)]];
      try destruct (negb _); by eexists. }
  rewrite uint_add_fits by (unfold fits; nia). st_cbn.
  unfold is_multiple_of. rewrite (proj2 (Z.eqb_neq _ _) (Z.neq_sym _ _ (Z.lt_neq _ _ Hapos))).
  destruct (Z.eqb_spec ((rr_remote_addr r + offset * size_of (rt_layout T)) mod
    align_of (rt_layout T)) 0) as [Em|Em]; cbn [negb].
  - right. left. by split_and!.
  - left. by eexists.
Qed.

(** An access to no bytes never posts a request. *)
Lemma access_empty fuel name opcode r offset buf h w c i :
  ready r h w c i ->
  let '(x, (h', w')) := access (fun c => one_sided fuel c name opcode) r offset buf 0 (h, w) in
  tidy x h w h' w' /\ sent (log w') = sent (log w) /\ x <> Ok tt.
Proof.
  intros Hready. pose proof (access_spec fuel name opcode r offset buf 0 h w c i Hready) as H.
  destruct (access _ _ _ _ _ _) as [x [h' w']]. destruct H as [Ht%still_tidy [?|H]]; [by split|].
  destruct H as (qp & id & mr & addr & _ & _ & _ & Hne & _). by destruct Hne.
Qed.

(** The whole of a typed access, after its checks. *)
Lemma typed_access fuel name opcode op r T offset buf count h w c i :
  ready r h w c i -> sane r -> wf_ty (rt_layout T) -> 0 <= offset -> 0 <= count ->
  let byte_offset := offset * size_of (rt_layout T) in
  let '(x, (h', w')) :=
    (byte_offset ← typed_offset op r T offset count;
     access (fun c => one_sided fuel c name opcode) r byte_offset buf (size_of_val T count)) (h, w) in
  tidy x h w h' w' /\ transfers r opcode byte_offset buf (size_of_val T count) x w w' /\
  (sent (log w') <> sent (log w) -> same_layout r T /\
     (align_of (rt_layout T) | rr_remote_addr r + byte_offset) /\
     (align_of (rt_layout T) | size_of_val T count)).
Proof.
  intros Hready Hsane Hwf Ho Hc bo. pose proof (size_of_nonneg _ Hwf) as Hsz.
  destruct (align_of_pow2 _ Hwf) as (k & Hk & Hpow).
  assert (Hapos : align_of (rt_layout T) <> 0).
  { rewrite Hpow. pose proof (Z.pow_pos_nonneg 2 k). lia. }
  assert (Hsv : 0 <= size_of_val T count) by (unfold size_of_val; nia).
  destruct (typed_offset_cases op r T offset count (h, w) Hsane Hwf Ho Hc) as
    [(e & He & _)|[(Ht & Hl & Hb & Hal)|(Hz & x & Hx)]].
  - rewrite (ST_bind_err _ _ _ _ _ He). split_and!; [by split|by left|done].
  - rewrite (ST_bind_step _ _ _ _ _ Ht).
    pose proof (access_transfers fuel name opcode r bo buf (size_of_val T count) h w c i Hready Hsane
      ltac:(unfold bo; nia) Hsv Hb) as H.
    fold bo. destruct (access _ _ _ _ _ _) as [x [h' w']]. destruct H as [H1 H2].
    split_and!; [done|done|]. intros _. split_and!; [done|by apply Z.mod_divide|].
    unfold size_of_val. by apply Z.divide_mul_r, align_divides_size.
  - st_cbn. rewrite Hx. destruct x as [bo'|e|y|]; try (split_and!; [by split|by left|done]).
    rewrite Hz. pose proof (access_empty fuel name opcode r bo' buf h w c i Hready) as H.
    destruct (access _ _ _ _ _ _) as [x [h' w']]. destruct H as (H1 & H2 & H3).
    split_and!; [done|by left|done].
Qed.

(** C8: the typed accesses: as the byte accesses they stay inside the
    region, for any element offset and count, the multiplications
    included; they leave nothing registered; and whenever they do ask the
    device for something, the type has the layout the region is shared
    as, and both the remote address and the size are multiples of its
    alignment, so of the machine word when the alignment is. *)
Theorem typed_accesses_aligned fuel r T offset buf h w c i :
  ready r h w c i -> sane r -> wf_ty (rt_layout T) -> 0 <= offset -> 0 <= snd buf ->
  let byte_offset := offset * size_of (rt_layout T) in
  let size := snd buf * size_of (rt_layout T) in
  let aligned w' := sent (log w') <> sent (log w) -> same_layout r T /\
    forall word, (word | align_of (rt_layout T)) ->
      (word | rr_remote_addr r + byte_offset) /\ (word | size) in
  (let '(x, (h', w')) := region_read_into_typed fuel r T offset buf (h, w) in
   tidy x h w h' w' /\ transfers r IBV_WR_RDMA_READ byte_offset (fst buf) size x w w' /\ aligned w') /\
  (let '(x, (h', w')) := region_write_typed fuel r T offset buf (h, w) in
   tidy x h w h' w' /\ transfers r IBV_WR_RDMA_WRITE byte_offset (fst buf) size x w w' /\ aligned w').
Proof.
  intros Hready Hsane Hwf Ho Hc bo size aligned.
  assert (Hal : forall w', (sent (log w') <> sent (log w) -> same_layout r T /\
     (align_of (rt_layout T) | rr_remote_addr r + bo) /\ (align_of (rt_layout T) | size)) ->
     aligned w').
  { intros w' H Hs. destruct (H Hs) as (Hl & H1 & H2). split; [done|].
    intros word Hword. split; by eapply Z.divide_trans. }
  split.
  - pose proof (typed_access fuel "read" IBV_WR_RDMA_READ "read" r T offset (fst buf) (snd buf) h w c i
      Hready Hsane Hwf Ho Hc) as H.
    unfold region_read_into_typed.
    change (conn_read fuel) with (fun c => one_sided fuel c "read" IBV_WR_RDMA_READ).
    cbv zeta in H. match type of H with match ?t with _ => _ end => destruct t as [x [h' w']] end.
    destruct H as (H1 & H2 & H3). split_and!; [done|done|by apply Hal].
  - pose proof (typed_access fuel "write" IBV_WR_RDMA_WRITE "write" r T offset (fst buf) (snd buf) h w c
      i Hready Hsane Hwf Ho Hc) as H.
    unfold region_write_typed.
    change (conn_write fuel) with (fun c => one_sided fuel c "write" IBV_WR_RDMA_WRITE).
    cbv zeta in H. match type of H with match ?t with _ => _ end => destruct t as [x [h' w']] end.
    destruct H as (H1 & H2 & H3). split_and!; [done|done|by apply Hal].
Qed.

(** C37: what an access refuses, before it looks for a connection and
    without any call: exactly the byte reads past the buffer or the
    region, the writes past the region, and the typed accesses of another
    layout. *)
Theorem accesses_refused fuel r T offset size buf s :
  sane r -> wf_ty (rt_layout T) -> 0 <= offset -> 0 <= size -> 0 <= snd buf ->
  (snd buf < size \/ rr_size r < offset + size ->
     exists e, region_read_into fuel r offset size buf s = (Err e, s) /\ kind e = InvalidInput) /\
  (rr_size r < offset + snd buf ->
     exists e, region_write fuel r offset buf s = (Err e, s) /\ kind e = InvalidInput) /\
  (~ same_layout r T \/
   (0 < size_of (rt_layout T) /\ rr_size r < (offset + snd buf) * size_of (rt_layout T)) ->
     (exists e, region_read_into_typed fuel r T offset buf s = (Err e, s) /\ kind e = InvalidInput) /\
     (exists e, region_write_typed fuel r T offset buf s = (Err e, s) /\ kind e = InvalidInput)).
Proof.
  intros (Ha & [Hs0 Hs] & Has) Hwf Ho Hsz Hbuf.
  assert (Hsat : forall a b, rr_size r < a + b -> (rr_size r <? saturating_add a b) = true).
  { intros a b Hab. destruct (rr_size r <? saturating_add a b) eqn:E; [done|].
    apply saturating_add_le in E; [lia|done]. }
  split_and!.
  - intros Hbad. unfold region_read_into. destruct (Z.ltb_spec (snd buf) size); [by eexists|].
    rewrite Hsat by lia. by eexists.
  - intros Hbad. unfold region_write. rewrite Hsat by lia. by eexists.
  - intros Hbad.
    assert (Ht : forall op, exists e, typed_offset op r T offset (snd buf) s = (Err e, s) /\
      kind e = InvalidInput).
    { intros op. unfold typed_offset.
      destruct (check_elem_cases r T s) as [[Hl Hck]|[Hl (e & Hck & He)]].
      2: { exists e. split; [|done]. st_cbn. by rewrite Hck. }
      rewrite (ST_bind_step _ _ _ _ _ Hck). destruct Hbad as [?|[Hpos Hbad]]; [done|].
      destruct (rr_size r <? _) eqn:Eb.
      - unfold elements_of. destruct (Z.eqb_spec (size_of (rt_layout T)) 0); [lia|].
        st_cbn. by eexists.
      - apply saturating_mul_small in Eb; [|done|unfold size_of_val; nia].
        unfold size_of_val in Eb. nia. }
    split.
    + destruct (Ht "read") as (e & H & He). exists e. split; [|done].
      unfold region_read_into_typed. by apply ST_bind_err.
    + destruct (Ht "write") as (e & H & He). exists e. split; [|done].
      unfold region_write_typed. by apply ST_bind_err.
Qed.

(** C40: an access to no bytes fails, even inside the region and with a
    connection: the local buffer cannot be registered. *)
Theorem empty_access_fails fuel r offset buf h w c i :
  ready r h w c i -> sane r -> 0 <= offset <= rr_size r -> 0 <= snd buf ->
  exists e, region_read_into fuel r offset 0 buf (h, w) = (Err e, (h, w)) /\ kind e = InvalidInput /\
    region_write fuel r offset (fst buf, 0) (h, w) = (Err e, (h, w)).
Proof.
  intros (g & pd & Hg & Hc & Hpd & Hi & Hr) (_ & [_ Hs] & _) Ho Hbuf.
  assert (Hreg : register_addr c (fst buf) 0 w = (Err (invalid "cannot register an empty region" []), w)).
  { by rewrite (register_addr_eq c (fst buf) 0 w pd i Hpd Hi Hr). }
  assert (Hacc : forall op, access op r offset (fst buf) 0 (h, w) =
    (Err (invalid "cannot register an empty region" []), (h, w))).
  { intros op. unfold access, slot_get. st_cbn. rewrite Hg. unfold group_connection_get, on_snd.
    rewrite Hc. st_cbn. by rewrite Hreg. }
  exists (invalid "cannot register an empty region" []).
  assert (Hb : (rr_size r <? saturating_add offset 0) = false) by (apply saturating_add_le; lia).
  unfold region_read_into, region_write. cbn [fst snd].
  destruct (Z.ltb_spec (snd buf) 0); [lia|]. rewrite Hb. by rewrite !Hacc.
Qed.
End accesses.

(** ** Witnesses *)

(** A region of four 8-byte elements, in a group with a connection. *)
Definition sample_region : RemoteMemoryRegion :=
  {| rr_connection := 3; rr_remote_addr := 4096; rr_size := 32; rr_rkey := 77; rr_group := 3;
     rr_elem_size := 8; rr_elem_align := 8; rr_elem_type := rstr "u64" |}.
Definition u64_type : rtype := {| rt_layout := TScalar U64; rt_name := rstr "u64"; rt_id := 1 |}.
Definition sample_slots : gmap Z GroupConnection :=
  {[ 3 := {| gc_connection := Some sample_conn; gc_refs := 2 |} ]}.

Lemma sample_ready :
  ready sample_region sample_slots conn_world sample_conn
    {| pi_context := 7; pi_pd := 4; pi_refs := 1 |}.
Proof. by exists {| gc_connection := Some sample_conn; gc_refs := 2 |}, 0. Qed.

Lemma sample_sane : sane sample_region.
Proof. done. Qed.

(** The last 8 bytes are read; the 8 after them are not. *)
Lemma byte_accesses_in_bounds_witness :
  (exists h' w', region_read_into (P := true) 9 sample_region 24 8 (512, 8) (sample_slots, conn_world) =
      (Ok tt, (h', w')) /\ h' = sample_slots /\ (forall r, ledger w' r = ledger conn_world r) /\
      length (sent (log w')) = 1%nat) /\
  (exists e w', region_read_into (P := true) 9 sample_region 25 8 (512, 8) (sample_slots, conn_world) =
      (Err e, (sample_slots, w')) /\ sent (log w') = []).
Proof.
  split.
  - destruct (byte_accesses_in_bounds (P := true) 9 sample_region 24 8 (512, 8) sample_slots
      conn_world _ _ sample_ready sample_sane) as [H _]; [done..|].
    destruct (region_read_into (P := true) 9 sample_region 24 8 (512, 8) (sample_slots, conn_world))
      as [[[]|e|y|] [h' w']] eqn:E; try (vm_compute in E; discriminate E).
    destruct H as ([Hh Hl] & [[_ H]|(qp & id & mr & H & _)] & _); [by destruct (H eq_refl)|].
    exists h', w'. split; [done|]. split; [done|]. split; [by apply Hl|]. by rewrite H.
  - destruct (byte_accesses_in_bounds (P := true) 9 sample_region 25 8 (512, 8) sample_slots
      conn_world _ _ sample_ready sample_sane) as [H _]; [done..|].
    destruct (region_read_into (P := true) 9 sample_region 25 8 (512, 8) (sample_slots, conn_world))
      as [[[]|e|y|] [h' w']] eqn:E; try (vm_compute in E; discriminate E).
    destruct H as ([Hh _] & [[H _]|(qp & id & mr & _ & _ & _ & _ & Hb)] & _); [|by vm_compute in Hb].
    exists e, w'. by rewrite <- Hh at 1.
Defined.

Lemma typed_accesses_aligned_witness :
  exists w', region_write_typed (P := true) 9 sample_region u64_type 2 (512, 2)
      (sample_slots, conn_world) = (Ok tt, (sample_slots, w')) /\
    sent (log w') <> [] /\ (8 | rr_remote_addr sample_region + 16).
Proof.
  destruct (typed_accesses_aligned (P := true) 9 sample_region u64_type 2 (512, 2) sample_slots
    conn_world _ _ sample_ready sample_sane I) as [_ H]; [done..|].
  destruct (region_write_typed (P := true) 9 sample_region u64_type 2 (512, 2)
      (sample_slots, conn_world)) as [[[]|e|y|] [h' w']] eqn:E; try (vm_compute in E; discriminate E).
  destruct H as ([Hh _] & [[_ Hno]|(qp & id & mr & Hs & _)] & Hal); [by destruct (Hno eq_refl)|].
  exists w'. split; [by rewrite <- Hh at 1|]. split; [by rewrite Hs|].
  apply Hal; [|by exists 1]. by rewrite Hs.
Defined.

Lemma accesses_refused_witness :
  exists e, region_read_into_typed (P := true) 9 sample_region u64_type 3 (512, 2)
      (sample_slots, conn_world) = (Err e, (sample_slots, conn_world)) /\ kind e = InvalidInput.
Proof.
  apply (accesses_refused (P := true) 9 sample_region u64_type 3 0 (512, 2) (sample_slots, conn_world)
    sample_sane I); [done..|]. right. by vm_compute.
Defined.

Lemma empty_access_fails_witness :
  exists e, region_read_into (P := true) 9 sample_region 32 0 (512, 8) (sample_slots, conn_world) =
    (Err e, (sample_slots, conn_world)) /\ kind e = InvalidInput.
Proof.
  destruct (empty_access_fails (P := true) 9 sample_region 32 (512, 8) sample_slots conn_world _ _
    sample_ready sample_sane) as (e & H & He & _); [done..|]. exists e. by split.
Defined.
