(* ===== verification/Contents.v ===== *)
(** * The reading side: what reads and writes move

    The card moves bytes between the reader's buffers and the memory a key
    gives access to. Here its documented behaviour is stated as laws on
    the libraries, and what [read], [write] and their typed forms do to
    the contents follows. *)
From S2P Require Import Prelude Pod Meta Verbs VerbsSpec VerbsSim VerbsFacts VerbsOps Providers Readers ReadersFacts.

(** ** Memory *)
Definition memory := Z -> byte.

Definition bytes_at (m : memory) (addr : Z) (n : nat) : list byte :=
  map (fun k => m (addr + Z.of_nat k)) (seq 0 n).

(** [dst] with the [n] bytes at [to] taken from [src] at [from]. *)
Definition copied (src : memory) (from : Z) (dst : memory) (to n : Z) : memory := fun a =>
  if (to <=? a) && (a <? to + n) then src (from + (a - to)) else dst a.

Lemma bytes_at_ext m m' addr addr' n :
  (forall k, 0 <= k < Z.of_nat n -> m (addr + k) = m' (addr' + k)) ->
  bytes_at m addr n = bytes_at m' addr' n.
Proof.
  intros H. unfold bytes_at. apply map_ext_in. intros k Hk%in_seq. apply H. lia.
Qed.

Lemma copied_inside src from dst to n k :
  0 <= k < n -> copied src from dst to n (to + k) = src (from + k).
Proof.
  intros H. unfold copied. assert ((to <=? to + k) && (to + k <? to + n) = true) as -> by lia.
  f_equal. lia.
Qed.

Lemma copied_outside src from dst to n a :
  (a < to \/ to + n <= a) -> copied src from dst to n a = dst a.
Proof. intros H. unfold copied. by assert ((to <=? a) && (a <? to + n) = false) as -> by lia. Qed.

Lemma bytes_at_copied src from dst to n :
  0 <= n -> bytes_at (copied src from dst to n) to (Z.to_nat n) = bytes_at src from (Z.to_nat n).
Proof. intros Hn. apply bytes_at_ext. intros k Hk. apply copied_inside. lia. Qed.

(** ** The card *)

(** This process's memory, the memory a key gives access to, and the
    requests posted and not completed, oldest first. *)
Class Card (W : Type) := {
  buffers : W -> memory;
  remote : W -> Z -> memory;
  in_flight : W -> list IbvSendWr;
}.

(** The contents and the requests under way are as they were. *)
Definition same_contents {W} `{Card W} (e e' : W) : Prop :=
  (forall a, buffers e' a = buffers e a) /\ (forall key a, remote e' key a = remote e key a) /\
  in_flight e' = in_flight e.

(** What a request that completed has done. *)
Definition carried_out {W} `{Card W} (wr : IbvSendWr) (e e' : W) : Prop :=
  let local := sge_addr (wr_sge wr) in
  let n := sge_length (wr_sge wr) in
  (wr_opcode wr = IBV_WR_RDMA_WRITE ->
     (forall a, buffers e' a = buffers e a) /\
     forall a, remote e' (wr_rkey wr) a =
       copied (buffers e) local (remote e (wr_rkey wr)) (wr_remote_addr wr) n a) /\
  (wr_opcode wr = IBV_WR_RDMA_READ ->
     (forall key a, remote e' key a = remote e key a) /\
     forall a, buffers e' a =
       copied (remote e (wr_rkey wr)) (wr_remote_addr wr) (buffers e) local n a).

(** The calls that move contents or requests. *)
Definition moves_contents {T} (c : ccall T) : bool :=
  match c with PostSend _ _ | PollCq _ _ | AllocBuffer _ => true | _ => false end.

(** A posted request is under way until a completion of its number is
    polled, and has been carried out when that completion reports success;
    a new buffer is no one's; nothing else moves contents: nobody else
    writes to the regions meanwhile. *)
Class CardOk (W : Type) `{Verbs W} `{Card W} := {
  card_other : forall T (c : ccall T) e, moves_contents c = false -> same_contents e (snd (exec c e));
  card_alloc : forall size e, (forall key a, remote (snd (exec (AllocBuffer size) e)) key a = remote e key a) /\
    in_flight (snd (exec (AllocBuffer size) e)) = in_flight e;
  card_load : forall addr size e,
    fst (exec (LoadBuffer addr size) e) = bytes_at (buffers e) addr (Z.to_nat size);
  card_post : forall qp wr e, let '(ret, e') := exec (PostSend qp wr) e in
    (forall a, buffers e' a = buffers e a) /\ (forall key a, remote e' key a = remote e key a) /\
    in_flight e' = if ret =? 0 then in_flight e ++ [wr] else in_flight e;
  card_poll : forall cq n e, let '((ret, wc), e') := exec (PollCq cq n) e in
    if ret =? 1 then
      exists l1 wr l2, in_flight e = l1 ++ wr :: l2 /\ in_flight e' = l1 ++ l2 /\
        wr_id wr = wc_wr_id wc /\ (wc_status wc = IBV_WC_SUCCESS -> carried_out wr e e')
    else same_contents e e';
}.

#[export] Instance same_contents_preorder {W} `{Card W} : PreOrder same_contents.
Proof.
  split; [by split|]. intros e1 e2 e3 (A1 & B1 & C1) (A2 & B2 & C2).
  split_and!; [intros a; by rewrite A2|intros key a; by rewrite B2|congruence].
Qed.

(** What a request has done depends on the contents it started from. *)
Lemma carried_out_moved {W} `{Card W} wr (e1 e2 e3 : W) :
  (forall a, buffers e2 a = buffers e1 a) /\ (forall key a, remote e2 key a = remote e1 key a) ->
  carried_out wr e2 e3 -> carried_out wr e1 e3.
Proof.
  intros (A1 & B1) [Hw Hr]. split.
  - intros Ho. destruct (Hw Ho) as [Hb Hc]. split; [intros a; by rewrite Hb, A1|].
    intros a. rewrite Hc. unfold copied. by rewrite A1, B1.
  - intros Ho. destruct (Hr Ho) as [Hb Hc]. split; [intros key a; by rewrite Hb, B1|].
    intros a. rewrite Hc. unfold copied. by rewrite A1, B1.
Qed.

Lemma carried_out_kept {W} `{Card W} wr (e1 e2 e3 : W) :
  carried_out wr e1 e2 -> same_contents e2 e3 -> carried_out wr e1 e3.
Proof.
  intros [Hw Hr] (A & B & _). split.
  - intros Ho. destruct (Hw Ho) as [Hb Hc]. split; [intros a; by rewrite A|intros a; by rewrite B].
  - intros Ho. destruct (Hr Ho) as [Hb Hc]. split; [intros key a; by rewrite B|intros a; by rewrite A].
Qed.

Section contents.
Context {P : Profile} {W : Type} {V : Verbs W} {K : Card W} {KO : CardOk W}.
Implicit Types (w : world W) (r : RemoteMemoryRegion).

(** ** What leaves the contents alone *)
Definition untouched w w' : Prop := same_contents (env w) (env w').
#[local] Instance untouched_preorder : PreOrder untouched.
Proof. exact (preorder_preimage env same_contents _). Qed.
Abbreviation idle := (preserves untouched).

Lemma idle_call {T} (c : ccall T) : moves_contents c = false -> idle (call c).
Proof. intros Hc w. rewrite call_after. by apply card_other. Qed.

Lemma idle_env {A} (m : ST (world W) A) : (forall w, env (snd (m w)) = env w) -> idle m.
Proof. intros H w. unfold untouched. by rewrite H. Qed.

Lemma idle_run {A} (m : ST (world W) A) w a w' : idle m -> m w = (Ok a, w') -> untouched w w'.
Proof. intros Hm E. specialize (Hm w). by rewrite E in Hm. Qed.

#[local] Hint Extern 1 (preserves _ (call _)) => (apply idle_call; reflexivity) : preserves.

Lemma idle_check name ret : idle (check name ret).
Proof. unfold check. destruct (ret =? 0); eauto with preserves. Qed.
Lemma idle_check_ptr name p : idle (check_ptr name p).
Proof. unfold check_ptr. destruct (p =? null); eauto with preserves. Qed.
Lemma idle_arc_get pd : idle (arc_get pd).
Proof. apply idle_env. intros w. unfold arc_get. by destruct (arcs w !! pd). Qed.
#[local] Hint Resolve idle_check idle_check_ptr idle_arc_get : preserves.

Lemma idle_pd_clone pd : idle (pd_clone pd).
Proof.
  unfold pd_clone, arc_set. apply (preserves_bind _); [eauto with preserves|]. intros i.
  apply (preserves_bind _); [by apply idle_env|]. eauto with preserves.
Qed.
Lemma idle_pd_drop pd : idle (pd_drop pd).
Proof.
  unfold pd_drop. apply (preserves_bind _); [eauto with preserves|]. intros i.
  destruct (_ =? 1); [|by apply idle_env].
  apply (preserves_bind _); [eauto with preserves|]. intros x. by apply idle_env.
Qed.
#[local] Hint Resolve idle_pd_clone idle_pd_drop : preserves.

Lemma idle_register_addr c addr size : idle (register_addr c addr size).
Proof.
  unfold register_addr, protection_domain. apply (preserves_bind _).
  { destruct (c_pd c); eauto with preserves. }
  intros pd. apply (preserves_finally _); [|eauto with preserves]. unfold pd_register_addr.
  destruct (size =? 0); [eauto with preserves|].
  apply (preserves_bind _); [eauto with preserves|]. intros i.
  apply (preserves_bind _); [eauto with preserves|]. intros p.
  apply (preserves_bind _); [eauto with preserves|]. intros mr.
  apply (preserves_bind _); [eauto with preserves|]. intros []. eauto with preserves.
Qed.

(** A registration covers what it was asked to. *)
Lemma register_addr_covers c addr size w mr w' :
  register_addr c addr size w = (Ok mr, w') -> mr_addr mr = addr /\ mr_size mr = size.
Proof.
  unfold register_addr, finally. intros (pd & w1 & _ & H)%ST_bind_Ok.
  destruct (pd_register_addr pd addr size w1) as [[m|e|y|] w2] eqn:E; try done. injection H as -> _.
  revert E. unfold pd_register_addr. destruct (size =? 0); [done|].
  intros (i & w3 & _ & H)%ST_bind_Ok. apply ST_bind_Ok in H as (p & w4 & _ & H).
  apply ST_bind_Ok in H as (m & w5 & _ & H). apply ST_bind_Ok in H as ([lkey rkey] & w6 & _ & H).
  by injection H as <- _.
Qed.

(** ** One request *)

(** Polled to its successful completion, the only request under way has
    been carried out. *)
Lemma poll_loop_contents fuel cq op deadline wr : forall w w',
  in_flight (env w) = [wr] -> poll_loop fuel cq (wr_id wr) op deadline w = (Ok tt, w') ->
  carried_out wr (env w) (env w') /\ in_flight (env w') = [].
Proof.
  induction fuel as [|fuel IH]; intros w w' Hw; [done|]. cbn [poll_loop].
  intros ([ret wc] & w1 & Hc & H)%ST_bind_Ok. rewrite call_after in Hc. injection Hc as Hr <-.
  pose proof (card_poll cq 1 (env w)) as Hp.
  destruct (exec (PollCq cq 1) (env w)) as [[ret' wc'] e1] eqn:Ee. injection Hr as -> ->.
  set (w1 := after (PollCq cq 1) w) in *. assert (He : env w1 = e1) by (unfold w1, after; cbn; by rewrite Ee).
  apply ST_bind_Ok in H as ([] & w2 & Hneg & H).
  assert (H2 : untouched w1 w2).
  { enough (Hi : idle (if ret <? 0 then
      neg ← lift (if (ret =? - 2 ^ 31) && overflow_checks
                  then Panic "attempt to negate with overflow" else Ok (- ret));
      check "ibv_poll_cq" neg else mret tt)) by (specialize (Hi w1); by rewrite Hneg in Hi).
    destruct (ret <? 0); eauto with preserves. }
  destruct (Z.eqb_spec ret 1) as [->|Hne]; cbn [andb] in H.
  - destruct Hp as (l1 & wr' & l2 & Hf & Hf' & Hid & Hdone). rewrite Hw in Hf.
    assert (l1 = [] /\ wr' = wr /\ l2 = []) as (-> & -> & ->).
    { destruct l1 as [|x l1]; [by injection Hf as <- <-|]. injection Hf as _ Hf.
      by destruct l1. }
    rewrite (proj2 (Z.eqb_eq _ _) (eq_sym Hid)) in H.
    destruct (wc_status wc =? IBV_WC_SUCCESS) eqn:Es; [|done]. cbn [negb] in H. injection H as <-.
    apply Z.eqb_eq in Es. rewrite <- He in Hdone, Hf'. split.
    + apply (carried_out_kept wr _ (env w1)); [by apply Hdone|done].
    + destruct H2 as (_ & _ & ->). by rewrite Hf'.
  - apply ST_bind_Ok in H as (now & w3 & Hn & H).
    assert (H3 : untouched w w3).
    { rewrite call_after in Hn. injection Hn as _ <-. rewrite <- He in Hp.
      unfold untouched in *. etrans; [exact Hp|]. etrans; [exact H2|]. by apply card_other. }
    destruct (deadline <=? now); [done|].
    destruct (IH w3 w') as [Hc Hf]; [by destruct H3 as (_ & _ & ->)|done|]. split; [|done].
    apply (carried_out_moved wr _ (env w3)); [by destruct H3 as (A & B & _)|done].
Qed.

(** A successful operation has carried its request out, and leaves none
    under way. *)
Lemma one_sided_contents fuel c op opcode mr remote_addr rkey len w w' :
  in_flight (env w) = [] ->
  one_sided fuel c op opcode mr remote_addr rkey len w = (Ok tt, w') ->
  exists id, carried_out (work_request id opcode mr remote_addr rkey len) (env w) (env w') /\
    in_flight (env w') = [].
Proof.
  intros Hw. unfold one_sided, pd_raw. destruct (len =? 0); [done|]. destruct (_ <? _); [done|].
  intros (pd & w1 & H1 & H)%ST_bind_Ok. apply ST_bind_Ok in H as (raw & w2 & H2 & H).
  destruct (negb _); [done|]. apply ST_bind_Ok in H as (id & w3 & H3 & H).
  apply ST_bind_Ok in H as (id' & w4 & H4 & H). apply ST_bind_Ok in H as ([] & w5 & H5 & H).
  apply ST_bind_Ok in H as (qp & w6 & H6 & H). cbv zeta in H.
  assert (Hpre : untouched w w6).
  { apply idle_run in H1; [|destruct (c_pd c); eauto with preserves].
    apply idle_run in H2; [|apply (preserves_bind _); eauto with preserves].
    apply idle_run in H3; [|by apply idle_env]. apply idle_run in H4; [|eauto with preserves].
    apply idle_run in H5; [|by apply idle_env]. apply idle_run in H6; [|eauto with preserves].
    repeat (etrans; [eassumption|]). done. }
  set (wr := work_request id opcode mr remote_addr rkey len).
  change {| wr_id := id |} with wr in H.
  apply ST_bind_Ok in H as (ret & w7 & H7 & H). apply ST_bind_Ok in H as ([] & w8 & H8 & H).
  apply ST_bind_Ok in H as (now & w9 & H9 & H). exists id. fold wr.
  pose proof (card_post qp wr (env w6)) as Hp. rewrite call_after in H7.
  destruct (exec (PostSend qp wr) (env w6)) as [ret' e7] eqn:E7.
  injection H7 as <- <-. destruct Hp as (Hb & Hr & Hf).
  revert H8. unfold check. destruct (Z.eqb_spec ret' 0) as [->|]; [|done]. intros [= <-].
  cbn in Hf. assert (H79 : untouched (after (PostSend qp wr) w6) w9) by (eapply idle_run; [|exact H9]; eauto with preserves).
  assert (E : env (after (PostSend qp wr) w6) = e7) by (cbn; by rewrite E7).
  unfold untouched in H79. rewrite E in H79.
  destruct (poll_loop_contents fuel (c_cq c) op (now + POLL_TIMEOUT) wr w9 w') as [Hc Hf']; [|done|].
  { destruct H79 as (_ & _ & ->). rewrite Hf. destruct Hpre as (_ & _ & ->). by rewrite Hw. }
  split; [|done]. apply (carried_out_moved wr (env w) (env w9)); [|done].
  destruct Hpre as (A & B & _), H79 as (A' & B' & _).
  split; [intros a; by rewrite A', Hb, A|intros key a; by rewrite B', Hr, B].
Qed.

(** ** Reads and writes *)

(** [n] bytes of the region from [offset] on were copied to the buffer at
    [buf], and back. Nothing else changed. *)
Definition fetched r (offset buf n : Z) w w' : Prop :=
  (forall key a, remote (env w') key a = remote (env w) key a) /\
  forall a, buffers (env w') a = copied (remote (env w) (rr_rkey r)) (rr_remote_addr r + offset)
    (buffers (env w)) buf n a.
Definition stored r (offset buf n : Z) w w' : Prop :=
  (forall a, buffers (env w') a = buffers (env w) a) /\
  forall a, remote (env w') (rr_rkey r) a = copied (buffers (env w)) buf
    (remote (env w) (rr_rkey r)) (rr_remote_addr r + offset) n a.

(** The tail of every access. *)
Lemma access_contents fuel name opcode r offset buf size h w h' w' :
  in_flight (env w) = [] -> sane r -> 0 <= offset -> 0 <= size < 2 ^ 32 -> offset + size <= rr_size r ->
  access (fun c => one_sided fuel c name opcode) r offset buf size (h, w) = (Ok tt, (h', w')) ->
  in_flight (env w') = [] /\ h' = h /\
  (opcode = IBV_WR_RDMA_WRITE -> stored r offset buf size w w') /\
  (opcode = IBV_WR_RDMA_READ -> fetched r offset buf size w w').
Proof.
  intros Hw (Ha & Hs & Has) Ho Hsz Hb. unfold access. intros (slot & [h1 w1] & H1 & H)%ST_bind_Ok.
  unfold slot_get in H1. destruct (h !! rr_connection r) as [g|]; [|done]. injection H1 as -> <- <-.
  apply ST_bind_Ok in H as (c & [h2 w2] & H2 & H). unfold on_snd, group_connection_get in H2.
  destruct (gc_connection slot) as [c'|]; [|done]. injection H2 as -> <- <-.
  unfold on_snd in H.
  match type of H with (let '(_, _) := ?t in _) = _ => destruct t as [x w3] eqn:E end.
  injection H as -> <- ->.
  apply ST_bind_Ok in E as (mr & w1 & Hreg & E).
  destruct (register_addr_covers _ _ _ _ _ _ Hreg) as [Haddr _].
  pose proof (idle_run _ _ _ _ (idle_register_addr c buf size) Hreg) as Hpre.
  unfold finally in E. 
  match type of E with match ?t with _ => _ end = _ => destruct t as [[[]|e|y|] w2] eqn:E2; try done end.
  injection E as E. apply ST_bind_Ok in E2 as (addr & w1' & Hadd & E2).
  destruct (decide (size = 0)) as [->|Hne]; [done|].
  rewrite uint_add_fits in Hadd by (unfold fits; lia). injection Hadd as <- <-.
  destruct (one_sided_contents _ _ _ _ _ _ _ _ _ _ (eq_trans (proj2 (proj2 Hpre)) Hw) E2) as (id & Hc & Hf).
  assert (Hpost : untouched w2 w').
  { assert (Hi : idle (mr_drop mr)) by (unfold mr_drop; eauto with preserves).
    specialize (Hi w2). by rewrite E in Hi. }
  apply (carried_out_moved _ (env w)) in Hc; [|by destruct Hpre as (A & B & _)].
  apply (carried_out_kept _ _ _ (env w')) in Hc; [|done].
  destruct Hc as [Hwr Hrd]. cbn [work_request wr_opcode wr_sge sge_addr sge_length wr_rkey wr_remote_addr] in *.
  rewrite Haddr, (Z.mod_small size) in Hwr, Hrd by lia.
  split_and!; [|done|exact Hwr|exact Hrd]. destruct Hpost as (_ & _ & ->). exact Hf.
Qed.

Lemma write_stores fuel r offset buf h w h' w' :
  in_flight (env w) = [] -> sane r -> 0 <= offset -> 0 <= snd buf < 2 ^ 32 ->
  region_write fuel r offset buf (h, w) = (Ok tt, (h', w')) ->
  in_flight (env w') = [] /\ h' = h /\ stored r offset (fst buf) (snd buf) w w'.
Proof.
  intros Hw Hr Ho Hl. unfold region_write. destruct (_ <? _) eqn:Eb; [done|]. intros H.
  apply saturating_add_le in Eb; [|apply Hr].
  destruct (access_contents fuel "write" IBV_WR_RDMA_WRITE _ _ _ _ _ _ _ _ Hw Hr Ho Hl Eb H)
    as (H1 & H2 & H3 & _). split_and!; [done..|by apply H3].
Qed.

Lemma read_into_fetches fuel r offset size buf h w h' w' :
  in_flight (env w) = [] -> sane r -> 0 <= offset -> 0 <= size < 2 ^ 32 ->
  region_read_into fuel r offset size buf (h, w) = (Ok tt, (h', w')) ->
  in_flight (env w') = [] /\ h' = h /\ fetched r offset (fst buf) size w w'.
Proof.
  intros Hw Hr Ho Hl. unfold region_read_into. destruct (_ <? _); [done|].
  destruct (_ <? _) eqn:Eb; [done|]. intros H. apply saturating_add_le in Eb; [|apply Hr].
  destruct (access_contents fuel "read" IBV_WR_RDMA_READ _ _ _ _ _ _ _ _ Hw Hr Ho Hl Eb H)
    as (H1 & H2 & _ & H3). split_and!; [done..|by apply H3].
Qed.

(** The typed forms, after their checks. *)
Lemma typed_contents fuel name opcode op r T offset buf count h w h' w' :
  in_flight (env w) = [] -> sane r -> wf_ty (rt_layout T) -> 0 <= offset -> 0 <= count ->
  size_of_val T count < 2 ^ 32 ->
  (byte_offset ← typed_offset op r T offset count;
   access (fun c => one_sided fuel c name opcode) r byte_offset buf (size_of_val T count)) (h, w) =
    (Ok tt, (h', w')) ->
  let byte_offset := offset * size_of (rt_layout T) in
  in_flight (env w') = [] /\ h' = h /\ same_layout r T /\
  (opcode = IBV_WR_RDMA_WRITE -> stored r byte_offset buf (size_of_val T count) w w') /\
  (opcode = IBV_WR_RDMA_READ -> fetched r byte_offset buf (size_of_val T count) w w').
Proof.
  intros Hw Hr Hwf Ho Hc Hlt H bo. pose proof (size_of_nonneg _ Hwf) as Hsz.
  assert (Hsv : 0 <= size_of_val T count) by (unfold size_of_val; nia).
  destruct (typed_offset_cases op r T offset count (h, w) Hr Hwf Ho Hc) as
    [(e & He & _)|[(Ht & Hl & Hb & _)|(Hz & x & Hx)]].
  - by rewrite (ST_bind_err _ _ _ _ _ He) in H.
  - rewrite (ST_bind_step _ _ _ _ _ Ht) in H.
    destruct (access_contents fuel name opcode r bo buf _ h w h' w' Hw Hr ltac:(unfold bo; nia)
      (conj Hsv Hlt) Hb H) as (H1 & H2 & H3 & H4).
    exact (conj H1 (conj H2 (conj Hl (conj H3 H4)))).
  - apply ST_bind_Ok in H as (b & st & Hb & H). rewrite Hz in H. revert H. clear.
    unfold access. intros (slot & s1 & _ & H)%ST_bind_Ok. apply ST_bind_Ok in H as (c & [h2 w2] & _ & H).
    unfold on_snd in H.
    match type of H with (let '(_, _) := ?t in _) = _ => destruct t as [x w3] eqn:E end.
    injection H as -> _ _.
    apply ST_bind_Ok in E as (mr & w1 & Hreg & _). revert Hreg. unfold register_addr, finally.
    intros (pd & w4 & _ & H)%ST_bind_Ok. done.
Qed.

(** The buffer that [read] allocates starts a fetch afresh. *)
Lemma fetched_alloc r offset buf n size w w' :
  fetched r offset buf n (after (AllocBuffer size) w) w' ->
  (forall key a, remote (env w') key a = remote (env w) key a) /\
  (0 <= n -> bytes_at (buffers (env w')) buf (Z.to_nat n) =
    bytes_at (remote (env w) (rr_rkey r)) (rr_remote_addr r + offset) (Z.to_nat n)).
Proof.
  intros [Hr Hb]. destruct (card_alloc size (env w)) as [Ha _].
  split; [intros key a; by rewrite Hr, <- Ha|]. intros Hn.
  rewrite <- (bytes_at_copied (remote (env w) (rr_rkey r)) _ (buffers (env (after (AllocBuffer size) w))) buf n Hn).
  apply bytes_at_ext. intros k _. rewrite Hb. unfold copied. cbn [after env]. by rewrite Ha.
Qed.

Lemma read_returns fuel r offset size h w bytes h' w' :
  in_flight (env w) = [] -> sane r -> 0 <= offset -> 0 <= size < 2 ^ 32 ->
  region_read fuel r offset size (h, w) = (Ok bytes, (h', w')) ->
  in_flight (env w') = [] /\ h' = h /\ (forall key a, remote (env w') key a = remote (env w) key a) /\
  bytes = bytes_at (remote (env w) (rr_rkey r)) (rr_remote_addr r + offset) (Z.to_nat size).
Proof.
  intros Hw Hr Ho Hl. unfold region_read. intros (z & s1 & H1 & H)%ST_bind_Ok. 
  unfold lift in H1. injection H1 as _ <-. apply ST_bind_Ok in H as (buffer & s2 & H2 & H).
  unfold on_snd in H2. rewrite call_after in H2. injection H2 as _ <-.
  apply ST_bind_Ok in H as ([] & [h3 w3] & H3 & H).
  destruct (read_into_fetches fuel r offset size (buffer, size) h (after (AllocBuffer size) w) _ _
    (eq_trans (proj2 (card_alloc size (env w))) Hw) Hr Ho Hl H3) as (Hf & -> & Hfe).
  destruct (fetched_alloc _ _ _ _ _ _ _ Hfe) as [Hrem Hbytes].
  unfold on_snd in H. rewrite call_after in H. injection H as <- <- <-.
  destruct (card_other _ (LoadBuffer buffer size) (env w3) eq_refl) as (_ & Hrem' & Hf').
  split_and!; [cbn [after env]; by rewrite Hf'|done|intros key a; cbn [after env]; by rewrite Hrem'|].
  rewrite card_load. apply Hbytes; lia.
Qed.

(** The elements of a region, [n] of them from element [first] on. *)
Definition elements_at (m : memory) (addr elem first : Z) (n : nat) : list (list byte) :=
  map (fun k => bytes_at m (addr + (first + Z.of_nat k) * elem) (Z.to_nat elem)) (seq 0 n).

Lemma bytes_at_app m addr n k :
  bytes_at m addr (n + k) = bytes_at m addr n ++ bytes_at m (addr + Z.of_nat n) k.
Proof.
  unfold bytes_at. rewrite seq_app, map_app. f_equal.
  replace (seq (0 + n) k) with (map (Nat.add n) (seq 0 k))
    by (change (Nat.add n <$> seq 0 k = seq (0 + n) k); rewrite fmap_add_seq; f_equal; lia).
  rewrite map_map. apply map_ext. intros i. f_equal. lia.
Qed.

Lemma length_bytes_at m addr n : length (bytes_at m addr n) = n.
Proof. unfold bytes_at. by rewrite length_map, length_seq. Qed.

Lemma elements_bytes_at m elem count : forall addr,
  elements elem count (bytes_at m addr (elem * count)) =
    map (fun k => bytes_at m (addr + Z.of_nat (k * elem)) elem) (seq 0 count).
Proof.
  induction count as [|count IH]; intros addr; [done|]. cbn [elements seq map].
  rewrite Nat.mul_succ_r, Nat.add_comm, bytes_at_app.
  rewrite take_app_length' by (by rewrite length_bytes_at).
  rewrite drop_app_length' by (by rewrite length_bytes_at).
  f_equal; [f_equal; lia|]. rewrite IH, <- (seq_shift count 0), map_map. apply map_ext. intros k. f_equal. lia.
Qed.

Lemma typed_read_returns fuel r T offset count h w items h' w' :
  in_flight (env w) = [] -> sane r -> wf_ty (rt_layout T) -> 0 <= offset -> 0 <= count ->
  size_of_val T count < 2 ^ 32 ->
  region_read_typed fuel r T offset count (h, w) = (Ok items, (h', w')) ->
  in_flight (env w') = [] /\ same_layout r T /\
  (forall key a, remote (env w') key a = remote (env w) key a) /\
  items = elements_at (remote (env w) (rr_rkey r)) (rr_remote_addr r) (size_of (rt_layout T)) offset
    (Z.to_nat count).
Proof.
  intros Hw Hr Hwf Ho Hc Hlt. unfold region_read_typed. intros (z & s1 & H1 & H)%ST_bind_Ok.
  unfold lift in H1. injection H1 as _ <-. apply ST_bind_Ok in H as (buffer & s2 & H2 & H).
  unfold on_snd in H2. rewrite call_after in H2. injection H2 as _ <-.
  apply ST_bind_Ok in H as ([] & [h3 w3] & H3 & H). set (size := size_of_val T count) in *.
  destruct (typed_contents fuel "read" IBV_WR_RDMA_READ "read" r T offset buffer count h
    (after (AllocBuffer size) w) _ _ (eq_trans (proj2 (card_alloc size (env w))) Hw) Hr Hwf Ho Hc Hlt H3)
    as (Hf & -> & Hl & _ & Hfe). specialize (Hfe eq_refl). fold size in Hfe.
  destruct (fetched_alloc _ _ _ _ _ _ _ Hfe) as [Hrem Hbytes].
  apply ST_bind_Ok in H as (bytes & [h4 w4] & H4 & H). unfold on_snd in H4. rewrite call_after in H4.
  injection H4 as <- <- <-. injection H as <- <- <-.
  destruct (card_other _ (LoadBuffer buffer size) (env w3) eq_refl) as (_ & Hrem' & Hf').
  split_and!; [cbn [after env]; by rewrite Hf'|done|intros key a; cbn [after env]; by rewrite Hrem'|].
  pose proof (size_of_nonneg _ Hwf) as Hsz. rewrite card_load, Hbytes by (unfold size, size_of_val; nia).
  unfold size, size_of_val. rewrite (Z.mul_comm count), Z2Nat.inj_mul, elements_bytes_at by done.
  unfold elements_at. apply map_ext. intros k. f_equal. rewrite Nat2Z.inj_mul, Z2Nat.id by done. lia.
Qed.

(** ** The operations *)


End contents.

(** ** A simulated card *)

(** The environment of VerbsSim with memories; requests complete in the
    order they were posted, when polled for. *)
Record card := { c_sim : sim; c_buffers : memory; c_remote : Z -> memory; c_flight : list IbvSendWr }.

#[export] Instance card_memories : Card card :=
  {| buffers := c_buffers; remote := c_remote; in_flight := c_flight |}.

Definition c_complete (wr : IbvSendWr) (rest : list IbvSendWr) (e : card) : card :=
  let local := sge_addr (wr_sge wr) in
  let n := sge_length (wr_sge wr) in
  if wr_opcode wr =? IBV_WR_RDMA_WRITE then
    {| c_sim := c_sim e; c_buffers := c_buffers e;
       c_remote := fun key => if key =? wr_rkey wr
         then copied (c_buffers e) local (c_remote e (wr_rkey wr)) (wr_remote_addr wr) n
         else c_remote e key;
       c_flight := rest |}
  else
    {| c_sim := c_sim e;
       c_buffers := copied (c_remote e (wr_rkey wr)) (wr_remote_addr wr) (c_buffers e) local n;
       c_remote := c_remote e; c_flight := rest |}.

Definition c_with_sim (e : card) (s : sim) : card :=
  {| c_sim := s; c_buffers := c_buffers e; c_remote := c_remote e; c_flight := c_flight e |}.

Definition c_lift {T} (r : T * sim) (e : card) : T * card := (fst r, c_with_sim e (snd r)).

#[export] Instance card_verbs : Verbs card := fun T c e =>
  match c in ccall T return T * card with
  | PostSend _ wr =>
      (0, {| c_sim := c_sim e; c_buffers := c_buffers e; c_remote := c_remote e;
             c_flight := c_flight e ++ [wr] |})
  | PollCq _ _ =>
      match c_flight e with
      | wr :: rest =>
          ((1, {| wc_wr_id := wr_id wr; wc_status := IBV_WC_SUCCESS; wc_vendor_err := 0 |}),
           c_complete wr rest e)
      | [] => ((0, {| wc_wr_id := 0; wc_status := 0; wc_vendor_err := 0 |}), e)
      end
  | LoadBuffer addr size => (bytes_at (c_buffers e) addr (Z.to_nat size), e)
  | c => c_lift (exec c (c_sim e)) e
  end.

#[export] Instance card_ok : CardOk card.
Proof.
  split.
  - intros T c e Hc. by destruct c; try discriminate Hc.
  - done.
  - done.
  - done.
  - intros cq n e. cbn. destruct (c_flight e) as [|wr rest] eqn:E; [by split_and!|]. cbn.
    exists [], wr, rest. split_and!; [done|unfold c_complete; by destruct (_ =? _)|done|]. intros _.
    split; cbn; intros Ho; unfold c_complete; rewrite Ho; cbn; (split; [done|]); [|done].
    intros a. by rewrite Z.eqb_refl.
Qed.

(** ** Witnesses *)

(** Memory that holds its addresses; a region's holds zeros. *)
Definition card_world : world card :=
  World {| c_sim := env conn_world; c_buffers := fun a => byte.of_Z a; c_remote := fun _ _ => byte.of_Z 0;
           c_flight := [] |} [] (arcs conn_world) (cells conn_world) (next_loc conn_world).


