(* ===== verification/ProvidersFacts.v ===== *)
(** * The sharing side: tuples, groups and registration

    The invariant of the shared state, and what each operation on it
    does. *)
From S2P Require Import Prelude Pod Meta Verbs VerbsSpec VerbsSim VerbsFacts.
From S2P Require Import VerbsFrame VerbsApart VerbsOps Providers.

(** ** The invariant *)
Section invariant.
Context {P : Profile} {W : Type} {V : Verbs W} {VO : VerbsOk W}.
Implicit Types (s : Shared) (w : world W).

(** The domain a group's handle refers to. *)
Definition group_domain s w (g : Z) (i : PdInner) : Prop :=
  exists e, groups s !! g = Some e /\ arcs w !! ge_pd e = Some i.

(** Every group holds a live domain, shared by its connections; every
    tuple is the registration of a catalogued region, at its captured
    address and size, in the domain of its group. *)
Record wf_shared s w : Prop := {
  ws_world : wf_world w;
  ws_domain : forall g e, groups s !! g = Some e -> 1 <= ledger w (RRef (ge_pd e));
  ws_members : forall g e c, groups s !! g = Some e -> c ∈ ge_connections e ->
    c_pd c = Some (ge_pd e);
  ws_tuples : forall id g mr, tuples s !! (id, g) = Some mr ->
    exists info i, catalog s !! id = Some info /\ group_domain s w g i /\
      mr_pd mr = pi_pd i /\ mr_addr mr = ri_remote_addr info /\ mr_size mr = ri_size info /\
      ri_size info <> 0;
}.

(** The invariant looks at the libraries only through the group's
    domains. *)
Lemma wf_shared_frame s w w' :
  wf_shared s w -> frame w w' -> wf_world w' ->
  (forall g e, groups s !! g = Some e -> 1 <= ledger w' (RRef (ge_pd e))) -> wf_shared s w'.
Proof.
  intros [A B C D] [Hn Hf] Hw' Href. split; [done|done|done|].
  intros id g mr Hmr. destruct (D id g mr Hmr) as (info & i & Hi & (e & He & Ha) & E1 & E2 & E3 & E4).
  destruct (ledger_ref_pos w' (ge_pd e) (Href g e He)) as (i' & Ha' & _).
  destruct (A _ _ Ha) as [_ Hlt]. destruct (Hf _ _ Hlt Ha') as (i0 & Hi0 & Hpd & _).
  exists info, i'. split_and!; [done|by exists e|congruence|done..].
Qed.

Lemma wf_shared_moves s w w' :
  wf_shared s w -> frame w w' -> wf_world w' ->
  (forall pd, ledger w (RRef pd) <= ledger w' (RRef pd)) -> wf_shared s w'.
Proof.
  intros Hs Hf Hw Hl. apply (wf_shared_frame s w w'); [done..|].
  intros g e He. pose proof (ws_domain _ _ Hs g e He). specialize (Hl (ge_pd e)). lia.
Qed.

(** ** Tuples *)

Definition with_tuple (key : Z * Z) (mr : MemoryRegion) s : Shared :=
  {| catalog := catalog s; groups := groups s; tuples := <[key := mr]> (tuples s) |}.

(** What a request for a tuple amounts to, temporary handles and locks
    aside. *)
Definition tuple_request (id group : Z) s w : res (option (Z * Z * Z)) * (Shared * world W) :=
  match tuples s !! (id, group), groups s !! group, catalog s !! id with
  | Some mr, _, _ => (Ok (Some (mr_tuple mr)), (s, w))
  | None, Some e, Some info =>
      match arcs w !! ge_pd e with
      | Some i =>
          match registration i (ri_remote_addr info) (ri_size info) w with
          | (Ok mr, w') => (Ok (Some (mr_tuple mr)), (with_tuple (id, group) mr s, w'))
          | (Err e, w') => (Err e, (s, w'))
          | (Panic why, w') => (Panic why, (s, w'))
          | (Diverge, w') => (Diverge, (s, w'))
          end
      | None => (Panic "dangling Arc", (s, w))
      end
  | _, _, _ => (Ok None, (s, w))
  end.

Lemma tuple_of_eq id group s w :
  wf_shared s w -> tuple_of id group (s, w) = tuple_request id group s w.
Proof.
  intros Hs. unfold tuple_of, tuple_request, shared. st_cbn.
  destruct (tuples s !! (id, group)) as [mr|] eqn:Et; [done|].
  destruct (groups s !! group) as [e|] eqn:Eg; [|done].
  destruct (ledger_ref_pos w (ge_pd e) (ws_domain _ _ Hs _ _ Eg)) as (i & Hi & Hr).
  assert (Hr1 : 1 <= pi_refs i) by (pose proof (ws_domain _ _ Hs _ _ Eg); lia).
  unfold on_world at 1. rewrite (pd_clone_bump _ i w Hi). rewrite Hi.
  unfold finally. destruct (catalog s !! id) as [info|] eqn:Ec.
  2: { unfold on_world. rewrite (pd_drop_bump _ i w _ Hi Hr1 eq_refl). cbn [snd].
       unfold with_arcs, bump. cbn. by destruct w. }
  unfold on_world.
  rewrite (pd_register_addr_eq _ _ _ _ _ (arcs_bump _ i w)), registration_bump by done.
  set (reg := registration i (ri_remote_addr info) (ri_size info) w).
  assert (Hw : snd (pd_drop (ge_pd e) (bump (ge_pd e) i (snd reg))) = snd reg).
  { rewrite (pd_drop_bump _ i w) by (try done; unfold bump; cbn [arcs];
      unfold reg; by rewrite arcs_registration).
    cbn [snd]. unfold reg. rewrite <- (arcs_registration i (ri_remote_addr info) (ri_size info) w).
    by destruct (snd _). }
  destruct reg as [[mr|er|y|] w'] eqn:Er; cbn [fst snd] in *.
  - unfold tuples_insert, shared, set_tuples. st_cbn. rewrite Et. cbn [snd].
    destruct (pd_drop (ge_pd e) (bump (ge_pd e) i w')) as [r w2] eqn:Ed. cbn [snd] in Hw. by subst.
  - destruct (pd_drop (ge_pd e) (bump (ge_pd e) i w')) as [r w2] eqn:Ed. cbn [snd] in Hw. by subst.
  - destruct (pd_drop (ge_pd e) (bump (ge_pd e) i w')) as [r w2] eqn:Ed. cbn [snd] in Hw. by subst.
  - destruct (registration_cases i (ri_remote_addr info) (ri_size info) w) as
      [(? & ? & H & _)|(? & ? & H & _)]; unfold reg in Er; congruence.
Qed.

(** The request as a case analysis. *)
Lemma tuple_of_cases id group s w :
  wf_shared s w ->
  exists x s' w', tuple_of id group (s, w) = (x, (s', w')) /\ wf_shared s' w' /\
    catalog s' = catalog s /\ groups s' = groups s /\ frame w w' /\ arcs w' = arcs w /\
    ((exists mr, x = Ok (Some (mr_tuple mr)) /\ tuples s !! (id, group) = Some mr /\
        s' = s /\ w' = w) \/
     (exists mr info, x = Ok (Some (mr_tuple mr)) /\ tuples s !! (id, group) = None /\
        catalog s !! id = Some info /\ tuples s' = <[(id, group) := mr]> (tuples s) /\
        moves w w' [RMr (mr_mr mr)] []) \/
     (x = Ok None /\ s' = s /\ w' = w /\ tuples s !! (id, group) = None /\
        (groups s !! group = None \/ catalog s !! id = None)) \/
     (exists e, x = Err e /\ s' = s /\ tuples s !! (id, group) = None /\ moves w w' [] [])).
Proof.
  intros Hs. rewrite (tuple_of_eq id group s w Hs). unfold tuple_request.
  destruct (tuples s !! (id, group)) as [mr|] eqn:Et.
  { do 3 eexists. split; [done|]. split_and!; try done. left. by exists mr. }
  destruct (groups s !! group) as [e|] eqn:Eg.
  2: { do 3 eexists. split; [done|]. split_and!; try done. right. right. left. split_and!; auto. }
  destruct (catalog s !! id) as [info|] eqn:Ec.
  2: { do 3 eexists. split; [done|]. split_and!; try done. right. right. left. split_and!; auto. }
  destruct (ledger_ref_pos w (ge_pd e) (ws_domain _ _ Hs _ _ Eg)) as (i & Hi & Hr).
  rewrite Hi. pose proof (framed_registration i (ri_remote_addr info) (ri_size info) w) as Hfr.
  pose proof (arcs_registration i (ri_remote_addr info) (ri_size info) w) as Har.
  destruct (registration_cases i (ri_remote_addr info) (ri_size info) w) as
    [(er & w' & Hreg & Hm & _)|(mr & l & Hreg & Hm & Hne & Ha & Hsz & Hpd)];
    cbv zeta in Hreg; rewrite Hreg in *; cbn [snd] in *.
  - do 3 eexists. split; [done|].
    assert (Hs' : wf_shared s w').
    { apply (wf_shared_moves s w w'); [done|done|by apply Hm, Hs|].
      intros pd. rewrite (mv_ledger _ _ _ _ Hm). cbn [tally]. lia. }
    split_and!; try done. right. right. right. by exists er.
  - set (w' := after (MrKeys l) _) in *. do 3 eexists. split; [done|].
    assert (Hs' : wf_shared s w').
    { apply (wf_shared_moves s w w'); [done|done|by apply Hm, Hs|].
      intros pd. rewrite (mv_ledger _ _ _ _ Hm). cbn [tally]. case_decide; [done|lia]. }
    assert (Hs2 : wf_shared (with_tuple (id, group) mr s) w').
    { destruct Hs' as [A B C D]. split; [done|done|done|]. intros id' g' mr'. cbn [tuples with_tuple].
      rewrite lookup_insert. case_decide as Ek; [|apply D]. intros [= <-].
      injection Ek as <- <-. exists info, i. split_and!; try done.
      exists e. split; [done|]. by rewrite Har. }
    split_and!; try done. right. left. by exists mr, info.
Qed.

(** C13: a tuple is created on the first request for a region and a group,
    as one registration of the region's captured address and size in the
    group's domain, and found again on every later one, without a call;
    an unknown region or group has none, and costs nothing; a failing
    registration changes nothing. The invariant is kept. *)
Theorem tuple_of_spec id group s w :
  wf_shared s w ->
  let '(x, (s', w')) := tuple_of id group (s, w) in
  wf_shared s' w' /\ catalog s' = catalog s /\ groups s' = groups s /\
  match x with
  | Ok (Some t) => exists mr info, catalog s !! id = Some info /\
      t = (ri_remote_addr info, ri_size info, mr_rkey mr) /\
      tuple_of id group (s', w') = (Ok (Some t), (s', w')) /\
      (tuples s !! (id, group) = Some mr /\ s' = s /\ w' = w \/
       tuples s !! (id, group) = None /\ tuples s' = <[(id, group) := mr]> (tuples s) /\
       forall r, ledger w' r = ledger w r + tally r [RMr (mr_mr mr)])
  | Ok None => (groups s !! group = None \/ catalog s !! id = None) /\ s' = s /\ w' = w
  | Err _ => s' = s /\ forall r, ledger w' r = ledger w r
  | _ => False
  end.
Proof.
  intros Hs. destruct (tuple_of_cases id group s w Hs) as
    (x & s' & w' & -> & Hs' & Hc & Hg & _ & _ & Hcase). split_and!; [done..|].
  assert (Hagain : forall mr, tuples s' !! (id, group) = Some mr ->
    tuple_of id group (s', w') = (Ok (Some (mr_tuple mr)), (s', w'))).
  { intros mr Hmr. rewrite tuple_of_eq by done. unfold tuple_request. by rewrite Hmr. }
  destruct Hcase as [(mr & -> & Ht & -> & ->)|[(mr & info & -> & Ht & Hi & Ht' & Hm)|
    [(-> & -> & -> & _ & Hno)|(e & -> & -> & _ & Hm)]]].
  - destruct (ws_tuples _ _ Hs id group mr Ht) as (info & i & Hi & _ & _ & Ha & Hz & _).
    exists mr, info. split_and!; [done| |by apply Hagain|by left].
    unfold mr_tuple. congruence.
  - assert (Hin : tuples s' !! (id, group) = Some mr) by (rewrite Ht'; apply lookup_insert_eq).
    destruct (ws_tuples _ _ Hs' id group mr Hin) as (info' & i & Hi' & _ & _ & Ha & Hz & _).
    exists mr, info. split_and!; [done| |by apply Hagain|right].
    + unfold mr_tuple. congruence.
    + split_and!; [done..|]. intros r. rewrite (mv_ledger _ _ _ _ Hm). cbn [tally]. lia.
  - done.
  - split; [done|]. intros r. rewrite (mv_ledger _ _ _ _ Hm). cbn [tally]. lia.
Qed.

(** ** The exchange *)

(** The tuple of a catalogued region in a group, as it is listed. *)
Definition listed s (group : Z) (entry : Z * RegionInfo) : option TupleDesc :=
  match tuples s !! (fst entry, group) with
  | Some mr => Some {| td_region_id := fst entry; td_remote_addr := mr_addr mr;
                       td_size := mr_size mr; td_rkey := mr_rkey mr |}
  | None => None
  end.

Definition describe (entry : Z * RegionInfo) : RegionDesc := region_desc (fst entry) (snd entry).

(** The body of the loop of [catalog_and_tuples]. *)
Definition exchange_step (group : Z) (entry : Z * RegionInfo) (acc : list RegionDesc * list TupleDesc) :
    ST (Shared * world W) (list RegionDesc * list TupleDesc) :=
  r ← catch (tuple_of (fst entry) group);
  mret (fst acc ++ [describe entry],
        match r with
        | inl (Some (remote_addr, size, rkey)) =>
            snd acc ++ [{| td_region_id := fst entry; td_remote_addr := remote_addr;
                           td_size := size; td_rkey := rkey |}]
        | _ => snd acc
        end).

(** What grows and what stays when tuples of [group] for the regions
    [ids] are requested. *)
Record grows (group : Z) (ids : list Z) s w s' w' : Prop := {
  gr_wf : wf_shared s' w';
  gr_catalog : catalog s' = catalog s;
  gr_groups : groups s' = groups s;
  gr_old : tuples s ⊆ tuples s';
  gr_new : forall key, tuples s' !! key <> tuples s !! key ->
    key.2 = group /\ key.1 ∈ ids;
  gr_frame : frame w w';
}.

Lemma exchange_step_spec group entry acc s w :
  wf_shared s w -> exists s' w',
    exchange_step group entry acc (s, w) =
      (Ok (fst acc ++ [describe entry],
           match listed s' group entry with Some t => snd acc ++ [t] | None => snd acc end),
       (s', w')) /\ grows group [fst entry] s w s' w'.
Proof.
  intros Hs. destruct entry as [id info]. cbn [fst].
  destruct (tuple_of_cases id group s w Hs) as
    (x & s' & w' & Hx & Hs' & Hc & Hg & Hf & _ & Hcase).
  exists s', w'. unfold exchange_step, catch. st_cbn. rewrite Hx. unfold listed. cbn [fst].
  destruct Hcase as [(mr & -> & Ht & -> & ->)|[(mr & info' & -> & Ht & Hi & Ht' & Hm)|
    [(-> & -> & -> & Ht & Hno)|(e & -> & -> & Ht & Hm)]]].
  - rewrite Ht. split; [done|]. by split.
  - rewrite Ht', lookup_insert_eq. split; [done|]. split; try done.
    + rewrite Ht'. by apply insert_subseteq.
    + intros key. rewrite Ht', lookup_insert. case_decide; [|done]. subst. cbn. set_solver.
  - rewrite Ht. split; [done|]. by split.
  - rewrite Ht. split; [done|]. by split.
Qed.

Lemma listed_mono s s' group entry ids w w' :
  grows group ids s w s' w' -> fst entry ∉ ids -> listed s' group entry = listed s group entry.
Proof.
  intros H Hn. unfold listed.
  destruct (decide (tuples s' !! (fst entry, group) = tuples s !! (fst entry, group))) as [->|Hne];
    [done|]. by destruct (gr_new _ _ _ _ _ _ H _ Hne).
Qed.

Lemma exchange_loop group l : forall acc s w,
  wf_shared s w -> NoDup (map fst l) -> exists s' w',
    for_each l (exchange_step group) acc (s, w) =
      (Ok (fst acc ++ map describe l, snd acc ++ omap (listed s' group) l), (s', w')) /\
    grows group (map fst l) s w s' w'.
Proof.
  induction l as [|entry l IH]; intros acc s w Hs Hnd.
  { exists s, w. split; [|by split]. cbn. rewrite !app_nil_r. by destruct acc. }
  cbn [map] in Hnd. inversion_clear Hnd as [|? ? Hni Hnd'].
  destruct (exchange_step_spec group entry acc s w Hs) as (s1 & w1 & H1 & G1).
  destruct (IH (fst acc ++ [describe entry],
      match listed s1 group entry with Some t => snd acc ++ [t] | None => snd acc end)
    s1 w1 (gr_wf _ _ _ _ _ _ G1) Hnd') as (s2 & w2 & H2 & G2).
  exists s2, w2. cbn [for_each]. rewrite (ST_bind_step _ _ _ _ _ H1), H2. split.
  - cbn [fst snd map]. change (omap (listed s2 group) (entry :: l)) with
      (match listed s2 group entry with Some y => y :: omap (listed s2 group) l
       | None => omap (listed s2 group) l end).
    rewrite (listed_mono _ _ _ _ _ _ _ G2 Hni).
    destruct (listed s1 group entry); by rewrite <- !app_assoc.
  - destruct G1 as [A1 B1 C1 D1 E1 F1], G2 as [A2 B2 C2 D2 E2 F2]. split; try done.
    + by rewrite B2.
    + by rewrite C2.
    + by etrans.
    + intros key Hkey. destruct (decide (tuples s2 !! key = tuples s1 !! key)) as [Heq|Hne].
      * rewrite Heq in Hkey. destruct (E1 _ Hkey). cbn [map]. set_solver.
      * destruct (E2 _ Hne). cbn [map]. set_solver.
    + by etrans.
Qed.

(** The exchange of a group, as a result. *)
Lemma catalog_and_tuples_run {HO : HashOrder} {HK : HashOrderOk} group s w :
  wf_shared s w -> exists s' w',
    catalog_and_tuples group (s, w) =
      (Ok (Metadata (map describe (iter_catalog (catalog s))),
           Tuples group (omap (listed s' group) (iter_catalog (catalog s)))), (s', w')) /\
    grows group (map fst (iter_catalog (catalog s))) s w s' w'.
Proof.
  intros Hs.
  assert (Hnd : NoDup (map fst (iter_catalog (catalog s)))).
  { change (NoDup (iter_catalog (catalog s)).*1). rewrite iter_catalog_perm.
    apply NoDup_fst_map_to_list. }
  destruct (exchange_loop group (iter_catalog (catalog s)) ([], []) s w Hs Hnd) as (s' & w' & H & G).
  exists s', w'. split; [|done]. unfold catalog_and_tuples.
  rewrite (ST_bind_step shared _ (s, w) s (s, w) eq_refl).
  assert (Hext : forall l acc st, for_each l
    (fun '(id, info) '(regions, descs) =>
       r ← catch (tuple_of id group);
       mret (regions ++ [region_desc id info],
             match r with
             | inl (Some (remote_addr, size, rkey)) =>
                 descs ++ [{| td_region_id := id; td_remote_addr := remote_addr;
                              td_size := size; td_rkey := rkey |}]
             | _ => descs
             end)) acc st = for_each l (exchange_step group) acc st).
  { induction l as [|[id info] l IH]; intros [regions descs] st; [done|].
    cbn [for_each]. apply ST_bind_ext. intros a st'. apply IH. }
  rewrite (ST_bind_step _ _ _ _ _ (eq_trans (Hext _ _ _) H)). done.
Qed.

(** The exchange of a group always succeeds: its first message lists
    every region of the catalog exactly once, in some order, with its
    captured size and element layout; its second lists, in the same order
    and under the region's id, exactly the tuples the group has after the
    call. Tuples are only added, and only tuples of this group; a region
    whose registration fails is listed without one. *)
Theorem catalog_and_tuples_spec {HO : HashOrder} {HK : HashOrderOk} group s w :
  wf_shared s w ->
  exists l s' w', l ≡ₚ map_to_list (catalog s) /\
    catalog_and_tuples group (s, w) =
      (Ok (Metadata (map describe l), Tuples group (omap (listed s' group) l)), (s', w')) /\
    wf_shared s' w' /\ catalog s' = catalog s /\ groups s' = groups s /\
    tuples s ⊆ tuples s' /\
    forall id g, g <> group -> tuples s' !! (id, g) = tuples s !! (id, g).
Proof.
  intros Hs. destruct (catalog_and_tuples_run group s w Hs) as (s' & w' & H & [A B C D E F]).
  exists (iter_catalog (catalog s)), s', w'.
  split_and!; try done; [apply iter_catalog_perm|]. intros id g Hg.
  destruct (decide (tuples s' !! (id, g) = tuples s !! (id, g))) as [|Hne]; [done|].
  by destruct (E _ Hne).
Qed.

(** ** The rendezvous *)
Definition group_of s (group : Z) : option Z := ge_pd <$> groups s !! group.

(** The connections of a group. *)
Definition members s (group : Z) : list Connection :=
  match groups s !! group with Some e => ge_connections e | None => [] end.

(** The invariant of groups that gained a member. *)
Lemma wf_shared_join s w w' group pd c :
  wf_shared s w -> frame w w' -> wf_world w' ->
  (forall p, 1 <= ledger w (RRef p) -> 1 <= ledger w' (RRef p)) ->
  1 <= ledger w' (RRef pd) -> c_pd c = Some pd -> (forall p, group_of s group = Some p -> pd = p) ->
  wf_shared {| catalog := catalog s;
               groups := <[group := {| ge_pd := pd; ge_connections := members s group ++ [c] |}]> (groups s);
               tuples := tuples s |} w'.
Proof.
  intros Hs Hf Hw Hl Hpd Hc Hg.
  assert (Hs' : wf_shared s w').
  { apply (wf_shared_frame s w w'); [done..|]. intros g e He. by apply Hl, (ws_domain _ _ Hs g). }
  destruct Hs' as [_ A B D]. split; [done| | |].
  - intros g e. cbn [groups]. rewrite lookup_insert. case_decide; [intros [= <-]; done|apply A].
  - intros g e c0. cbn [groups]. rewrite lookup_insert. case_decide; [|apply B].
    intros [= <-]. cbn [ge_connections ge_pd]. rewrite elem_of_app, list_elem_of_singleton.
    intros [Hin| ->]; [|done]. unfold members in Hin. subst.
    destruct (groups s !! g) as [e|] eqn:Ee; [|set_solver].
    rewrite (B g e c0 Ee Hin). f_equal. symmetry. apply Hg. unfold group_of. by rewrite Ee.
  - intros id g mr Hmr. destruct (D id g mr Hmr) as (info & i & Hi & (e & He & Ha) & Hrest).
    exists info, i. split; [done|]. split; [|done]. cbn [groups]. unfold group_domain. cbn [groups].
    destruct (decide (group = g)) as [->|Hne].
    + rewrite lookup_insert_eq. eexists. split; [done|]. cbn [ge_pd].
      rewrite (Hg (ge_pd e)); [done|]. unfold group_of. by rewrite He.
    + rewrite lookup_insert_ne by done. by exists e.
Qed.

(** The queue pairs that were there stay, and are of other connections. *)
Definition others_stand w w' : Prop :=
  forall other, other <> null -> standing other w -> standing other w'.
Definition others_beside w c w' : Prop :=
  forall other, other <> null -> standing other w -> beside other (c, w').

(** Accepting into a domain, to which a handle is given up, or into one
    of the connection's own. *)
Definition accepting rdma (group_pd : option Z) : ST (world W) Connection :=
  match group_pd with
  | Some pd => finally (accept_into rdma pd) (pd_drop pd)
  | None => accept rdma
  end.
Definition temporary (group_pd : option Z) : list resource :=
  match group_pd with Some pd => [RRef pd] | None => [] end.

Lemma framed_accepting rdma group_pd : preserves frame (accepting rdma group_pd).
Proof.
  unfold accepting, accept_into, accept. destruct group_pd; [|apply framed_accept_impl].
  apply (preserves_finally _); [apply framed_accept_impl|apply framed_pd_drop].
Qed.

Lemma accepting_beside rdma group_pd w :
  match accepting rdma group_pd w with
  | (Ok c, w') => others_beside w c w'
  | (_, w') => others_stand w w'
  end.
Proof.
  assert (H : forall other, other <> null -> standing other w ->
    match accepting rdma group_pd w with
    | (Ok c, w') => beside other (c, w')
    | (_, w') => standing other w'
    end).
  { intros other Ho Hw. unfold accepting. destruct group_pd as [pd|].
    2: exact (accept_beside other rdma None w Hw).
    pose proof (accept_beside other rdma (Some pd) w Hw) as H2. unfold finally, accept_into.
    destruct (accept_impl rdma (Some pd) w) as [[c|er|y|] w2]; try done.
    { destruct H2. split; [done|]. by apply (keeps_pd_drop other pd). }
    all: by apply (keeps_pd_drop other pd). }
  destruct (accepting rdma group_pd w) as [[c|e|y|] w']; intros other Ho Hw; by apply (H other).
Qed.

Lemma wp_accepting rdma group_pd w :
  wf_world w -> (forall p, group_pd = Some p -> 1 <= ledger w (RRef p)) ->
  wp (accepting rdma group_pd)
    (fun c w' => wf_world w' /\ established c w' /\ (forall p, group_pd = Some p -> c_pd c = Some p) /\
       forall r, ledger w' r = ledger w r + tally r (owned c true) - tally r (temporary group_pd))
    (fun w' => wf_world w' /\
       ((forall r, ledger w' r = ledger w r - tally r (temporary group_pd)) \/
        exists id, forall r, ledger w' r = ledger w r + tally r [RId id] - tally r (temporary group_pd))) w.
Proof.
  intros Hw Href. pose proof (wp_accept rdma group_pd w Hw Href) as Hwp.
  unfold accepting. destruct group_pd as [pd|]; cbn [temporary].
  2: { eapply wp_mono; [exact Hwp| |]; cbn beta.
       - intros c w' (H1 & H2 & _ & H3 & H4). split_and!; try done. intros r. rewrite H4. cbn [tally]. lia.
       - intros w' [H1 [H2|(id & _ & H2)]]; (split; [done|]); [left|right; exists id];
           intros r; rewrite H2; cbn [tally]; lia. }
  specialize (Href pd eq_refl).
  assert (Hdrop : forall w2, 1 <= ledger w2 (RRef pd) ->
    exists w3, snd (pd_drop pd w2) = w3 /\ moves w2 w3 [] [RRef pd]).
  { intros w2 H2. destruct (pd_drop_moves w2 pd H2) as (w3 & -> & Hm & _). by exists w3. }
  apply wp_finally. eapply wp_mono; [exact Hwp| |]; cbn beta.
  - intros c w2 (Hw2 & Hest & _ & Hpd & Hl). destruct (Hdrop w2) as (w3 & -> & Hm3).
    { rewrite Hl. pose proof (tally_nonneg (RRef pd) (owned c true)). lia. }
    split_and!; [by apply Hm3|by eapply established_moves|done|].
    intros r. rewrite (mv_ledger _ _ _ _ Hm3), Hl. cbn [tally]. lia.
  - intros w2 (Hw2 & Hl). destruct (Hdrop w2) as (w3 & -> & Hm3).
    { destruct Hl as [Hl|(id & _ & Hl)]; rewrite Hl; [done|].
      pose proof (tally_nonneg (RRef pd) [RId id]). lia. }
    split; [by apply Hm3|].
    destruct Hl as [Hl|(id & _ & Hl)]; [left|right; exists id]; intros r;
      rewrite (mv_ledger _ _ _ _ Hm3), Hl; cbn [tally]; lia.
Qed.

(** The accepting half of a rendezvous, and the joining half. *)
Definition accept_for rdma s (group : Z) : ST (world W) Connection :=
  match groups s !! group with
  | Some e => pd ← pd_clone (ge_pd e); accepting rdma (Some pd)
  | None => accepting rdma None
  end.

Definition join (group : Z) (connection : Connection) : ST (Shared * world W) unit :=
  s ← shared;
  entry ← match groups s !! group with
          | Some entry => mret entry
          | None =>
              pd ← on_failure (on_world (protection_domain connection))
                     (on_world (conn_drop connection));
              mret {| ge_pd := pd; ge_connections := [] |}
          end;
  set_groups (<[group := {| ge_pd := ge_pd entry;
                            ge_connections := ge_connections entry ++ [connection] |}]> (groups s)).

Lemma rendezvous_halves rdma group s w :
  wf_shared s w ->
  rendezvous rdma group (s, w) = (on_world (accept_for rdma s group) ≫= join group) (s, w).
Proof.
  intros Hs. unfold rendezvous, accept_for.
  rewrite (ST_bind_step shared _ (s, w) s (s, w) eq_refl).
  destruct (groups s !! group) as [e|] eqn:Eg; [|done].
  destruct (pd_clone_moves w (ge_pd e) (ws_domain _ _ Hs group e Eg)) as (w1 & Hc & _).
  unfold on_world. st_cbn. rewrite Hc. fold (accepting rdma (Some (ge_pd e))). by destruct (accepting _ _ w1) as [[] ?].
Qed.

(** An accepted connection. *)
Record accepted s (group : Z) w c w' : Prop := {
  at_wf : wf_world w';
  at_frame : frame w w';
  at_established : established c w';
  at_pd : forall p, group_of s group = Some p -> c_pd c = Some p;
  at_ledger : forall r, ledger w' r = ledger w r + tally r (owned c true);
  at_beside : others_beside w c w';
}.

(** With the handle of the group's domain taken, if there is a group. *)
Lemma accept_for_eq rdma s group w :
  wf_shared s w ->
  exists w1, accept_for rdma s group w = accepting rdma (group_of s group) w1 /\
    frame w w1 /\ moves w w1 (temporary (group_of s group)) [].
Proof.
  intros Hs. unfold accept_for, group_of. destruct (groups s !! group) as [e|] eqn:Eg; cbn [fmap option_fmap option_map].
  2: { exists w. split; [done|]. split; [done|apply moves_refl]. }
  destruct (pd_clone_moves w (ge_pd e) (ws_domain _ _ Hs _ _ Eg)) as (w1 & Hc & Hm & _).
  pose proof (framed_pd_clone (ge_pd e) w) as Hf. rewrite Hc in Hf.
  exists w1. split; [|by split]. by rewrite (ST_bind_step (pd_clone (ge_pd e)) _ w _ _ Hc).
Qed.

Lemma accept_for_run rdma s group w :
  wf_shared s w ->
  match accept_for rdma s group w with
  | (Ok c, w') => accepted s group w c w'
  | (Err _, w') => wf_shared s w' /\ others_stand w w' /\
      ((forall r, ledger w' r = ledger w r) \/
       exists id, forall r, ledger w' r = ledger w r + tally r [RId id])
  | (Panic _, _) => False
  | (Diverge, w') => blocked w'
  end.
Proof.
  intros Hs. destruct (accept_for_eq rdma s group w Hs) as (w0 & -> & Hf0 & Hm).
  assert (Hst : forall other, standing other w -> standing other w0).
  { intros other. unfold standing. by rewrite (mv_qp _ _ _ _ Hm). }
  assert (Href : forall p, group_of s group = Some p -> 1 <= ledger w0 (RRef p)).
  { intros p Hp. rewrite (mv_ledger _ _ _ _ Hm), Hp. unfold group_of in Hp.
    destruct (groups s !! group) as [e|] eqn:Eg; [|done]. cbn in Hp. injection Hp as <-.
    pose proof (ws_domain _ _ Hs _ _ Eg). pose proof (tally_nonneg (RRef (ge_pd e)) (temporary (Some (ge_pd e)))).
    cbn [tally]. lia. }
  pose proof (wp_accepting rdma (group_of s group) w0 (mv_wf _ _ _ _ Hm (ws_world _ _ Hs)) Href) as Hwp.
  pose proof (framed_accepting rdma (group_of s group) w0) as Hf.
  pose proof (accepting_beside rdma (group_of s group) w0) as Hb. unfold wp in Hwp.
  destruct (accepting rdma _ w0) as [[c|e|y|] w1]; cbn [snd] in Hf; try done.
  { destruct Hwp as (H1 & H2 & H3 & H4). split; [done|by etrans|done|done| |].
    - intros r. rewrite H4, (mv_ledger _ _ _ _ Hm). cbn [tally]. lia.
    - intros other Ho Hw. apply Hb; [done|by apply Hst]. }
  destruct Hwp as [Hw1 Hl].
  assert (Hl' : (forall r, ledger w1 r = ledger w r) \/
    exists id, forall r, ledger w1 r = ledger w r + tally r [RId id]).
  { destruct Hl as [Hl|(id & Hl)]; [left|right; exists id]; intros r; rewrite Hl, (mv_ledger _ _ _ _ Hm);
      cbn [tally]; lia. }
  split; [|split; [intros other Ho Hw; apply Hb; auto|done]].
  apply (wf_shared_moves s w w1); [done|by etrans|done|]. intros pd.
  destruct Hl' as [->|(id & ->)]; [done|]. pose proof (tally_nonneg (RRef pd) [RId id]). lia.
Qed.

Lemma accepted_shared s group w c w' : wf_shared s w -> accepted s group w c w' -> wf_shared s w'.
Proof.
  intros Hs [Hw Hf _ _ Hl _]. apply (wf_shared_moves s w w'); [done..|].
  intros pd. rewrite Hl. pose proof (tally_nonneg (RRef pd) (owned c true)). lia.
Qed.

Lemma accepted_domain s group w c w' pd :
  wf_shared s w -> accepted s group w c w' -> c_pd c = Some pd -> 1 <= ledger w' (RRef pd).
Proof.
  intros Hs Ha Hc. rewrite (at_ledger _ _ _ _ _ Ha). pose proof (owned_ref c true pd Hc).
  pose proof (ledger_ref_nonneg w pd (ws_world _ _ Hs)). lia.
Qed.

(** The connection is entered into its group. *)
Definition joined s (group pd : Z) (c : Connection) : Shared :=
  {| catalog := catalog s;
     groups := <[group := {| ge_pd := pd; ge_connections := members s group ++ [c] |}]> (groups s);
     tuples := tuples s |}.

Lemma join_run s group c pd w :
  wf_shared s w -> c_pd c = Some pd -> 1 <= ledger w (RRef pd) ->
  (forall p, group_of s group = Some p -> c_pd c = Some p) ->
  exists w', join group c (s, w) = (Ok tt, (joined s group pd c, w')) /\
    wf_shared (joined s group pd c) w' /\ frame w w' /\
    (forall p, group_of s group = Some p -> pd = p) /\
    moves w w' (match group_of s group with Some _ => [] | None => [RRef pd] end) [].
Proof.
  intros Hs Hc Hpos Hpd.
  assert (Hg : forall p, group_of s group = Some p -> pd = p).
  { intros p Hp. specialize (Hpd p Hp). congruence. }
  assert (Hwf : forall w', frame w w' -> wf_world w' -> (forall p, ledger w (RRef p) <= ledger w' (RRef p)) ->
    wf_shared (joined s group pd c) w').
  { intros w' Hf' Hw' Hmore. apply (wf_shared_join s w w' group pd c Hs Hf' Hw');
      [|specialize (Hmore pd); lia|done..]. intros p Hp. specialize (Hmore p). lia. }
  unfold join. rewrite (ST_bind_step shared _ (s, w) s (s, w) eq_refl).
  unfold joined, group_of, members in *. destruct (groups s !! group) as [e|] eqn:Eg; cbn in Hg |- *.
  - exists w. st_cbn. unfold set_groups. rewrite <- (Hg _ eq_refl).
    split_and!; [done|apply Hwf; [done|apply Hs|done]|done|by intros p [= <-]|apply moves_refl].
  - destruct (pd_clone_moves w pd Hpos) as (w2 & Hcl & Hm2 & _). exists w2.
    pose proof (framed_pd_clone pd w) as Hf. rewrite Hcl in Hf. cbn [snd] in Hf.
    assert (Hprot : on_failure (on_world (protection_domain c)) (on_world (conn_drop c)) (s, w) =
      (Ok pd, (s, w2))).
    { unfold on_failure, on_world, protection_domain. by rewrite Hc, Hcl. }
    st_cbn. rewrite Hprot. unfold set_groups. cbn [ge_pd ge_connections app].
    split_and!; [done| |done|done|done]. apply Hwf; [done|by apply Hm2, Hs|].
    intros p. rewrite (mv_ledger _ _ _ _ Hm2). pose proof (tally_nonneg (RRef p) [RRef pd]).
    cbn [tally] in *. lia.
Qed.

(** The rendezvous, by its outcome. *)
Lemma rendezvous_run rdma group s w :
  wf_shared s w ->
  match rendezvous rdma group (s, w) with
  | (Ok _, (s', w')) => exists c pd, s' = joined s group pd c /\ wf_shared s' w' /\
      established c w' /\ c_pd c = Some pd /\ (forall p, group_of s group = Some p -> pd = p) /\
      others_beside w c w' /\
      forall r, ledger w' r = ledger w r + tally r (owned c true) +
        tally r (match group_of s group with Some _ => [] | None => [RRef pd] end)
  | (Err _, (s', w')) => s' = s /\ wf_shared s w' /\ others_stand w w' /\
      ((forall r, ledger w' r = ledger w r) \/
       exists id, forall r, ledger w' r = ledger w r + tally r [RId id])
  | (Panic _, _) => False
  | (Diverge, (_, w')) => blocked w'
  end.
Proof.
  intros Hs. rewrite (rendezvous_halves rdma group s w Hs). st_cbn.
  pose proof (accept_for_run rdma s group w Hs) as Ha. unfold on_world.
  destruct (accept_for rdma s group w) as [[c|e|y|] w1]; try done.
  destruct (at_established _ _ _ _ _ Ha) as (_ & _ & (pd & Hc) & _).
  destruct (join_run s group c pd w1 (accepted_shared _ _ _ _ _ Hs Ha) Hc
    (accepted_domain _ _ _ _ _ _ Hs Ha Hc) (at_pd _ _ _ _ _ Ha)) as (w' & -> & Hs' & _ & Hg & Hm).
  exists c, pd. split_and!; [done|done|eapply established_moves; [apply Ha|exact Hm]|done|done| |].
  - intros other Ho Hw. destruct (at_beside _ _ _ _ _ Ha other Ho Hw) as [H1 H2]. split; [done|].
    unfold standing in *. cbn [snd] in *. by rewrite (mv_qp _ _ _ _ Hm).
  - intros r. rewrite (mv_ledger _ _ _ _ Hm), (at_ledger _ _ _ _ _ Ha). cbn [tally]. lia.
Qed.

(** The rendezvous accepts the reader into its group: into the
    group's domain when the group exists, whose connections all share it;
    else into a domain of the connection's own, which becomes the
    group's, and a handle to which the group then holds. A failing accept
    leaves catalog, groups and tuples alone. The invariant is kept, other
    groups are untouched, and nothing leaks but what accepting leaks. *)
Theorem rendezvous_spec rdma group s w :
  wf_shared s w ->
  match rendezvous rdma group (s, w) with
  | (Ok _, (s', w')) =>
      wf_shared s' w' /\ catalog s' = catalog s /\ tuples s' = tuples s /\
      exists c pd, established c w' /\ c_pd c = Some pd /\
        (forall p, group_of s group = Some p -> pd = p) /\
        groups s' = <[group := {| ge_pd := pd; ge_connections := members s group ++ [c] |}]> (groups s) /\
        forall r, ledger w' r = ledger w r + tally r (owned c true) +
          tally r (match group_of s group with Some _ => [] | None => [RRef pd] end)
  | (Err _, (s', w')) => s' = s /\ wf_shared s w' /\
      ((forall r, ledger w' r = ledger w r) \/
       exists id, forall r, ledger w' r = ledger w r + tally r [RId id])
  | (Panic _, _) => False
  | (Diverge, (_, w')) => blocked w'
  end.
Proof.
  intros Hs. pose proof (rendezvous_run rdma group s w Hs) as H.
  destruct (rendezvous rdma group (s, w)) as [[[]|e|y|] [s' w']]; try done; [|by destruct H as (? & ? & _ & ?)].
  destruct H as (c & pd & -> & Hs' & H1 & H2 & H3 & _ & H4). split_and!; [done..|]. by exists c, pd.
Qed.
End invariant.

(** ** Witnesses *)

(** One traversal order. *)
Definition map_order : HashOrder :=
  {| iter_catalog := map_to_list; iter_groups := map_to_list; iter_tuples := map_to_list |}.

Lemma map_order_ok : HashOrderOk (H := map_order).
Proof. split; done. Qed.

(** Four 8-byte elements shared at address 4096, offered to one reader of
    group 3; over a domain the group and its connection hold. *)
Definition sample_info : RegionInfo :=
  {| ri_name := rstr "table"; ri_remote_addr := 4096; ri_size := 32; ri_elem_size := 8;
     ri_elem_align := 8; ri_elem_type := rstr "u64" |}.
Definition offered : Shared := {| catalog := {[ 5 := sample_info ]}; groups := ∅; tuples := ∅ |}.
Definition sample_shared : Shared :=
  {| catalog := {[ 5 := sample_info ]};
     groups := {[ 3 := {| ge_pd := 0; ge_connections := [sample_conn] |} ]}; tuples := ∅ |}.
Definition group_world : world sim :=
  World (s_with_qps (sim0 []) [5]) []
    {[ 0 := {| pi_context := 7; pi_pd := 4; pi_refs := 2 |} ]} {[ 1 := 0 ]} 2.

Lemma sample_shared_wf : wf_shared sample_shared group_world.
Proof.
  split.
  - intros pd i H. cbn in H. apply lookup_singleton_Some in H as [<- <-]. cbn. lia.
  - intros g e H. cbn in H. apply lookup_singleton_Some in H as [<- <-]. by vm_compute.
  - intros g e c H Hc. cbn in H. apply lookup_singleton_Some in H as [<- <-].
    cbn in Hc. apply list_elem_of_singleton in Hc as ->. done.
  - intros id g mr H. cbn in H. by rewrite lookup_empty in H.
Qed.

Lemma offered_wf events : wf_shared offered (listening_world events).
Proof.
  split.
  - intros pd i H. cbn in H. by rewrite lookup_empty in H.
  - intros g e H. cbn in H. by rewrite lookup_empty in H.
  - intros g e c H. cbn in H. by rewrite lookup_empty in H.
  - intros id g mr H. cbn in H. by rewrite lookup_empty in H.
Qed.

Lemma tuple_of_spec_witness :
  exists s' w' t, tuple_of 5 3 (sample_shared, group_world) = (Ok (Some t), (s', w')) /\
    tuple_of 5 3 (s', w') = (Ok (Some t), (s', w')) /\ fst t = (4096, 32) /\ wf_shared s' w'.
Proof.
  pose proof (tuple_of_spec 5 3 sample_shared group_world sample_shared_wf) as H.
  destruct (tuple_of 5 3 (sample_shared, group_world)) as [[[t|]|e|y|] [s' w']] eqn:E;
    try (vm_compute in E; discriminate E).
  destruct H as (Hs & _ & _ & mr & info & Hi & -> & Hagain & _).
  exists s', w', (ri_remote_addr info, ri_size info, mr_rkey mr).
  split; [done|]. split; [exact Hagain|]. split; [|exact Hs].
  vm_compute in Hi. by injection Hi as <-.
Defined.

Lemma catalog_and_tuples_spec_witness :
  exists l s' w', catalog_and_tuples (HO := map_order) 3 (sample_shared, group_world) =
    (Ok (Metadata (map describe l), Tuples 3 (omap (listed s' 3) l)), (s', w')) /\
    l = [(5, sample_info)].
Proof.
  destruct (catalog_and_tuples_spec (HO := map_order) (HK := map_order_ok) 3 sample_shared
    group_world sample_shared_wf) as (l & s' & w' & Hl & H & _).
  exists l, s', w'. split; [exact H|]. apply Permutation_singleton_r.
  rewrite Hl. by rewrite <- (map_to_list_singleton 5 sample_info).
Defined.

Lemma rendezvous_spec_witness :
  (exists s' w' e, rendezvous sample_listener 3 (offered, listening_world [4; 9]) = (Ok tt, (s', w')) /\
     groups s' !! 3 = Some e /\ ledger w' (RRef (ge_pd e)) = 2) /\
  (exists s' w', rendezvous sample_listener 3 (sample_shared, group_world) = (Diverge, (s', w')) /\
     blocked w').
Proof.
  split.
  - pose proof (rendezvous_spec sample_listener 3 offered (listening_world [4; 9]) (offered_wf _)) as H.
    destruct (rendezvous sample_listener 3 (offered, listening_world [4; 9])) as
      [[[]|e|y|] [s' w']] eqn:E; try (vm_compute in E; discriminate E).
    destruct H as (_ & _ & _ & c & pd & _ & _ & _ & Hg & _).
    exists s', w', {| ge_pd := pd; ge_connections := members offered 3 ++ [c] |}.
    split; [done|]. rewrite Hg, lookup_insert_eq. split; [done|].
    vm_compute in E. injection E as <- <-. vm_compute in Hg. injection Hg as <- _.
    vm_compute. done.
  - pose proof (rendezvous_spec sample_listener 3 sample_shared group_world sample_shared_wf) as H.
    destruct (rendezvous sample_listener 3 (sample_shared, group_world)) as
      [[[]|e|y|] [s' w']] eqn:E; try (vm_compute in E; discriminate E).
    by exists s', w'.
Defined.
