(* ===== verification/ProvidersFrame.v ===== *)
(** * The sharing side: domains keep their identity

    No request, exchange or handshake makes a live handle mean another
    domain, reuses a location or takes back what was done. *)
From S2P Require Import Prelude Pod Meta Verbs VerbsSpec VerbsFacts VerbsFrame Providers ProvidersFacts.

Section framed.
Context {P : Profile} {W : Type} {V : Verbs W}.

Abbreviation framed_shared := (preserves (fun st st' : Shared * world W => frame (snd st) (snd st'))).

Hint Extern 1 (framed_shared shared) => intros []; reflexivity : preserves.
Hint Extern 1 (framed_shared (set_tuples _)) => intros []; reflexivity : preserves.
Hint Extern 1 (framed_shared (set_groups _)) => intros []; reflexivity : preserves.
Hint Resolve framed_call framed_pd_clone framed_pd_drop framed_conn_drop framed_check
  framed_check_ptr framed_arc_get : preserves.

Lemma framed_mr_drop mr : preserves frame (mr_drop mr).
Proof. unfold mr_drop. eauto with preserves. Qed.

Lemma framed_pd_register_addr pd addr size : preserves frame (pd_register_addr pd addr size).
Proof.
  unfold pd_register_addr. destruct (size =? 0); [eauto with preserves|].
  apply (preserves_bind _); [eauto with preserves|]. intros i.
  apply (preserves_bind _); [eauto with preserves|]. intros p.
  apply (preserves_bind _); [eauto with preserves|]. intros mr.
  apply (preserves_bind _); [eauto with preserves|]. intros []. eauto with preserves.
Qed.

Lemma framed_tuples_insert key mr : framed_shared (tuples_insert key mr).
Proof.
  unfold tuples_insert. apply (preserves_bind _); [eauto with preserves|]. intros s.
  apply (preserves_bind _); [eauto with preserves|]. intros [].
  destruct (tuples s !! key); [|eauto with preserves]. apply preserves_on_world, framed_mr_drop.
Qed.

Lemma framed_tuple_of id group : framed_shared (tuple_of id group).
Proof.
  unfold tuple_of. apply (preserves_bind _); [eauto with preserves|]. intros s.
  destruct (tuples s !! (id, group)); [eauto with preserves|].
  apply (preserves_bind _); [eauto with preserves|]. intros s1.
  destruct (groups s1 !! group) as [e|]; [|eauto with preserves].
  apply (preserves_bind _); [eauto with preserves|]. intros pd.
  apply (preserves_finally _); [|eauto with preserves].
  apply (preserves_bind _); [eauto with preserves|]. intros s2.
  destruct (catalog s2 !! id) as [info|]; [|eauto with preserves].
  apply (preserves_bind _); [apply preserves_on_world, framed_pd_register_addr|]. intros mr.
  apply (preserves_bind _); [apply framed_tuples_insert|]. eauto with preserves.
Qed.

Lemma framed_catalog_and_tuples {HO : HashOrder} group : framed_shared (catalog_and_tuples group).
Proof.
  unfold catalog_and_tuples. apply (preserves_bind _); [eauto with preserves|]. intros s.
  apply (preserves_bind _); [|intros []; eauto with preserves].
  apply (preserves_for_each _). intros [id info] [regions descs].
  apply (preserves_bind _); [apply (preserves_catch _), framed_tuple_of|]. eauto with preserves.
Qed.

Lemma framed_rendezvous rdma group : framed_shared (rendezvous rdma group).
Proof.
  unfold rendezvous, accept_into, accept. apply (preserves_bind _); [eauto with preserves|]. intros s.
  apply (preserves_bind _).
  { destruct (groups s !! group); eauto with preserves. }
  intros group_pd. apply (preserves_bind _).
  { destruct group_pd; apply preserves_on_world; [apply (preserves_finally _)|];
      [apply framed_accept_impl|eauto with preserves|apply framed_accept_impl]. }
  intros c. apply (preserves_bind _); [eauto with preserves|]. intros s1.
  apply (preserves_bind _); [|eauto with preserves].
  destruct (groups s1 !! group); [eauto with preserves|].
  apply (preserves_bind _); [|eauto with preserves]. apply (preserves_on_failure _).
  - apply preserves_on_world. unfold protection_domain. destruct (c_pd c); eauto with preserves.
  - eauto with preserves.
Qed.

Lemma framed_handshake_body {HO : HashOrder} rdma :
  preserves (fun st st' : Channel * (Shared * world W) => frame (snd (snd st)) (snd (snd st')))
    (handshake_body rdma).
Proof.
  assert (Hfst : forall A (m : ST Channel A),
    preserves (fun st st' : Channel * (Shared * world W) => frame (snd (snd st)) (snd (snd st'))) (on_fst m)).
  { intros A m [c s]. unfold on_fst. destruct (m c). reflexivity. }
  assert (PreOrder (fun st st' : Channel * (Shared * world W) => frame (snd (snd st)) (snd (snd st')))).
  { apply (preorder_preimage (fun st : Channel * (Shared * world W) => snd (snd st)) frame), frame_preorder. }
  unfold handshake_body, greet, join_group.
  apply (preserves_bind _).
  { apply (preserves_bind _); [apply Hfst|]. intros []; eauto with preserves.
    destruct (_ =? _); eauto with preserves. }
  intros []. apply (preserves_bind _).
  { apply (preserves_bind _); [apply Hfst|]. intros []; eauto with preserves. }
  intros group. apply (preserves_bind _); [apply (preserves_on_snd _ _ (framed_rendezvous rdma group))|].
  intros []. apply (preserves_bind _); [apply (preserves_on_snd _ _ (framed_catalog_and_tuples group))|].
  intros x. apply (preserves_bind _); [apply Hfst|]. eauto with preserves.
Qed.
End framed.
