(* ===== verification/ProviderOps.v ===== *)
(** * The sharing side: registration, service and drop

    Regions get fresh ids and keep their buffers; the handshake grants
    nothing before the greeting and the group join; a dropped provider
    deregisters its memory first. *)
From S2P Require Import Prelude Pod Meta Verbs VerbsSpec VerbsSim VerbsFacts.
From S2P Require Import VerbsFrame Providers ProvidersFacts.

Section provider_ops.
Context {P : Profile} {W : Type} {V : Verbs W}.
Implicit Types (p : SharedMemoryRegionProvider) (h : gmap Z Owner) (w : world W).

(** ** Registration *)

(** What [register_typed] records of a region. *)
Definition info_of (name : rstring) (buffer : rvec) : RegionInfo :=
  let T := v_type buffer in
  {| ri_name := name; ri_remote_addr := as_u64 (v_ptr buffer);
     ri_size := zlen (v_elems buffer) * size_of (rt_layout T);
     ri_elem_size := as_u32 (size_of (rt_layout T));
     ri_elem_align := as_u32 (align_of (rt_layout T)); ri_elem_type := rt_name T |}.

(** Every region has an id below the next one, an owner and a catalog
    entry; the owner is alive, and the catalog has the address, the size
    and the layout of its buffer. *)
Record wf_provider p h w : Prop := {
  wp_next : 0 <= p_next_id p;
  wp_ids : forall id, is_Some (p_owners p !! id) \/ is_Some (catalog (p_shared p) !! id) ->
    id < p_next_id p;
  wp_owned : forall id info, catalog (p_shared p) !! id = Some info ->
    exists l o, p_owners p !! id = Some l /\ h !! l = Some o /\ 1 <= ow_refs o /\
      info = info_of (ri_name info) (ow_box o);
  wp_heap : forall l, is_Some (h !! l) -> l < next_loc w;
}.

(** The run of a registration under a fresh id. *)
Definition registered name buffer p h w (id next : Z) :=
  ({| h_id := id; h_owner := next_loc w; h_view := v_type buffer |},
   ({| p_addr := p_addr p;
       p_shared := {| catalog := <[id := info_of name buffer]> (catalog (p_shared p));
                      groups := groups (p_shared p); tuples := tuples (p_shared p) |};
       p_owners := <[id := next_loc w]> (p_owners p);
       p_service := p_service p; p_next_id := next |},
    (<[next_loc w := {| ow_box := buffer; ow_borrows := 0; ow_refs := 2 |}]> h,
     World (env w) (log w) (arcs w) (cells w) (next_loc w + 1)))).

Lemma register_run name buffer p h w (id := p_next_id p) next :
  0 < size_of (rt_layout (v_type buffer)) -> p_owners p !! id = None ->
  uint_add 32 id 1 = Ok next ->
  fits 64 (zlen (v_elems buffer) * size_of (rt_layout (v_type buffer))) ->
  register_typed name buffer (p, (h, w)) =
    let '(hd, s) := registered name buffer p h w id next in (Ok hd, s).
Proof.
  intros Hpos Ho Hadd Hsz. unfold register_typed.
  rewrite (proj2 (Z.ltb_lt _ _) Hpos). cbn [negb]. unfold provider. st_cbn. fold id.
  rewrite Hadd. unfold uint_mul. rewrite overflowed_fits by done.
  unfold set_provider, on_shared, on_snd, owner_new, owner_clone, owner_drop, owner_get, owner_set.
  st_cbn. rewrite lookup_insert_eq. st_cbn. rewrite lookup_insert_eq. st_cbn.
  cbn [p_owners]. rewrite Ho. st_cbn. rewrite lookup_insert_eq. cbn [ow_refs ow_box ow_borrows Z.add Z.eqb].
  unfold registered. cbn. rewrite !insert_insert_eq.
  change (1 + 1 + 1 =? 1) with false. cbn. by rewrite insert_insert_eq.
Qed.

(** C27: registering a region moves the buffer in without touching it: the
    region gets the next id, which no region had before; the catalog
    gains exactly its entry, with the buffer's address, its size in bytes
    and its element layout; and the buffer has two owners, the provider
    and the handle, so it outlives the handle. A vector of zero-sized
    elements is a panic that changes nothing, and so is running out of
    ids where overflow is checked. *)
Theorem register_typed_spec name buffer p h w :
  wf_provider p h w -> fits 64 (zlen (v_elems buffer) * size_of (rt_layout (v_type buffer))) ->
  let id := p_next_id p in
  match register_typed name buffer (p, (h, w)) with
  | (Ok hd, (p', (h', w'))) =>
      0 < size_of (rt_layout (v_type buffer)) /\
      h_id hd = id /\ h_owner hd = next_loc w /\ h_view hd = v_type buffer /\
      catalog (p_shared p) !! id = None /\
      p_shared p' = {| catalog := <[id := info_of name buffer]> (catalog (p_shared p));
                       groups := groups (p_shared p); tuples := tuples (p_shared p) |} /\
      p_owners p' = <[id := next_loc w]> (p_owners p) /\
      h' = <[next_loc w := {| ow_box := buffer; ow_borrows := 0; ow_refs := 2 |}]> h /\
      (log w', env w') = (log w, env w) /\
      (id + 1 < 2 ^ 32 -> wf_provider p' h' w')
  | (Panic _, s') => s' = (p, (h, w)) /\
      (size_of (rt_layout (v_type buffer)) <= 0 \/ ~ fits 32 (id + 1))
  | _ => False
  end.
Proof.
  intros Hwf Hsz id.
  destruct (Z.ltb_spec 0 (size_of (rt_layout (v_type buffer)))) as [Hpos|Hneg].
  2: { unfold register_typed. rewrite (proj2 (Z.ltb_ge _ _) Hneg). split; [done|by left]. }
  assert (Hadd : (exists y, uint_add 32 id 1 = Panic y /\ ~ fits 32 (id + 1)) \/
    exists next, uint_add 32 id 1 = Ok next /\ (id + 1 < 2 ^ 32 -> next = id + 1)).
  { unfold uint_add. destruct (overflowed_cases 32 (id + 1) "attempt to add with overflow") as
      [[Hf E]|[(Hf & _ & E)|(Hf & _ & E)]]; rewrite E.
    - right. by exists (id + 1).
    - left. by eexists.
    - right. eexists. split; [done|]. intros. pose proof (wp_next _ _ _ Hwf). unfold fits in Hf. lia. }
  destruct Hadd as [(y & Hy & Hf)|(next & Hadd' & Hnext)].
  { unfold register_typed. rewrite (proj2 (Z.ltb_lt _ _) Hpos). cbn [negb].
    rewrite (ST_bind_step provider _ (p, (h, w)) p (p, (h, w)) eq_refl). fold id. rewrite Hy.
    split; [done|by right]. }
  assert (Ho : p_owners p !! id = None).
  { destruct (p_owners p !! id) eqn:E; [|done].
    assert (id < p_next_id p) by (apply (wp_ids _ _ _ Hwf); left; by rewrite E). unfold id in *. lia. }
  assert (Hc : catalog (p_shared p) !! id = None).
  { destruct (catalog (p_shared p) !! id) eqn:E; [|done].
    assert (id < p_next_id p) by (apply (wp_ids _ _ _ Hwf); right; by rewrite E). unfold id in *. lia. }
  rewrite (register_run name buffer p h w next Hpos Ho Hadd' Hsz). unfold registered.
  cbn [h_id h_owner h_view p_shared p_owners].
  split_and!; try done. intros Hlt. destruct Hwf as [A B C D]. split.
  - cbn [p_next_id]. rewrite (Hnext Hlt). fold id in A. lia.
  - intros id'. cbn [p_owners p_shared catalog p_next_id]. rewrite !lookup_insert, (Hnext Hlt).
    case_decide as E; [lia|]. intros H. specialize (B _ H). fold id in B. lia.
  - intros id' info. cbn [p_owners p_shared catalog]. rewrite !lookup_insert.
    case_decide as E.
    + intros [= <-]. eexists _, _. split; [done|]. split; [apply lookup_insert_eq|]. done.
    + intros Hi. destruct (C _ _ Hi) as (l & o & Hl & Hh & Hr & Heq). exists l, o.
      split_and!; try done. rewrite lookup_insert_ne; [done|]. intros El.
      assert (l < next_loc w) by (apply D; by rewrite Hh). lia.
  - intros l. cbn [next_loc]. rewrite lookup_insert. case_decide; [lia|].
    intros H'. specialize (D _ H'). lia.
Qed.

(** ** The handshake *)

(** The handshake, by its first two messages. *)
Lemma handshake_cases {HO : HashOrder} rdma c s w :
  let '(x, (c', (s', w'))) := handshake_body rdma (c, (s, w)) in
  ((s', w') = (s, w) /\ forall group, x <> Ok group) \/
  exists c1 c2 c3 group,
    channel_receive c = (Ok (Hello PROTOCOL_VERSION), c1) /\
    channel_send (Welcome PROTOCOL_VERSION) c1 = (Ok tt, c2) /\
    channel_receive c2 = (Ok (WantGroup group), c3) /\
    handshake_body rdma (c, (s, w)) =
      (on_snd (rendezvous rdma group);;
       exchange ← on_snd (catalog_and_tuples group);
       on_fst (send_exchange exchange);;
       mret group) (c3, (s, w)).
Proof.
  unfold handshake_body at 1 2, greet, join_group, on_fst. st_cbn.
  destruct (channel_receive c) as [[msg|e|y|] c1]; try by left.
  destruct msg as [version| | | | |]; try by left.
  destruct (Z.eqb_spec version PROTOCOL_VERSION) as [->|]; [|by left].
  destruct (channel_send (Welcome PROTOCOL_VERSION) c1) as [[[]|e|y|] c2] eqn:Es; try by left.
  destruct (channel_receive c2) as [[msg|e|y|] c3] eqn:Er; try by left.
  destruct msg as [| |group| | |]; try by left. st_cbn.
  match goal with |- let '(_, _) := ?t in _ => destruct t as [x [c' [s' w']]] eqn:E end.
  right. by exists c1, c2, c3, group.
Qed.

(** C25: nothing is granted before the greeting and the group join: unless
    the reader's first two messages are a greeting of this protocol
    version, which is answered, and a group join, the handshake leaves
    the groups, the tuples, the catalog and the device untouched; and
    then it fails. *)
Theorem handshake_guards {HO : HashOrder} rdma c s w :
  let '(x, (c', (s', w'))) := handshake_body rdma (c, (s, w)) in
  ((s', w') = (s, w) /\ forall group, x <> Ok group) \/
  exists c1 c2 c3 group,
    channel_receive c = (Ok (Hello PROTOCOL_VERSION), c1) /\
    channel_send (Welcome PROTOCOL_VERSION) c1 = (Ok tt, c2) /\
    channel_receive c2 = (Ok (WantGroup group), c3) /\
    handshake_body rdma (c, (s, w)) =
      (on_snd (rendezvous rdma group);;
       exchange ← on_snd (catalog_and_tuples group);
       on_fst (send_exchange exchange);;
       mret group) (c3, (s, w)).
Proof. apply handshake_cases. Qed.

(** ** The drop *)

(** Which events a computation adds to the log. *)
Definition logs_only (ok : event -> Prop) {A} (m : ST (world W) A) : Prop :=
  forall w, exists later, log (snd (m w)) = later ++ log w /\ Forall ok later.

Lemma logs_bind ok {A B} (m : ST (world W) A) (k : A -> ST (world W) B) :
  logs_only ok m -> (forall a, logs_only ok (k a)) -> logs_only ok (m ≫= k).
Proof.
  intros Hm Hk w. destruct (Hm w) as (l1 & H1 & F1). st_cbn.
  destruct (m w) as [[a|e|y|] w1]; cbn [snd] in *; try by exists l1.
  destruct (Hk a w1) as (l2 & H2 & F2). exists (l2 ++ l1). rewrite H2, H1, app_assoc.
  split; [done|]. by apply Forall_app.
Qed.

Lemma logs_pure ok {A} (m : ST (world W) A) : (forall w, log (snd (m w)) = log w) -> logs_only ok m.
Proof. intros H w. exists []. by rewrite H. Qed.

Lemma logs_call (ok : event -> Prop) {T} (c : ccall T) : (forall a, ok (Ev c a)) -> logs_only ok (call c).
Proof. intros H w. rewrite call_after. eexists [_]. split; [done|]. by repeat constructor. Qed.

Lemma logs_for_each ok {X} (l : list X) (body : X -> ST (world W) unit) :
  (forall x, logs_only ok (body x)) -> logs_only ok (for_each l (fun x _ => body x) tt).
Proof.
  intros H. induction l as [|x l IH]; [by apply logs_pure|]. cbn [for_each].
  apply logs_bind; [done|]. by intros [].
Qed.

(** A deregistration; a destruction of what registrations hang on. *)
Definition deregisters (e : event) : option ptr :=
  match e with
  | Ev c _ => match c with DeregMr mr => Some mr | _ => None end
  end.
Definition destroys (e : event) : bool :=
  match e with
  | Ev c _ => match c with DeallocPd _ | DestroyQp _ | DestroyId _ | DestroyCq _ => true | _ => false end
  end.
Definition no_dereg (e : event) : Prop := deregisters e = None.

Lemma logs_pd_drop pd : logs_only no_dereg (pd_drop pd).
Proof.
  unfold pd_drop. apply logs_bind.
  { apply logs_pure. intros w. unfold arc_get. by destruct (_ !! _). }
  intros i. destruct (_ =? _); [|by apply logs_pure].
  apply logs_bind; [by apply logs_call|]. intros _. by apply logs_pure.
Qed.

Lemma logs_conn_drop c : logs_only no_dereg (conn_drop c).
Proof.
  unfold conn_drop. apply logs_bind.
  { destruct (_ =? _); [by apply logs_pure|]. apply logs_bind; [by apply logs_call|]. intros qp.
    apply logs_bind.
    - destruct (qp =? null); [by apply logs_pure|].
      apply logs_bind; [by apply logs_call|]. intros; by apply logs_call.
    - intros _. apply logs_bind; [by apply logs_call|]. intros; by apply logs_pure. }
  intros []. apply logs_bind.
  { destruct (_ =? _); [by apply logs_pure|].
    apply logs_bind; [by apply logs_call|]. intros; by apply logs_pure. }
  intros []. apply logs_bind.
  { destruct (_ =? _); [by apply logs_pure|by apply logs_call]. }
  intros []. destruct (c_pd c); [apply logs_pd_drop|by apply logs_pure].
Qed.

Lemma logs_group_drop g : logs_only no_dereg (group_drop g).
Proof.
  unfold group_drop. apply logs_bind; [apply logs_pd_drop|]. intros [].
  apply logs_for_each, logs_conn_drop.
Qed.

(** *** Handles *)
Definition conn_handles (c : Connection) : list resource :=
  match c_pd c with Some pd => [RRef pd] | None => [] end.
Definition group_handles (g : GroupEntry) : list resource :=
  RRef (ge_pd g) :: flat_map conn_handles (ge_connections g).
Definition handles (l : list (Z * GroupEntry)) : list resource :=
  flat_map (fun e => group_handles (snd e)) l.

(** Enough references are live to drop the handles [l]. *)
Definition covered (l : list resource) w : Prop :=
  wf_world w /\ forall pd, tally (RRef pd) l <= ledger w (RRef pd).

(** From [w] to [w'] exactly the references [l] are gone, and nothing is
    deregistered. *)
Definition unref (l : list resource) w w' : Prop :=
  wf_world w' /\ (forall pd, ledger w' (RRef pd) = ledger w (RRef pd) - tally (RRef pd) l).

Lemma unref_app l k w1 w2 w3 : unref l w1 w2 -> unref k w2 w3 -> unref (l ++ k) w1 w3.
Proof. intros [A B] [C D]. split; [done|]. intros pd. rewrite D, B, tally_app. lia. Qed.

Lemma covered_rest l k w w' : covered (l ++ k) w -> unref l w w' -> covered k w'.
Proof.
  intros [A B] [C D]. split; [done|]. intros pd. specialize (B pd). rewrite tally_app in B.
  rewrite D. lia.
Qed.

Lemma covered_head l k w : covered (l ++ k) w -> covered l w.
Proof.
  intros [A B]. split; [done|]. intros pd. specialize (B pd). rewrite tally_app in B.
  pose proof (tally_nonneg (RRef pd) k). lia.
Qed.

Context {VO : VerbsOk W}.

Lemma conn_drop_unref c w :
  covered (conn_handles c) w -> exists w', conn_drop c w = (Ok tt, w') /\ unref (conn_handles c) w w'.
Proof.
  intros [Hw Hc]. destruct (conn_drop_ledger c w Hw) as (w' & H & Hw' & Hl & _).
  { intros pd Hpd. specialize (Hc pd). unfold conn_handles in Hc. rewrite Hpd in Hc.
    cbn [tally] in Hc. case_decide; [lia|congruence]. }
  exists w'. split; [done|]. split; [done|]. intros pd. rewrite Hl. f_equal.
  unfold owned, conn_handles, unless_null. rewrite !tally_app.
  repeat case_match; cbn [tally]; repeat case_decide; try congruence; lia.
Qed.

Lemma group_drop_unref g w :
  covered (group_handles g) w ->
  exists w', group_drop g w = (Ok tt, w') /\ unref (group_handles g) w w'.
Proof.
  intros H. unfold group_drop, group_handles in *.
  pose proof (covered_head [RRef (ge_pd g)] (flat_map conn_handles (ge_connections g)) w H) as [_ Hr].
  destruct (pd_drop_moves w (ge_pd g)) as (w1 & Hd & Hm & _).
  { specialize (Hr (ge_pd g)). cbn [tally] in Hr. case_decide; [lia|done]. }
  assert (U1 : unref [RRef (ge_pd g)] w w1).
  { split; [apply Hm, H|]. intros pd. rewrite (mv_ledger _ _ _ _ Hm). cbn [tally]. lia. }
  assert (Hloop : forall l w1, covered (flat_map conn_handles l) w1 ->
    exists w2, for_each l (fun c _ => conn_drop c) tt w1 = (Ok tt, w2) /\
      unref (flat_map conn_handles l) w1 w2).
  { induction l as [|c l IH]; intros w1' Hc.
    { exists w1'. split; [done|]. split; [apply Hc|]. intros pd. cbn [flat_map tally]. lia. }
    cbn [flat_map] in *. destruct (conn_drop_unref c w1' (covered_head _ _ _ Hc)) as (w2 & E & U).
    destruct (IH w2 (covered_rest _ _ _ _ Hc U)) as (w3 & E3 & U3).
    exists w3. cbn [for_each]. rewrite (ST_bind_step _ _ _ _ _ E). split; [done|].
    by eapply unref_app. }
  destruct (Hloop (ge_connections g) w1) as (w2 & E2 & U2).
  { exact (covered_rest [RRef (ge_pd g)] _ _ _ H U1). }
  exists w2. rewrite (ST_bind_step _ _ _ _ _ Hd). split; [done|].
  exact (unref_app [RRef (ge_pd g)] _ _ _ _ U1 U2).
Qed.

Lemma groups_drop_unref l : forall (s : Shared) w,
  covered (handles l) w ->
  exists w' late, for_each l (fun '(_, g) _ => on_world (group_drop g)) tt (s, w) = (Ok tt, (s, w')) /\
    unref (handles l) w w' /\ log w' = late ++ log w /\ Forall no_dereg late.
Proof.
  induction l as [|[id g] l IH]; intros s w Hc.
  { exists w, []. split; [done|]. split; [|done]. split; [apply Hc|].
    intros pd. cbn [handles flat_map tally]. lia. }
  cbn [handles flat_map snd] in Hc. fold (handles l) in Hc.
  destruct (group_drop_unref g w (covered_head _ _ _ Hc)) as (w1 & E1 & U1).
  destruct (logs_group_drop g w) as (l1 & L1 & F1). rewrite E1 in L1. cbn [snd] in L1.
  destruct (IH s w1 (covered_rest _ _ _ _ Hc U1)) as (w2 & l2 & E2 & U2 & L2 & F2).
  exists w2, (l2 ++ l1). cbn [for_each].
  assert (E1' : on_world (group_drop g) (s, w) = (Ok tt, (s, w1))) by (unfold on_world; by rewrite E1).
  rewrite (ST_bind_step _ _ _ _ _ E1'). split; [done|].
  split; [exact (unref_app _ _ _ _ _ U1 U2)|]. rewrite L2, L1, app_assoc.
  split; [done|]. by apply Forall_app.
Qed.

Lemma tally_perm r l k : l ≡ₚ k -> tally r l = tally r k.
Proof.
  induction 1 as [|x l k H IH|x y l|l1 l2 l3 H1 IH1 H2 IH2]; cbn [tally]; [done| |lia|congruence].
  by rewrite IH.
Qed.

Lemma covered_perm l k w : l ≡ₚ k -> covered l w -> covered k w.
Proof. intros H [A B]. split; [done|]. intros pd. by rewrite <- (tally_perm _ _ _ H). Qed.

(** *** Tuples *)
Definition tuple_held (e : Z * Z * MemoryRegion) : resource := RMr (mr_mr (snd e)).

Lemma tally_ref_tuples pd l : tally (RRef pd) (map tuple_held l) = 0.
Proof. induction l as [|e l IH]; cbn; [done|]. rewrite IH. case_decide; [done|lia]. Qed.

Lemma mr_drops l : forall (s : Shared) w,
  exists w' early, for_each l (fun '(_, mr) _ => on_world (mr_drop mr)) tt (s, w) = (Ok tt, (s, w')) /\
    moves w w' [] (map tuple_held l) /\
    log w' = early ++ log w /\ Forall (fun e => destroys e = false) early /\
    omap deregisters early = rev (map (fun e : Z * Z * MemoryRegion => mr_mr (snd e)) l).
Proof.
  induction l as [|[key mr] l IH]; intros s w; [exists w, []; split_and!; try done; apply moves_refl|].
  destruct (IH s (after (DeregMr (mr_mr mr)) w)) as (w' & early & E & Hm & L & F & O).
  exists w', (early ++ [Ev (DeregMr (mr_mr mr)) (fst (exec (DeregMr (mr_mr mr)) (env w)))]).
  assert (E1 : on_world (mr_drop mr) (s, w) = (Ok tt, (s, after (DeregMr (mr_mr mr)) w))).
  { unfold on_world, mr_drop. st_cbn. by rewrite call_after. }
  cbn [for_each]. rewrite (ST_bind_step _ _ _ _ _ E1). split_and!; [done| | | |].
  - exact (moves_trans _ _ _ _ _ _ _ (after_moves (DeregMr (mr_mr mr)) w ltac:(done) eq_refl) Hm).
  - rewrite L. cbn [log after]. by rewrite <- app_assoc.
  - apply Forall_app. by repeat constructor.
  - rewrite list.omap_app, O. done.
Qed.

(** *** Buffers *)

(** A buffer without one of its owners. *)
Definition released_owner (o : Owner) : option Owner :=
  if ow_refs o =? 1 then None
  else Some {| ow_box := ow_box o; ow_borrows := ow_borrows o; ow_refs := ow_refs o - 1 |}.

Lemma owner_drops (l : list (Z * Z)) : forall p h w,
  NoDup (map snd l) -> (forall id a, (id, a) ∈ l -> is_Some (h !! a)) ->
  exists h', for_each l (fun '(_, a) _ => on_snd (owner_drop a)) tt (p, (h, w)) = (Ok tt, (p, (h', w))) /\
    forall a, h' !! a = if decide (a ∈ map snd l) then h !! a ≫= released_owner else h !! a.
Proof.
  induction l as [|[id a] l IH]; intros p h w Hnd Hlive.
  { exists h. split; [done|]. intros a. cbn [map]. rewrite decide_False by set_solver. done. }
  cbn [map snd] in Hnd. inversion_clear Hnd as [|? ? Hni Hnd'].
  destruct (Hlive id a) as [o Ho]; [left|].
  set (h1 := match released_owner o with Some o' => <[a := o']> h | None => delete a h end).
  assert (E1 : on_snd (owner_drop a) (p, (h, w)) = (Ok tt, (p, (h1, w)))).
  { unfold on_snd, owner_drop, owner_get. st_cbn. rewrite Ho. unfold h1, released_owner.
    by destruct (ow_refs o =? 1). }
  assert (H1 : forall b, h1 !! b = if decide (b = a) then released_owner o else h !! b).
  { intros b. unfold h1. case_decide as Eb; [subst b|].
    - destruct (released_owner o); [apply lookup_insert_eq|apply lookup_delete_eq].
    - destruct (released_owner o); [by rewrite lookup_insert_ne|by rewrite lookup_delete_ne]. }
  destruct (IH p h1 w Hnd') as (h' & E & Hh').
  { intros id' b Hb. rewrite H1, decide_False.
    - apply (Hlive id'). by right.
    - intros ->. apply Hni. by apply (list_elem_of_fmap_2 snd) in Hb. }
  exists h'. cbn [for_each]. rewrite (ST_bind_step _ _ _ _ _ E1). split; [done|].
  intros b. rewrite Hh', H1. cbn [map snd].
  destruct (decide (b = a)) as [->|Hne].
  - rewrite decide_False by done. rewrite decide_True by left. by rewrite Ho.
  - destruct (decide (b ∈ map snd l)).
    + rewrite decide_True by (by right). done.
    + rewrite decide_False; [done|]. rewrite elem_of_cons. tauto.
Qed.

Lemma service_stop_run t w :
  exists w' early, service_stop t w = (Ok tt, w') /\ frame w w' /\ moves w w' [] [] /\
    log w' = early ++ log w /\ Forall (fun e => destroys e = false) early /\ omap deregisters early = [].
Proof.
  unfold service_stop. set (flag := StoreFlag (st_shutdown t) true).
  rewrite (ST_bind_step _ _ _ _ _ (call_after flag w)), call_after.
  destruct (fst (exec (Join (st_handle t)) _)) eqn:E.
  eexists _, [_; _]. split; [reflexivity|]. split_and!; [| |reflexivity|by repeat constructor|done].
  { pose proof (framed_call flag w) as H1. rewrite call_after in H1.
    pose proof (framed_call (Join (st_handle t)) (after flag w)) as H2. rewrite call_after in H2.
    by etrans. }
  exact (moves_trans _ _ _ _ _ _ _ (neutral_moves flag w ltac:(done))
    (neutral_moves (Join (st_handle t)) _ ltac:(done))).
Qed.

Definition with_shared (s : Shared) p : SharedMemoryRegionProvider :=
  {| p_addr := p_addr p; p_shared := s; p_owners := p_owners p; p_service := p_service p;
     p_next_id := p_next_id p |}.

(** Stopping the service, if there is one. *)
Lemma stop_run p h w :
  exists p2 w1 early,
    (match p_service p with
     | Some t =>
         set_provider {| p_addr := p_addr p; p_shared := p_shared p; p_owners := p_owners p;
                         p_service := None; p_next_id := p_next_id p |};;
         on_snd (on_snd (service_stop t))
     | None => mret tt
     end) (p, (h, w)) = (Ok tt, (p2, (h, w1))) /\ p_shared p2 = p_shared p /\ p_owners p2 = p_owners p /\
    frame w w1 /\ moves w w1 [] [] /\ log w1 = early ++ log w /\ Forall (fun e => destroys e = false) early /\
    omap deregisters early = [].
Proof.
  destruct (p_service p) as [t|]; [|exists p, w, []; split_and!; try done; apply moves_refl].
  destruct (service_stop_run t w) as (w1 & early & E & A & B & C & D & F).
  eexists _, w1, early. split; [unfold set_provider, on_snd; st_cbn; by rewrite E|].
  by split_and!.
Qed.

(** Clearing the tuples, then dropping what is left of the shared state. *)
Lemma tuples_clear_run {HO : HashOrder} {HK : HashOrderOk} s w :
  exists w' early,
    tuples_clear (s, w) =
      (Ok tt, ({| catalog := catalog s; groups := groups s; tuples := ∅ |}, w')) /\
    moves w w' [] (map tuple_held (iter_tuples (tuples s))) /\
    log w' = early ++ log w /\ Forall (fun e => destroys e = false) early /\
    omap deregisters early ≡ₚ map (fun e : Z * Z * MemoryRegion => mr_mr (snd e))
      (map_to_list (tuples s)).
Proof.
  destruct (mr_drops (iter_tuples (tuples s))
    {| catalog := catalog s; groups := groups s; tuples := ∅ |} w)
    as (w2 & early & E & Hm & L & F & O).
  exists w2, early. split_and!; [|done..|].
  - unfold tuples_clear, shared, set_tuples. st_cbn. exact E.
  - rewrite O, <- Permutation_rev. f_equiv. apply iter_tuples_perm.
Qed.

Lemma shared_drop_run {HO : HashOrder} {HK : HashOrderOk} s w :
  tuples s = ∅ -> covered (handles (map_to_list (groups s))) w ->
  exists w' late,
    shared_drop (s, w) = (Ok tt, ({| catalog := catalog s; groups := ∅; tuples := ∅ |}, w')) /\
    (forall pd, ledger w' (RRef pd) =
       ledger w (RRef pd) - tally (RRef pd) (handles (map_to_list (groups s)))) /\
    log w' = late ++ log w /\ Forall no_dereg late.
Proof.
  intros Ht Hc. set (s1 := {| catalog := catalog s; groups := ∅; tuples := ∅ |}).
  assert (Hperm : handles (map_to_list (groups s)) ≡ₚ handles (iter_groups (groups s))).
  { unfold handles. apply Permutation_flat_map. symmetry. apply iter_groups_perm. }
  destruct (groups_drop_unref (iter_groups (groups s)) s1 w (covered_perm _ _ _ Hperm Hc))
    as (w' & late & E & [_ U] & L & F).
  assert (Hempty : iter_tuples ∅ = []).
  { apply Permutation_nil_r. rewrite (iter_tuples_perm ∅). by rewrite map_to_list_empty. }
  exists w', late. split_and!; [|intros pd; by rewrite U, (tally_perm _ _ _ Hperm)|done..].
  unfold shared_drop, shared, set_groups. st_cbn. rewrite Ht. fold s1. rewrite E.
  unfold tuples_clear, shared, set_tuples. st_cbn. cbn [tuples s1]. by rewrite Hempty.
Qed.

(** The drop, step by step. *)
Definition cleared (s : Shared) : Shared :=
  {| catalog := catalog s; groups := groups s; tuples := ∅ |}.
Definition emptied (s : Shared) : Shared := {| catalog := catalog s; groups := ∅; tuples := ∅ |}.

Lemma provider_drop_seq {HO : HashOrder} p h w p2 w1 w2 w3 h' :
  (match p_service p with
   | Some t =>
       set_provider {| p_addr := p_addr p; p_shared := p_shared p; p_owners := p_owners p;
                       p_service := None; p_next_id := p_next_id p |};;
       on_snd (on_snd (service_stop t))
   | None => mret tt
   end) (p, (h, w)) = (Ok tt, (p2, (h, w1))) ->
  tuples_clear (p_shared p2, w1) = (Ok tt, (cleared (p_shared p2), w2)) ->
  shared_drop (cleared (p_shared p2), w2) = (Ok tt, (emptied (p_shared p2), w3)) ->
  for_each (map_to_list (p_owners p2)) (fun '(_, a) _ => on_snd (owner_drop a)) tt
    (with_shared (emptied (p_shared p2)) p2, (h, w3)) =
    (Ok tt, (with_shared (emptied (p_shared p2)) p2, (h', w3))) ->
  provider_drop (p, (h, w)) = (Ok tt, (with_shared (emptied (p_shared p2)) p2, (h', w3))).
Proof.
  intros E1 E2 E3 E4. unfold provider_drop.
  rewrite (ST_bind_step provider _ (p, (h, w)) p (p, (h, w)) eq_refl), (ST_bind_step _ _ _ _ _ E1).
  assert (Eclear : on_shared tuples_clear (p2, (h, w1)) =
    (Ok tt, (with_shared (cleared (p_shared p2)) p2, (h, w2)))) by (unfold on_shared; by rewrite E2).
  rewrite (ST_bind_step _ _ _ _ _ Eclear).
  assert (Edrop : on_shared shared_drop (with_shared (cleared (p_shared p2)) p2, (h, w2)) =
    (Ok tt, (with_shared (emptied (p_shared p2)) p2, (h, w3)))).
  { unfold on_shared. cbn [p_shared with_shared]. by rewrite E3. }
  rewrite (ST_bind_step _ _ _ _ _ Edrop).
  set (p3 := with_shared (emptied (p_shared p2)) p2) in *.
  rewrite (ST_bind_step provider _ (p3, (h, w3)) p3 (p3, (h, w3)) eq_refl). exact E4.
Qed.

End provider_ops.

(** ** Witnesses *)
Definition sample_vec : rvec :=
  {| v_type := {| rt_layout := TScalar U64; rt_name := rstr "u64"; rt_id := 1 |}; v_ptr := 4096;
     v_elems := replicate 4 (replicate 8 Byte.x07) |}.
Definition sample_provider_addr : SharedMemoryRegionProviderAddr := provider_addr_new 18515 18516.

Lemma provider_new_wf (w : world sim) : wf_provider (provider_new sample_provider_addr) ∅ w.
Proof.
  split; [done| | |].
  - intros id [[x H]|[x H]]; cbn in H; by rewrite lookup_empty in H.
  - intros id info H. cbn in H. by rewrite lookup_empty in H.
  - intros l [x H]. by rewrite lookup_empty in H.
Qed.

Lemma register_typed_spec_witness :
  exists hd p' h' w', register_typed (P := true) (rstr "table") sample_vec
      (provider_new sample_provider_addr, (∅, sample_world [])) = (Ok hd, (p', (h', w'))) /\
    catalog (p_shared p') = {[ 0 := sample_info ]} /\ wf_provider p' h' w'.
Proof.
  pose proof (register_typed_spec (P := true) (rstr "table") sample_vec
    (provider_new sample_provider_addr) ∅ (sample_world []) (provider_new_wf _)
    ltac:(vm_compute; split; [discriminate|done])) as H.
  destruct (register_typed (P := true) (rstr "table") sample_vec
      (provider_new sample_provider_addr, (∅, sample_world []))) as [[hd|e|y|] [p' [h' w']]] eqn:E;
    try (vm_compute in E; discriminate E).
  destruct H as (_ & _ & _ & _ & _ & Hsh & _ & _ & _ & Hwf).
  exists hd, p', h', w'. split; [done|]. split; [|by apply Hwf]. rewrite Hsh. by vm_compute.
Defined.

(** A provider with one region, shared with one reader, whose handle is
    still held. *)
Definition sharing : SharedMemoryRegionProvider :=
  {| p_addr := sample_provider_addr;
     p_shared := {| catalog := catalog sample_shared; groups := groups sample_shared;
       tuples := {[ (5, 3) := {| mr_mr := 9; mr_pd := 4; mr_addr := 4096; mr_size := 32;
                                 mr_lkey := 9; mr_rkey := 9 |} ]} |};
     p_owners := {[ 5 := 10 ]}; p_service := None; p_next_id := 6 |}.
Definition sharing_heap : gmap Z Owner :=
  {[ 10 := {| ow_box := sample_vec; ow_borrows := 0; ow_refs := 2 |} ]}.

