(* ===== verification/Accounts.v ===== *)
(** * The sharing side: what the shared state holds

    Since a provider started, what was acquired and not given back is
    exactly what its groups and its tuples own, whatever requests and
    handshakes came in and however they ended; and the drop gives it all
    back. *)
From S2P Require Import Prelude Pod Meta Channels Verbs VerbsSpec VerbsSim VerbsFacts.
From S2P Require Import VerbsFrame VerbsApart VerbsOps Providers ProvidersFacts ProviderOps.

(** A group owns the handle of its domain and its connections, a tuple
    its registration. *)
Definition group_holds (g : GroupEntry) : list resource :=
  RRef (ge_pd g) :: flat_map (fun c => owned c true) (ge_connections g).
Definition tuple_holds (mr : MemoryRegion) : list resource := [RMr (mr_mr mr)].
Definition shared_holds (s : Shared) (r : resource) : Z :=
  map_sum (fun g => tally r (group_holds g)) (groups s) +
  map_sum (fun mr => tally r (tuple_holds mr)) (tuples s).

(** The connections of all groups. *)
Definition conns (l : list (Z * GroupEntry)) : list Connection :=
  flat_map (fun e => ge_connections (snd e)) l.
Definition conns_of (m : gmap Z GroupEntry) : list Connection := conns (map_to_list m).

Lemma conns_insert m group pd c :
  conns_of (<[group := {| ge_pd := pd; ge_connections := members {| catalog := ∅; groups := m; tuples := ∅ |} group ++ [c] |}]> m)
    ≡ₚ c :: conns_of m.
Proof.
  unfold members, conns_of, conns. cbn [groups].
  assert (Hnew : forall (m' : gmap Z GroupEntry) g, m' !! group = None ->
    flat_map (fun e => ge_connections (snd e)) (map_to_list (<[group := g]> m')) ≡ₚ
      ge_connections g ++ flat_map (fun e => ge_connections (snd e)) (map_to_list m')).
  { intros m' g Hn. exact (Permutation_flat_map (fun e : Z * GroupEntry => ge_connections (snd e))
      (map_to_list_insert m' group g Hn)). }
  destruct (m !! group) as [e|] eqn:Eg; cbn [app].
  - rewrite <- (insert_delete_eq m). rewrite Hnew by apply lookup_delete_eq. cbn [ge_connections].
    rewrite <- (insert_delete_id m group e Eg) at 2. rewrite Hnew by apply lookup_delete_eq.
    rewrite <- app_assoc. symmetry. apply Permutation_middle.
  - by rewrite Hnew.
Qed.

Lemma conns_perm l k : l ≡ₚ k -> conns l ≡ₚ conns k.
Proof. apply Permutation_flat_map. Qed.

Section accounts.
Context {P : Profile} {W : Type} {V : Verbs W} {VO : VerbsOk W}.
Implicit Types (s : Shared) (w : world W).

(** Connections that work, each with an identifier of its own. *)
Record working (l : list Connection) w : Prop := {
  wk_established c : c ∈ l -> established c w;
  wk_apart : NoDup (map c_id l);
}.

#[export] Instance working_proper : Proper ((≡ₚ) ==> eq ==> iff) working.
Proof.
  assert (H : forall l k w, l ≡ₚ k -> working l w -> working k w).
  { intros l k w Hp [A B]. split; [intros c; rewrite <- Hp; apply A|].
    change (NoDup (c_id <$> k)). by rewrite <- Hp. }
  intros l k Hp w ? <-. split; by apply H.
Qed.

Lemma working_world l w w' :
  (forall c, c ∈ l -> has_qp (env w) (c_id c) = true -> has_qp (env w') (c_id c) = true) ->
  working l w -> working l w'.
Proof.
  intros Hq [A B]. split; [|done]. intros c Hc. destruct (A c Hc) as (E1 & E2 & E3 & E4).
  split_and!; try done. by apply Hq.
Qed.

Lemma working_beside l w w' :
  (forall other, other <> null -> has_qp (env w) other = true -> has_qp (env w') other = true) ->
  working l w -> working l w'.
Proof.
  intros Hq Hw. apply (working_world l w w'); [|done]. intros c Hc. apply Hq.
  by destruct (wk_established _ _ Hw c Hc).
Qed.

(** A connection joins those that work. *)
Lemma working_joins l c w w' :
  others_beside w c w' -> established c w' -> working l w -> working (c :: l) w'.
Proof.
  intros Hb Hest [B1 B2]. split.
  - intros c' [->|Hc']%elem_of_cons; [done|]. destruct (B1 c' Hc') as (E1 & E2 & E3 & E4).
    split_and!; try done. by apply Hb.
  - cbn [map]. apply list.NoDup_cons. split; [|done]. intros Hin.
    apply list_elem_of_fmap in Hin as (c' & Heq & Hc').
    destruct (B1 c' Hc') as (E1 & _ & _ & E4). by destruct (Hb (c_id c') E1 E4).
Qed.

Lemma conns_joined s group pd c :
  conns_of (groups (joined s group pd c)) ≡ₚ c :: conns_of (groups s).
Proof. exact (conns_insert (groups s) group pd c). Qed.

Lemma holds_joined s group pd c r :
  (forall p, group_of s group = Some p -> pd = p) ->
  shared_holds (joined s group pd c) r = shared_holds s r + tally r (owned c true) +
    tally r (match group_of s group with Some _ => [] | None => [RRef pd] end).
Proof.
  intros Hg. unfold shared_holds. cbn [joined groups tuples].
  unfold members, group_of in *. destruct (groups s !! group) as [e|] eqn:Eg; cbn in Hg |- *.
  - rewrite (map_sum_update _ group e) by done. unfold group_holds. cbn [ge_connections ge_pd].
    rewrite flat_map_app. cbn [flat_map tally]. rewrite !tally_app. rewrite (Hg _ eq_refl).
    cbn [tally]. lia.
  - rewrite map_sum_insert by done. unfold group_holds. cbn [ge_connections ge_pd flat_map tally].
    rewrite tally_app. cbn [tally]. lia.
Qed.

(** A tuple is entered, in the place of another or not. *)
Lemma holds_tuple s key mr r :
  shared_holds (with_tuple key mr s) r +
    tally r (match tuples s !! key with Some old => tuple_holds old | None => [] end) =
  shared_holds s r + tally r (tuple_holds mr).
Proof.
  unfold shared_holds, with_tuple. cbn [groups tuples].
  destruct (tuples s !! key) as [old|] eqn:E.
  - rewrite (map_sum_update _ key old) by done. lia.
  - rewrite map_sum_insert by done. cbn [tally]. lia.
Qed.

Lemma shared_holds_nonneg s r : 0 <= shared_holds s r.
Proof.
  unfold shared_holds.
  pose proof (map_sum_nonneg (fun g => tally r (group_holds g)) (groups s) (fun _ _ _ => tally_nonneg _ _)).
  pose proof (map_sum_nonneg (fun mr => tally r (tuple_holds mr)) (tuples s)
    (fun _ _ _ => tally_nonneg _ _)). lia.
Qed.

(** A group's domain is among what is held. *)
Lemma holds_domain s group e : groups s !! group = Some e -> 1 <= shared_holds s (RRef (ge_pd e)).
Proof.
  intros He. unfold shared_holds.
  assert (H1 : 1 <= tally (RRef (ge_pd e)) (group_holds e)).
  { apply tally_in. left. }
  pose proof (map_sum_ge (fun g => tally (RRef (ge_pd e)) (group_holds g)) group e (groups s)
    (fun _ _ _ => tally_nonneg _ _) He).
  pose proof (map_sum_nonneg (fun mr => tally (RRef (ge_pd e)) (tuple_holds mr)) (tuples s)
    (fun _ _ _ => tally_nonneg _ _)). cbn beta in *. lia.
Qed.

(** [leaked]: the connection requests that were lost. *)
Record accounts (w0 : world W) (leaked : list ptr) s w : Prop := {
  ac_shared : wf_shared s w;
  ac_working : working (conns_of (groups s)) w;
  ac_ledger : forall r, ledger w r = ledger w0 r + shared_holds s r + tally r (map RId leaked);
}.

(** A step that only the libraries see. *)
Lemma accounts_moves w0 leaked s w w' :
  accounts w0 leaked s w -> frame w w' -> moves w w' [] [] -> accounts w0 leaked s w'.
Proof.
  intros [A B C] Hf Hm. split.
  - apply (wf_shared_moves s w w'); [done..|apply Hm, A|].
    intros pd. rewrite (mv_ledger _ _ _ _ Hm). cbn [tally]. lia.
  - apply (working_world _ w w'); [|done]. intros c _. by rewrite (mv_qp _ _ _ _ Hm).
  - intros r. rewrite (mv_ledger _ _ _ _ Hm), C. cbn [tally]. lia.
Qed.

(** ** Requests *)
Lemma accounts_tuple w0 leaked id group s w :
  accounts w0 leaked s w ->
  let '(x, (s', w')) := tuple_of id group (s, w) in
  x <> Diverge /\ accounts w0 leaked s' w' /\ catalog s' = catalog s.
Proof.
  intros Hac. destruct (tuple_of_cases id group s w (ac_shared _ _ _ _ Hac)) as
    (x & s' & w' & -> & Hs' & Hc & Hg & Hf & _ & Hcase).
  destruct Hcase as [(mr & -> & _ & -> & ->)|[(mr & info & -> & Ht & _ & Ht' & Hm)|
    [(-> & -> & -> & _)|(e & -> & -> & _ & Hm)]]]; (split; [done|split; [|done]]); try done.
  2: { by apply (accounts_moves w0 leaked s w w'). }
  destruct Hac as [A B C]. split; [done| |].
  - rewrite Hg. apply (working_world _ w w'); [|done]. intros c _. by rewrite (mv_qp _ _ _ _ Hm).
  - intros r. rewrite (mv_ledger _ _ _ _ Hm), C. unfold shared_holds. rewrite Hg, Ht'.
    rewrite map_sum_insert by done. unfold tuple_holds. cbn [tally]. lia.
Qed.

(** [accounts] as an invariant of computations on the shared state that
    does not touch the catalog. *)
Definition accounted_for (w0 : world W) (leaked : list ptr) (cat : gmap Z RegionInfo)
    (st : Shared * world W) : Prop :=
  accounts w0 leaked (fst st) (snd st) /\ catalog (fst st) = cat.

Lemma settles_tuple w0 leaked cat id group : settles (accounted_for w0 leaked cat) (tuple_of id group).
Proof.
  intros [s w] [Hac Hc]. pose proof (accounts_tuple w0 leaked id group s w Hac) as H.
  destruct (tuple_of id group (s, w)) as [x [s' w']]. destruct H as (Hx & Hac' & Hc').
  assert (accounted_for w0 leaked cat (s', w')) by (split; [done|cbn in *; congruence]).
  by destruct x.
Qed.

Lemma settles_exchange {HO : HashOrder} w0 leaked cat group :
  settles (accounted_for w0 leaked cat) (catalog_and_tuples group).
Proof.
  unfold catalog_and_tuples. apply settles_bind; [by apply settles_pure; intros []|]. intros s.
  apply settles_bind; [|intros []; by apply settles_pure]. apply settles_for_each.
  intros [id info] [regions descs]. apply settles_bind; [apply settles_catch, settles_tuple|].
  intros x. by apply settles_pure.
Qed.

(** ** Handshakes *)

(** A handshake may lose one connection request. *)
Definition may_lose (w0 : world W) (leaked : list ptr) s w : Prop :=
  exists more, (length more <= 1)%nat /\ accounts w0 (more ++ leaked) s w.

Lemma accounts_may_lose w0 leaked s w : accounts w0 leaked s w -> may_lose w0 leaked s w.
Proof. intros H. exists []. split; [cbn; lia|done]. Qed.

Lemma accounts_rendezvous w0 leaked rdma group s w :
  accounts w0 leaked s w ->
  match rendezvous rdma group (s, w) with
  | (Diverge, _) => True
  | (Panic _, _) => False
  | (Ok _, (s', w')) => accounts w0 leaked s' w' /\ catalog s' = catalog s
  | (Err _, (s', w')) => s' = s /\ may_lose w0 leaked s w'
  end.
Proof.
  intros [A B C]. pose proof (rendezvous_run rdma group s w A) as H.
  destruct (rendezvous rdma group (s, w)) as [[[]|e|y|] [s' w']]; try done.
  - destruct H as (c & pd & -> & Hs' & Hest & Hpd & Hg & Hb & Hl). split; [|done]. split; [done| |].
    + rewrite conns_joined. by apply (working_joins _ c w).
    + intros r. rewrite Hl, C, holds_joined by done. lia.
  - destruct H as (-> & Hs' & Hst & Hl). split; [done|].
    assert (Hw : working (conns_of (groups s)) w') by (by apply (working_beside _ w w')).
    destruct Hl as [Hl|(id & Hl)]; [exists []|exists [id]]; (split; [cbn; lia|]); split; try done.
    + intros r. by rewrite Hl, C.
    + intros r. rewrite Hl, C. cbn [app map tally]. lia.
Qed.

Definition handshake_accounts w0 leaked s (r : res Z * (Channel * (Shared * world W))) : Prop :=
  match r with
  | (Diverge, _) => True
  | (Ok _, (_, (s', w'))) => accounts w0 leaked s' w' /\ catalog s' = catalog s
  | (_, (_, (s', w'))) => may_lose w0 leaked s' w' /\ catalog s' = catalog s
  end.

Lemma accounts_handshake {HO : HashOrder} w0 leaked rdma c s w :
  accounts w0 leaked s w -> handshake_accounts w0 leaked s (handshake_body rdma (c, (s, w))).
Proof.
  intros Hac. pose proof (handshake_cases rdma c s w) as H.
  destruct (handshake_body rdma (c, (s, w))) as [x [c' [s' w']]].
  destruct H as [[[= -> ->] Hno]|(c1 & c2 & c3 & group & _ & _ & _ & ->)].
  { destruct x as [g|e|y|]; [by exfalso; apply (Hno g)| | |done];
      (split; [by apply accounts_may_lose|done]). }
  pose proof (accounts_rendezvous w0 leaked rdma group s w Hac) as Hr. unfold on_snd. st_cbn.
  destruct (rendezvous rdma group (s, w)) as [[[]|e|y|] [s1 w1]]; unfold handshake_accounts; try done.
  2: { destruct Hr as [-> Hr]. by split. }
  destruct Hr as [Hac1 Hc1].
  pose proof (settles_exchange w0 leaked (catalog s) group (s1, w1) ltac:(by split)) as Hx.
  destruct (catalog_and_tuples group (s1, w1)) as [[x1|e|y|] [s2 w2]]; try done; destruct Hx as [Hac2 Hc2];
    cbn [fst snd] in Hac2, Hc2.
  2,3: split; [by apply accounts_may_lose|done].
  unfold on_fst. destruct (send_exchange x1 c3) as [[[]|e|y|] c4]; try done;
    (split; [by apply accounts_may_lose|done]).
Qed.

(** ** The drop *)

(** From [w] to [w'] exactly [l] is given back, and the queue pairs of
    other connections than [cs] stay. *)
Record gives_back (l : list resource) (cs : list Connection) w w' : Prop := {
  gb_wf : wf_world w';
  gb_ledger : forall r, ledger w' r = ledger w r - tally r l;
  gb_stand : forall other, other <> null -> other ∉ map c_id cs -> standing other w -> standing other w';
}.

Lemma gives_back_trans l k cs ds w1 w2 w3 :
  gives_back l cs w1 w2 -> gives_back k ds w2 w3 -> gives_back (l ++ k) (cs ++ ds) w1 w3.
Proof.
  intros [A B C] [D E F]. split; [done| |].
  - intros r. rewrite E, B, tally_app. lia.
  - intros other Ho. rewrite map_app. intros Hn Hs. apply F; [done|set_solver|]. apply C; [done|set_solver|done].
Qed.

(** What remains works and is covered. *)
Lemma working_rest cs ds l w w' :
  working (cs ++ ds) w -> gives_back l cs w w' -> working ds w'.
Proof.
  intros [A B] [_ _ C]. change (NoDup (c_id <$> cs ++ ds)) in B. rewrite fmap_app in B.
  apply list.NoDup_app in B as (_ & B & D).
  assert (Hds : working ds w) by (split; [|done]; intros c Hc; apply A; set_solver).
  apply (working_world ds w w'); [|done]. intros c Hc Hq.
  destruct (wk_established _ _ Hds c Hc) as (Hne & _). apply C; [done| |done].
  intros Hin. apply (B (c_id c) Hin). by apply list_elem_of_fmap_2.
Qed.

Lemma covered_after l k cs w w' : covered (l ++ k) w -> gives_back l cs w w' -> covered k w'.
Proof.
  intros [A B] [C D _]. split; [done|]. intros pd. specialize (B pd). rewrite tally_app in B.
  rewrite D. lia.
Qed.

Lemma conn_drop_back c w :
  covered (owned c true) w -> established c w ->
  exists w', conn_drop c w = (Ok tt, w') /\ gives_back (owned c true) [c] w w'.
Proof.
  intros [Hw Hc] (_ & _ & _ & Hq). destruct (conn_drop_ledger c w Hw) as (w' & H & Hw' & Hl & _).
  { intros pd Hpd. specialize (Hc pd). pose proof (owned_ref c true pd Hpd). lia. }
  exists w'. split; [done|]. split; [done| |].
  - intros r. by rewrite Hl, Hq.
  - intros other Ho Hn Hs. pose proof (keeps_conn_drop other c ltac:(set_solver) w Hs) as Hk.
    by rewrite H in Hk.
Qed.

Lemma conns_drop_back l : forall w,
  covered (flat_map (fun c => owned c true) l) w -> working l w ->
  exists w', for_each l (fun c _ => conn_drop c) tt w = (Ok tt, w') /\
    gives_back (flat_map (fun c => owned c true) l) l w w'.
Proof.
  induction l as [|c l IH]; intros w Hc Hw.
  { exists w. split; [done|]. split; [apply Hc| |done]. intros r. cbn [flat_map tally]. lia. }
  cbn [flat_map] in Hc |- *.
  destruct (conn_drop_back c w (covered_head _ _ _ Hc)) as (w1 & E1 & G1).
  { apply (wk_established _ _ Hw). left. }
  destruct (IH w1) as (w2 & E2 & G2).
  { by eapply covered_after. }
  { by apply (working_rest [c] l _ w w1 Hw G1). }
  exists w2. cbn [for_each]. rewrite (ST_bind_step _ _ _ _ _ E1). split; [done|].
  exact (gives_back_trans _ _ [c] l _ _ _ G1 G2).
Qed.

Lemma group_drop_back g w :
  covered (group_holds g) w -> working (ge_connections g) w ->
  exists w', group_drop g w = (Ok tt, w') /\ gives_back (group_holds g) (ge_connections g) w w'.
Proof.
  intros Hc Hw. unfold group_drop.
  pose proof (covered_head [RRef (ge_pd g)] (flat_map (fun c => owned c true) (ge_connections g)) w Hc) as [_ Hr].
  destruct (pd_drop_moves w (ge_pd g)) as (w1 & Hd & Hm & _).
  { specialize (Hr (ge_pd g)). cbn [tally] in Hr. case_decide; [lia|done]. }
  assert (G1 : gives_back [RRef (ge_pd g)] [] w w1).
  { split; [apply Hm, Hc|intros r; rewrite (mv_ledger _ _ _ _ Hm); cbn [tally]; lia|].
    intros other _ _ Hs. unfold standing. by rewrite (mv_qp _ _ _ _ Hm). }
  destruct (conns_drop_back (ge_connections g) w1) as (w2 & E2 & G2).
  { exact (covered_after [RRef (ge_pd g)] _ _ _ _ Hc G1). }
  { exact (working_rest [] _ _ _ _ Hw G1). }
  exists w2. rewrite (ST_bind_step _ _ _ _ _ Hd). split; [done|].
  exact (gives_back_trans [RRef (ge_pd g)] _ [] _ _ _ _ G1 G2).
Qed.

Definition groups_hold (l : list (Z * GroupEntry)) : list resource := flat_map (fun e => group_holds (snd e)) l.

Lemma groups_drop_back l : forall s w,
  covered (groups_hold l) w -> working (conns l) w ->
  exists w', for_each l (fun '(_, g) _ => on_world (group_drop g)) tt (s, w) = (Ok tt, (s, w')) /\
    gives_back (groups_hold l) (conns l) w w'.
Proof.
  induction l as [|[id g] l IH]; intros s w Hc Hw.
  { exists w. split; [done|]. split; [apply Hc| |done]. intros r. cbn [groups_hold flat_map tally]. lia. }
  cbn [groups_hold conns flat_map snd] in *. fold (groups_hold l) (conns l) in *.
  destruct (group_drop_back g w (covered_head _ _ _ Hc)) as (w1 & E1 & G1).
  { destruct Hw as [A B]. change (NoDup (c_id <$> ge_connections g ++ conns l)) in B. rewrite fmap_app in B.
    apply list.NoDup_app in B as (B & _ & _). split; [|done]. intros c Hin. apply A. set_solver. }
  destruct (IH s w1) as (w2 & E2 & G2).
  { by eapply covered_after. }
  { by eapply working_rest. }
  exists w2. cbn [for_each].
  assert (E1' : on_world (group_drop g) (s, w) = (Ok tt, (s, w1))) by (unfold on_world; by rewrite E1).
  rewrite (ST_bind_step _ _ _ _ _ E1'). split; [done|]. by apply (gives_back_trans _ _ _ _ w w1 w2).
Qed.

Lemma tally_groups_hold m r : tally r (groups_hold (map_to_list m)) = map_sum (fun g => tally r (group_holds g)) m.
Proof.
  rewrite map_sum_list. unfold groups_hold. induction (map_to_list m) as [|e l IH]; [done|].
  cbn [flat_map sum_over]. by rewrite tally_app, IH.
Qed.

Lemma tally_tuples_hold m r :
  tally r (map tuple_held (map_to_list m)) = map_sum (fun mr => tally r (tuple_holds mr)) m.
Proof.
  rewrite map_sum_list. induction (map_to_list m) as [|e l IH]; [done|].
  cbn [map sum_over tally]. rewrite IH. unfold tuple_holds, tuple_held. cbn [tally]. lia.
Qed.

(** Clearing the tuples and dropping the groups leaves nothing. *)
Lemma accounts_drop {HO : HashOrder} {HK : HashOrderOk} w0 leaked s w :
  wf_world w0 -> accounts w0 leaked s w ->
  exists w1 w2, tuples_clear (s, w) = (Ok tt, (cleared s, w1)) /\
    shared_drop (cleared s, w1) = (Ok tt, (emptied s, w2)) /\ wf_world w2 /\
    forall r, ledger w2 r = ledger w0 r + tally r (map RId leaked).
Proof.
  intros Hw0 [A B C]. destruct (tuples_clear_run s w) as (w1 & early & E1 & Hm & _).
  assert (L1 : forall r, ledger w1 r = ledger w0 r + tally r (groups_hold (iter_groups (groups s))) +
    tally r (map RId leaked)).
  { intros r. rewrite (mv_ledger _ _ _ _ Hm), C. unfold shared_holds.
    rewrite <- tally_groups_hold, <- tally_tuples_hold.
    assert (Hp : map tuple_held (iter_tuples (tuples s)) ≡ₚ map tuple_held (map_to_list (tuples s))).
    { f_equiv. apply iter_tuples_perm. }
    rewrite (tally_perm r _ _ Hp).
    assert (Hg : groups_hold (iter_groups (groups s)) ≡ₚ groups_hold (map_to_list (groups s))).
    { apply Permutation_flat_map, iter_groups_perm. }
    rewrite (tally_perm r _ _ Hg). cbn [tally]. lia. }
  assert (Hc : covered (groups_hold (iter_groups (groups s))) w1).
  { split; [apply Hm, A|]. intros pd. rewrite L1. pose proof (ledger_ref_nonneg w0 pd Hw0).
    pose proof (tally_nonneg (RRef pd) (map RId leaked)). lia. }
  assert (Hwk : working (conns (iter_groups (groups s))) w1).
  { apply (working_world _ w); [intros c _; by rewrite (mv_qp _ _ _ _ Hm)|].
    rewrite (conns_perm _ _ (iter_groups_perm (groups s))). exact B. }
  destruct (groups_drop_back (iter_groups (groups s)) (emptied s) w1 Hc Hwk) as (w2 & E2 & G2).
  assert (Hempty : iter_tuples ∅ = []).
  { apply Permutation_nil_r. rewrite (iter_tuples_perm ∅). by rewrite map_to_list_empty. }
  exists w1, w2. split_and!; [done| |apply G2|].
  - unfold shared_drop, shared, set_groups. st_cbn. cbn [cleared groups catalog tuples].
    fold (emptied s). rewrite E2. unfold tuples_clear, shared, set_tuples. st_cbn.
    cbn [emptied tuples]. by rewrite Hempty.
  - intros r. rewrite (gb_ledger _ _ _ _ G2), L1. lia.
Qed.
End accounts.
