(* ===== verification/Race.v ===== *)
(** * The sharing side: what its threads do to the shared state

    [Shared::tuple_of] runs on the service thread, on every session's
    thread and on the application's, and takes its locks one at a time;
    the service thread lets readers into their groups meanwhile. Here both
    are cut where the locks are released. *)
From stdpp Require Import relations.
From S2P Require Import Prelude Pod Meta Verbs VerbsSpec VerbsSim VerbsFacts.
From S2P Require Import VerbsFrame VerbsApart Providers ProvidersFacts ProvidersFrame ProviderOps Accounts.

(** ** Requests *)

(** How far a request is: it looked the tuple up in vain; it holds a
    handle to the group's domain; it knows the region; it has registered;
    it is about to drop its handle; it has its answer. *)
Inductive phase :=
| Looking
| Joining
| Holding (pd : Z)
| Registering (pd remote_addr size : Z)
| Inserting (pd : Z) (mr : MemoryRegion)
| Releasing (pd : Z) (answer : res (option (Z * Z * Z)))
| Answered (answer : res (option (Z * Z * Z))).

Record request := { rq_id : Z; rq_group : Z; rq_phase : phase }.

Definition request_for (id group : Z) : request :=
  {| rq_id := id; rq_group := group; rq_phase := Looking |}.
Definition at_phase (rq : request) (ph : phase) : request :=
  {| rq_id := rq_id rq; rq_group := rq_group rq; rq_phase := ph |}.
Definition answered (ph : phase) : bool := match ph with Answered _ => true | _ => false end.

(** The turns a request still needs. *)
Definition turns_left (ph : phase) : nat :=
  match ph with
  | Looking => 6 | Joining => 5 | Holding _ => 4 | Registering _ _ _ => 3 | Inserting _ _ => 2
  | Releasing _ _ => 1 | Answered _ => 0
  end.

(** ** The door *)

(** How far the service thread is with a reader who has named its group:
    it has yet to look the group up; it waits for the reader's connection,
    with a handle to the domain of the group if there is one; it has the
    connection, not yet entered. *)
Inductive door :=
| Vacant
| Knocking (group : Z)
| Expecting (group : Z) (group_pd : option Z)
| Entering (group : Z) (connection : Connection).

Section race.
Context {P : Profile} {W : Type} {V : Verbs W}.
Implicit Types (s : Shared) (w : world W) (d : door).

(** [tuple_of], from one release of a lock to the next. *)
Definition turn (id group : Z) (ph : phase) : ST (Shared * world W) phase :=
  match ph with
  | Looking =>
      s ← shared;
      mret match tuples s !! (id, group) with
           | Some mr => Answered (Ok (Some (mr_addr mr, mr_size mr, mr_rkey mr)))
           | None => Joining
           end
  | Joining =>
      s ← shared;
      match groups s !! group with
      | None => mret (Answered (Ok None))
      | Some entry => pd ← on_world (pd_clone (ge_pd entry)); mret (Holding pd)
      end
  | Holding pd =>
      s ← shared;
      mret match catalog s !! id with
           | None => Releasing pd (Ok None)
           | Some entry => Registering pd (ri_remote_addr entry) (ri_size entry)
           end
  | Registering pd remote_addr size =>
      r ← catch (on_world (pd_register_addr pd remote_addr size));
      mret match r with
           | inl mr => Inserting pd mr
           | inr e => Releasing pd (Err e)
           end
  | Inserting pd mr =>
      tuples_insert (id, group) mr;;
      mret (Releasing pd (Ok (Some (mr_addr mr, mr_size mr, mr_rkey mr))))
  | Releasing pd answer => on_world (pd_drop pd);; mret (Answered answer)
  | Answered answer => mret (Answered answer)
  end.

(** The rendezvous, from one release of the lock to the next; accepting
    holds no lock. A failure ends the session. *)
Definition door_turn (rdma : Listener) (d : door) : ST (Shared * world W) door :=
  match d with
  | Vacant => mret Vacant
  | Knocking group =>
      s ← shared;
      match groups s !! group with
      | Some entry => pd ← on_world (pd_clone (ge_pd entry)); mret (Expecting group (Some pd))
      | None => mret (Expecting group None)
      end
  | Expecting group group_pd =>
      r ← catch (match group_pd with
                 | Some pd => on_world (finally (accept_into rdma pd) (pd_drop pd))
                 | None => on_world (accept rdma)
                 end);
      mret match r with inl connection => Entering group connection | inr _ => Vacant end
  | Entering group connection =>
      s ← shared;
      entry ← match groups s !! group with
              | Some entry => mret entry
              | None =>
                  pd ← on_failure (on_world (protection_domain connection))
                         (on_world (conn_drop connection));
                  mret {| ge_pd := pd; ge_connections := [] |}
              end;
      set_groups (<[group := {| ge_pd := ge_pd entry;
                                ge_connections := ge_connections entry ++ [connection] |}]> (groups s));;
      mret Vacant
  end.

(** ** Interleavings *)

(** The requests so far, the door, and what the threads share. *)
Record state := State {
  requests : list request;
  doorway : door;
  common : Shared * world W;
}.

(** Any request that has no answer yet takes its next turn. *)
Inductive turn_step : state -> state -> Prop :=
| TurnStep l1 rq l2 d st ph st' :
    answered (rq_phase rq) = false ->
    turn (rq_id rq) (rq_group rq) (rq_phase rq) st = (Ok ph, st') ->
    turn_step (State (l1 ++ rq :: l2) d st) (State (l1 ++ at_phase rq ph :: l2) d st').

(** The application registers a region under a fresh id. *)
Definition add_region (id : Z) (info : RegionInfo) s : Shared :=
  {| catalog := <[id := info]> (catalog s); groups := groups s; tuples := tuples s |}.

(** A region is registered; a request comes in; a reader names its group;
    the service goes on with it. *)
Inductive service_step (rdma : Listener) : state -> state -> Prop :=
| RegionStep rqs d s w id info :
    catalog s !! id = None ->
    service_step rdma (State rqs d (s, w)) (State rqs d (add_region id info s, w))
| RequestStep rqs d st id group :
    service_step rdma (State rqs d st) (State (rqs ++ [request_for id group]) d st)
| KnockStep rqs st group :
    service_step rdma (State rqs Vacant st) (State rqs (Knocking group) st)
| DoorStep rqs d st d' st' :
    d <> Vacant -> door_turn rdma d st = (Ok d', st') ->
    service_step rdma (State rqs d st) (State rqs d' st').

Definition step (rdma : Listener) (a b : state) : Prop := turn_step a b \/ service_step rdma a b.

(** A schedule: who goes next. *)
Inductive choice :=
| Turn (i : nat)
| Ask (id group : Z)
| Knock (group : Z)
| AtDoor.

Definition choose (rdma : Listener) (x : choice) (a : state) : option state :=
  match x with
  | Turn i =>
      match requests a !! i with
      | Some rq =>
          if answered (rq_phase rq) then None else
          match turn (rq_id rq) (rq_group rq) (rq_phase rq) (common a) with
          | (Ok ph, st') => Some (State (<[i := at_phase rq ph]> (requests a)) (doorway a) st')
          | _ => None
          end
      | None => None
      end
  | Ask id group => Some (State (requests a ++ [request_for id group]) (doorway a) (common a))
  | Knock group =>
      match doorway a with
      | Vacant => Some (State (requests a) (Knocking group) (common a))
      | _ => None
      end
  | AtDoor =>
      match doorway a with
      | Vacant => None
      | d => match door_turn rdma d (common a) with
             | (Ok d', st') => Some (State (requests a) d' st')
             | _ => None
             end
      end
  end.
Fixpoint run_schedule (rdma : Listener) (l : list choice) (a : state) : option state :=
  match l with
  | [] => Some a
  | x :: l => choose rdma x a ≫= run_schedule rdma l
  end.

Lemma choose_step rdma x a b : choose rdma x a = Some b -> step rdma a b.
Proof.
  destruct a as [rqs d st], x as [i|id group|group|]; cbn [choose requests doorway common].
  - destruct (rqs !! i) as [rq|] eqn:E; [|done].
    destruct (answered (rq_phase rq)) eqn:Ea; [done|].
    destruct (turn _ _ _ st) as [[ph|e|y|] st'] eqn:Et; try done. intros [= <-]. left.
    pose proof (take_drop_middle rqs i rq E) as Hm.
    assert (Hi : <[i := at_phase rq ph]> rqs = take i rqs ++ at_phase rq ph :: drop (S i) rqs).
    { apply insert_take_drop. by eapply lookup_lt_Some. }
    rewrite Hi. rewrite <- Hm at 1. by constructor.
  - intros [= <-]. right. constructor.
  - destruct d; try done. intros [= <-]. right. constructor.
  - destruct d as [|group|group pd|group c]; [done|..];
      (destruct (door_turn rdma _ st) as [[d'|e|y|] st'] eqn:E; [|done..]); intros [= <-];
      right; by constructor.
Qed.

Lemma run_schedule_steps rdma l a b : run_schedule rdma l a = Some b -> rtc (step rdma) a b.
Proof.
  revert a. induction l as [|x l IH]; intros a; cbn; [by intros [= ->]|].
  destruct (choose rdma x a) as [a1|] eqn:E; [|done]. cbn. intros H.
  eapply rtc_l; [by eapply choose_step|by apply IH].
Qed.

(** ** One request alone is [tuple_of] *)

Fixpoint turns (n : nat) (id group : Z) (ph : phase) : ST (Shared * world W) phase :=
  match n with
  | O => mret ph
  | S n => ph ← turn id group ph; turns n id group ph
  end.

Lemma turns_step n id group ph st ph' st' :
  turn id group ph st = (Ok ph', st') -> turns (S n) id group ph st = turns n id group ph' st'.
Proof. intros H. cbn [turns]. by rewrite (ST_bind_step _ _ _ _ _ H). Qed.

Lemma turns_answered n id group answer st :
  turns n id group (Answered answer) st = (Ok (Answered answer), st).
Proof. induction n; [done|]. cbn [turns turn]. st_cbn. apply IHn. Qed.
(** The door's turns are the halves of the rendezvous. *)
Lemma door_turn_expecting rdma group group_pd st :
  door_turn rdma (Expecting group group_pd) st =
    (r ← catch (on_world (accepting rdma group_pd));
     mret match r with inl connection => Entering group connection | inr _ => Vacant end) st.
Proof. by destruct group_pd. Qed.
Lemma door_turn_entering rdma group c st :
  door_turn rdma (Entering group c) st = (join group c;; mret Vacant) st.
Proof.
  destruct st as [s w]. unfold door_turn, join, shared. st_cbn.
  destruct (groups s !! group) as [e|]; st_cbn; [done|].
  by destruct (on_failure _ _ (s, w)) as [[pd|e|y|] [s' w']].
Qed.
End race.
Arguments State {W}.
Arguments requests {W}.
Arguments doorway {W}.
Arguments common {W}.

(** ** What a turn does *)

(** What a request holds, and what those of a list hold. *)
Definition in_hand (ph : phase) : list resource :=
  match ph with
  | Holding pd | Registering pd _ _ | Releasing pd _ => [RRef pd]
  | Inserting pd mr => [RRef pd; RMr (mr_mr mr)]
  | _ => []
  end.
Definition held (rqs : list request) : list resource := flat_map (fun rq => in_hand (rq_phase rq)) rqs.

(** What sharing goes on from: regions stay, groups keep their domain and
    their connections. *)
Record later (s s' : Shared) : Prop := {
  lt_catalog : catalog s ⊆ catalog s';
  lt_groups : forall g e, groups s !! g = Some e ->
    exists e', groups s' !! g = Some e' /\ ge_pd e' = ge_pd e /\
      ge_connections e `prefix_of` ge_connections e';
}.

#[export] Instance later_preorder : PreOrder later.
Proof.
  split.
  - intros s. split; [done|]. intros g e He. by exists e.
  - intros s1 s2 s3 [A1 B1] [A2 B2]. split; [by etrans|]. intros g e He.
    destruct (B1 g e He) as (e2 & He2 & E2 & P2). destruct (B2 g e2 He2) as (e3 & He3 & E3 & P3).
    exists e3. split; [done|]. split; [congruence|by etrans].
Qed.

Lemma later_same s s' : catalog s ⊆ catalog s' -> groups s' = groups s -> later s s'.
Proof. intros Hc Hg. split; [done|]. intros g e He. exists e. by rewrite Hg. Qed.

Lemma later_joined s group pd c :
  (forall p, group_of s group = Some p -> pd = p) -> later s (joined s group pd c).
Proof.
  intros Hg. split; [done|]. intros g e He. cbn [joined groups]. destruct (decide (group = g)) as [<-|Hne].
  - rewrite lookup_insert_eq. eexists. split; [done|]. cbn [ge_pd ge_connections].
    unfold members, group_of in *. rewrite He in *. split; [by apply Hg|by apply prefix_app_r].
  - rewrite lookup_insert_ne by done. by exists e.
Qed.

Lemma later_group s s' g pd : later s s' -> group_of s g = Some pd -> group_of s' g = Some pd.
Proof.
  intros [_ Hl]. unfold group_of. destruct (groups s !! g) as [e|] eqn:E; [|done]. intros [= <-].
  destruct (Hl g e E) as (e' & -> & He & _). cbn. by rewrite He.
Qed.

Lemma later_region s s' id info : later s s' -> catalog s !! id = Some info -> catalog s' !! id = Some info.
Proof. intros [Hl _] H. by apply (lookup_weaken (catalog s)). Qed.

Section turns.
Context {P : Profile} {W : Type} {V : Verbs W} {VO : VerbsOk W}.
Implicit Types (s : Shared) (w : world W) (ph : phase).

(** What a request may rely on, and answer. *)
Definition region_at s (id addr size : Z) : Prop :=
  exists info, catalog s !! id = Some info /\ addr = ri_remote_addr info /\ size = ri_size info.
Definition right_answer s (id : Z) (answer : res (option (Z * Z * Z))) : Prop :=
  match answer with
  | Ok (Some (addr, size, _)) => region_at s id addr size
  | Ok None | Err _ => True
  | _ => False
  end.
Definition phase_ok s w (id group : Z) ph : Prop :=
  match ph with
  | Looking | Joining => True
  | Holding pd => group_of s group = Some pd
  | Registering pd addr size => group_of s group = Some pd /\ region_at s id addr size
  | Inserting pd mr => group_of s group = Some pd /\
      exists info i, catalog s !! id = Some info /\ arcs w !! pd = Some i /\ mr_pd mr = pi_pd i /\
        mr_addr mr = ri_remote_addr info /\ mr_size mr = ri_size info /\ ri_size info <> 0
  | Releasing pd answer => group_of s group = Some pd /\ right_answer s id answer
  | Answered answer => right_answer s id answer
  end.

Lemma right_answer_later s s' id answer : later s s' -> right_answer s id answer -> right_answer s' id answer.
Proof.
  intros Hl. destruct answer as [[[[addr size] rkey]|]|e|y|]; try done.
  intros (info & Hi & E). exists info. split; [by apply (later_region s)|done].
Qed.

Lemma group_domain_pos s w g pd : wf_shared s w -> group_of s g = Some pd -> 1 <= ledger w (RRef pd).
Proof.
  intros Hs. unfold group_of. destruct (groups s !! g) as [e|] eqn:E; [|done]. intros [= <-].
  by apply (ws_domain _ _ Hs g).
Qed.

(** Phases survive what keeps the invariant of the shared state. *)
Lemma phase_ok_later s w s' w' id group ph :
  wf_shared s w -> wf_shared s' w' -> frame w w' -> later s s' ->
  phase_ok s w id group ph -> phase_ok s' w' id group ph.
Proof.
  intros Hs Hs' Hf Hl. pose proof (later_group s s' group) as Hg.
  destruct ph as [| |pd|pd addr size|pd mr|pd answer|answer]; cbn [phase_ok]; try done.
  - by apply Hg.
  - intros [H (info & Hi & E)]. split; [by apply Hg|]. exists info. split; [by apply (later_region s)|done].
  - intros [H (info & i & Hi & Ha & E1 & E2)]. assert (H' : group_of s' group = Some pd) by (by apply Hg).
    split; [done|]. destruct (ledger_ref_pos w' pd (group_domain_pos _ _ _ _ Hs' H')) as (i' & Ha' & _).
    destruct (ws_world _ _ Hs _ _ Ha) as [_ Hlt].
    destruct (fr_arcs _ _ Hf _ _ Hlt Ha') as (i0 & Hi0 & Hpd & _).
    exists info, i'. split_and!; [by apply (later_region s)|done|congruence|apply E2..].
  - intros [H Ha]. split; [by apply Hg|by apply (right_answer_later s)].
  - by apply right_answer_later.
Qed.

(** What one turn does, from a good state. *)
Record turned (id group : Z) ph s w ph' s' w' : Prop := {
  tn_frame : frame w w';
  tn_world : wf_world w';
  tn_qp : forall conn, has_qp (env w') conn = has_qp (env w) conn;
  tn_shared : s' = s \/ exists pd mr, ph = Inserting pd mr /\ s' = with_tuple (id, group) mr s;
  tn_phase : phase_ok s w' id group ph';
  tn_ledger : forall r, ledger w' r + tally r (in_hand ph) + shared_holds s r =
    ledger w r + tally r (in_hand ph') + shared_holds s' r;
  tn_left : answered ph = false -> (turns_left ph' < turns_left ph)%nat;
}.

Lemma turned_same id group ph s w ph' :
  wf_world w -> phase_ok s w id group ph' -> in_hand ph' = in_hand ph ->
  (answered ph = false -> (turns_left ph' < turns_left ph)%nat) -> turned id group ph s w ph' s w.
Proof. intros Hw Hok Hin Hl. split; [done|done|done|by left|done| |done]. intros r. rewrite Hin. lia. Qed.

Lemma turned_world id group ph s w ph' w' gain loss :
  wf_world w -> frame w w' -> moves w w' gain loss -> phase_ok s w' id group ph' ->
  (forall r, tally r (in_hand ph') = tally r (in_hand ph) + tally r gain - tally r loss) ->
  (turns_left ph' < turns_left ph)%nat -> turned id group ph s w ph' s w'.
Proof.
  intros Hw Hf Hm Hok Hin Hl. split; [done|by apply Hm|apply Hm|by left|done| |done].
  intros r. rewrite (mv_ledger _ _ _ _ Hm), Hin. lia.
Qed.

(** The turn that registers, and the turn that inserts. *)
Lemma turn_registers id group pd addr size s w :
  wf_shared s w -> phase_ok s w id group (Registering pd addr size) ->
  exists ph' s' w', turn id group (Registering pd addr size) (s, w) = (Ok ph', (s', w')) /\
    turned id group (Registering pd addr size) s w ph' s' w'.
Proof.
  intros Hs [Hg (info & Hi & -> & ->)]. pose proof (ws_world _ _ Hs) as Hw. cbn [turn].
  destruct (ledger_ref_pos w pd (group_domain_pos _ _ _ _ Hs Hg)) as (i & Ha & _).
  unfold catch, on_world. st_cbn. rewrite (pd_register_addr_eq _ _ _ _ _ Ha).
  pose proof (framed_registration i (ri_remote_addr info) (ri_size info) w) as Hf.
  pose proof (arcs_registration i (ri_remote_addr info) (ri_size info) w) as Har.
  destruct (registration_cases i (ri_remote_addr info) (ri_size info) w) as
    [(er & w' & Hreg & Hm & _)|(mr & l & Hreg & Hm & Hne & Haddr & Hsz & Hpd)];
    cbv zeta in Hreg; rewrite Hreg in *; cbn [snd] in *; do 3 eexists; (split; [done|]).
  - apply (turned_world _ _ _ _ _ _ _ _ _ Hw Hf Hm); [by split| |cbn; lia].
    intros r. cbn [in_hand tally]. lia.
  - apply (turned_world _ _ _ _ _ _ _ _ _ Hw Hf Hm); [| |cbn; lia].
    + split; [done|]. exists info, i. by rewrite Har.
    + intros r. cbn [in_hand tally]. lia.
Qed.

Lemma turn_inserts id group pd mr s w :
  wf_shared s w -> phase_ok s w id group (Inserting pd mr) ->
  exists ph' s' w', turn id group (Inserting pd mr) (s, w) = (Ok ph', (s', w')) /\
    turned id group (Inserting pd mr) s w ph' s' w'.
Proof.
  intros Hs [Hg (info & i & Hi & Ha & Hpd & Haddr & Hsz & Hne)].
  pose proof (ws_world _ _ Hs) as Hw. cbn [turn].
  unfold tuples_insert, shared, set_tuples, on_world. st_cbn. fold (with_tuple (id, group) mr s).
  assert (Hans : forall w', phase_ok s w' id group
    (Releasing pd (Ok (Some (mr_addr mr, mr_size mr, mr_rkey mr))))).
  { intros w'. split; [done|]. by exists info. }
  assert (Hins : forall r, shared_holds (with_tuple (id, group) mr s) r +
    tally r (match tuples s !! (id, group) with Some old => tuple_holds old | None => [] end) =
    shared_holds s r + tally r (tuple_holds mr)) by (intros r; apply holds_tuple).
  destruct (tuples s !! (id, group)) as [old|] eqn:Et.
  - unfold mr_drop. st_cbn. rewrite call_after. do 3 eexists. split; [done|].
    pose proof (after_moves (DeregMr (mr_mr old)) w ltac:(done) eq_refl) as Hm.
    split; [|by apply Hm|apply Hm|right; by exists pd, mr|done| |cbn; lia].
    + pose proof (framed_call (DeregMr (mr_mr old)) w) as Hf. by rewrite call_after in Hf.
    + intros r. rewrite (mv_ledger _ _ _ _ Hm). specialize (Hins r).
      unfold tuple_holds in Hins. cbn [created released in_hand tally] in *. lia.
  - do 3 eexists. split; [done|]. split; [done|done|done|right; by exists pd, mr|done| |cbn; lia].
    intros r. specialize (Hins r). unfold tuple_holds in Hins. cbn [in_hand tally] in *. lia.
Qed.

Lemma turn_effect id group ph s w :
  wf_shared s w -> phase_ok s w id group ph ->
  exists ph' s' w', turn id group ph (s, w) = (Ok ph', (s', w')) /\ turned id group ph s w ph' s' w'.
Proof.
  intros Hs Hok. pose proof (ws_world _ _ Hs) as Hw.
  destruct ph as [| |pd|pd addr size|pd mr|pd answer|answer].
  - cbn [turn]. unfold shared. st_cbn. do 3 eexists. split; [done|].
    destruct (tuples s !! (id, group)) as [mr|] eqn:Et; apply turned_same; cbn; try done; try lia.
    destruct (ws_tuples _ _ Hs _ _ _ Et) as (info & i & Hi & _ & _ & Ha & Hz & _). by exists info.
  - cbn [turn]. unfold shared. st_cbn. destruct (groups s !! group) as [e|] eqn:Eg.
    + destruct (pd_clone_moves w (ge_pd e) (ws_domain _ _ Hs _ _ Eg)) as (w' & Hc & Hm & _).
      unfold on_world. rewrite Hc. do 3 eexists. split; [done|].
      pose proof (framed_pd_clone (ge_pd e) w) as Hf. rewrite Hc in Hf.
      apply (turned_world _ _ _ _ _ _ _ _ _ Hw Hf Hm); [| |cbn; lia].
      * cbn. unfold group_of. by rewrite Eg.
      * intros r. cbn [in_hand tally]. lia.
    + do 3 eexists. split; [done|]. by apply turned_same; cbn; [..|lia].
  - cbn [turn]. unfold shared. st_cbn. do 3 eexists. split; [done|].
    destruct (catalog s !! id) as [info|] eqn:Ec; apply turned_same; cbn; try done; try lia.
    split; [done|]. by exists info.
  - by apply turn_registers.
  - by apply turn_inserts.
  - destruct Hok as [Hg Ha].
    destruct (pd_drop_moves w pd (group_domain_pos _ _ _ _ Hs Hg)) as (w' & Hd & Hm & _).
    cbn [turn]. unfold on_world. st_cbn. rewrite Hd. do 3 eexists. split; [done|].
    pose proof (framed_pd_drop pd w) as Hf. rewrite Hd in Hf.
    apply (turned_world _ _ _ _ _ _ _ _ _ Hw Hf Hm); [done| |cbn; lia].
    intros r. cbn [in_hand tally]. lia.
  - do 3 eexists. split; [done|]. by apply turned_same; cbn.
Qed.

(** The last turns of a request that nobody interleaves with: the
    temporary handle [pd] to [i] is dropped. *)
Lemma turn_releases id group pd i w w' answer s n :
  arcs w !! pd = Some i -> 1 <= pi_refs i -> arcs w' = arcs w ->
  turns (S n) id group (Releasing pd answer) (s, bump pd i w') = (Ok (Answered answer), (s, w')).
Proof.
  intros Hi Hr Ha. rewrite (turns_step n _ _ _ _ (Answered answer) (s, w')); [apply turns_answered|].
  unfold turn, on_world. st_cbn.
  rewrite (pd_drop_bump _ i w) by (try done; unfold bump; cbn; by rewrite Ha).
  rewrite <- Ha. by destruct w'.
Qed.

Lemma turns_register id group pd i info s w :
  arcs w !! pd = Some i -> 1 <= pi_refs i -> tuples s !! (id, group) = None ->
  turns 3 id group (Registering pd (ri_remote_addr info) (ri_size info)) (s, bump pd i w) =
    match registration i (ri_remote_addr info) (ri_size info) w with
    | (Ok mr, w') => (Ok (Answered (Ok (Some (mr_tuple mr)))), (with_tuple (id, group) mr s, w'))
    | (Err e, w') => (Ok (Answered (Err e)), (s, w'))
    | (Panic y, w') => (Panic y, (s, bump pd i w'))
    | (Diverge, w') => (Diverge, (s, bump pd i w'))
    end.
Proof.
  intros Hi Hr Et. pose proof (arcs_registration i (ri_remote_addr info) (ri_size info) w) as Har.
  assert (E4 : turn id group (Registering pd (ri_remote_addr info) (ri_size info)) (s, bump pd i w) =
    (match fst (registration i (ri_remote_addr info) (ri_size info) w) with
     | Ok mr => Ok (Inserting pd mr)
     | Err e' => Ok (Releasing pd (Err e'))
     | Panic y => Panic y
     | Diverge => Diverge
     end, (s, bump pd i (snd (registration i (ri_remote_addr info) (ri_size info) w))))).
  { unfold turn, catch, on_world. st_cbn.
    rewrite (pd_register_addr_eq _ _ _ _ _ (arcs_bump _ i w)), registration_bump by done.
    by destruct (registration i (ri_remote_addr info) (ri_size info) w) as [[] ?]. }
  destruct (registration i (ri_remote_addr info) (ri_size info) w) as [[mr|er|y|] w']; cbn [fst snd] in *.
  - rewrite (turns_step 2 _ _ _ _ _ _ E4).
    rewrite (turns_step 1 _ _ _ _ (Releasing pd (Ok (Some (mr_tuple mr))))
      (with_tuple (id, group) mr s, bump pd i w')).
    2: { unfold turn, tuples_insert, shared, set_tuples. st_cbn. by rewrite Et. }
    by apply (turn_releases _ _ _ _ w).
  - rewrite (turns_step 2 _ _ _ _ _ _ E4). by apply (turn_releases _ _ _ _ w).
  - cbn [turns]. by rewrite (ST_bind_panic _ _ _ _ _ E4).
  - cbn [turns]. by rewrite (ST_bind_diverge _ _ _ _ E4).
Qed.

End turns.

