(* ===== verification/RaceSafe.v ===== *)
(** * The sharing side: what holds of every interleaving

    Any number of requests, of readers and of registrations, in any order:
    the invariant, with the accounts of what is held, and termination. *)
From stdpp Require Import relations.
From S2P Require Import Prelude Pod Meta Verbs VerbsSpec VerbsSim VerbsFacts.
From S2P Require Import VerbsFrame VerbsApart VerbsOps Providers ProvidersFacts ProvidersFrame ProviderOps Accounts Race.

(** What the service thread holds at the door, and its connection. *)
Definition door_holds (d : door) : list resource :=
  match d with
  | Expecting _ group_pd => temporary group_pd
  | Entering _ c => owned c true
  | _ => []
  end.
Definition door_conns (d : door) : list Connection :=
  match d with Entering _ c => [c] | _ => [] end.

Section safe.
Context {P : Profile} {W : Type} {V : Verbs W} {VO : VerbsOk W} (rdma : Listener).
Context (w0 : world W) (w0_wf : wf_world w0).
Implicit Types (s : Shared) (w : world W) (d : door) (rqs : list request).

(** What the service thread may rely on: the groups are its own to
    change. *)
Definition door_ok s d : Prop :=
  match d with
  | Expecting group group_pd => group_of s group = group_pd
  | Entering group c => forall pd, group_of s group = Some pd -> c_pd c = Some pd
  | _ => True
  end.

(** The shared state keeps its invariant; requests and door are in order;
    the connections work; and everything acquired since [w0] and not given
    back is the shared state's, a request's, the door's, or a lost
    connection request. *)
Record safe (lost : list ptr) rqs d s w : Prop := {
  sf_shared : wf_shared s w;
  sf_phases : Forall (fun rq => phase_ok s w (rq_id rq) (rq_group rq) (rq_phase rq)) rqs;
  sf_door : door_ok s d;
  sf_working : working (door_conns d ++ conns_of (groups s)) w;
  sf_ledger : forall r, ledger w r = ledger w0 r + shared_holds s r + tally r (held rqs) +
    tally r (door_holds d) + tally r (map RId lost);
}.

Lemma tally_held_middle r l1 rq l2 :
  tally r (held (l1 ++ rq :: l2)) = tally r (in_hand (rq_phase rq)) + tally r (held (l1 ++ l2)).
Proof.
  unfold held. rewrite !flat_map_app, !tally_app. cbn [flat_map]. rewrite tally_app. lia.
Qed.

(** The groups' domains live, by the books. *)
Lemma kept_domains s w (l : list resource) g e :
  (forall r, ledger w r = ledger w0 r + shared_holds s r + tally r l) ->
  groups s !! g = Some e -> 1 <= ledger w (RRef (ge_pd e)).
Proof.
  intros Hl He. rewrite Hl. pose proof (holds_domain s g e He).
  pose proof (ledger_ref_nonneg w0 (ge_pd e) w0_wf). pose proof (tally_nonneg (RRef (ge_pd e)) l). lia.
Qed.

Lemma later_domains s s' w (l : list resource) :
  later s s' -> (forall r, ledger w r = ledger w0 r + shared_holds s' r + tally r l) ->
  forall g e, groups s !! g = Some e -> 1 <= ledger w (RRef (ge_pd e)).
Proof.
  intros [_ Hg] Hl g e He. destruct (Hg g e He) as (e' & He' & <- & _). by eapply kept_domains.
Qed.

(** Requests stay in order. *)
Lemma phases_later rqs s w s' w' :
  wf_shared s w -> wf_shared s' w' -> frame w w' -> later s s' ->
  Forall (fun rq => phase_ok s w (rq_id rq) (rq_group rq) (rq_phase rq)) rqs ->
  Forall (fun rq => phase_ok s' w' (rq_id rq) (rq_group rq) (rq_phase rq)) rqs.
Proof.
  intros Hs Hs' Hf Hl H. eapply list.Forall_impl; [exact H|]. intros rq. by apply phase_ok_later.
Qed.

(** The tuple that an inserting request enters is of its group. *)
Lemma wf_shared_tuple s w id group pd mr :
  wf_shared s w -> phase_ok s w id group (Inserting pd mr) -> wf_shared (with_tuple (id, group) mr s) w.
Proof.
  intros [A B C D] [Hg (info & i & Hi & Ha & E)]. split; [done|done|done|].
  intros id' g' mr'. cbn [tuples with_tuple]. rewrite lookup_insert. case_decide as Ek; [|apply D].
  intros [= <-]. injection Ek as <- <-. exists info, i. unfold group_of in Hg.
  destruct (groups s !! group) as [e|] eqn:Ee; [|done]. injection Hg as <-.
  split; [done|]. split; [by exists e|done].
Qed.

Lemma turn_safe lost l1 rq l2 d s w ph s' w' :
  safe lost (l1 ++ rq :: l2) d s w ->
  turn (rq_id rq) (rq_group rq) (rq_phase rq) (s, w) = (Ok ph, (s', w')) ->
  safe lost (l1 ++ at_phase rq ph :: l2) d s' w' /\ later s s' /\
  turned (rq_id rq) (rq_group rq) (rq_phase rq) s w ph s' w'.
Proof.
  intros [Hs Hp Hd Hwk Hl] Hrun.
  assert (Hrq : phase_ok s w (rq_id rq) (rq_group rq) (rq_phase rq))
    by (apply Forall_app in Hp as [_ Hp]; by inversion Hp).
  destruct (turn_effect _ _ _ s w Hs Hrq) as (ph1 & s1 & w1 & Hrun' & T). rewrite Hrun in Hrun'.
  injection Hrun' as <- <- <-. pose proof T as [Hf Hw' Hqp Hshared Hphase Hled _].
  assert (Hlater : later s s').
  { destruct Hshared as [->|(pd & mr & _ & ->)]; [done|by apply later_same]. }
  assert (Hled' : forall r, ledger w' r = ledger w0 r + shared_holds s' r +
    tally r (held (l1 ++ at_phase rq ph :: l2) ++ door_holds d ++ map RId lost)).
  { intros r. specialize (Hled r). specialize (Hl r). rewrite !tally_app, tally_held_middle in *.
    cbn [rq_phase at_phase]. lia. }
  assert (Hsw : wf_shared s w').
  { apply (wf_shared_frame s w w'); [done..|]. by eapply later_domains. }
  assert (Hs' : wf_shared s' w').
  { destruct Hshared as [->|(pd & mr & Eph & ->)]; [done|].
    apply (wf_shared_tuple s w' _ _ pd); [done|]. rewrite Eph in Hrq. by apply (phase_ok_later s w). }
  split; [|done]. assert (Hg : groups s' = groups s) by (by destruct Hshared as [->|(pd & mr & _ & ->)]).
  split; [done| | | |].
  - pose proof (phases_later _ s w s' w' Hs Hs' Hf Hlater Hp) as Hp'.
    apply Forall_app in Hp' as [Hp1 Hp2]. inversion_clear Hp2 as [|? ? _ Hp3].
    apply Forall_app. split; [done|]. constructor; [|done].
    cbn [rq_id rq_group rq_phase at_phase]. by apply (phase_ok_later s w').
  - unfold door_ok, group_of in *. by rewrite Hg.
  - rewrite Hg. apply (working_world _ w w'); [|done]. intros c _. by rewrite Hqp.
  - intros r. rewrite Hled', !tally_app. lia.
Qed.

Lemma region_safe lost rqs d s w id info :
  safe lost rqs d s w -> catalog s !! id = None ->
  safe lost rqs d (add_region id info s) w /\ later s (add_region id info s).
Proof.
  intros [Hs Hp Hd Hwk Hl] Hid.
  assert (Hlater : later s (add_region id info s)) by (apply later_same; [by apply insert_subseteq|done]).
  split; [|done].
  assert (Hs' : wf_shared (add_region id info s) w).
  { destruct Hs as [A B C D]. split; [done|done|done|]. intros id' g mr Hmr.
    destruct (D id' g mr Hmr) as (info' & i & Hi & H). exists info', i.
    split; [by apply (later_region s)|done]. }
  split; [done| |done|done|done]. by apply (phases_later rqs s w).
Qed.

Lemma request_safe lost rqs d s w id group :
  safe lost rqs d s w -> safe lost (rqs ++ [request_for id group]) d s w.
Proof.
  intros [Hs Hp Hd Hwk Hl]. split; [done| |done|done|].
  - apply Forall_app. split; [done|]. by repeat constructor.
  - intros r. rewrite Hl. unfold held. rewrite flat_map_app, tally_app. cbn. lia.
Qed.

(** ** The door *)

(** A turn at the door that only the libraries see. *)
Lemma door_moves lost rqs d d' s w w' gain loss :
  safe lost rqs d s w -> frame w w' -> moves w w' gain loss -> door_ok s d' ->
  (forall r, tally r (door_holds d') = tally r (door_holds d) + tally r gain - tally r loss) ->
  door_conns d' = door_conns d -> safe lost rqs d' s w'.
Proof.
  intros [Hs Hp Hd Hwk Hl] Hf Hm Hd' Hh Hc.
  assert (Hl' : forall r, ledger w' r = ledger w0 r + shared_holds s r +
    tally r (held rqs ++ door_holds d' ++ map RId lost)).
  { intros r. rewrite (mv_ledger _ _ _ _ Hm), Hl, !tally_app, Hh. lia. }
  assert (Hs' : wf_shared s w').
  { apply (wf_shared_frame s w w'); [done|done|apply Hm, Hs|]. by eapply later_domains. }
  split; [done| |done| |].
  - by apply (phases_later rqs s w).
  - rewrite Hc. apply (working_world _ w w'); [|done]. intros c _. by rewrite (mv_qp _ _ _ _ Hm).
  - intros r. rewrite Hl', !tally_app. lia.
Qed.

(** What a turn at the door comes to. *)
Definition door_outcome lost rqs s (r : res door * (Shared * world W)) : Prop :=
  match r with
  | (Ok d', (s', w')) => later s s' /\
      exists more, (length more <= 1)%nat /\ safe (more ++ lost) rqs d' s' w'
  | (Diverge, (_, w')) => blocked w'
  | _ => False
  end.

Lemma door_outcome_ok lost rqs s d' s' w' :
  later s s' -> safe lost rqs d' s' w' -> door_outcome lost rqs s (Ok d', (s', w')).
Proof. intros Hl H. split; [done|]. exists []. split; [cbn; lia|done]. Qed.

Lemma knocking_safe lost rqs group s w :
  safe lost rqs (Knocking group) s w ->
  door_outcome lost rqs s (door_turn rdma (Knocking group) (s, w)).
Proof.
  intros Ha. pose proof (sf_shared _ _ _ _ _ Ha) as Hs. cbn [door_turn]. unfold shared. st_cbn.
  destruct (groups s !! group) as [e|] eqn:Eg.
  - destruct (pd_clone_moves w (ge_pd e) (ws_domain _ _ Hs _ _ Eg)) as (w' & Hc & Hm & _).
    pose proof (framed_pd_clone (ge_pd e) w) as Hf. unfold on_world. rewrite Hc in *.
    apply door_outcome_ok; [done|].
    apply (door_moves _ _ _ _ _ _ _ _ _ Ha Hf Hm); cbn; [by unfold group_of; rewrite Eg|intros r; lia|done].
  - apply door_outcome_ok; [done|].
    apply (door_moves _ _ _ _ _ _ w [] [] Ha); cbn; [done|apply moves_refl| |lia|done].
    by unfold group_of; rewrite Eg.
Qed.

Lemma expecting_safe lost rqs group group_pd s w :
  safe lost rqs (Expecting group group_pd) s w ->
  door_outcome lost rqs s (door_turn rdma (Expecting group group_pd) (s, w)).
Proof.
  intros [Hs Hp Hd Hwk Hl]. cbn [door_ok door_holds door_conns] in *. rewrite door_turn_expecting.
  assert (Href : forall p, group_pd = Some p -> 1 <= ledger w (RRef p)).
  { intros p ->. by eapply group_domain_pos. }
  pose proof (wp_accepting rdma group_pd w (ws_world _ _ Hs) Href) as Hwp.
  pose proof (framed_accepting rdma group_pd w) as Hf.
  pose proof (accepting_beside rdma group_pd w) as Hb. unfold wp in Hwp. unfold catch, on_world. st_cbn.
  assert (Hkept : forall w' more l, frame w w' -> wf_world w' ->
    (forall r, ledger w' r = ledger w r + tally r more - tally r (temporary group_pd)) ->
    (forall r, tally r l = tally r more) ->
    wf_shared s w' /\ Forall (fun rq => phase_ok s w' (rq_id rq) (rq_group rq) (rq_phase rq)) rqs /\
    forall r, ledger w' r = ledger w0 r + shared_holds s r + tally r (held rqs ++ l ++ map RId lost)).
  { intros w' more l Hf' Hw' Hl1 Hl2.
    assert (H : forall r, ledger w' r = ledger w0 r + shared_holds s r +
      tally r (held rqs ++ l ++ map RId lost)).
    { intros r. rewrite Hl1, Hl, !tally_app, Hl2. lia. }
    assert (Hs' : wf_shared s w').
    { apply (wf_shared_frame s w w'); [done..|]. by eapply later_domains. }
    split_and!; [done| |done]. by apply (phases_later rqs s w). }
  destruct (accepting rdma group_pd w) as [[c|e|y|] w']; cbn [snd] in Hf; try done.
  - destruct Hwp as (Hw' & Hest & Hpd & Hl').
    destruct (Hkept w' (owned c true) (owned c true) Hf Hw' Hl' ltac:(done)) as (A & B & C).
    apply door_outcome_ok; [done|]. split; [done|done| | |].
    + cbn [door_ok]. rewrite Hd. intros pd Hg. by apply Hpd.
    + by apply (working_joins _ c w).
    + intros r. rewrite C, !tally_app. cbn [door_holds]. lia.
  - destruct Hwp as [Hw' Hl']. split; [done|].
    assert (Hmore : exists more : list ptr, (length more <= 1)%nat /\
      forall r, ledger w' r = ledger w r + tally r (map RId more) - tally r (temporary group_pd)).
    { destruct Hl' as [Hl'|(id & Hl')]; [exists []|exists [id]]; (split; [cbn; lia|]); intros r;
        rewrite Hl'; cbn [map tally]; lia. }
    destruct Hmore as (more & Hlen & Hl''). exists more. split; [done|].
    destruct (Hkept w' _ (map RId more) Hf Hw' Hl'' ltac:(done)) as (A & B & C).
    split; [done|done|done| |].
    + by apply (working_beside _ w w').
    + intros r. rewrite C, map_app, !tally_app. cbn [door_holds tally]. lia.
Qed.

Lemma entering_safe lost rqs group c s w :
  safe lost rqs (Entering group c) s w ->
  door_outcome lost rqs s (door_turn rdma (Entering group c) (s, w)).
Proof.
  intros [Hs Hp Hd Hwk Hl]. cbn [door_ok door_holds door_conns] in *. rewrite door_turn_entering.
  destruct (wk_established _ _ Hwk c ltac:(left)) as (_ & _ & (pd & Hc) & _).
  assert (Hpos : 1 <= ledger w (RRef pd)).
  { rewrite Hl. pose proof (owned_ref c true pd Hc). pose proof (ledger_ref_nonneg w0 pd w0_wf).
    pose proof (shared_holds_nonneg s (RRef pd)).
    pose proof (tally_nonneg (RRef pd) (held rqs)). pose proof (tally_nonneg (RRef pd) (map RId lost)). lia. }
  destruct (join_run s group c pd w Hs Hc Hpos Hd) as (w' & Hj & Hs' & Hf & Hg & Hm).
  rewrite (ST_bind_step (join group c) _ (s, w) _ _ Hj).
  pose proof (later_joined s group pd c Hg) as Hlater. apply door_outcome_ok; [done|].
  split; [done| |done| |].
  - by apply (phases_later rqs s w).
  - cbn [door_conns app]. rewrite conns_joined. apply (working_world _ w w'); [|done].
    intros c' _. by rewrite (mv_qp _ _ _ _ Hm).
  - intros r. rewrite (mv_ledger _ _ _ _ Hm), Hl, holds_joined by done. cbn [door_holds tally]. lia.
Qed.

Lemma door_safe lost rqs d s w :
  d <> Vacant -> safe lost rqs d s w -> door_outcome lost rqs s (door_turn rdma d (s, w)).
Proof.
  destruct d as [|group|group pd|group c]; [done|..]; intros _;
    [apply knocking_safe|apply expecting_safe|apply entering_safe].
Qed.

(** ** Every reachable state *)

Definition safely lost (a : state (W := W)) : Prop :=
  safe lost (requests a) (doorway a) (fst (common a)) (snd (common a)).

Lemma step_safe lost a b :
  step rdma a b -> safely lost a ->
  exists more, safely (more ++ lost) b /\ later (fst (common a)) (fst (common b)).
Proof.
  intros [H|H] Ha; unfold safely in *.
  { inversion H as [l1 rq l2 d [s w] ph [s' w'] Hna Ht]; subst.
    destruct (turn_safe _ _ _ _ _ _ _ _ _ _ Ha Ht) as (Hb & Hl & _). by exists []. }
  inversion H as [rqs d s w id info Hid|rqs d st id group|rqs st group|rqs d [s w] d' [s' w'] Hne Ht];
    subst; cbn [requests doorway common fst snd] in *.
  - exists []. by apply region_safe.
  - exists []. split; [|done]. by apply request_safe.
  - exists []. split; [|done]. destruct Ha as [A B C D E]. by split.
  - pose proof (door_safe _ _ _ _ _ Hne Ha) as Ho. rewrite Ht in Ho.
    destruct Ho as (Hl & more & _ & Hb). by exists more.
Qed.

Lemma steps_safe a b :
  rtc (step rdma) a b -> forall lost, safely lost a ->
  exists more, safely (more ++ lost) b /\ later (fst (common a)) (fst (common b)).
Proof.
  induction 1 as [a|a b c Hab _ IH]; intros lost Ha; [by exists []|].
  destruct (step_safe lost a b Hab Ha) as (more1 & Hb & Hl1).
  destruct (IH _ Hb) as (more2 & Hc & Hl2). exists (more2 ++ more1).
  rewrite <- app_assoc. split; [done|by etrans].
Qed.

(** Requests that have not started. *)
Definition fresh_requests rqs : Prop := Forall (fun rq => rq_phase rq = Looking) rqs.

Lemma held_fresh rqs : fresh_requests rqs -> held rqs = [].
Proof. induction 1 as [|rq l E H IH]; [done|]. unfold held in *. cbn [flat_map]. by rewrite E, IH. Qed.

Lemma held_answered rqs : Forall (fun rq => answered (rq_phase rq) = true) rqs -> held rqs = [].
Proof.
  induction 1 as [|rq l E Hd IH]; [done|]. unfold held in *. cbn [flat_map].
  by destruct (rq_phase rq); try discriminate E.
Qed.

Lemma safe_start lost rqs s w :
  accounts w0 lost s w -> fresh_requests rqs -> safe lost rqs Vacant s w.
Proof.
  intros [Hs Hwk Hl] Hf. split; [done| |done|done|].
  - eapply list.Forall_impl; [exact Hf|]. cbn. intros rq ->. done.
  - intros r. rewrite Hl, held_fresh by done. cbn [tally door_holds]. lia.
Qed.

(** C10: requests, readers and registrations in any interleaving: the
    shared state keeps its invariant; regions stay, and groups keep their
    domain and connections, which all work; no request ever panics: it
    can take its turn in any state; the service at the door neither
    panics nor fails, it can go on or waits for the libraries; every
    answer so far is right; and whenever every request has its answer and
    nobody is at the door, everything acquired and not given back is the
    shared state's, or a connection request that was lost. *)
Theorem requests_safe lost rqs0 s w b :
  accounts w0 lost s w -> fresh_requests rqs0 ->
  rtc (step rdma) (State rqs0 Vacant (s, w)) b ->
  let '(s', w') := common b in
  wf_shared s' w' /\ later s s' /\ working (conns_of (groups s')) w' /\
  (forall rq, rq ∈ requests b ->
     match rq_phase rq with
     | Answered answer => right_answer s' (rq_id rq) answer
     | ph => exists ph' st, turn (rq_id rq) (rq_group rq) ph (s', w') = (Ok ph', st)
     end) /\
  (forall (r : res door) st, doorway b <> Vacant -> door_turn rdma (doorway b) (s', w') = (r, st) ->
     (exists d, r = Ok d) \/ r = Diverge /\ blocked (snd st)) /\
  (doorway b = Vacant -> Forall (fun rq => answered (rq_phase rq) = true) (requests b) ->
     exists more, accounts w0 (more ++ lost) s' w').
Proof.
  intros Hac Hf Hr.
  destruct (steps_safe _ _ Hr lost (safe_start _ _ _ _ Hac Hf)) as (more & Hb & Hl).
  destruct b as [rqs d [s' w']]. cbn [requests doorway common fst snd] in *.
  pose proof Hb as [Hs Hp Hd Hwk Hled]. cbn [requests doorway common fst snd] in *.
  split_and!; [done|done| | | |].
  - destruct Hwk as [A B]. split; [intros c Hc; apply A; set_solver|].
    rewrite map_app in B. by apply list.NoDup_app in B as (_ & _ & B).
  - intros rq Hrq. apply (proj1 (list.Forall_forall _ _) Hp) in Hrq.
    destruct (turn_effect _ _ _ s' w' Hs Hrq) as (ph & s2 & w2 & Ht & _).
    by destruct (rq_phase rq); try (exists ph, (s2, w2)).
  - intros x st Hne Ht. pose proof (door_safe _ _ _ _ _ Hne Hb) as Ho. cbn in Ho.
    rewrite Ht in Ho. destruct st as [s2 w2].
    destruct x as [d'|e|y|]; try done; [left; by exists d'|by right].
  - intros -> Hdone. exists more. split; [done|done|]. intros r. rewrite Hled.
    rewrite held_answered by done. cbn [door_holds tally]. lia.
Qed.

(** A run in which [n] turns are taken, among whatever else happens. *)
Inductive paced : nat -> state (W := W) -> state (W := W) -> Prop :=
| PacedRefl a : paced 0 a a
| PacedTurn n a b c : turn_step a b -> paced n b c -> paced (S n) a c
| PacedOther n a b c : service_step rdma a b -> paced n b c -> paced n a c.

Lemma paced_steps n a b : paced n a b -> rtc (step rdma) a b.
Proof. induction 1; [done|eapply rtc_l; [by left|done]|eapply rtc_l; [by right|done]]. Qed.

(** The turns that the requests need in all. *)
Definition work_left rqs : Z := sum_over (fun rq => Z.of_nat (turns_left (rq_phase rq))) rqs.

Lemma work_left_nonneg rqs : 0 <= work_left rqs.
Proof. apply sum_over_nonneg. intros. lia. Qed.

Lemma work_left_turn lost a b :
  safely lost a -> turn_step a b ->
  work_left (requests b) < work_left (requests a) /\ length (requests b) = length (requests a).
Proof.
  intros Ha Hab. inversion Hab as [l1 rq l2 d [s w] ph [s' w'] Hna Ht]; subst. cbn [requests].
  destruct (turn_safe _ _ _ _ _ _ _ _ _ _ Ha Ht) as (_ & _ & T).
  pose proof (tn_left _ _ _ _ _ _ _ _ T Hna) as Hlt. unfold work_left.
  rewrite !sum_over_app, !length_app. cbn [sum_over rq_phase at_phase length]. lia.
Qed.

Lemma work_left_other a b :
  service_step rdma a b ->
  work_left (requests b) - 6 * Z.of_nat (length (requests b)) =
    work_left (requests a) - 6 * Z.of_nat (length (requests a)).
Proof.
  intros Hab. inversion Hab; subst; cbn [requests]; try lia. unfold work_left.
  rewrite sum_over_app, length_app. cbn [sum_over rq_phase request_for turns_left length]. lia.
Qed.

Lemma paced_work n a b : paced n a b -> forall lost, safely lost a ->
  Z.of_nat n + work_left (requests b) - 6 * Z.of_nat (length (requests b)) <=
    work_left (requests a) - 6 * Z.of_nat (length (requests a)).
Proof.
  induction 1 as [a|n a b c Hab _ IH|n a b c Hab _ IH]; intros lost Ha; [lia|..].
  - destruct (work_left_turn lost a b Ha Hab) as [H1 H2].
    destruct (step_safe lost a b (or_introl Hab) Ha) as (more & Hb & _). specialize (IH _ Hb). lia.
  - pose proof (work_left_other a b Hab) as H1.
    destruct (step_safe lost a b (or_intror Hab) Ha) as (more & Hb & _). specialize (IH _ Hb). lia.
Qed.

Lemma answered_or_turn lost a :
  safely lost a ->
  Forall (fun rq => answered (rq_phase rq) = true) (requests a) \/ exists b, turn_step a b.
Proof.
  destruct a as [rqs d [s w]]. intros [Hs Hp _ _ _]. cbn [requests doorway common fst snd] in *.
  clear -Hs Hp VO. induction Hp as [|rq l Hrq Hp IH]; [by left|].
  destruct (answered (rq_phase rq)) eqn:E.
  - destruct IH as [IH|[b Hb]]; [left; by constructor|right].
    inversion Hb as [l1 rq' l2 d' st ph st' Hna Ht Hl]; subst.
    eexists. by apply (TurnStep (rq :: l1) rq' l2).
  - right. destruct (turn_effect _ _ _ s w Hs Hrq) as (ph & s2 & w2 & Ht & _).
    eexists. by apply (TurnStep [] rq l).
Qed.

End safe.

(** ** Witnesses *)

(** Two requests for one region in one group. *)
Definition racing : list request := [request_for 5 3; request_for 5 3].

(** A reader joins a group while one request for the group is under way
    and another comes in. *)
Definition joining : list choice :=
  [Knock 3; Turn 0; AtDoor; AtDoor; AtDoor; Turn 0; Ask 5 3; Turn 0; Turn 0; Turn 1; Turn 0; Turn 0;
   Turn 1]%nat ++ map Turn [1; 1; 1; 1]%nat.
Definition door_world : world sim := listening_world [4; 9].

Lemma offered_accounts : accounts door_world [] offered door_world.
Proof.
  split; [apply offered_wf| |].
  - split; [intros c Hc; by apply elem_of_nil in Hc|constructor].
  - intros r. unfold shared_holds, offered. cbn [groups tuples]. rewrite !map_sum_empty. cbn [map tally]. lia.
Qed.

Lemma requests_safe_witness :
  exists s' w' more,
    rtc (step sample_listener) (State [request_for 5 3] Vacant (offered, door_world))
      (State [at_phase (request_for 5 3) (Answered (Ok (Some (4096, 32, 6))));
              at_phase (request_for 5 3) (Answered (Ok (Some (4096, 32, 7))))] Vacant (s', w')) /\
    length (conns_of (groups s')) = 1%nat /\ accounts door_world more s' w'.
Proof.
  destruct (run_schedule sample_listener joining (State [request_for 5 3] Vacant (offered, door_world)))
    as [[rqs d [s w]]|] eqn:E; [|vm_compute in E; discriminate E].
  pose proof (run_schedule_steps _ _ _ _ E) as Hr.
  destruct (requests_safe sample_listener door_world (ws_world _ _ (offered_wf _)) [] [request_for 5 3] _ _ _
    offered_accounts ltac:(by repeat constructor) Hr) as (_ & _ & _ & _ & _ & Hl).
  cbn [doorway requests] in Hl.
  assert (Hq : rqs = [at_phase (request_for 5 3) (Answered (Ok (Some (4096, 32, 6))));
    at_phase (request_for 5 3) (Answered (Ok (Some (4096, 32, 7))))] /\ d = Vacant /\
    length (conns_of (groups s)) = 1%nat).
  { vm_compute in E. injection E as <- <- <- <-. by split_and!. }
  destruct Hq as (-> & -> & Hc). destruct (Hl eq_refl ltac:(by repeat constructor)) as (more & Hac).
  exists s, w, (more ++ []). split; [exact Hr|]. split; [exact Hc|exact Hac].
Defined.

