(* ===== verification/RaceKeys.v ===== *)
(** * The sharing side: whether answered keys stay valid

    A tuple that was answered is the one the provider holds as long as no
    two requests for the same region and group are under way at once; when
    two are, the first one's key can be dead. *)
From stdpp Require Import relations.
From S2P Require Import Prelude Pod Meta Verbs VerbsSpec VerbsSim VerbsFacts.
From S2P Require Import VerbsFrame VerbsApart VerbsOps Providers ProvidersFacts ProvidersFrame ProviderOps Accounts.
From S2P Require Import Race RaceSafe.

Definition key (rq : request) : Z * Z := (rq_id rq, rq_group rq).
Definition pending (rq : request) : bool := negb (answered (rq_phase rq)).

(** No two requests that are under way are for the same region and
    group. *)
Definition exclusive (rqs : list request) : Prop := NoDup (map key (List.filter pending rqs)).

Section keys.
Context {P : Profile} {W : Type} {V : Verbs W} (rdma : Listener).
Implicit Types (s : Shared) (w : world W) (d : door) (rqs : list request).

(** What holds of a request that shares its key with no other under way:
    its tuple is not there until it inserts it, and is there afterwards. *)
Definition sole s (rq : request) : Prop :=
  match rq_phase rq with
  | Looking => True
  | Joining | Holding _ | Registering _ _ _ | Inserting _ _ => tuples s !! key rq = None
  | Releasing _ answer | Answered answer =>
      match answer with
      | Ok (Some t) => exists mr, tuples s !! key rq = Some mr /\ mr_tuple mr = t
      | _ => True
      end
  end.

Lemma turn_sole rq s w ph s' w' :
  turn (rq_id rq) (rq_group rq) (rq_phase rq) (s, w) = (Ok ph, (s', w')) -> sole s rq ->
  sole s' (at_phase rq ph) /\ tuples s ⊆ tuples s' /\
  forall k, k <> key rq -> tuples s' !! k = tuples s !! k.
Proof.
  unfold sole, key. cbn [rq_phase at_phase rq_id rq_group].
  destruct (rq_phase rq) as [| |pd|pd addr size|pd mr|pd answer|answer]; cbn [turn]; unfold shared; st_cbn.
  - intros [= <- <- <-] _. split; [|done].
    destruct (tuples s !! (rq_id rq, rq_group rq)) as [mr|] eqn:E; cbn; [by exists mr|done].
  - destruct (groups s !! rq_group rq) as [e|]; [|by intros [= <- <- <-]].
    unfold on_world. destruct (pd_clone (ge_pd e) w) as [[pd|er|y|] w1]; by intros [= <- <- <-].
  - intros [= <- <- <-] Hn. by destruct (catalog s !! rq_id rq).
  - unfold catch, on_world. destruct (pd_register_addr pd addr size w) as [[mr|er|y|] w1];
      by intros [= <- <- <-].
  - unfold tuples_insert, shared, set_tuples. st_cbn. intros H Hn. rewrite Hn in H.
    injection H as <- <- <-. cbn [tuples]. split; [|split].
    + exists mr. by rewrite lookup_insert_eq.
    + by apply insert_subseteq.
    + intros k Hk. by rewrite lookup_insert_ne.
  - unfold on_world. destruct (pd_drop pd w) as [[[]|er|y|] w1]; by intros [= <- <- <-].
  - by intros [= <- <- <-].
Qed.

(** What others did to the table does not matter to a request: they left
    its entry alone, or it has its answer already. *)
Lemma sole_other s s' rq :
  (pending rq = true -> tuples s' !! key rq = tuples s !! key rq) -> tuples s ⊆ tuples s' ->
  sole s rq -> sole s' rq.
Proof.
  unfold sole, pending. intros He Hsub. destruct (rq_phase rq) as [| |pd|pd addr size|pd mr|pd answer|answer];
    cbn [answered negb] in He; try done; try (by rewrite He).
  destruct answer as [[t|]|e|y|]; try done. intros (mr & Hmr & Ht). exists mr.
  split; [by apply (lookup_weaken (tuples s))|done].
Qed.

(** The table, and requests of which none disturbs another. *)
Definition undisturbed s0 (a : state (W := W)) : Prop :=
  tuples s0 ⊆ tuples (fst (common a)) /\ Forall (sole (fst (common a))) (requests a).

Lemma filter_pending_middle l1 rq l2 :
  pending rq = true -> List.filter pending (l1 ++ rq :: l2) =
    List.filter pending l1 ++ rq :: List.filter pending l2.
Proof. intros H. rewrite List.filter_app. cbn [List.filter]. by rewrite H. Qed.

Lemma exclusive_middle l1 rq l2 rq' :
  exclusive (l1 ++ rq :: l2) -> pending rq = true -> rq' ∈ l1 ++ l2 -> pending rq' = true ->
  key rq' <> key rq.
Proof.
  intros Hx Hp Hin Hp'. unfold exclusive in Hx. rewrite filter_pending_middle, map_app in Hx by done.
  cbn [map] in Hx. rewrite <- Permutation_middle in Hx.
  rewrite <- map_app, <- List.filter_app in Hx. apply list.NoDup_cons in Hx as [Hx _].
  intros E. apply Hx. rewrite <- E. apply (list_elem_of_fmap_2 key).
  apply list_elem_of_In, List.filter_In. split; [by apply list_elem_of_In|done].
Qed.

Lemma undisturbed_turn s0 a b :
  turn_step a b -> exclusive (requests a) -> undisturbed s0 a -> undisturbed s0 b.
Proof.
  intros Hab Hx [Hsub Hso]. inversion Hab as [l1 rq l2 d [s w] ph [s' w'] Hna Ht]; subst.
  cbn [requests common fst] in *. assert (Hp : pending rq = true) by (unfold pending; by rewrite Hna).
  apply Forall_app in Hso as [Hso1 Hso2]. inversion_clear Hso2 as [|? ? Hso Hso3].
  destruct (turn_sole rq s w ph s' w' Ht Hso) as (Hso' & Hgrow & Hother).
  assert (Hl : forall rq', rq' ∈ l1 ++ l2 -> sole s rq' -> sole s' rq').
  { intros rq' Hin. apply sole_other; [|done]. intros Hp'. apply Hother. by eapply exclusive_middle. }
  split; cbn [requests common fst]; [by etrans|]. rewrite list.Forall_forall in *.
  intros rq' [Hin|[->|Hin]%elem_of_cons]%elem_of_app; [|done|].
  - apply Hl; [set_solver|by apply Hso1].
  - apply Hl; [set_solver|by apply Hso3].
Qed.

Lemma door_turn_tuples d s w d' s' w' :
  door_turn rdma d (s, w) = (Ok d', (s', w')) -> tuples s' = tuples s.
Proof.
  destruct d as [|group|group pd|group c]; [cbn; by intros [= <- <- <-]| | |].
  - cbn [door_turn]. unfold shared. st_cbn. destruct (groups s !! group) as [e|]; [|by intros [= <- <- <-]].
    unfold on_world. destruct (pd_clone (ge_pd e) w) as [[pd|er|y|] w1]; by intros [= <- <- <-].
  - rewrite door_turn_expecting. unfold catch, on_world. st_cbn.
    destruct (accepting rdma pd w) as [[c|er|y|] w1]; by intros [= <- <- <-].
  - rewrite door_turn_entering. unfold join, shared, set_groups. st_cbn.
    destruct (groups s !! group) as [e|]; st_cbn; [by intros [= <- <- <-]|].
    unfold on_failure, on_world. destruct (protection_domain c w) as [[pd|er|y|] w1];
      by intros [= <- <- <-].
Qed.

Lemma undisturbed_other s0 a b : service_step rdma a b -> undisturbed s0 a -> undisturbed s0 b.
Proof.
  intros Hab [Hsub Hso].
  inversion Hab as [rqs d s w id info Hid|rqs d st id group|rqs st group|rqs d [s w] d' [s' w'] Hne Ht];
    subst; unfold undisturbed; cbn [requests common fst] in *; [done| |done|].
  - split; [done|]. apply Forall_app. split; [done|]. by repeat constructor.
  - unfold sole. rewrite (door_turn_tuples _ _ _ _ _ _ Ht). done.
Qed.

(** A run in which no two requests under way are for the same region and
    group. *)
Definition exclusive_step (a b : state (W := W)) : Prop := step rdma a b /\ exclusive (requests b).

(** C23: as long as no two requests under way at the same time are for the
    same region and group, a tuple that is in the table stays there,
    whatever the interleaving with other requests, readers and
    registrations: every tuple ever answered is the one the provider then
    holds, so its registration is alive, and later requests answer the
    same. *)
Theorem exclusive_requests_stable rqs0 s0 w0 b :
  fresh_requests rqs0 -> exclusive rqs0 ->
  rtc exclusive_step (State rqs0 Vacant (s0, w0)) b ->
  tuples s0 ⊆ tuples (fst (common b)) /\
  forall rq t, rq ∈ requests b -> rq_phase rq = Answered (Ok (Some t)) ->
    exists mr, tuples (fst (common b)) !! key rq = Some mr /\ mr_tuple mr = t.
Proof.
  intros Hf Hx Hr.
  assert (H : forall a b, rtc exclusive_step a b -> exclusive (requests a) ->
    undisturbed s0 a -> undisturbed s0 b).
  { induction 1 as [a|a b' c [[Hab|Hab] Hb] _ IH]; intros Ha Hu; [done|..]; apply IH; try done.
    - by eapply undisturbed_turn.
    - by eapply undisturbed_other. }
  destruct (H _ _ Hr Hx) as [Hsub Hso].
  { split; [done|]. cbn [requests]. eapply list.Forall_impl; [exact Hf|]. unfold sole. by intros rq ->. }
  split; [done|]. intros rq t Hrq Ht. rewrite list.Forall_forall in Hso. specialize (Hso rq Hrq).
  unfold sole in Hso. by rewrite Ht in Hso.
Qed.
End keys.

(** ** Requests for the same tuple *)

(** Two requests of which neither finds the other's tuple. *)
Definition schedule : list choice :=
  map Turn [0; 0; 0; 0; 1; 1; 1; 1; 0; 0; 1; 1]%nat.


(** ** Witnesses *)

(** Runs in which no two pending requests are for the same tuple. *)
Fixpoint run_exclusive {W} {V : Verbs W} (rdma : Listener) (l : list choice) (a : state (W := W)) :=
  match l with
  | [] => Some a
  | x :: l =>
      b ← choose rdma x a;
      if bool_decide (NoDup (map key (List.filter pending (requests b)))) then run_exclusive rdma l b else None
  end.

Lemma run_exclusive_steps {W} {V : Verbs W} rdma l (a b : state (W := W)) :
  run_exclusive rdma l a = Some b -> rtc (exclusive_step rdma) a b.
Proof.
  revert a. induction l as [|x l IH]; intros a; cbn [run_exclusive]; [by intros [= ->]|].
  destruct (choose rdma x a) as [a1|] eqn:E; [|done]. cbn. case_bool_decide; [|done]. intros Hr.
  eapply rtc_l; [|by apply IH]. split; [by eapply choose_step|done].
Qed.

(** One after the other, for the same tuple. *)
Definition in_turn : list choice := map Turn [0; 0; 0; 0; 0; 0]%nat ++ [Ask 5 3; Turn 1]%nat.

Lemma exclusive_requests_stable_witness :
  exists s w t mr, rtc (exclusive_step sample_listener)
      (State [request_for 5 3] Vacant (sample_shared, group_world))
      (State [at_phase (request_for 5 3) (Answered (Ok (Some t)));
              at_phase (request_for 5 3) (Answered (Ok (Some t)))] Vacant (s, w)) /\
    tuples s !! (5, 3) = Some mr /\ mr_tuple mr = t.
Proof.
  destruct (run_exclusive sample_listener in_turn (State [request_for 5 3] Vacant (sample_shared, group_world)))
    as [[rqs d [s w]]|] eqn:E; [|vm_compute in E; discriminate E].
  pose proof (run_exclusive_steps _ _ _ _ E) as Hr.
  destruct (exclusive_requests_stable sample_listener [request_for 5 3] _ _ _ ltac:(by repeat constructor)
    ltac:(vm_compute; repeat constructor; set_solver) Hr) as [_ H].
  cbn [requests common fst] in H.
  assert (Hq : exists t, rqs = [at_phase (request_for 5 3) (Answered (Ok (Some t)));
    at_phase (request_for 5 3) (Answered (Ok (Some t)))] /\ d = Vacant).
  { vm_compute in E. injection E as <- <- _ _. eexists. split; reflexivity. }
  destruct Hq as (t & -> & ->).
  destruct (H (at_phase (request_for 5 3) (Answered (Ok (Some t)))) t ltac:(left) eq_refl) as (mr & Hmr & Ht).
  exists s, w, t, mr. split; [exact Hr|]. split; [exact Hmr|exact Ht].
Defined.
