(* ===== verification/Services.v ===== *)
(** * The sharing side: the service and its sessions

    The service loop and the session threads keep the invariant of the
    shared state, run off no listener or session, and come to an end. *)
From S2P Require Import Prelude Pod Meta MetaFacts Channels Verbs VerbsSpec VerbsSim.
From S2P Require Import VerbsFacts VerbsFrame VerbsOps Providers ProvidersFacts ProvidersFrame.
From S2P Require Import ProviderOps.

Section services.
Context {P : Profile} {W : Type} {V : Verbs W} {VO : VerbsOk W} {HO : HashOrder} {HK : HashOrderOk}.
Implicit Types (s : Shared) (w : world W) (c : Channel).

(** The only panic of a thread: a message too long to be framed. *)
Definition too_long (why : string) : Prop := exists msg, encode msg = Panic why.

(** What the threads do to the shared state: the catalog is not theirs;
    groups keep their domains and tuples stay. *)
Record serves s w s' w' : Prop := {
  se_wf : wf_shared s' w';
  se_catalog : catalog s' = catalog s;
  se_groups : forall g e, groups s !! g = Some e ->
    exists e', groups s' !! g = Some e' /\ ge_pd e' = ge_pd e;
  se_tuples : tuples s ⊆ tuples s';
  se_log : log w `suffix_of` log w';
}.

Lemma serves_refl s w : wf_shared s w -> serves s w s w.
Proof. intros Hs. split; [done|done| |done|done]. intros g e He. by exists e. Qed.

Lemma serves_trans s1 w1 s2 w2 s3 w3 :
  serves s1 w1 s2 w2 -> serves s2 w2 s3 w3 -> serves s1 w1 s3 w3.
Proof.
  intros [A1 B1 C1 D1 E1] [A2 B2 C2 D2 E2]. split; [done|congruence| |by etrans|by etrans].
  intros g e He. destruct (C1 g e He) as (e1 & He1 & F1). destruct (C2 g e1 He1) as (e2 & He2 & F2).
  exists e2. split; [done|congruence].
Qed.

(** A call that creates and releases nothing. *)
Lemma serves_call {T} (k : ccall T) s w :
  wf_shared s w -> neutral k -> serves s w s (after k w).
Proof.
  intros Hs Hk. pose proof (neutral_moves k w Hk) as Hm.
  split; [|done| |done|]; [|intros g e He; by exists e|by apply suffix_cons_r].
  apply (wf_shared_moves s w); [done| |by apply Hm, Hs|].
  - pose proof (framed_call k w) as Hf. by rewrite call_after in Hf.
  - intros pd. rewrite (mv_ledger _ _ _ _ Hm). cbn [tally]. lia.
Qed.

Lemma serves_grows group ids s w s' w' : grows group ids s w s' w' -> serves s w s' w'.
Proof.
  intros [A B C D E F]. split; [done|done| |done|apply F]. intros g e He. exists e. by rewrite C.
Qed.

(** ** A session thread *)

(** Only tuples of its own group are added by a session. *)
Record updates (group : Z) s w s' w' : Prop := {
  up_serves : serves s w s' w';
  up_groups : groups s' = groups s;
  up_tuples : forall id g, g <> group -> tuples s' !! (id, g) = tuples s !! (id, g);
}.

Lemma updates_trans group s1 w1 s2 w2 s3 w3 :
  updates group s1 w1 s2 w2 -> updates group s2 w2 s3 w3 -> updates group s1 w1 s3 w3.
Proof.
  intros [A B C] [A' B' C']. split; [by eapply serves_trans|congruence|].
  intros id g Hg. by rewrite C', C.
Qed.

Lemma updates_grows group ids s w s' w' : grows group ids s w s' w' -> updates group s w s' w'.
Proof.
  intros G. split; [by eapply serves_grows|apply (gr_groups _ _ _ _ _ _ G)|]. intros id g Hg.
  destruct (decide (tuples s' !! (id, g) = tuples s !! (id, g))) as [|Hne]; [done|].
  by destruct (gr_new _ _ _ _ _ _ G _ Hne).
Qed.

Definition session_outcome (group : Z) s w (r : res unit * (Channel * (Shared * world W))) : Prop :=
  match r with
  | (Ok _, (_, (s', w'))) => updates group s w s' w'
  | (Panic why, _) => too_long why
  | _ => False
  end.

(** Sending the answer to an update over an armed channel, and going on
    if it could be sent. *)
Lemma answer_armed group msg c s w st (k : ST (Channel * (Shared * world W)) unit) :
  armed c -> updates group s w (fst st) (snd st) ->
  (forall c', armed c' -> rx (stream c') = rx (stream c) -> session_outcome group s w (k (c', st))) ->
  session_outcome group s w
    ((r ← catch (on_fst (channel_send msg)); match r with inr _ => mret tt | inl _ => k end) (c, st)).
Proof.
  intros Ha Hu Hk. unfold catch, on_fst. st_cbn. pose proof (channel_send_armed msg c Ha) as H.
  destruct (channel_send msg c) as [[[]|e|why|] c']; destruct H as (Ha' & Hrx & Hx); try done.
  - by apply Hk.
  - by destruct st.
  - by exists msg.
Qed.

Lemma wait_for_updates_run shutdown group fuel : forall c s w,
  wf_shared s w -> armed c -> zlen (rx (stream c)) < 5 * Z.of_nat fuel ->
  session_outcome group s w (wait_for_updates fuel shutdown group (c, (s, w))).
Proof.
  induction fuel as [|fuel IH]; intros c s w Hs Ha Hfuel.
  { pose proof (zlen_nonneg (rx (stream c))). lia. }
  cbn [wait_for_updates]. set (w1 := after (LoadFlag shutdown) w).
  assert (Hserve : serves s w s w1) by (by apply serves_call).
  assert (Hup1 : updates group s w s w1) by (by split).
  rewrite (ST_bind_step _ _ _ (fst (exec (LoadFlag shutdown) (env w))) (c, (s, w1))).
  2: { unfold on_snd, on_world. by rewrite call_after. }
  destruct (fst (exec (LoadFlag shutdown) (env w))); [done|].
  pose proof (channel_receive_armed c Ha) as Hrecv.
  destruct (channel_receive c) as [x c1] eqn:Er. destruct Hrecv as (Hret & Ha1 & Hlen).
  rewrite (ST_bind_step _ _ _ (match x with Ok m => inl m | Err e => inr e | _ => inr (bad "" []) end)
    (c1, (s, w1))).
  2: { unfold catch, on_fst. st_cbn. rewrite Er. by destruct x. }
  destruct x as [msg|e| |]; try done. specialize (Hlen msg eq_refl).
  destruct msg; try done.
  destruct (catalog_and_tuples_run group s w1 (se_wf _ _ _ _ Hserve)) as (s2 & w2 & Hcat & G).
  rewrite (ST_bind_step _ _ _ _ (c1, (s2, w2))) by (unfold on_snd; by rewrite Hcat).
  apply updates_grows in G. pose proof (updates_trans _ _ _ _ _ _ _ Hup1 G) as Hup2.
  apply answer_armed; [done|done|]. intros c2 Ha2 Hrx2.
  apply answer_armed; [done|done|]. intros c3 Ha3 Hrx3.
  assert (Hnext := IH c3 s2 w2 (se_wf _ _ _ _ (up_serves _ _ _ _ _ Hup2)) Ha3
    ltac:(rewrite Hrx3, Hrx2; lia)).
  unfold session_outcome in *.
  destruct (wait_for_updates fuel shutdown group (c3, (s2, w2))) as [[[]|e|why|] [c4 [s4 w4]]]; try done.
  by eapply updates_trans.
Qed.


(** ** The handshake *)

(** Talking to the reader: the rest of the state is left alone. *)
Definition talks {A} (r : res A) c' : Prop :=
  match r with
  | Ok _ | Err _ => armed c'
  | Panic why => too_long why
  | Diverge => False
  end.

Lemma greet_talks c (st : Shared * world W) :
  armed c -> let '(x, (c', st')) := greet (c, st) in st' = st /\ talks x c'.
Proof.
  intros Ha. unfold greet, on_fst. st_cbn. pose proof (channel_receive_armed c Ha) as H.
  destruct (channel_receive c) as [[msg|e|y|] c1]; destruct H as (Hr & Ha1 & _); try done.
  destruct msg; try done. destruct (version =? PROTOCOL_VERSION); [|done].
  pose proof (channel_send_armed (Welcome version) c1 Ha1) as H.
  destruct (channel_send (Welcome version) c1) as [[[]|e|y|] c2]; by destruct H as (Ha2 & _ & H).
Qed.

Lemma join_group_talks c (st : Shared * world W) :
  armed c -> let '(x, (c', st')) := join_group (c, st) in st' = st /\ talks x c'.
Proof.
  intros Ha. unfold join_group, on_fst. st_cbn. pose proof (channel_receive_armed c Ha) as H.
  destruct (channel_receive c) as [[msg|e|y|] c1]; destruct H as (Hr & Ha1 & _); try done.
  by destruct msg.
Qed.

Lemma send_exchange_talks exchange c :
  armed c -> let '(x, c') := send_exchange exchange c in talks x c'.
Proof.
  intros Ha. unfold send_exchange. st_cbn. pose proof (channel_send_armed (fst exchange) c Ha) as H.
  destruct (channel_send (fst exchange) c) as [[[]|e|y|] c1]; destruct H as (Ha1 & _ & H); try done;
    [|by eexists].
  pose proof (channel_send_armed (snd exchange) c1 Ha1) as H1.
  destruct (channel_send (snd exchange) c1) as [[[]|e|y|] c2]; destruct H1 as (Ha2 & _ & H1); try done.
  by eexists.
Qed.

Lemma rendezvous_serves rdma group s w :
  wf_shared s w ->
  match rendezvous rdma group (s, w) with
  | (Diverge, (_, w')) => blocked w'
  | (Panic _, _) => False
  | (x, (s', w')) => serves s w s' w' /\ (x = Ok tt -> is_Some (groups s' !! group))
  end.
Proof.
  intros Hs. pose proof (rendezvous_run rdma group s w Hs) as H.
  pose proof (framed_rendezvous rdma group (s, w)) as Hf.
  destruct (rendezvous rdma group (s, w)) as [[[]|e|y|] [s' w']]; try done.
  - destruct H as (cn & pd & -> & Hs' & _ & _ & Hpd & _). split.
    + split; try done; [|apply Hf]. intros g e He. cbn [joined groups]. rewrite lookup_insert.
      case_decide as E; [subst g|by exists e]. eexists. split; [done|]. cbn [ge_pd].
      apply Hpd. unfold group_of. by rewrite He.
    + intros _. cbn [joined groups]. rewrite lookup_insert_eq. by eexists.
  - destruct H as (-> & Hs' & _). split; [|done]. split; [done|done| |done|apply Hf]. intros g e' He. by exists e'.
Qed.

Definition handshake_outcome s w (r : res Z * (Channel * (Shared * world W))) : Prop :=
  match r with
  | (Diverge, (_, (_, w'))) => blocked w'
  | (Panic why, _) => too_long why
  | (x, (c', (s', w'))) => armed c' /\ serves s w s' w' /\
      forall g, x = Ok g -> is_Some (groups s' !! g)
  end.

Lemma handshake_body_outcome rdma c s w :
  wf_shared s w -> armed c -> handshake_outcome s w (handshake_body rdma (c, (s, w))).
Proof.
  intros Hs Ha. unfold handshake_body. st_cbn. pose proof (serves_refl s w Hs) as Hrefl.
  pose proof (greet_talks c (s, w) Ha) as H.
  destruct (greet (c, (s, w))) as [[[]|e|y|] [c1 st1]]; destruct H as [-> Ht]; try done.
  pose proof (join_group_talks c1 (s, w) Ht) as H.
  destruct (join_group (c1, (s, w))) as [[group|e|y|] [c2 st2]]; destruct H as [-> Ht2]; try done.
  unfold on_snd at 1. pose proof (rendezvous_serves rdma group s w Hs) as H.
  destruct (rendezvous rdma group (s, w)) as [[[]|e|y|] [s3 w3]]; try done.
  2: { destruct H as [Hserve _]. by split_and!. }
  destruct H as [Hserve Hgroup]. specialize (Hgroup eq_refl).
  destruct (catalog_and_tuples_run group s3 w3 (se_wf _ _ _ _ Hserve)) as (s4 & w4 & Hcat & G).
  unfold on_snd. rewrite Hcat. unfold on_fst at 1.
  assert (Hserve4 : serves s w s4 w4) by (eapply serves_trans; [exact Hserve|by eapply serves_grows]).
  assert (Hgroup4 : is_Some (groups s4 !! group)) by (by rewrite (gr_groups _ _ _ _ _ _ G)).
  match goal with |- context [send_exchange ?x c2] => pose proof (send_exchange_talks x c2 Ht2) as H;
    destruct (send_exchange x c2) as [[[]|e|y|] c5] end; try done.
  - split_and!; [done|done|]. by intros g [= <-].
Qed.

(** ** The service *)

(** A session the service runs: its channel has timeouts, so its thread
    ends, and its group exists. *)
Definition session_ok s (x : SessionThread) : Prop :=
  armed (ss_channel x) /\ is_Some (groups s !! ss_group x).

(** How often the shutdown flag was read and was not set. *)
Definition poll (e : event) : nat :=
  match e with
  | Ev c answer =>
      match c in ccall T return T -> nat with
      | LoadFlag _ => fun stop => if stop then 0%nat else 1%nat
      | _ => fun _ => 0%nat
      end answer
  end.
Fixpoint polls (l : list event) : nat :=
  match l with
  | [] => 0
  | e :: l => poll e + polls l
  end.

Lemma polls_suffix l k : l `suffix_of` k -> (polls l <= polls k)%nat.
Proof. intros [k' ->]. induction k' as [|e k' IH]; cbn; lia. Qed.

(** [n]: the rounds after which the loop may still be running; before,
    only a reader that never connects can keep it. *)
Definition service_outcome (n : nat) s w (r : res unit * (Service * (Shared * world W))) (v : Service) : Prop :=
  match r with
  | (Ok _, (v', (s', w'))) => serves s w s' w' /\ Forall (session_ok s') (sv_sessions v') /\
      (sv_shutdown v', sv_tcp v', sv_rdma v') = (sv_shutdown v, sv_tcp v, sv_rdma v)
  | (Panic why, _) => too_long why
  | (Err _, _) => False
  | (Diverge, (_, (_, w'))) => blocked w' \/ (polls (log w) + n <= polls (log w'))%nat
  end.

Lemma session_ok_mono s w s' w' l :
  serves s w s' w' -> Forall (session_ok s) l -> Forall (session_ok s') l.
Proof.
  intros H Hl. eapply list.Forall_impl; [exact Hl|]. intros x [Ha [e He]]. split; [done|].
  destruct (se_groups _ _ _ _ H _ _ He) as (e' & He' & _). by exists e'.
Qed.

Lemma handshake_outcome_caught n stream v s w :
  wf_shared s w -> Forall (session_ok s) (sv_sessions v) ->
  service_outcome n s w ((_ ← catch (handshake stream); mret tt) (v, (s, w))) v.
Proof.
  intros Hs Hv. unfold catch, handshake. st_cbn.
  assert (Hnew : match channel_new stream with Ok _ | Err _ => True | _ => False end).
  { unfold channel_new, set_read_timeout, set_write_timeout. st_cbn.
    by destruct stream as [? ? ? ? ? ? ? []]. }
  destruct (channel_new stream) as [c|e|y|] eqn:Ec; try done.
  2: { split_and!; [by apply serves_refl|done|done]. }
  destruct (channel_new_armed stream c Ec) as [Ha _]. unfold service at 1. cbn [sv_rdma].
  unfold on_snd at 1, with_local.
  pose proof (handshake_body_outcome (sv_rdma v) c s w Hs Ha) as H.
  destruct (handshake_body (sv_rdma v) (c, (s, w))) as [[g|e|y|] [c1 [s1 w1]]]; try done; [| |by left].
  2: { destruct H as (_ & Hserve & _). split_and!; [done|by eapply session_ok_mono|done]. }
  destruct H as (Ha1 & Hserve & Hg). unfold on_snd, on_world. rewrite call_after.
  unfold service, set_sessions. cbn [sv_sessions sv_shutdown sv_tcp sv_rdma].
  split_and!; [|apply Forall_app; split|done].
  - eapply serves_trans; [exact Hserve|]. by apply serves_call; [apply Hserve|].
  - by eapply session_ok_mono.
  - constructor; [|done]. split; [done|by apply Hg].
Qed.

Lemma Forall_sublist {A} (Q : A -> Prop) l k : l `sublist_of` k -> Forall Q k -> Forall Q l.
Proof.
  induction 1 as [|x l k H IH|x l k H IH]; intros Hk; [done|..]; inversion_clear Hk; auto.
Qed.

(** The sessions that are not reported as finished, in their order. *)
Lemma retain_running_run l : forall v s w,
  wf_shared s w ->
  exists l' w', retain_running l (v, (s, w)) = (Ok l', (v, (s, w'))) /\ serves s w s w' /\
    l' `sublist_of` l.
Proof.
  induction l as [|x l IH]; intros v s w Hs.
  { exists [], w. split_and!; [done|by apply serves_refl|done]. }
  cbn [retain_running]. set (w1 := after (ThreadFinished (ss_thread x)) w).
  assert (H1 : serves s w s w1) by (by apply serves_call).
  destruct (IH v s w1 (se_wf _ _ _ _ H1)) as (l' & w2 & Hl & H2 & Hsub).
  rewrite (ST_bind_step _ _ _ (fst (exec (ThreadFinished (ss_thread x)) (env w))) (v, (s, w1)))
    by (unfold on_snd, on_world; by rewrite call_after).
  rewrite (ST_bind_step _ _ _ _ _ Hl).
  do 2 eexists. split; [reflexivity|]. split; [by eapply serves_trans|].
  destruct (fst (exec _ (env w))); [by apply sublist_cons|by apply sublist_skip].
Qed.

Lemma service_outcome_trans n d s w v s1 w1 v1 r :
  serves s w s1 w1 -> (polls (log w) + d <= polls (log w1))%nat ->
  (sv_shutdown v1, sv_tcp v1, sv_rdma v1) = (sv_shutdown v, sv_tcp v, sv_rdma v) ->
  service_outcome n s1 w1 r v1 -> service_outcome (n + d) s w r v.
Proof.
  intros Hserve Hp Hv. unfold service_outcome. destruct r as [[[]|e|y|] [v' [s' w']]]; try done.
  - intros (A & B & C). split_and!; [by eapply serves_trans|done|congruence].
  - intros [H|H]; [by left|right; lia].
Qed.

(** One round of the loop, between the accept and the next one. *)
Lemma service_round n v s w (m : ST (Service * (Shared * world W)) unit) (k : ST (Service * (Shared * world W)) unit) :
  service_outcome n s w (m (v, (s, w))) v ->
  (forall v1 s1 w1, wf_shared s1 w1 -> Forall (session_ok s1) (sv_sessions v1) ->
     service_outcome n s1 w1 (k (v1, (s1, w1))) v1) ->
  service_outcome n s w
    ((m;; v ← service; l ← retain_running (sv_sessions v); set_sessions l;; k) (v, (s, w))) v.
Proof.
  intros Hm Hk. st_cbn. unfold service_outcome in Hm.
  destruct (m (v, (s, w))) as [[[]|e|y|] [v1 [s1 w1]]]; try done.
  destruct Hm as (Hserve & Hok & Hv). cbn [service].
  destruct (retain_running_run (sv_sessions v1) v1 s1 w1 (se_wf _ _ _ _ Hserve)) as
    (l & w2 & Hl & H2 & Hsub). rewrite Hl. cbn [set_sessions].
  set (v2 := {| sv_sessions := l |}).
  assert (Hserve2 : serves s w s1 w2) by (by eapply serves_trans).
  replace n with (n + 0)%nat by lia.
  apply (service_outcome_trans n 0 s w v s1 w2 v2); [done| |done|].
  { pose proof (polls_suffix _ _ (se_log _ _ _ _ Hserve2)). lia. }
  apply Hk; [by apply H2|]. cbn [sv_sessions v2]. by eapply Forall_sublist.
Qed.

Lemma accept_loop_outcome fuel : forall v s w,
  wf_shared s w -> Forall (session_ok s) (sv_sessions v) ->
  service_outcome fuel s w (accept_loop fuel (v, (s, w))) v.
Proof.
  induction fuel as [|fuel IH]; intros v s w Hs Hv; [right; cbn; lia|]. cbn [accept_loop].
  rewrite (ST_bind_step service _ (v, (s, w)) v (v, (s, w)) eq_refl).
  set (w1 := after (LoadFlag (sv_shutdown v)) w).
  assert (H1 : serves s w s w1) by (by apply serves_call).
  rewrite (ST_bind_step _ _ _ (fst (exec (LoadFlag (sv_shutdown v)) (env w))) (v, (s, w1)))
    by (unfold on_snd, on_world; by rewrite call_after).
  destruct (fst (exec (LoadFlag (sv_shutdown v)) (env w))) eqn:Estop; [by split_and!|].
  set (w2 := after (TcpAccept (sv_tcp v)) w1).
  assert (H2 : serves s w s w2) by (eapply serves_trans; [exact H1|by apply serves_call; [apply H1|]]).
  rewrite (ST_bind_step _ _ _ (fst (exec (TcpAccept (sv_tcp v)) (env w1))) (v, (s, w2)))
    by (unfold on_snd, on_world; by rewrite call_after).
  replace (S fuel) with (fuel + 1)%nat by lia.
  apply (service_outcome_trans fuel 1 s w v s w2 v); [done| |done|].
  { unfold w2, w1. cbn [log after polls poll]. rewrite Estop. lia. }
  apply service_round; [|exact IH].
  destruct (fst (exec (TcpAccept (sv_tcp v)) (env w1))) as [stream|e].
  - apply handshake_outcome_caught; [by apply H2|done].
  - unfold on_snd, on_world. rewrite call_after.
    destruct (fst (exec (Sleep SERVICE_POLL) (env w2))).
    split_and!; [|done|done]. by apply serves_call; [apply H2|].
Qed.

(** Joining what is left. *)
Lemma join_sessions l : forall v s w,
  wf_shared s w ->
  exists w', for_each l (fun session _ =>
      on_snd (X := Service) (on_world (C := Shared) (call (Join (ss_thread session))))) tt (v, (s, w)) = (Ok tt, (v, (s, w'))) /\ serves s w s w' /\
    log w' = rev (map (fun x => Ev (Join (ss_thread x)) tt) l) ++ log w.
Proof.
  induction l as [|x l IH]; intros v s w Hs; [exists w; split; [done|split; [by apply serves_refl|done]]|].
  set (w1 := after (Join (ss_thread x)) w).
  assert (H1 : serves s w s w1) by (by apply serves_call).
  destruct (IH v s w1 (se_wf _ _ _ _ H1)) as (w2 & Hl & H2 & Hlog).
  exists w2. cbn [for_each]. rewrite (ST_bind_step _ _ _ tt (v, (s, w1))).
  2: { unfold on_snd, on_world. rewrite call_after. by destruct (fst (exec (Join _) _)). }
  split; [exact Hl|]. split; [by eapply serves_trans|].
  rewrite Hlog. cbn [map rev]. rewrite <- app_assoc. cbn [app]. unfold w1. cbn [log after].
  by destruct (fst (exec (Join (ss_thread x)) (env w))).
Qed.


(** ** Starting it *)

(** ** A reader that never connects *)

Lemma accept_waits l pd w :
  fst (exec (GetCmEvent (l_event_channel l)) (env w)) = None -> fst (accept_impl l pd w) = Diverge.
Proof.
  intros H. unfold accept_impl, get_cm_event. st_cbn. rewrite call_after, H. done.
Qed.

Lemma rendezvous_waits rdma group s w :
  wf_shared s w -> fst (exec (GetCmEvent (l_event_channel rdma)) (env w)) = None ->
  fst (rendezvous rdma group (s, w)) = Diverge.
Proof.
  intros Hs Hw. rewrite (rendezvous_halves rdma group s w Hs). st_cbn.
  assert (H : fst (accept_for rdma s group w) = Diverge).
  { unfold accept_for. destruct (groups s !! group) as [e|] eqn:Eg; [|by apply accept_waits].
    destruct (ledger_ref_pos w (ge_pd e) (ws_domain _ _ Hs _ _ Eg)) as (i & Hi & _).
    rewrite (ST_bind_step _ _ _ _ _ (pd_clone_bump _ i w Hi)). unfold accepting, finally, accept_into.
    pose proof (accept_waits rdma (Some (ge_pd e)) (bump (ge_pd e) i w) Hw) as Ha.
    destruct (accept_impl rdma _ _) as [[c|er|y|] w']; try discriminate Ha. done. }
  unfold on_world. by destruct (accept_for rdma s group w) as [[c|er|y|] w'].
Qed.

(** A reader that greets and names its group but never connects over RDMA
    holds the service for ever: as no connection request comes, the
    service returns neither by itself nor because the provider tells it to
    stop, which it no longer looks at, so the drop of the provider, which
    joins it, does not end either. *)
Theorem silent_reader_stalls fuel v s w stream channel c group
    (w1 := after (LoadFlag (sv_shutdown v)) w) (w2 := after (TcpAccept (sv_tcp v)) w1) :
  wf_shared s w2 ->
  fst (exec (LoadFlag (sv_shutdown v)) (env w)) = false ->
  fst (exec (TcpAccept (sv_tcp v)) (env w1)) = inl stream ->
  channel_new stream = Ok channel ->
  (greet;; join_group) (channel, (s, w2)) = (Ok group, (c, (s, w2))) ->
  fst (exec (GetCmEvent (l_event_channel (sv_rdma v))) (env w2)) = None ->
  fst (run (S fuel) (v, (s, w))) = Diverge.
Proof.
  intros Hs Hflag Htcp Hnew Hgreet Hev.
  pose proof (rendezvous_waits (sv_rdma v) group s w2 Hs Hev) as Hr.
  assert (Hbody : fst (handshake_body (sv_rdma v) (channel, (s, w2))) = Diverge).
  { unfold handshake_body. rewrite <- ST_bind_assoc, (ST_bind_step _ _ _ _ _ Hgreet).
    unfold on_snd. st_cbn. by destruct (rendezvous (sv_rdma v) group (s, w2)) as [[[]|e|y|] [s' w']]. }
  assert (Hh : fst (handshake stream (v, (s, w2))) = Diverge).
  { unfold handshake, lift, service, with_local. st_cbn. rewrite Hnew. unfold on_snd. st_cbn.
    by destruct (handshake_body (sv_rdma v) (channel, (s, w2))) as [[g|e|y|] [c' [s' w']]]. }
  assert (Hl : fst (accept_loop (S fuel) (v, (s, w))) = Diverge).
  { cbn [accept_loop]. unfold service, on_snd, on_world. st_cbn.
    rewrite call_after, Hflag. fold w1. rewrite call_after, Htcp. fold w2. unfold catch.
    by destruct (handshake stream (v, (s, w2))) as [[[]|e|y|] [v' [s' w']]]. }
  unfold run. st_cbn. by destruct (accept_loop (S fuel) (v, (s, w))) as [[[]|e|y|] st].
Qed.
End services.

(** ** Witnesses *)
Definition sample_session : TcpStream :=
  {| rx := mjoin (map (fun m => match encode (P := true) m with Ok f => f | _ => [] end) [Update; Update]);
     rx_end := PeerClosed; tx := []; tx_room := None; tx_end := PeerClosed; read_timeout := None;
     write_timeout := None; setsockopt := None |}.


(** A service that is told to stop at once, and one that first serves a
    reader who only connects. *)
Definition idle_service : Service :=
  {| sv_shutdown := 0; sv_tcp := 18516; sv_rdma := sample_listener; sv_sessions := [] |}.


(** A reader who joins group 3 over TCP, and does no more. *)
Definition silent_session : TcpStream :=
  {| rx := mjoin (map (fun m => match encode (P := true) m with Ok f => f | _ => [] end)
       [Hello PROTOCOL_VERSION; WantGroup 3]);
     rx_end := PeerSilent; tx := []; tx_room := None; tx_end := PeerClosed; read_timeout := None;
     write_timeout := None; setsockopt := None |}.

Lemma silent_reader_stalls_witness :
  fst (run (P := true) (HO := map_order) 5 (idle_service, (sample_shared,
    World (s_with_streams (env group_world) [silent_session]) [] (arcs group_world)
      (cells group_world) (next_loc group_world)))) = Diverge.
Proof.
  set (w := World _ _ _ _ _).
  assert (Hs : wf_shared sample_shared (after (TcpAccept (sv_tcp idle_service))
    (after (LoadFlag (sv_shutdown idle_service)) w))) by (destruct sample_shared_wf as [A B C D]; by split).
  eapply (silent_reader_stalls (P := true) (HO := map_order) 4 idle_service sample_shared w);
    [exact Hs|vm_compute; reflexivity..].
Defined.
