(* ===== verification/Handles.v ===== *)
(** * The sharing side: access to a registered buffer

    A handle's borrows and stores, in any order the language allows, and
    what they leave alone: the buffer's address and extent, which the
    tuples were made from. *)
From stdpp Require Import relations.
From S2P Require Import Prelude Pod Meta Verbs VerbsSpec VerbsSim VerbsFacts.
From S2P Require Import VerbsFrame VerbsOps Providers ProvidersFacts ProviderOps.

(** What the holder of a handle can do. *)
Inductive handle_op :=
| Borrow
| RefDrop
| BorrowMut
| Store (i : nat) (x : list byte)
| RefMutDrop.

(** The guards it holds, and the elements as it wrote them. *)
Record uses := { u_refs : nat; u_mut : bool; u_elems : list (list byte) }.

(** A guard can only be dropped, or stored through, while it is held. *)
Definition allowed (u : uses) (op : handle_op) : bool :=
  match op with
  | Borrow | BorrowMut => true
  | RefDrop => bool_decide (0 < u_refs u)%nat
  | Store _ _ | RefMutDrop => u_mut u
  end.

Definition used (u : uses) (op : handle_op) : uses :=
  match op with
  | Borrow => {| u_refs := S (u_refs u); u_mut := u_mut u; u_elems := u_elems u |}
  | RefDrop => {| u_refs := pred (u_refs u); u_mut := u_mut u; u_elems := u_elems u |}
  | BorrowMut => {| u_refs := u_refs u; u_mut := true; u_elems := u_elems u |}
  | Store i x => {| u_refs := u_refs u; u_mut := u_mut u; u_elems := <[i := x]> (u_elems u) |}
  | RefMutDrop => {| u_refs := u_refs u; u_mut := false; u_elems := u_elems u |}
  end.

Section handles.
Context {W : Type}.
Abbreviation MO := (ST (gmap Z Owner * world W)).

Definition perform (hd : SharedMemoryRegionHandle) (op : handle_op) : MO unit :=
  match op with
  | Borrow => _ ← handle_borrow hd; mret tt
  | RefDrop => ref_drop hd
  | BorrowMut => _ ← handle_borrow_mut hd; mret tt
  | Store i x => ref_mut_store hd i x
  | RefMutDrop => ref_mut_drop hd
  end.

Abbreviation state := (uses * (gmap Z Owner * world W))%type.

Inductive use_step (hd : SharedMemoryRegionHandle) : state -> state -> Prop :=
| UseStep u st op st' :
    allowed u op = true -> perform hd op st = (Ok tt, st') ->
    use_step hd (u, st) (used u op, st').

(** The buffer of a handle between operations. *)
Record held_buffer (hd : SharedMemoryRegionHandle) (o0 : Owner) (u : uses) (h : gmap Z Owner) (o : Owner) : Prop := {
  hb_at : h !! h_owner hd = Some o;
  hb_borrows : ow_borrows o = if u_mut u then -1 else Z.of_nat (u_refs u);
  hb_exclusive : u_mut u = true -> u_refs u = O;
  hb_elems : v_elems (ow_box o) = u_elems u;
  hb_ptr : v_ptr (ow_box o) = v_ptr (ow_box o0);
  hb_type : v_type (ow_box o) = v_type (ow_box o0);
  hb_length : length (v_elems (ow_box o)) = length (v_elems (ow_box o0));
  hb_refs : ow_refs o = ow_refs o0;
}.

(** The handle has the type it was registered with. *)
Definition typed (hd : SharedMemoryRegionHandle) (o : Owner) : Prop :=
  rt_id (v_type (ow_box o)) = rt_id (h_view hd).

(** Each operation, from such a buffer. *)
Lemma perform_cases hd o0 u h o w op :
  typed hd o0 -> held_buffer hd o0 u h o -> allowed u op = true ->
  match perform hd op (h, w) with
  | (Ok _, (h', w')) => w' = w /\ exists o', h' = <[h_owner hd := o']> h /\
      held_buffer hd o0 (used u op) h' o'
  | (Panic _, st') => st' = (h, w) /\
      match op with
      | Borrow => u_mut u = true
      | BorrowMut => u_mut u = true \/ (0 < u_refs u)%nat
      | Store i _ => (length (u_elems u) <= i)%nat
      | _ => False
      end
  | _ => False
  end.
Proof.
  intros Ht [A B C D E F G H] Ha. unfold typed in Ht. rewrite <- F in Ht.
  destruct op; cbn [perform allowed used] in *.
  - unfold handle_borrow, owner_get. st_cbn. rewrite A, Ht, Z.eqb_refl.
    destruct (Z.ltb_spec (ow_borrows o) 0) as [Hl|Hl].
    { split; [done|]. destruct (u_mut u); [done|lia]. }
    cbn [negb]. unfold owner_set. st_cbn. split; [done|]. eexists. split; [done|].
    destruct (u_mut u) eqn:Em; [lia|].
    split; cbn; try done; [apply lookup_insert_eq|lia].
  - apply bool_decide_eq_true in Ha. unfold ref_drop, owner_get, owner_set. st_cbn. rewrite A.
    split; [done|]. eexists. split; [done|].
    destruct (u_mut u) eqn:Em; [specialize (C eq_refl); lia|].
    split; cbn; try done; [apply lookup_insert_eq|lia].
  - unfold handle_borrow_mut, owner_get. st_cbn. rewrite A, Ht, Z.eqb_refl.
    destruct (Z.eqb_spec (ow_borrows o) 0) as [Hz|Hz]; cbn [negb].
    + unfold owner_set. st_cbn. split; [done|]. eexists. split; [done|].
      destruct (u_mut u); [lia|]. split; cbn; try done; [apply lookup_insert_eq|lia].
    + split; [done|]. destruct (u_mut u); [by left|right; lia].
  - unfold ref_mut_store, owner_get, index. st_cbn. rewrite A, D.
    destruct (u_elems u !! i) as [y|] eqn:Ei.
    2: { split; [done|]. by apply lookup_ge_None_1 in Ei. }
    unfold owner_set. split; [done|]. eexists. split; [done|].
    split; cbn; try done; [apply lookup_insert_eq|].
    rewrite length_insert, <- D. exact G.
  - unfold ref_mut_drop, owner_get, owner_set. st_cbn. rewrite A. split; [done|].
    eexists. split; [done|]. specialize (C Ha). split; cbn; try done; [apply lookup_insert_eq|lia].
Qed.

Lemma use_steps_held hd o0 u h w u' h' w' o :
  typed hd o0 -> held_buffer hd o0 u h o -> rtc (use_step hd) (u, (h, w)) (u', (h', w')) ->
  w' = w /\ (exists o', held_buffer hd o0 u' h' o') /\
  forall l, l <> h_owner hd -> h' !! l = h !! l.
Proof.
  intros Ht Ho Hr.
  assert (Hgen : forall a b, rtc (use_step hd) a b -> forall o, held_buffer hd o0 (fst a) (fst (snd a)) o ->
    snd (snd b) = snd (snd a) /\ (exists o', held_buffer hd o0 (fst b) (fst (snd b)) o') /\
    forall l, l <> h_owner hd -> fst (snd b) !! l = fst (snd a) !! l).
  { clear -Ht. induction 1 as [|[u [h w]] b c Hab Hbc IH]; intros o Ho; [by split_and!; [|exists o|]|].
    inversion Hab as [? ? op [h1 w1] Ha Hp]; subst. cbn [fst snd] in *.
    pose proof (perform_cases hd o0 u h o w op Ht Ho Ha) as Hc. rewrite Hp in Hc.
    destruct Hc as (-> & o1 & -> & Ho1). destruct (IH o1 Ho1) as (E1 & E2 & E3).
    split_and!; [done|done|]. intros l Hl. rewrite E3 by done. by rewrite lookup_insert_ne. }
  by destruct (Hgen _ _ Hr o Ho).
Qed.

(** C17: a registered buffer under its handle: after any sequence of
    borrows, stores and drops of guards, the borrow count is the number
    of shared guards, or stands for one exclusive guard and then there is
    no other; a shared borrow panics exactly while an exclusive guard is
    held, an exclusive one exactly while any is; what a borrow shows is
    what was last stored; and nothing moves the buffer or changes its
    extent or type, so the catalog entry made at registration stays
    right, and no other buffer is touched. *)
Theorem handle_discipline hd name buffer refs h w u h' w' :
  h !! h_owner hd = Some {| ow_box := buffer; ow_borrows := 0; ow_refs := refs |} ->
  rt_id (v_type buffer) = rt_id (h_view hd) ->
  rtc (use_step hd) ({| u_refs := 0; u_mut := false; u_elems := v_elems buffer |}, (h, w)) (u, (h', w')) ->
  w' = w /\ (forall l, l <> h_owner hd -> h' !! l = h !! l) /\
  (u_mut u = true -> u_refs u = O) /\
  exists o, h' !! h_owner hd = Some o /\ ow_refs o = refs /\ v_elems (ow_box o) = u_elems u /\
    info_of name (ow_box o) = info_of name buffer /\
    match handle_borrow hd (h', w') with
    | (Ok elems, _) => u_mut u = false /\ elems = u_elems u
    | (Panic _, st) => u_mut u = true /\ st = (h', w')
    | _ => False
    end /\
    match handle_borrow_mut hd (h', w') with
    | (Ok elems, _) => u_mut u = false /\ u_refs u = O /\ elems = u_elems u
    | (Panic _, st) => (u_mut u = true \/ (0 < u_refs u)%nat) /\ st = (h', w')
    | _ => False
    end.
Proof.
  intros Hh Ht Hr. set (o0 := {| ow_box := buffer; ow_borrows := 0; ow_refs := refs |}) in *.
  destruct (use_steps_held hd o0 {| u_refs := 0; u_mut := false; u_elems := v_elems buffer |} h w u h' w' o0
    Ht ltac:(by split) Hr) as (-> & (o & Ho) & Hother).
  destruct Ho as [A B C D E F G H]. split_and!; [done..|]. exists o. split_and!; try done.
  - unfold info_of, zlen. by rewrite E, F, G.
  - unfold handle_borrow, owner_get, owner_set. st_cbn. rewrite A, F.
    change (v_type (ow_box o0)) with (v_type buffer). rewrite Ht, Z.eqb_refl.
    destruct (Z.ltb_spec (ow_borrows o) 0); cbn [negb]; destruct (u_mut u);
      try (exfalso; lia); by rewrite ?D.
  - unfold handle_borrow_mut, owner_get, owner_set. st_cbn. rewrite A, F.
    change (v_type (ow_box o0)) with (v_type buffer). rewrite Ht, Z.eqb_refl.
    destruct (Z.eqb_spec (ow_borrows o) 0); cbn [negb]; destruct (u_mut u);
      try (exfalso; lia).
    + split; [done|]. split; [lia|done].
    + split; [by left|done].
    + split; [right; lia|done].
Qed.
End handles.

(** ** Witness *)
Lemma handle_discipline_witness :
  let hd := {| h_id := 5; h_owner := 10; h_view := v_type sample_vec |} in
  exists u h' w', rtc (use_step (W := sim) hd)
      ({| u_refs := 0; u_mut := false; u_elems := v_elems sample_vec |}, (sharing_heap, group_world))
      (u, (h', w')) /\ u_mut u = true /\
    exists o, h' !! 10 = Some o /\
      info_of (rstr "table") (ow_box o) = info_of (rstr "table") sample_vec.
Proof.
  intros hd.
  assert (Hr : exists u h' w', rtc (use_step (W := sim) hd)
      ({| u_refs := 0; u_mut := false; u_elems := v_elems sample_vec |}, (sharing_heap, group_world))
      (u, (h', w')) /\ u_mut u = true).
  { do 3 eexists. split.
    - eapply rtc_l; [apply (UseStep hd _ _ BorrowMut); [done|vm_compute; reflexivity]|].
      eapply rtc_l; [apply (UseStep hd _ _ (Store 1 (replicate 8 Byte.xff))); [done|vm_compute; reflexivity]|].
      apply rtc_refl.
    - done. }
  destruct Hr as (u & h' & w' & Hr & Hm).
  destruct (handle_discipline hd (rstr "table") sample_vec 2 sharing_heap group_world u h' w' eq_refl eq_refl Hr)
    as (_ & _ & _ & o & Ho & _ & _ & Hinfo & _).
  exists u, h', w'. split; [exact Hr|]. split; [exact Hm|]. exists o. split; [exact Ho|exact Hinfo].
Defined.
