(* ===== verification/ProviderLife.v ===== *)
(** * The sharing side: a provider from its start to its drop

    Registrations, requests, handshakes, updates and uses of the handles,
    in any order: every tuple is of a live buffer, at its address and of
    its size; and the drop gives back all that was ever acquired. *)
From stdpp Require Import relations.
From S2P Require Import Prelude Pod Meta Channels Verbs VerbsSpec VerbsSim VerbsFacts.
From S2P Require Import VerbsFrame VerbsOps Providers ProvidersFacts.
From S2P Require Import ProvidersFrame ProviderOps Accounts Handles.

Section heap.
Context {P : Profile} {W : Type}.
Implicit Types (h : gmap Z Owner) (w : world W) (n : Z -> Z).

(** ** The owners of a buffer *)

(** [n] counts the owners of each buffer. *)
Definition owners_ok n h : Prop := forall l,
  match h !! l with Some o => ow_refs o = n l /\ 1 <= n l | None => n l = 0 end.

Lemma owners_ok_ext n n' h : (forall l, n l = n' l) -> owners_ok n h -> owners_ok n' h.
Proof. intros Hn H l. rewrite <- Hn. apply H. Qed.

Lemma owners_ok_at n h l : owners_ok n h -> n l <> 0 -> exists o, h !! l = Some o /\ ow_refs o = n l /\ 1 <= n l.
Proof. intros H Hn. specialize (H l). destruct (h !! l) as [o|]; [by exists o|done]. Qed.

(** The same buffer, however it was borrowed and written. *)
Definition same_buffer (o o' : Owner) : Prop :=
  v_type (ow_box o') = v_type (ow_box o) /\ v_ptr (ow_box o') = v_ptr (ow_box o) /\
  length (v_elems (ow_box o')) = length (v_elems (ow_box o)).

Lemma same_buffer_refl o : same_buffer o o.
Proof. done. Qed.

Lemma same_buffer_info name o o' : same_buffer o o' -> info_of name (ow_box o') = info_of name (ow_box o).
Proof. intros (A & B & C). unfold info_of, zlen. by rewrite A, B, C. Qed.

Lemma owner_drop_ok n n' h w l :
  owners_ok n h -> n l <> 0 -> n' l = n l - 1 -> (forall l', l' <> l -> n' l' = n l') ->
  exists h', owner_drop l (h, w) = (Ok tt, (h', w)) /\ owners_ok n' h' /\
    (forall l' o', h' !! l' = Some o' -> exists o, h !! l' = Some o /\ same_buffer o o') /\
    (forall l' o, n' l' <> 0 -> h !! l' = Some o -> exists o', h' !! l' = Some o' /\ same_buffer o o').
Proof.
  intros Hok Hl Hn Hn'. destruct (owners_ok_at n h l Hok Hl) as (o & Ho & Hr & Hpos).
  unfold owner_drop, owner_get, owner_free, owner_set. st_cbn. rewrite Ho.
  destruct (Z.eqb_spec (ow_refs o) 1) as [E|E]; eexists; (split; [done|]).
  - split_and!.
    + intros l'. destruct (decide (l' = l)) as [->|Hd]; [rewrite lookup_delete_eq; lia|].
      rewrite lookup_delete_ne, Hn' by done. apply Hok.
    + intros l' o' [_ H]%lookup_delete_Some. by exists o'.
    + intros l' o' Hne H. exists o'. split; [|done]. apply lookup_delete_Some. split; [|done].
      intros <-. lia.
  - set (o1 := {| ow_box := ow_box o; ow_borrows := ow_borrows o; ow_refs := ow_refs o - 1 |}).
    split_and!.
    + intros l'. rewrite lookup_insert. case_decide as Hd; [subst; cbn; lia|]. rewrite Hn' by done. apply Hok.
    + intros l' o'. rewrite lookup_insert. case_decide as Hd; [|by exists o']. subst.
      intros [= <-]. by exists o.
    + intros l' o' _ H. rewrite lookup_insert. case_decide as Hd; [|by exists o']. subst.
      rewrite Ho in H. injection H as <-. by exists o1.
Qed.

(** Every use of a handle leaves the counts and the buffers. *)
Lemma perform_buffers n hd op h w x h' w' :
  owners_ok n h -> perform hd op (h, w) = (x, (h', w')) ->
  w' = w /\ owners_ok n h' /\
  forall l, match h !! l, h' !! l with
            | Some o, Some o' => ow_refs o' = ow_refs o /\ same_buffer o o'
            | None, None => True
            | _, _ => False
            end.
Proof.
  intros Hok Hp.
  assert (H : w' = w /\ (h' = h \/ exists o o', h !! h_owner hd = Some o /\ h' = <[h_owner hd := o']> h /\
    ow_refs o' = ow_refs o /\ same_buffer o o')).
  { destruct op; cbn [perform] in Hp;
      unfold handle_borrow, ref_drop, handle_borrow_mut, ref_mut_store, ref_mut_drop, owner_get, owner_set in Hp;
      st_cbn_in Hp; destruct (h !! h_owner hd) as [o|] eqn:Ho; try (injection Hp as <- <- <-; by split; [|left]).
    - destruct (_ <? _); [by simplify_eq; split; [|left]|].
      destruct (negb _); simplify_eq; (split; [done|]); [by left|right; by exists o, (Build_Owner (ow_box o) (ow_borrows o + 1) (ow_refs o))].
    - simplify_eq. split; [done|right]. by do 2 eexists.
    - destruct (negb (_ =? 0)); [by simplify_eq; split; [|left]|].
      destruct (negb _); simplify_eq; (split; [done|]); [by left|right; by do 2 eexists].
    - unfold index in Hp. destruct (v_elems (ow_box o) !! i); simplify_eq; (split; [done|]); [right|by left].
      do 2 eexists. split_and!; [done|done|done|]. split_and!; [done|done|]. cbn. by rewrite length_insert.
    - simplify_eq. split; [done|right]. by do 2 eexists. }
  destruct H as [-> [->|(o & o' & Ho & -> & Hr & Hs)]]; (split; [done|]).
  - split; [done|]. intros l. by destruct (h !! l).
  - split; intros l; rewrite lookup_insert; case_decide as Hd; try apply Hok; try subst l.
    + rewrite Hr. specialize (Hok (h_owner hd)). by rewrite Ho in Hok.
    + by rewrite Ho.
    + by destruct (h !! l).
Qed.
End heap.

(** ** The life of a provider *)
Section life.
Context {P : Profile} {W : Type} {V : Verbs W} {VO : VerbsOk W} {HO : HashOrder} {HK : HashOrderOk}.
Implicit Types (p : SharedMemoryRegionProvider) (h : gmap Z Owner) (w : world W).

(** The provider, the handles its user holds, the buffers, the libraries
    and the number of failed handshakes. *)
Record sharing_state := Sharing {
  sh_provider : SharedMemoryRegionProvider;
  sh_handles : list SharedMemoryRegionHandle;
  sh_heap : gmap Z Owner;
  sh_world : world W;
  sh_failed : nat;
}.

(** Whole operations: of the user, of the service thread (a handshake
    over some channel) and of a session thread (the exchange of an
    update). A [Vec] fits in the address space, and fewer than 2^32
    regions are registered. *)
Inductive sharing_step : sharing_state -> sharing_state -> Prop :=
| ShRegister p hds h w k name buffer hd p' h' w' :
    fits 64 (zlen (v_elems buffer) * size_of (rt_layout (v_type buffer))) ->
    p_next_id p + 1 < 2 ^ 32 ->
    register_typed name buffer (p, (h, w)) = (Ok hd, (p', (h', w'))) ->
    sharing_step (Sharing p hds h w k) (Sharing p' (hd :: hds) h' w' k)
| ShRequest p hds h w k id group x p' h' w' :
    get_shared_mr id group (p, (h, w)) = (x, (p', (h', w'))) ->
    sharing_step (Sharing p hds h w k) (Sharing p' hds h' w' k)
| ShHandshake p hds h w k rdma c x c' s' w' :
    handshake_body rdma (c, (p_shared p, w)) = (x, (c', (s', w'))) -> x <> Diverge ->
    sharing_step (Sharing p hds h w k)
      (Sharing (with_shared s' p) hds h w' (match x with Ok _ => k | _ => S k end))
| ShExchange p hds h w k group x p' h' w' :
    on_shared (catalog_and_tuples group) (p, (h, w)) = (x, (p', (h', w'))) ->
    sharing_step (Sharing p hds h w k) (Sharing p' hds h' w' k)
| ShUse p hds h w k hd op x h' w' :
    hd ∈ hds -> perform hd op (h, w) = (x, (h', w')) ->
    sharing_step (Sharing p hds h w k) (Sharing p hds h' w' k)
| ShDropHandle p hds1 hd hds2 h w k h' w' :
    owner_drop (h_owner hd) (h, w) = (Ok tt, (h', w')) ->
    sharing_step (Sharing p (hds1 ++ hd :: hds2) h w k) (Sharing p (hds1 ++ hds2) h' w' k).

(** Who owns a buffer: the provider and the handles. *)
Definition handle_owners (hds : list SharedMemoryRegionHandle) (l : Z) : Z :=
  sum_over (fun hd => at_loc l (h_owner hd)) hds.
Definition buffer_owners p hds (l : Z) : Z := map_sum (at_loc l) (p_owners p) + handle_owners hds l.

Lemma handle_owners_nonneg hds l : 0 <= handle_owners hds l.
Proof. apply sum_over_nonneg. intros. apply at_loc_nonneg. Qed.

Lemma provider_owners_nonneg p l : 0 <= map_sum (at_loc l) (p_owners p).
Proof. apply map_sum_nonneg. intros. apply at_loc_nonneg. Qed.

Record sharing_ok (w0 : world W) (st : sharing_state) : Prop := {
  sk_start : wf_world w0;
  sk_accounts : exists leaked, (length leaked <= sh_failed st)%nat /\
    accounts w0 leaked (p_shared (sh_provider st)) (sh_world st);
  sk_provider : wf_provider (sh_provider st) (sh_heap st) (sh_world st);
  sk_owners : owners_ok (buffer_owners (sh_provider st) (sh_handles st)) (sh_heap st);
}.

(** A provider over a heap whose buffers are the same. *)
Lemma wf_provider_heap p h h' w w' :
  wf_provider p h w -> next_loc w <= next_loc w' ->
  (forall l o', h' !! l = Some o' -> is_Some (h !! l)) ->
  (forall id l o, p_owners p !! id = Some l -> h !! l = Some o ->
     exists o', h' !! l = Some o' /\ 1 <= ow_refs o' /\ same_buffer o o') ->
  wf_provider p h' w'.
Proof.
  intros [A B C D] Hn Hold Hnew. split; [done|done| |].
  - intros id info Hi. destruct (C id info Hi) as (l & o & Hl & Ho & _ & Hinfo).
    destruct (Hnew id l o Hl Ho) as (o' & Ho' & Hr & Hs). exists l, o'. split_and!; [done..|].
    by rewrite (same_buffer_info _ _ _ Hs).
  - intros l [o' Ho']. specialize (D l (Hold l o' Ho')). lia.
Qed.

Lemma wf_provider_shared p s' h w w' :
  wf_provider p h w -> next_loc w <= next_loc w' -> catalog s' = catalog (p_shared p) ->
  wf_provider (with_shared s' p) h w'.
Proof.
  intros [A B C D] Hn Hc. split; cbn [with_shared p_next_id p_owners p_shared]; rewrite ?Hc; try done.
  intros l Hl. specialize (D l Hl). lia.
Qed.

(** *** Each step *)
Lemma accounts_catalog w0 leaked s w id info :
  accounts w0 leaked s w -> catalog s !! id = None ->
  accounts w0 leaked {| catalog := <[id := info]> (catalog s); groups := groups s; tuples := tuples s |}
    (World (env w) (log w) (arcs w) (cells w) (next_loc w + 1)).
Proof.
  intros [[A1 A2 A3 A4] B C] Hid. split.
  - split; cbn [groups tuples catalog]; try done.
    + intros pd i Hi. specialize (A1 pd i Hi). cbn [next_loc]. lia.
    + intros id' g mr Hmr. destruct (A4 id' g mr Hmr) as (info' & i & Hi & Hrest).
      exists info', i. split; [|done]. rewrite lookup_insert_ne; [done|]. intros ->. congruence.
  - apply (working_world _ w); [by intros|exact B].
  - intros r. specialize (C r). unfold shared_holds in *. cbn [groups tuples]. rewrite <- C. by destruct r.
Qed.

Lemma register_step w0 p hds h w k name buffer hd p' h' w' :
  sharing_ok w0 (Sharing p hds h w k) ->
  fits 64 (zlen (v_elems buffer) * size_of (rt_layout (v_type buffer))) ->
  p_next_id p + 1 < 2 ^ 32 ->
  register_typed name buffer (p, (h, w)) = (Ok hd, (p', (h', w'))) ->
  sharing_ok w0 (Sharing p' (hd :: hds) h' w' k).
Proof.
  intros [Hw0 (leaked & Hlen & Hac) Hwf Hown] Hfit Hnext Hrun.
  cbn [sh_provider sh_handles sh_heap sh_world sh_failed] in *.
  assert (Hpos : 0 < size_of (rt_layout (v_type buffer))).
  { destruct (Z.ltb_spec 0 (size_of (rt_layout (v_type buffer)))) as [|Hn]; [done|].
    unfold register_typed in Hrun. rewrite (proj2 (Z.ltb_ge _ _) Hn) in Hrun. discriminate Hrun. }
  assert (Hid : p_owners p !! p_next_id p = None /\ catalog (p_shared p) !! p_next_id p = None).
  { split; [destruct (p_owners p !! p_next_id p) as [x|] eqn:E|
      destruct (catalog (p_shared p) !! p_next_id p) as [x|] eqn:E]; try done;
      pose proof (wp_ids _ _ _ Hwf (p_next_id p)) as Hlt; rewrite E in Hlt.
    - specialize (Hlt ltac:(left; by eexists)). lia.
    - specialize (Hlt ltac:(right; by eexists)). lia. }
  destruct Hid as [Hido Hidc].
  rewrite (register_run name buffer p h w (p_next_id p + 1) Hpos Hido) in Hrun; [| |done].
  2: { pose proof (wp_next _ _ _ Hwf). apply uint_add_fits. unfold fits. lia. }
  unfold registered in Hrun. injection Hrun as <- <- <- <-.
  assert (Hfresh : h !! next_loc w = None).
  { destruct (h !! next_loc w) eqn:E; [|done].
    pose proof (wp_heap _ _ _ Hwf (next_loc w) ltac:(by eexists)). lia. }
  split; cbn [sh_provider sh_handles sh_heap sh_world sh_failed p_shared]; [done| | |].
  - exists leaked. split; [done|]. by apply accounts_catalog.
  - destruct Hwf as [A B C D]. split; cbn [p_next_id p_owners p_shared catalog next_loc].
    + lia.
    + intros id. rewrite !lookup_insert. case_decide; [lia|]. intros Hx. specialize (B id Hx). lia.
    + intros id info. rewrite lookup_insert. case_decide as Hd.
      * intros [= <-]. subst id. exists (next_loc w). eexists. rewrite !lookup_insert_eq.
        split_and!; [done|done|cbn; lia|done].
      * intros Hi. destruct (C id info Hi) as (l & o & Hl & Ho & Hrest). exists l, o.
        rewrite lookup_insert_ne by congruence. split; [done|]. rewrite lookup_insert_ne; [done|congruence].
    + intros l. rewrite lookup_insert. case_decide; [intros _; lia|]. intros Hl. specialize (D l Hl). lia.
  - intros l. unfold buffer_owners. cbn [p_owners handle_owners sum_over h_owner].
    rewrite map_sum_insert by done. specialize (Hown l). unfold buffer_owners, handle_owners in Hown.
    fold (handle_owners hds l) in *. rewrite lookup_insert. case_decide as Hd.
    + subst l. rewrite Hfresh in Hown. cbn [ow_refs]. rewrite at_loc_eq. lia.
    + rewrite at_loc_ne by congruence. by rewrite !Z.add_0_l.
Qed.

Lemma shared_step w0 p hds h w k s' w' k' :
  sharing_ok w0 (Sharing p hds h w k) -> frame w w' -> catalog s' = catalog (p_shared p) ->
  (exists leaked, (length leaked <= k')%nat /\ accounts w0 leaked s' w') ->
  sharing_ok w0 (Sharing (with_shared s' p) hds h w' k').
Proof.
  intros [Hw0 _ Hwf Hown] Hf Hc Hac. split; try done.
  apply (wf_provider_shared p s' h w w'); [done|apply Hf|done].
Qed.

Lemma on_shared_step w0 p hds h w k {A} (m : ST (Shared * world W) A) x p' h' w' :
  sharing_ok w0 (Sharing p hds h w k) -> on_shared m (p, (h, w)) = (x, (p', (h', w'))) ->
  preserves (fun st st' => frame (snd st) (snd st')) m ->
  (forall leaked, accounts w0 leaked (p_shared p) w ->
     let '(_, (s', w')) := m (p_shared p, w) in
     accounts w0 leaked s' w' /\ catalog s' = catalog (p_shared p)) ->
  sharing_ok w0 (Sharing p' hds h' w' k).
Proof.
  intros Hok Hrun Hf Hm. destruct (sk_accounts _ _ Hok) as (leaked & Hlen & Hac).
  cbn [sh_provider sh_world sh_failed] in *. specialize (Hm leaked Hac). specialize (Hf (p_shared p, w)).
  unfold on_shared in Hrun. destruct (m (p_shared p, w)) as [r [s' w1]]. cbn [snd] in Hf.
  injection Hrun as <- <- <- <-. destruct Hm as [Hac' Hc].
  apply (shared_step w0 p hds h w k s' w1 k Hok Hf Hc). by exists leaked.
Qed.

Lemma handshake_step w0 p hds h w k rdma c x c' s' w' :
  sharing_ok w0 (Sharing p hds h w k) ->
  handshake_body rdma (c, (p_shared p, w)) = (x, (c', (s', w'))) -> x <> Diverge ->
  sharing_ok w0 (Sharing (with_shared s' p) hds h w' (match x with Ok _ => k | _ => S k end)).
Proof.
  intros Hok Hrun Hx. destruct (sk_accounts _ _ Hok) as (leaked & Hlen & Hac).
  cbn [sh_provider sh_world sh_failed] in *.
  pose proof (accounts_handshake w0 leaked rdma c (p_shared p) w Hac) as H.
  pose proof (framed_handshake_body rdma (c, (p_shared p, w))) as Hf. rewrite Hrun in *.
  cbn [snd] in Hf. unfold handshake_accounts in H.
  assert (Hlose : may_lose w0 leaked s' w' ->
    exists leaked, (length leaked <= S k)%nat /\ accounts w0 leaked s' w').
  { intros (more & Hm & Hac'). exists (more ++ leaked). rewrite length_app. split; [lia|done]. }
  destruct x; try done; destruct H as [Hac' Hc]; apply (shared_step w0 p hds h w k); try done; eauto.
Qed.

Lemma use_step w0 p hds h w k hd op x h' w' :
  sharing_ok w0 (Sharing p hds h w k) -> perform hd op (h, w) = (x, (h', w')) ->
  sharing_ok w0 (Sharing p hds h' w' k).
Proof.
  intros [Hw0 Hac Hwf Hown] E. cbn [sh_provider sh_handles sh_heap sh_world sh_failed] in *.
  destruct (perform_buffers _ hd op h w x h' w' Hown E) as (-> & Hown' & Hb). split; try done.
  apply (wf_provider_heap p h h' w w Hwf); [lia| |].
  - intros l o' Ho'. specialize (Hb l). rewrite Ho' in Hb. by destruct (h !! l).
  - intros id l o Hl Ho. specialize (Hb l). rewrite Ho in Hb. destruct (h' !! l) as [o'|]; [|done].
    destruct Hb as [Hr Hb]. exists o'. split_and!; [done| |done].
    rewrite Hr. pose proof (Hown l) as Hn. cbn in Hn. rewrite Ho in Hn. lia.
Qed.

Lemma drop_handle_step w0 p hds1 hd hds2 h w k h' w' :
  sharing_ok w0 (Sharing p (hds1 ++ hd :: hds2) h w k) ->
  owner_drop (h_owner hd) (h, w) = (Ok tt, (h', w')) ->
  sharing_ok w0 (Sharing p (hds1 ++ hds2) h' w' k).
Proof.
  intros [Hw0 Hac Hwf Hown] E. cbn [sh_provider sh_handles sh_heap sh_world sh_failed] in *.
  assert (Hn : forall l, buffer_owners p (hds1 ++ hd :: hds2) l =
    buffer_owners p (hds1 ++ hds2) l + at_loc l (h_owner hd)).
  { intros l. unfold buffer_owners, handle_owners. rewrite !sum_over_app. cbn [sum_over]. lia. }
  pose proof (handle_owners_nonneg (hds1 ++ hds2) (h_owner hd)) as Hpos1.
  pose proof (provider_owners_nonneg p (h_owner hd)) as Hpos2. pose proof (Hn (h_owner hd)) as Hn0.
  rewrite at_loc_eq in Hn0. unfold buffer_owners at 2 in Hn0.
  destruct (owner_drop_ok _ (buffer_owners p (hds1 ++ hds2)) h w (h_owner hd) Hown) as
    (h1 & E1 & Hown1 & Hold & Hnew); [lia|unfold buffer_owners at 1; lia| |].
  { intros l Hl. rewrite Hn, at_loc_ne by done. lia. }
  rewrite E1 in E. injection E as <- <-. split; try done.
  cbn [sh_provider sh_handles sh_heap sh_world].
  apply (wf_provider_heap p h h1 w w Hwf); [lia| |].
  + intros l o' Ho'. destruct (Hold l o' Ho') as (o & Ho & _). by exists o.
  + intros id l o Hl Ho. assert (Hne : buffer_owners p (hds1 ++ hds2) l <> 0).
    { unfold buffer_owners. pose proof (handle_owners_nonneg (hds1 ++ hds2) l).
      pose proof (map_sum_ge (at_loc l) id l (p_owners p) ltac:(intros; apply at_loc_nonneg) Hl) as Hge.
      rewrite at_loc_eq in Hge. lia. }
    destruct (Hnew l o Hne Ho) as (o' & Ho' & Hsame). exists o'. split_and!; [done| |done].
    specialize (Hown1 l). rewrite Ho' in Hown1. lia.
Qed.

Lemma sharing_step_ok w0 st st' : sharing_step st st' -> sharing_ok w0 st -> sharing_ok w0 st'.
Proof.
  intros Hs Hok.
  destruct Hs as [p hds h w k name buffer hd p' h' w' Hfit Hn E|p hds h w k id group x p' h' w' E|
    p hds h w k rdma c x c' s' w' E Hx|p hds h w k group x p' h' w' E|
    p hds h w k hd op x h' w' Hin E|p hds1 hd hds2 h w k h' w' E].
  - by apply (register_step w0 p hds h w k name buffer).
  - apply (on_shared_step w0 p hds h w k (tuple_of id group) x p' h' w' Hok E); [apply framed_tuple_of|].
    intros leaked Hac. pose proof (accounts_tuple w0 leaked id group (p_shared p) w Hac) as H.
    destruct (tuple_of id group _) as [y [s' w1]]. by destruct H.
  - by apply (handshake_step w0 p hds h w k rdma c x c').
  - apply (on_shared_step w0 p hds h w k (catalog_and_tuples group) x p' h' w' Hok E);
      [apply framed_catalog_and_tuples|].
    intros leaked Hac.
    pose proof (settles_exchange w0 leaked _ group (p_shared p, w) (conj Hac eq_refl)) as H.
    destruct (catalog_and_tuples_run group (p_shared p) w (ac_shared _ _ _ _ Hac)) as (s1 & w1 & E1 & _).
    rewrite E1 in *. exact H.
  - by apply (use_step w0 p hds h w k hd op x).
  - by apply (drop_handle_step w0 p hds1 hd hds2 h w k).
Qed.

Lemma sharing_start w0 addr :
  wf_world w0 -> sharing_ok w0 (Sharing (provider_new addr) [] ∅ w0 0).
Proof.
  intros Hw. split; cbn [sh_provider sh_handles sh_heap sh_world sh_failed]; [done| | |].
  - exists []. split; [done|]. split.
    + split; [done|..]; intros *; cbn; rewrite lookup_empty; done.
    + split; cbn; [set_solver|constructor].
    + intros r. unfold shared_holds. cbn. rewrite !map_sum_empty. lia.
  - split; [done| | |].
    + intros id [[x H]|[x H]]; cbn in H; by rewrite lookup_empty in H.
    + intros id info H. cbn in H. by rewrite lookup_empty in H.
    + intros l [x H]. by rewrite lookup_empty in H.
  - intros l. rewrite lookup_empty. unfold buffer_owners. cbn. by rewrite map_sum_empty.
Qed.

Lemma sharing_reachable w0 addr st :
  wf_world w0 -> rtc sharing_step (Sharing (provider_new addr) [] ∅ w0 0) st -> sharing_ok w0 st.
Proof.
  intros Hw Hr. pose proof (sharing_start w0 addr Hw) as H0. revert H0.
  induction Hr as [|st1 st2 st3 Hs _ IH]; [done|]. intros H. by apply IH, (sharing_step_ok w0 st1).
Qed.

(** *** The drop *)
Lemma owners_drop_ok (m : Z -> Z) (Hm : forall l, 0 <= m l) (order : list (Z * Z)) p w : forall h,
  owners_ok (fun l => sum_over (fun kx => at_loc l (snd kx)) order + m l) h ->
  exists h', for_each order (fun '(_, a) _ => on_snd (owner_drop a)) tt (p, (h, w)) = (Ok tt, (p, (h', w))) /\
    owners_ok m h' /\
    forall l o, m l <> 0 -> h !! l = Some o -> exists o', h' !! l = Some o' /\ same_buffer o o'.
Proof.
  induction order as [|[id a] order IH]; intros h Hok.
  { exists h. split_and!; [done|done|]. intros l o _ Ho. by exists o. }
  assert (Hpos : forall l, 0 <= sum_over (fun kx : Z * Z => at_loc l (snd kx)) order)
    by (intros l; apply sum_over_nonneg; intros; apply at_loc_nonneg).
  pose proof (Hm a) as Hma. pose proof (Hpos a) as Hpa.
  destruct (owner_drop_ok _ (fun l => sum_over (fun kx : Z * Z => at_loc l (snd kx)) order + m l) h w a Hok)
    as (h1 & E1 & Hok1 & _ & Hnew).
  - cbn [sum_over snd]. rewrite at_loc_eq. lia.
  - cbn [sum_over snd]. rewrite at_loc_eq. lia.
  - intros l Hl. cbn [sum_over snd]. rewrite (at_loc_ne l) by done. lia.
  - destruct (IH h1 Hok1) as (h' & E2 & Hok2 & Hnew2). exists h'. split_and!; [|done|].
    + cbn [for_each].
      assert (E1' : on_snd (X := SharedMemoryRegionProvider) (owner_drop a) (p, (h, w)) = (Ok tt, (p, (h1, w))))
        by (unfold on_snd; by rewrite E1).
      by rewrite (ST_bind_step _ _ _ _ _ E1').
    + intros l o Hml Ho. specialize (Hm l). specialize (Hpos l).
      destruct (Hnew l o ltac:(lia) Ho) as (o1 & Ho1 & S1). destruct (Hnew2 l o1 Hml Ho1) as (o2 & Ho2 & S2).
      exists o2. split; [done|]. unfold same_buffer in *. destruct S1 as (?&?&?), S2 as (?&?&?).
      split_and!; congruence.
Qed.

Lemma sharing_drop w0 p hds h w k :
  sharing_ok w0 (Sharing p hds h w k) ->
  exists p' h' w', provider_drop (p, (h, w)) = (Ok tt, (p', (h', w'))) /\
    owners_ok (handle_owners hds) h' /\
    (forall hd o, hd ∈ hds -> h !! h_owner hd = Some o ->
       exists o', h' !! h_owner hd = Some o' /\ same_buffer o o') /\
    exists leaked, (length leaked <= k)%nat /\ forall r, ledger w' r = ledger w0 r + tally r (map RId leaked).
Proof.
  intros [Hw0 (leaked & Hlen & Hac) Hwf Hown]. cbn [sh_provider sh_handles sh_heap sh_world sh_failed] in *.
  destruct (stop_run p h w) as (p2 & w1 & early & E1 & Hsh & How & Hf1 & Hm1 & _).
  assert (Hac1 : accounts w0 leaked (p_shared p2) w1).
  { rewrite Hsh. by apply (accounts_moves w0 leaked _ w w1 Hac). }
  destruct (accounts_drop w0 leaked (p_shared p2) w1 Hw0 Hac1) as (w2 & w3 & E2 & E3 & _ & Hl).
  destruct (owners_drop_ok (handle_owners hds) (handle_owners_nonneg hds) (map_to_list (p_owners p2))
    (with_shared (emptied (p_shared p2)) p2) w3 h) as (h' & E4 & Hok' & Hnew).
  { eapply owners_ok_ext; [|exact Hown]. intros l. unfold buffer_owners. by rewrite map_sum_list, How. }
  exists (with_shared (emptied (p_shared p2)) p2), h', w3. split_and!; [|done| |by exists leaked].
  - by apply (provider_drop_seq p h w p2 w1 w2 w3 h').
  - intros hd o Hin Ho. apply Hnew; [|done].
    apply list_elem_of_split in Hin as (hds1 & hds2 & ->). unfold handle_owners. rewrite sum_over_app.
    cbn [sum_over]. rewrite at_loc_eq. pose proof (handle_owners_nonneg hds1 (h_owner hd)).
    pose proof (handle_owners_nonneg hds2 (h_owner hd)). unfold handle_owners in *. lia.
Qed.

End life.

(** ** Witness *)

(** A reader that greets and asks for group 3. *)
Definition joining_stream : TcpStream :=
  {| rx := mjoin (map (fun m => match encode (P := true) m with Ok f => f | _ => [] end)
              [Hello PROTOCOL_VERSION; WantGroup 3]);
     rx_end := PeerClosed; tx := []; tx_room := None; tx_end := PeerClosed;
     read_timeout := Some 1; write_timeout := Some 1; setsockopt := None |}.

