(* ===== verification/ReaderSessions.v ===== *)
(** * The reading side: caches, sessions and lookups

    What an exchange leaves in the caches, which region a lookup hands
    out, and what a failing update leaves alone. *)
From S2P Require Import Prelude Pod Meta Verbs VerbsSpec VerbsSim VerbsFacts.
From S2P Require Import Providers Readers.

(** ** The caches *)

Definition key_of (region : RegionDesc) : rstring * Z := (rd_name region, rd_id region).

(** The last entry of the catalog with a key, the last tuple of a
    region. *)
Definition last_region (key : rstring * Z) (regions : list RegionDesc) : option RegionDesc :=
  list.last (filter (fun d => key_of d = key) regions).
Definition last_tuple (id : Z) (tuples : list TupleDesc) : option TupleDesc :=
  list.last (filter (fun t => td_region_id t = id) tuples).

(** The entries of other groups. *)
Definition other_groups (group : Z) (l : list CachedRegion) : list CachedRegion :=
  filter (fun c => cr_group c <> group) l.

Lemma tuples_by_id_lookup tuples id : tuples_by_id tuples !! id = last_tuple id tuples.
Proof.
  unfold tuples_by_id, last_tuple. induction tuples as [|t l IH] using rev_ind; [done|].
  rewrite foldl_app, list.filter_app. cbn [foldl]. rewrite lookup_insert.
  case_decide as E.
  - rewrite filter_cons_True, filter_nil by done. by rewrite list.last_snoc.
  - rewrite filter_cons_False, filter_nil, app_nil_r by done. apply IH.
Qed.

Lemma other_groups_app group l k :
  other_groups group (l ++ k) = other_groups group l ++ other_groups group k.
Proof. apply list.filter_app. Qed.

Lemma other_groups_idem group l : other_groups group (other_groups group l) = other_groups group l.
Proof. unfold other_groups. rewrite list.list_filter_filter. apply list.list_filter_iff. tauto. Qed.

(** The entry of [d] after an exchange of [group]. *)
Definition ingested (group : Z) (by_id : gmap Z TupleDesc) (old : list CachedRegion) (d : RegionDesc) :
    list CachedRegion :=
  other_groups group old ++
  match by_id !! rd_id d with Some t => [cached_region group d t] | None => [] end.

Lemma other_groups_ingested group by_id old d :
  other_groups group (ingested group by_id old d) = other_groups group old.
Proof.
  unfold ingested. rewrite other_groups_app, other_groups_idem.
  destruct (by_id !! rd_id d); unfold other_groups; [|by rewrite filter_nil, app_nil_r].
  rewrite filter_cons_False, filter_nil by (cbn; tauto). apply app_nil_r.
Qed.

Lemma ingest_region_lookup group by_id m d key :
  ingest_region group by_id m d !! key =
    if decide (key_of d = key) then Some (ingested group by_id (default [] (m !! key)) d)
    else m !! key.
Proof.
  unfold ingest_region, ingested, other_groups. rewrite lookup_insert. fold (key_of d).
  case_decide as E; [|done]. f_equal. rewrite E.
  destruct (by_id !! rd_id d); [done|]. by rewrite app_nil_r.
Qed.

Lemma ingest_loop_lookup group by_id m regions key :
  foldl (ingest_region group by_id) m regions !! key =
    match last_region key regions with
    | Some d => Some (ingested group by_id (default [] (m !! key)) d)
    | None => m !! key
    end.
Proof.
  unfold last_region. induction regions as [|d l IH] using rev_ind; [done|].
  rewrite foldl_app, list.filter_app. cbn [foldl]. rewrite ingest_region_lookup, IH.
  case_decide as E.
  - rewrite filter_cons_True, filter_nil, list.last_snoc by done. f_equal.
    destruct (list.last (filter _ l)) as [d'|]; [|done]. cbn [default].
    unfold ingested. fold (other_groups group). f_equal.
    apply other_groups_ingested.
  - by rewrite filter_cons_False, filter_nil, app_nil_r.
Qed.

Lemma last_region_live key regions :
  last_region key regions = None <-> key ∉ map key_of regions.
Proof.
  unfold last_region. rewrite list.last_None. split.
  - intros Hf Hin. apply list_elem_of_fmap in Hin as (d & -> & Hd).
    assert (d ∈ filter (fun d' => key_of d' = key_of d) regions) by (by apply list_elem_of_filter).
    rewrite Hf in *. set_solver.
  - intros Hn. destruct (filter _ regions) as [|d l] eqn:E; [done|]. exfalso. apply Hn.
    assert (Hd : d ∈ filter (fun d' => key_of d' = key) regions) by (rewrite E; left).
    apply list_elem_of_filter in Hd as [<- Hd]. by apply list_elem_of_fmap_2.
Qed.

Lemma ingest_regions_lookup group by_id m regions key :
  ingest_regions group by_id m regions !! key =
    ingested group by_id (default [] (m !! key)) <$> last_region key regions.
Proof.
  unfold ingest_regions. rewrite map_lookup_filter, ingest_loop_lookup.
  fold (map key_of regions). change (map (fun region => (rd_name region, rd_id region)) regions)
    with (map key_of regions).
  destruct (last_region key regions) as [d|] eqn:E; cbn [mbind option_bind fmap option_fmap option_map].
  - rewrite option_guard_True; [done|]. cbn [fst]. destruct (decide (key ∈ map key_of regions)); [done|].
    by apply last_region_live in n; congruence.
  - apply last_region_live in E. destruct (m !! key); [|done]. cbn. by rewrite option_guard_False.
Qed.

(** C18: what an exchange of a group leaves in the caches: the metadata is
    the catalog, in its order; under a name and id of the catalog, the
    entries of the other groups are kept and the group's own entries are
    replaced by one made of the last such region and its last tuple, or
    by none when it has no tuple; and keys gone from the catalog are gone
    from the cache. An exchange of another group, or of other messages,
    is refused and changes nothing. *)
Theorem ingest_spec group exchange p :
  match exchange with
  | (Metadata regions, Tuples served tuples) =>
      if served =? group then
        exists p', ingest group exchange p = (Ok tt, p') /\
          rp_metadata p' = map region_metadata regions /\
          rp_addr p' = rp_addr p /\ rp_sessions p' = rp_sessions p /\
          forall key, rp_regions p' !! key =
            match last_region key regions with
            | Some d => Some (other_groups group (default [] (rp_regions p !! key)) ++
                match last_tuple (rd_id d) tuples with
                | Some t => [cached_region group d t]
                | None => []
                end)
            | None => None
            end
      else exists e, ingest group exchange p = (Err e, p)
  | _ => exists e, ingest group exchange p = (Err e, p)
  end.
Proof.
  destruct exchange as [[] []]; try (by eexists). cbn [ingest].
  destruct (Z.eqb_spec group0 group) as [->|Hne]; cbn [negb]; [|by eexists].
  eexists. split; [reflexivity|]. split_and!; [done..|]. intros key.
  cbn [rp_regions]. rewrite ingest_regions_lookup. unfold ingested.
  destruct (last_region key regions) as [d|]; [|done]. cbn. by rewrite tuples_by_id_lookup.
Qed.

(** Filling the caches leaves the sessions alone. *)
Lemma ingest_sessions group exchange p :
  rp_sessions (snd (ingest group exchange p)) = rp_sessions p.
Proof. unfold ingest. destruct exchange as [[] []]; try done. by destruct (negb _). Qed.

Section sessions.
Context {P : Profile} {W : Type} {V : Verbs W}.
Implicit Types (p : RemoteMemoryProvider) (h : gmap Z GroupConnection) (w : world W).

(** ** Updates *)

(** The caches, and the sessions of the other groups. *)
Record kept (group : Z) p p' : Prop := {
  kp_addr : rp_addr p' = rp_addr p;
  kp_metadata : rp_metadata p' = rp_metadata p;
  kp_regions : rp_regions p' = rp_regions p;
  kp_sessions : forall g, g <> group -> rp_sessions p' !! g = rp_sessions p !! g;
}.

#[export] Instance kept_preorder group : PreOrder (kept group).
Proof.
  split.
  - by intros p.
  - intros p1 p2 p3 [A B C D] [A' B' C' D'].
    split; [congruence..|]. intros g Hg. by rewrite D', D.
Qed.

#[export] Instance kept_preimage group {S} :
  PreOrder (fun s s' : RemoteMemoryProvider * S => kept group (fst s) (fst s')).
Proof. apply preorder_preimage, kept_preorder. Qed.

(** [gentle m]: however [m] ends; [careful m]: unless it succeeds. *)
Abbreviation gentle group :=
  (preserves (fun s s' : RemoteMemoryProvider * _ => kept group (fst s) (fst s'))).
Definition careful (group : Z) {S A} (m : ST (RemoteMemoryProvider * S) A) : Prop :=
  forall s, (exists a, fst (m s) = Ok a) \/ kept group (fst s) (fst (snd (m s))).

Lemma careful_bind group {S A B} (m : ST (RemoteMemoryProvider * S) A)
    (k : A -> ST (RemoteMemoryProvider * S) B) :
  gentle group m -> (forall a, careful group (k a)) -> careful group (m ≫= k).
Proof.
  intros Hm Hk s. specialize (Hm s). st_cbn. destruct (m s) as [[a|e|y|] s1]; try by right.
  destruct (Hk a s1) as [H|H]; [by left|right]. by etrans.
Qed.

Lemma gentle_careful group {S A} (m : ST (RemoteMemoryProvider * S) A) :
  gentle group m -> careful group m.
Proof. intros H s. right. apply H. Qed.

Lemma gentle_same group {S A} (m : ST (RemoteMemoryProvider * S) A) :
  (forall s, fst (snd (m s)) = fst s) -> gentle group m.
Proof. intros H s. by rewrite H. Qed.

Lemma gentle_on_snd group {S A} (m : ST S A) : gentle group (on_snd (X := RemoteMemoryProvider) m).
Proof. apply gentle_same. intros [p s]. unfold on_snd. by destruct (m s). Qed.

Lemma gentle_set_session group g :
  gentle group (set_session (W := W) group g).
Proof.
  intros [p s]. split; try done. intros g' Hg. cbn. by rewrite lookup_insert_ne.
Qed.

Lemma gentle_session_entry group : gentle group (session_entry (W := W) group).
Proof.
  unfold session_entry. apply (preserves_bind _); [apply gentle_same; by intros []|]. intros p.
  destruct (rp_sessions p !! group); [by apply gentle_same|].
  apply (preserves_bind _); [apply gentle_on_snd|]. intros l.
  apply (preserves_bind _); [apply gentle_set_session|]. intros []. by apply gentle_same.
Qed.

Lemma careful_ingest group group' exchange {S} : careful group (on_fst (X := S) (ingest group' exchange)).
Proof.
  intros [p s]. unfold on_fst, ingest. destruct exchange as [[] []]; try by right.
  destruct (negb _); [by right|]. left. by eexists.
Qed.

(** C26: an update that does not succeed, at whatever step, leaves the
    region metadata and the cached regions exactly as they were, for this
    group and the others, and the sessions of the other groups. *)
Theorem update_atomic group p h w :
  match update group (p, (h, w)) with
  | (Ok _, _) => True
  | (_, (p', _)) => kept group p p'
  end.
Proof.
  assert (H : careful group (update (W := W) group)).
  { unfold update. apply careful_bind; [apply gentle_session_entry|]. intros session.
    apply careful_bind; [apply gentle_same; by intros []|]. intros p0.
    destruct (gs_channel session) as [channel|].
    - apply careful_bind; [apply gentle_on_snd|]. intros [[exchange|e] channel'].
      + apply careful_bind; [apply gentle_set_session|]. intros []. apply careful_ingest.
      + apply careful_bind; [apply gentle_set_session|]. intros [].
        by apply gentle_careful, gentle_same.
    - apply careful_bind; [apply gentle_on_snd|]. intros connected.
      apply careful_bind; [by apply gentle_same|]. intros channel.
      apply careful_bind; [apply gentle_on_snd|]. intros [exchange channel'].
      apply careful_bind; [apply gentle_set_session|]. intros []. apply careful_ingest. }
  specialize (H (p, (h, w))). destruct (update group (p, (h, w))) as [[a|e|y|] [p' s']]; try done;
    (destruct H as [[? ?]|H]; [done|exact H]).
Qed.

Definition with_session (group : Z) (g : GroupSession) p : RemoteMemoryProvider :=
  {| rp_addr := rp_addr p; rp_sessions := <[group := g]> (rp_sessions p);
     rp_metadata := rp_metadata p; rp_regions := rp_regions p |}.

Lemma update_open_run group p h w channel slot :
  rp_sessions p !! group = Some {| gs_channel := Some channel; gs_connection := slot |} ->
  update group (p, (h, w)) =
    match refresh channel with
    | (Ok exchange, channel') =>
        let p' := with_session group {| gs_channel := Some channel'; gs_connection := slot |} p in
        match ingest group exchange p' with
        | (r, p'') => (r, (p'', (h, w)))
        end
    | (Err e, _) =>
        (Err e, (with_session group {| gs_channel := None; gs_connection := slot |} p, (h, w)))
    | (Panic why, _) => (Panic why, (p, (h, w)))
    | (Diverge, _) => (Diverge, (p, (h, w)))
    end.
Proof.
  intros Hs. unfold update, session_entry, reader. st_cbn. rewrite Hs. cbn [gs_channel gs_connection].
  unfold with_local, on_snd, on_fst. st_cbn.
  destruct (refresh channel) as [[exchange|e|y|] channel']; done.
Qed.


(** ** Lookups *)
Definition matches (group : option Z) (c : CachedRegion) : bool :=
  match group with Some g => cr_group c =? g | None => true end.

(** The region handed out for a cache entry, reading through [slot]. *)
Definition region_of (slot : Z) (c : CachedRegion) : RemoteMemoryRegion :=
  {| rr_connection := slot; rr_remote_addr := cr_remote_addr c; rr_size := cr_size c;
     rr_rkey := cr_rkey c; rr_group := cr_group c; rr_elem_size := cr_elem_size c;
     rr_elem_align := cr_elem_align c; rr_elem_type := cr_elem_type c |}.

(** C31: a lookup hands out the first cached entry of the region, of the
    given group when one is asked for, and nothing when there is none.
    The region reads through the slot its group's session holds, shared
    with the session, so that it follows the session's reconnections; it
    gets an empty slot when the group has no session. *)
Theorem get_remote_mr_spec metadata group p h w :
  (forall g session, rp_sessions p !! g = Some session -> is_Some (h !! gs_connection session)) ->
  match get_remote_mr metadata group (p, (h, w)) with
  | (Ok found, (p', (h', w'))) => p' = p /\
      let entry := default [] (rp_regions p !! (rm_name metadata, rm_id metadata)) in
      match found with
      | None => h' = h /\ w' = w /\ Forall (fun c => matches group c = false) entry
      | Some r => exists before c later,
          entry = before ++ c :: later /\ Forall (fun c => matches group c = false) before /\
          matches group c = true /\ r = region_of (rr_connection r) c /\
          match rp_sessions p !! cr_group c with
          | Some session => rr_connection r = gs_connection session /\
              gc_connection <$> h' !! rr_connection r = gc_connection <$> h !! gs_connection session
          | None => h' !! rr_connection r = Some group_connection_empty
          end
      end
  | _ => False
  end.
Proof.
  intros Hslots. unfold get_remote_mr, reader. st_cbn.
  destruct (rp_regions p !! (rm_name metadata, rm_id metadata)) as [entry|]; [|by split_and!].
  cbn [default]. fold (matches group).
  assert (Hfind : forall l, match List.find (matches group) l with
    | Some c => exists before later, l = before ++ c :: later /\
        Forall (fun c => matches group c = false) before /\ matches group c = true
    | None => Forall (fun c => matches group c = false) l
    end).
  { induction l as [|c l IH]; [constructor|]. cbn [List.find].
    destruct (matches group c) eqn:E; [by exists [], l|].
    destruct (List.find (matches group) l) as [c'|]; [|by constructor].
    destruct IH as (before & later & -> & Hb & Hc). exists (c :: before), later.
    split_and!; [done|by constructor|done]. }
  specialize (Hfind entry). destruct (List.find (matches group) entry) as [c|]; [|by split_and!].
  destruct Hfind as (before & later & He & Hb & Hc).
  destruct (rp_sessions p !! cr_group c) as [session|] eqn:Es.
  - destruct (Hslots _ _ Es) as [g Hg]. unfold on_snd, slot_clone, slot_get, slot_set. st_cbn.
    rewrite Hg. split; [done|]. exists before, c, later. split_and!; try done.
    cbn [rr_connection]. rewrite Es, lookup_insert_eq, Hg. done.
  - unfold on_snd, slot_new. st_cbn. split; [done|]. exists before, c, later.
    split_and!; try done. cbn [rr_connection]. rewrite Es. apply lookup_insert_eq.
Qed.
End sessions.

(** ** A fresh session *)
Section fresh.
Context {P : Profile} {W : Type} {V : Verbs W} {VO : VerbsOk W}.
Implicit Types (p : RemoteMemoryProvider) (h : gmap Z GroupConnection) (w : world W).

(** Since [w0], nothing was acquired but the connection in the slot [l],
    if there is one. *)
Definition accounted (w0 : world W) (l : Z) h w : Prop :=
  wf_world w /\
  match h !! l with
  | Some g =>
      match gc_connection g with
      | Some c => established c w /\ forall r, ledger w r = ledger w0 r + tally r (owned c true)
      | None => forall r, ledger w r = ledger w0 r
      end
  | None => False
  end.

Lemma fresh_session_accounted p group l channel h w refs :
  wf_world w -> h !! l = Some {| gc_connection := None; gc_refs := refs |} ->
  match fresh_session p group l (channel, (h, w)) with
  | (Diverge, _) => True
  | (r, (_, (h', w'))) => accounted w l h' w' /\
      (forall x, r = Ok x -> exists g c, h' !! l = Some g /\ gc_connection g = Some c)
  end.
Proof.
  intros Hw Hl. unfold fresh_session.
  assert (H0 : accounted w l h w) by (split; [done|]; by rewrite Hl).
  st_cbn. unfold on_fst at 1.
  destruct (open_session group channel) as [[[]|e|y|] channel1]; try by split.
  unfold on_snd at 1. unfold on_snd at 1.
  pose proof (wp_connect (HostPort (ra_address (rp_addr p)) (ra_rdma_port (rp_addr p))) w Hw) as Hc.
  unfold wp in Hc. destruct (connect _ w) as [[c|e|y|] w1]; try done.
  2: { split; [|done]. destruct Hc as [Hw1 Hl1]. split; [done|]. by rewrite Hl. }
  destruct Hc as (Hw1 & Hest & _ & Hled).
  unfold on_snd at 1. unfold slot_connect, slot_get, slot_set. st_cbn. rewrite Hl.
  cbn [gc_connection gc_refs drop_connection]. unfold on_snd at 1. st_cbn.
  assert (H1 : accounted w l (<[l:={| gc_connection := Some c; gc_refs := refs |}]> h) w1).
  { split; [done|]. by rewrite lookup_insert_eq. }
  unfold on_fst. destruct (receive_exchange channel1) as [[x|e|y|] channel2]; try done; split; try done.
  intros x' _. eexists _, c. split; [apply lookup_insert_eq|done].
Qed.

Lemma accounted_moves w w1 w2 l h :
  (forall r, ledger w1 r = ledger w r) -> moves w1 w2 [] [] -> wf_world w1 ->
  forall h2 w3, (accounted w2 l h2 w3 -> accounted w l h2 w3) /\
    (accounted w1 l h2 w3 -> accounted w l h2 w3) /\
    (forall refs, h !! l = Some {| gc_connection := None; gc_refs := refs |} -> accounted w l h w2).
Proof.
  intros Hl Hm Hw h2 w3.
  assert (Hl2 : forall r, ledger w2 r = ledger w r).
  { intros r. rewrite (mv_ledger _ _ _ _ Hm), Hl. cbn [tally]. lia. }
  assert (Hgen : forall wa, (forall r, ledger wa r = ledger w r) -> accounted wa l h2 w3 ->
    accounted w l h2 w3).
  { intros wa Ha [A B]. split; [done|]. destruct (h2 !! l) as [g|]; [|done].
    destruct (gc_connection g); [destruct B as [B1 B2]; split; [done|]|]; intros r.
    - by rewrite B2, Ha.
    - by rewrite B, Ha. }
  split_and!; [by apply Hgen|by apply Hgen|]. intros refs Href.
  split; [by apply Hm|]. rewrite Href. cbn. done.
Qed.

(** The entry of a group without an open channel. *)
Lemma session_entry_run p group h w :
  wf_world w -> h !! next_loc w = None ->
  (forall session, rp_sessions p !! group = Some session -> gs_channel session = None /\
     exists refs, h !! gs_connection session = Some {| gc_connection := None; gc_refs := refs |}) ->
  exists p1 h1 w1 l refs,
    session_entry group (p, (h, w)) =
      (Ok {| gs_channel := None; gs_connection := l |}, (p1, (h1, w1))) /\
    rp_sessions p1 !! group = Some {| gs_channel := None; gs_connection := l |} /\
    (forall session, rp_sessions p !! group = Some session -> l = gs_connection session) /\
    h1 !! l = Some {| gc_connection := None; gc_refs := refs |} /\
    wf_world w1 /\ (forall r, ledger w1 r = ledger w r).
Proof.
  intros Hw Hfresh Hsess. unfold session_entry, reader. st_cbn.
  destruct (rp_sessions p !! group) as [[ch l]|] eqn:Es.
  - destruct (Hsess _ eq_refl) as [Hch (refs & Hl)]. cbn in Hch, Hl. subst ch.
    exists p, h, w, l, refs. split_and!; try done. by intros session [= <-].
  - unfold on_snd, slot_new, set_session. st_cbn.
    eexists _, _, _, (next_loc w), 1. split; [reflexivity|]. cbn [rp_sessions]. split_and!.
    + apply lookup_insert_eq.
    + done.
    + apply lookup_insert_eq.
    + intros pd i Hi. cbn in *. specialize (Hw _ _ Hi). lia.
    + intros r. destruct r; done.
Qed.

(** A fresh session accounts for its resources: whatever the outcome
    of the update, and at whatever step, all it has acquired is the
    connection that is then in the group's slot, and nothing when there
    is none; success leaves one there. The group keeps the slot it had,
    with the regions that share it. *)
Theorem update_accounts group p h w :
  wf_world w -> h !! next_loc w = None ->
  (forall session, rp_sessions p !! group = Some session -> gs_channel session = None /\
     exists refs, h !! gs_connection session = Some {| gc_connection := None; gc_refs := refs |}) ->
  match update group (p, (h, w)) with
  | (Diverge, _) => True
  | (r, (p', (h', w'))) => exists session', rp_sessions p' !! group = Some session' /\
      (forall session, rp_sessions p !! group = Some session ->
         gs_connection session' = gs_connection session) /\
      accounted w (gs_connection session') h' w' /\
      (r = Ok tt -> exists g c, h' !! gs_connection session' = Some g /\ gc_connection g = Some c)
  end.
Proof.
  intros Hw Hfresh Hsess.
  destruct (session_entry_run p group h w Hw Hfresh Hsess) as
    (p1 & h1 & w1 & l & refs & Hrun & Hp1 & Hsame & Hl & Hw1 & Hled).
  unfold update. rewrite (ST_bind_step _ _ _ _ _ Hrun).
  rewrite (ST_bind_step reader _ (p1, (h1, w1)) p1 (p1, (h1, w1)) eq_refl). cbn [gs_channel gs_connection].
  set (conn := TcpConnect _ _).
  pose proof (neutral_moves conn w1 ltac:(done)) as Hm. set (w2 := after conn w1) in *.
  set (res := fst (exec conn (env w1))).
  assert (Hcall : on_snd (on_snd (call conn)) (p1, (h1, w1)) = (Ok res, (p1, (h1, w2)))).
  { unfold on_snd. by rewrite call_after. }
  rewrite (ST_bind_step _ _ _ _ _ Hcall). clearbody w2 res. clear Hcall. st_cbn.
  pose proof (accounted_moves w w1 w2 l h1 Hled Hm Hw1) as Hacc.
  destruct (channel_connect (match res with inl s => Ok s | inr e => Err e end)) as [channel|e|y|];
    try done.
  2,3: by exists {| gs_channel := None; gs_connection := l |}; split_and!;
    [done|intros; cbn; by apply Hsame|apply (proj2 (proj2 (Hacc h1 w2)) refs Hl)|].
  assert (Hfs := fresh_session_accounted p1 group l channel h1 w2 refs (mv_wf _ _ _ _ Hm Hw1) Hl).
  unfold on_snd at 1, with_local.
  destruct (fresh_session p1 group l (channel, (h1, w2))) as [[x|e|y|] [channel2 [h3 w3]]]; try done.
  all: destruct Hfs as [Hfs Hsome]; apply (proj1 (Hacc h3 w3)) in Hfs.
  2,3: by exists {| gs_channel := None; gs_connection := l |}; split_and!;
    [done|intros; cbn; by apply Hsame|done|].
  unfold set_session, on_fst. st_cbn.
  pose proof (ingest_sessions group x
    {| rp_addr := rp_addr p1;
       rp_sessions := <[group:={| gs_channel := Some channel2; gs_connection := l |}]> (rp_sessions p1);
       rp_metadata := rp_metadata p1; rp_regions := rp_regions p1 |}) as Hi.
  destruct (ingest group x _) as [r p4]. cbn [snd rp_sessions] in Hi.
  destruct r; try done; exists {| gs_channel := Some channel2; gs_connection := l |}; rewrite Hi;
    (split_and!; [apply lookup_insert_eq|intros; cbn; by apply Hsame|done|]); intros _;
    by apply (Hsome x).
Qed.
End fresh.

(** ** Witnesses *)
Definition sample_remote : RemoteMemoryProviderAddr := remote_addr_new (rstr "host") 18515 18516.
Definition frame_of (msg : Message) : list byte :=
  match encode (P := true) msg with Ok frame => frame | _ => [] end.
Definition sample_stream (msgs : list Message) : TcpStream :=
  {| rx := mjoin (map frame_of msgs); rx_end := PeerClosed; tx := []; tx_room := None;
     tx_end := PeerClosed; read_timeout := None; write_timeout := None; setsockopt := None |}.
Definition sample_desc : RegionDesc :=
  {| rd_id := 5; rd_name := rstr "table"; rd_size := 32; rd_elem_size := 8; rd_elem_align := 8;
     rd_elem_type := rstr "u64" |}.
Definition sample_tuple : TupleDesc :=
  {| td_region_id := 5; td_remote_addr := 4096; td_size := 32; td_rkey := 77 |}.
Definition sample_exchange : list Message := [Metadata [sample_desc]; Tuples 3 [sample_tuple]].

(** A reader whose group 3 has an open session over these messages. *)
Definition open_reader (msgs : list Message) : RemoteMemoryProvider :=
  {| rp_addr := sample_remote;
     rp_sessions := {[ 3 := {| gs_channel := Some {| stream := sample_stream msgs |};
                              gs_connection := 9 |} ]};
     rp_metadata := []; rp_regions := ∅ |}.
Definition open_slots : gmap Z GroupConnection :=
  {[ 9 := {| gc_connection := Some sample_conn; gc_refs := 1 |} ]}.


Definition cached_reader : RemoteMemoryProvider :=
  {| rp_addr := sample_remote; rp_sessions := rp_sessions (open_reader []);
     rp_metadata := [region_metadata sample_desc];
     rp_regions := {[ (rstr "table", 5) := [cached_region 3 sample_desc sample_tuple] ]} |}.

Lemma get_remote_mr_spec_witness :
  exists r s', get_remote_mr (region_metadata sample_desc) None
      (cached_reader, (open_slots, conn_world)) = (Ok (Some r), s') /\
    rr_connection r = 9 /\ rr_rkey r = 77.
Proof.
  pose proof (get_remote_mr_spec (region_metadata sample_desc) None cached_reader open_slots
    conn_world) as H.
  assert (E : exists r p' h' w', get_remote_mr (region_metadata sample_desc) None
    (cached_reader, (open_slots, conn_world)) = (Ok (Some r), (p', (h', w'))))
    by (do 4 eexists; vm_compute; reflexivity).
  destruct E as (r & p' & h' & w' & E). rewrite E in H.
  destruct H as (_ & before & c & later & He & Hb & _ & Hr & Hslot).
  { intros g session Hg. cbn in Hg. apply lookup_singleton_Some in Hg as [<- <-]. by eexists. }
  exists r, (p', (h', w')). split; [done|]. destruct before as [|c0 before].
  - vm_compute in He. injection He as <- _. destruct Hslot as [Hslot _].
    split; [exact Hslot|]. by rewrite Hr.
  - inversion Hb. done.
Defined.

(** A reader without sessions connects; it ends with the connection. *)
Definition dial_world (msgs : list Message) : world sim :=
  world0 (s_with_streams
    (sim0 (map (fun t => {| se_type := t; se_status := 0 |}) [0; 2; 9])) [sample_stream msgs]).

Lemma update_accounts_witness :
  exists p' h' w' session', update (P := true) 3 (reader_new sample_remote,
      (∅, dial_world (Welcome PROTOCOL_VERSION :: sample_exchange))) = (Ok tt, (p', (h', w'))) /\
    rp_sessions p' !! 3 = Some session' /\
    exists g c, h' !! gs_connection session' = Some g /\ gc_connection g = Some c /\
      established c w'.
Proof.
  pose proof (update_accounts (P := true) 3 (reader_new sample_remote) ∅
    (dial_world (Welcome PROTOCOL_VERSION :: sample_exchange))) as H.
  assert (E : exists p' h' w', update (P := true) 3 (reader_new sample_remote,
      (∅, dial_world (Welcome PROTOCOL_VERSION :: sample_exchange))) = (Ok tt, (p', (h', w'))))
    by (do 3 eexists; vm_compute; reflexivity).
  destruct E as (p' & h' & w' & E). rewrite E in H.
  destruct H as (session' & Hs & _ & [_ Hacc] & Hok).
  - intros pd i Hi. cbn in Hi. by rewrite lookup_empty in Hi.
  - done.
  - intros session Hs. cbn in Hs. by rewrite lookup_empty in Hs.
  - destruct (Hok eq_refl) as (g & c & Hg & Hc). rewrite Hg, Hc in Hacc.
    exists p', h', w', session'. split; [done|]. split; [done|]. exists g, c.
    split; [done|]. split; [done|]. apply Hacc.
Defined.
