(* ===== verification/Slots.v ===== *)
(** * The reading side: the connection slots

    The slots by reference count: what a clone, a drop and a new
    connection do to them, to the connections in them and to the ledger. *)
From S2P Require Import Prelude Pod Meta Verbs VerbsSpec VerbsSim VerbsFacts.
From S2P Require Import VerbsFrame VerbsApart VerbsOps Providers Readers ReadersFacts.

(** What a slot owns, and all of them. *)
Definition slot_owned (g : GroupConnection) : list resource :=
  match gc_connection g with Some c => owned c true | None => [] end.
Definition slots_hold (h : gmap Z GroupConnection) (r : resource) : Z :=
  map_sum (fun g => tally r (slot_owned g)) h.

Lemma slots_hold_nonneg h r : 0 <= slots_hold h r.
Proof. apply map_sum_nonneg. intros. apply tally_nonneg. Qed.

Section slots.
Context {P : Profile} {W : Type} {V : Verbs W} {VO : VerbsOk W}.
Implicit Types (h : gmap Z GroupConnection) (w : world W) (n : Z -> Z).

(** A connection that works, and none of the slots but [l] has it. *)
Definition own_connection h w (l : option Z) (c : Connection) : Prop :=
  established c w /\
  forall l' g' c', Some l' <> l -> h !! l' = Some g' -> gc_connection g' = Some c' -> c_id c' <> c_id c.

(** [n] counts the owners of each slot: every slot is owned as often as
    its count says, and is gone without owners; the connections in them
    work, and each has an identifier of its own. *)
Record slots_base n h w : Prop := {
  sb_wf : wf_world w;
  sb_next l : is_Some (h !! l) -> l < next_loc w;
  sb_refs l : match h !! l with Some g => gc_refs g = n l /\ 1 <= n l | None => n l = 0 end;
  sb_live l g c : h !! l = Some g -> gc_connection g = Some c -> own_connection h w (Some l) c;
}.

(** Since [w0], all that was acquired is what the slots own, and the
    connection in hand if there is one. *)
Definition slots_ok (w0 : world W) n h w : Prop :=
  wf_world w0 /\ slots_base n h w /\ forall r, ledger w r = ledger w0 r + slots_hold h r.
Definition slots_and (c : Connection) (w0 : world W) n h w : Prop :=
  wf_world w0 /\ slots_base n h w /\ own_connection h w None c /\
  forall r, ledger w r = ledger w0 r + slots_hold h r + tally r (owned c true).
Definition slots_with (c : option Connection) : world W -> (Z -> Z) -> _ -> world W -> Prop :=
  match c with Some c => slots_and c | None => slots_ok end.

Lemma slots_ok_ext w0 n n' h w : (forall l, n l = n' l) -> slots_ok w0 n h w -> slots_ok w0 n' h w.
Proof.
  intros Hn (A & [B C D E] & F). split_and!; [done| |done]. split; try done.
  intros l. rewrite <- Hn. apply D.
Qed.

Lemma slots_ok_at w0 n h w l :
  slots_ok w0 n h w -> n l <> 0 -> exists g, h !! l = Some g /\ gc_refs g = n l /\ 1 <= n l.
Proof.
  intros (_ & H & _) Hn. pose proof (sb_refs _ _ _ H l) as Hr.
  destruct (h !! l) as [g|]; [by exists g|done].
Qed.

(** A step of the world that leaves other queue pairs, and frees no
    location. *)
Lemma slots_base_world n h w w' :
  wf_world w' -> next_loc w <= next_loc w' ->
  (forall l g c, h !! l = Some g -> gc_connection g = Some c ->
     has_qp (env w) (c_id c) = true -> has_qp (env w') (c_id c) = true) ->
  slots_base n h w -> slots_base n h w'.
Proof.
  intros Hw Hn Hq [A B C D]. split; try done.
  - intros l Hl. specialize (B l Hl). lia.
  - intros l g c Hl Hc. destruct (D l g c Hl Hc) as [(E1 & E2 & E3 & E4) F]. split; [|done].
    split_and!; try done. by apply (Hq l g).
Qed.

Lemma slots_ok_moves w0 n h w w' :
  moves w w' [] [] -> next_loc w <= next_loc w' -> slots_ok w0 n h w -> slots_ok w0 n h w'.
Proof.
  intros Hm Hn (A & B & C). split_and!; [done| |].
  - apply (slots_base_world n h w); try done; [apply Hm, B|].
    intros l g c _ _ Hq. by rewrite (mv_qp _ _ _ _ Hm).
  - intros r. rewrite (mv_ledger _ _ _ _ Hm), C. cbn [tally]. lia.
Qed.

(** One slot changes, or is new. *)
Lemma slots_base_insert n n' h w l g' :
  slots_base n h w -> l < next_loc w -> gc_refs g' = n' l -> 1 <= n' l ->
  (forall l', l' <> l -> n' l' = n l') ->
  (forall c, gc_connection g' = Some c -> own_connection h w (Some l) c) ->
  slots_base n' (<[l := g']> h) w.
Proof.
  intros [A B C D] Hl Hr Hpos Hn Hown. split; try done.
  - intros l1 [g1 H1]. destruct (decide (l1 = l)) as [->|]; [done|].
    rewrite lookup_insert_ne in H1 by done. apply B. by eexists.
  - intros l1. rewrite lookup_insert. case_decide as Hd; [by subst|]. rewrite Hn by done. apply C.
  - intros l1 g1 c1. rewrite lookup_insert. case_decide as Hd.
    + intros [= <-] Hc. subst. destruct (Hown c1 Hc) as [E F]. split; [done|].
      intros l2 g2 c2 Hne. rewrite lookup_insert_ne by congruence. apply F. congruence.
    + intros H1 Hc1. destruct (D l1 g1 c1 H1 Hc1) as [E F]. split; [done|].
      intros l2 g2 c2 Hne. rewrite lookup_insert. case_decide as Hd2; [|by apply F].
      intros [= <-] Hc2. subst. apply not_eq_sym, (Hown c2 Hc2) with (l' := l1) (g' := g1); [congruence|done..].
Qed.

Lemma slots_base_delete n n' h w l :
  slots_base n h w -> n' l = 0 -> (forall l', l' <> l -> n' l' = n l') ->
  slots_base n' (delete l h) w.
Proof.
  intros [A B C D] Hn Hn'.
  assert (Hin : forall l1 g1, delete l h !! l1 = Some g1 -> h !! l1 = Some g1).
  { intros l1 g1 H1. by apply lookup_delete_Some in H1 as [? ?]. }
  split; try done.
  - intros l1 [g1 H1%Hin]. apply B. by eexists.
  - intros l1. destruct (decide (l1 = l)) as [->|Hd]; [by rewrite lookup_delete_eq|].
    rewrite lookup_delete_ne, Hn' by done. apply C.
  - intros l1 g1 c1 H1%Hin Hc1. destruct (D l1 g1 c1 H1 Hc1) as [E F]. split; [done|].
    intros l2 g2 c2 Hne H2%Hin. by apply (F l2).
Qed.

Lemma slots_hold_update h l g g' r :
  h !! l = Some g -> slots_hold (<[l := g']> h) r =
    slots_hold h r - tally r (slot_owned g) + tally r (slot_owned g').
Proof. exact (map_sum_update (fun g => tally r (slot_owned g)) l g g' h). Qed.

Lemma slots_hold_delete h l g r :
  h !! l = Some g -> slots_hold (delete l h) r = slots_hold h r - tally r (slot_owned g).
Proof. exact (map_sum_delete (fun g => tally r (slot_owned g)) l g h). Qed.

(** ** Clones and new slots *)

(** Another owner, or one fewer, of a slot that stays. *)
Lemma slots_ok_count w0 n n' h w l g k :
  slots_ok w0 n h w -> h !! l = Some g -> 1 <= k -> n' l = k ->
  (forall l', l' <> l -> n' l' = n l') ->
  slots_ok w0 n' (<[l := {| gc_connection := gc_connection g; gc_refs := k |}]> h) w.
Proof.
  intros (A & B & C) Hl Hk Hn Hn'. split_and!; [done| |].
  - apply (slots_base_insert n); cbn; try done; [|lia|].
    + apply (sb_next _ _ _ B). by eexists.
    + intros c. by apply (sb_live _ _ _ B).
  - intros r. rewrite C, (slots_hold_update h l g) by done. unfold slot_owned. cbn. lia.
Qed.

Lemma slot_clone_ok w0 n n' h w l :
  slots_ok w0 n h w -> n l <> 0 -> n' l = n l + 1 -> (forall l', l' <> l -> n' l' = n l') ->
  exists h', slot_clone l (h, w) = (Ok l, (h', w)) /\ slots_ok w0 n' h' w.
Proof.
  intros Hok Hl Hn Hn'. destruct (slots_ok_at _ _ _ _ l Hok Hl) as (g & Hg & Hr & Hpos).
  unfold slot_clone, slot_get, slot_set. st_cbn. rewrite Hg. eexists. split; [done|].
  apply (slots_ok_count w0 n); try done; lia.
Qed.

Lemma slots_fresh w0 n h w : slots_ok w0 n h w -> h !! next_loc w = None /\ n (next_loc w) = 0.
Proof.
  intros (_ & B & _). pose proof (sb_refs _ _ _ B (next_loc w)) as Hr.
  destruct (h !! next_loc w) eqn:E; [|done].
  pose proof (sb_next _ _ _ B (next_loc w) ltac:(by eexists)). lia.
Qed.

Lemma slot_new_ok w0 n n' h w :
  slots_ok w0 n h w -> n' (next_loc w) = 1 -> (forall l, l <> next_loc w -> n' l = n l) ->
  exists h' w', slot_new group_connection_empty (h, w) = (Ok (next_loc w), (h', w')) /\
    slots_ok w0 n' h' w'.
Proof.
  intros Hok Hn Hn'. destruct (slots_fresh _ _ _ _ Hok) as [Hfresh _]. destruct Hok as (A & B & C).
  unfold slot_new. do 2 eexists. split; [done|]. split_and!; [done| |].
  - apply (slots_base_insert n); cbn; try done; [|lia|lia].
    apply (slots_base_world n h w); cbn; try done; [|lia].
    intros pd i Hi. cbn in *. pose proof (sb_wf _ _ _ B _ _ Hi). lia.
  - intros r. unfold slots_hold in *. rewrite map_sum_insert by done. cbn [slot_owned tally].
    specialize (C r). destruct r; cbn in *; lia.
Qed.

(** ** Connections in and out of the slots *)

(** Dropping the connection in hand. *)
Lemma slots_with_drop c w0 n h w :
  slots_with c w0 n h w -> exists w', drop_connection c w = (Ok tt, w') /\ slots_ok w0 n h w'.
Proof.
  destruct c as [c|]; [|by exists w]. intros (A & B & [E F] & L). cbn [drop_connection].
  destruct (conn_drop_ledger c w (sb_wf _ _ _ B)) as (w' & Hd & Hw' & Hl & _).
  { intros pd Hpd. rewrite L. pose proof (ledger_ref_nonneg w0 pd A).
    pose proof (slots_hold_nonneg h (RRef pd)). pose proof (owned_ref c true pd Hpd). lia. }
  exists w'. split; [done|].
  pose proof (framed_conn_drop c w) as Hf. rewrite Hd in Hf. cbn [snd] in Hf. split_and!; [done| |].
  - apply (slots_base_world n h w); try done; [apply Hf|]. intros l g c' Hg Hc Hq.
    pose proof (keeps_conn_drop (c_id c') c ltac:(by apply not_eq_sym, (F l g)) w Hq) as Hk.
    by rewrite Hd in Hk.
  - intros r. rewrite Hl, L. destruct E as (_ & _ & _ & ->). lia.
Qed.

(** The connection in hand goes into a slot; what was there comes out. *)
Lemma slots_and_swap w0 n h w l g c g' :
  slots_and c w0 n h w -> h !! l = Some g -> gc_connection g' = Some c -> gc_refs g' = gc_refs g ->
  slots_with (gc_connection g) w0 n (<[l := g']> h) w.
Proof.
  intros (A & B & [E F] & L) Hg Hc Hr.
  assert (B' : slots_base n (<[l := g']> h) w).
  { pose proof (sb_refs _ _ _ B l) as Hn. rewrite Hg in Hn.
    apply (slots_base_insert n); try done; [|lia|lia|].
    - apply (sb_next _ _ _ B). by eexists.
    - intros c1. rewrite Hc. intros [= <-]. split; [done|]. intros l' g1 c1 _. by apply F. }
  assert (L' : forall r, ledger w r = ledger w0 r + slots_hold (<[l := g']> h) r +
    tally r (slot_owned g)).
  { intros r. rewrite L, (slots_hold_update h l g) by done. unfold slot_owned at 2. rewrite Hc. lia. }
  unfold slot_owned in L'. destruct (gc_connection g) as [old|] eqn:Eo.
  - split_and!; try done. destruct (sb_live _ _ _ B l g old Hg Eo) as [Eold Fold]. split; [done|].
    intros l1 g1 c1 _. rewrite lookup_insert. case_decide as Hd.
    + intros [= <-]. rewrite Hc. intros [= <-]. by apply not_eq_sym, (F l g).
    + apply Fold. congruence.
  - split_and!; try done. intros r. rewrite L'. cbn [tally]. lia.
Qed.

(** A slot without owners goes; its connection comes out. *)
Lemma slots_take w0 n n' h w l g :
  slots_ok w0 n h w -> h !! l = Some g -> n' l = 0 -> (forall l', l' <> l -> n' l' = n l') ->
  slots_with (gc_connection g) w0 n' (delete l h) w.
Proof.
  intros (A & B & L) Hg Hn Hn'. pose proof (slots_base_delete n n' h w l B Hn Hn') as B'.
  assert (L' : forall r, ledger w r = ledger w0 r + slots_hold (delete l h) r +
    tally r (slot_owned g)).
  { intros r. rewrite L, (slots_hold_delete h l g) by done. lia. }
  unfold slot_owned in L'. destruct (gc_connection g) as [c|] eqn:Eo.
  - split_and!; try done. destruct (sb_live _ _ _ B l g c Hg Eo) as [E F]. split; [done|].
    intros l1 g1 c1 _ [Hd H1]%lookup_delete_Some Hc1. apply (F l1 g1); [congruence|done..].
  - split_and!; try done. intros r. rewrite L'. cbn [tally]. lia.
Qed.

(** The drop of an owner. *)
Lemma slot_drop_ok w0 n n' h w l :
  slots_ok w0 n h w -> n l <> 0 -> n' l = n l - 1 -> (forall l', l' <> l -> n' l' = n l') ->
  exists h' w', slot_drop l (h, w) = (Ok tt, (h', w')) /\ slots_ok w0 n' h' w'.
Proof.
  intros Hok Hl Hn Hn'. destruct (slots_ok_at _ _ _ _ l Hok Hl) as (g & Hg & Hr & Hpos).
  unfold slot_drop, slot_get, slot_set, slot_free. st_cbn. rewrite Hg.
  destruct (Z.eqb_spec (gc_refs g) 1) as [E|E].
  - pose proof (slots_take w0 n n' h w l g Hok Hg ltac:(lia) Hn') as Ht.
    destruct (slots_with_drop _ _ _ _ _ Ht) as (w' & Hd & Hok'). unfold on_snd. rewrite Hd. eauto.
  - do 2 eexists. split; [done|]. apply (slots_ok_count w0 n); try done; lia.
Qed.

(** A new connection, for a slot; it may replace an older one. *)
Lemma connect_slot_ok w0 n h w addr l :
  slots_ok w0 n h w -> n l <> 0 ->
  match (c ← on_snd (connect addr); slot_connect l c) (h, w) with
  | (Diverge, _) => True
  | (Panic _, _) => False
  | (x, (h', w')) => slots_ok w0 n h' w' /\
      (x = Ok tt -> exists g c, h' !! l = Some g /\ gc_connection g = Some c)
  end.
Proof.
  intros Hok Hl. destruct (slots_ok_at _ _ _ _ l Hok Hl) as (g & Hg & Hr & _).
  destruct Hok as (A & B & L).
  assert (Hb : forall l g c, h !! l = Some g -> gc_connection g = Some c ->
    match connect addr w with
    | (Ok c', w') => beside (c_id c) (c', w')
    | (_, w') => standing (c_id c) w'
    end).
  { intros l' g' c Hg' Hc. destruct (sb_live _ _ _ B l' g' c Hg' Hc) as [(E1 & _ & _ & E4) _].
    by apply connect_beside. }
  pose proof (wp_connect addr w (sb_wf _ _ _ B)) as Hc. apply wp_result in Hc.
  pose proof (framed_connect addr w) as Hf. unfold on_snd. st_cbn.
  destruct (connect addr w) as [[c|e|y|] w1]; cbn [snd] in *; try done.
  - destruct Hc as (Hw1 & Hest & _ & Hled). unfold slot_connect, slot_get, slot_set. st_cbn. rewrite Hg.
    assert (Hand : slots_and c w0 n h w1).
    { split_and!; [done| | |].
      - apply (slots_base_world n h w); try done; [apply Hf|]. intros l' g' c' Hg' Hc' _.
        by apply (Hb l' g').
      - split; [done|]. intros l' g' c' _ Hg' Hc'. destruct (Hb l' g' c' Hg' Hc') as [Hne _]. cbn in Hne.
        by apply not_eq_sym.
      - intros r. rewrite Hled, L. lia. }
    pose proof (slots_and_swap w0 n h w1 l g c {| gc_connection := Some c; gc_refs := gc_refs g |}
      Hand Hg eq_refl eq_refl) as Hs.
    destruct (slots_with_drop _ _ _ _ _ Hs) as (w2 & Hd & Hok'). unfold on_snd. rewrite Hd.
    split; [done|]. intros _. eexists _, c. split; [apply lookup_insert_eq|done].
  - destruct Hc as [Hw1 Hled]. split; [|done]. split_and!; [done| |].
    + apply (slots_base_world n h w); try done; [apply Hf|]. intros l' g' c' Hg' Hc' _.
      by apply (Hb l' g').
    + intros r. by rewrite Hled, L.
Qed.
End slots.
