(* ===== verification/ReaderLife.v ===== *)
(** * The reading side: a reader from its first session to its drop

    The operations of a provider of remote regions and of its regions, in
    any order, the provider dropped before or after its regions: the
    connection of a group lives as long as a session or a region of the
    group does, and then everything it held is given back. *)
From stdpp Require Import relations.
From S2P Require Import Prelude Pod Meta Channels Verbs VerbsSpec VerbsSim VerbsFacts.
From S2P Require Import VerbsFrame VerbsApart VerbsOps Providers Readers ReadersFacts.
From S2P Require Import ReaderSessions Slots.

(** ** Who owns a slot *)
(** The sessions and the regions that hold the slot [l]. *)
Definition session_owners (sessions : gmap Z GroupSession) (l : Z) : Z :=
  map_sum (fun g => at_loc l (gs_connection g)) sessions.
Definition region_owners (rs : list RemoteMemoryRegion) (l : Z) : Z :=
  sum_over (fun r => at_loc l (rr_connection r)) rs.

Lemma session_owners_nonneg sessions l : 0 <= session_owners sessions l.
Proof. apply map_sum_nonneg. intros. apply at_loc_nonneg. Qed.
Lemma region_owners_nonneg rs l : 0 <= region_owners rs l.
Proof. apply sum_over_nonneg. intros. apply at_loc_nonneg. Qed.

Lemma session_owner sessions group g :
  sessions !! group = Some g -> 1 <= session_owners sessions (gs_connection g).
Proof.
  intros Hg. pose proof (map_sum_ge (fun g' => at_loc (gs_connection g) (gs_connection g'))
    group g sessions ltac:(intros; apply at_loc_nonneg) Hg) as H.
  cbn in H. by rewrite at_loc_eq in H.
Qed.

Lemma region_owner rs r : r ∈ rs -> 1 <= region_owners rs (rr_connection r).
Proof.
  intros (rs1 & rs2 & ->)%list_elem_of_split. unfold region_owners. rewrite sum_over_app. cbn.
  pose proof (region_owners_nonneg rs1 (rr_connection r)).
  pose proof (region_owners_nonneg rs2 (rr_connection r)). unfold region_owners in *.
  rewrite at_loc_eq. lia.
Qed.

Lemma session_owners_same sessions group g channel l :
  sessions !! group = Some g ->
  session_owners (<[group := {| gs_channel := channel; gs_connection := gs_connection g |}]> sessions) l =
    session_owners sessions l.
Proof.
  intros Hg. unfold session_owners. rewrite (map_sum_update _ group g) by done. cbn [gs_connection]. lia.
Qed.

Section life.
Context {P : Profile} {W : Type} {V : Verbs W} {VO : VerbsOk W}.
Implicit Types (p : RemoteMemoryProvider) (h : gmap Z GroupConnection) (w : world W).

(** ** A fresh session *)
Lemma fresh_session_ok w0 n p group l channel h w :
  slots_ok w0 n h w -> n l <> 0 ->
  match fresh_session p group l (channel, (h, w)) with
  | (Diverge, _) => True
  | (x, (_, (h', w'))) => slots_ok w0 n h' w' /\
      ((exists y, x = Ok y) -> exists g c, h' !! l = Some g /\ gc_connection g = Some c)
  end.
Proof.
  intros Hok Hl. unfold fresh_session. st_cbn. unfold on_fst at 1.
  destruct (open_session group channel) as [[[]|e|y|] channel1];
    try (split; [done|by intros []]); try done.
  pose proof (connect_slot_ok w0 n h w (HostPort (ra_address (rp_addr p)) (ra_rdma_port (rp_addr p))) l
    Hok Hl) as Hc.
  unfold on_snd in Hc at 1. st_cbn_in Hc. unfold on_snd at 1. unfold on_snd at 1.
  destruct (connect _ w) as [[c|e|y|] w1]; try done.
  2: { destruct Hc. split; [done|by intros []]. }
  unfold on_snd at 1. destruct (slot_connect l c (h, w1)) as [[[]|e|y|] [h2 w2]]; try done.
  2: { destruct Hc. split; [done|by intros []]. }
  destruct Hc as [Hok2 Hsome]. unfold on_fst.
  destruct (receive_exchange channel1) as [[x|e|y|] channel2]; try done; split; try done;
    intros _; by apply Hsome.
Qed.

(** ** Updates *)
Definition owners p (rs : list RemoteMemoryRegion) (l : Z) : Z :=
  session_owners (rp_sessions p) l + region_owners rs l.

Lemma owners_session p rs group session :
  rp_sessions p !! group = Some session -> owners p rs (gs_connection session) <> 0.
Proof.
  intros Hs. unfold owners. pose proof (session_owner _ _ _ Hs).
  pose proof (region_owners_nonneg rs (gs_connection session)). lia.
Qed.

Lemma session_entry_ok w0 p rs group h w :
  slots_ok w0 (owners p rs) h w ->
  exists session p1 h1 w1, session_entry group (p, (h, w)) = (Ok session, (p1, (h1, w1))) /\
    slots_ok w0 (owners p1 rs) h1 w1 /\ rp_sessions p1 !! group = Some session.
Proof.
  intros Hok. unfold session_entry, reader. st_cbn.
  destruct (rp_sessions p !! group) as [session|] eqn:Es; [by do 4 eexists|].
  destruct (slots_fresh _ _ _ _ Hok) as [_ Hz].
  set (l := next_loc w) in *. set (g := {| gs_channel := None; gs_connection := l |}).
  set (p1 := with_session group g p).
  assert (Hn : forall l', owners p1 rs l' = owners p rs l' + at_loc l' l).
  { intros l'. unfold owners, session_owners, p1, with_session. cbn [rp_sessions].
    rewrite map_sum_insert by done. cbn. lia. }
  destruct (slot_new_ok w0 (owners p rs) (owners p1 rs) h w Hok) as (h1 & w1 & Hnew & Hok1).
  { fold l. rewrite Hn, at_loc_eq. lia. }
  { intros l' Hl'. rewrite Hn, at_loc_ne by done. lia. }
  unfold on_snd. rewrite Hnew. exists g, p1, h1, w1. split_and!; [done|done|].
  unfold p1, with_session. cbn. apply lookup_insert_eq.
Qed.

Lemma set_session_ok w0 p rs group session channel h w :
  slots_ok w0 (owners p rs) h w -> rp_sessions p !! group = Some session ->
  slots_ok w0 (owners (with_session group
    {| gs_channel := channel; gs_connection := gs_connection session |} p) rs) h w.
Proof.
  intros Hok Hs. eapply slots_ok_ext; [|exact Hok]. intros l. unfold owners, with_session.
  cbn [rp_sessions]. by rewrite session_owners_same.
Qed.

(** The exchange of an update, ingested over its open session. *)
Lemma ingest_ok w0 p rs group session x channel h w :
  rp_sessions p !! group = Some session -> slots_ok w0 (owners p rs) h w ->
  let '(r, (p', (h', w'))) := on_fst (ingest group x) (with_session group
    {| gs_channel := Some channel; gs_connection := gs_connection session |} p, (h, w)) in
  r <> Diverge /\ slots_ok w0 (owners p' rs) h' w' /\
  (r = Ok tt -> forall session, rp_sessions p' !! group = Some session -> gs_channel session <> None).
Proof.
  intros Hs Hok. pose proof (set_session_ok w0 p rs group session (Some channel) h w Hok Hs) as Hok3.
  set (p2 := with_session _ _ p) in *. pose proof (ingest_sessions group x p2) as Hi.
  unfold on_fst. assert (Hd : fst (ingest group x p2) <> Diverge).
  { unfold ingest. destruct x as [[] []]; try done. by destruct (negb _). }
  destruct (ingest group x p2) as [r p3]. cbn [fst snd] in *. split_and!; [done| |].
  - eapply slots_ok_ext; [|exact Hok3]. intros l. unfold owners. by rewrite Hi.
  - intros _ s'. rewrite Hi. unfold p2, with_session. cbn [rp_sessions]. rewrite lookup_insert_eq.
    by intros [= <-].
Qed.

Lemma update_ok w0 p rs group h w :
  slots_ok w0 (owners p rs) h w ->
  match update group (p, (h, w)) with
  | (Diverge, _) => True
  | (x, (p', (h', w'))) => slots_ok w0 (owners p' rs) h' w' /\
      (x = Ok tt -> forall session, rp_sessions p' !! group = Some session ->
         gs_channel session <> None)
  end.
Proof.
  intros Hok. destruct (session_entry_ok w0 p rs group h w Hok) as
    (session & p1 & h1 & w1 & Hrun & Hok1 & Hs).
  unfold update. rewrite (ST_bind_step _ _ _ _ _ Hrun).
  rewrite (ST_bind_step reader _ (p1, (h1, w1)) p1 (p1, (h1, w1)) eq_refl).
  pose proof (fun x channel h2 w2 => ingest_ok w0 p1 rs group session x channel h2 w2 Hs) as Hingest.
  destruct (gs_channel session) as [channel|] eqn:Ech.
  - unfold on_snd, with_local, catch. st_cbn. unfold on_fst at 1.
    destruct (refresh channel) as [[x|e|y|] channel']; try done.
    + specialize (Hingest x channel' h1 w1 Hok1). cbn [set_session]. fold (with_session group
        {| gs_channel := Some channel'; gs_connection := gs_connection session |} p1).
      destruct (on_fst _ _) as [[[]|e|y|] [p' [h' w']]]; by destruct Hingest as (? & ? & ?).
    + cbn [set_session]. split; [|done]. by apply (set_session_ok w0 p1).
  - set (conn := TcpConnect _ _).
    assert (Hcall : on_snd (on_snd (call conn)) (p1, (h1, w1)) =
      (Ok (fst (exec conn (env w1))), (p1, (h1, after conn w1)))).
    { unfold on_snd. by rewrite call_after. }
    rewrite (ST_bind_step _ _ _ _ _ Hcall). clear Hcall.
    assert (Hok2 : slots_ok w0 (owners p1 rs) h1 (after conn w1)).
    { apply (slots_ok_moves w0 _ h1 w1); [by apply neutral_moves|done|done]. }
    set (w2 := after conn w1) in *. set (res := fst (exec conn (env w1))). clearbody w2 res. st_cbn.
    destruct (channel_connect (match res with inl s => Ok s | inr e => Err e end)) as [channel|e|y|];
      try done.
    pose proof (fresh_session_ok w0 (owners p1 rs) p1 group (gs_connection session) channel h1 w2 Hok2
      (owners_session p1 rs group session Hs)) as Hf.
    unfold on_snd at 1, with_local.
    destruct (fresh_session p1 group (gs_connection session) (channel, (h1, w2)))
      as [[x|e|y|] [channel2 [h3 w3]]]; try done; destruct Hf as [Hok3 _]; try done.
    specialize (Hingest x channel2 h3 w3 Hok3). cbn [set_session]. fold (with_session group
        {| gs_channel := Some channel2; gs_connection := gs_connection session |} p1).
    destruct (on_fst _ _) as [[[]|e|y|] [p' [h' w']]]; by destruct Hingest as (? & ? & ?).
Qed.

(** ** Accesses *)

(** The uses of a region, with their arguments. *)
Inductive region_use :=
| ReadInto (offset size : Z) (buf : ptr * Z)
| Read (offset size : Z)
| ReadIntoTyped (T : rtype) (offset : Z) (buf : ptr * Z)
| ReadTyped (T : rtype) (offset count : Z)
| Write (offset : Z) (buf : ptr * Z)
| WriteTyped (T : rtype) (offset : Z) (buf : ptr * Z).

Abbreviation MS := (ST (gmap Z GroupConnection * world W)).

Definition use_region (fuel : nat) (r : RemoteMemoryRegion) (u : region_use) : MS unit :=
  match u with
  | ReadInto offset size buf => region_read_into fuel r offset size buf
  | Read offset size => _ ← region_read fuel r offset size; mret tt
  | ReadIntoTyped T offset buf => region_read_into_typed fuel r T offset buf
  | ReadTyped T offset count => _ ← region_read_typed fuel r T offset count; mret tt
  | Write offset buf => region_write fuel r offset buf
  | WriteTyped T offset buf => region_write_typed fuel r T offset buf
  end.

Create HintDb settles discriminated.

Section uses.
Context (w0 : world W) (n : Z -> Z).

Definition kept_slots (s : gmap Z GroupConnection * world W) : Prop := slots_ok w0 n (fst s) (snd s).

(** The slot of a region with a connection is ready for an access. *)
Lemma slots_ok_ready h w r g c :
  slots_ok w0 n h w -> h !! rr_connection r = Some g -> gc_connection g = Some c ->
  exists i, ready r h w c i.
Proof.
  intros (A & B & L) Hg Hc. destruct (sb_live _ _ _ B _ g c Hg Hc) as [(_ & _ & (pd & Hpd) & _) _].
  assert (H : 1 <= ledger w (RRef pd)).
  { rewrite L. pose proof (ledger_ref_nonneg w0 pd A).
    pose proof (map_sum_ge (fun g => tally (RRef pd) (slot_owned g)) _ g h
      ltac:(intros; apply tally_nonneg) Hg) as Hs.
    unfold slots_hold. cbn in Hs. unfold slot_owned in Hs at 1. rewrite Hc in Hs.
    pose proof (owned_ref c true pd Hpd). lia. }
  cbn [ledger] in H. destruct (arcs w !! pd) as [i|] eqn:Hi; [|lia].
  exists i, g, pd. by split_and!.
Qed.

Lemma settles_on_snd {A} (m : ST (world W) A) :
  preserves (fun w w' => moves w w' [] []) m -> preserves frame m -> settles kept_slots (on_snd m).
Proof.
  intros Hm Hf [h w] Hok. specialize (Hm w). specialize (Hf w). unfold on_snd.
  destruct (m w) as [[a|e|y|] w']; cbn [snd] in *; try done.
  all: apply (slots_ok_moves w0 n h w); [done|apply Hf|done].
Qed.

Lemma framed_on_snd_access fuel name opcode r offset buf size :
  preserves (fun s s' : gmap Z GroupConnection * world W => frame (snd s) (snd s'))
    (access (fun c => one_sided fuel c name opcode) r offset buf size).
Proof.
  unfold access, group_connection_get, mr_drop. apply (preserves_bind _).
  { apply (preserves_pure _). intros [h w]. unfold slot_get. by destruct (_ !! _). }
  intros g. apply (preserves_bind _).
  { apply (preserves_on_snd frame). destruct (gc_connection g); eauto with preserves. }
  intros c. apply (preserves_on_snd frame), (preserves_bind _); [apply framed_register_addr|].
  intros mr. apply (preserves_finally _).
  - apply (preserves_bind _); [eauto with preserves|]. intros; apply framed_one_sided.
  - apply (preserves_bind _); [apply framed_call|]. intros. eauto with preserves.
Qed.

Lemma settles_access fuel name opcode r offset buf size :
  settles kept_slots (access (fun c => one_sided fuel c name opcode) r offset buf size).
Proof.
  intros [h w] Hok. destruct (h !! rr_connection r) as [g|] eqn:Hg.
  2: { unfold access, slot_get. st_cbn. by rewrite Hg. }
  destruct (gc_connection g) as [c|] eqn:Hc.
  2: { unfold access, slot_get, group_connection_get, on_snd. st_cbn. rewrite Hg. st_cbn. by rewrite Hc. }
  destruct (slots_ok_ready h w r g c Hok Hg Hc) as [i Hready].
  pose proof (access_spec fuel name opcode r offset buf size h w c i Hready) as H.
  pose proof (framed_on_snd_access fuel name opcode r offset buf size (h, w)) as Hf.
  destruct (access _ _ _ _ _ _) as [x [h' w']]. destruct H as [[-> Hm] _]. cbn [snd] in Hf.
  destruct x; try done; (apply (slots_ok_moves w0 n h w); [by apply Hm|apply Hf|done]).
Qed.

Lemma settles_typed_offset op r T offset count : settles kept_slots (typed_offset (W := W) op r T offset count).
Proof.
  apply settles_pure. intros s. unfold typed_offset, check_elem. destruct (_ && _); [|done].
  st_cbn. destruct (_ <? _); [by destruct (elements_of r T)|].
  destruct (uint_add _ _ _); try done. by destruct (negb _).
Qed.

Lemma settles_read_into fuel r offset size buf : settles kept_slots (region_read_into fuel r offset size buf).
Proof.
  unfold region_read_into. destruct (_ <? _); [by apply settles_pure|].
  destruct (_ <? _); [by apply settles_pure|]. apply settles_access.
Qed.

Lemma settles_read_into_typed fuel r T offset buf :
  settles kept_slots (region_read_into_typed fuel r T offset buf).
Proof.
  unfold region_read_into_typed. apply settles_bind; [apply settles_typed_offset|].
  intros; apply settles_access.
Qed.

Lemma settles_call {T} (c : ccall T) : neutral c -> settles kept_slots (on_snd (call c)).
Proof. intros Hc. apply settles_on_snd; [by apply steady_call|apply framed_call]. Qed.

Hint Resolve settles_bind settles_read_into settles_read_into_typed settles_access
  settles_typed_offset : settles.
Hint Extern 1 (settles _ (on_snd (call _))) => by apply settles_call : settles.
Hint Extern 2 (settles _ _) => by apply settles_pure : settles.

Lemma settles_use fuel r u : settles kept_slots (use_region fuel r u).
Proof.
  destruct u; cbn [use_region].
  - apply settles_read_into.
  - unfold region_read. eauto 10 with settles.
  - apply settles_read_into_typed.
  - unfold region_read_typed. eauto 10 with settles.
  - unfold region_write. destruct (_ <? _); [by apply settles_pure|apply settles_access].
  - apply settles_bind; [apply settles_typed_offset|]. intros; apply settles_access.
Qed.
End uses.

(** ** Lookups, clones and drops *)
Lemma region_owners_cons r rs l : region_owners (r :: rs) l = at_loc l (rr_connection r) + region_owners rs l.
Proof. done. Qed.

Lemma lookup_ok w0 p rs metadata group h w :
  slots_ok w0 (owners p rs) h w ->
  exists found h' w', get_remote_mr metadata group (p, (h, w)) = (Ok found, (p, (h', w'))) /\
    slots_ok w0 (owners p (option_list found ++ rs)) h' w'.
Proof.
  intros Hok. unfold get_remote_mr, reader. st_cbn.
  destruct (rp_regions p !! _) as [cached|]; [|by exists None, h, w].
  destruct (List.find _ cached) as [c|]; [|by exists None, h, w].
  assert (Hn : forall r l, owners p (r :: rs) l = owners p rs l + at_loc l (rr_connection r)).
  { intros r l. unfold owners. rewrite region_owners_cons. lia. }
  destruct (rp_sessions p !! cr_group c) as [session|] eqn:Es.
  - set (l := gs_connection session).
    destruct (slot_clone_ok w0 (owners p rs) (owners p (region_of l c :: rs)) h w l Hok) as (h' & Hc & Hok').
    { by apply (owners_session p rs (cr_group c)). }
    { rewrite Hn. cbn. by rewrite at_loc_eq. }
    { intros l' Hl'. rewrite Hn. cbn. rewrite at_loc_ne by done. lia. }
    unfold on_snd. rewrite Hc. by exists (Some (region_of l c)), h', w.
  - destruct (slots_fresh _ _ _ _ Hok) as [_ Hz]. set (l := next_loc w) in *.
    destruct (slot_new_ok w0 (owners p rs) (owners p (region_of l c :: rs)) h w Hok) as (h' & w' & Hc & Hok').
    { rewrite Hn. cbn. fold l. rewrite at_loc_eq. lia. }
    { intros l' Hl'. rewrite Hn. cbn. rewrite at_loc_ne by done. lia. }
    unfold on_snd. rewrite Hc. by exists (Some (region_of l c)), h', w'.
Qed.

Section regions.
Context (w0 : world W) (m : Z -> Z) (Hm : forall l, 0 <= m l).

Lemma region_clone_ok rs r h w :
  slots_ok w0 (fun l => m l + region_owners rs l) h w -> r ∈ rs ->
  exists r' h', region_clone r (h, w) = (Ok r', (h', w)) /\
    slots_ok w0 (fun l => m l + region_owners (r' :: rs) l) h' w.
Proof.
  intros Hok Hr. pose proof (region_owner rs r Hr) as H1. specialize (Hm (rr_connection r)).
  destruct (slot_clone_ok w0 _ (fun l => m l + region_owners (r :: rs) l) h w (rr_connection r) Hok)
    as (h' & Hc & Hok').
  { lia. }
  { rewrite region_owners_cons, at_loc_eq. lia. }
  { intros l' Hl'. rewrite region_owners_cons, at_loc_ne by done. lia. }
  unfold region_clone. rewrite (ST_bind_step _ _ _ _ _ Hc). do 2 eexists. split; [done|].
  eapply slots_ok_ext; [|exact Hok']. done.
Qed.

Lemma region_drop_ok rs1 r rs2 h w :
  slots_ok w0 (fun l => m l + region_owners (rs1 ++ r :: rs2) l) h w ->
  exists h' w', region_drop r (h, w) = (Ok tt, (h', w')) /\
    slots_ok w0 (fun l => m l + region_owners (rs1 ++ rs2) l) h' w'.
Proof.
  intros Hok.
  assert (Hn : forall l, region_owners (rs1 ++ r :: rs2) l =
    region_owners (rs1 ++ rs2) l + at_loc l (rr_connection r)).
  { intros l. unfold region_owners. rewrite !sum_over_app. cbn. lia. }
  pose proof (region_owners_nonneg (rs1 ++ rs2) (rr_connection r)). specialize (Hm (rr_connection r)).
  apply (slot_drop_ok w0 _ _ h w _ Hok).
  - rewrite Hn, at_loc_eq. lia.
  - rewrite Hn, at_loc_eq. lia.
  - intros l' Hl'. rewrite Hn, at_loc_ne by done. lia.
Qed.

Lemma reader_drop_ok order h w :
  slots_ok w0 (fun l => sum_over (fun kx => at_loc l (gs_connection (snd kx))) order + m l) h w ->
  exists h' w', reader_drop order (h, w) = (Ok tt, (h', w')) /\ slots_ok w0 m h' w'.
Proof.
  revert h w. induction order as [|[group g] order IH]; intros h w Hok; [by exists h, w|].
  assert (Hpos : 0 <= sum_over (fun kx => at_loc (gs_connection g) (gs_connection (snd kx))) order)
    by (apply sum_over_nonneg; intros; apply at_loc_nonneg).
  pose proof (Hm (gs_connection g)) as Hm0.
  destruct (slot_drop_ok w0 _ (fun l => sum_over (fun kx : Z * GroupSession =>
      at_loc l (gs_connection (snd kx))) order + m l) h w (gs_connection g) Hok) as (h1 & w1 & Hd & Hok1).
  - cbn [sum_over snd]. rewrite at_loc_eq. lia.
  - cbn [sum_over snd]. rewrite at_loc_eq. lia.
  - intros l' Hl'. cbn [sum_over snd]. rewrite (at_loc_ne l') by done. lia.
  - destruct (IH h1 w1 Hok1) as (h' & w' & Hd' & Hok'). exists h', w'. split; [|done].
    unfold reader_drop in *. cbn [for_each snd]. by rewrite (ST_bind_step _ _ _ _ _ Hd).
Qed.
End regions.

(** ** The life of a reader *)

(** The provider until it is dropped, the regions its user holds, the
    slots and the libraries. *)
Record life := Life {
  lf_reader : option RemoteMemoryProvider;
  lf_regions : list RemoteMemoryRegion;
  lf_slots : gmap Z GroupConnection;
  lf_world : world W;
}.

(** Whole operations; one that never returns takes no step. *)
Inductive life_step (fuel : nat) : life -> life -> Prop :=
| LifeUpdate p rs h w group x p' h' w' :
    update group (p, (h, w)) = (x, (p', (h', w'))) -> x <> Diverge ->
    life_step fuel (Life (Some p) rs h w) (Life (Some p') rs h' w')
| LifeLookup p rs h w metadata group found p' h' w' :
    get_remote_mr metadata group (p, (h, w)) = (Ok found, (p', (h', w'))) ->
    life_step fuel (Life (Some p) rs h w) (Life (Some p') (option_list found ++ rs) h' w')
| LifeUse o rs h w r u x h' w' :
    r ∈ rs -> use_region fuel r u (h, w) = (x, (h', w')) -> x <> Diverge ->
    life_step fuel (Life o rs h w) (Life o rs h' w')
| LifeClone o rs h w r r' h' w' :
    r ∈ rs -> region_clone r (h, w) = (Ok r', (h', w')) ->
    life_step fuel (Life o rs h w) (Life o (r' :: rs) h' w')
| LifeDropRegion o rs1 r rs2 h w h' w' :
    region_drop r (h, w) = (Ok tt, (h', w')) ->
    life_step fuel (Life o (rs1 ++ r :: rs2) h w) (Life o (rs1 ++ rs2) h' w')
| LifeDropReader p rs h w order h' w' :
    Permutation order (map_to_list (rp_sessions p)) ->
    reader_drop order (h, w) = (Ok tt, (h', w')) ->
    life_step fuel (Life (Some p) rs h w) (Life None rs h' w').

(** How many sessions and regions hold a slot. *)
Definition holding (o : option RemoteMemoryProvider) (l : Z) : Z :=
  match o with Some p => session_owners (rp_sessions p) l | None => 0 end.
Definition life_owners (st : life) (l : Z) : Z := holding (lf_reader st) l + region_owners (lf_regions st) l.
Definition life_ok (w0 : world W) (st : life) : Prop :=
  slots_ok w0 (life_owners st) (lf_slots st) (lf_world st).

Lemma holding_nonneg o l : 0 <= holding o l.
Proof. destruct o; [apply session_owners_nonneg|done]. Qed.

Lemma holding_list p order l :
  Permutation order (map_to_list (rp_sessions p)) ->
  holding (Some p) l = sum_over (fun kx => at_loc l (gs_connection (snd kx))) order.
Proof.
  intros Ho. cbn [holding]. unfold session_owners. rewrite map_sum_list.
  symmetry. exact (sum_over_Permutation _ _ _ Ho).
Qed.

Lemma life_step_ok fuel w0 st st' : life_step fuel st st' -> life_ok w0 st -> life_ok w0 st'.
Proof.
  intros Hs Hok. unfold life_ok, life_owners in *.
  destruct Hs as [p rs h w group x p' h' w' E Hx|p rs h w md grp found p' h' w' E|
    o rs h w r u x h' w' Hr E Hx|o rs h w r r' h' w' Hr E|o rs1 r rs2 h w h' w' E|
    p rs h w order h' w' Ho E]; cbn [lf_reader lf_regions lf_slots lf_world] in *.
  - pose proof (update_ok w0 p rs group h w Hok) as H. rewrite E in H.
    destruct x; try done; by destruct H.
  - destruct (lookup_ok w0 p rs md grp h w Hok) as (f & h1 & w1 & E1 & Hok1).
    rewrite E1 in E. by injection E as <- <- <- <-.
  - pose proof (settles_use w0 _ fuel r u (h, w) Hok) as H. rewrite E in H. by destruct x.
  - destruct (region_clone_ok w0 (holding o) (holding_nonneg o) rs r h w Hok Hr) as (r1 & h1 & E1 & Hok1).
    rewrite E1 in E. by injection E as <- <- <-.
  - destruct (region_drop_ok w0 (holding o) (holding_nonneg o) rs1 r rs2 h w Hok) as (h1 & w1 & E1 & Hok1).
    rewrite E1 in E. by injection E as <- <-.
  - destruct (reader_drop_ok w0 (region_owners rs) (region_owners_nonneg rs) order h w) as (h1 & w1 & E1 & Hok1).
    { eapply slots_ok_ext; [|exact Hok]. intros l. cbn beta. by rewrite (holding_list p order). }
    rewrite E1 in E. by injection E as <- <-.
Qed.

Lemma life_start w0 addr : wf_world w0 -> life_ok w0 (Life (Some (reader_new addr)) [] ∅ w0).
Proof.
  intros Hw. split_and!; [done| |].
  - split; cbn; try done. intros l [g Hg]. done.
  - intros r. unfold slots_hold. cbn. rewrite map_sum_empty. lia.
Qed.

Lemma life_reachable fuel w0 addr st :
  wf_world w0 -> rtc (life_step fuel) (Life (Some (reader_new addr)) [] ∅ w0) st -> life_ok w0 st.
Proof.
  intros Hw Hr. pose proof (life_start w0 addr Hw) as H0. revert H0.
  induction Hr as [|st1 st2 st3 Hs _ IH]; [done|]. intros H. by apply IH, (life_step_ok fuel w0 st1).
Qed.

(** C5: the life of a provider of remote regions: after any sequence of
    updates (first, later, failed, over a lost channel), lookups, reads
    and writes, clones and drops of regions, with the provider dropped at
    any point among them: every region still held has its slot, whose
    reference count is exactly the number of sessions and regions that
    hold it; the connections in the slots all work; what was acquired
    since the start is exactly what those connections own, so that
    nothing is leaked nor released twice, also when an update replaces a
    connection; clones, lookups and drops never fail; and when the
    provider and all its regions are gone, in whichever order, so is
    everything they ever acquired. *)
Theorem reader_life fuel w0 addr st :
  wf_world w0 -> rtc (life_step fuel) (Life (Some (reader_new addr)) [] ∅ w0) st ->
  (forall r, r ∈ lf_regions st -> is_Some (lf_slots st !! rr_connection r)) /\
  (forall l g, lf_slots st !! l = Some g ->
     gc_refs g = life_owners st l /\ 1 <= gc_refs g /\
     forall c, gc_connection g = Some c -> established c (lf_world st)) /\
  (forall r, ledger (lf_world st) r = ledger w0 r + slots_hold (lf_slots st) r) /\
  (forall r, r ∈ lf_regions st ->
     (exists r' s', region_clone r (lf_slots st, lf_world st) = (Ok r', s')) /\
     (exists s', region_drop r (lf_slots st, lf_world st) = (Ok tt, s'))) /\
  (forall p metadata group, lf_reader st = Some p ->
     exists found s', get_remote_mr metadata group (p, (lf_slots st, lf_world st)) = (Ok found, s')) /\
  (forall p order, lf_reader st = Some p -> Permutation order (map_to_list (rp_sessions p)) ->
     exists s', reader_drop order (lf_slots st, lf_world st) = (Ok tt, s')) /\
  (lf_reader st = None -> lf_regions st = [] ->
     lf_slots st = ∅ /\ forall r, ledger (lf_world st) r = ledger w0 r).
Proof.
  intros Hw Hr. pose proof (life_reachable fuel w0 addr st Hw Hr) as Hok. clear Hr.
  destruct st as [o rs h w]. unfold life_ok, life_owners in *. cbn [lf_reader lf_regions lf_slots lf_world] in *.
  pose proof Hok as (_ & B & L). split_and!.
  - intros r Hin. pose proof (region_owner rs r Hin). pose proof (holding_nonneg o (rr_connection r)).
    destruct (slots_ok_at _ _ _ _ (rr_connection r) Hok ltac:(lia)) as (g & Hg & _). by exists g.
  - intros l g Hg. pose proof (sb_refs _ _ _ B l) as Hl. rewrite Hg in Hl. split_and!; [lia..|].
    intros c Hc. apply (sb_live _ _ _ B l g c Hg Hc).
  - done.
  - intros r Hin. split.
    + destruct (region_clone_ok w0 (holding o) (holding_nonneg o) rs r h w Hok Hin) as (? & ? & E & _). eauto.
    + apply list_elem_of_split in Hin as (rs1 & rs2 & ->).
      destruct (region_drop_ok w0 (holding o) (holding_nonneg o) rs1 r rs2 h w Hok) as (? & ? & E & _). eauto.
  - intros p md grp ->. destruct (lookup_ok w0 p rs md grp h w Hok) as (? & ? & ? & E & _). eauto.
  - intros p order -> Ho.
    destruct (reader_drop_ok w0 (region_owners rs) (region_owners_nonneg rs) order h w) as (? & ? & E & _); [|eauto].
    eapply slots_ok_ext; [|exact Hok]. intros l. cbn beta. by rewrite (holding_list p order).
  - intros -> ->.
    assert (He : h = ∅).
    { apply map_eq. intros l. rewrite lookup_empty. pose proof (sb_refs _ _ _ B l) as Hl.
      cbn in Hl. destruct (h !! l); [lia|done]. }
    subst h. split; [done|]. intros r. rewrite L. unfold slots_hold. rewrite map_sum_empty. lia.
Qed.
End life.

(** ** Witness *)
Definition life_messages : list Message := Welcome PROTOCOL_VERSION :: sample_exchange.

(** A session, a region that outlives the provider, and both gone. *)
Lemma reader_life_witness :
  exists h w h' w', rtc (life_step (P := true) 0)
      (Life (Some (reader_new sample_remote)) [] ∅ (dial_world life_messages))
      (Life None [] h' w') /\
    (exists r, life_step (P := true) 0 (Life None [r] h w) (Life None [] h' w') /\
       is_Some (h !! rr_connection r)) /\
    h' = ∅ /\ forall r, ledger w' r = ledger (dial_world life_messages) r.
Proof.
  assert (E : exists p1 r h1 w1 h2 h3 w3 h4 w4,
    update (P := true) 3 (reader_new sample_remote, (∅, dial_world life_messages)) =
      (Ok tt, (p1, (h1, w1))) /\
    get_remote_mr (region_metadata sample_desc) None (p1, (h1, w1)) = (Ok (Some r), (p1, (h2, w1))) /\
    reader_drop (map_to_list (rp_sessions p1)) (h2, w1) = (Ok tt, (h3, w3)) /\
    region_drop r (h3, w3) = (Ok tt, (h4, w4))).
  { do 9 eexists. split; [vm_compute; reflexivity|]. split; [vm_compute; reflexivity|].
    split; [vm_compute; reflexivity|]. vm_compute. reflexivity. }
  destruct E as (p1 & r & h1 & w1 & h2 & h3 & w3 & h4 & w4 & E1 & E2 & E3 & E4).
  set (start := Life (Some (reader_new sample_remote)) [] ∅ (dial_world life_messages)).
  assert (Hr : rtc (life_step (P := true) 0) start (Life None [r] h3 w3)).
  { eapply rtc_l; [exact (LifeUpdate 0 _ [] _ _ 3 _ _ _ _ E1 ltac:(done))|].
    eapply rtc_l; [exact (LifeLookup 0 _ [] _ _ _ _ _ _ _ _ E2)|].
    apply rtc_once. exact (LifeDropReader 0 _ [r] _ _ _ _ _ (Permutation_refl _) E3). }
  assert (Hd : life_step (P := true) 0 (Life None [r] h3 w3) (Life None [] h4 w4)).
  { exact (LifeDropRegion 0 None [] r [] h3 w3 h4 w4 E4). }
  assert (Hw : wf_world (dial_world life_messages)).
  { intros pd i Hi. cbn in Hi. by rewrite lookup_empty in Hi. }
  exists h3, w3, h4, w4. split; [by eapply rtc_r|]. split.
  - exists r. split; [exact Hd|].
    apply (reader_life (P := true) 0 (dial_world life_messages) sample_remote _ Hw Hr). cbn.
    by apply list_elem_of_singleton.
  - apply (reader_life (P := true) 0 (dial_world life_messages) sample_remote (Life None [] h4 w4) Hw);
      [by eapply rtc_r|done|done].
Defined.
