(* ===== verification/Session.v ===== *)
(** * A session, end to end

    What the sharing side serves is what the reading side hands out: the
    bytes of a handshake, received by a reader, leave it with a region for
    every tuple, at the address, size and key it was registered with. *)
From S2P Require Import Prelude Pod Meta MetaFacts Channels Verbs VerbsSpec VerbsSim.
From S2P Require Import VerbsFacts VerbsOps Providers Readers ProvidersFacts.
From S2P Require Import ProviderOps ReaderSessions.

(** ** What a handshake sends *)
Section serving.
Context {P : Profile} {W : Type} {V : Verbs W} {VO : VerbsOk W} {HO : HashOrder} {HK : HashOrderOk}.

(** What a completed exchange has sent. *)
Lemma exchange_sent group c s w c' s' w' :
  wf_shared s w ->
  (exchange ← on_snd (catalog_and_tuples group); on_fst (send_exchange exchange)) (c, (s, w)) =
    (Ok tt, (c', (s', w'))) ->
  exists l fm ft, l ≡ₚ map_to_list (catalog s) /\
    encode (Metadata (map describe l)) = Ok fm /\
    encode (Tuples group (omap (listed s' group) l)) = Ok ft /\
    tx (stream c') = tx (stream c) ++ fm ++ ft /\
    wf_shared s' w' /\ catalog s' = catalog s /\ groups s' = groups s.
Proof.
  intros Hs (x & [c1 [s1 w1]] & E1 & H)%ST_bind_Ok.
  destruct (catalog_and_tuples_run group s w Hs) as (s2 & w2 & Hct & G).
  unfold on_snd in E1. rewrite Hct in E1. injection E1 as <- <- <- <-.
  unfold on_fst, send_exchange in H. cbn [fst snd] in H.
  destruct ((channel_send _;; channel_send _) c) as [[[]|e|y|] c2] eqn:E2; try done.
  injection H as <- <- <-. apply ST_bind_Ok in E2 as ([] & c3 & E3 & E4).
  destruct (channel_send_inv _ _ _ E3) as (fm & Em & T3).
  destruct (channel_send_inv _ _ _ E4) as (ft & Et & T4).
  exists (iter_catalog (catalog s)), fm, ft. split_and!; try done.
  - apply iter_catalog_perm.
  - rewrite T4, T3. by rewrite <- !app_assoc.
  - apply (gr_wf _ _ _ _ _ _ G).
  - by rewrite (gr_catalog _ _ _ _ _ _ G).
  - by rewrite (gr_groups _ _ _ _ _ _ G).
Qed.

(** What a completed handshake has sent. *)
Lemma handshake_sent rdma c s w group c' s' w' :
  wf_shared s w -> handshake_body rdma (c, (s, w)) = (Ok group, (c', (s', w'))) ->
  exists l fw fm ft, l ≡ₚ map_to_list (catalog s) /\
    encode (Welcome PROTOCOL_VERSION) = Ok fw /\
    encode (Metadata (map describe l)) = Ok fm /\
    encode (Tuples group (omap (listed s' group) l)) = Ok ft /\
    tx (stream c') = tx (stream c) ++ fw ++ fm ++ ft /\
    wf_shared s' w' /\ catalog s' = catalog s /\ is_Some (groups s' !! group).
Proof.
  intros Hs Hrun. pose proof (handshake_cases rdma c s w) as H. rewrite Hrun in H.
  destruct H as [[_ Hno]|(c1 & c2 & c3 & g & Hr1 & Hs1 & Hr2 & Heq)]; [by destruct (Hno group)|].
  clear Hrun. 
  pose proof (channel_receive_tx c) as T1. rewrite Hr1 in T1. cbn [snd] in T1.
  destruct (channel_send_inv _ _ _ Hs1) as (fw & Ew & T2).
  pose proof (channel_receive_tx c2) as T3. rewrite Hr2 in T3. cbn [snd] in T3.
  symmetry in Heq. 
  apply ST_bind_Ok in Heq as ([] & [c4 [s4 w4]] & E4 & Heq).
  unfold on_snd in E4. pose proof (rendezvous_run rdma g s w Hs) as Hrv.
  destruct (rendezvous rdma g (s, w)) as [[[]|e|y|] [s5 w5]]; try done. injection E4 as <- <- <-.
  destruct Hrv as (cn & pd & -> & Hs4 & _). set (s5 := joined s g pd cn) in *.
  assert (Hcat4 : catalog s5 = catalog s) by done.
  assert (Hex : (exchange ← on_snd (catalog_and_tuples g); on_fst (send_exchange exchange))
    (c3, (s5, w5)) = (Ok tt, (c', (s', w'))) /\ g = group).
  { apply ST_bind_Ok in Heq as (x & st & E6 & Heq). apply ST_bind_Ok in Heq as ([] & st2 & E8 & [= <- ->]).
    by rewrite (ST_bind_step _ _ _ _ _ E6). }
  destruct Hex as [Hex ->].
  destruct (exchange_sent group c3 s5 w5 c' s' w' Hs4 Hex) as (l & fm & ft & Hl & Em & Et & T4 & H1 & H2 & H3).
  exists l, fw, fm, ft. split_and!; try done.
  - rewrite T4, T3, T2, T1. by rewrite <- !app_assoc.
  - rewrite H3. cbn [joined groups s5]. by rewrite lookup_insert_eq.
Qed.

(** A completed handshake has sent the reader exactly three frames:
    the welcome, the whole catalog, and the tuples its group has, as they
    then are in the provider; the group exists, and the invariant of the
    shared state is kept. *)
Theorem handshake_serves rdma c s w group c' s' w' :
  wf_shared s w -> handshake_body rdma (c, (s, w)) = (Ok group, (c', (s', w'))) ->
  exists l fw fm ft, l ≡ₚ map_to_list (catalog s) /\
    encode (Welcome PROTOCOL_VERSION) = Ok fw /\
    encode (Metadata (map describe l)) = Ok fm /\
    encode (Tuples group (omap (listed s' group) l)) = Ok ft /\
    tx (stream c') = tx (stream c) ++ fw ++ fm ++ ft /\
    wf_shared s' w' /\ catalog s' = catalog s /\ is_Some (groups s' !! group).
Proof. apply handshake_sent. Qed.
End serving.

(** ** What a reader makes of it *)

Lemma NoDup_fst_unique {A B} (l : list (A * B)) (k : A) a b :
  NoDup (map fst l) -> (k, a) ∈ l -> (k, b) ∈ l -> a = b.
Proof.
  induction l as [|[k' c] l IH]; intros Hnd Ha Hb; [by inversion Ha|].
  cbn [map fst] in Hnd. inversion_clear Hnd as [|? ? Hni Hnd'].
  assert (Hno : forall x, (k', x) ∉ l).
  { intros x Hx. by apply (list_elem_of_fmap_2 fst) in Hx. }
  apply elem_of_cons in Ha, Hb.
  destruct Ha as [[= -> ->]|Ha], Hb as [E|Hb].
  - congruence.
  - by destruct (Hno b).
  - injection E as -> ->. by destruct (Hno a).
  - by apply IH.
Qed.

(** The only catalog entry with an id, the only tuple of a region. *)
Lemma last_region_described (l : list (Z * RegionInfo)) id info :
  NoDup (map fst l) -> (id, info) ∈ l ->
  last_region (ri_name info, id) (map describe l) = Some (describe (id, info)).
Proof.
  intros Hnd Hin. destruct (last_region (ri_name info, id) (map describe l)) as [d|] eqn:E.
  - f_equal. unfold last_region in E. apply list.last_Some_elem_of in E.
    apply list_elem_of_filter in E as [Hk Hd]. apply list_elem_of_fmap in Hd as ([id' info'] & -> & Hin').
    unfold key_of, describe in Hk. cbn in Hk. injection Hk as _ ->.
    by rewrite (NoDup_fst_unique l id info' info Hnd Hin' Hin).
  - apply last_region_live in E. destruct E.
    apply (list_elem_of_fmap_2 key_of (map describe l) (describe (id, info))).
    by apply (list_elem_of_fmap_2 describe l (id, info)).
Qed.

Lemma last_tuple_listed (s : Shared) group (l : list (Z * RegionInfo)) id info mr :
  (id, info) ∈ l -> tuples s !! (id, group) = Some mr ->
  last_tuple id (omap (listed s group) l) =
    Some {| td_region_id := id; td_remote_addr := mr_addr mr; td_size := mr_size mr;
            td_rkey := mr_rkey mr |}.
Proof.
  intros Hin Ht.
  assert (Hl : forall t, t ∈ filter (fun t => td_region_id t = id) (omap (listed s group) l) ->
    t = {| td_region_id := id; td_remote_addr := mr_addr mr; td_size := mr_size mr;
           td_rkey := mr_rkey mr |}).
  { intros t Hf. apply list_elem_of_filter in Hf as [Hid Hf].
    apply list_elem_of_omap in Hf as ([id' info'] & _ & Hlist). unfold listed in Hlist. cbn in Hlist.
    destruct (tuples s !! (id', group)) as [mr'|] eqn:E; [|done]. injection Hlist as <-.
    cbn in Hid. subst id'. congruence. }
  unfold last_tuple. destruct (list.last _) as [t|] eqn:E.
  - f_equal. apply Hl. by apply list.last_Some_elem_of.
  - apply list.last_None in E. exfalso.
    assert (H : {| td_region_id := id; td_remote_addr := mr_addr mr; td_size := mr_size mr;
            td_rkey := mr_rkey mr |} ∈ filter (fun t => td_region_id t = id) (omap (listed s group) l)).
    { apply list_elem_of_filter. split; [done|]. apply list_elem_of_omap.
      exists (id, info). split; [done|]. unfold listed. cbn. by rewrite Ht. }
    rewrite E in H. set_solver.
Qed.

Lemma last_tuple_unlisted (s : Shared) group (l : list (Z * RegionInfo)) id :
  tuples s !! (id, group) = None -> last_tuple id (omap (listed s group) l) = None.
Proof.
  intros Ht. unfold last_tuple. apply list.last_None.
  destruct (filter _ _) as [|t k] eqn:E; [done|]. exfalso.
  assert (Hf : t ∈ filter (fun t => td_region_id t = id) (omap (listed s group) l))
    by (rewrite E; left).
  apply list_elem_of_filter in Hf as [Hid Hf].
  apply list_elem_of_omap in Hf as ([id' info'] & _ & Hlist). unfold listed in Hlist. cbn in Hlist.
  destruct (tuples s !! (id', group)) as [mr'|] eqn:Et; [|done]. injection Hlist as <-.
  cbn in Hid. congruence.
Qed.

Lemma length_omap_le {A B} (f : A -> option B) l : (length (omap f l) <= length l)%nat.
Proof. induction l as [|a l IH]; cbn; [lia|]. destruct (f a); cbn; lia. Qed.

Section reading.
Context {P : Profile} {W : Type} {V : Verbs W}.

Lemma encode_hello : exists frame, encode (Hello PROTOCOL_VERSION) = Ok frame.
Proof. eexists. vm_compute. reflexivity. Qed.

Lemma encode_want_group group : exists frame, encode (WantGroup group) = Ok frame.
Proof. eexists. by apply encode_frame. Qed.

(** A fresh session whose peer serves an exchange. *)
Lemma fresh_session_run p group l ch h w refs c w2 rs ts fw fm ft tail :
  h !! l = Some {| gc_connection := None; gc_refs := refs |} ->
  connect (HostPort (ra_address (rp_addr p)) (ra_rdma_port (rp_addr p))) w = (Ok c, w2) ->
  tx_room (stream ch) = None -> rx (stream ch) = fw ++ fm ++ ft ++ tail ->
  encode (Welcome PROTOCOL_VERSION) = Ok fw -> encode (Metadata rs) = Ok fm ->
  encode (Tuples group ts) = Ok ft -> wf_msg (Metadata rs) -> wf_msg (Tuples group ts) ->
  zlen fw <= MAX_FRAME + 4 -> zlen fm <= MAX_FRAME + 4 -> zlen ft <= MAX_FRAME + 4 ->
  exists ch', fresh_session p group l (ch, (h, w)) =
    (Ok (Metadata rs, Tuples group ts),
     (ch', (<[l := {| gc_connection := Some c; gc_refs := refs |}]> h, w2))).
Proof.
  intros Hl Hc Hroom Hrx Ew Em Et Wm Wt Lw Lm Lt.
  destruct encode_hello as [fh Eh]. destruct (encode_want_group group) as [fg Eg].
  set (ch1 := sent_more ch fh).
  set (ch2 := received_rest ch1 (fm ++ ft ++ tail)). set (ch3 := sent_more ch2 fg).
  set (ch4 := received_rest ch3 (ft ++ tail)). set (ch5 := received_rest ch4 tail).
  assert (Hopen : open_session group ch = (Ok tt, ch3)).
  { unfold open_session. rewrite (ST_bind_step _ _ _ _ _ (channel_send_ok ch _ fh Hroom Eh)).
    fold ch1.
    assert (H1 : channel_receive ch1 = (Ok (Welcome PROTOCOL_VERSION), ch2)).
    { by apply (channel_receive_ok ch1 _ fw). }
    rewrite (ST_bind_step _ _ _ _ _ H1). change (PROTOCOL_VERSION =? PROTOCOL_VERSION) with true.
    rewrite (ST_bind_step _ _ ch2 tt ch2 eq_refl). by apply channel_send_ok. }
  assert (Hex : receive_exchange ch3 = (Ok (Metadata rs, Tuples group ts), ch5)).
  { unfold receive_exchange.
    assert (H1 : channel_receive ch3 = (Ok (Metadata rs), ch4)) by (by apply (channel_receive_ok ch3 _ fm)).
    assert (H2 : channel_receive ch4 = (Ok (Tuples group ts), ch5)) by (by apply (channel_receive_ok ch4 _ ft)).
    by rewrite (ST_bind_step _ _ _ _ _ H1), (ST_bind_step _ _ _ _ _ H2). }
  exists ch5. unfold fresh_session. st_cbn. unfold on_fst at 1. rewrite Hopen.
  unfold on_snd at 1. unfold on_snd at 1. rewrite Hc.
  unfold on_snd at 1. unfold slot_connect, slot_get, slot_set. st_cbn. rewrite Hl.
  cbn [gc_connection gc_refs drop_connection]. unfold on_snd at 1. st_cbn.
  unfold on_fst. by rewrite Hex.
Qed.
End reading.

(** ** End to end *)

(** The values of the shared state are of their Rust types, and the
    catalog can be counted in 32 bits. *)
Record in_range (s : Shared) : Prop := {
  ir_catalog : forall id info, catalog s !! id = Some info ->
    wf_region (describe (id, info)) /\ fits 64 (ri_remote_addr info);
  ir_count : fits 32 (Z.of_nat (size (catalog s)));
  ir_rkeys : forall key mr, tuples s !! key = Some mr -> fits 32 (mr_rkey mr);
}.

Lemma find_own_group group l k :
  List.find (matches (Some group)) (other_groups group l ++ k) = List.find (matches (Some group)) k.
Proof.
  unfold other_groups. induction l as [|c l IH]; [done|].
  destruct (decide (cr_group c = group)) as [E|E].
  - by rewrite filter_cons_False by tauto.
  - rewrite filter_cons_True by done. cbn [app List.find]. unfold matches at 1.
    rewrite (proj2 (Z.eqb_neq _ _) E). apply IH.
Qed.

Lemma listed_wf {W} {V : Verbs W} s (w : world W) group entry t :
  wf_shared s w -> in_range s -> listed s group entry = Some t -> wf_tuple t.
Proof.
  intros Hs Hr. unfold listed. destruct (tuples s !! (fst entry, group)) as [mr|] eqn:E; [|done].
  intros [= <-]. destruct (ws_tuples _ _ Hs _ _ _ E) as (info & i & Hi & _ & _ & Ha & Hz & _).
  destruct (ir_catalog _ Hr _ _ Hi) as [Hd Haddr].
  split; cbn; [apply Hd|by rewrite Ha|rewrite Hz; apply Hd|by eapply ir_rkeys].
Qed.

Section end_to_end.
Context {P : Profile} {W W' : Type} {V : Verbs W} {VO : VerbsOk W} {V' : Verbs W'}.

(** The reader's libraries after the session's slot is allocated and the
    TCP connection made. *)
Definition dialled (p : RemoteMemoryProvider) (w : world W') : world W' :=
  after (TcpConnect (ra_address (rp_addr p)) (ra_tcp_port (rp_addr p)))
    (World (env w) (log w) (arcs w) (cells w) (next_loc w + 1)).

Lemma update_fresh p group h w w2 stream c rs ts fw fm ft tail :
  rp_sessions p !! group = None ->
  fst (exec (TcpConnect (ra_address (rp_addr p)) (ra_tcp_port (rp_addr p))) (env w)) = inl stream ->
  setsockopt stream = None -> tx_room stream = None -> rx stream = fw ++ fm ++ ft ++ tail ->
  connect (HostPort (ra_address (rp_addr p)) (ra_rdma_port (rp_addr p))) (dialled p w) = (Ok c, w2) ->
  encode (Welcome PROTOCOL_VERSION) = Ok fw -> encode (Metadata rs) = Ok fm ->
  encode (Tuples group ts) = Ok ft -> wf_msg (Metadata rs) -> wf_msg (Tuples group ts) ->
  zlen fw <= MAX_FRAME + 4 -> zlen fm <= MAX_FRAME + 4 -> zlen ft <= MAX_FRAME + 4 ->
  exists channel, update group (p, (h, w)) =
    (Ok tt,
     ({| rp_addr := rp_addr p;
         rp_sessions := <[group := {| gs_channel := Some channel; gs_connection := next_loc w |}]>
           (rp_sessions p);
         rp_metadata := map region_metadata rs;
         rp_regions := ingest_regions group (tuples_by_id ts) (rp_regions p) rs |},
      (<[next_loc w := {| gc_connection := Some c; gc_refs := 1 |}]> h, w2))).
Proof.
  intros Hs Hdial Hopt Hroom Hrx Hc Ew Em Et Wm Wt Lw Lm Lt.
  set (ch := {| stream := {| rx := rx stream; rx_end := rx_end stream; tx := tx stream;
    tx_room := tx_room stream; tx_end := tx_end stream; read_timeout := Some IO_TIMEOUT;
    write_timeout := Some IO_TIMEOUT; setsockopt := setsockopt stream |} |}).
  set (w1 := World (env w) (log w) (arcs w) (cells w) (next_loc w + 1)).
  set (h1 := <[next_loc w := group_connection_empty]> h).
  set (p1 := {| rp_addr := rp_addr p;
    rp_sessions := <[group := {| gs_channel := None; gs_connection := next_loc w |}]> (rp_sessions p);
    rp_metadata := rp_metadata p; rp_regions := rp_regions p |}).
  destruct (fresh_session_run p1 group (next_loc w) ch h1 (dialled p w) 1 c w2 rs ts fw fm ft tail)
    as [ch' Hrun]; try done; [apply lookup_insert_eq|].
  exists ch'. unfold update.
  assert (E1 : session_entry group (p, (h, w)) =
    (Ok {| gs_channel := None; gs_connection := next_loc w |}, (p1, (h1, w1)))).
  { unfold session_entry, reader. st_cbn. by rewrite Hs. }
  rewrite (ST_bind_step _ _ _ _ _ E1).
  rewrite (ST_bind_step reader _ (p1, (h1, w1)) p1 (p1, (h1, w1)) eq_refl).
  cbn [gs_channel gs_connection].
  assert (E2 : on_snd (on_snd (call (TcpConnect (ra_address (rp_addr p1)) (ra_tcp_port (rp_addr p1)))))
    (p1, (h1, w1)) = (Ok (inl stream), (p1, (h1, dialled p w)))).
  { unfold on_snd. rewrite call_after. cbn [env w1 rp_addr p1]. by rewrite Hdial. }
  rewrite (ST_bind_step _ _ _ _ _ E2).
  assert (E3 : channel_connect (Ok stream) = Ok ch).
  { unfold channel_connect, channel_new, set_read_timeout, set_write_timeout. st_cbn.
    unfold ch. clear -Hopt. destruct stream; cbn in *. by subst. }
  rewrite E3. rewrite (ST_bind_step (lift (Ok ch)) _ _ ch _ eq_refl).
  assert (E4 : on_snd (with_local ch (fresh_session p1 group (next_loc w))) (p1, (h1, dialled p w)) =
    (Ok (Metadata rs, Tuples group ts, ch'),
     (p1, (<[next_loc w := {| gc_connection := Some c; gc_refs := 1 |}]> h1, w2)))).
  { unfold on_snd, with_local. by rewrite Hrun. }
  rewrite (ST_bind_step _ _ _ _ _ E4). unfold set_session, on_fst, ingest. st_cbn.
  rewrite Z.eqb_refl. cbn [negb p1 rp_addr rp_sessions rp_metadata rp_regions].
  unfold h1. by rewrite !insert_insert_eq.
Qed.

(** The lookup of a region whose own entry is the last one. *)
Lemma get_remote_mr_own p group (d : RegionDesc) l k h (w : world W') :
  rp_regions p !! key_of d = Some (other_groups group l ++ k) ->
  match k, rp_sessions p !! group with
  | [], _ => get_remote_mr (region_metadata d) (Some group) (p, (h, w)) = (Ok None, (p, (h, w)))
  | c :: _, Some session => cr_group c = group ->
      forall g, h !! gs_connection session = Some g ->
      get_remote_mr (region_metadata d) (Some group) (p, (h, w)) =
        (Ok (Some (region_of (gs_connection session) c)),
         (p, (<[gs_connection session :=
                  {| gc_connection := gc_connection g; gc_refs := gc_refs g + 1 |}]> h, w)))
  | _, None => True
  end.
Proof.
  intros Hk. pose proof (find_own_group group l k) as Hf.
  assert (Hrun : get_remote_mr (region_metadata d) (Some group) (p, (h, w)) =
    match List.find (matches (Some group)) k with
    | None => (Ok None, (p, (h, w)))
    | Some c => (connection ← match rp_sessions p !! cr_group c with
                   | Some session => on_snd (slot_clone (gs_connection session))
                   | None => on_snd (slot_new group_connection_empty)
                   end;
                 mret (Some (region_of connection c))) (p, (h, w))
    end).
  { unfold get_remote_mr, reader. st_cbn. cbn [region_metadata rm_name rm_id].
    unfold key_of in Hk. rewrite Hk. fold (matches (Some group)). rewrite Hf.
    by destruct (List.find _ k). }
  rewrite Hrun. destruct k as [|c k]; [done|].
  destruct (rp_sessions p !! group) as [session|] eqn:Es; [|done].
  intros Hg g Hh. cbn [List.find]. unfold matches at 1. rewrite Hg, Z.eqb_refl, Hg, Es.
  unfold on_snd, slot_clone, slot_get, slot_set. st_cbn. by rewrite Hh.
Qed.

(** The messages of a handshake, of a state in range. *)
Lemma served_messages (s : Shared) (w : world W) group l :
  wf_shared s w -> in_range s -> fits 32 group -> l ≡ₚ map_to_list (catalog s) ->
  NoDup (map fst l) /\ (forall id info, (id, info) ∈ l <-> catalog s !! id = Some info) /\
  wf_msg (Metadata (map describe l)) /\ wf_msg (Tuples group (omap (listed s group) l)).
Proof.
  intros Hs Hr Hg Hl.
  assert (Hin : forall id info, (id, info) ∈ l <-> catalog s !! id = Some info).
  { intros id info. rewrite Hl. apply elem_of_map_to_list. }
  assert (Hll : zlen l = Z.of_nat (size (catalog s))).
  { unfold zlen. rewrite Hl. by rewrite length_map_to_list. }
  pose proof (ir_count _ Hr) as Hcount. rewrite <- Hll in Hcount.
  split_and!; [|done| |].
  - change (NoDup (l.*1)). rewrite Hl. apply NoDup_fst_map_to_list.
  - split; [unfold zlen; by rewrite length_map|].
    apply list.Forall_forall. intros d Hd. apply list_elem_of_fmap in Hd as ([id info] & -> & Hd).
    by apply Hin, (ir_catalog _ Hr) in Hd as [? _].
  - split_and!; [done| |].
    + pose proof (length_omap_le (listed s group) l). unfold fits, zlen in *. lia.
    + apply list.Forall_forall. intros t Ht. apply list_elem_of_omap in Ht as (entry & _ & Ht).
      by apply (listed_wf s w group entry).
Qed.

(** The cache entry of a catalogued region after they are ingested. *)
Lemma ingested_region (s : Shared) group l m id info :
  NoDup (map fst l) -> (id, info) ∈ l ->
  ingest_regions group (tuples_by_id (omap (listed s group) l)) m (map describe l) !!
      key_of (describe (id, info)) =
    Some (other_groups group (default [] (m !! key_of (describe (id, info)))) ++
      match tuples s !! (id, group) with
      | Some mr => [cached_region group (describe (id, info))
          {| td_region_id := id; td_remote_addr := mr_addr mr; td_size := mr_size mr;
             td_rkey := mr_rkey mr |}]
      | None => []
      end).
Proof.
  intros Hnd Hin. rewrite ingest_regions_lookup.
  change (key_of (describe (id, info))) with (ri_name info, id).
  rewrite (last_region_described l id info Hnd Hin). cbn [fmap option_fmap option_map].
  unfold ingested. rewrite tuples_by_id_lookup. change (rd_id (describe (id, info))) with id.
  destruct (tuples s !! (id, group)) as [mr|] eqn:Et.
  - by rewrite (last_tuple_listed s group l id info mr Hin Et).
  - by rewrite last_tuple_unlisted.
Qed.

(** C1: a session, end to end: when the sharing side completes a
    handshake for a group, and a reader without a session for that group
    receives the bytes it sent, then the reader's update succeeds as soon
    as its RDMA connection does; its metadata is the provider's catalog;
    and looking up a catalogued region in the group hands out a region
    exactly when the provider has a tuple for it: at the address, of the
    size and with the element layout it was registered with, under the
    key of the group's registration, over the new connection. *)
Theorem session_end_to_end {HO : HashOrder} {HK : HashOrderOk}
    rdma c s (w w' : world W) group c' s' got rest p h (wr wr' : world W') peer cr :
  wf_shared s w -> handshake_body rdma (c, (s, w)) = (Ok group, (c', (s', w'))) ->
  in_range s' -> fits 32 group ->
  tx (stream c') = tx (stream c) ++ got -> zlen got <= MAX_FRAME ->
  rp_sessions p !! group = None ->
  fst (exec (TcpConnect (ra_address (rp_addr p)) (ra_tcp_port (rp_addr p))) (env wr)) = inl peer ->
  setsockopt peer = None -> tx_room peer = None -> rx peer = got ++ rest ->
  connect (HostPort (ra_address (rp_addr p)) (ra_rdma_port (rp_addr p))) (dialled p wr) = (Ok cr, wr') ->
  exists p' h', update group (p, (h, wr)) = (Ok tt, (p', (h', wr'))) /\
    rp_metadata p' ≡ₚ map (fun e => region_metadata (describe e)) (map_to_list (catalog s')) /\
    forall id info, catalog s' !! id = Some info ->
      let '(found, (_, (h2, _))) :=
        get_remote_mr (region_metadata (describe (id, info))) (Some group) (p', (h', wr')) in
      match tuples s' !! (id, group) with
      | None => found = Ok None
      | Some mr => exists slot,
          found = Ok (Some {| rr_connection := slot; rr_remote_addr := ri_remote_addr info;
            rr_size := ri_size info; rr_rkey := mr_rkey mr; rr_group := group;
            rr_elem_size := ri_elem_size info; rr_elem_align := ri_elem_align info;
            rr_elem_type := ri_elem_type info |}) /\
          gc_connection <$> h2 !! slot = Some (Some cr)
      end.
Proof.
  intros Hs Hrun Hr Hg Htx Hlen Hp Hdial Hopt Hroom Hrx Hc.
  destruct (handshake_sent rdma c s w group c' s' w' Hs Hrun) as
    (l & fw & fm & ft & Hl & Ew & Em & Et & Htx' & Hs' & Hcat & _).
  rewrite Htx in Htx'. apply app_inv_head in Htx'. subst got.
  rewrite !zlen_app in Hlen. rewrite <- !app_assoc in Hrx.
  pose proof (zlen_nonneg fw). pose proof (zlen_nonneg fm). pose proof (zlen_nonneg ft).
  rewrite <- Hcat in Hl. destruct (served_messages s' w' group l Hs' Hr Hg Hl) as (Hnd & Hin & Wm & Wt).
  destruct (update_fresh p group h wr wr' peer cr (map describe l) (omap (listed s' group) l)
    fw fm ft rest) as [channel Hup]; try done; try lia.
  eexists _, _. split; [exact Hup|]. cbn [rp_metadata].
  split; [rewrite map_map; by apply Permutation_map|].
  intros id info Hi. set (p' := {| rp_regions := _ |}).
  pose proof (ingested_region s' group l (rp_regions p) id info Hnd (proj2 (Hin _ _) Hi)) as Hreg.
  pose proof (get_remote_mr_own p' group (describe (id, info)) _ _
    (<[next_loc wr := {| gc_connection := Some cr; gc_refs := 1 |}]> h) wr' Hreg) as Hget.
  destruct (tuples s' !! (id, group)) as [mr|] eqn:Et'; [|by rewrite Hget].
  cbn [p' rp_sessions] in Hget. rewrite lookup_insert_eq in Hget.
  rewrite (Hget eq_refl _ (lookup_insert_eq _ _ _)).
  destruct (ws_tuples _ _ Hs' _ _ _ Et') as (info' & i & Hi' & _ & _ & Ha & Hz & _).
  exists (next_loc wr). cbn [gs_connection]. split.
  - unfold region_of, cached_region. cbn. rewrite Ha, Hz. congruence.
  - by rewrite lookup_insert_eq.
Qed.
End end_to_end.

(** ** Witnesses *)

(** What a reader that asks for group 3 sends; the provider's run. *)
Definition asking : Channel :=
  {| stream := sample_stream [Hello PROTOCOL_VERSION; WantGroup 3] |}.
Definition served :=
  handshake_body (P := true) (HO := map_order) sample_listener
    (asking, (offered, listening_world [4; 9])).

Lemma handshake_serves_witness :
  exists c' s' w', served = (Ok 3, (c', (s', w'))) /\ is_Some (groups s' !! 3) /\
    exists fw, encode (P := true) (Welcome PROTOCOL_VERSION) = Ok fw /\
      take (length fw) (tx (stream c')) = fw.
Proof.
  destruct served as [[g|e|y|] [c' [s' w']]] eqn:E; try (vm_compute in E; discriminate E).
  assert (Hg : g = 3) by (vm_compute in E; congruence). subst g.
  destruct (handshake_serves (P := true) (HO := map_order) (HK := map_order_ok) sample_listener asking
    offered (listening_world [4; 9]) 3 c' s' w' (offered_wf _) E) as
    (l & fw & fm & ft & _ & Ew & _ & _ & Htx & _ & _ & Hgr).
  exists c', s', w'. split; [done|]. split; [done|]. exists fw. split; [done|].
  rewrite Htx. change (tx (stream asking)) with (@nil byte). cbn [app].
  apply take_app_length.
Defined.

(** The bytes it sent, and a reader that receives them. *)
Definition delivered : list byte := tx (stream (fst (snd served))).
Definition peer_stream : TcpStream :=
  {| rx := delivered ++ []; rx_end := PeerClosed; tx := []; tx_room := None; tx_end := PeerClosed;
     read_timeout := None; write_timeout := None; setsockopt := None |}.
Definition reader_world : world sim :=
  world0 (s_with_streams
    (sim0 (map (fun t => {| se_type := t; se_status := 0 |}) [0; 2; 9])) [peer_stream]).

Lemma fits_compute w z : bool_decide (fits w z) = true -> fits w z.
Proof. by rewrite bool_decide_eq_true. Qed.

Lemma sample_described : wf_region (describe (5, sample_info)) /\ fits 64 (ri_remote_addr sample_info).
Proof.
  split; [split|]; try (split; [by vm_compute|]); by apply fits_compute; vm_compute.
Qed.

Lemma session_end_to_end_witness :
  exists p' h' w', update (P := true) 3 (reader_new sample_remote, (∅, reader_world)) =
      (Ok tt, (p', (h', w'))) /\
    exists slot rkey s2, get_remote_mr (region_metadata (describe (5, sample_info))) (Some 3)
        (p', (h', w')) = (Ok (Some {| rr_connection := slot; rr_remote_addr := 4096; rr_size := 32;
          rr_rkey := rkey; rr_group := 3; rr_elem_size := 8; rr_elem_align := 8;
          rr_elem_type := rstr "u64" |}), s2).
Proof.
  destruct served as [[g|e|y|] [c' [s' w']]] eqn:E; try (vm_compute in E; discriminate E).
  assert (Hg : g = 3) by (vm_compute in E; congruence). subst g.
  assert (Hc : tx (stream c') = delivered) by (unfold delivered; by rewrite E).
  assert (Hcat : catalog s' = {[ 5 := sample_info ]}) by (vm_compute in E; by injection E as _ <- _).
  destruct (connect (HostPort (rstr "host") 18515) (dialled (reader_new sample_remote) reader_world))
    as [[cr|e|y|] wr'] eqn:Ec; try (vm_compute in Ec; discriminate Ec).
  assert (Ht : exists mr, fits 32 (mr_rkey mr) /\ tuples s' = {[ (5, 3) := mr ]}).
  { vm_compute in E. injection E as _ <- _. eexists. split; [|reflexivity]. by apply fits_compute; vm_compute. }
  destruct Ht as (mr & Hmr & Htup).
  assert (Et : tuples s' !! (5, 3) = Some mr) by (rewrite Htup; apply lookup_singleton_eq).
  destruct (session_end_to_end (P := true) (HO := map_order) (HK := map_order_ok) sample_listener
    asking offered (listening_world [4; 9]) w' 3 c' s' delivered [] (reader_new sample_remote) ∅
    reader_world wr' peer_stream cr (offered_wf _) E) as (p' & h' & Hup & _ & Hget).
  - split.
    + intros id info. rewrite Hcat. intros H. apply lookup_singleton_Some in H as [<- <-].
      exact sample_described.
    + rewrite Hcat. by apply fits_compute; vm_compute.
    + intros key mr'. rewrite Htup. intros H. by apply lookup_singleton_Some in H as [_ <-].
  - by apply fits_compute; vm_compute.
  - by rewrite Hc.
  - by vm_compute.
  - done.
  - reflexivity.
  - done.
  - done.
  - reflexivity.
  - exact Ec.
  - exists p', h', wr'. split; [exact Hup|].
    specialize (Hget 5 sample_info ltac:(rewrite Hcat; reflexivity)). rewrite Et in Hget.
    destruct (get_remote_mr _ _ _) as [found s2]. destruct s2 as [p2 [h2 w2]].
    destruct Hget as (slot & -> & _). by exists slot, (mr_rkey mr), (p2, (h2, w2)).
Defined.
