(* ===== verification/SessionUpdate.v ===== *)
(** * An update, end to end

    Over an open session: the reader's request, the session thread's
    answer, and what the reader then hands out. *)
From S2P Require Import Prelude Pod Meta MetaFacts Channels Verbs VerbsSpec VerbsSim.
From S2P Require Import VerbsFacts VerbsOps Providers Readers ProvidersFacts.
From S2P Require Import ProviderOps ReaderSessions Session.

Section update.
Context {P : Profile} {W W' : Type} {V : Verbs W} {VO : VerbsOk W} {V' : Verbs W'}.

(** A round of a session thread that answers a request. *)
Lemma wait_for_updates_round {HO : HashOrder} fuel shutdown group c s (w : world W) c1 st :
  fst (exec (LoadFlag shutdown) (env w)) = false ->
  channel_receive c = (Ok Update, c1) ->
  (exchange ← on_snd (catalog_and_tuples group); on_fst (send_exchange exchange))
    (c1, (s, after (LoadFlag shutdown) w)) = (Ok tt, st) ->
  wait_for_updates (S fuel) shutdown group (c, (s, w)) = wait_for_updates fuel shutdown group st.
Proof.
  intros Hflag Hrecv Hex. cbn [wait_for_updates].
  assert (E1 : on_snd (X := Channel) (on_world (call (LoadFlag shutdown))) (c, (s, w)) =
    (Ok false, (c, (s, after (LoadFlag shutdown) w)))).
  { unfold on_snd, on_world. by rewrite call_after, Hflag. }
  rewrite (ST_bind_step _ _ _ _ _ E1). set (w1 := after _ w) in *.
  assert (E2 : catch (on_fst channel_receive) (c, (s, w1)) = (Ok (inl Update), (c1, (s, w1)))).
  { unfold catch, on_fst. by rewrite Hrecv. }
  rewrite (ST_bind_step _ _ _ _ _ E2).
  apply ST_bind_Ok in Hex as ([catalog tuples] & [c2 s2] & E3 & Hex). rewrite (ST_bind_step _ _ _ _ _ E3).
  unfold on_fst, send_exchange in Hex. cbn [fst snd] in Hex.
  destruct ((channel_send catalog;; channel_send tuples) c2) as [[[]|e|y|] c4] eqn:E4; try done.
  injection Hex as <-. apply ST_bind_Ok in E4 as ([] & c3 & E4 & E5).
  unfold catch, on_fst. st_cbn. by rewrite E4, E5.
Qed.

(** An update over an open session whose peer answers. *)
Lemma update_open p group h (w : world W') ch slot rs ts fu fm ft tail :
  rp_sessions p !! group = Some {| gs_channel := Some ch; gs_connection := slot |} ->
  tx_room (stream ch) = None -> rx (stream ch) = fm ++ ft ++ tail ->
  encode Update = Ok fu -> encode (Metadata rs) = Ok fm -> encode (Tuples group ts) = Ok ft ->
  wf_msg (Metadata rs) -> wf_msg (Tuples group ts) ->
  zlen fm <= MAX_FRAME + 4 -> zlen ft <= MAX_FRAME + 4 ->
  exists ch', tx (stream ch') = tx (stream ch) ++ fu /\ rx (stream ch') = tail /\
    update group (p, (h, w)) =
      (Ok tt,
       ({| rp_addr := rp_addr p;
           rp_sessions := <[group := {| gs_channel := Some ch'; gs_connection := slot |}]> (rp_sessions p);
           rp_metadata := map region_metadata rs;
           rp_regions := ingest_regions group (tuples_by_id ts) (rp_regions p) rs |}, (h, w))).
Proof.
  intros Hs Hroom Hrx Eu Em Et Wm Wt Lm Lt.
  set (ch1 := sent_more ch fu). set (ch2 := received_rest ch1 (ft ++ tail)).
  set (ch3 := received_rest ch2 tail).
  assert (Hr : refresh ch = (Ok (Metadata rs, Tuples group ts), ch3)).
  { unfold refresh, receive_exchange. rewrite (ST_bind_step _ _ _ _ _ (channel_send_ok ch _ fu Hroom Eu)).
    fold ch1.
    assert (H1 : channel_receive ch1 = (Ok (Metadata rs), ch2)) by (by apply (channel_receive_ok ch1 _ fm)).
    assert (H2 : channel_receive ch2 = (Ok (Tuples group ts), ch3)) by (by apply (channel_receive_ok ch2 _ ft)).
    by rewrite (ST_bind_step _ _ _ _ _ H1), (ST_bind_step _ _ _ _ _ H2). }
  exists ch3. split_and!; [done|done|].
  rewrite (update_open_run group p h w ch slot Hs), Hr. cbn zeta. unfold with_session, ingest.
  cbn [rp_addr rp_sessions rp_metadata rp_regions]. by rewrite Z.eqb_refl.
Qed.

(** C2: an update over an open session, end to end: when a session
    thread of a group takes an update request off its channel and answers
    it, it goes on waiting for the next one; and when the reader of that
    session, at the other end, receives the bytes it sent, its update
    succeeds: it has sent one update request, its metadata is the
    provider's catalog, and looking up a catalogued region in the group
    hands out a region exactly when the provider has a tuple for it, with
    the address, size, layout and key it has there, over the connection
    that the session already has. *)
Theorem update_end_to_end {HO : HashOrder} {HK : HashOrderOk}
    shutdown c c1 s (w w' : world W) group c' s' fu got rest p h (wr : world W') ch slot g :
  wf_shared s (after (LoadFlag shutdown) w) ->
  fst (exec (LoadFlag shutdown) (env w)) = false -> channel_receive c = (Ok Update, c1) ->
  (exchange ← on_snd (catalog_and_tuples group); on_fst (send_exchange exchange))
    (c1, (s, after (LoadFlag shutdown) w)) = (Ok tt, (c', (s', w'))) ->
  in_range s' -> fits 32 group ->
  tx (stream c') = tx (stream c1) ++ got -> zlen got <= MAX_FRAME -> encode Update = Ok fu ->
  rp_sessions p !! group = Some {| gs_channel := Some ch; gs_connection := slot |} ->
  h !! slot = Some g -> tx_room (stream ch) = None -> rx (stream ch) = got ++ rest ->
  (forall fuel, wait_for_updates (S fuel) shutdown group (c, (s, w)) =
     wait_for_updates fuel shutdown group (c', (s', w'))) /\
  exists p' ch', update group (p, (h, wr)) = (Ok tt, (p', (h, wr))) /\
    tx (stream ch') = tx (stream ch) ++ fu /\ rx (stream ch') = rest /\
    rp_sessions p' = <[group := {| gs_channel := Some ch'; gs_connection := slot |}]> (rp_sessions p) /\
    rp_metadata p' ≡ₚ map (fun e => region_metadata (describe e)) (map_to_list (catalog s')) /\
    forall id info, catalog s' !! id = Some info ->
      let '(found, (_, (h2, _))) :=
        get_remote_mr (region_metadata (describe (id, info))) (Some group) (p', (h, wr)) in
      match tuples s' !! (id, group) with
      | None => found = Ok None
      | Some mr =>
          found = Ok (Some {| rr_connection := slot; rr_remote_addr := ri_remote_addr info;
            rr_size := ri_size info; rr_rkey := mr_rkey mr; rr_group := group;
            rr_elem_size := ri_elem_size info; rr_elem_align := ri_elem_align info;
            rr_elem_type := ri_elem_type info |}) /\
          gc_connection <$> h2 !! slot = Some (gc_connection g)
      end.
Proof.
  intros Hs Hflag Hrecv Hex Hr Hg Htx Hlen Eu Hp Hslot Hroom Hrx.
  split; [intros fuel; by apply (wait_for_updates_round fuel shutdown group c s w c1)|].
  destruct (exchange_sent group c1 s _ c' s' w' Hs Hex) as (l & fm & ft & Hl & Em & Et & Htx' & Hs' & Hcat & _).
  rewrite Htx in Htx'. apply app_inv_head in Htx'. subst got.
  rewrite zlen_app in Hlen. rewrite <- app_assoc in Hrx.
  pose proof (zlen_nonneg fm). pose proof (zlen_nonneg ft).
  rewrite <- Hcat in Hl. destruct (served_messages s' w' group l Hs' Hr Hg Hl) as (Hnd & Hin & Wm & Wt).
  destruct (update_open p group h wr ch slot (map describe l) (omap (listed s' group) l) fu fm ft rest)
    as (ch' & Htx' & Hrx' & Hup); try done; try lia.
  eexists _, ch'. split; [exact Hup|]. cbn [rp_metadata rp_sessions].
  split_and!; [done|done|done|rewrite map_map; by apply Permutation_map|].
  intros id info Hi. set (p' := {| rp_regions := _ |}).
  pose proof (ingested_region s' group l (rp_regions p) id info Hnd (proj2 (Hin _ _) Hi)) as Hreg.
  pose proof (get_remote_mr_own p' group (describe (id, info)) _ _ h wr Hreg) as Hget.
  destruct (tuples s' !! (id, group)) as [mr|] eqn:Et'; [|by rewrite Hget].
  cbn [p' rp_sessions] in Hget. rewrite lookup_insert_eq in Hget. cbn [gs_connection] in Hget.
  rewrite (Hget eq_refl g Hslot).
  destruct (ws_tuples _ _ Hs' _ _ _ Et') as (info' & i & Hi' & _ & _ & Ha & Hz & _). split.
  - unfold region_of, cached_region. cbn. rewrite Ha, Hz. congruence.
  - by rewrite lookup_insert_eq.
Qed.
End update.

(** ** Witness *)

(** A reader of group 3 that asks for an update, and the provider's
    answer: its session's channel, and the libraries of a running
    service. *)
Definition requesting : Channel := {| stream := sample_stream [Update] |}.
Definition running_world : world sim :=
  World (s_with_streams (env group_world) [sample_stream []]) [] (arcs group_world)
    (cells group_world) (next_loc group_world).
Definition answered_update :=
  (exchange ← on_snd (catalog_and_tuples (HO := map_order) 3); on_fst (send_exchange (P := true) exchange))
    (snd (channel_receive (P := true) requesting), (sample_shared, after (LoadFlag 0) running_world)).
Definition answer : list byte := tx (stream (fst (snd answered_update))).

(** The reader's end, and its slot. *)
Definition open_channel : Channel :=
  {| stream := {| rx := answer ++ []; rx_end := PeerClosed; tx := []; tx_room := None; tx_end := PeerClosed;
       read_timeout := None; write_timeout := None; setsockopt := None |} |}.
Definition open_reader : RemoteMemoryProvider :=
  {| rp_addr := sample_remote; rp_sessions := {[ 3 := {| gs_channel := Some open_channel; gs_connection := 3 |} ]};
     rp_metadata := []; rp_regions := ∅ |}.

Lemma update_end_to_end_witness :
  exists p', update (P := true) 3 (open_reader, ({[ 3 := group_connection_empty ]}, world0 (sim0 []))) =
      (Ok tt, (p', ({[ 3 := group_connection_empty ]}, world0 (sim0 [])))) /\
    exists rkey s2, get_remote_mr (region_metadata (describe (5, sample_info))) (Some 3)
        (p', ({[ 3 := group_connection_empty ]}, world0 (sim0 []))) =
      (Ok (Some {| rr_connection := 3; rr_remote_addr := 4096; rr_size := 32;
          rr_rkey := rkey; rr_group := 3; rr_elem_size := 8; rr_elem_align := 8;
          rr_elem_type := rstr "u64" |}), s2).
Proof.
  destruct answered_update as [[[]|e|y|] [c' [s' w']]] eqn:E; try (vm_compute in E; discriminate E).
  assert (Hc : tx (stream c') = answer) by (unfold answer; by rewrite E).
  assert (Hcat : catalog s' = {[ 5 := sample_info ]}) by (vm_compute in E; by injection E as _ <- _).
  assert (Ht : exists mr, fits 32 (mr_rkey mr) /\ tuples s' = {[ (5, 3) := mr ]}).
  { vm_compute in E. injection E as _ <- _. eexists. split; [|reflexivity]. by apply fits_compute; vm_compute. }
  destruct Ht as (mr & Hmr & Htup).
  assert (Et : tuples s' !! (5, 3) = Some mr) by (rewrite Htup; apply lookup_singleton_eq).
  assert (Hs : wf_shared sample_shared (after (LoadFlag 0) running_world))
    by (destruct sample_shared_wf as [A B C D]; by split).
  destruct (update_end_to_end (P := true) (HO := map_order) (HK := map_order_ok) 0 requesting
    (snd (channel_receive (P := true) requesting)) sample_shared running_world w' 3 c' s'
    (match encode (P := true) Update with Ok f => f | _ => [] end) answer [] open_reader
    {[ 3 := group_connection_empty ]} (world0 (sim0 [])) open_channel 3 group_connection_empty Hs)
    as (_ & p' & ch' & Hup & _ & _ & _ & _ & Hget).
  - reflexivity.
  - vm_compute. reflexivity.
  - exact E.
  - split.
    + intros id info. rewrite Hcat. intros H. apply lookup_singleton_Some in H as [<- <-].
      exact sample_described.
    + rewrite Hcat. by apply fits_compute; vm_compute.
    + intros key mr'. rewrite Htup. intros H. by apply lookup_singleton_Some in H as [_ <-].
  - by apply fits_compute; vm_compute.
  - rewrite Hc. vm_compute. reflexivity.
  - by vm_compute.
  - vm_compute. reflexivity.
  - reflexivity.
  - reflexivity.
  - done.
  - reflexivity.
  - exists p'. split; [exact Hup|].
    specialize (Hget 5 sample_info ltac:(rewrite Hcat; reflexivity)). rewrite Et in Hget.
    destruct (get_remote_mr _ _ _) as [found s2]. destruct s2 as [p2 [h2 w2]].
    destruct Hget as [-> _]. by exists (mr_rkey mr), (p2, (h2, w2)).
Defined.
